(* ===== verification/_CoqProject ===== *)
-Q . S2P
Prelude.v
Buf.v
Utils.v
Chunker.v
Dedup.v
ChunkCache.v
CacheWriter.v
ProtocolUtils.v
AnyPeer.v
SharedCache.v
Programs.v
BTreeSet.v
RevCrc.v
FactorioProtocol.v
FactorioServerProxy.v
FactorioClientProxy.v
FactorioRouting.v
FactorioSystem.v
ZipWriter.v
FactorioWorld.v
EndToEnd.v
SharedWorlds.v
Lz4Frame.v
NebulaProtocol.v
Wire.v
NebulaProxy.v
NebulaConnection.v
NebulaSession.v
Effects.v
Main.v
