(* ===== verification/Prelude.v ===== *)
(** * Factory Cacher: a verification library

    Factory Cacher consists of two programs that sit between the players of a game and
    its server and send the large, mostly unchanged save data of the game as chunks that
    the client side has in a cache: factorio-cacher for Factorio (UDP, a zip file per
    world) and dsp-nebula-cacher for Dyson Sphere Program with the Nebula mod (WebSocket
    messages with LZ4 data).  Both use the crate common: content-defined chunking, a
    Merkle tree of chunk lists, a chunk cache and the exchange of chunks over a stream.

    ** Files and what they model

    The files of src/common/src:
    - [Prelude]: bytes, integers with their widths, [result] (a value, an error or a
      panic), the emitting monad of the streams, list lemmas, automation.
    - [Buf]: the readers and writers of the crate bytes that the code uses; [BufExt] of
      utils.rs.
    - [Utils]: [abbreviate_number] of utils.rs, for the log.
    - [Chunker] (chunker.rs): the rolling hash and the iterator of chunks.
    - [Dedup] (dedup.rs): [ChunkList] and its serialisation, [chunk_data],
      [minimize_chunk_list], [prefetch_metadata_chunks], [reconstruct_data]; the trait
      ChunkProvider as a class, with the laws [ProviderSpec] that its clients rely on.
    - [ChunkCache] (chunk_cache.rs): the LRU cache, the batches of chunks to fetch with the
      table of pending chunks, critical section by critical section, and the cache file;
      the same with tasks that abandon their batch or their wait and with the mutex that a
      panic poisons ([FaultySystem]).
    - [CacheWriter] (chunk_cache.rs, [start_writer] and [try_save]): the saving task on a
      disk of paths and files, with [with_extension] of [std], and what fails or stops on
      the way.
    - [ProtocolUtils] (protocol_utils.rs): framed messages, the two halves of a stream,
      [provide_chunks_as_requested] and the [ChunkFetcherProvider], an instance of
      ChunkProvider.
    - [AnyPeer] (protocol_utils.rs): the loops of both ends in any surroundings: the other end
      sends anything or nothing, reads and writes fail or never finish, the events of other
      tasks are never closed, the mutex is poisoned.
    - [SharedCache] (protocol_utils.rs, chunk_cache.rs): any number of transfers on one
      cache, each a sequence of provider calls cut where [get_chunk] suspends.
    - [Programs] (lib.rs, cli_args.rs): [create_chunk_cache] on a disk, and the runs of a
      client one after the other.

    The files of src/factorio-cacher/src:
    - [BTreeSet]: the ordered set of block ids ([std]).
    - [RevCrc] (rev_crc.rs): the reversed CRC and [forge_crc].
    - [FactorioProtocol] (factorio_protocol.rs): packets of the game.
    - [FactorioServerProxy] and [FactorioClientProxy] (proxy/): the state machines
      [ServerProxyState] and [ClientProxyState], one definition per handler, and the
      reassembly of a downloaded world.
    - [FactorioRouting] (proxy/, protocol.rs, lan_discovery.rs): the select loops
      [run_client_proxy], [proxy_client], [run_server_proxy], [proxy_server] and
      [lan_discovery_task], one function per turn, over bounded queues.
    - [FactorioSystem]: both proxies and the network as one step relation.
    - [ZipWriter] (zip_writer.rs) and [FactorioWorld] (factorio_world.rs): taking a world
      apart and rebuilding one of an announced size and CRC.
    - [EndToEnd]: the two functions [transfer_world_data] and a download from the heartbeat
      that announces it to the world the player gets.
    - [SharedWorlds]: the downloads of several players through one cache.

    The files of src/dsp-nebula-cacher/src:
    - [Lz4Frame] (lz4_frame_encoder.rs): the encoder and a reference of the frame format.
    - [NebulaProtocol] (nebula_protocol/): headers, [deconstruct] and [reconstruct] of the
      three packets.
    - [Wire] (nebula_protocol/, factorio_protocol.rs): the packets of both games on arbitrary bytes.
    - [NebulaProxy] (protocol.rs, proxy/): the copying loops over WebSocket frames, with
      the streams of the packets that are sent as chunks.
    - [NebulaConnection] (proxy/): [handle_request], [run_server_proxy] and the start of
      [proxy_server]: how the streams of several players share one connection.  Opening a
      stream, writing its id and writing the rest are separate steps, and a stream may be
      dropped, or the connection lost, in between.
    - [NebulaSession] (proxy/): [run_client_proxy], [handle_connection], [handle_ws_connection] and
      [proxy_server]: one player's session, both directions at a time.

    The programs themselves:
    - [Effects]: trees of calls with panics, values that are dropped and Ctrl-C; their
      executions, whole or of a process that is killed, monitors of executions and the
      conditions under which they accept.
    - [Main] (main.rs of both programs, quic.rs, upnp.rs, lib.rs, cli_args.rs, [get_local_ip]
      of utils.rs): from the options to the proxies and back, on every way out.

    ** How the code is modelled

    A function that mutates its receiver takes and returns the state; [anyhow::Result] is
    [result], and what panics ([expect], slices out of range, [copy_from_slice]) is a
    [Panic] value, so that its absence is a statement; a panic on a blocking thread is an
    error of the task that waits for it ([spawn_blocking]).  Integers are [Z] with the
    wrap-around of a release build written out ([wrap]) and a checked operation as a
    test.  A stream of chunks is a computation that emits byte strings ([emitM]), a QUIC
    stream the bytes that the client wrote into it and how far it has read what the other
    end, a function of these bytes, answers with (a stream on which writes fail, or nothing
    more comes, is in [AnyPeer]); a time stamp the time at which a handler
    runs.  What the other tasks do to the cache while a fetcher waits is a parameter
    ([others]); a theorem that needs them to deliver what they fetch says so
    ([others_deliver]).  Tasks that share state are step relations: the critical sections of the cache
    ([ChunkCache]), the operations of the writer on the disk ([CacheWriter]), the turns of
    the loops ([FactorioSystem]), the steps of fetching tasks ([SharedCache]) and the streams of
    a connection ([NebulaConnection]); the
    log of [FactorioSystem], the snapshots of [CacheWriter] and the owners of the streams in
    [NebulaConnection] exist for the statements only.

    Loops that are not structural have fuel.  Where the fuel is computed from the input
    (the length of the data for the chunker, the number of frames for the Nebula server
    loop, the pending bytes for the LZ4 encoder) the theorems show that it is enough.
    Where it bounds the depth of a chunk tree, the theorems give a depth and hold for
    every larger fuel.  The accept loop of a server ([Main]) takes the number of connections
    after which it waits for good; the theorems hold for every number.

    Code that is not in src/ is a parameter with its documented behaviour as laws: BLAKE3
    ([Blake3], digests of 32 bytes), [LinkedHashMap], zstd ([Zstd]), rmp-serde ([RmpSerde]),
    the crates crc ([CrcImpl]), zip ([ZipReader]), flate2 ([Zlib], [Deflate]), the search of
    memchr ([Memmem]), [twox_hash] ([XxHash32]), [lz4_flex] ([Lz4Decoder]), the VarInt of quinn-proto ([VarInt]), the
    channels of tokio ([Mpsc]), the requests and URIs of hyper ([Http])
    and the frames of fastwebsockets ([WsCodec]).  Every theorem that uses such a law has a witness with a
    concrete instance.  That digests do not collide is a hypothesis about the blobs of one
    run, where it is needed.

    ** What is proved

    - Deduplication: the chunker partitions the data within its size limits, cuts at the
      first cut point, resynchronises after an edit, and its rolling hash is the hash of
      the window; chunk lists round-trip; chunking, minimising and reconstructing gives
      back the data, through any provider; metadata is prefetched level by level.
    - Cache: the cache is an LRU list within its size; a chunk is fetched by one task at a
      time, whichever tasks fail, and its waiters are released when it is fulfilled; a saved
      cache is restored, and a crash at any point of a save leaves the old or the new file,
      if the temporary file is another one; a file loads if its chunks are within the limit
      of the reader, and then, after any runs of the client, with any size limits,
      the next one starts, with the newest chunks that fit; a load accepts verified chunks
      only.
    - Chunk exchange: the fetcher obtains every chunk that the server has, on a stream that
      the server's loop serves to its end without an error; it accepts nothing whose digest
      is wrong.  In any surroundings the fetcher begins no more turns than it has pending chunks,
      the server answers exactly the requests that it can, and the places where either of
      them waits, fails or panics are known.  Transfers that share a cache with room for their chunks all complete, in any
      interleaving and within a bound on their steps, and together they download no chunk
      twice; so the worlds of several players, downloaded at the same time, all arrive.
    - Packets: on any bytes the decoders return a value of its type or an error, and accept
      exactly what the encoders write.
    - Factorio: the server's state machine never panics, forwards every packet once and
      downloads the exact world; the client's answers every block request from the rebuilt
      world; the rebuilt world has the announced size and CRC and the same files, if it fits into the
      announced size, and otherwise it is an error; a player's packets and blocks never
      reach another player, and a packet of the game changes only where it names the
      announced world, ids and queues stay in bounds, and
      packets get through in both directions; and, composed, a world that the server announces is what the
      player's game receives.
    - Nebula: the LZ4 frame is the reference frame with the size announced before it; a
      packet taken apart and rebuilt reads the same; and, composed, from the upgrade
      request of a player on, the game server gets the player's frames and the player the
      same messages in the same order; the
      streams of several players never get mixed up, and a task gets the stream it waits for,
      unless a stream that ends before its id, or the loss of the connection, ends the server.
    - Programs: in every execution players or clients are served after the port of the
      gateway was opened, if it is to be, and its removal is requested before the program
      ends, unless it is killed; an endpoint is bound, connected, used and closed in that
      order, and Ctrl-C leads to a regular end once it is waited for.
    - Failures: what the code does with a damaged cache file, an abandoned batch, an
      evicted chunk, a poisoned mutex, a failed save, a cache file with the extension of the
      temporary one, a stream without an id, a failed handshake and a packet that cannot be
      rebuilt.

    ** What is not modelled, and the plan

    Not modelled: the parsing of command lines by argh, the texts of the log, and what the
    libraries do inside the calls of [Main] (TLS, the WebSocket handshake, the search for a
    gateway): their answers are arbitrary.  Memory limits are not modelled: a reservation
    that is too large is reported as a finding, not as a step.  Timers appear as branches
    that may be taken. *)

From Stdlib Require Import ZArith Lia NArith.
From Stdlib Require Strings.Byte.
From Stdlib Require Import ssreflect.
From stdpp Require Import base numbers list gmap countable strings.

#[global] Open Scope Z_scope.

(** ** Bytes

    A Rust [u8] is Rocq's [Byte.byte]; [b2z] reads it as an integer and [z2b]
    is the truncating cast [as u8]. *)

Abbreviation bytes := (list Byte.byte).

Definition b2z (b : Byte.byte) : Z := Z.of_N (Byte.to_N b).

Definition z2b (z : Z) : Byte.byte :=
  match Byte.of_N (Z.to_N (z mod 256)) with
  | Some b => b
  | None => Byte.x00
  end.

Lemma b2z_range b : 0 <= b2z b < 256.
Proof. rw /b2z. pose proof (Byte.to_N_bounded b). lia. Qed.

Lemma b2z_z2b z : b2z (z2b z) = z mod 256.
Proof.
  rw /z2b /b2z.
  have Hz : 0 <= z mod 256 < 256 by apply Z.mod_pos_bound.
  destruct (Byte.of_N (Z.to_N (z mod 256))) as [b|] eqn:E.
  - apply Byte.to_of_N in E. rw E. lia.
  - apply Byte.of_N_None_iff in E. lia.
Qed.

Lemma b2z_inj b1 b2 : b2z b1 = b2z b2 -> b1 = b2.
Proof.
  rw /b2z => H. apply N2Z.inj in H.
  pose proof (Byte.of_to_N b1) as H1. pose proof (Byte.of_to_N b2) as H2.
  rw H in H1. congruence.
Qed.

Lemma z2b_b2z b : z2b (b2z b) = b.
Proof.
  apply b2z_inj. rw b2z_z2b Z.mod_small //. apply b2z_range.
Qed.

#[global] Instance byte_eq_dec : EqDecision Byte.byte := Byte.byte_eq_dec.

#[global] Instance byte_inhabited : Inhabited Byte.byte := populate Byte.x00.

#[global] Program Instance byte_countable : Countable Byte.byte :=
  inj_countable Byte.to_N Byte.of_N _.
Next Obligation. apply Byte.of_to_N. Qed.

(** ** Lengths and byte slices

    Sizes are integers ([usize] and [u64] of the source); [len] is [.len()],
    [ztake] and [zdrop] are the slices [[..n]] and [[n..]]. *)

Abbreviation len l := (Z.of_nat (length l)).

Definition ztake {A} (n : Z) (l : list A) : list A := take (Z.to_nat n) l.
Definition zdrop {A} (n : Z) (l : list A) : list A := drop (Z.to_nat n) l.
Definition zeroed (n : Z) : bytes := replicate (Z.to_nat n) Byte.x00.

(** [Vec::resize]/[BytesMut::resize] with a zero filler. *)
Definition resize0 (n : Z) (l : bytes) : bytes :=
  ztake n l ++ zeroed (n - len l).

Create Rewrite HintDb len.
#[export] Hint Rewrite @length_app @length_take @length_drop @length_fmap
  @length_replicate @length_reverse @length_nil @length_cons @length_insert : len.

(** Normalise list lengths in the goal and the context, then call [lia]. *)
Ltac len_norm :=
  unfold resize0, ztake, zdrop, zeroed in *;
  autorewrite with len in *.
Ltac len_lia := len_norm; lia.

Section slices.
Context {A : Type}.
Implicit Types l k : list A.

Lemma ztake_zdrop n l : ztake n l ++ zdrop n l = l.
Proof. apply take_drop. Qed.

Lemma len_ztake n l : 0 <= n <= len l -> len (ztake n l) = n.
Proof. len_lia. Qed.

Lemma len_zdrop n l : 0 <= n <= len l -> len (zdrop n l) = len l - n.
Proof. len_lia. Qed.

Lemma ztake_app n l k : n = len l -> ztake n (l ++ k) = l.
Proof. move=> ->. rw /ztake Nat2Z.id. apply take_app_length. Qed.

Lemma zdrop_app n l k : n = len l -> zdrop n (l ++ k) = k.
Proof. move=> ->. rw /zdrop Nat2Z.id. apply drop_app_length. Qed.

Lemma ztake_all n l : len l <= n -> ztake n l = l.
Proof. move=> H. rw /ztake take_ge //. lia. Qed.

Lemma ztake_app_le n l k : n <= len l -> ztake n (l ++ k) = ztake n l.
Proof. move=> H. rw /ztake take_app_le //. lia. Qed.

Lemma zdrop_app_le n l k : n <= len l -> zdrop n (l ++ k) = zdrop n l ++ k.
Proof. move=> H. rw /zdrop drop_app_le //. lia. Qed.

Lemma zdrop_zdrop n m l : 0 <= n -> 0 <= m -> zdrop n (zdrop m l) = zdrop (n + m) l.
Proof. move=> Hn Hm. rw /zdrop drop_drop. f_equal. lia. Qed.

Lemma ztake_0 l : ztake 0 l = [].
Proof. done. Qed.

Lemma zdrop_0 l : zdrop 0 l = l.
Proof. done. Qed.
End slices.

Lemma len_zeroed n : 0 <= n -> len (zeroed n) = n.
Proof. len_lia. Qed.

Lemma len_resize0 n l : 0 <= n -> len (resize0 n l) = n.
Proof. len_lia. Qed.

Lemma resize0_grow n l : len l <= n -> resize0 n l = l ++ zeroed (n - len l).
Proof. move=> H. by rw /resize0 ztake_all. Qed.

(** ** Fixed-width integers

    An unsigned [w]-bit integer is an integer in [[0, 2^w)]; [wrap w] is the
    reduction of the [wrapping_*] operations and of the [as] casts. *)

Definition wrap (w z : Z) : Z := z mod 2 ^ w.
Definition in_u (w z : Z) : Prop := 0 <= z < 2 ^ w.

(** The same as a test. *)
Definition in_ub (w z : Z) : bool := (0 <=? z) && (z <? 2 ^ w).

Lemma in_ub_true w z : in_ub w z = true <-> in_u w z.
Proof. rw /in_ub /in_u andb_true_iff Z.leb_le Z.ltb_lt. lia. Qed.

Lemma in_ub_intro w z : in_u w z -> in_ub w z = true.
Proof. apply in_ub_true. Qed.

Abbreviation U8_MAX := 255 (only parsing).
Abbreviation U16_MAX := 65535 (only parsing).
Abbreviation U32_MAX := 4294967295 (only parsing).
Abbreviation U64_MAX := 18446744073709551615 (only parsing).

Lemma wrap_range w z : 0 <= w -> in_u w (wrap w z).
Proof. move=> H. apply Z.mod_pos_bound. lia. Qed.

Lemma wrap_small w z : in_u w z -> wrap w z = z.
Proof. apply Z.mod_small. Qed.

(** Congruence modulo [2^w], as the setoid of the standard library: [wrap] may
    be dropped anywhere below [+], [-] and [*]. *)
Definition weqm (w : Z) : relation Z := Zdiv.eqm (2 ^ w).

#[global] Instance weqm_equiv w : Equivalence (weqm w).
Proof. apply Zdiv.eqm_setoid. Qed.
#[global] Instance weqm_add w : Proper (weqm w ==> weqm w ==> weqm w) Z.add.
Proof. apply Zdiv.Zplus_eqm. Qed.
#[global] Instance weqm_sub w : Proper (weqm w ==> weqm w ==> weqm w) Z.sub.
Proof. apply Zdiv.Zminus_eqm. Qed.
#[global] Instance weqm_mul w : Proper (weqm w ==> weqm w ==> weqm w) Z.mul.
Proof. apply Zdiv.Zmult_eqm. Qed.

Lemma wrap_eqm w a b : weqm w a b -> wrap w a = wrap w b.
Proof. done. Qed.

Lemma wrap_eqm_l w a : weqm w (wrap w a) a.
Proof. apply Zdiv.Zmod_eqm. Qed.

Lemma eqm_eq w a b : a = b -> weqm w a b.
Proof. by move=> ->. Qed.

(** Little-endian and big-endian encodings of an [n]-byte integer. *)
Fixpoint le_bytes (n : nat) (z : Z) : bytes :=
  match n with
  | O => []
  | S n => z2b z :: le_bytes n (z / 256)
  end.

Fixpoint le_val (l : bytes) : Z :=
  match l with
  | [] => 0
  | b :: l => b2z b + 256 * le_val l
  end.

Definition be_bytes (n : nat) (z : Z) : bytes := reverse (le_bytes n z).
Definition be_val (l : bytes) : Z := le_val (reverse l).

Lemma length_le_bytes n z : length (le_bytes n z) = n.
Proof. elim: n z => [|n IH] z //=. by rw IH. Qed.

Lemma length_be_bytes n z : length (be_bytes n z) = n.
Proof. by rw /be_bytes length_reverse length_le_bytes. Qed.

#[export] Hint Rewrite length_le_bytes length_be_bytes : len.

Lemma le_val_bytes n z : le_val (le_bytes n z) = wrap (8 * Z.of_nat n) z.
Proof.
  rw /wrap. elim: n z => [|n IH] z; first by rw /= Z.mod_1_r.
  cbn [le_bytes le_val]. rw b2z_z2b IH.
  replace (8 * Z.of_nat (S n)) with (8 + 8 * Z.of_nat n) by lia.
  rw Z.pow_add_r; [lia..|]. change (2 ^ 8) with 256.
  rw Z.rem_mul_r; lia.
Qed.

Lemma le_val_range l : in_u (8 * len l) (le_val l).
Proof.
  rw /in_u. elim: l => [|b l IH]; first done.
  cbn [le_val length]. pose proof (b2z_range b).
  replace (8 * Z.of_nat (S (length l))) with (8 + 8 * len l) by lia.
  rw Z.pow_add_r; [lia..|]. change (2 ^ 8) with 256. lia.
Qed.

Lemma le_bytes_val n l : length l = n -> le_bytes n (le_val l) = l.
Proof.
  move=> <-. elim: l => [|b l IH] //.
  cbn [length le_bytes le_val]. pose proof (b2z_range b).
  f_equal.
  - apply b2z_inj. rw b2z_z2b. rw (Z.mul_comm 256) Z.mod_add; [lia|]. by apply Z.mod_small.
  - rw (Z.mul_comm 256) Z.div_add; [lia|]. by rw Z.div_small.
Qed.

Lemma le_val_le_bytes n z : in_u (8 * Z.of_nat n) z -> le_val (le_bytes n z) = z.
Proof. move=> H. by rw le_val_bytes wrap_small. Qed.

Lemma be_val_be_bytes n z : in_u (8 * Z.of_nat n) z -> be_val (be_bytes n z) = z.
Proof. move=> H. by rw /be_val /be_bytes reverse_involutive le_val_le_bytes. Qed.

Lemma be_val_range l : in_u (8 * len l) (be_val l).
Proof. rw /be_val -(length_reverse l). apply le_val_range. Qed.

Lemma be_bytes_val n l : length l = n -> be_bytes n (be_val l) = l.
Proof.
  move=> H. rw /be_bytes /be_val le_bytes_val ?length_reverse //. apply reverse_involutive.
Qed.

(** ** Results

    A Rust function returns a value, returns an [Err], or panics.  [Err] keeps
    the errors the source distinguishes: the [TryGetError] of a short buffer,
    an [io::Error] of kind [UnexpectedEof], an [anyhow!] message, and an error
    that a third-party crate reported (with the name of the failed call). *)

Inductive error :=
| TryGetError (requested available : Z)
| UnexpectedEof
| Anyhow (msg : string)
| LibError (call : string).

Inductive result (A : Type) :=
| Ok (a : A)
| Err (e : error)
| Panic (msg : string).
Arguments Ok {A} a.
Arguments Err {A} e.
Arguments Panic {A} msg.

#[global] Instance error_eq_dec : EqDecision error.
Proof. solve_decision. Defined.
#[global] Instance result_eq_dec `{EqDecision A} : EqDecision (result A).
Proof. solve_decision. Defined.

#[global] Instance result_ret : MRet result := @Ok.
#[global] Instance result_bind : MBind result := fun A B f m =>
  match m with
  | Ok a => f a
  | Err e => Err e
  | Panic p => Panic p
  end.
#[global] Instance result_fmap : FMap result := fun A B f m =>
  match m with
  | Ok a => Ok (f a)
  | Err e => Err e
  | Panic p => Panic p
  end.

Definition is_ok {A} (r : result A) : bool :=
  match r with Ok _ => true | _ => false end.

Lemma bind_ok {A B} (f : A -> result B) a : (Ok a ≫= f) = f a.
Proof. done. Qed.

Lemma bind_ok_inv {A B} (m : result A) (f : A -> result B) b :
  (m ≫= f) = Ok b -> exists a, m = Ok a /\ f a = Ok b.
Proof. case: m => //= a H. by exists a. Qed.

(** Equations between values, without the reductions of [injection]. *)
Lemma ok_inj {A} (a b : A) : Ok a = Ok b -> a = b.
Proof. by move=> [= ->]. Qed.

Lemma ok_pair_inj {A B} (a a' : A) (b b' : B) : Ok (a, b) = Ok (a', b') -> a = a' /\ b = b'.
Proof. by move=> [= -> ->]. Qed.

(** [.ok_or_else(..)] and [.expect(..)] on an option. *)
Definition ok_or {A} (o : option A) (e : error) : result A :=
  match o with Some a => Ok a | None => Err e end.
Definition expect {A} (o : option A) (msg : string) : result A :=
  match o with Some a => Ok a | None => Panic msg end.

(** [usize::try_into().expect(msg)] to an unsigned [w]-bit integer. *)
Definition try_into (w z : Z) (msg : string) : result Z :=
  if z <? 2 ^ w then Ok z else Panic msg.

Lemma try_into_ok w z msg : z < 2 ^ w -> try_into w z msg = Ok z.
Proof. move=> H. rw /try_into. by case: Z.ltb_spec => // ?; lia. Qed.

Lemma try_into_bind {A} w z msg (f : Z -> result A) : z < 2 ^ w -> (try_into w z msg ≫= f) = f z.
Proof. move=> H. by rw try_into_ok. Qed.

Lemma try_into_inv w z msg x : try_into w z msg = Ok x -> x = z /\ z < 2 ^ w.
Proof. rw /try_into. case: Z.ltb_spec => // ? [<-]. done. Qed.

(** [tokio::task::spawn_blocking(..).await?]: a panic of the closure ends its thread and
    comes back as a [JoinError]. *)
Definition spawn_blocking {A} (r : result A) : result A :=
  match r with
  | Panic _ => Err (LibError "JoinError")
  | _ => r
  end.

Lemma spawn_blocking_ok {A} (r : result A) a : spawn_blocking r = Ok a <-> r = Ok a.
Proof. by destruct r. Qed.

Lemma spawn_blocking_no_panic {A} (r : result A) msg : spawn_blocking r <> Panic msg.
Proof. by destruct r. Qed.

(** [iter.map(f).collect::<Result<Vec<_>>>()]: stops at the first failure. *)
Fixpoint collect {A B} (f : A -> result B) (l : list A) : result (list B) :=
  match l with
  | [] => Ok []
  | x :: l => y ← f x; ys ← collect f l; Ok (y :: ys)
  end.

Lemma collect_ok {A B} (f : A -> result B) (g : A -> B) l :
  (forall x, x ∈ l -> f x = Ok (g x)) -> collect f l = Ok (g <$> l).
Proof.
  elim: l => [|x l IH] //= H.
  rw (H x); [by left|]. rw bind_ok IH //. move=> y Hy. apply H. by right.
Qed.

Lemma collect_ok_inv {A B} (f : A -> result B) l ys :
  collect f l = Ok ys -> Forall2 (fun x y => f x = Ok y) l ys.
Proof.
  elim: l ys => [|x l IH] ys /=; first by move=> [<-]; constructor.
  intros (y & Hy & (zs & Hz & [= <-])%bind_ok_inv)%bind_ok_inv.
  constructor; auto.
Qed.

(** Invert a monadic computation that succeeded. *)
Ltac inv_ok :=
  repeat match goal with
  | H : (_ ≫= _) = Ok _ |- _ =>
      let a := fresh "a" in let Ha := fresh "Ha" in
      apply bind_ok_inv in H as [a [Ha H]]
  | H : Ok _ = Ok _ |- _ => injection H as H
  | H : Err _ = Ok _ |- _ => discriminate H
  | H : Panic _ = Ok _ |- _ => discriminate H
  end.

(** ** Emitting computations

    A computation over a state [S] that emits byte strings (the items of a
    stream, the messages sent into a channel) and ends with a result.  What was
    emitted before a failure stays emitted. *)

Definition emitM (S A : Type) : Type := S -> list bytes * result A * S.

#[global] Instance emit_ret S : MRet (emitM S) := fun A a s => ([], Ok a, s).
#[global] Instance emit_bind S : MBind (emitM S) := fun A B f m s =>
  match m s with
  | (out, Ok a, s) => let '(out', r, s) := f a s in (out ++ out', r, s)
  | (out, Err e, s) => (out, Err e, s)
  | (out, Panic p, s) => (out, Panic p, s)
  end.

Definition emit {S} (b : bytes) : emitM S unit := fun s => ([b], Ok tt, s).
Definition lift_result {S A} (r : result A) : emitM S A := fun s => ([], r, s).
Definition lift_state {S A} (f : S -> result A * S) : emitM S A :=
  fun s => let '(r, s) := f s in ([], r, s).
Definition modify {S} (f : S -> S) : emitM S unit := fun s => ([], Ok tt, f s).

Fixpoint emit_for {S A} (l : list A) (f : A -> emitM S unit) : emitM S unit :=
  match l with
  | [] => mret ()
  | x :: l => f x ;; emit_for l f
  end.

Lemma emit_bind_ok {S A B} (m : emitM S A) (f : A -> emitM S B) s out a s1 out' r s2 :
  m s = (out, Ok a, s1) -> f a s1 = (out', r, s2) -> (m ≫= f) s = (out ++ out', r, s2).
Proof. move=> H1 H2. by rw /mbind /emit_bind H1 H2. Qed.
