(* ===== verification/Buf.v ===== *)
(** * Byte buffers

    The reader side ([Buf::try_get_*]) and the writer side ([BufMut::put_*])
    of the byte buffers the protocols are written with, as functions on lists
    of bytes: a reader returns the value and the rest of the buffer, or the
    [TryGetError] of a buffer that is too short; a writer returns the bytes it
    appends.  The extension trait [BufExt] of common/src/utils.rs is here. *)

From Stdlib Require Import ssreflect.
From stdpp Require Import base numbers list strings.
From S2P Require Import Prelude.

(** ** Readers *)

Definition try_get_u8 (buf : bytes) : result (Z * bytes) :=
  match buf with
  | [] => Err (TryGetError 1 0)
  | b :: buf => Ok (b2z b, buf)
  end.

(** [try_copy_to_slice] into an array of [n] bytes. *)
Definition try_get_slice (n : Z) (buf : bytes) : result (bytes * bytes) :=
  if len buf <? n then Err (TryGetError n (len buf))
  else Ok (ztake n buf, zdrop n buf).

Definition try_get_u16_le (buf : bytes) : result (Z * bytes) :=
  '(s, buf) ← try_get_slice 2 buf; Ok (le_val s, buf).
Definition try_get_u32_le (buf : bytes) : result (Z * bytes) :=
  '(s, buf) ← try_get_slice 4 buf; Ok (le_val s, buf).
Definition try_get_u64_le (buf : bytes) : result (Z * bytes) :=
  '(s, buf) ← try_get_slice 8 buf; Ok (le_val s, buf).
Definition try_get_u32 (buf : bytes) : result (Z * bytes) :=
  '(s, buf) ← try_get_slice 4 buf; Ok (be_val s, buf).
Definition try_get_u64 (buf : bytes) : result (Z * bytes) :=
  '(s, buf) ← try_get_slice 8 buf; Ok (be_val s, buf).

(** ** Writers *)

Definition put_u8 (z : Z) : bytes := [z2b z].
Definition put_u16_le (z : Z) : bytes := le_bytes 2 z.
Definition put_u32_le (z : Z) : bytes := le_bytes 4 z.
Definition put_u64_le (z : Z) : bytes := le_bytes 8 z.
Definition put_u32 (z : Z) : bytes := be_bytes 4 z.
Definition put_u64 (z : Z) : bytes := be_bytes 8 z.

Lemma length_put_u8 z : length (put_u8 z) = 1%nat.
Proof. done. Qed.
Lemma length_put_u16_le z : length (put_u16_le z) = 2%nat.
Proof. apply length_le_bytes. Qed.
Lemma length_put_u32_le z : length (put_u32_le z) = 4%nat.
Proof. apply length_le_bytes. Qed.
Lemma length_put_u64_le z : length (put_u64_le z) = 8%nat.
Proof. apply length_le_bytes. Qed.
Lemma length_put_u32 z : length (put_u32 z) = 4%nat.
Proof. apply length_be_bytes. Qed.
Lemma length_put_u64 z : length (put_u64 z) = 8%nat.
Proof. apply length_be_bytes. Qed.
#[export] Hint Rewrite length_put_u8 length_put_u16_le length_put_u32_le
  length_put_u64_le length_put_u32 length_put_u64 : len.

(** ** [BufExt] (common/src/utils.rs) *)

Definition try_get_factorio_varint32 (buf : bytes) : result (Z * bytes) :=
  '(byte, buf) ← try_get_u8 buf;
  if byte =? 255 then try_get_u32_le buf else Ok (byte, buf).

Definition try_get_factorio_varint16 (buf : bytes) : result (Z * bytes) :=
  '(byte, buf) ← try_get_u8 buf;
  if byte =? 255 then try_get_u16_le buf else Ok (byte, buf).

Definition try_advance (n : Z) (buf : bytes) : result (unit * bytes) :=
  if len buf <? n then Err (TryGetError n (len buf))
  else Ok (tt, zdrop n buf).

(** ** Reading back what was written *)

Lemma try_get_slice_app n s rest :
  len s = n -> try_get_slice n (s ++ rest) = Ok (s, rest).
Proof.
  move=> H. rw /try_get_slice. case: (Z.ltb_spec (len (s ++ rest)) n) => ?; first len_lia.
  by rw ztake_app ?zdrop_app.
Qed.

Lemma try_get_slice_short n buf :
  len buf < n -> try_get_slice n buf = Err (TryGetError n (len buf)).
Proof. move=> H. rw /try_get_slice. case: (Z.ltb_spec (len buf) n) => //; lia. Qed.

Lemma try_get_slice_ok n buf :
  n <= len buf -> try_get_slice n buf = Ok (ztake n buf, zdrop n buf).
Proof. move=> H. rw /try_get_slice. case: (Z.ltb_spec (len buf) n) => //; lia. Qed.

Section read_written.
Variable rest : bytes.

Lemma get_put_u8 z : in_u 8 z -> try_get_u8 (put_u8 z ++ rest) = Ok (z, rest).
Proof. move=> H. by rw /= b2z_z2b Z.mod_small. Qed.

Lemma get_put_u16_le z : in_u 16 z -> try_get_u16_le (put_u16_le z ++ rest) = Ok (z, rest).
Proof.
  move=> H. rw /try_get_u16_le try_get_slice_app; first len_lia.
  by rw bind_ok le_val_le_bytes.
Qed.

Lemma get_put_u32_le z : in_u 32 z -> try_get_u32_le (put_u32_le z ++ rest) = Ok (z, rest).
Proof.
  move=> H. rw /try_get_u32_le try_get_slice_app; first len_lia.
  by rw bind_ok le_val_le_bytes.
Qed.

Lemma get_put_u64_le z : in_u 64 z -> try_get_u64_le (put_u64_le z ++ rest) = Ok (z, rest).
Proof.
  move=> H. rw /try_get_u64_le try_get_slice_app; first len_lia.
  by rw bind_ok le_val_le_bytes.
Qed.

Lemma get_put_u32 z : in_u 32 z -> try_get_u32 (put_u32 z ++ rest) = Ok (z, rest).
Proof.
  move=> H. rw /try_get_u32 try_get_slice_app; first len_lia.
  by rw bind_ok be_val_be_bytes.
Qed.

Lemma get_put_u64 z : in_u 64 z -> try_get_u64 (put_u64 z ++ rest) = Ok (z, rest).
Proof.
  move=> H. rw /try_get_u64 try_get_slice_app; first len_lia.
  by rw bind_ok be_val_be_bytes.
Qed.
End read_written.

(** The other direction: what is read was written. *)
Lemma try_get_u32_le_iff buf z rest :
  try_get_u32_le buf = Ok (z, rest) <-> in_u 32 z /\ buf = put_u32_le z ++ rest.
Proof.
  split; [|intros [Hz ->]; by apply get_put_u32_le].
  rw /try_get_u32_le /try_get_slice. destruct (Z.ltb_spec (len buf) 4) as [|Hl]; [done|]. rw bind_ok.
  intros [<- <-]%ok_pair_inj. have H4 : length (ztake 4 buf) = 4%nat by len_lia. split.
  - have := le_val_range (ztake 4 buf). by rw H4.
  - by rw /put_u32_le le_bytes_val // ztake_zdrop.
Qed.

(** [read_exact] on a reader that yields [buf], then fails with [stop]. *)
Definition read_exact_or (stop : error) (n : Z) (buf : bytes) : result (bytes * bytes) :=
  if len buf <? n then Err stop else Ok (ztake n buf, zdrop n buf).
Abbreviation read_exact := (read_exact_or UnexpectedEof).

(** ** What a reader leaves is a suffix of what it was given, and no reader
    panics. *)

Definition reads {A} (P : A -> Prop) (r : result (A * bytes)) (buf : bytes) : Prop :=
  match r with
  | Ok (a, rest) => P a /\ rest `suffix_of` buf
  | Err _ => True
  | Panic _ => False
  end.

Lemma reads_bind {A B} (P : A -> Prop) (Q : B -> Prop) (r : result (A * bytes))
    (f : A * bytes -> result (B * bytes)) buf :
  reads P r buf ->
  (forall a rest, P a -> rest `suffix_of` buf -> reads Q (f (a, rest)) rest) ->
  reads Q (r ≫= f) buf.
Proof.
  destruct r as [[a rest]|e|p] => //= [[HP Hs]] Hf. specialize (Hf a rest HP Hs).
  destruct (f (a, rest)) as [[b rest']|e|p] => //=. destruct Hf. split; [done|by etrans].
Qed.

Lemma reads_ok {A} (P : A -> Prop) a buf : P a -> reads P (Ok (a, buf)) buf.
Proof. by split. Qed.

Lemma reads_u8 buf : reads (in_u 8) (try_get_u8 buf) buf.
Proof. destruct buf as [|b buf] => //=. split; [apply b2z_range|by apply suffix_cons_r]. Qed.

Lemma reads_slice n buf : 0 <= n -> reads (fun s => len s = n) (try_get_slice n buf) buf.
Proof.
  move=> Hn. rw /try_get_slice. case: Z.ltb_spec => //= H. split; [by apply len_ztake|].
  exists (ztake n buf). by rw ztake_zdrop.
Qed.

Lemma reads_u16_le buf : reads (in_u 16) (try_get_u16_le buf) buf.
Proof.
  eapply reads_bind; [by apply reads_slice|]. move=> s rest Hs _. apply reads_ok.
  have := le_val_range s. by rw Hs.
Qed.

Lemma reads_u32_le buf : reads (in_u 32) (try_get_u32_le buf) buf.
Proof.
  eapply reads_bind; [by apply reads_slice|]. move=> s rest Hs _. apply reads_ok.
  have := le_val_range s. by rw Hs.
Qed.

Lemma reads_u32 buf : reads (in_u 32) (try_get_u32 buf) buf.
Proof.
  eapply reads_bind; [by apply reads_slice|]. move=> s rest Hs _. apply reads_ok.
  have := le_val_range (reverse s). by rw length_reverse Hs.
Qed.

Lemma reads_u64_le buf : reads (in_u 64) (try_get_u64_le buf) buf.
Proof.
  eapply reads_bind; [by apply reads_slice|]. move=> s rest Hs _. apply reads_ok.
  have := le_val_range s. by rw Hs.
Qed.

Lemma reads_varint16 buf : reads (in_u 16) (try_get_factorio_varint16 buf) buf.
Proof.
  eapply reads_bind; [apply reads_u8|]. move=> b rest [Hb1 Hb2] _. destruct (b =? 255).
  - apply reads_u16_le.
  - apply reads_ok. split; [done|]. change (2 ^ 8) with 256 in Hb2. change (2 ^ 16) with 65536. lia.
Qed.

Lemma reads_varint32 buf : reads (in_u 32) (try_get_factorio_varint32 buf) buf.
Proof.
  eapply reads_bind; [apply reads_u8|]. move=> b rest [Hb1 Hb2] _. destruct (b =? 255).
  - apply reads_u32_le.
  - apply reads_ok. split; [done|]. change (2 ^ 8) with 256 in Hb2. change (2 ^ 32) with 4294967296. lia.
Qed.

Lemma reads_advance n buf : reads (fun _ => True) (try_advance n buf) buf.
Proof.
  rw /try_advance. case: Z.ltb_spec => //= H. split; [done|].
  exists (ztake n buf). by rw ztake_zdrop.
Qed.

#[export] Hint Resolve reads_u8 reads_u16_le reads_u32_le reads_u64_le reads_varint16 reads_varint32
  reads_advance : core.

(** ** Properties *)

(** The variable-length integers of the Factorio protocol: one byte below
    255 is the value; 255 announces the full little-endian integer, of 4 bytes
    for [varint32] and 2 bytes for [varint16]. *)
Theorem factorio_varint_decode z rest :
  (in_u 32 z -> try_get_factorio_varint32 (put_u8 255 ++ put_u32_le z ++ rest) = Ok (z, rest)) /\
  (in_u 16 z -> try_get_factorio_varint16 (put_u8 255 ++ put_u16_le z ++ rest) = Ok (z, rest)) /\
  (0 <= z < 255 -> try_get_factorio_varint32 (put_u8 z ++ rest) = Ok (z, rest) /\
                   try_get_factorio_varint16 (put_u8 z ++ rest) = Ok (z, rest)).
Proof.
  rw /try_get_factorio_varint32 /try_get_factorio_varint16. split_and!.
  - move=> Hz. rw get_put_u8 // bind_ok /=. by apply get_put_u32_le.
  - move=> Hz. rw get_put_u8 // bind_ok /=. by apply get_put_u16_le.
  - move=> Hz. rw get_put_u8; [by rw /in_u; lia|]. rw !bind_ok.
    have -> : (z =? 255) = false by lia. by split.
Qed.
