(* ===== verification/Utils.v ===== *)
(** * Numbers for the log

    Models [abbreviate_number] of common/src/utils.rs: a number of bytes with a decimal
    prefix.  The quotient is an IEEE 754 double, printed with two decimals, rounded half to
    even as [core::fmt] does. *)

From Stdlib Require Import ssreflect SpecFloat.
From stdpp Require Import base numbers list strings pretty.
From S2P Require Import Prelude.

#[local] Open Scope general_if_scope.

Definition POWER_UNITS : list string := ["k"; "M"; "G"; "T"; "P"; "E"; "Z"; "Y"]%string.

(** [num.ilog(1000)]; the fuel is more than the number of times that a [u64] can be divided. *)
Fixpoint ilog1000 (fuel : nat) (num : Z) : nat :=
  match fuel with
  | O => O
  | S fuel => if num <? 1000 then O else S (ilog1000 fuel (num / 1000))
  end.

(** [as f64] and the division. *)
Definition u64_as_f64 (z : Z) : spec_float := binary_normalize 53 1024 z 0 false.
Definition f64_div (x y : spec_float) : spec_float := SFdiv 53 1024 x y.

(** [x * 100] rounded half to even, of a finite double that is not negative. *)
Definition hundredths (x : spec_float) : Z :=
  match x with
  | S754_finite false m e =>
      if 0 <=? e then 100 * Z.pos m * 2 ^ e
      else
        let d := 2 ^ (- e) in
        let q := 100 * Z.pos m / d in
        let r := 100 * Z.pos m mod d in
        if (d <? 2 * r) || (2 * r =? d) && Z.odd q then q + 1 else q
  | _ => 0
  end.

(** [format!("{:.2}", x)] *)
Definition format_2 (x : spec_float) : string :=
  let h := hundredths x in
  pretty (h / 100) +:+ "." +:+ pretty (h / 10 mod 10) +:+ pretty (h mod 10).

Definition abbreviate_number (num : Z) : string :=
  if num <=? 0 then pretty num
  else
    let power := ilog1000 7 num in
    if (power <=? 0)%nat then pretty num
    else
      let x := f64_div (u64_as_f64 num) (u64_as_f64 (1000 ^ Z.of_nat power)) in
      let unit := default "?"%string (POWER_UNITS !! (power - 1)%nat) in
      format_2 x +:+ unit.

Lemma ilog1000_spec fuel num :
  0 < num < 1000 ^ Z.of_nat fuel ->
  (ilog1000 fuel num < fuel)%nat /\ 1000 ^ Z.of_nat (ilog1000 fuel num) <= num < 1000 ^ (Z.of_nat (ilog1000 fuel num) + 1).
Proof.
  elim: fuel num => [|fuel IH] num Hn; [cbn in Hn; lia|]. cbn [ilog1000]. case: Z.ltb_spec => Hlt; [cbn; lia|].
  rw Nat2Z.inj_succ Z.pow_succ_r in Hn; [lia|]. destruct (IH (num / 1000)) as [H1 H2].
  { split; [apply Z.div_str_pos; lia|]. apply Z.div_lt_upper_bound; lia. }
  split; [lia|]. set k := ilog1000 fuel (num / 1000) in H1 H2 *. rw Nat2Z.inj_succ.
  have -> : 1000 ^ Z.succ (Z.of_nat k) = 1000 * 1000 ^ Z.of_nat k by apply Z.pow_succ_r; lia.
  have -> : 1000 ^ (Z.succ (Z.of_nat k) + 1) = 1000 * 1000 ^ (Z.of_nat k + 1) by rw -Z.pow_succ_r; [lia|f_equal; lia].
  pose proof (Z.mul_div_le num 1000 ltac:(lia)). pose proof (Z.mod_pos_bound num 1000 ltac:(lia)).
  pose proof (Z.div_mod num 1000 ltac:(lia)). lia.
Qed.

(** The power of a [u64] is at most 6: the fuel is enough, [1000u64.pow(power)] does not
    overflow, and there is a unit for it. *)
Lemma abbreviate_number_unit num :
  0 < num < 2 ^ 64 ->
  let power := ilog1000 7 num in
  1000 ^ Z.of_nat power <= num < 1000 ^ (Z.of_nat power + 1) /\ in_u 64 (1000 ^ Z.of_nat power) /\
  ((0 < power)%nat -> is_Some (POWER_UNITS !! (power - 1)%nat)).
Proof.
  move=> Hn. destruct (ilog1000_spec 7 num) as [H1 H2].
  { change (1000 ^ Z.of_nat 7) with 1000000000000000000000. change (2 ^ 64) with 18446744073709551616 in Hn. lia. }
  cbv zeta. split; [done|]. split; [split; [by apply Z.pow_nonneg|apply (Z.le_lt_trans _ num); [apply H2|apply Hn]]|].
  move=> Hp. apply lookup_lt_is_Some. change (length POWER_UNITS) with 8%nat. lia.
Qed.

Example abbreviated_numbers :
  abbreviate_number <$> [0; 999; 1000; 1234; 500000000; 999999; 2 ^ 64 - 1] =
    ["0"; "999"; "1.00k"; "1.23k"; "500.00M"; "1000.00k"; "18.45E"]%string.
Proof. vm_compute. reflexivity. Qed.
