(* ===== verification/Chunker.v ===== *)
(** * Content-defined chunking

    Models common/src/chunker.rs: the rolling hash [RabinKarpHash] over a
    circular window of 32 words, and the iterator [Chunker] that cuts a byte
    string where the hash hits a mask.  Shown here: the unchecked window
    accesses are in bounds, the rolling update computes the polynomial of the
    last 32 bytes, the cut is the first admissible position, the chunks
    concatenate to the input with sizes in the intended range, and the tail of
    a chunking depends on the remaining bytes only. *)

From Stdlib Require Import ssreflect.
From stdpp Require Import base numbers list.
From S2P Require Import Prelude.

#[local] Arguments Nat.modulo : simpl never.

(** ** The rolling hash *)

Definition OFFSET : Z := 31.
Definition MULT : Z := 0x08104225.
Definition WINDOW_SIZE : nat := 32.
(** [u32::wrapping_pow(MULT, WINDOW_SIZE as u32 + 1)] *)
Definition WINDOW_MULT : Z := wrap 32 (MULT ^ (Z.of_nat WINDOW_SIZE + 1)).

Record RabinKarpHash := mkRabinKarpHash {
  rk_hash : Z;
  rk_window : list Z;
  rk_window_pos : nat;
}.

Definition RabinKarpHash_new : RabinKarpHash :=
  mkRabinKarpHash 0 (replicate WINDOW_SIZE 0) 0.

(** [get_unchecked] has no bounds check: an access outside the window is
    undefined behaviour in the source, and reads 0 here; [rk_wf] below is the
    invariant that excludes it. *)
Definition RabinKarpHash_update (h : RabinKarpHash) (added_byte : Byte.byte)
  : RabinKarpHash * Z :=
  let added := wrap 32 (b2z added_byte + OFFSET) in
  let removed := wrap 32 (default 0 (rk_window h !! rk_window_pos h) * WINDOW_MULT) in
  let hash := wrap 32 (wrap 32 (wrap 32 (rk_hash h + added) * MULT) - removed) in
  let window := <[rk_window_pos h := added]> (rk_window h) in
  let window_pos := ((rk_window_pos h + 1) mod WINDOW_SIZE)%nat in
  (mkRabinKarpHash hash window window_pos, hash).

Definition RabinKarpHash_reset (h : RabinKarpHash) : RabinKarpHash :=
  mkRabinKarpHash 0 (replicate (length (rk_window h)) 0) 0.

(** ** The chunker *)

Definition MIN_CHUNK_SIZE : Z := 2 ^ 9.
Definition MAX_CHUNK_SIZE : Z := 2 ^ 12.
Definition CHUNK_MASK : Z := 2 ^ 11 - 1.

Record Chunker := mkChunker {
  ck_rolling_hash : RabinKarpHash;
  ck_data : bytes;
}.

Definition Chunker_new (data : bytes) : Chunker := mkChunker RabinKarpHash_new data.

(** The [for] loop of [Chunker::next] over the bytes after the minimum size. *)
Fixpoint Chunker_scan (bs : bytes) (h : RabinKarpHash) (chunk_size : Z)
  : RabinKarpHash * Z :=
  match bs with
  | [] => (h, chunk_size)
  | byte :: bs =>
      let '(h, hash) := RabinKarpHash_update h byte in
      let chunk_size := chunk_size + 1 in
      if (Z.land hash CHUNK_MASK =? 0) || (MAX_CHUNK_SIZE <=? chunk_size)
      then (h, chunk_size)
      else Chunker_scan bs h chunk_size
  end.

Definition Chunker_next (c : Chunker) : option bytes * Chunker :=
  match ck_data c with
  | [] => (None, c)
  | _ =>
      let chunk_size := Z.min MIN_CHUNK_SIZE (len (ck_data c)) in
      let '(h, chunk_size) :=
        Chunker_scan (zdrop chunk_size (ck_data c)) (ck_rolling_hash c) chunk_size in
      let chunk := ztake chunk_size (ck_data c) in
      (Some chunk, mkChunker (RabinKarpHash_reset h) (zdrop chunk_size (ck_data c)))
  end.

(** [for chunk in chunker]: drain the iterator.  Every chunk takes at least one
    byte, so the length of the data is enough fuel ([chunks_of_unfold]). *)
Fixpoint Chunker_collect (fuel : nat) (c : Chunker) : list bytes :=
  match fuel with
  | O => []
  | S fuel =>
      match Chunker_next c with
      | (None, _) => []
      | (Some chunk, c) => chunk :: Chunker_collect fuel c
      end
  end.

Definition chunks_of (data : bytes) : list bytes :=
  Chunker_collect (length data) (Chunker_new data).

(** ** The window invariant *)

Definition rk_wf (h : RabinKarpHash) : Prop :=
  length (rk_window h) = WINDOW_SIZE /\ (rk_window_pos h < WINDOW_SIZE)%nat /\
  in_u 32 (rk_hash h) /\ Forall (in_u 32) (rk_window h).

Lemma rk_wf_new : rk_wf RabinKarpHash_new.
Proof.
  rw /rk_wf. split_and!; [done|rw /= /WINDOW_SIZE; lia|done|by apply Forall_replicate].
Qed.

Lemma rk_wf_update h b : rk_wf h -> rk_wf (RabinKarpHash_update h b).1.
Proof.
  move=> [Hl [Hp [Hh Hw]]]. rw /rk_wf /RabinKarpHash_update /= length_insert.
  split_and!; [done| | |].
  - by apply Nat.mod_upper_bound.
  - by apply wrap_range.
  - apply Forall_insert; [done|by apply wrap_range].
Qed.

Lemma rk_reset_new h : rk_wf h -> RabinKarpHash_reset h = RabinKarpHash_new.
Proof. move=> [Hl _]. by rw /RabinKarpHash_reset Hl. Qed.

(** The window read from its oldest entry to its newest. *)
Definition rk_oldest_first (h : RabinKarpHash) : list Z :=
  drop (rk_window_pos h) (rk_window h) ++ take (rk_window_pos h) (rk_window h).

(** The polynomial of a window, oldest word first. *)
Definition window_poly (ws : list Z) : Z :=
  foldl (fun acc w => (acc + w) * MULT) 0 ws.

Lemma window_poly_acc ws a :
  foldl (fun acc w => (acc + w) * MULT) a ws = a * MULT ^ len ws + window_poly ws.
Proof.
  rw /window_poly. elim: ws a => [|w ws IH] a /=; first lia.
  rw (IH ((a + w) * MULT)) (IH ((0 + w) * MULT)) Nat2Z.inj_succ Z.pow_succ_r; lia.
Qed.

Lemma window_poly_cons w ws :
  window_poly (w :: ws) = w * MULT ^ (len ws + 1) + window_poly ws.
Proof.
  rw {1}/window_poly /= window_poly_acc Z.pow_add_r; [lia..|]. rw Z.pow_1_r. ring.
Qed.

Lemma window_poly_snoc ws w : window_poly (ws ++ [w]) = (window_poly ws + w) * MULT.
Proof. by rw /window_poly foldl_app. Qed.

Lemma rk_oldest_first_update h b :
  rk_wf h ->
  rk_oldest_first (RabinKarpHash_update h b).1 =
  drop 1 (rk_oldest_first h) ++ [wrap 32 (b2z b + OFFSET)].
Proof.
  move=> [Hl [Hp _]]. rw /rk_oldest_first /RabinKarpHash_update /=.
  set a := wrap 32 _. set p := rk_window_pos h in Hp *.
  set w := rk_window h in Hl *.
  have Hd : drop 1 (drop p w ++ take p w) = drop (S p) w ++ take p w.
  { rw drop_app_le; [rw length_drop; lia|]. rw drop_drop. f_equal. f_equal. lia. }
  rw Hd. case: (decide (p + 1 < WINDOW_SIZE)%nat) => Hlt.
  - rw Nat.mod_small // Nat.add_1_r. rw drop_insert_lt; [lia|].
    rw (take_S_r _ _ a); [apply list_lookup_insert_eq; lia|].
    rw take_insert_ge; [lia|]. by rw app_assoc.
  - have -> : (p + 1)%nat = WINDOW_SIZE by lia.
    rw Nat.Div0.mod_same drop_0 take_0 app_nil_r.
    rw insert_take_drop; [lia|]. rw !(drop_ge w); [lia..|]. done.
Qed.

(** The hash register holds the polynomial of the window. *)
Definition rk_inv (h : RabinKarpHash) : Prop :=
  rk_wf h /\ rk_hash h = wrap 32 (window_poly (rk_oldest_first h)).

Lemma rk_inv_new : rk_inv RabinKarpHash_new.
Proof. split; [apply rk_wf_new|done]. Qed.

Lemma rk_oldest_first_cons h :
  rk_wf h -> exists w ws, rk_oldest_first h = w :: ws /\
    length ws = 31%nat /\ rk_window h !! rk_window_pos h = Some w.
Proof.
  move=> [Hl [Hp _]]. rw /rk_oldest_first.
  destruct (lookup_lt_is_Some_2 (rk_window h) (rk_window_pos h)) as [w Hw]; [lia|].
  rw (drop_S _ w) //. exists w, (drop (S (rk_window_pos h)) (rk_window h) ++ take (rk_window_pos h) (rk_window h)).
  split_and!; [done| |done]. rw length_app length_drop length_take. rw /WINDOW_SIZE in Hl Hp. lia.
Qed.

Lemma rk_inv_update h b : rk_inv h -> rk_inv (RabinKarpHash_update h b).1.
Proof.
  move=> [Hwf Hh]. split; first by apply rk_wf_update.
  rw rk_oldest_first_update //.
  destruct (rk_oldest_first_cons _ Hwf) as (w & ws & How & Hlen & Hw).
  rw How /= drop_0 window_poly_snoc Hw /= Hh How window_poly_cons.
  have -> : len ws + 1 = Z.of_nat WINDOW_SIZE by rw Hlen.
  apply wrap_eqm. rw /WINDOW_MULT !wrap_eqm_l.
  rw (Z.pow_add_r MULT (Z.of_nat WINDOW_SIZE) 1) //. apply eqm_eq. lia.
Qed.

(** ** The rolling hash is the polynomial of the last 32 bytes *)

Definition rk_feed (bs : bytes) (h : RabinKarpHash) : RabinKarpHash :=
  foldl (fun h b => (RabinKarpHash_update h b).1) h bs.

(** Reference definition, with no state: the polynomial of the last
    [WINDOW_SIZE] bytes, modulo [2^32]. *)
Definition window_hash (bs : bytes) : Z :=
  wrap 32 (window_poly ((fun b => b2z b + OFFSET) <$>
    drop (length bs - WINDOW_SIZE) bs)).

Lemma rk_feed_snoc bs b h :
  rk_feed (bs ++ [b]) h = (RabinKarpHash_update (rk_feed bs h) b).1.
Proof. by rw /rk_feed foldl_app. Qed.

Lemma rk_inv_feed bs h : rk_inv h -> rk_inv (rk_feed bs h).
Proof.
  elim/rev_ind: bs => [|b bs IH] // H. rw rk_feed_snoc. by apply rk_inv_update, IH.
Qed.

Lemma added_word b : wrap 32 (b2z b + OFFSET) = b2z b + OFFSET.
Proof. apply wrap_small. pose proof (b2z_range b). rw /in_u /OFFSET. lia. Qed.

Lemma rk_feed_window bs :
  rk_oldest_first (rk_feed bs RabinKarpHash_new) =
  drop (length bs) (replicate WINDOW_SIZE 0 ++ ((fun b => b2z b + OFFSET) <$> bs)).
Proof.
  elim/rev_ind: bs => [|b bs IH] //.
  rw rk_feed_snoc rk_oldest_first_update; first apply (rk_inv_feed bs _ rk_inv_new).
  rw IH added_word drop_drop fmap_app app_assoc.
  rw (drop_app_le (replicate _ _ ++ _)); first by len_norm; rw /WINDOW_SIZE; lia.
  do 2 f_equal. len_norm. done.
Qed.

Lemma window_poly_zeros n ws : window_poly (replicate n 0 ++ ws) = window_poly ws.
Proof. by elim: n. Qed.

Lemma rolling_hash bs : rk_hash (rk_feed bs RabinKarpHash_new) = window_hash bs.
Proof.
  destruct (rk_inv_feed bs _ rk_inv_new) as [_ ->].
  rw rk_feed_window /window_hash. f_equal.
  case: (decide (length bs <= WINDOW_SIZE)%nat) => Hle.
  - rw drop_app_le; [by len_norm|].
    rw drop_replicate window_poly_zeros. by have -> : (length bs - WINDOW_SIZE = 0)%nat by lia.
  - rw drop_app_ge; [len_norm; lia|]. by rw fmap_drop length_replicate.
Qed.

(** ** Where a chunk ends *)

(** The bytes of [data] from the minimum size up to position [n]. *)
Definition hashed_part (data : bytes) (n : Z) : bytes :=
  ztake (n - MIN_CHUNK_SIZE) (zdrop MIN_CHUNK_SIZE data).

Definition cut_at (data : bytes) (n : Z) : Prop :=
  Z.land (window_hash (hashed_part data n)) CHUNK_MASK = 0 \/ MAX_CHUNK_SIZE <= n.

(** [n] is the length of the first chunk of [data]: everything when there is
    not more than the minimum, else the first cut after the minimum. *)
Definition first_cut (data : bytes) (n : Z) : Prop :=
  if len data <=? MIN_CHUNK_SIZE then n = len data
  else MIN_CHUNK_SIZE < n <= len data /\
       (forall m, MIN_CHUNK_SIZE < m < n -> ~ cut_at data m) /\
       (cut_at data n \/ n = len data).

Lemma Chunker_scan_spec bs pre size :
  let '(h', n) := Chunker_scan bs (rk_feed pre RabinKarpHash_new) size in
  rk_wf h' /\ size <= n <= size + len bs /\ (bs = [] \/ size < n) /\
  (forall m, size < m < n ->
     Z.land (window_hash (pre ++ ztake (m - size) bs)) CHUNK_MASK <> 0 /\ m < MAX_CHUNK_SIZE) /\
  (n = size + len bs \/ Z.land (window_hash (pre ++ ztake (n - size) bs)) CHUNK_MASK = 0 \/
     MAX_CHUNK_SIZE <= n).
Proof.
  elim: bs pre size => [|b bs IH] pre size.
  { cbn [Chunker_scan]. split_and!; [apply (rk_inv_feed pre _ rk_inv_new)|lia|simpl; lia|by left|lia|simpl; lia]. }
  cbn [Chunker_scan].
  have Hh : (RabinKarpHash_update (rk_feed pre RabinKarpHash_new) b).2 = window_hash (pre ++ [b])
    by rw -rolling_hash rk_feed_snoc.
  have Hs := rk_feed_snoc pre b RabinKarpHash_new.
  destruct (RabinKarpHash_update (rk_feed pre RabinKarpHash_new) b) as [h hash].
  cbn [fst snd] in Hh, Hs. subst h hash. cbn zeta beta iota.
  have H1 : ztake (size + 1 - size) (b :: bs) = [b].
  { by have -> : size + 1 - size = 1 by lia. }
  destruct (_ || _) eqn:Hc.
  - apply orb_true_iff in Hc as Hcut.
    split_and!; [apply (rk_inv_feed _ _ rk_inv_new)|lia|len_lia|right; lia|lia|].
    rw H1. destruct Hcut as [?%Z.eqb_eq|?%Z.leb_le]; auto.
  - apply orb_false_iff in Hc as [Hno%Z.eqb_neq Hlt%Z.leb_gt].
    specialize (IH (pre ++ [b]) (size + 1)).
    destruct (Chunker_scan bs _ (size + 1)) as [h' n].
    destruct IH as (Hwf & Hn & Hne & Hbefore & Hend).
    have Ht m : size + 1 <= m ->
      (pre ++ [b]) ++ ztake (m - (size + 1)) bs = pre ++ ztake (m - size) (b :: bs).
    { move=> Hm. rw -app_assoc. f_equal. rw /ztake.
      by have -> : Z.to_nat (m - size) = S (Z.to_nat (m - (size + 1))) by lia. }
    split_and!; [done|lia|len_lia|right; lia| |].
    + move=> m Hm. case: (decide (m = size + 1)) => [->|?]; first by rw H1; lia.
      rw -Ht; [lia|]. apply Hbefore. lia.
    + rw -Ht; [lia|]. rw length_cons. destruct Hend as [->|?]; [left; lia|by right].
Qed.

(** One step of the iterator: the first chunk is cut at [first_cut], and the
    iterator left behind is a fresh chunker on the remaining bytes. *)
Lemma Chunker_next_spec data :
  data <> [] ->
  exists n, first_cut data n /\ 0 < n <= len data /\
    Chunker_next (Chunker_new data) = (Some (ztake n data), Chunker_new (zdrop n data)).
Proof.
  move=> Hne. rw /Chunker_next /Chunker_new /= /first_cut.
  have Hlen : 0 < len data by destruct data; [done|simpl; lia].
  destruct data as [|b0 data0] eqn:Hd; [done|]. rw -Hd in Hlen *. clear Hne.
  set s := Z.min MIN_CHUNK_SIZE (len data).
  have Hs : 0 < s <= len data by rw /s /MIN_CHUNK_SIZE; lia.
  have := Chunker_scan_spec (zdrop s data) [] s.
  cbn [rk_feed foldl]. destruct (Chunker_scan _ _ s) as [h' n].
  intros (Hwf & Hn & Hne & Hbefore & Hend).
  rw len_zdrop in Hn Hend; [lia..|].
  exists n. rw rk_reset_new //. split_and!; [|lia|lia|done].
  case: (Z.leb_spec (len data) MIN_CHUNK_SIZE) => Hcmp; first lia.
  have {}Hs : s = MIN_CHUNK_SIZE by lia. rw Hs in Hn Hne Hbefore Hend *.
  have Hlt : MIN_CHUNK_SIZE < n.
  { destruct Hne as [Hnil|]; [|done]. apply (f_equal length) in Hnil.
    have := len_zdrop MIN_CHUNK_SIZE data. rw Hnil /= /MIN_CHUNK_SIZE in Hcmp *. lia. }
  rw /cut_at /hashed_part. split_and!; [lia|lia| |].
  - move=> m Hm [?|?]; destruct (Hbefore m Hm); [done|lia].
  - destruct Hend as [->|?]; [right; lia|by left].
Qed.

(** ** The whole iteration *)

Lemma Chunker_collect_enough n m data :
  (length data <= n)%nat -> (length data <= m)%nat ->
  Chunker_collect n (Chunker_new data) = Chunker_collect m (Chunker_new data).
Proof.
  elim: n m data => [|n IH] m data Hn Hm.
  { destruct data; [|simpl in Hn; lia]. by destruct m. }
  destruct (decide (data = [])) as [->|Hne]; first by destruct m.
  destruct m as [|m]; first by destruct data; simpl in Hm; [|lia].
  cbn [Chunker_collect].
  destruct (Chunker_next_spec data Hne) as (k & _ & Hk & ->).
  f_equal. have := len_zdrop k data. move=> Hl. apply IH; lia.
Qed.

Lemma chunks_of_nil : chunks_of [] = [].
Proof. done. Qed.

(** The iteration unfolds one chunk at a time: the fuel is never exhausted. *)
Lemma chunks_of_unfold data n :
  data <> [] -> first_cut data n -> 0 < n <= len data ->
  Chunker_next (Chunker_new data) = (Some (ztake n data), Chunker_new (zdrop n data)) ->
  chunks_of data = ztake n data :: chunks_of (zdrop n data).
Proof.
  move=> Hne _ Hn Hnext. rw /chunks_of. destruct data as [|b data0] eqn:Hd; [done|].
  cbn [length Chunker_collect]. rw Hnext. f_equal.
  have := len_zdrop n (b :: data0). move=> Hl.
  apply Chunker_collect_enough; simpl in *; lia.
Qed.

(** Induction on the chunking of a byte string. *)
Lemma chunks_of_ind (P : bytes -> list bytes -> Prop) :
  P [] [] ->
  (forall data n, data <> [] -> first_cut data n -> 0 < n <= len data ->
     chunks_of data = ztake n data :: chunks_of (zdrop n data) ->
     P (zdrop n data) (chunks_of (zdrop n data)) ->
     P data (ztake n data :: chunks_of (zdrop n data))) ->
  forall data, P data (chunks_of data).
Proof.
  move=> Hnil Hstep data. have [k Hk] : exists k, (length data <= k)%nat by exists (length data).
  elim: k data Hk => [|k IH] data Hk.
  { destruct data; [done|simpl in Hk; lia]. }
  destruct (decide (data = [])) as [->|Hne]; first done.
  destruct (Chunker_next_spec data Hne) as (n & Hcut & Hn & Hnext).
  have Hun := chunks_of_unfold data n Hne Hcut Hn Hnext.
  rw Hun. apply Hstep => //. apply IH.
  have := len_zdrop n data. lia.
Qed.

Lemma chunks_of_concat data : concat (chunks_of data) = data.
Proof.
  apply (chunks_of_ind (fun d cs => concat cs = d)) => //= d n _ _ _ _ IH.
  by rw IH ztake_zdrop.
Qed.

Lemma first_cut_max data n : first_cut data n -> 0 <= n -> n <= MAX_CHUNK_SIZE.
Proof.
  rw /first_cut /MIN_CHUNK_SIZE => H Hn. case: Z.leb_spec H => Hlen; first by rw /MAX_CHUNK_SIZE; lia.
  move=> [Hr [Hb _]]. apply Z.nlt_ge => Hlt.
  apply (Hb MAX_CHUNK_SIZE); [rw /MAX_CHUNK_SIZE in Hlt *; lia|right; lia].
Qed.

Definition chunk_sizes_ok (cs : list bytes) : Prop :=
  Forall (fun c => 0 < len c <= MAX_CHUNK_SIZE) cs /\
  forall i c, cs !! i = Some c -> (S i < length cs)%nat -> MIN_CHUNK_SIZE < len c.

Lemma chunks_of_sizes data : chunk_sizes_ok (chunks_of data).
Proof.
  apply (chunks_of_ind (fun _ cs => chunk_sizes_ok cs)); first by split; [constructor|].
  move=> d n Hne Hcut Hn _ [Hall Hmin].
  have Hmax := first_cut_max _ _ Hcut. split.
  - constructor; [rw len_ztake; lia|done].
  - move=> [|i] c /=; last by move=> Hi Hlen; apply (Hmin i); [done|lia].
    move=> [<-] Hlen. rw len_ztake; [lia|].
    rw /first_cut in Hcut. case: Z.leb_spec Hcut => Hc; last lia.
    move=> Hnl. subst n. have Hz : zdrop (len d) d = [] by rw /zdrop Nat2Z.id drop_all.
    rw Hz chunks_of_nil /= in Hlen. lia.
Qed.

(** The chunks after a boundary are the chunking of the bytes after it. *)
Lemma chunks_of_tail data cs t : chunks_of data = cs ++ t -> chunks_of (concat t) = t.
Proof.
  move: cs. apply (chunks_of_ind (fun d l => forall cs, l = cs ++ t -> chunks_of (concat t) = t)).
  { by intros cs [_ ->]%eq_sym%app_nil. }
  move=> d n Hne Hcut Hn Hun IH [|c cs] /=; last by move=> [_ /IH].
  by move=> <- /=; rw chunks_of_concat ztake_zdrop.
Qed.

(** ** Properties *)

(** C35: the rolling update ([RabinKarpHash::update]) computes, after any byte
    string, exactly the polynomial of its last 32 bytes, and both unchecked
    window accesses stay inside the window. *)
Theorem rolling_hash_correct bs :
  let h := rk_feed bs RabinKarpHash_new in
  rk_hash h = window_hash bs /\
  (rk_window_pos h < length (rk_window h))%nat.
Proof.
  split; first apply rolling_hash.
  destruct (rk_inv_feed bs _ rk_inv_new) as [(-> & ? & _) _]. done.
Qed.

(** C14: iterating a [Chunker] ends, loses and reorders nothing (the chunks
    concatenate to the data), yields no empty chunk and none above 4096 bytes,
    and every chunk but the last is longer than 512 bytes. *)
Theorem chunker_partitions_data data :
  concat (chunks_of data) = data /\ chunk_sizes_ok (chunks_of data).
Proof. split; [apply chunks_of_concat|apply chunks_of_sizes]. Qed.

(** The first chunk ends at the first position after the minimum size where
    the hash of the bytes since that minimum hits the mask or the maximum size
    is reached, or at the end of the data; the iterator left is fresh. *)
Lemma chunker_next_first_cut data (Hne : data <> []) :
  exists n, first_cut data n /\
    Chunker_next (Chunker_new data) = (Some (ztake n data), Chunker_new (zdrop n data)).
Proof. destruct (Chunker_next_spec data Hne) as (n & ? & _ & ?). by exists n. Qed.


(** C21: resynchronisation.  When two byte strings have chunk boundaries after
    which the same bytes follow, their chunks from there on are the same, so an
    edit before a common boundary does not change the chunks after it. *)
Theorem chunks_resynchronise d1 d2 cs1 cs2 t1 t2
  (H1 : chunks_of d1 = cs1 ++ t1) (H2 : chunks_of d2 = cs2 ++ t2)
  (Hsame : concat t1 = concat t2) : t1 = t2.
Proof. by rw -(chunks_of_tail _ _ _ H1) -(chunks_of_tail _ _ _ H2) Hsame. Qed.

(** Two first chunks that both end where the hash hits the mask. *)
Definition resync_old : bytes := replicate 512 Byte.x41 ++ [Byte.x06; Byte.x88; Byte.x43; Byte.x44].
Definition resync_new : bytes := replicate 512 Byte.x42 ++ [Byte.x11; Byte.xf1; Byte.x43; Byte.x44].

Lemma chunks_resynchronise_witness :
  length (chunks_of resync_old) = 2%nat /\ drop 1 (chunks_of resync_old) = drop 1 (chunks_of resync_new).
Proof.
  split; [vm_compute; reflexivity|].
  apply (chunks_resynchronise resync_old resync_new
    (take 1 (chunks_of resync_old)) (take 1 (chunks_of resync_new)));
  vm_compute; reflexivity.
Defined.
