(* ===== verification/Dedup.v ===== *)
(** * Deduplication

    Models common/src/dedup.rs: the tree of chunk lists [chunk_data] builds
    over the chunks of a byte string, its serialisation, and the traversals
    [prefetch_metadata_chunks] and [reconstruct_data] that read it back through
    a [ChunkProvider].

    [blake3::hash] is a parameter ([Blake3]); the only law used of it is the
    length of a digest ([Blake3Spec]).  That distinct blobs of one run have
    distinct digests is a hypothesis on that run ([collision_free]), never on
    the function. *)

From Stdlib Require Import ssreflect.
From stdpp Require Import base numbers list gmap strings.
From S2P Require Import Prelude Buf Chunker.

(** ** Digests *)

Class Blake3 := blake3_hash : bytes -> bytes.
Class Blake3Spec (H : Blake3) : Prop :=
  blake3_len : forall b, length (blake3_hash b) = 32%nat.

(** [ChunkKey(blake3::Hash)]: the 32 bytes of a digest. *)
Abbreviation ChunkKey := (list Byte.byte).

Definition OUT_LEN : Z := 32.

(** ** Chunk lists *)

Record ChunkList := mkChunkList {
  is_leaf : bool;
  chunks : list ChunkKey;
}.

#[global] Instance ChunkList_eq_dec : EqDecision ChunkList.
Proof. solve_decision. Defined.

Definition ChunkList_new_empty (leaf : bool) : ChunkList := mkChunkList leaf [].

Definition ChunkList_push_chunk (k : ChunkKey) (cl : ChunkList) : ChunkList :=
  mkChunkList (is_leaf cl) (chunks cl ++ [k]).

Fixpoint ChunkList_decode_keys (count : nat) (buf : bytes) : result (list ChunkKey) :=
  match count with
  | O => Ok []
  | S count =>
      '(hash_bytes, buf) ← try_get_slice OUT_LEN buf;
      keys ← ChunkList_decode_keys count buf;
      Ok (hash_bytes :: keys)
  end.

Definition ChunkList_decode (buf : bytes) : result ChunkList :=
  '(leaf, buf) ← try_get_u8 buf;
  '(chunk_count, buf) ← try_get_u32 buf;
  keys ← ChunkList_decode_keys (Z.to_nat chunk_count) buf;
  Ok (mkChunkList (negb (leaf =? 0)) keys).

Definition ChunkList_encode (cl : ChunkList) : result bytes :=
  if U32_MAX <? len (chunks cl) then Panic "ChunkList is too big"
  else Ok (put_u8 (if is_leaf cl then 1 else 0) ++ put_u32 (len (chunks cl)) ++ concat (chunks cl)).

(** ** Where chunks are put

    [chunk_data] only inserts into the [HashMap] it is given. *)

Class ChunkStore (T : Type) := store_insert : ChunkKey -> bytes -> T -> T.

(** [HashMap<ChunkKey, Bytes>] *)
#[global] Instance map_store : ChunkStore (gmap ChunkKey bytes) := fun k c m => <[k := c]> m.

(** The log of the inserted blobs, used to speak about one run. *)
#[global] Instance log_store : ChunkStore (list bytes) := fun _ c l => l ++ [c].

(** ** Building the tree *)

Definition MIN_CHUNKS_IN_LIST : Z := 32.
Definition AVG_CHUNKS_IN_LIST : Z := 128.
Definition MAX_CHUNKS_IN_LIST : Z := 512.

Definition is_split_point (hash : ChunkKey) (num_nodes : Z) : bool :=
  if num_nodes <? MIN_CHUNKS_IN_LIST then false
  else if MAX_CHUNKS_IN_LIST <=? num_nodes then true
  else
    let hash_u32 := be_val (take 4 hash) in
    hash_u32 mod AVG_CHUNKS_IN_LIST =? 0.

Definition at_level {A} (levels : list A) (level : nat) : result A :=
  expect (levels !! level) "index out of bounds".

Section chunk_data.
Context `{Blake3} {T : Type} `{ChunkStore T}.

(** The [while] loop of [chunk_data].  A split at the top level opens a level
    that holds a single key, which is no split point: one iteration more than
    there are levels is enough ([split_levels_ok]). *)
Fixpoint split_levels (fuel : nat) (hash : ChunkKey) (level : nat)
    (tree_levels : list ChunkList) (store : T) : result (list ChunkList * T) :=
  match fuel with
  | O => Panic "out of fuel"
  | S fuel =>
      current ← at_level tree_levels level;
      if is_split_point hash (len (chunks current)) then
        serialized_chunk_list ← ChunkList_encode current;
        let hash := blake3_hash serialized_chunk_list in
        let tree_levels :=
          if (length tree_levels <=? level + 1)%nat
          then tree_levels ++ [ChunkList_new_empty false] else tree_levels in
        let tree_levels := alter (ChunkList_push_chunk hash) (level + 1)%nat tree_levels in
        let store := store_insert hash serialized_chunk_list store in
        let tree_levels := <[level := ChunkList_new_empty (is_leaf current)]> tree_levels in
        split_levels fuel hash (level + 1)%nat tree_levels store
      else Ok (tree_levels, store)
  end.

(** The body of the [for chunk in chunker] loop. *)
Definition add_chunk (chunk : bytes) (tree_levels : list ChunkList) (store : T)
  : result (list ChunkList * T) :=
  let hash := blake3_hash chunk in
  let tree_levels := alter (ChunkList_push_chunk hash) 0%nat tree_levels in
  let store := store_insert hash chunk store in
  split_levels (S (length tree_levels)) hash 0 tree_levels store.

Fixpoint add_chunks (cs : list bytes) (tree_levels : list ChunkList) (store : T)
  : result (list ChunkList * T) :=
  match cs with
  | [] => Ok (tree_levels, store)
  | c :: cs =>
      '(tree_levels, store) ← add_chunk c tree_levels store;
      add_chunks cs tree_levels store
  end.

(** The loop [for level in 0..(tree_levels.len() - 1)]. *)
Fixpoint finish_levels (ls : list nat) (tree_levels : list ChunkList) (store : T)
  : result (list ChunkList * T) :=
  match ls with
  | [] => Ok (tree_levels, store)
  | level :: ls =>
      current ← at_level tree_levels level;
      match chunks current with
      | [] => finish_levels ls tree_levels store
      | _ =>
          serialized_chunk_list ← ChunkList_encode current;
          let hash := blake3_hash serialized_chunk_list in
          let tree_levels := alter (ChunkList_push_chunk hash) (level + 1)%nat tree_levels in
          let store := store_insert hash serialized_chunk_list store in
          finish_levels ls tree_levels store
      end
  end.

Definition chunk_data (data : bytes) (store : T) : result (ChunkList * T) :=
  '(tree_levels, store) ← add_chunks (chunks_of data) [ChunkList_new_empty true] store;
  '(tree_levels, store) ← finish_levels (seq 0 (length tree_levels - 1)) tree_levels store;
  root ← expect (last tree_levels) "called `Option::unwrap()` on a `None` value";
  Ok (root, store).

Definition MINIMIZE_THRESHOLD : Z := 64.

Definition minimize_chunk_list (chunk_list : ChunkList) (store : T)
  : result (ChunkList * T) :=
  if len (chunks chunk_list) <? MINIMIZE_THRESHOLD then Ok (chunk_list, store)
  else
    serialized_chunk_list ← ChunkList_encode chunk_list;
    let hash := blake3_hash serialized_chunk_list in
    let store := store_insert hash serialized_chunk_list store in
    let root_chunk_list := ChunkList_push_chunk hash (ChunkList_new_empty false) in
    Ok (root_chunk_list, store).
End chunk_data.

(** ** Reading the tree back *)

Class ChunkProvider (S : Type) := {
  prefetch : list ChunkKey -> S -> S;
  get_chunk : ChunkKey -> S -> result bytes * S;
}.

(** [impl ChunkProvider for HashMap<ChunkKey, Bytes>] *)
#[global] Instance map_provider : ChunkProvider (gmap ChunkKey bytes) := {
  prefetch _ m := m;
  get_chunk k m := (expect (m !! k) "No such key", m);
}.

Section traversals.
Context {S : Type} `{ChunkProvider S}.

(** [reconstruct_data]: the emitted items are the items of the stream.  The
    fuel bounds the depth of the recursion. *)
Fixpoint reconstruct_data (fuel : nat) (chunk_list : ChunkList) : emitM S unit :=
  match fuel with
  | O => lift_result (Panic "out of fuel")
  | Datatypes.S fuel =>
      modify (prefetch (chunks chunk_list)) ;;
      emit_for (chunks chunk_list) (fun chunk_key =>
        chunk ← lift_state (get_chunk chunk_key);
        if is_leaf chunk_list then emit chunk
        else
          child_chunk_list ← lift_result (ChunkList_decode chunk);
          reconstruct_data fuel child_chunk_list)
  end.

(** The children of one chunk list, in order; a leaf has none. *)
Fixpoint fetch_children (keys : list ChunkKey) (s : S) : result (list ChunkList) * S :=
  match keys with
  | [] => (Ok [], s)
  | k :: keys =>
      match get_chunk k s with
      | (Ok child_chunk, s) =>
          match ChunkList_decode child_chunk with
          | Ok child => let '(r, s) := fetch_children keys s in (cons child <$> r, s)
          | Err e => (Err e, s)
          | Panic p => (Panic p, s)
          end
      | (Err e, s) => (Err e, s)
      | (Panic p, s) => (Panic p, s)
      end
  end.

Fixpoint next_level (current : list ChunkList) (s : S) : result (list ChunkList) * S :=
  match current with
  | [] => (Ok [], s)
  | cl :: current =>
      if is_leaf cl then next_level current s
      else
        match fetch_children (chunks cl) s with
        | (Ok cs, s) => let '(r, s) := next_level current s in (app cs <$> r, s)
        | (Err e, s) => (Err e, s)
        | (Panic p, s) => (Panic p, s)
        end
  end.

(** [prefetch_metadata_chunks]: one iteration per level of the trees. *)
Fixpoint prefetch_metadata_chunks (fuel : nat) (current_level : list ChunkList) (s : S)
  : result unit * S :=
  match current_level with
  | [] => (Ok tt, s)
  | _ =>
      match fuel with
      | O => (Panic "out of fuel", s)
      | Datatypes.S fuel =>
          let s := prefetch (current_level ≫= chunks) s in
          match next_level current_level s with
          | (Ok next, s) => prefetch_metadata_chunks fuel next s
          | (Err e, s) => (Err e, s)
          | (Panic p, s) => (Panic p, s)
          end
      end
  end.
End traversals.

(** ** Serialisation lemmas *)

Definition keys_ok (ks : list ChunkKey) : Prop := Forall (fun k => length k = 32%nat) ks.

Lemma keys_ok_snoc ks k : keys_ok ks -> length k = 32%nat -> keys_ok (ks ++ [k]).
Proof. move=> H1 H2. apply Forall_app. by repeat constructor. Qed.

Lemma decode_keys_concat ks rest :
  keys_ok ks -> ChunkList_decode_keys (length ks) (concat ks ++ rest) = Ok ks.
Proof.
  elim: ks => [|k ks IH] //= /Forall_cons [Hk Hks].
  rw -app_assoc try_get_slice_app; first by rw Hk.
  by rw bind_ok IH.
Qed.

Lemma encode_ok cl :
  len (chunks cl) <= U32_MAX ->
  ChunkList_encode cl = Ok (put_u8 (if is_leaf cl then 1 else 0) ++
    put_u32 (len (chunks cl)) ++ concat (chunks cl)).
Proof. move=> H. rw /ChunkList_encode. case: Z.ltb_spec => //. lia. Qed.

Lemma decode_encode_list cl b :
  keys_ok (chunks cl) -> ChunkList_encode cl = Ok b -> ChunkList_decode b = Ok cl.
Proof.
  rw /ChunkList_encode => Hk. case: Z.ltb_spec => // Hlen [<-].
  rw /ChunkList_decode get_put_u8; first by destruct (is_leaf cl).
  rw bind_ok get_put_u32; first by rw /in_u; lia.
  rw bind_ok Nat2Z.id -(app_nil_r (concat _)) decode_keys_concat // bind_ok.
  by destruct cl as [[] ks].
Qed.

Lemma length_concat_keys ks : keys_ok ks -> length (concat ks) = (32 * length ks)%nat.
Proof. elim: ks => [|k ks IH] //= /Forall_cons [Hk Hks]. rw length_app IH // Hk. lia. Qed.

Lemma encode_size cl b :
  keys_ok (chunks cl) -> ChunkList_encode cl = Ok b -> len b = 5 + 32 * len (chunks cl).
Proof.
  rw /ChunkList_encode => Hk. case: Z.ltb_spec => // Hlen [<-].
  have := length_concat_keys _ Hk. len_norm. lia.
Qed.

(** ** What a chunk list stands for

    [flatten D h ks]: the data chunks below the keys [ks] of a node [h] levels
    above the leaf lists, when [D] tells the blob of a key. *)
Fixpoint flatten (D : ChunkKey -> option bytes) (h : nat) (ks : list ChunkKey)
  : option (list bytes) :=
  match h with
  | O => mapM D ks
  | S h =>
      css ← mapM (fun k =>
        blob ← D k;
        match ChunkList_decode blob with
        | Ok cl => if Bool.eqb (is_leaf cl) (h =? 0)%nat then flatten D h (chunks cl) else None
        | _ => None
        end) ks;
      Some (concat css)
  end.

(** The chunk list [cl], at height [h], stands for the data chunks [cs]. *)
Definition denotes (D : ChunkKey -> option bytes) (h : nat) (cl : ChunkList) (cs : list bytes) : Prop :=
  is_leaf cl = (h =? 0)%nat /\ flatten D h (chunks cl) = Some cs.

Lemma mapM_snoc {A B} (f : A -> option B) l x ys y :
  mapM f l = Some ys -> f x = Some y -> mapM f (l ++ [x]) = Some (ys ++ [y]).
Proof. move=> /mapM_Some_1 H1 H2. apply mapM_Some_2, Forall2_app; [done|by repeat constructor]. Qed.

Lemma flatten_nil D h : flatten D h [] = Some [].
Proof. by destruct h. Qed.

Lemma flatten_snoc_leaf D ks k cs c :
  flatten D 0 ks = Some cs -> D k = Some c -> flatten D 0 (ks ++ [k]) = Some (cs ++ [c]).
Proof. apply mapM_snoc. Qed.

Lemma flatten_snoc_node D h ks k blob cl cs cs' :
  flatten D (S h) ks = Some cs -> D k = Some blob -> ChunkList_decode blob = Ok cl ->
  denotes D h cl cs' -> flatten D (S h) (ks ++ [k]) = Some (cs ++ cs').
Proof.
  move=> H1 Hk Hd [Hl Hf]. cbn in H1 |- *.
  destruct (mapM _ ks) as [css|] eqn:Hm; [|done]. injection H1 as <-.
  erewrite (mapM_snoc _ _ _ css cs' Hm); last by rw /= Hk /= Hd Hl eqb_reflx.
  by rw /= concat_app /= app_nil_r.
Qed.

(** The levels of the tree under construction, the lowest first: what they
    stand for, oldest chunks (highest level) first. *)
Fixpoint tree_chunks (D : ChunkKey -> option bytes) (i : nat) (levels : list ChunkList)
  : option (list bytes) :=
  match levels with
  | [] => Some []
  | l :: levels =>
      up ← tree_chunks D (S i) levels;
      own ← (if Bool.eqb (is_leaf l) (i =? 0)%nat then flatten D i (chunks l) else None);
      Some (up ++ own)
  end.

Lemma tree_chunks_cons D i l levels cs :
  tree_chunks D i (l :: levels) = Some cs <->
  exists up own, tree_chunks D (S i) levels = Some up /\ denotes D i l own /\ cs = up ++ own.
Proof.
  rw /denotes. cbn [tree_chunks]. destruct (tree_chunks D (S i) levels) as [up|]; last by naive_solver.
  cbn. destruct (Bool.eqb _ _) eqn:Hb; last first.
  { split; [done|]. intros (? & ? & ? & [Heq _] & _). rw Heq eqb_reflx in Hb. done. }
  apply eqb_prop in Hb. destruct (flatten D i (chunks l)) as [own|]; naive_solver.
Qed.

Lemma tree_chunks_app D i pre suf cs :
  tree_chunks D i (pre ++ suf) = Some cs <->
  exists up low, tree_chunks D (i + length pre) suf = Some up /\
    tree_chunks D i pre = Some low /\ cs = up ++ low.
Proof.
  elim: pre i cs => [|l pre IH] i cs.
  { rw Nat.add_0_r /=. split; [move=> ->; exists cs, []; by rw app_nil_r|].
    intros (up & low & -> & [= <-] & ->). by rw app_nil_r. }
  cbn [app length]. rw tree_chunks_cons -Nat.add_succ_comm. split.
  - intros (up & own & (u & lo & H1 & H2 & ->)%IH & Hd & ->).
    exists u, (lo ++ own). rw app_assoc tree_chunks_cons. naive_solver.
  - intros (up & low & H1 & (u & own & H2 & Hd & ->)%tree_chunks_cons & ->).
    exists (up ++ u), own. rw IH app_assoc. naive_solver.
Qed.

(** ** The construction, on the log of inserted blobs *)

Definition level_ok (hi : Z) (l : ChunkList) : Prop :=
  keys_ok (chunks l) /\ len (chunks l) <= hi.

Definition node_ok (lo hi : Z) (b : bytes) : Prop :=
  exists cl, ChunkList_encode cl = Ok b /\ keys_ok (chunks cl) /\ lo <= len (chunks cl) <= hi.

(** [D] knows every blob of [bs] under its digest. *)
Definition knows `{Blake3} (D : ChunkKey -> option bytes) (bs : list bytes) : Prop :=
  Forall (fun b => D (blake3_hash b) = Some b) bs.

Lemma level_ok_mono hi hi' l : hi <= hi' -> level_ok hi l -> level_ok hi' l.
Proof. rw /level_ok. naive_solver lia. Qed.

Lemma level_ok_empty hi leaf : 0 <= hi -> level_ok hi (ChunkList_new_empty leaf).
Proof. move=> H. split; [constructor|done]. Qed.

Lemma encode_total hi cl :
  level_ok hi cl -> hi <= U32_MAX -> exists b, ChunkList_encode cl = Ok b.
Proof. move=> [_ ?] ?. eexists. apply encode_ok. lia. Qed.

Lemma is_split_point_lower hash n : is_split_point hash n = true -> MIN_CHUNKS_IN_LIST <= n.
Proof. rw /is_split_point. case: Z.ltb_spec => //. Qed.

Lemma is_split_point_upper hash n : is_split_point hash n = false -> n < MAX_CHUNKS_IN_LIST.
Proof.
  rw /is_split_point. case: Z.ltb_spec => //; first by rw /MIN_CHUNKS_IN_LIST /MAX_CHUNKS_IN_LIST; lia.
  move=> _. by case: Z.leb_spec.
Qed.

Lemma at_level_app {A} (pre : list A) x post : at_level (pre ++ x :: post) (length pre) = Ok x.
Proof. by rw /at_level list_lookup_middle. Qed.

Section construction.
Context `{Hb : Blake3} {Hspec : Blake3Spec Hb}.

Lemma level_ok_push hi b l :
  level_ok hi l -> level_ok (hi + 1) (ChunkList_push_chunk (blake3_hash b) l).
Proof.
  move=> [H1 H2]. split; [apply keys_ok_snoc; [done|apply Hspec]|]. cbn. len_lia.
Qed.

Lemma denotes_push_node D i l own cl b below :
  denotes D (S i) l own -> ChunkList_encode cl = Ok b -> keys_ok (chunks cl) ->
  D (blake3_hash b) = Some b -> denotes D i cl below ->
  denotes D (S i) (ChunkList_push_chunk (blake3_hash b) l) (own ++ below).
Proof.
  move=> [Hl Hf] He Hk HD Hd. split; [done|].
  eapply flatten_snoc_node; eauto using decode_encode_list.
Qed.

(** The level above [pre ++ [cur]] after a split of [cur]: one key more, in a
    new level if there was none. *)
Definition pushed_above (h : ChunkKey) (post : list ChunkList) : list ChunkList :=
  match post with
  | [] => [ChunkList_push_chunk h (ChunkList_new_empty false)]
  | l :: post => ChunkList_push_chunk h l :: post
  end.

Lemma split_step_levels h pre cur post :
  <[length pre := ChunkList_new_empty (is_leaf cur)]>
    (alter (ChunkList_push_chunk h) (length pre + 1)%nat
      (if (length (pre ++ cur :: post) <=? length pre + 1)%nat
       then (pre ++ cur :: post) ++ [ChunkList_new_empty false]
       else pre ++ cur :: post)) =
  (pre ++ [ChunkList_new_empty (is_leaf cur)]) ++ pushed_above h post.
Proof.
  have Hal l post' : alter (ChunkList_push_chunk h) (length pre + 1)%nat (pre ++ cur :: l :: post') =
    pre ++ cur :: ChunkList_push_chunk h l :: post'.
  { by rw alter_app_r. }
  destruct post as [|l post]; case: Nat.leb_spec; rw length_app /= => Hlen; try lia.
  - rw -app_assoc /= Hal insert_app_r_alt // Nat.sub_diag -app_assoc //.
  - rw Hal insert_app_r_alt // Nat.sub_diag -app_assoc //.
Qed.

Lemma pushed_above_ok b post :
  Forall (level_ok 511) post ->
  exists l' post', pushed_above (blake3_hash b) post = l' :: post' /\
    level_ok 512 l' /\ Forall (level_ok 511) post' /\
    (post' = [] /\ len (chunks l') = 1 \/ length post = S (length post')).
Proof.
  case: post => [|l post] /= H.
  - do 2 eexists. split_and!; [done| |done|by left].
    apply level_ok_mono with (0 + 1); [lia|]. by apply level_ok_push, level_ok_empty.
  - apply Forall_cons in H as [Hl Hp]. do 2 eexists. split_and!; [done| |done|by right].
    by apply (level_ok_push 511).
Qed.

Lemma tree_chunks_split D pre cur post b cs :
  ChunkList_encode cur = Ok b -> keys_ok (chunks cur) -> D (blake3_hash b) = Some b ->
  tree_chunks D 0 (pre ++ cur :: post) = Some cs ->
  tree_chunks D 0 ((pre ++ [ChunkList_new_empty (is_leaf cur)]) ++
    pushed_above (blake3_hash b) post) = Some cs.
Proof.
  move=> He Hk HD /tree_chunks_app [up [low [H1 [H2 ->]]]].
  move: H1 => /tree_chunks_cons [u [own [H1 [Hcur ->]]]]. rw /= in H1 Hcur.
  have Hempty : denotes D (length pre) (ChunkList_new_empty (is_leaf cur)) [].
  { split; [by destruct Hcur|apply flatten_nil]. }
  rw -app_assoc. apply tree_chunks_app. exists (u ++ own), low. split_and!; [|done|done].
  apply tree_chunks_cons. exists (u ++ own), []. split_and!; [|done|by rw app_nil_r].
  destruct post as [|l post].
  - injection H1 as <-. apply tree_chunks_cons. exists [], own. split_and!; [done| |done].
    eapply (denotes_push_node D _ _ []); eauto. split; [done|apply flatten_nil].
  - move: H1 => /tree_chunks_cons [v [o [H1 [Hl ->]]]]. apply tree_chunks_cons.
    exists v, (o ++ own). split_and!; [done| |by rw app_assoc].
    eapply denotes_push_node; eauto.
Qed.

(** What an operation on the levels promises about the blobs [extra] it adds
    to the log and the levels [levels'] it leaves. *)
Definition levels_step (levels levels' : list ChunkList) (extra : list bytes) : Prop :=
  levels' <> [] /\ Forall (level_ok 511) levels' /\
  Forall (node_ok MIN_CHUNKS_IN_LIST MAX_CHUNKS_IN_LIST) extra /\
  forall D cs, knows D extra -> tree_chunks D 0 levels = Some cs ->
    tree_chunks D 0 levels' = Some cs.

Lemma split_levels_ok fuel hash pre cur post (log : list bytes) :
  Forall (level_ok 511) pre -> level_ok 512 cur -> Forall (level_ok 511) post ->
  (length post + 2 <= fuel \/ post = [] /\ 1 <= fuel /\ len (chunks cur) = 1%Z)%nat ->
  exists levels' extra,
    split_levels fuel hash (length pre) (pre ++ cur :: post) log = Ok (levels', log ++ extra) /\
    levels_step (pre ++ cur :: post) levels' extra.
Proof.
  elim: fuel hash pre cur post log => [|fuel IH] hash pre cur post log Hpre Hcur Hpost Hfuel; first lia.
  cbn [split_levels]. rw at_level_app bind_ok.
  destruct (is_split_point hash (len (chunks cur))) eqn:Hsp; last first.
  { apply is_split_point_upper in Hsp. exists (pre ++ cur :: post), [].
    rw app_nil_r. split; [done|]. split_and!; [by destruct pre| |constructor|done].
    apply Forall_app. split; [done|]. constructor; [|done].
    rw /MAX_CHUNKS_IN_LIST in Hsp. destruct Hcur. split; [done|lia]. }
  apply is_split_point_lower in Hsp. destruct Hcur as [Hk Hlen].
  rw /MIN_CHUNKS_IN_LIST in Hsp.
  destruct (encode_total 512 cur) as [b He]; [by split|lia|].
  rw He bind_ok split_step_levels.
  destruct (pushed_above_ok b post Hpost) as (l' & post' & Hpush & Hl' & Hp' & Hor).
  have Hbk : forall D cs, knows D [b] -> tree_chunks D 0 (pre ++ cur :: post) = Some cs ->
    tree_chunks D 0 ((pre ++ [ChunkList_new_empty (is_leaf cur)]) ++ l' :: post') = Some cs.
  { move=> D cs /Forall_singleton HD Ht. rw -Hpush. by apply tree_chunks_split. }
  rw Hpush. have -> : (length pre + 1)%nat = length (pre ++ [ChunkList_new_empty (is_leaf cur)])
    by rw length_app.
  destruct (IH (blake3_hash b) (pre ++ [ChunkList_new_empty (is_leaf cur)]) l' post' (log ++ [b]))
    as (levels' & extra & Heq & Hne & Hok & Hnodes & HD); [|done|done| |].
  { apply Forall_app. split; [done|]. constructor; [by apply level_ok_empty|constructor]. }
  { destruct Hfuel as [?|(-> & ? & ?)]; [|lia]. destruct Hor as [[-> ?]|?]; [right; split_and!; [done|lia|done]|left; lia]. }
  exists levels', (b :: extra). rw Heq -app_assoc. split; [done|].
  split_and!; [done|done| |].
  - constructor; [|done]. exists cur. split_and!; [done|done|done|by rw /MAX_CHUNKS_IN_LIST; lia].
  - move=> D cs /Forall_cons [HDb HDe] Ht. apply HD; [done|]. apply Hbk; [by repeat constructor|done].
Qed.

Lemma add_chunk_ok c levels log :
  levels <> [] -> Forall (level_ok 511) levels ->
  exists levels' extra,
    add_chunk c levels log = Ok (levels', log ++ c :: extra) /\
    levels' <> [] /\ Forall (level_ok 511) levels' /\
    Forall (node_ok MIN_CHUNKS_IN_LIST MAX_CHUNKS_IN_LIST) extra /\
    forall D cs, knows D (c :: extra) -> tree_chunks D 0 levels = Some cs ->
      tree_chunks D 0 levels' = Some (cs ++ [c]).
Proof.
  destruct levels as [|l levels]; [done|]. move=> _ /Forall_cons [Hl Hls].
  rw /add_chunk.
  change (alter ?f 0%nat (l :: levels)) with (f l :: levels). rw length_cons.
  destruct (split_levels_ok (S (S (length levels))) (blake3_hash c) []
    (ChunkList_push_chunk (blake3_hash c) l) levels (log ++ [c]))
    as (levels' & extra & Heq & Hne & Hok & Hnodes & HD); [done| |done|left; lia|].
  { by apply (level_ok_push 511). }
  exists levels', extra. rw /store_insert /log_store. cbn [app length] in Heq. rw Heq -app_assoc.
  split; [done|]. split_and!; [done|done|done|].
  move=> D cs /Forall_cons [HDc HDe] /tree_chunks_cons [up [own [Hup [[Hleaf Hown] ->]]]].
  apply HD; [done|]. apply tree_chunks_cons. exists up, (own ++ [c]).
  split_and!; [done| |by rw app_assoc]. split; [done|]. by apply flatten_snoc_leaf.
Qed.

Lemma add_chunks_ok cs levels log :
  levels <> [] -> Forall (level_ok 511) levels ->
  exists levels' extra,
    add_chunks cs levels log = Ok (levels', log ++ extra) /\
    levels' <> [] /\ Forall (level_ok 511) levels' /\
    Forall (fun b => b ∈ cs \/ node_ok MIN_CHUNKS_IN_LIST MAX_CHUNKS_IN_LIST b) extra /\
    forall D cs0, knows D extra -> tree_chunks D 0 levels = Some cs0 ->
      tree_chunks D 0 levels' = Some (cs0 ++ cs).
Proof.
  elim: cs levels log => [|c cs IH] levels log Hne Hok.
  { exists levels, []. rw app_nil_r. split; [done|]. split_and!; [done..|constructor|].
    move=> D cs0 _. by rw app_nil_r. }
  destruct (add_chunk_ok c levels log Hne Hok) as (l1 & e1 & Heq1 & Hne1 & Hok1 & Hn1 & HD1).
  destruct (IH l1 (log ++ c :: e1) Hne1 Hok1) as (l2 & e2 & Heq2 & Hne2 & Hok2 & Hn2 & HD2).
  exists l2, (c :: e1 ++ e2). cbn [add_chunks]. rw Heq1 bind_ok Heq2 -app_assoc.
  split; [done|]. split_and!; [done|done| |].
  - constructor; [left; by left|]. apply Forall_app. split.
    + eapply Forall_impl; [exact Hn1|]. by right.
    + eapply Forall_impl; [exact Hn2|]. move=> b [?|?]; [left; by right|by right].
  - move=> D cs0. rw /knows app_comm_cons Forall_app. move=> [HDa HDb] Ht.
    rw (cons_middle c cs0 cs) app_assoc. apply HD2; [done|]. by apply HD1.
Qed.

Lemma finish_levels_ok pre cur post (log : list bytes) :
  level_ok 512 cur -> Forall (level_ok 511) post ->
  exists levels' root extra,
    finish_levels (seq (length pre) (length post)) (pre ++ cur :: post) log =
      Ok (levels' ++ [root], log ++ extra) /\
    level_ok 512 root /\ Forall (node_ok 1 MAX_CHUNKS_IN_LIST) extra /\
    forall D cs, knows D extra -> tree_chunks D (length pre) (cur :: post) = Some cs ->
      denotes D (length pre + length post) root cs.
Proof.
  elim: post pre cur log => [|l post IH] pre cur log Hcur Hpost.
  { exists pre, cur, []. rw app_nil_r Nat.add_0_r. split; [done|]. split_and!; [done|constructor|].
    move=> D cs _ /tree_chunks_cons [up [own [[= <-] [Hd ->]]]]. done. }
  apply Forall_cons in Hpost as [Hl Hpost].
  cbn [length seq finish_levels]. rw at_level_app bind_ok.
  have Hlen : S (length pre) = length (pre ++ [cur]) by rw length_app /=; lia.
  destruct (chunks cur) as [|k ks] eqn:Hck.
  - destruct (IH (pre ++ [cur]) l log) as (lv & root & extra & Heq & Hroot & Hn & HD);
      [by apply level_ok_mono with 511|done|].
    exists lv, root, extra. rw Hlen (cons_middle cur pre (l :: post)) app_assoc Heq. split; [done|].
    split_and!; [done|done|]. move=> D cs HDe /tree_chunks_cons [up [own [Hup [[_ Hown] ->]]]].
    rw Hck flatten_nil in Hown. injection Hown as <-. rw app_nil_r.
    rw Hlen in Hup. have := HD D up HDe Hup. by rw -Hlen Nat.add_succ_comm.
  - destruct (encode_total 512 cur Hcur) as [b He]; [lia|]. destruct Hcur as [Hk Hlen512].
    rw He bind_ok alter_app_r. change (alter ?f 1%nat (cur :: l :: post)) with (cur :: f l :: post).
    rw Hlen (cons_middle cur pre (_ :: post)) app_assoc.
    destruct (IH (pre ++ [cur]) (ChunkList_push_chunk (blake3_hash b) l) (log ++ [b]))
      as (lv & root & extra & Heq & Hroot & Hn & HD); [by apply (level_ok_push 511)|done|].
    exists lv, root, (b :: extra). rw Heq -app_assoc. split; [done|]. split_and!; [done| |].
    + constructor; [|done]. exists cur. split_and!; [done|done| |by rw /MAX_CHUNKS_IN_LIST].
      rw Hck /=. lia.
    + move=> D cs /Forall_cons [HDb HDe] /tree_chunks_cons [up [own [Hup [Hown ->]]]].
      move: Hup => /tree_chunks_cons [up' [own' [Hup [Hown' ->]]]].
      rw -Nat.add_succ_comm Hlen. apply HD; [done|]. apply tree_chunks_cons.
      rw -!Hlen. exists up', (own' ++ own). split_and!; [done| |by rw app_assoc].
      by eapply denotes_push_node.
Qed.
End construction.

(** ** The tree [chunk_data] returns *)

(** A blob of a run: one of its data chunks, or a list node of 1 to 512 keys. *)
Definition blob_ok (data : bytes) (b : bytes) : Prop :=
  b ∈ chunks_of data \/ node_ok 1 MAX_CHUNKS_IN_LIST b.

Lemma node_ok_mono lo lo' hi b : lo' <= lo -> node_ok lo hi b -> node_ok lo' hi b.
Proof. intros H (cl & ? & ? & ?). exists cl. split_and!; [done|done|lia..]. Qed.

Section tree.
Context `{Hb : Blake3} {Hspec : Blake3Spec Hb}.

Lemma chunk_data_log data (log : list bytes) :
  exists root extra h,
    chunk_data data log = Ok (root, log ++ extra) /\
    level_ok MAX_CHUNKS_IN_LIST root /\ Forall (blob_ok data) extra /\
    forall D, knows D extra -> denotes D h root (chunks_of data).
Proof.
  destruct (add_chunks_ok (chunks_of data) [ChunkList_new_empty true] log)
    as (levels & e1 & Heq1 & Hne & Hok & Hn1 & HD1); [done|by repeat constructor|].
  destruct levels as [|l levels]; [done|]. apply Forall_cons in Hok as [Hl Hls].
  destruct (finish_levels_ok [] l levels (log ++ e1))
    as (lv & root & e2 & Heq2 & Hroot & Hn2 & HD2); [by apply level_ok_mono with 511|done|].
  exists root, (e1 ++ e2), (length levels). rw /chunk_data Heq1 bind_ok.
  have -> : (length (l :: levels) - 1)%nat = length levels by simpl; lia.
  cbn [length app] in Heq2. rw Heq2 bind_ok last_snoc app_assoc.
  split_and!; [done|done| |].
  - apply Forall_app. split; (eapply Forall_impl; [eassumption|]).
    + move=> b [?|?]; [by left|right]. by apply (node_ok_mono MIN_CHUNKS_IN_LIST).
    + by right.
  - move=> D /Forall_app [K1 K2]. by apply (HD2 D), (HD1 D []).
Qed.

Lemma minimize_log cl (log : list bytes) :
  level_ok MAX_CHUNKS_IN_LIST cl ->
  exists root extra k,
    minimize_chunk_list cl log = Ok (root, log ++ extra) /\
    level_ok MAX_CHUNKS_IN_LIST root /\ len (chunks root) < MINIMIZE_THRESHOLD /\
    Forall (node_ok 1 MAX_CHUNKS_IN_LIST) extra /\
    forall D h cs, knows D extra -> denotes D h cl cs -> denotes D (k + h) root cs.
Proof.
  move=> Hok. rw /minimize_chunk_list. case: Z.ltb_spec => Hlen.
  { exists cl, [], O. rw app_nil_r. by split_and!. }
  destruct (encode_total MAX_CHUNKS_IN_LIST cl Hok) as [b He]; [by rw /MAX_CHUNKS_IN_LIST|].
  rw He bind_ok. eexists _, [b], 1%nat. split_and!; [done| |done| |].
  - apply level_ok_mono with (0 + 1); [by rw /MAX_CHUNKS_IN_LIST|].
    by apply level_ok_push, level_ok_empty.
  - constructor; [|constructor]. destruct Hok as [? ?]. exists cl.
    rw /MINIMIZE_THRESHOLD in Hlen. split_and!; [done|done|lia|done].
  - move=> D h cs /Forall_singleton HD Hd. destruct Hok as [Hk _].
    apply (denotes_push_node D h _ [] cl b cs) => //.
Qed.
End tree.

(** ** From the log to a map *)

(** Two stores related by [R] stay related when the same blobs are inserted
    under their digests: the construction never reads the store. *)
Section stores.
Context `{Hb : Blake3} {T1 T2 : Type} `{S1 : ChunkStore T1, S2 : ChunkStore T2}.
Variable R : T1 -> T2 -> Prop.
Hypothesis R_insert : forall b t1 t2, R t1 t2 ->
  R (store_insert (blake3_hash b) b t1) (store_insert (blake3_hash b) b t2).

Definition same_run {A} (r1 : result (A * T1)) (r2 : result (A * T2)) : Prop :=
  match r1, r2 with
  | Ok (a1, t1), Ok (a2, t2) => a1 = a2 /\ R t1 t2
  | Err e1, Err e2 => e1 = e2
  | Panic p1, Panic p2 => p1 = p2
  | _, _ => False
  end.

Lemma same_run_bind {A B} (r1 : result (A * T1)) r2 (f1 : A * T1 -> result (B * T1)) f2 :
  same_run r1 r2 ->
  (forall a t1 t2, R t1 t2 -> same_run (f1 (a, t1)) (f2 (a, t2))) ->
  same_run (r1 ≫= f1) (r2 ≫= f2).
Proof. destruct r1 as [[]| |], r2 as [[]| |]; naive_solver. Qed.

Lemma same_run_pure {A B} (r : result A) (f1 : A -> result (B * T1)) (f2 : A -> result (B * T2)) :
  (forall a, same_run (f1 a) (f2 a)) -> same_run (r ≫= f1) (r ≫= f2).
Proof. move=> H. destruct r; simpl; auto. Qed.

Lemma split_levels_same fuel hash level levels t1 t2 :
  R t1 t2 -> same_run (split_levels fuel hash level levels t1) (split_levels fuel hash level levels t2).
Proof.
  elim: fuel hash level levels t1 t2 => [|fuel IH] hash level levels t1 t2 HR //.
  cbn [split_levels]. apply same_run_pure => cur.
  destruct (is_split_point _ _); [|done]. apply same_run_pure => b. by apply IH, R_insert.
Qed.

Lemma add_chunks_same cs levels t1 t2 :
  R t1 t2 -> same_run (add_chunks cs levels t1) (add_chunks cs levels t2).
Proof.
  elim: cs levels t1 t2 => [|c cs IH] levels t1 t2 HR //. cbn [add_chunks].
  apply same_run_bind; [by apply split_levels_same, R_insert|]. move=> a u1 u2. apply IH.
Qed.

Lemma finish_levels_same ls levels t1 t2 :
  R t1 t2 -> same_run (finish_levels ls levels t1) (finish_levels ls levels t2).
Proof.
  elim: ls levels t1 t2 => [|l ls IH] levels t1 t2 HR //. cbn [finish_levels].
  apply same_run_pure => cur. destruct (chunks cur); [by apply IH|].
  apply same_run_pure => b. by apply IH, R_insert.
Qed.

Lemma chunk_data_same data t1 t2 :
  R t1 t2 -> same_run (chunk_data data t1) (chunk_data data t2).
Proof.
  move=> HR. apply same_run_bind; [by apply add_chunks_same|]. move=> a u1 u2 Hu.
  apply same_run_bind; [by apply finish_levels_same|]. move=> a' v1 v2 Hv.
  by apply same_run_pure.
Qed.

Lemma minimize_same cl t1 t2 :
  R t1 t2 -> same_run (minimize_chunk_list cl t1) (minimize_chunk_list cl t2).
Proof.
  move=> HR. rw /minimize_chunk_list. destruct (_ <? _); [done|].
  apply same_run_pure => b. split; [done|by apply R_insert].
Qed.
End stores.

Section map_store.
Context `{Hb : Blake3}.

Definition store_all (bs : list bytes) (m : gmap ChunkKey bytes) : gmap ChunkKey bytes :=
  foldl (fun m b => <[blake3_hash b := b]> m) m bs.

(** No two different blobs of the list have the same digest. *)
Definition collision_free (bs : list bytes) : Prop :=
  forall a b, a ∈ bs -> b ∈ bs -> blake3_hash a = blake3_hash b -> a = b.

Lemma store_all_snoc bs b m : store_all (bs ++ [b]) m = <[blake3_hash b := b]> (store_all bs m).
Proof. by rw /store_all foldl_app. Qed.

Lemma store_all_app bs bs' m : store_all (bs ++ bs') m = store_all bs' (store_all bs m).
Proof. by rw /store_all foldl_app. Qed.

Lemma store_all_lookup bs m k c :
  store_all bs m !! k = Some c -> (c ∈ bs /\ k = blake3_hash c) \/ m !! k = Some c.
Proof.
  elim/rev_ind: bs => [|b bs IH]; first by right.
  rw store_all_snoc. intros [[<- <-]|[_ ?]]%lookup_insert_Some.
  - left. set_solver.
  - destruct IH as [[??]|?]; [done|left; set_solver|by right].
Qed.

Lemma store_all_knows bs m : collision_free bs -> knows (fun k => store_all bs m !! k) bs.
Proof.
  elim/rev_ind: bs => [|b bs IH] Hc; first constructor.
  apply Forall_forall => a Ha. rw store_all_snoc.
  destruct (decide (blake3_hash b = blake3_hash a)) as [Heq|Hne].
  - rw (Hc b a) //; [set_solver|]. by rw lookup_insert_eq.
  - rw lookup_insert_ne //. have Hc' : collision_free bs by move=> x y Hx Hy; apply Hc; set_solver.
    apply (proj1 (Forall_forall _ _) (IH Hc')).
    apply elem_of_app in Ha as [?|?%list_elem_of_singleton]; [done|congruence].
Qed.

(** Running on a map is running on the log and inserting the log. *)
Definition map_of_log (m0 m : gmap ChunkKey bytes) (log : list bytes) : Prop := m = store_all log m0.

Lemma map_of_log_insert m0 b m log :
  map_of_log m0 m log ->
  map_of_log m0 (store_insert (blake3_hash b) b m) (store_insert (blake3_hash b) b log).
Proof. rw /map_of_log => ->. by rw store_all_snoc. Qed.

Lemma chunk_data_map data m root (log : list bytes) :
  chunk_data data [] = Ok (root, log) -> chunk_data data m = Ok (root, store_all log m).
Proof.
  move=> Hlog. have := chunk_data_same (map_of_log m) (map_of_log_insert m) data m [] eq_refl.
  rw Hlog /same_run. destruct (chunk_data data m) as [[r m']| |]; [|done..]. by intros [-> ->].
Qed.

Lemma minimize_map cl m root (log : list bytes) :
  minimize_chunk_list cl [] = Ok (root, log) -> minimize_chunk_list cl m = Ok (root, store_all log m).
Proof.
  move=> Hlog. have := minimize_same (map_of_log m) (map_of_log_insert m) cl m [] eq_refl.
  rw Hlog /same_run. destruct (minimize_chunk_list cl m) as [[r m']| |]; [|done..]. by intros [-> ->].
Qed.

(** The blobs hashed by one run of [chunk_data]. *)
Definition chunk_data_blobs (data : bytes) : list bytes :=
  match chunk_data data ([] : list bytes) with Ok (_, log) => log | _ => [] end.
End map_store.

(** ** Providers

    What a [ChunkProvider] promises its clients, relative to the blobs [D]:
    every key that was prefetched can be requested, and is answered with its
    blob. *)
Class ProviderSpec (S : Type) `{ChunkProvider S} (D : ChunkKey -> option bytes) := {
  prov_inv : S -> Prop;
  prov_ready : S -> ChunkKey -> Prop;
  prefetch_spec ks s :
    prov_inv s -> Forall (fun k => is_Some (D k)) ks ->
    prov_inv (prefetch ks s) /\
    forall k, k ∈ ks \/ prov_ready s k -> prov_ready (prefetch ks s) k;
  get_chunk_spec k c s :
    prov_inv s -> prov_ready s k -> D k = Some c ->
    exists s', get_chunk k s = (Ok c, s') /\ prov_inv s' /\
      forall k', prov_ready s k' -> prov_ready s' k';
}.

(** The [HashMap] provider serves the blobs of the map. *)
#[global] Program Instance map_provider_spec (m : gmap ChunkKey bytes) :
  ProviderSpec (gmap ChunkKey bytes) (fun k => m !! k) :=
  {| prov_inv s := s = m; prov_ready _ _ := True |}.
Next Obligation. done. Qed.
Next Obligation. intros m k c s -> _ Hk. exists m. by rw /= Hk. Qed.

Lemma flatten_known D h ks cs :
  flatten D h ks = Some cs -> Forall (fun k => is_Some (D k)) ks.
Proof.
  destruct h as [|h]; cbn.
  - move=> /mapM_Some_1 Hf. by eapply Forall2_Forall_l; [exact Hf|]; apply Forall_true; eauto.
  - destruct (mapM _ ks) as [css|] eqn:Hm; [|done]. move=> _.
    apply mapM_Some_1 in Hm. eapply Forall2_Forall_l; [exact Hm|]. apply Forall_true => c k /=.
    destruct (D k); [by eauto|done].
Qed.

Section lawful.
Context {S : Type} `{HP : ChunkProvider S} {D : ChunkKey -> option bytes} {HS : ProviderSpec S D}.

Definition runs_from (m : emitM S unit) (s : S) (out : list bytes) : Prop :=
  exists s', m s = (out, Ok tt, s') /\ prov_inv s' /\
    forall k, prov_ready s k -> prov_ready s' k.

Lemma emit_for_runs (ks : list ChunkKey) (body : ChunkKey -> emitM S unit) outs s :
  Forall2 (fun k out => forall s, prov_inv s -> prov_ready s k -> runs_from (body k) s out) ks outs ->
  prov_inv s -> Forall (prov_ready s) ks ->
  runs_from (emit_for ks body) s (concat outs).
Proof.
  move=> Hf. elim: {ks outs} Hf s => [|k out ks outs Hk _ IH] s Hi Hr.
  { exists s. by split_and!. }
  apply Forall_cons in Hr as [Hrk Hr].
  destruct (Hk s Hi Hrk) as (s1 & H1 & Hi1 & Hm1).
  destruct (IH s1 Hi1) as (s2 & H2 & Hi2 & Hm2).
  { eapply Forall_impl; [exact Hr|]. apply Hm1. }
  exists s2. split_and!; [|done|auto]. by apply (emit_bind_ok _ _ s out () s1).
Qed.

Lemma reconstruct_runs h fuel cl cs s :
  denotes D h cl cs -> (h < fuel)%nat -> prov_inv s ->
  runs_from (reconstruct_data fuel cl) s cs.
Proof.
  elim: h fuel cl cs s => [|h IH] [|fuel] cl cs s [Hl Hf] Hfuel Hi; try lia.
  all: destruct (prefetch_spec (chunks cl) s Hi (flatten_known _ _ _ _ Hf)) as [Hi1 Hr1].
  all: have Hrk : Forall (prov_ready (prefetch (chunks cl) s)) (chunks cl)
    by apply Forall_forall => k Hk; apply Hr1; left.
  all: cbn [flatten] in Hf.
  - have -> : cs = concat ((fun c => [c]) <$> cs) by elim: {Hf} cs => //= c cs' <-.
    destruct (emit_for_runs (chunks cl) (fun chunk_key =>
        chunk ← lift_state (get_chunk chunk_key);
        if is_leaf cl then emit chunk
        else child ← lift_result (ChunkList_decode chunk); reconstruct_data fuel child)
      ((fun c => [c]) <$> cs) (prefetch (chunks cl) s)) as (s2 & H2 & Hi2 & Hm2); [|done|done|].
    { apply Forall2_fmap_r. eapply Forall2_impl; [apply mapM_Some_1, Hf|].
      move=> k c Hk s0 Hi0 Hr0. destruct (get_chunk_spec k c s0 Hi0 Hr0 Hk) as (s1 & Hg & Hi3 & Hm).
      exists s1. split_and!; [|done|done]. by rw /mbind /emit_bind /lift_state Hg Hl. }
    exists s2. split_and!; [|done|auto]. by cbn; rw /mbind /emit_bind /modify H2.
  - destruct (mapM _ (chunks cl)) as [css|] eqn:Hm; [|done]. injection Hf as <-.
    destruct (emit_for_runs (chunks cl) (fun chunk_key =>
        chunk ← lift_state (get_chunk chunk_key);
        if is_leaf cl then emit chunk
        else child ← lift_result (ChunkList_decode chunk); reconstruct_data fuel child)
      css (prefetch (chunks cl) s)) as (s2 & H2 & Hi2 & Hm2); [|done|done|].
    { eapply Forall2_impl; [apply mapM_Some_1, Hm|].
      move=> k c /= Hk s0 Hi0 Hr0. destruct (D k) as [blob|] eqn:HDk; [|done].
      cbn in Hk. destruct (ChunkList_decode blob) as [child| |] eqn:Hdec; [|done..].
      destruct (Bool.eqb _ _) eqn:Hleaf; [|done]. apply eqb_prop in Hleaf.
      destruct (get_chunk_spec k blob s0 Hi0 Hr0 HDk) as (s1 & Hg & Hi3 & Hm3).
      destruct (IH fuel child c s1) as (s3 & H3 & Hi4 & Hm4); [done|lia|done|].
      exists s3. split_and!; [|done|auto].
      by rw /mbind /emit_bind /lift_state Hg Hl /= /lift_result Hdec H3. }
    exists s2. split_and!; [|done|auto]. by cbn; rw /mbind /emit_bind /modify H2.
Qed.

(** The lists one level below [cl], as [D] knows them. *)
Definition children (cl : ChunkList) : list ChunkList :=
  if is_leaf cl then []
  else chunks cl ≫= fun k =>
    match D k with
    | Some blob => match ChunkList_decode blob with Ok c => [c] | _ => [] end
    | None => []
    end.

(** All keys of the trees below [cls], [h] levels deep. *)
Fixpoint tree_keys (h : nat) (cls : list ChunkList) : list ChunkKey :=
  (cls ≫= chunks) ++
  match h with O => [] | Datatypes.S h => tree_keys h (cls ≫= children) end.

Definition trees_ok (h : nat) (cls : list ChunkList) : Prop :=
  Forall (fun cl => exists h' cs, (h' <= h)%nat /\ denotes D h' cl cs) cls.

Lemma fetch_children_runs ks css h s :
  Forall2 (fun k cs => exists blob c, D k = Some blob /\ ChunkList_decode blob = Ok c /\
    denotes D h c cs) ks css ->
  prov_inv s -> Forall (prov_ready s) ks ->
  exists s', fetch_children ks s = (Ok (chunks (mkChunkList false ks) ≫= fun k =>
      match D k with
      | Some blob => match ChunkList_decode blob with Ok c => [c] | _ => [] end
      | None => []
      end), s') /\ prov_inv s' /\ forall k, prov_ready s k -> prov_ready s' k.
Proof.
  move=> Hf. elim: {ks css} Hf s => [|k cs ks css Hk _ IH] s Hi Hr; first by exists s.
  apply Forall_cons in Hr as [Hrk Hr]. destruct Hk as (blob & c & HDk & Hdec & Hd).
  destruct (get_chunk_spec k blob s Hi Hrk HDk) as (s1 & Hg & Hi1 & Hm1).
  destruct (IH s1 Hi1) as (s2 & H2 & Hi2 & Hm2).
  { eapply Forall_impl; [exact Hr|]. apply Hm1. }
  exists s2. split_and!; [|done|auto]. cbn in H2 |- *. by rw Hg Hdec H2 HDk /= Hdec.
Qed.

Lemma denotes_children h cl cs :
  denotes D (Datatypes.S h) cl cs ->
  exists css, Forall2 (fun k cs => exists blob c, D k = Some blob /\ ChunkList_decode blob = Ok c /\
    denotes D h c cs) (chunks cl) css.
Proof.
  move=> [_ Hf]. cbn in Hf. destruct (mapM _ (chunks cl)) as [css|] eqn:Hm; [|done].
  exists css. eapply Forall2_impl; [apply mapM_Some_1, Hm|]. move=> k c /= Hk.
  destruct (D k) as [blob|]; [|done]. cbn in Hk.
  destruct (ChunkList_decode blob) as [child| |] eqn:Hdec; [|done..].
  destruct (Bool.eqb _ _) eqn:Hl; [|done]. apply eqb_prop in Hl. exists blob, child. by split_and!.
Qed.

Lemma children_ok h cl cs :
  denotes D h cl cs -> trees_ok (pred h) (children cl).
Proof.
  move=> Hd. rw /children. destruct h as [|h].
  { destruct Hd as [-> _]. constructor. }
  destruct (denotes_children _ _ _ Hd) as [css Hf]. destruct Hd as [-> _].
  apply Forall_bind. eapply Forall2_Forall_l; [exact Hf|]. apply Forall_true.
  intros c k (blob & cl' & HDk & Hdec & Hd'). rw /compose HDk Hdec. constructor; [|constructor]. by exists h, c.
Qed.

Lemma next_level_runs h cls s :
  trees_ok h cls -> prov_inv s -> Forall (prov_ready s) (cls ≫= chunks) ->
  exists s', next_level cls s = (Ok (cls ≫= children), s') /\ prov_inv s' /\
    (forall k, prov_ready s k -> prov_ready s' k) /\ trees_ok (pred h) (cls ≫= children).
Proof.
  elim: cls s => [|cl cls IH] s Hok Hi Hr.
  { exists s. split_and!; [done..|constructor]. }
  apply Forall_cons in Hok as [(h' & cs & Hh & Hd) Hok].
  cbn in Hr. apply Forall_app in Hr as [Hrc Hr].
  have Hco : trees_ok (pred h) (children cl).
  { eapply Forall_impl; [eapply children_ok, Hd|]. intros c (h2 & cs2 & ? & ?). exists h2, cs2. split; [lia|done]. }
  cbn [next_level]. rw bind_cons /children. destruct (is_leaf cl) eqn:Hleaf.
  - destruct (IH s Hok Hi Hr) as (s' & Heq & Hi' & Hm & Ht). by exists s'.
  - destruct h' as [|h']; first by destruct Hd as [Hd _]; rw Hleaf in Hd.
    destruct (denotes_children _ _ _ Hd) as [css Hf].
    destruct (fetch_children_runs _ _ _ s Hf Hi Hrc) as (s1 & Heq1 & Hi1 & Hm1).
    destruct (IH s1 Hok Hi1) as (s2 & Heq2 & Hi2 & Hm2 & Ht2).
    { eapply Forall_impl; [exact Hr|]. apply Hm1. }
    exists s2. rw Heq1 Heq2. split_and!; [done|done|auto|].
    apply Forall_app. split; [|done]. by rw /children Hleaf in Hco.
Qed.

Lemma prefetch_metadata_runs h fuel cls s :
  trees_ok h cls -> prov_inv s -> (h < fuel)%nat ->
  exists s', prefetch_metadata_chunks fuel cls s = (Ok tt, s') /\ prov_inv s' /\
    forall k, prov_ready s k \/ k ∈ tree_keys h cls -> prov_ready s' k.
Proof.
  elim: fuel h cls s => [|fuel IH] h cls s Hok Hi Hfuel; first lia.
  destruct cls as [|cl cls].
  { exists s. split_and!; [done|done|]. move=> k [//|Hk].
    have Hnil : tree_keys h [] = [] by clear; elim: h. rw Hnil in Hk. by apply elem_of_nil in Hk. }
  set cls' := cl :: cls in Hok *.
  destruct (prefetch_spec (cls' ≫= chunks) s Hi) as [Hi1 Hr1].
  { apply Forall_bind. eapply Forall_impl; [exact Hok|].
    intros c (h' & cs & _ & [_ Hf]). by eapply flatten_known. }
  destruct (next_level_runs h cls' (prefetch (cls' ≫= chunks) s) Hok Hi1) as (s2 & Heq2 & Hi2 & Hm2 & Ht2).
  { apply Forall_forall => k Hk. apply Hr1. by left. }
  have Hstep : prefetch_metadata_chunks (Datatypes.S fuel) cls' s =
    prefetch_metadata_chunks fuel (cls' ≫= children) s2 by cbn [prefetch_metadata_chunks]; rw Heq2.
  rw Hstep. destruct h as [|h].
  - have Hnil : cls' ≫= children = [].
    { clear -Hok. elim: cls' Hok => [|c cs' IH] // /Forall_cons [[h' [? [Hh [Hl _]]]] Hok].
      rw bind_cons IH // app_nil_r /children Hl. by have -> : h' = O by lia. }
    exists s2. rw Hnil. split_and!; [by destruct fuel|done|]. cbn [tree_keys]. rw app_nil_r.
    move=> k Hk. apply Hm2, Hr1. naive_solver.
  - destruct (IH h (cls' ≫= children) s2) as (s3 & Heq3 & Hi3 & Hm3); [done|done|lia|].
    exists s3. split_and!; [done|done|]. cbn [tree_keys]. move=> k [Hk|/elem_of_app [Hk|Hk]].
    + apply Hm3. left. apply Hm2, Hr1. by right.
    + apply Hm3. left. apply Hm2, Hr1. by left.
    + apply Hm3. by right.
Qed.
End lawful.

(** ** Properties *)

Lemma decode_keys_inv count buf keys :
  ChunkList_decode_keys count buf = Ok keys ->
  keys_ok keys /\ length keys = count /\ 32 * Z.of_nat count <= len buf.
Proof.
  elim: count buf keys => [|n IH] buf keys /=; first by move=> [<-]; split_and!; [constructor|done|lia].
  rw /try_get_slice /OUT_LEN. case: Z.ltb_spec => // Hlen. rw bind_ok.
  intros (ks & (Hok & Hl & Hb)%IH & [= <-])%bind_ok_inv.
  split_and!; [constructor; [len_lia|done]|by rw /= Hl|]. len_lia.
Qed.

Lemma decode_no_panic buf p : ChunkList_decode buf <> Panic p.
Proof.
  have Hk n b q : ChunkList_decode_keys n b <> Panic q.
  { elim: n b => [|n IH] b //=. rw /try_get_slice. destruct (_ <? _); [done|]. rw bind_ok.
    specialize (IH (zdrop OUT_LEN b)). destruct (ChunkList_decode_keys n _) as [| |q']; [done..|].
    move=> [Hq]. apply IH. by rw Hq. }
  rw /ChunkList_decode /try_get_u32 /try_get_slice. destruct buf as [|b buf]; [done|]. rw bind_ok.
  destruct (_ <? _); [done|]. rw !bind_ok. specialize (Hk (Z.to_nat (be_val (ztake 4 buf))) (zdrop 4 buf)).
  destruct (ChunkList_decode_keys _ _) as [| |q]; [done..|]. by destruct (Hk q).
Qed.

(** [ChunkList::decode] inverts [ChunkList::encode] on every list of at most
    [u32::MAX] digests, and the encoding has 5 bytes plus 32 per key. *)
Lemma chunk_list_roundtrip cl (Hkeys : keys_ok (chunks cl)) (Hlen : len (chunks cl) <= U32_MAX) :
  exists b, ChunkList_encode cl = Ok b /\ ChunkList_decode b = Ok cl /\
    len b = 5 + 32 * len (chunks cl).
Proof.
  eexists. have He := encode_ok cl Hlen.
  split_and!; [exact He|by apply decode_encode_list|by apply encode_size].
Qed.


(** [ChunkList::decode] on arbitrary bytes never panics, and what it accepts
    are whole 32-byte keys that the buffer really holds. *)
Theorem chunk_list_decode_safe buf :
  (exists e, ChunkList_decode buf = Err e) \/
  (exists cl, ChunkList_decode buf = Ok cl /\ keys_ok (chunks cl) /\
     5 + 32 * len (chunks cl) <= len buf).
Proof.
  destruct (ChunkList_decode buf) as [cl|e|p] eqn:Hd; [right|left; by exists e|by apply decode_no_panic in Hd].
  exists cl. split; [done|]. rw /ChunkList_decode /try_get_u32 /try_get_slice in Hd.
  destruct buf as [|b buf]; [done|]. rw bind_ok in Hd.
  move: Hd. case: Z.ltb_spec => // Hlen. rw !bind_ok.
  intros (keys & (Hok & Hl & Hb)%decode_keys_inv & [= <-])%bind_ok_inv. cbn [chunks length].
  split; [done|]. rw len_zdrop in Hb; [lia|]. lia.
Qed.

Section dedup_properties.
Context `{Hb : Blake3} {Hspec : Blake3Spec Hb}.

Lemma chunk_data_blobs_spec data :
  exists root h, chunk_data data ([] : list bytes) = Ok (root, chunk_data_blobs data) /\
    level_ok MAX_CHUNKS_IN_LIST root /\ Forall (blob_ok data) (chunk_data_blobs data) /\
    forall D, knows D (chunk_data_blobs data) -> denotes D h root (chunks_of data).
Proof.
  destruct (chunk_data_log data []) as (root & extra & h & Heq & Hok & Hblobs & HD).
  rw /chunk_data_blobs Heq. by exists root, h.
Qed.

Lemma blob_size data b : blob_ok data b -> 0 < len b <= 5 + 32 * MAX_CHUNKS_IN_LIST.
Proof.
  intros [Hin|(cl & He & Hk & Hlen)].
  - destruct (chunks_of_sizes data) as [Hs _].
    have := proj1 (Forall_forall _ _) Hs b Hin. rw /MAX_CHUNK_SIZE /MAX_CHUNKS_IN_LIST. lia.
  - rw (encode_size cl b) //. lia.
Qed.
End dedup_properties.

(** [chunk_data] never panics and its loops end, whatever the data and the
    map: the root has at most 512 keys, and everything it adds to the map is
    stored under its own digest and is a non-empty blob of at most 16389 bytes. *)
Lemma chunk_data_total `{Hb : Blake3} {Hspec : Blake3Spec Hb} (data : bytes) (m : gmap ChunkKey bytes) :
  exists root m', chunk_data data m = Ok (root, m') /\
    keys_ok (chunks root) /\ len (chunks root) <= MAX_CHUNKS_IN_LIST /\
    forall k c, m' !! k = Some c -> m !! k = Some c \/
      k = blake3_hash c /\ 0 < len c <= 16389.
Proof.
  destruct (chunk_data_blobs_spec data) as (root & h & Heq & [Hk Hlen] & Hblobs & _).
  exists root, (store_all (chunk_data_blobs data) m). split_and!; [by apply chunk_data_map|done|done|].
  intros k c [[Hc ->]|?]%store_all_lookup; [right|by left]. split; [done|].
  apply (blob_size data). by apply (proj1 (Forall_forall _ _) Hblobs).
Qed.

(** A concrete digest function for the witnesses: short inputs are kept as they
    are (padded), longer ones are folded. *)
Definition toy_hash (b : bytes) : bytes :=
  if len b <? 32 then take 32 (b ++ Byte.x01 :: replicate 32 Byte.x00)
  else be_bytes 32 (foldl (fun acc x => Z.land (acc * 257 + b2z x + 1) U32_MAX) (len b) b).

Definition toy_blake3 : Blake3 := toy_hash.

Lemma toy_blake3_spec : Blake3Spec toy_blake3.
Proof.
  move=> b. rw /blake3_hash /toy_blake3 /toy_hash.
  destruct (Z.ltb_spec (len b) 32); last by rw length_be_bytes.
  rw length_take length_app length_cons length_replicate. lia.
Qed.

Definition collision_freeb `{Blake3} (bs : list bytes) : bool :=
  forallb (fun a => forallb (fun b =>
    implb (bool_decide (blake3_hash a = blake3_hash b)) (bool_decide (a = b))) bs) bs.

Lemma collision_freeb_true `{Blake3} bs : collision_freeb bs = true -> collision_free bs.
Proof.
  rw /collision_freeb => /forallb_forall Hf a b /list_elem_of_In Ha /list_elem_of_In Hb Heq.
  have := Hf a Ha. move=> /forallb_forall /(_ b Hb).
  rw bool_decide_true //=. apply bool_decide_eq_true_1.
Qed.

(** Three chunks, of 514, 514 and 2 bytes: the bytes after position 512 bring the
    hash to the mask. *)
Definition sample_data : bytes :=
  replicate 512 Byte.x41 ++ [Byte.x06; Byte.x88] ++
  replicate 512 Byte.x42 ++ [Byte.x11; Byte.xf1] ++ [Byte.x43; Byte.x44].

Example sample_data_chunks : length <$> chunks_of sample_data = [514; 514; 2]%nat.
Proof. vm_compute. reflexivity. Qed.

(** The blobs of [chunk_data] followed by [minimize_chunk_list]. *)
Definition dedup_blobs `{Blake3} (data : bytes) : list bytes :=
  match chunk_data data ([] : list bytes) with
  | Ok (root, log) =>
      match minimize_chunk_list root ([] : list bytes) with
      | Ok (_, extra) => log ++ extra
      | _ => []
      end
  | _ => []
  end.

(** Both steps together, against any knowledge of their blobs. *)
Lemma dedup_blobs_spec `{Hb : Blake3} {Hspec : Blake3Spec Hb} (data : bytes) (m : gmap ChunkKey bytes) :
  exists root root' m1 h,
    chunk_data data m = Ok (root, m1) /\
    minimize_chunk_list root m1 = Ok (root', store_all (dedup_blobs data) m) /\
    level_ok MAX_CHUNKS_IN_LIST root' /\
    len (chunks root') < MINIMIZE_THRESHOLD /\ Forall (blob_ok data) (dedup_blobs data) /\
    forall D, knows D (dedup_blobs data) -> denotes D h root' (chunks_of data).
Proof.
  destruct (chunk_data_blobs_spec data) as (root & h & Heq & Hok & Hblobs & HD).
  destruct (minimize_log root [] Hok) as (root' & extra & k & Heq2 & Hok2 & Hlen & Hn & HD2).
  rw /dedup_blobs Heq Heq2. exists root, root', (store_all (chunk_data_blobs data) m), (k + h)%nat.
  split_and!; [by apply chunk_data_map| |done|done| |].
  - rw store_all_app. by apply minimize_map.
  - apply Forall_app. split; [done|]. eapply Forall_impl; [exact Hn|]. by right.
  - move=> D /Forall_app [K1 K2]. by apply HD2, HD.
Qed.

(** C3: deduplication is lossless.  Chunking data into a map, shrinking the root
    with [minimize_chunk_list] and reconstructing from that map gives the data
    back, for every map and every data whose blobs do not collide; the shrunk
    root has fewer than 64 keys. *)
Theorem dedup_roundtrip `{Hb : Blake3} {Hspec : Blake3Spec Hb} (data : bytes) (m : gmap ChunkKey bytes)
  (Hfree : collision_free (dedup_blobs data)) :
  exists root root' m1 m2 depth,
    chunk_data data m = Ok (root, m1) /\ minimize_chunk_list root m1 = Ok (root', m2) /\
    len (chunks root') < MINIMIZE_THRESHOLD /\
    forall fuel, (depth < fuel)%nat ->
      exists out, reconstruct_data fuel root' m2 = (out, Ok tt, m2) /\ concat out = data.
Proof.
  destruct (dedup_blobs_spec data m) as (root & root' & m1 & h & H1 & H2 & _ & H3 & _ & HD).
  exists root, root', m1, (store_all (dedup_blobs data) m), h. split_and!; [done..|].
  move=> fuel Hfuel. exists (chunks_of data). split; [|apply chunks_of_concat].
  destruct (@reconstruct_runs _ _ _ (map_provider_spec (store_all (dedup_blobs data) m))
    h fuel root' (chunks_of data) (store_all (dedup_blobs data) m)) as (s' & -> & -> & _);
    [by apply HD, store_all_knows|done..].
Qed.

Lemma dedup_roundtrip_witness :
  exists root root' m1 m2 depth,
    @chunk_data toy_blake3 _ _ sample_data (∅ : gmap ChunkKey bytes) = Ok (root, m1) /\
    @minimize_chunk_list toy_blake3 _ _ root m1 = Ok (root', m2) /\
    len (chunks root') < MINIMIZE_THRESHOLD /\
    forall fuel, (depth < fuel)%nat ->
      exists out, reconstruct_data fuel root' m2 = (out, Ok tt, m2) /\ concat out = sample_data.
Proof.
  apply (@dedup_roundtrip toy_blake3 toy_blake3_spec).
  apply collision_freeb_true. vm_compute. reflexivity.
Defined.

(** [prefetch_metadata_chunks] on chunk lists whose trees the provider knows
    ends without an error after one iteration per level, and from then on every
    key of the trees, down to the data chunks, can be requested. *)
Lemma prefetch_metadata_complete {S : Type} `{HP : ChunkProvider S}
  (D : ChunkKey -> option bytes) {HS : ProviderSpec S D} (h fuel : nat) cls (s : S)
  (Htrees : trees_ok (D := D) h cls) (Hinv : prov_inv s) (Hfuel : (h < fuel)%nat) :
  exists s', prefetch_metadata_chunks fuel cls s = (Ok tt, s') /\ prov_inv s' /\
    forall k, k ∈ tree_keys (D := D) h cls -> prov_ready s' k.
Proof.
  destruct (prefetch_metadata_runs h fuel cls s Htrees Hinv Hfuel) as (s' & H1 & H2 & H3).
  exists s'. split_and!; auto.
Qed.

(** A leaf list, encoded, as the only child of a root. *)
Definition sample_leaf : ChunkList := mkChunkList true [toy_hash [Byte.x41]].
Definition sample_leaf_blob : bytes :=
  match ChunkList_encode sample_leaf with Ok b => b | _ => [] end.
Definition sample_root : ChunkList := mkChunkList false [toy_hash sample_leaf_blob].
Definition sample_map : gmap ChunkKey bytes :=
  <[toy_hash sample_leaf_blob := sample_leaf_blob]> {[ toy_hash [Byte.x41] := [Byte.x41] ]}.

Example prefetch_metadata_sample :
  exists s', prefetch_metadata_chunks 2 [sample_root] sample_map = (Ok tt, s') /\
    s' = sample_map /\
    forall k, k ∈ tree_keys (D := fun k => sample_map !! k) 1 [sample_root] -> True.
Proof.
  apply (@prefetch_metadata_complete _ map_provider (fun k => sample_map !! k)
    (map_provider_spec sample_map) 1 2 [sample_root] sample_map).
  - constructor; [|constructor]. exists 1%nat, [[Byte.x41]].
    split; [lia|]. split; vm_compute; reflexivity.
  - reflexivity.
  - lia.
Qed.
