(* ===== verification/ChunkCache.v ===== *)
(** * The chunk cache

    Models common/src/chunk_cache.rs: the least-recently-used store
    [RawChunkCache], the shared [ChunkCache] with its table of chunks that some
    task is fetching, and the cache file.

    The crate [hashlink] is a parameter: [LinkedHashMap] has the operations the
    source uses and [LinkedHashMapSpec] their documented effect on the order of
    the entries (the front is the oldest).  A mutex section is one operation on
    the state; a semaphore with no permits, used as an event, is an id that is
    closed or not.  [zstd] is a parameter of the cache file ([Zstd]).  The [u64]
    sums wrap, as in a release build. *)

From Stdlib Require Import ssreflect.
From stdpp Require Import base numbers list gmap strings.
From S2P Require Import Prelude Buf Chunker Dedup.

#[local] Open Scope general_if_scope.

(** ** Linked hash maps *)

Class LinkedHashMap (M : Type) := {
  lhm_new : M;
  lhm_iter : M -> list (ChunkKey * bytes);                         (* front to back *)
  lhm_insert : ChunkKey -> bytes -> M -> option bytes * M;
  lhm_pop_front : M -> option (ChunkKey * bytes) * M;
  lhm_to_back : ChunkKey -> M -> option bytes * M;
}.

(** The value of a key in a list of entries, and the entries without it. *)
Fixpoint assoc (k : ChunkKey) (l : list (ChunkKey * bytes)) : option bytes :=
  match l with
  | [] => None
  | (k', v) :: l => if decide (k = k') then Some v else assoc k l
  end.
Definition without (k : ChunkKey) (l : list (ChunkKey * bytes)) : list (ChunkKey * bytes) :=
  filter (fun e => fst e <> k) l.

(** An inserted entry goes to the back and replaces the old one; [to_back] moves
    an entry; [pop_front] takes the oldest. *)
Class LinkedHashMapSpec (M : Type) {H : LinkedHashMap M} : Prop := {
  lhm_new_iter : lhm_iter lhm_new = [];
  lhm_nodup m : NoDup (fst <$> lhm_iter m);
  lhm_insert_iter k v m :
    fst (lhm_insert k v m) = assoc k (lhm_iter m) /\
    lhm_iter (snd (lhm_insert k v m)) = without k (lhm_iter m) ++ [(k, v)];
  lhm_pop_front_iter m :
    fst (lhm_pop_front m) = head (lhm_iter m) /\ lhm_iter (snd (lhm_pop_front m)) = tail (lhm_iter m);
  lhm_to_back_iter k m :
    fst (lhm_to_back k m) = assoc k (lhm_iter m) /\
    lhm_iter (snd (lhm_to_back k m)) =
      match assoc k (lhm_iter m) with
      | Some v => without k (lhm_iter m) ++ [(k, v)]
      | None => lhm_iter m
      end;
}.

(** ** [RawChunkCache] *)

Record RawChunkCache (M : Type) := mkRawCache {
  rc_chunks : M;
  rc_total_size : Z;
  rc_max_size : Z;
}.
Arguments mkRawCache {M}.
Arguments rc_chunks {M}.
Arguments rc_total_size {M}.
Arguments rc_max_size {M}.

Section raw_cache.
Context `{LinkedHashMap M}.

Definition RawChunkCache_new (max_size : Z) : RawChunkCache M := mkRawCache lhm_new 0 max_size.

(** [while self.total_size > self.max_size]; the fuel is the number of entries. *)
Fixpoint evict (fuel : nat) (c : RawChunkCache M) : result (RawChunkCache M) :=
  if rc_max_size c <? rc_total_size c then
    let '(popped, chunks) := lhm_pop_front (rc_chunks c) in
    '(_, evicted_chunk) ← expect popped "called `Option::unwrap()` on a `None` value";
    match fuel with
    | O => Panic "out of fuel"
    | S fuel =>
        evict fuel (mkRawCache chunks (wrap 64 (rc_total_size c - len evicted_chunk)) (rc_max_size c))
    end
  else Ok c.

Definition RawChunkCache_insert (key : ChunkKey) (chunk : bytes) (c : RawChunkCache M)
  : result (RawChunkCache M) :=
  let total_size := wrap 64 (rc_total_size c + len chunk) in
  let '(old, chunks) := lhm_insert key chunk (rc_chunks c) in
  let total_size :=
    match old with
    | Some old_chunk => wrap 64 (total_size - len old_chunk)
    | None => total_size
    end in
  evict (length (lhm_iter chunks)) (mkRawCache chunks total_size (rc_max_size c)).

Definition RawChunkCache_get (key : ChunkKey) (c : RawChunkCache M) : option bytes * RawChunkCache M :=
  let '(chunk, chunks) := lhm_to_back key (rc_chunks c) in
  (chunk, mkRawCache chunks (rc_total_size c) (rc_max_size c)).

Definition RawChunkCache_len (c : RawChunkCache M) : Z := len (lhm_iter (rc_chunks c)).
End raw_cache.

(** ** [ChunkCache] *)

(** The state under the mutex, and the events ([Arc<Semaphore>]) made so far:
    [cc_next_event] is the next fresh one, [cc_closed] those that were closed. *)
Record ChunkCache (M : Type) := mkChunkCache {
  cc_raw_cache : RawChunkCache M;
  cc_pending_chunks : gmap ChunkKey nat;
  cc_needs_saving : bool;
  cc_next_event : nat;
  cc_closed : list nat;
}.
Arguments mkChunkCache {M}.
Arguments cc_raw_cache {M}.
Arguments cc_pending_chunks {M}.
Arguments cc_needs_saving {M}.
Arguments cc_next_event {M}.
Arguments cc_closed {M}.

Record BatchChunkRequest := mkBatch {
  br_event : nat;
  br_batch_keys : list ChunkKey;
}.

(** How the first critical section of [get_chunks_batched] ends. *)
Inductive BatchOutcome :=
| Fetch (batch : BatchChunkRequest)
| AllServed
| WaitFor (pending_requests : list (ChunkKey * nat)).

Section chunk_cache.
Context `{LinkedHashMap M}.

Definition ChunkCache_new (max_size : Z) : ChunkCache M :=
  mkChunkCache (RawChunkCache_new max_size) ∅ false 0 [].

Definition with_raw (c : ChunkCache M) (raw : RawChunkCache M) : ChunkCache M :=
  mkChunkCache raw (cc_pending_chunks c) (cc_needs_saving c) (cc_next_event c) (cc_closed c).

Definition ChunkCache_mark_dirty (c : ChunkCache M) : ChunkCache M :=
  mkChunkCache (cc_raw_cache c) (cc_pending_chunks c) true (cc_next_event c) (cc_closed c).

(** [chunks_requested.retain(..)]: what is retained, the cache, the output and
    the batch. *)
Fixpoint retain_requested (requested : list ChunkKey) (raw : RawChunkCache M)
    (pending : gmap ChunkKey nat) (batch_size : Z) (out : gmap ChunkKey bytes) (batch : list ChunkKey)
  : list ChunkKey * RawChunkCache M * gmap ChunkKey bytes * list ChunkKey :=
  match requested with
  | [] => ([], raw, out, batch)
  | key :: requested =>
      let '(chunk, raw) := RawChunkCache_get key raw in
      match chunk with
      | Some chunk => retain_requested requested raw pending batch_size (<[key := chunk]> out) batch
      | None =>
          if bool_decide (pending !! key = None) && (len batch <? batch_size) then
            let batch := if decide (key ∈ batch) then batch else batch ++ [key] in
            retain_requested requested raw pending batch_size out batch
          else
            let '(retained, raw, out, batch) :=
              retain_requested requested raw pending batch_size out batch in
            (key :: retained, raw, out, batch)
      end
  end.

(** The first critical section of [get_chunks_batched], up to its wait, once the mutex is
    locked; a poisoned mutex panics before it, see [lock_cache]. *)
Definition get_chunks_batched (c : ChunkCache M) (requested : list ChunkKey)
    (out : gmap ChunkKey bytes) (batch_size : Z)
  : result (BatchOutcome * list ChunkKey * gmap ChunkKey bytes * ChunkCache M) :=
  let '(retained, raw, out, batch) :=
    retain_requested requested (cc_raw_cache c) (cc_pending_chunks c) batch_size out [] in
  match batch with
  | _ :: _ =>
      let event := cc_next_event c in
      let pending := foldl (fun p key => <[key := event]> p) (cc_pending_chunks c) batch in
      Ok (Fetch (mkBatch event batch), retained, out,
          mkChunkCache raw pending (cc_needs_saving c) (S event) (cc_closed c))
  | [] =>
      pending_requests ← collect (fun key =>
        event ← expect (cc_pending_chunks c !! key) "Remaining chunk is not pending";
        Ok (key, event)) retained;
      Ok (match pending_requests with [] => AllServed | _ => WaitFor pending_requests end,
          [], out, with_raw c raw)
  end.

(** The second one, after every awaited event was closed and the mutex was locked again. *)
Fixpoint take_awaited (requests : list (ChunkKey * nat)) (raw : RawChunkCache M)
    (out : gmap ChunkKey bytes) : result (RawChunkCache M * gmap ChunkKey bytes) :=
  match requests with
  | [] => Ok (raw, out)
  | (key, _) :: requests =>
      let '(chunk, raw) := RawChunkCache_get key raw in
      chunk ← expect chunk "Waited on chunk, but chunk was not put in cache";
      take_awaited requests raw (<[key := chunk]> out)
  end.

Definition get_chunks_awaited (c : ChunkCache M) (requests : list (ChunkKey * nat))
    (out : gmap ChunkKey bytes) : result (ChunkCache M * gmap ChunkKey bytes) :=
  '(raw, out) ← take_awaited requests (cc_raw_cache c) out;
  Ok (with_raw c raw, out).

(** The loop of [fulfill] over the keys and their chunks. *)
Fixpoint put_batch (batch : list (ChunkKey * bytes)) (raw : RawChunkCache M)
    (pending : gmap ChunkKey nat) : result (RawChunkCache M * gmap ChunkKey nat) :=
  match batch with
  | [] => Ok (raw, pending)
  | (key, chunk) :: batch =>
      raw ← RawChunkCache_insert key chunk raw;
      put_batch batch raw (delete key pending)
  end.

Definition BatchChunkRequest_fulfill (c : ChunkCache M) (b : BatchChunkRequest) (chunks : list bytes)
  : result (ChunkCache M) :=
  if negb (length (br_batch_keys b) =? length chunks)%nat then
    Panic "assertion `left == right` failed"
  else
    '(raw, pending) ← put_batch (zip (br_batch_keys b) chunks) (cc_raw_cache c) (cc_pending_chunks c);
    Ok (mkChunkCache raw pending (cc_needs_saving c) (cc_next_event c) (br_event b :: cc_closed c)).
End chunk_cache.

(** ** The cache file *)

(** [zstd]: the encoder on the whole input, and the decoder as a reader: the bytes it
    yields and the error of a read past them ([UnexpectedEof] at a proper end). *)
Abbreviation reader := (bytes * error)%type.
Class Zstd := {
  zstd_compress : Z -> bytes -> result bytes;
  zstd_decoder : bytes -> reader;
}.

Definition CHUNK_LENGTH_LIMIT : Z := 20000000.

Section cache_file.
Context `{Blake3, Zstd, LinkedHashMap M}.

(** The loop of [read_chunk_cache]; a chunk whose digest is wrong is skipped. *)
Fixpoint read_cache_entries (stop : error) (count : nat) (buf : bytes) (cache : RawChunkCache M)
  : result (RawChunkCache M) :=
  match count with
  | O => Ok cache
  | S count =>
      '(chunk_key, buf) ← read_exact_or stop 32 buf;
      '(u32_buf, buf) ← read_exact_or stop 4 buf;
      let chunk_length := le_val u32_buf in
      if CHUNK_LENGTH_LIMIT <? chunk_length then Err (Anyhow "Chunk length too large")
      else
        '(chunk_data, buf) ← read_exact_or stop chunk_length buf;
        if decide (blake3_hash chunk_data = chunk_key) then
          cache ← RawChunkCache_insert chunk_key chunk_data cache;
          read_cache_entries stop count buf cache
        else read_cache_entries stop count buf cache
  end.

Definition read_chunk_cache (cache : RawChunkCache M) (file : bytes) : result (RawChunkCache M) :=
  let '(decoder, stop) := zstd_decoder file in
  '(u32_buf, decoder) ← read_exact_or stop 4 decoder;
  read_cache_entries stop (Z.to_nat (le_val u32_buf)) decoder cache.

Definition encode_cache_entry (e : ChunkKey * bytes) : result bytes :=
  size ← try_into 32 (len (snd e)) "Chunk size wouldn't fit into a u32";
  Ok (fst e ++ le_bytes 4 size ++ snd e).

Definition write_chunk_cache (cache : RawChunkCache M) (compression_level : Z) : result bytes :=
  count ← try_into 32 (RawChunkCache_len cache) "Chunk count wouldn't fit into a u32";
  entries ← collect encode_cache_entry (lhm_iter (rc_chunks cache));
  zstd_compress compression_level (le_bytes 4 count ++ concat entries).

(** The state [load_from_file] starts from, when the file exists. *)
Definition load_from_file (max_size : Z) (file : option bytes) : result (ChunkCache M) :=
  raw_cache ← spawn_blocking
    match file with
    | Some file => read_chunk_cache (RawChunkCache_new max_size) file
    | None => Ok (RawChunkCache_new max_size)
    end;
  Ok (mkChunkCache raw_cache ∅ false 0 []).

(** The critical section of [try_save]: the cache to write, if it is dirty. *)
Definition take_dirty (c : ChunkCache M) : option (RawChunkCache M) * ChunkCache M :=
  if cc_needs_saving c then
    (Some (cc_raw_cache c),
     mkChunkCache (cc_raw_cache c) (cc_pending_chunks c) false (cc_next_event c) (cc_closed c))
  else (None, c).
End cache_file.

(** ** Reference behaviour of the cache *)

Fixpoint entries_size (l : list (ChunkKey * bytes)) : Z :=
  match l with
  | [] => 0
  | (_, v) :: l => len v + entries_size l
  end.

(** Drop the oldest entries while the total exceeds the maximum. *)
Fixpoint trim (max_size : Z) (l : list (ChunkKey * bytes)) : list (ChunkKey * bytes) :=
  match l with
  | [] => []
  | e :: l' => if max_size <? entries_size l then trim max_size l' else l
  end.

Lemma entries_size_pos l : 0 <= entries_size l.
Proof. elim: l => [|[k v] l IH] //=. lia. Qed.

Lemma entries_size_app l l' : entries_size (l ++ l') = entries_size l + entries_size l'.
Proof. elim: l => [|[k v] l IH] //=. lia. Qed.

Lemma entries_size_without k l :
  NoDup (fst <$> l) ->
  entries_size (without k l) + len (default [] (assoc k l)) = entries_size l.
Proof.
  rw /without. elim: l => [|[k' v] l IH] // /NoDup_cons [Hni Hnd].
  have {}IH := IH Hnd. cbn [assoc]. destruct (decide (k = k')) as [<-|Hne].
  - rw filter_cons_False; [by move=> H; apply H|]. cbn.
    have -> : filter (fun e : ChunkKey * bytes => fst e <> k) l = l; [|lia].
    clear -Hni. elim: l Hni => [|[k2 v2] l IH] // /not_elem_of_cons [Hne Hni].
    rw filter_cons_True; [by move=> E; apply Hne|]. by rw IH.
  - rw filter_cons_True; [by move=> E; apply Hne|]. cbn in *. lia.
Qed.

Lemma assoc_elem k v l : assoc k l = Some v -> (k, v) ∈ l.
Proof.
  elim: l => [|[k' v'] l IH] //=. case_decide; [|by right; apply IH]. move=> [<-]. subst. by left.
Qed.

Lemma assoc_none k l : assoc k l = None <-> k ∉ fst <$> l.
Proof.
  elim: l => [|[k' v'] l IH] /=; first by split; [move=> _; apply not_elem_of_nil|].
  rw not_elem_of_cons. case_decide; [naive_solver|]. rw IH. naive_solver.
Qed.

Lemma elem_assoc k v l : NoDup (fst <$> l) -> (k, v) ∈ l -> assoc k l = Some v.
Proof.
  elim: l => [|[k' v'] l IH] /=; first by inversion 2.
  move=> /NoDup_cons [Hni Hnd] /elem_of_cons [[= -> ->]|Hin]; first by rw decide_True.
  rw decide_False; [|by apply IH]. move=> ?. subst. apply Hni. by apply (list_elem_of_fmap_2 fst) in Hin.
Qed.

Lemma trim_suffix mx l : trim mx l `suffix_of` l.
Proof. elim: l => [|e l IH] //=. case_match; [by apply suffix_cons_r|done]. Qed.

Lemma trim_size mx l : 0 <= mx -> entries_size (trim mx l) <= mx.
Proof. move=> Hm. elim: l => [|e l IH] //=. case: Z.ltb_spec => //. Qed.

(** It keeps as much as fits: no longer suffix is within the maximum. *)
Lemma trim_longest mx l l' :
  l' `suffix_of` l -> entries_size l' <= mx -> l' `suffix_of` trim mx l.
Proof.
  elim: l => [|e l IH] //= Hs Hl. case: Z.ltb_spec => // Hlt. apply IH; [|done].
  destruct l' as [|x l']; [apply suffix_nil|].
  apply suffix_cons_inv in Hs as [[= -> ->]|Hs]; [destruct e; cbn in *; lia|done].
Qed.

(** ** The raw cache implements its reference *)

Section raw_cache_proofs.
Context `{HM : LinkedHashMap M} {HMS : LinkedHashMapSpec M}.

Definition raw_entries (c : RawChunkCache M) : list (ChunkKey * bytes) := lhm_iter (rc_chunks c).

Definition raw_inv (c : RawChunkCache M) : Prop :=
  rc_total_size c = entries_size (raw_entries c) /\ rc_total_size c <= rc_max_size c /\
  0 <= rc_max_size c.

Lemma raw_inv_new mx : 0 <= mx -> raw_inv (RawChunkCache_new mx).
Proof. move=> H. rw /raw_inv /raw_entries /= lhm_new_iter. done. Qed.

Lemma evict_ok fuel c :
  rc_total_size c = entries_size (raw_entries c) -> rc_total_size c < 2 ^ 64 -> 0 <= rc_max_size c ->
  (length (raw_entries c) <= fuel)%nat ->
  exists c', evict fuel c = Ok c' /\ raw_inv c' /\ rc_max_size c' = rc_max_size c /\
    raw_entries c' = trim (rc_max_size c) (raw_entries c).
Proof.
  elim: fuel c => [|fuel IH] c Hs H64 Hmax Hlen; cbn [evict].
  - destruct (raw_entries c) as [|e l] eqn:He; [|cbn in Hlen; lia]. cbn in Hs. rw Hs.
    case: Z.ltb_spec => ?; [lia|]. exists c. rw /raw_inv He Hs. by split_and!.
  - case: Z.ltb_spec => Hlt.
    + pose proof (lhm_pop_front_iter (rc_chunks c)) as [H1 H2].
      destruct (lhm_pop_front (rc_chunks c)) as [p m].
      cbn [fst snd] in H1, H2. rw /raw_entries in Hs Hlen *.
      destruct (lhm_iter (rc_chunks c)) as [|[k v] l]; [cbn in Hs; lia|]. cbn in H1, H2, Hs, Hlen. subst p.
      cbn [expect]. rw bind_ok. pose proof (entries_size_pos l) as Hp.
      rw wrap_small; [rw /in_u; lia|].
      destruct (IH (mkRawCache m (rc_total_size c - len v) (rc_max_size c))) as (c' & Heq & Hinv & Hmx & Hent).
      * cbn. rw /raw_entries /= H2. lia.
      * cbn. lia.
      * done.
      * rw /raw_entries /= H2. lia.
      * exists c'. split_and!; try done. rw /raw_entries /= in Hent *. rw Hent H2.
        case: Z.ltb_spec => //. rw /= in Hs. lia.
    + exists c. split_and!; try done. move: Hs. destruct (raw_entries c) as [|[k v] l] => // Hs.
      cbn [trim]. by case: Z.ltb_spec => // ?; lia.
Qed.

(** Inserting is: put the entry at the back, drop the oldest ones. *)
Lemma insert_ok key chunk c :
  raw_inv c -> rc_max_size c + len chunk < 2 ^ 64 ->
  exists c', RawChunkCache_insert key chunk c = Ok c' /\ raw_inv c' /\ rc_max_size c' = rc_max_size c /\
    raw_entries c' = trim (rc_max_size c) (without key (raw_entries c) ++ [(key, chunk)]).
Proof.
  intros (Hs & Hle & Hmax) H64. rw /RawChunkCache_insert.
  pose proof (lhm_insert_iter key chunk (rc_chunks c)) as [H1 H2].
  destruct (lhm_insert key chunk (rc_chunks c)) as [old m]. cbn [fst snd] in H1, H2.
  pose proof (entries_size_without key (raw_entries c) (lhm_nodup (rc_chunks c))) as Hw.
  rw /raw_entries in Hs Hw *. pose proof (entries_size_pos (lhm_iter (rc_chunks c))) as Hp.
  pose proof (entries_size_pos (without key (lhm_iter (rc_chunks c)))) as Hp'.
  rw (wrap_small 64 (_ + _)); [rw /in_u; lia|].
  set total := match old with Some _ => _ | None => _ end.
  have Ht : total = entries_size (without key (lhm_iter (rc_chunks c)) ++ [(key, chunk)]).
  { rw entries_size_app /total. cbn [entries_size]. rw -H1 in Hw. destruct old as [v|]; cbn in Hw.
    - rw wrap_small; [rw /in_u; lia|]. lia.
    - lia. }
  destruct (evict_ok (length (lhm_iter m)) (mkRawCache m total (rc_max_size c)))
    as (c' & Heq & Hinv & Hmx & Hent); rw /raw_entries; cbn [rc_chunks rc_total_size rc_max_size].
  - by rw H2.
  - rw Ht entries_size_app. cbn. lia.
  - done.
  - done.
  - exists c'. rw /raw_entries in Hent *. cbn in Hent. rw H2 in Hent. by split_and!.
Qed.

Lemma get_ok key c :
  raw_inv c ->
  let '(r, c') := RawChunkCache_get key c in
  r = assoc key (raw_entries c) /\ raw_inv c' /\ rc_max_size c' = rc_max_size c /\
  raw_entries c' =
    match r with Some v => without key (raw_entries c) ++ [(key, v)] | None => raw_entries c end.
Proof.
  intros (Hs & Hle & Hmax). rw /RawChunkCache_get.
  pose proof (lhm_to_back_iter key (rc_chunks c)) as [H1 H2].
  destruct (lhm_to_back key (rc_chunks c)) as [r m]. cbn [fst snd] in H1, H2.
  pose proof (entries_size_without key (raw_entries c) (lhm_nodup (rc_chunks c))) as Hw.
  rw /raw_inv /raw_entries in Hs Hw *. cbn [rc_chunks rc_total_size rc_max_size]. rw -H1 in H2 Hw. subst r.
  split_and!; try done. rw H2 Hs. destruct (assoc key _) as [v|]; [|done].
  rw entries_size_app. cbn in *. lia.
Qed.
End raw_cache_proofs.

(** ** Looking up and batching *)

Lemma assoc_Some k v l : NoDup (fst <$> l) -> assoc k l = Some v <-> (k, v) ∈ l.
Proof. move=> Hnd. split; [apply assoc_elem|by apply elem_assoc]. Qed.

Lemma without_perm k v l :
  NoDup (fst <$> l) -> assoc k l = Some v -> without k l ++ [(k, v)] ≡ₚ l.
Proof.
  rw /without. elim: l => [|[k' v'] l IH] // /NoDup_cons [Hni Hnd]. cbn [assoc].
  destruct (decide (k = k')) as [<-|Hne].
  - move=> [= ->]. rw filter_cons_False; [by move=> H; apply H|].
    have -> : filter (fun e : ChunkKey * bytes => fst e <> k) l = l; last by rw Permutation_app_comm.
    clear -Hni. elim: l Hni => [|[k2 v2] l IH] // /not_elem_of_cons [Hne Hni].
    rw filter_cons_True; [by move=> E; apply Hne|]. by rw IH.
  - move=> Hk. rw filter_cons_True; [by move=> E; apply Hne|]. cbn. by rw IH.
Qed.

Lemma assoc_perm k l l' : NoDup (fst <$> l) -> l ≡ₚ l' -> assoc k l = assoc k l'.
Proof.
  move=> Hnd Hp. have Hnd' : NoDup (fst <$> l') by rw -Hp.
  destruct (assoc k l) as [v|] eqn:H1.
  - symmetry. apply elem_assoc; [done|]. rw -Hp. by apply assoc_elem.
  - symmetry. apply assoc_none. rw -Hp. by apply assoc_none.
Qed.

Section batching.
Context `{HM : LinkedHashMap M} {HMS : LinkedHashMapSpec M}.

Lemma raw_nodup (c : RawChunkCache M) : NoDup (fst <$> raw_entries c).
Proof. apply lhm_nodup. Qed.

(** Reading only reorders the entries. *)
Lemma get_perm key c :
  raw_inv c ->
  let '(r, c') := RawChunkCache_get key c in
  r = assoc key (raw_entries c) /\ raw_inv c' /\ rc_max_size c' = rc_max_size c /\
  raw_entries c' ≡ₚ raw_entries c.
Proof.
  move=> Hinv. pose proof (get_ok key c Hinv) as H. destruct (RawChunkCache_get key c) as [r c'].
  destruct H as (-> & H1 & H2 & H3). split_and!; try done. rw H3.
  destruct (assoc key (raw_entries c)) as [v|] eqn:E; [|done]. apply without_perm; [apply raw_nodup|done].
Qed.

(** What the [retain] loop does with every requested key. *)
Definition retained_spec (requested : list ChunkKey) (raw : RawChunkCache M)
    (pending : gmap ChunkKey nat) (batch_size : Z) (out : gmap ChunkKey bytes) (batch : list ChunkKey)
    (retained : list ChunkKey) (raw' : RawChunkCache M) (out' : gmap ChunkKey bytes) (batch' : list ChunkKey) : Prop :=
  raw_inv raw' /\ rc_max_size raw' = rc_max_size raw /\ raw_entries raw' ≡ₚ raw_entries raw /\
  (exists extra, batch' = batch ++ extra /\ Forall (fun k => k ∈ requested /\
     assoc k (raw_entries raw) = None /\ pending !! k = None) extra) /\
  (NoDup batch -> NoDup batch') /\ (len batch <= batch_size -> len batch' <= batch_size) /\
  Forall (fun k => k ∈ requested /\ assoc k (raw_entries raw) = None /\
    (is_Some (pending !! k) \/ batch_size <= len batch')) retained /\
  (forall k, k ∈ requested -> is_Some (out' !! k) \/ k ∈ batch' \/ k ∈ retained) /\
  (forall k v, out' !! k = Some v ->
     out !! k = Some v \/ k ∈ requested /\ (k, v) ∈ raw_entries raw) /\
  (forall k, is_Some (out !! k) -> is_Some (out' !! k)) /\
  (length retained + length batch' <= length requested + length batch)%nat.

(** Looking a key up only reorders the entries. *)
Lemma retained_reordered requested raw raw1 pending batch_size out batch retained raw' out' batch' :
  rc_max_size raw1 = rc_max_size raw -> raw_entries raw1 ≡ₚ raw_entries raw ->
  retained_spec requested raw1 pending batch_size out batch retained raw' out' batch' ->
  retained_spec requested raw pending batch_size out batch retained raw' out' batch'.
Proof.
  move=> Hmax Hp. have Hassoc k : assoc k (raw_entries raw1) = assoc k (raw_entries raw) by apply assoc_perm; [apply raw_nodup|].
  intros (G1 & G2 & G3 & (extra & Ge & Gx) & G5 & G6 & G7 & G8 & G9 & G10 & G11).
  split_and!; try done; [by rw G2|by rw G3| | |].
  - exists extra. split; [done|]. eapply Forall_impl; [exact Gx|]. cbn beta. move=> k. by rw Hassoc.
  - eapply Forall_impl; [exact G7|]. cbn beta. move=> k. by rw Hassoc.
  - move=> k v /G9. by rw Hp.
Qed.

(** The key is in the cache, ... *)
Lemma retained_hit key chunk requested raw pending batch_size out batch retained raw' out' batch' :
  assoc key (raw_entries raw) = Some chunk ->
  retained_spec requested raw pending batch_size (<[key := chunk]> out) batch retained raw' out' batch' ->
  retained_spec (key :: requested) raw pending batch_size out batch retained raw' out' batch'.
Proof.
  intros Hchunk (G1 & G2 & G3 & (extra & Ge & Gx) & G5 & G6 & G7 & G8 & G9 & G10 & G11). split_and!; try done.
  - exists extra. split; [done|]. eapply Forall_impl; [exact Gx|]. set_solver.
  - eapply Forall_impl; [exact G7|]. set_solver.
  - move=> k /elem_of_cons [->|Hk]; [|by apply G8]. left. apply G10. by rw lookup_insert_eq.
  - move=> k v /G9 [|[Hk Hin]]; [|right; split; [by right|done]]. destruct (decide (k = key)) as [->|Hne].
    + rw lookup_insert_eq => [[= <-]]. right. split; [by left|by apply assoc_elem].
    + rw lookup_insert_ne //. by left.
  - move=> k Hk. apply G10. destruct (decide (k = key)) as [->|Hne]; [by rw lookup_insert_eq|]. by rw lookup_insert_ne.
  - cbn. lia.
Qed.

(** ... or it goes into the batch, ... *)
Lemma retained_batched key requested raw pending batch_size out batch retained raw' out' batch' :
  assoc key (raw_entries raw) = None -> pending !! key = None -> len batch < batch_size ->
  retained_spec requested raw pending batch_size out (if decide (key ∈ batch) then batch else batch ++ [key])
    retained raw' out' batch' ->
  retained_spec (key :: requested) raw pending batch_size out batch retained raw' out' batch'.
Proof.
  move=> Hnone Hpend Hlt. set b1 := if decide (key ∈ batch) then batch else batch ++ [key].
  have Hb1 : (exists e1, b1 = batch ++ e1 /\ Forall (fun k => k = key) e1) /\
    key ∈ b1 /\ (NoDup batch -> NoDup b1) /\ (length b1 <= length batch + 1)%nat.
  { rw /b1. case_decide.
    - split_and!; try done; [|lia]. exists []. by rw app_nil_r.
    - split_and!; [exists [key]; split; [done|by constructor]|set_solver| |by rw length_app].
      move=> Hnd. apply NoDup_app. split_and!; [done|set_solver|apply NoDup_singleton]. }
  destruct Hb1 as ((e1 & He1 & Hk1) & Hin1 & Hnd1 & Hl1).
  intros (G1 & G2 & G3 & (extra & Ge & Gx) & G5 & G6 & G7 & G8 & G9 & G10 & G11). split_and!; try done.
  - exists (e1 ++ extra). split; [by rw Ge He1 app_assoc|]. apply Forall_app. split.
    + eapply Forall_impl; [exact Hk1|]. cbn beta. move=> k ->. split_and!; [by left|done|done].
    + eapply Forall_impl; [exact Gx|]. set_solver.
  - auto.
  - move=> _. apply G6. lia.
  - eapply Forall_impl; [exact G7|]. set_solver.
  - move=> k /elem_of_cons [->|Hk]; [|by apply G8]. right. left. rw Ge. set_solver.
  - move=> k v /G9 [|[Hk Hin]]; [by left|right; split; [by right|done]].
  - cbn. lia.
Qed.

(** ... or it stays requested. *)
Lemma retained_kept key requested raw pending batch_size out batch retained raw' out' batch' :
  assoc key (raw_entries raw) = None -> is_Some (pending !! key) \/ batch_size <= len batch ->
  retained_spec requested raw pending batch_size out batch retained raw' out' batch' ->
  retained_spec (key :: requested) raw pending batch_size out batch (key :: retained) raw' out' batch'.
Proof.
  intros Hnone Hc (G1 & G2 & G3 & (extra & Ge & Gx) & G5 & G6 & G7 & G8 & G9 & G10 & G11). split_and!; try done.
  - exists extra. split; [done|]. eapply Forall_impl; [exact Gx|]. set_solver.
  - constructor; [|eapply Forall_impl; [exact G7|]; set_solver]. split_and!; [by left|done|].
    destruct Hc as [Hc|Hc]; [by left|]. right. rw Ge. len_lia.
  - move=> k /elem_of_cons [->|Hk]; [right; right; by left|]. destruct (G8 k Hk) as [?|[?|?]]; auto.
    right. right. by right.
  - move=> k v /G9 [|[Hk Hin]]; [by left|right; split; [by right|done]].
  - cbn. lia.
Qed.

Lemma retain_ok requested raw pending batch_size out batch retained raw' out' batch' :
  raw_inv raw ->
  retain_requested requested raw pending batch_size out batch = (retained, raw', out', batch') ->
  retained_spec requested raw pending batch_size out batch retained raw' out' batch'.
Proof.
  elim: requested raw out batch retained raw' out' batch' => [|key requested IH] raw out batch retained raw' out' batch' Hinv;
    cbn [retain_requested].
  { move=> [= <- <- <- <-]. split_and!; try done; [|set_solver|naive_solver]. exists []. by rw app_nil_r. }
  pose proof (get_perm key raw Hinv) as Hg. destruct (RawChunkCache_get key raw) as [chunk raw1].
  destruct Hg as (Hchunk & Hinv1 & Hmax1 & Hp1). destruct chunk as [chunk|].
  - move=> /(IH raw1 _ _ _ _ _ _ Hinv1) Hs. apply (retained_hit key chunk); [done|]. by apply (retained_reordered _ _ raw1).
  - destruct (bool_decide (pending !! key = None) && (len batch <? batch_size)) eqn:Hc.
    + apply andb_prop in Hc as [Hpend%bool_decide_eq_true Hlt%Z.ltb_lt].
      move=> /(IH raw1 _ _ _ _ _ _ Hinv1) Hs. apply retained_batched; [done|done|done|]. by apply (retained_reordered _ _ raw1).
    + destruct (retain_requested requested raw1 pending batch_size out batch) as [[[r2 raw2] out2] b2] eqn:Hrec.
      move=> [= <- <- <- <-]. apply (IH raw1) in Hrec; [|done].
      apply retained_kept; [done| |by apply (retained_reordered _ _ raw1)].
      apply andb_false_iff in Hc as [Hc%bool_decide_eq_false|Hc%Z.ltb_ge]; [|by right]. left. by destruct (pending !! key).
Qed.
End batching.

(** ** Tasks sharing the cache

    Every critical section is a step; between them the tasks interleave freely.
    The system has the batches handed out and not yet fulfilled, and the tasks
    that wait for events. *)

Record CacheSystem (M : Type) := mkSystem {
  cs_cache : ChunkCache M;
  cs_batches : list BatchChunkRequest;
  cs_waiting : list (list (ChunkKey * nat));
}.
Arguments mkSystem {M}.
Arguments cs_cache {M}.
Arguments cs_batches {M}.
Arguments cs_waiting {M}.

Section tasks.
Context `{HM : LinkedHashMap M}.

Inductive cache_step : CacheSystem M -> CacheSystem M -> Prop :=
| step_fetch c bs ws requested out batch_size b requested' out' c' :
    0 < batch_size ->
    get_chunks_batched c requested out batch_size = Ok (Fetch b, requested', out', c') ->
    cache_step (mkSystem c bs ws) (mkSystem c' (b :: bs) ws)
| step_served c bs ws requested out batch_size requested' out' c' :
    0 < batch_size ->
    get_chunks_batched c requested out batch_size = Ok (AllServed, requested', out', c') ->
    cache_step (mkSystem c bs ws) (mkSystem c' bs ws)
| step_wait c bs ws requested out batch_size w requested' out' c' :
    0 < batch_size ->
    get_chunks_batched c requested out batch_size = Ok (WaitFor w, requested', out', c') ->
    cache_step (mkSystem c bs ws) (mkSystem c' bs (w :: ws))
| step_wake c bs ws1 w ws2 out c' out' :
    Forall (fun r => snd r ∈ cc_closed c) w ->
    get_chunks_awaited c w out = Ok (c', out') ->
    cache_step (mkSystem c bs (ws1 ++ w :: ws2)) (mkSystem c' bs (ws1 ++ ws2))
| step_fulfill c bs1 b bs2 ws chunks c' :
    Forall (fun chunk => rc_max_size (cc_raw_cache c) + len chunk < 2 ^ 64) chunks ->
    BatchChunkRequest_fulfill c b chunks = Ok c' ->
    cache_step (mkSystem c (bs1 ++ b :: bs2) ws) (mkSystem c' (bs1 ++ bs2) ws)
| step_mark_dirty c bs ws :
    cache_step (mkSystem c bs ws) (mkSystem (ChunkCache_mark_dirty c) bs ws).

Definition system_new (max_size : Z) : CacheSystem M := mkSystem (ChunkCache_new max_size) [] [].

(** A key is pending exactly when one outstanding batch holds it, under the
    batch's event; the events of outstanding batches are open; a pending chunk
    is not in the cache; a task waits for closed events or outstanding batches. *)
Definition system_inv (s : CacheSystem M) : Prop :=
  let c := cs_cache s in
  raw_inv (cc_raw_cache c) /\
  NoDup (cs_batches s ≫= br_batch_keys) /\ NoDup (br_event <$> cs_batches s) /\
  (forall k e, cc_pending_chunks c !! k = Some e <->
     exists b, b ∈ cs_batches s /\ br_event b = e /\ k ∈ br_batch_keys b) /\
  Forall (fun b => (br_event b < cc_next_event c)%nat /\ br_event b ∉ cc_closed c) (cs_batches s) /\
  Forall (fun e => (e < cc_next_event c)%nat) (cc_closed c) /\
  (forall k, is_Some (cc_pending_chunks c !! k) -> assoc k (raw_entries (cc_raw_cache c)) = None) /\
  Forall (Forall (fun r => snd r ∈ cc_closed c \/ snd r ∈ br_event <$> cs_batches s)) (cs_waiting s).

Context {HMS : LinkedHashMapSpec M}.

Lemma system_inv_new mx : 0 <= mx -> system_inv (system_new mx).
Proof.
  move=> H. split_and!; try (by constructor); cbn.
  - by apply raw_inv_new.
  - move=> k e. rw lookup_empty. split; [done|]. intros (b & Hb & _). by inversion Hb.
  - move=> k. rw lookup_empty. by intros [].
Qed.

Lemma pending_insert_batch (batch : list ChunkKey) (e : nat) (p : gmap ChunkKey nat) k :
  foldl (fun p key => <[key := e]> p) p batch !! k =
    if decide (k ∈ batch) then Some e else p !! k.
Proof.
  elim/rev_ind: batch => [|x batch IH]; first by case_decide as Hin; [inversion Hin|].
  rw foldl_app. cbn [foldl]. destruct (decide (k = x)) as [->|Hne].
  - rw lookup_insert_eq. destruct (decide (x ∈ batch ++ [x])) as [|Hn]; [done|]. destruct Hn. set_solver.
  - rw lookup_insert_ne // IH. by case_decide; case_decide; set_solver.
Qed.

(** What the first critical section returns; it never panics. *)
Lemma get_chunks_batched_ok c requested out batch_size :
  raw_inv (cc_raw_cache c) -> 0 < batch_size ->
  exists outcome requested' out' c',
    get_chunks_batched c requested out batch_size = Ok (outcome, requested', out', c') /\
    exists raw',
      retained_spec requested (cc_raw_cache c) (cc_pending_chunks c) batch_size out []
        (match outcome with Fetch _ => requested' | WaitFor w => fst <$> w | AllServed => [] end)
        raw' out' (match outcome with Fetch b => br_batch_keys b | _ => [] end) /\
      match outcome with
      | Fetch b =>
          br_batch_keys b <> [] /\ br_event b = cc_next_event c /\
          c' = mkChunkCache raw'
            (foldl (fun p key => <[key := br_event b]> p) (cc_pending_chunks c) (br_batch_keys b))
            (cc_needs_saving c) (S (br_event b)) (cc_closed c)
      | AllServed => requested' = [] /\ c' = with_raw c raw'
      | WaitFor w => requested' = [] /\ c' = with_raw c raw' /\ w <> [] /\
          Forall (fun r => cc_pending_chunks c !! fst r = Some (snd r)) w
      end.
Proof.
  move=> Hinv Hbs. rw /get_chunks_batched.
  destruct (retain_requested _ _ _ _ _ _) as [[[retained raw'] out'] batch] eqn:Hr.
  pose proof (retain_ok _ _ _ _ _ _ _ _ _ _ Hinv Hr) as Hspec.
  destruct batch as [|b0 batch]; last first.
  { do 4 eexists. split; [done|]. exists raw'. split; [exact Hspec|]. by split_and!. }
  have Hpend : Forall (fun k => is_Some (cc_pending_chunks c !! k)) retained.
  { destruct Hspec as (_ & _ & _ & _ & _ & _ & Hret & _). eapply Forall_impl; [exact Hret|].
    cbn beta. intros k (_ & _ & [?|Hle]); [done|]. cbn in Hle. lia. }
  rw (collect_ok _ (fun k => (k, default 0%nat (cc_pending_chunks c !! k)))).
  { move=> k Hk. by destruct (proj1 (Forall_forall _ _) Hpend k Hk) as [e ->]. }
  rw bind_ok. set w := (fun k => _) <$> retained.
  have Hfst : fst <$> w = retained by rw /w -list_fmap_compose /compose /= list_fmap_id.
  have Hw : Forall (fun r => cc_pending_chunks c !! fst r = Some (snd r)) w.
  { apply Forall_fmap. eapply Forall_impl; [exact Hpend|]. cbn. by move=> k [e ->]. }
  do 4 eexists. split; [done|]. exists raw'.
  rw -Hfst in Hspec. destruct w as [|r w]; (split; [exact Hspec|]; by split_and!).
Qed.
End tasks.

Section interleaving.
Context `{HM : LinkedHashMap M} {HMS : LinkedHashMapSpec M}.
Implicit Types c : ChunkCache M.

Lemma take_awaited_ok requests (raw raw' : RawChunkCache M) out out' :
  raw_inv raw -> take_awaited requests raw out = Ok (raw', out') ->
  raw_inv raw' /\ raw_entries raw' ≡ₚ raw_entries raw.
Proof.
  elim: requests raw out => [|[key e] requests IH] raw out Hinv; cbn [take_awaited].
  { by intros [<- <-]%ok_pair_inj. }
  pose proof (get_perm key raw Hinv) as Hg. destruct (RawChunkCache_get key raw) as [chunk raw1].
  destruct Hg as (_ & Hinv1 & _ & Hp1). intros (v & _ & H)%bind_ok_inv.
  destruct (IH raw1 _ Hinv1 H) as [G1 G2]. split; [done|]. by rw G2.
Qed.

Lemma put_batch_ok batch (raw : RawChunkCache M) pending :
  raw_inv raw -> Forall (fun e => rc_max_size raw + len (snd e) < 2 ^ 64) batch ->
  exists raw' pending', put_batch batch raw pending = Ok (raw', pending') /\ raw_inv raw' /\
    rc_max_size raw' = rc_max_size raw /\
    (forall e, e ∈ raw_entries raw' -> e ∈ raw_entries raw \/ e ∈ batch) /\
    (forall k, pending' !! k = if decide (k ∈ fst <$> batch) then None else pending !! k).
Proof.
  elim: batch raw pending => [|[key chunk] batch IH] raw pending Hinv Hsz; cbn [put_batch].
  { exists raw, pending. split_and!; auto. }
  apply Forall_cons in Hsz as [Hs Hsz]. cbn in Hs.
  destruct (insert_ok key chunk raw Hinv Hs) as (raw1 & -> & Hinv1 & Hmx & Hent). rw bind_ok.
  destruct (IH raw1 (delete key pending) Hinv1) as (raw2 & p2 & Heq & Hinv2 & Hm2 & He2 & Hp2); [by rw Hmx|].
  exists raw2, p2. split_and!; [done|done|by rw Hm2| |].
  - move=> e /He2 [|]; [|by right; right]. rw Hent => Hin.
    destruct (trim_suffix (rc_max_size raw) (without key (raw_entries raw) ++ [(key, chunk)])) as [pre Hpre].
    have {}Hin : e ∈ without key (raw_entries raw) ++ [(key, chunk)] by rw Hpre; apply elem_of_app; right.
    apply elem_of_app in Hin as [Hin|Hin%list_elem_of_singleton]; [|subst; right; by left].
    left. by apply list_elem_of_filter in Hin as [_ ?].
  - move=> k. rw Hp2. cbn [fmap list_fmap fst]. destruct (decide (k = key)) as [->|Hne].
    + rw lookup_delete_eq. destruct (decide (key ∈ key :: _)) as [|Hn]; [by case_decide|].
      destruct Hn. by left.
    + rw lookup_delete_ne //. destruct (decide (k ∈ key :: _)) as [Hin|Hn].
      * apply elem_of_cons in Hin as [|Hin]; [done|]. by destruct (decide (k ∈ fst <$> batch)).
      * destruct (decide (k ∈ fst <$> batch)) as [Hin|]; [|done]. destruct Hn. by right.
Qed.

(** The raw cache may be reordered without harm. *)
Lemma system_inv_raw c bs ws raw' :
  system_inv (mkSystem c bs ws) -> raw_inv raw' -> raw_entries raw' ≡ₚ raw_entries (cc_raw_cache c) ->
  system_inv (mkSystem (with_raw c raw') bs ws).
Proof.
  intros (H1 & H2 & H3 & H4 & H5 & H6 & H7 & H8) Hr Hp. split_and!; try done. cbn.
  move=> k Hk. rw (assoc_perm k _ (raw_entries (cc_raw_cache c))) //; [apply raw_nodup|by apply H7].
Qed.

Lemma system_inv_perm c bs bs' ws ws' :
  bs ≡ₚ bs' -> ws ≡ₚ ws' -> system_inv (mkSystem c bs ws) -> system_inv (mkSystem c bs' ws').
Proof.
  move=> Hb Hw. intros (H1 & H2 & H3 & H4 & H5 & H6 & H7 & H8). cbn in *. split_and!; cbn; try done.
  - by rw -Hb.
  - by rw -Hb.
  - move=> k e. have Hin b : b ∈ bs <-> b ∈ bs' by rw Hb. rw H4. split; intros (b & Hb' & Hrest); exists b; by rw Hin in Hb' *.
  - by rw -Hb.
  - rw -Hw. eapply Forall_impl; [exact H8|]. move=> w Hr. eapply Forall_impl; [exact Hr|].
    move=> r [?|He]; [by left|right]. by rw -Hb.
Qed.

Lemma fetch_inv c bs ws b raw' requested batch_size out out' retained :
  system_inv (mkSystem c bs ws) ->
  retained_spec requested (cc_raw_cache c) (cc_pending_chunks c) batch_size out [] retained raw' out' (br_batch_keys b) ->
  br_event b = cc_next_event c ->
  system_inv (mkSystem (mkChunkCache raw'
    (foldl (fun p key => <[key := br_event b]> p) (cc_pending_chunks c) (br_batch_keys b))
    (cc_needs_saving c) (S (br_event b)) (cc_closed c)) (b :: bs) ws).
Proof.
  intros (H1 & H2 & H3 & H4 & H5 & H6 & H7 & H8) (G1 & G2 & G3 & (extra & Ge & Gx) & G5 & _) Hev.
  cbn in Ge. subst extra. cbn in *. have Hnd := G5 (NoDup_nil_2).
  have Hfresh k : k ∈ br_batch_keys b -> cc_pending_chunks c !! k = None
    by move=> Hk; destruct (proj1 (Forall_forall _ _) Gx k Hk) as (_ & _ & ?).
  have Hold b' : b' ∈ bs -> (br_event b' < br_event b)%nat /\ br_event b' ∉ cc_closed c
    by rw Hev; apply (proj1 (Forall_forall _ _) H5).
  split_and!; try done; cbn.
  - apply NoDup_app. split_and!; [done| |done]. move=> k Hk /list_elem_of_bind [b' [Hk' Hb']].
    have Hn := Hfresh k Hk. have Hs := proj2 (H4 k (br_event b')). rw Hs in Hn; [by exists b'|done].
  - apply NoDup_cons. split; [|done]. move=> /list_elem_of_fmap [b' [Heq Hb']].
    destruct (Hold b' Hb'). lia.
  - move=> k e. rw pending_insert_batch. case_decide as Hk.
    + split; [move=> [<-]; exists b; split_and!; [by left|done|done]|].
      intros (b' & [->|Hb']%elem_of_cons & <- & Hk'); [done|].
      have Hs := proj2 (H4 k (br_event b')). have Hn := Hfresh k Hk. rw Hs in Hn; [by exists b'|done].
    + rw H4. split; intros (b' & Hb' & He & Hk'); exists b'; split_and!; try done; [by right|].
      by apply elem_of_cons in Hb' as [->|?].
  - constructor; [split; [lia|]|].
    + move=> Hc. have := proj1 (Forall_forall _ _) H6 _ Hc. rw Hev. lia.
    + apply Forall_forall => b' Hb'. destruct (Hold b' Hb'). split; [lia|done].
  - rw Hev. eapply Forall_impl; [exact H6|]. cbn beta. lia.
  - move=> k. rw pending_insert_batch (assoc_perm k _ (raw_entries (cc_raw_cache c))) //; [apply raw_nodup|].
    case_decide as Hk; [|by apply H7]. move=> _. by destruct (proj1 (Forall_forall _ _) Gx k Hk) as (_ & ? & _).
  - eapply Forall_impl; [exact H8|]. move=> w Hw. eapply Forall_impl; [exact Hw|].
    cbn beta. move=> r [?|?]; [by left|right; by right].
Qed.

Lemma fulfill_inv c bs1 b bs2 ws chunks c' :
  system_inv (mkSystem c (bs1 ++ b :: bs2) ws) ->
  Forall (fun chunk => rc_max_size (cc_raw_cache c) + len chunk < 2 ^ 64) chunks ->
  BatchChunkRequest_fulfill c b chunks = Ok c' ->
  system_inv (mkSystem c' (bs1 ++ bs2) ws).
Proof.
  intros (H1 & H2 & H3 & H4 & H5 & H6 & H7 & H8) Hsz. cbn in *. rw /BatchChunkRequest_fulfill.
  destruct (Nat.eqb_spec (length (br_batch_keys b)) (length chunks)) as [Hlen|]; [|done]. cbn [negb].
  have Hfst : (zip (br_batch_keys b) chunks).*1 = br_batch_keys b by apply fst_zip; lia.
  destruct (put_batch_ok (zip (br_batch_keys b) chunks) (cc_raw_cache c) (cc_pending_chunks c))
    as (raw' & p' & -> & Hinv & _ & Hent & Hpend); [done| |].
  { apply Forall_forall. intros [k v] Hv%elem_of_zip_r. exact (proj1 (Forall_forall _ _) Hsz v Hv). }
  rw bind_ok. intros <-%ok_inj. rw Hfst in Hpend.
  have Hp : bs1 ++ b :: bs2 ≡ₚ b :: bs1 ++ bs2 by rw Permutation_middle.
  rw Hp in H2 H3 H5. cbn in H2, H3. apply NoDup_app in H2 as (_ & Hdisj & H2).
  apply NoDup_cons in H3 as [Hev H3]. apply Forall_cons in H5 as [[Hbn Hbc] H5].
  have Hsplit b' : b' ∈ bs1 ++ b :: bs2 <-> b' = b \/ b' ∈ bs1 ++ bs2 by rw Hp elem_of_cons.
  split_and!; try done; cbn.
  - move=> k e. rw Hpend. case_decide as Hk.
    + split; [done|]. intros (b' & Hb' & _ & Hk'). exfalso. apply (Hdisj k Hk).
      apply list_elem_of_bind. by exists b'.
    + rw H4. split; intros (b' & Hb' & He & Hk'); exists b'; split_and!; try done.
      * by apply Hsplit in Hb' as [->|?].
      * apply Hsplit. by right.
  - apply Forall_forall => b' Hb'. destruct (proj1 (Forall_forall _ _) H5 b' Hb') as [? ?].
    split; [done|]. apply not_elem_of_cons. split; [|done]. move=> E. apply Hev. rw -E.
    by apply list_elem_of_fmap_2.
  - by constructor.
  - move=> k. rw Hpend. case_decide as Hk; [by intros []|]. move=> /H7 Hnone.
    destruct (assoc k (raw_entries raw')) as [v|] eqn:Ha; [|done]. exfalso.
    apply assoc_elem in Ha. apply Hent in Ha as [Ha|Ha].
    + apply elem_assoc in Ha; [by rw Hnone in Ha|apply raw_nodup].
    + apply (list_elem_of_fmap_2 fst) in Ha. by rw Hfst in Ha.
  - eapply Forall_impl; [exact H8|]. move=> w Hw. eapply Forall_impl; [exact Hw|]. cbn beta.
    move=> r [Hr|Hr]; [left; by right|]. rw fmap_app in Hr. cbn in Hr.
    apply elem_of_app in Hr as [Hr|[Hr|Hr]%elem_of_cons].
    + right. rw fmap_app. apply elem_of_app. by left.
    + left. rw Hr. by left.
    + right. rw fmap_app. apply elem_of_app. by right.
Qed.

Lemma cache_step_inv s s' : cache_step s s' -> system_inv s -> system_inv s'.
Proof.
  destruct 1 as [c bs ws rq out sz b rq' out' c' Hsz Heq|c bs ws rq out sz rq' out' c' Hsz Heq
    |c bs ws rq out sz w rq' out' c' Hsz Heq|c bs ws1 w ws2 out c' out' Hcl Heq
    |c bs1 b bs2 ws chunks c' Hsz Heq|c bs ws]; intros Hinv.
  - destruct (get_chunks_batched_ok c rq out sz (proj1 Hinv) Hsz) as (o & r & ou & ca & Heq' & raw' & Hs & Ho).
    rw Heq in Heq'. injection Heq' as <- <- <- <-. destruct Ho as (_ & Hev & ->). by eapply fetch_inv.
  - destruct (get_chunks_batched_ok c rq out sz (proj1 Hinv) Hsz) as (o & r & ou & ca & Heq' & raw' & Hs & Ho).
    rw Heq in Heq'. injection Heq' as <- <- <- <-. destruct Ho as [_ ->].
    destruct Hs as (G1 & _ & G3 & _). by apply system_inv_raw.
  - destruct (get_chunks_batched_ok c rq out sz (proj1 Hinv) Hsz) as (o & r & ou & ca & Heq' & raw' & Hs & Ho).
    rw Heq in Heq'. injection Heq' as <- <- <- <-. destruct Ho as (_ & -> & _ & Hw).
    destruct Hs as (G1 & _ & G3 & _). pose proof Hinv as (_ & _ & _ & H4 & _ & _ & _ & H8). cbn in *.
    have Hnew : Forall (fun r => snd r ∈ cc_closed c \/ snd r ∈ br_event <$> bs) w.
    { eapply Forall_impl; [exact Hw|]. cbn beta. move=> [k e] /H4 [b [Hb [<- _]]]. right.
      by apply list_elem_of_fmap_2. }
    destruct (system_inv_raw c bs ws raw' Hinv G1 G3) as (K1 & K2 & K3 & K4 & K5 & K6 & K7 & K8).
    split_and!; try done. by constructor.
  - rw /get_chunks_awaited in Heq. apply bind_ok_inv in Heq as ([raw' o'] & Ht & [<- _]%ok_pair_inj).
    destruct (take_awaited_ok _ _ _ _ _ (proj1 Hinv) Ht) as [G1 G2].
    destruct (system_inv_raw c bs _ raw' Hinv G1 G2) as (K1 & K2 & K3 & K4 & K5 & K6 & K7 & K8).
    split_and!; try done. cbn in *. apply Forall_app in K8 as [K8 K9]. apply Forall_cons in K9 as [_ K9].
    by apply Forall_app.
  - by eapply fulfill_inv.
  - exact Hinv.
Qed.
End interleaving.

(** ** A list of entries is a linked hash map *)

Record AList := mkAList { al_entries : list (ChunkKey * bytes); al_nodup : NoDup (fst <$> al_entries) }.

Lemma without_nodup k l : NoDup (fst <$> l) -> NoDup (fst <$> without k l).
Proof.
  rw /without. elim: l => [|[k' v] l IH] // /NoDup_cons [Hni Hnd]. rw filter_cons. case_decide; [|by apply IH].
  apply NoDup_cons. split; [|by apply IH]. move=> /list_elem_of_fmap [e [Heq /list_elem_of_filter [_ He]]].
  apply Hni. cbn in Heq |- *. rw Heq. by apply list_elem_of_fmap_2.
Qed.

Lemma push_back_nodup k v l : NoDup (fst <$> l) -> NoDup (fst <$> without k l ++ [(k, v)]).
Proof.
  move=> Hnd. rw fmap_app. apply NoDup_app. split_and!; [by apply without_nodup| |apply NoDup_singleton].
  move=> k' /list_elem_of_fmap [e [Heq /list_elem_of_filter [Hne _]]]. move=> /list_elem_of_singleton Hk.
  apply Hne. by rw -Heq.
Qed.

Lemma tail_nodup (l : list (ChunkKey * bytes)) : NoDup (fst <$> l) -> NoDup (fst <$> tail l).
Proof. destruct l; [done|]. by move=> /NoDup_cons [_ ?]. Qed.

#[global] Instance alist_map : LinkedHashMap AList := {
  lhm_new := mkAList [] (NoDup_nil_2);
  lhm_iter := al_entries;
  lhm_insert k v m :=
    (assoc k (al_entries m), mkAList _ (push_back_nodup k v (al_entries m) (al_nodup m)));
  lhm_pop_front m := (head (al_entries m), mkAList _ (tail_nodup (al_entries m) (al_nodup m)));
  lhm_to_back k m :=
    match assoc k (al_entries m) with
    | Some v => (Some v, mkAList _ (push_back_nodup k v (al_entries m) (al_nodup m)))
    | None => (None, m)
    end;
}.

#[global] Instance alist_map_spec : LinkedHashMapSpec AList.
Proof. split; [done|apply al_nodup|done|done|]. move=> k m. cbn. by destruct (assoc k (al_entries m)). Qed.

(** ** The raw cache against its reference *)

Inductive cache_op := OpInsert (key : ChunkKey) (chunk : bytes) | OpGet (key : ChunkKey).

Fixpoint raw_run `{LinkedHashMap M} (c : RawChunkCache M) (ops : list cache_op)
  : result (list (option bytes) * RawChunkCache M) :=
  match ops with
  | [] => Ok ([], c)
  | OpInsert key chunk :: ops =>
      c ← RawChunkCache_insert key chunk c; raw_run c ops
  | OpGet key :: ops =>
      let '(r, c) := RawChunkCache_get key c in
      '(rs, c) ← raw_run c ops; Ok (r :: rs, c)
  end.

(** The reference: a list of entries from the least to the most recently used. *)
Fixpoint lru_run (mx : Z) (l : list (ChunkKey * bytes)) (ops : list cache_op)
  : list (option bytes) * list (ChunkKey * bytes) :=
  match ops with
  | [] => ([], l)
  | OpInsert key chunk :: ops => lru_run mx (trim mx (without key l ++ [(key, chunk)])) ops
  | OpGet key :: ops =>
      let '(rs, l') :=
        lru_run mx (match assoc key l with Some v => without key l ++ [(key, v)] | None => l end) ops in
      (assoc key l :: rs, l')
  end.

Definition op_fits (mx : Z) (op : cache_op) : Prop :=
  match op with OpInsert _ chunk => mx + len chunk < 2 ^ 64 | OpGet _ => True end.

Lemma raw_run_ok `{HM : LinkedHashMap M} {HMS : LinkedHashMapSpec M} ops (c : RawChunkCache M) :
  raw_inv c -> Forall (op_fits (rc_max_size c)) ops ->
  exists c', raw_run c ops = Ok (fst (lru_run (rc_max_size c) (raw_entries c) ops), c') /\
    raw_entries c' = snd (lru_run (rc_max_size c) (raw_entries c) ops) /\ raw_inv c' /\
    rc_max_size c' = rc_max_size c.
Proof.
  elim: ops c => [|[key chunk|key] ops IH] c Hinv Hfit; first by exists c.
  - apply Forall_cons in Hfit as [Hf Hfit]. cbn [raw_run lru_run].
    destruct (insert_ok key chunk c Hinv Hf) as (c1 & -> & Hinv1 & Hmx & Hent). rw bind_ok.
    rw -Hmx in Hfit. destruct (IH c1 Hinv1 Hfit) as (c' & Heq & Hent' & Hinv' & Hmx').
    rw Hent Hmx in Heq Hent'. exists c'. split_and!; try done. by rw Hmx'.
  - apply Forall_cons in Hfit as [_ Hfit]. cbn [raw_run lru_run].
    pose proof (get_ok key c Hinv) as Hg. destruct (RawChunkCache_get key c) as [r c1].
    destruct Hg as (Hr & Hinv1 & Hmx & Hent). rw -Hmx in Hfit.
    destruct (IH c1 Hinv1 Hfit) as (c' & Heq & Hent' & Hinv' & Hmx'). rw Hent Hmx in Heq Hent'. rw Heq bind_ok.
    rw -Hr. destruct (lru_run _ _ ops) as [rs l']. cbn in *. exists c'. split_and!; try done. by rw Hmx'.
Qed.

(** C16: [RawChunkCache] is an LRU cache.  Any sequence of inserts and lookups on a
    fresh cache runs without a panic (no [unwrap] on an empty map, no wrap-around of
    the size counter), answers every lookup as the reference list does, and ends
    with the reference's entries in the reference's order; the size counter is
    exactly the sum of the chunk lengths and never exceeds the maximum. *)
Theorem raw_cache_is_lru `{HM : LinkedHashMap M} {HMS : LinkedHashMapSpec M} mx ops
  (Hmx : 0 <= mx) (Hfit : Forall (op_fits mx) ops) :
  exists c : RawChunkCache M,
    raw_run (RawChunkCache_new mx) ops = Ok (fst (lru_run mx [] ops), c) /\
    lhm_iter (rc_chunks c) = snd (lru_run mx [] ops) /\
    rc_total_size c = entries_size (snd (lru_run mx [] ops)) /\ rc_total_size c <= mx.
Proof.
  destruct (raw_run_ok ops (RawChunkCache_new mx) (raw_inv_new mx Hmx) Hfit) as (c & Heq & Hent & Hinv & Hm).
  cbn in Heq, Hent, Hm. rw /raw_entries /= lhm_new_iter in Heq Hent. exists c. split; [done|]. split; [done|].
  destruct Hinv as (Hs & Hle & _). rw /raw_entries in Hs. rw Hs Hent in Hle *. by rw Hm in Hle.
Qed.

Definition k1 : ChunkKey := [Byte.x01].
Definition k2 : ChunkKey := [Byte.x02].
Definition k3 : ChunkKey := [Byte.x03].

(** The lookup of [k1] saves it from the eviction that [k3] causes. *)
Lemma raw_cache_is_lru_witness :
  exists c : RawChunkCache AList,
    raw_run (RawChunkCache_new 4) [OpInsert k1 [Byte.x0a; Byte.x0a]; OpInsert k2 [Byte.x0b; Byte.x0b]; OpGet k1;
      OpInsert k3 [Byte.x0c]; OpGet k2; OpGet k1] =
      Ok ([Some [Byte.x0a; Byte.x0a]; None; Some [Byte.x0a; Byte.x0a]], c) /\ rc_total_size c <= 4.
Proof.
  destruct (raw_cache_is_lru (M := AList) 4 [OpInsert k1 [Byte.x0a; Byte.x0a]; OpInsert k2 [Byte.x0b; Byte.x0b];
    OpGet k1; OpInsert k3 [Byte.x0c]; OpGet k2; OpGet k1]) as (c & Heq & _ & _ & Hle).
  - done.
  - by repeat (constructor; [done|]).
  - by exists c.
Defined.

(** ** Properties of the shared cache *)

(** ** Tasks that fail

    A task can fail, or be dropped, while it holds a batch: the error paths of
    [fetch_chunk_batch] do so when a message or a digest is wrong.  The batch is then lost
    without being fulfilled.  A task that waits can be dropped, too, and it can fail the
    [expect] after its wait; it then holds the mutex, which is poisoned from then on: every
    later [lock().unwrap()] panics. *)

Record FaultySystem (M : Type) := mkFaulty {
  fs_system : CacheSystem M;
  (** the batches that were dropped, for the statements *)
  fs_abandoned : list BatchChunkRequest;
  fs_poisoned : bool;
}.
Arguments mkFaulty {M}.
Arguments fs_system {M}.
Arguments fs_abandoned {M}.
Arguments fs_poisoned {M}.

Section faults.
Context `{HM : LinkedHashMap M}.

(** [self.inner.lock().unwrap()] *)
Definition lock_cache (f : FaultySystem M) : result (ChunkCache M) :=
  if fs_poisoned f then Panic "called `Result::unwrap()` on an `Err` value: PoisonError" else Ok (cs_cache (fs_system f)).

Inductive any_step : FaultySystem M -> FaultySystem M -> Prop :=
| any_runs s s' ab : cache_step s s' -> any_step (mkFaulty s ab false) (mkFaulty s' ab false)
| any_abandons c bs1 b bs2 ws ab poisoned :
    any_step (mkFaulty (mkSystem c (bs1 ++ b :: bs2) ws) ab poisoned) (mkFaulty (mkSystem c (bs1 ++ bs2) ws) (b :: ab) poisoned)
| any_stops_waiting c bs ws1 w ws2 ab poisoned :
    any_step (mkFaulty (mkSystem c bs (ws1 ++ w :: ws2)) ab poisoned) (mkFaulty (mkSystem c bs (ws1 ++ ws2)) ab poisoned)
| any_poisons c bs ws1 w ws2 ab out msg :
    Forall (fun r => snd r ∈ cc_closed c) w -> get_chunks_awaited c w out = Panic msg ->
    any_step (mkFaulty (mkSystem c bs (ws1 ++ w :: ws2)) ab false) (mkFaulty (mkSystem c bs (ws1 ++ ws2)) ab true).

Definition faulty_new (max_size : Z) : FaultySystem M := mkFaulty (system_new max_size) [] false.

(** The batches that were handed out and not fulfilled. *)
Definition unfulfilled (f : FaultySystem M) : list BatchChunkRequest := cs_batches (fs_system f) ++ fs_abandoned f.

(** The batches of further tasks do not matter to a step. *)
Lemma cache_step_frame (s s' : CacheSystem M) ab :
  cache_step s s' ->
  cache_step (mkSystem (cs_cache s) (cs_batches s ++ ab) (cs_waiting s)) (mkSystem (cs_cache s') (cs_batches s' ++ ab) (cs_waiting s')).
Proof.
  destruct 1; cbn.
  - by eapply step_fetch.
  - by eapply step_served.
  - by eapply step_wait.
  - by eapply step_wake.
  - rw -!app_assoc. by eapply step_fulfill.
  - apply step_mark_dirty.
Qed.

Context {HMS : LinkedHashMapSpec M}.

Definition faulty_inv (f : FaultySystem M) : Prop :=
  system_inv (mkSystem (cs_cache (fs_system f)) (unfulfilled f) (cs_waiting (fs_system f))).

Lemma faulty_inv_waiters c bs bs' ws1 w ws2 :
  bs ≡ₚ bs' -> system_inv (mkSystem c bs (ws1 ++ w :: ws2)) -> system_inv (mkSystem c bs' (ws1 ++ ws2)).
Proof.
  intros Hb Hi. apply (system_inv_perm c bs bs' _ (w :: ws1 ++ ws2)) in Hi; [|done|by rw Permutation_middle].
  destruct Hi as (H1 & H2 & H3 & H4 & H5 & H6 & H7 & H8). split_and!; try done. by apply Forall_cons in H8 as [_ ?].
Qed.

Lemma any_step_inv f f' : any_step f f' -> faulty_inv f -> faulty_inv f'.
Proof.
  rw /faulty_inv /unfulfilled. destruct 1 as [s s' ab Hs|c bs1 b bs2 ws ab poisoned|c bs ws1 w ws2 ab poisoned|c bs ws1 w ws2 ab out msg _ _]; cbn.
  - apply (cache_step_inv _ _ (cache_step_frame _ _ ab Hs)).
  - apply system_inv_perm; [|done]. rw -!app_assoc. cbn. by rw Permutation_middle.
  - by apply faulty_inv_waiters.
  - by apply faulty_inv_waiters.
Qed.

Lemma any_steps_inv f f' : rtc any_step f f' -> faulty_inv f -> faulty_inv f'.
Proof. elim => [//|f1 f2 f3 Hs _ IH] Hi. by eapply IH, any_step_inv. Qed.

Lemma faulty_reachable_inv mx f : 0 <= mx -> rtc any_step (faulty_new mx) f -> faulty_inv f.
Proof. move=> Hmx Hr. apply (any_steps_inv _ _ Hr). by apply system_inv_new. Qed.

(** What is lost stays lost. *)
Lemma abandoned_mono f f' : rtc any_step f f' -> fs_abandoned f ⊆ fs_abandoned f'.
Proof.
  elim => [//|f1 f2 f3 Hs _ IH]. etrans; [|exact IH]. destruct Hs; cbn; set_solver.
Qed.

Lemma pending_iff f k e :
  faulty_inv f -> cc_pending_chunks (cs_cache (fs_system f)) !! k = Some e <->
  exists b, b ∈ unfulfilled f /\ br_event b = e /\ k ∈ br_batch_keys b.
Proof. by intros (_ & _ & _ & H4 & _). Qed.
Lemma pending_not_served (c : ChunkCache M) k e requested out sz o rq' out' c' :
  raw_inv (cc_raw_cache c) -> cc_pending_chunks c !! k = Some e -> assoc k (raw_entries (cc_raw_cache c)) = None ->
  0 < sz -> k ∈ requested -> out !! k = None -> get_chunks_batched c requested out sz = Ok (o, rq', out', c') ->
  match o with
  | Fetch b => k ∈ rq' /\ k ∉ br_batch_keys b /\ out' !! k = None
  | AllServed => False
  | WaitFor w => (k, e) ∈ w
  end.
Proof.
  move=> Hinv Hp Hn Hsz Hk Hout Heq.
  destruct (get_chunks_batched_ok c requested out sz Hinv Hsz) as (o1 & r1 & ou1 & c1 & Heq1 & raw & Hs & Ho).
  rw Heq in Heq1. injection Heq1 as <- <- <- <-.
  destruct Hs as (_ & _ & _ & (extra & Hx & Hextra) & _ & _ & _ & Hall & Hfrom & _). cbn in Hx. subst extra.
  have Hnout : out' !! k = None.
  { destruct (out' !! k) as [v|] eqn:E; [|done]. apply Hfrom in E as [E|[_ E]]; [congruence|].
    apply elem_assoc in E; [congruence|apply raw_nodup]. }
  destruct (Hall k Hk) as [[v Hv]|[Hb|Hr]]; [congruence| |].
  { destruct (proj1 (Forall_forall _ _) Hextra k Hb) as (_ & _ & Hnp). congruence. }
  destruct o as [b| |w].
  - split_and!; [done| |done]. move=> Hb. destruct (proj1 (Forall_forall _ _) Hextra k Hb) as (_ & _ & Hnp). congruence.
  - by inversion Hr.
  - destruct Ho as (_ & _ & _ & Hw). apply list_elem_of_fmap in Hr as ([k' e'] & Hke & Hin). cbn in Hke. subst k'.
    have := proj1 (Forall_forall _ _) Hw _ Hin. cbn. rw Hp. by intros [= ->].
Qed.
End faults.

(** C15: chunks are fetched by one task at a time.  However the tasks interleave, fail or
    are dropped, in every reachable state: no key is in two of the batches that were handed
    out and not fulfilled, or twice in one; a key is marked as pending exactly while such a
    batch holds it, also when the task of that batch has failed; a pending chunk is not in
    the cache; the event of such a batch is not closed; and unless a failed task poisoned
    the mutex, the first critical section of [get_chunks_batched], up to the wait, does not
    panic. *)
Theorem fetch_is_exclusive `{HM : LinkedHashMap M} {HMS : LinkedHashMapSpec M} mx (f : FaultySystem M)
  (Hmx : 0 <= mx) (Hreach : rtc any_step (faulty_new mx) f) :
  let c := cs_cache (fs_system f) in
  NoDup (unfulfilled f ≫= br_batch_keys) /\
  (forall k, is_Some (cc_pending_chunks c !! k) <-> k ∈ unfulfilled f ≫= br_batch_keys) /\
  (forall k, is_Some (cc_pending_chunks c !! k) -> assoc k (lhm_iter (rc_chunks (cc_raw_cache c))) = None) /\
  (forall b, b ∈ unfulfilled f -> br_event b ∉ cc_closed c) /\
  (fs_poisoned f = false -> forall requested out batch_size, 0 < batch_size ->
     is_ok (c ← lock_cache f; get_chunks_batched c requested out batch_size) = true).
Proof.
  pose proof (faulty_reachable_inv mx f Hmx Hreach) as Hi. pose proof Hi as (H1 & H2 & H3 & H4 & H5 & H6 & H7 & H8).
  cbn in H1, H2, H5, H7 |- *. split_and!; [done| |done| |].
  - move=> k. rw list_elem_of_bind. split.
    + intros [e (b & Hb & _ & Hk)%(pending_iff f k e Hi)]. by exists b.
    + intros (b & Hk & Hb). exists (br_event b). apply (pending_iff f k _ Hi). by exists b.
  - move=> b Hb. by apply (proj1 (Forall_forall _ _) H5).
  - move=> Hp requested out sz Hsz. rw /lock_cache Hp bind_ok.
    by destruct (get_chunks_batched_ok (cs_cache (fs_system f)) requested out sz H1 Hsz) as (o & r & ou & ca & -> & _).
Qed.

(** A run with one batch, a second task that waits for it, and its end. *)
Definition sample_cache : ChunkCache AList :=
  match get_chunks_batched (ChunkCache_new 100) [k1; k2] ∅ 512 with Ok (_, _, _, c) => c | _ => ChunkCache_new 0 end.
Definition sample_batch : BatchChunkRequest := mkBatch 0 [k1; k2].
Lemma sample_reach_waiting :
  rtc cache_step (system_new 100) (mkSystem sample_cache [sample_batch] [[(k2, 0%nat)]]).
Proof.
  eapply rtc_l; [eapply (step_fetch _ _ _ [k1; k2] ∅ 512 sample_batch); [done|reflexivity]|].
  eapply rtc_l; [|apply rtc_refl].
  eapply (step_wait _ _ [] [k2] ∅ 512); [done|reflexivity].
Qed.

(** The task of the batch fails; then another task asks for one of its chunks. *)
Definition sample_lost : FaultySystem AList := mkFaulty (mkSystem sample_cache [] [[(k2, 0%nat)]]) [sample_batch] false.
Definition sample_after : FaultySystem AList :=
  mkFaulty (mkSystem sample_cache [] [[(k1, 0%nat)]; [(k2, 0%nat)]]) [sample_batch] false.

Lemma sample_lost_reachable : rtc any_step (faulty_new 100) sample_lost.
Proof.
  have Hlift s s' : rtc cache_step s s' -> rtc any_step (mkFaulty s [] false) (mkFaulty (M := AList) s' [] false).
  { elim => [//|s1 s2 s3 Hs _ IH]. eapply rtc_l; [by apply any_runs|done]. }
  eapply rtc_r; [apply Hlift, sample_reach_waiting|]. apply (any_abandons sample_cache [] sample_batch []).
Qed.

Lemma sample_after_reachable : rtc any_step sample_lost sample_after.
Proof. apply rtc_once, any_runs. eapply (step_wait _ _ _ [k1] ∅ 512); [done|reflexivity]. Qed.

Lemma fetch_is_exclusive_witness :
  NoDup (unfulfilled sample_after ≫= br_batch_keys) /\
  is_Some (cc_pending_chunks sample_cache !! k2) /\ assoc k2 (lhm_iter (rc_chunks (cc_raw_cache sample_cache))) = None /\
  is_ok (c ← lock_cache sample_after; get_chunks_batched c [k3; k2] ∅ 512) = true.
Proof.
  destruct (fetch_is_exclusive 100 sample_after ltac:(lia) (transitivity sample_lost_reachable sample_after_reachable))
    as (H1 & H2 & H3 & _ & H5).
  have Hk : is_Some (cc_pending_chunks sample_cache !! k2) by eexists.
  split; [exact H1|]. split; [exact Hk|]. split; [by apply H3|]. by apply H5.
Defined.

(** C39: an abandoned batch blocks its waiters for good.  If a task drops its batch
    without fulfilling it (the error paths of [fetch_chunk_batch] do), then, whatever any
    task does later: its chunks stay pending under the event of the batch and are never in
    the cache, so that a later request for one of them is neither served nor put into a
    new batch; this event is never closed; and so a task that waits for one of these
    chunks is never woken. *)
Theorem abandoned_batch_never_released `{HM : LinkedHashMap M} {HMS : LinkedHashMapSpec M} mx (f f' : FaultySystem M) b
  (Hmx : 0 <= mx) (Hreach : rtc any_step (faulty_new mx) f) (Hlost : b ∈ fs_abandoned f) (Hafter : rtc any_step f f') :
  let c := cs_cache (fs_system f') in
  br_event b ∉ cc_closed c /\
  (forall k, k ∈ br_batch_keys b -> cc_pending_chunks c !! k = Some (br_event b) /\
     assoc k (lhm_iter (rc_chunks (cc_raw_cache c))) = None /\
     (forall requested out batch_size outcome requested' out' c', 0 < batch_size -> k ∈ requested -> out !! k = None ->
        get_chunks_batched c requested out batch_size = Ok (outcome, requested', out', c') ->
        match outcome with
        | Fetch b' => k ∈ requested' /\ k ∉ br_batch_keys b' /\ out' !! k = None
        | AllServed => False
        | WaitFor w => (k, br_event b) ∈ w
        end)) /\
  (forall w k, w ∈ cs_waiting (fs_system f') -> (k, br_event b) ∈ w -> ~ Forall (fun r => snd r ∈ cc_closed c) w).
Proof.
  have Hb : b ∈ unfulfilled f' by apply elem_of_app; right; apply (abandoned_mono f f').
  pose proof (any_steps_inv _ _ Hafter (faulty_reachable_inv mx f Hmx Hreach)) as Hi.
  pose proof Hi as (H1 & _ & _ & _ & H5 & _ & H7 & _). cbn in H1, H5, H7 |- *.
  have Hopen : br_event b ∉ cc_closed (cs_cache (fs_system f')) by apply (proj1 (Forall_forall _ _) H5).
  split; [done|]. split; [|by move=> w k _ Hk /Forall_forall Hw; apply Hopen, (Hw _ Hk)].
  move=> k Hk. have Hp : cc_pending_chunks (cs_cache (fs_system f')) !! k = Some (br_event b) by apply (pending_iff f' k _ Hi); exists b.
  have Hn : assoc k (lhm_iter (rc_chunks (cc_raw_cache (cs_cache (fs_system f'))))) = None by apply H7; eexists.
  split_and!; [done|done|]. move=> requested out sz o rq' out' c' Hsz Hrq Hout.
  by apply pending_not_served.
Qed.

Lemma abandoned_batch_never_released_witness :
  0%nat ∉ cc_closed sample_cache /\ cc_pending_chunks sample_cache !! k1 = Some 0%nat /\
  ~ Forall (fun r => snd r ∈ cc_closed sample_cache) [(k1, 0%nat)].
Proof.
  destruct (abandoned_batch_never_released 100 sample_lost sample_after sample_batch ltac:(lia) sample_lost_reachable
    ltac:(by left) sample_after_reachable) as (H1 & H2 & H3).
  split; [exact H1|]. split; [apply (H2 k1); by left|]. apply (H3 [(k1, 0%nat)] k1); by left.
Defined.

Definition tiny_cache : ChunkCache AList :=
  match get_chunks_batched (ChunkCache_new 1) [k1; k2] ∅ 512 with Ok (_, _, _, c) => c | _ => ChunkCache_new 0 end.
Definition tiny_fulfilled : ChunkCache AList :=
  match BatchChunkRequest_fulfill tiny_cache sample_batch [[Byte.x0a]; [Byte.x0b]] with
  | Ok c => c
  | _ => ChunkCache_new 0
  end.

(** C40: a waiting task can panic.  With a cache smaller than one batch, a chunk can
    be evicted between the moment its batch is fulfilled and the moment the waiting
    task runs; that task then fails its [expect]. *)
Theorem awaited_chunk_may_be_evicted :
  exists (s : CacheSystem AList) w, rtc cache_step (system_new 1) s /\ w ∈ cs_waiting s /\
    Forall (fun r => snd r ∈ cc_closed (cs_cache s)) w /\
    forall out, get_chunks_awaited (cs_cache s) w out =
      Panic "Waited on chunk, but chunk was not put in cache".
Proof.
  exists (mkSystem tiny_fulfilled [] [[(k1, 0%nat)]]), [(k1, 0%nat)]. split_and!.
  - eapply rtc_l; [eapply (step_fetch _ _ _ [k1; k2] ∅ 512 sample_batch); [done|reflexivity]|].
    eapply rtc_l; [eapply (step_wait _ _ [] [k1] ∅ 512); [done|reflexivity]|].
    eapply rtc_l; [|apply rtc_refl].
    apply (step_fulfill tiny_cache [] sample_batch [] [[(k1, 0%nat)]] [[Byte.x0a]; [Byte.x0b]]).
    + by repeat (constructor; [done|]).
    + reflexivity.
  - by left.
  - constructor; [by left|done].
  - done.
Qed.

(** ** The cache file *)

(** The law of [zstd]: what was compressed, at any level, is decompressed. *)
Class ZstdSpec (Z : Zstd) : Prop :=
  zstd_recovers : forall level data b, zstd_compress level data = Ok b -> zstd_decoder b = (data, UnexpectedEof).

Lemma read_exact_app stop n s rest : len s = n -> read_exact_or stop n (s ++ rest) = Ok (s, rest).
Proof.
  move=> H. rw /read_exact_or. case: Z.ltb_spec => ?; first len_lia. by rw ztake_app ?zdrop_app.
Qed.

Section cache_file_proofs.
Context `{Hb : Blake3} {Hspec : Blake3Spec Hb} `{HZ : Zstd} {HZS : ZstdSpec HZ}.
Context `{HM : LinkedHashMap M} {HMS : LinkedHashMapSpec M}.

(** An entry that the file can hold: the key is the digest of the chunk. *)
Definition entry_valid (e : ChunkKey * bytes) : Prop :=
  blake3_hash (snd e) = fst e /\ len (snd e) <= CHUNK_LENGTH_LIMIT.

Lemma without_fresh k l : k ∉ fst <$> l -> without k l = l.
Proof.
  rw /without. elim: l => [|[k' v] l IH] // /not_elem_of_cons [Hne Hni].
  rw filter_cons_True; [by move=> E; apply Hne|]. by rw IH.
Qed.

Lemma trim_fits mx l : entries_size l <= mx -> trim mx l = l.
Proof. destruct l as [|e l] => //= H. case: Z.ltb_spec => //. destruct e; cbn in *; lia. Qed.

Lemma trim_app mx l k : trim mx (trim mx l ++ k) = trim mx (l ++ k).
Proof.
  elim: l => [|e l IH] //. cbn [trim]. case: Z.ltb_spec => Hlt; [|done]. rw IH. cbn [app trim].
  case: Z.ltb_spec => // Hle. rw app_comm_cons entries_size_app in Hle. pose proof (entries_size_pos k). lia.
Qed.

(** Reading entries into a cache keeps the newest ones that fit. *)
Lemma read_entries_ok stop es rest (cache : RawChunkCache M) :
  raw_inv cache -> Forall entry_valid es -> NoDup (fst <$> raw_entries cache ++ es) ->
  rc_max_size cache + CHUNK_LENGTH_LIMIT < 2 ^ 64 ->
  exists cache', read_cache_entries stop (length es)
      (concat ((fun e => fst e ++ le_bytes 4 (len (snd e)) ++ snd e) <$> es) ++ rest) cache = Ok cache' /\
    raw_entries cache' = trim (rc_max_size cache) (raw_entries cache ++ es) /\
    raw_inv cache' /\ rc_max_size cache' = rc_max_size cache.
Proof.
  elim: es cache => [|[k v] es IH] cache Hinv Hv Hnd H64.
  { exists cache. rw app_nil_r trim_fits //. by destruct Hinv as (<- & ? & _). }
  apply Forall_cons in Hv as [[Hk Hl] Hv]. cbn [fst snd] in Hk, Hl.
  have Hk32 : len k = 32 by rw -Hk blake3_len.
  cbn [length read_cache_entries fmap list_fmap concat fst snd]. rw -!app_assoc.
  rw read_exact_app // bind_ok read_exact_app; [len_lia|]. rw bind_ok.
  rw le_val_le_bytes; [rw /in_u; rw /CHUNK_LENGTH_LIMIT in Hl; cbn; lia|].
  case: Z.ltb_spec => ?; [lia|]. rw read_exact_app // bind_ok.
  destruct (decide (blake3_hash v = k)) as [_|]; [|done].
  have Hfresh : k ∉ fst <$> raw_entries cache.
  { rw fmap_app in Hnd. apply NoDup_app in Hnd as (_ & Hd & _). move=> Hin. apply (Hd k Hin). by left. }
  rw cons_middle app_assoc in Hnd *.
  destruct (insert_ok k v cache Hinv) as (c1 & -> & Hinv1 & Hm1 & He1); [lia|]. rw bind_ok.
  rw without_fresh // in He1.
  destruct (IH c1 Hinv1 Hv) as (c2 & -> & He2 & Hinv2 & Hm2).
  - rw He1. destruct (trim_suffix (rc_max_size cache) (raw_entries cache ++ [(k, v)])) as [pre Hpre].
    rw Hpre -app_assoc fmap_app in Hnd. by apply NoDup_app in Hnd as (_ & _ & ?).
  - by rw Hm1.
  - exists c2. split; [done|]. rw He2 He1 Hm1 trim_app. split_and!; try done. by rw Hm2.
Qed.

(** The cache survives a restart with another size limit: a saved cache whose keys are
    the digests of its chunks is loaded without an error, and the newest chunks that fit
    the new limit are kept, in their order. *)
Lemma cache_file_reload (cache : RawChunkCache M) level mx file
  (Hinv : raw_inv cache) (Hvalid : Forall entry_valid (raw_entries cache))
  (Hwrite : write_chunk_cache cache level = Ok file) (H0 : 0 <= mx) (Hmx : mx + CHUNK_LENGTH_LIMIT < 2 ^ 64) :
  exists cache' : RawChunkCache M, read_chunk_cache (RawChunkCache_new mx) file = Ok cache' /\
    raw_entries cache' = trim mx (raw_entries cache) /\ raw_inv cache' /\ rc_max_size cache' = mx.
Proof.
  rw /write_chunk_cache in Hwrite.
  apply bind_ok_inv in Hwrite as (n & [-> Hn]%try_into_inv & (es & Hes & Hz)%bind_ok_inv).
  rw (collect_ok _ (fun e => fst e ++ le_bytes 4 (len (snd e)) ++ snd e)) in Hes.
  { move=> e He. rw /encode_cache_entry. destruct (proj1 (Forall_forall _ _) Hvalid e He) as [_ Hl].
    rewrite -> try_into_bind; [done|]. rw /CHUNK_LENGTH_LIMIT in Hl. lia. }
  apply ok_inj in Hes as <-. rw /raw_entries in Hvalid.
  destruct (read_entries_ok UnexpectedEof (lhm_iter (rc_chunks cache)) [] (RawChunkCache_new mx))
    as (c' & Heq & Hent & Hinv' & Hm').
  - by apply raw_inv_new.
  - done.
  - rw /raw_entries /= lhm_new_iter. apply lhm_nodup.
  - done.
  - exists c'. rw /read_chunk_cache (zstd_recovers _ _ _ Hz) read_exact_app; [len_lia|].
    rw bind_ok le_val_le_bytes; [rw /in_u /RawChunkCache_len in Hn *; cbn; lia|].
    rw /RawChunkCache_len Nat2Z.id -(app_nil_r (concat _)) Heq. split; [done|].
    by rw {2}/raw_entries /= lhm_new_iter in Hent.
Qed.

(** With a limit that holds all of them, the same entries and the same size. *)
Lemma cache_file_roundtrip (cache : RawChunkCache M) level mx file
  (Hinv : raw_inv cache) (Hvalid : Forall entry_valid (raw_entries cache))
  (Hwrite : write_chunk_cache cache level = Ok file)
  (Hfit : rc_total_size cache <= mx) (Hmx : mx + CHUNK_LENGTH_LIMIT < 2 ^ 64) :
  exists cache' : RawChunkCache M, read_chunk_cache (RawChunkCache_new mx) file = Ok cache' /\
    lhm_iter (rc_chunks cache') = lhm_iter (rc_chunks cache) /\
    rc_total_size cache' = rc_total_size cache.
Proof.
  have Hs := proj1 Hinv. pose proof (entries_size_pos (raw_entries cache)) as Hpos.
  destruct (cache_file_reload cache level mx file) as (c' & Hr & He & (Hs' & _) & _); try done; [lia|].
  rw trim_fits in He; [lia|]. exists c'. split; [done|]. split; [exact He|]. by rw Hs' He Hs.
Qed.

(** A chunk above the limit of the reader is written, but not read back. *)
Lemma read_entries_oversized stop es rest (cache : RawChunkCache M) :
  raw_inv cache -> rc_max_size cache + CHUNK_LENGTH_LIMIT < 2 ^ 64 ->
  Forall (fun e => blake3_hash (snd e) = fst e /\ len (snd e) < 2 ^ 32) es -> Exists (fun e => CHUNK_LENGTH_LIMIT < len (snd e)) es ->
  exists e, read_cache_entries stop (length es)
    (concat ((fun e => fst e ++ le_bytes 4 (len (snd e)) ++ snd e) <$> es) ++ rest) cache = Err e.
Proof.
  elim: es cache => [|[k v] es IH] cache Hinv H64 Hv Hex; first by inversion Hex.
  apply Forall_cons in Hv as [[Hk Hl] Hv]. cbn [fst snd] in Hk, Hl.
  have Hk32 : len k = 32 by rw -Hk blake3_len.
  cbn [length read_cache_entries fmap list_fmap concat fst snd]. rw -!app_assoc.
  rw read_exact_app // bind_ok read_exact_app; [len_lia|]. rw bind_ok le_val_le_bytes; [rw /in_u; cbn; lia|].
  case: Z.ltb_spec => Hlim; [by eexists|]. rw read_exact_app // bind_ok.
  destruct (decide (blake3_hash v = k)) as [_|]; [|done].
  destruct (insert_ok k v cache Hinv) as (c1 & -> & Hinv1 & Hm1 & _); [lia|]. rw bind_ok. apply IH; [done|by rw Hm1|done|].
  apply Exists_cons in Hex as [Hex|Hex]; [cbn in Hex; lia|done].
Qed.

Lemma oversized_unreadable (cache : RawChunkCache M) level mx file
  (Hdigests : Forall (fun e => blake3_hash (snd e) = fst e) (raw_entries cache))
  (Hbig : Exists (fun e => CHUNK_LENGTH_LIMIT < len (snd e)) (raw_entries cache))
  (Hwrite : write_chunk_cache cache level = Ok file) (H0 : 0 <= mx) (Hmx : mx + CHUNK_LENGTH_LIMIT < 2 ^ 64) :
  exists e, read_chunk_cache (RawChunkCache_new mx : RawChunkCache M) file = Err e.
Proof.
  rw /write_chunk_cache in Hwrite.
  apply bind_ok_inv in Hwrite as (n & [-> Hn]%try_into_inv & (es & Hes & Hz)%bind_ok_inv).
  have Hall : Forall (fun e => blake3_hash (snd e) = fst e /\ len (snd e) < 2 ^ 32) (raw_entries cache) /\
    es = (fun e => fst e ++ le_bytes 4 (len (snd e)) ++ snd e) <$> raw_entries cache.
  { rw /raw_entries in Hdigests *. clear Hz Hbig Hn. elim: (lhm_iter _) es Hes Hdigests => [|e l IH] es; cbn [collect].
    { by intros <-%ok_inj _. }
    intros (b & Hb1 & (bs & Hbs & <-%ok_inj)%bind_ok_inv)%bind_ok_inv [He Hl]%Forall_cons.
    destruct (IH bs Hbs Hl) as [Hv ->]. rw /encode_cache_entry in Hb1. apply bind_ok_inv in Hb1 as (z & [-> Hz]%try_into_inv & <-%ok_inj).
    split; [|done]. constructor; [|done]. split; [done|lia]. }
  destruct Hall as [Hall ->].
  rw /read_chunk_cache (zstd_recovers _ _ _ Hz) read_exact_app; [len_lia|].
  rw bind_ok le_val_le_bytes; [rw /in_u /RawChunkCache_len in Hn *; cbn; lia|].
  rw /RawChunkCache_len Nat2Z.id -(app_nil_r (concat _)). apply read_entries_oversized; [by apply raw_inv_new|done|done|done].
Qed.
End cache_file_proofs.

(** A zstd that stores its input behind a magic byte. *)
Definition toy_zstd : Zstd := {|
  zstd_compress _ data := Ok (Byte.x28 :: data);
  zstd_decoder b :=
    match b with Byte.x28 :: data => (data, UnexpectedEof) | _ => ([], LibError "zstd") end;
|}.

Lemma toy_zstd_spec : ZstdSpec toy_zstd.
Proof. by move=> level data b [= <-]. Qed.

Definition saved_cache : RawChunkCache AList :=
  match raw_run (RawChunkCache_new 100) [OpInsert (toy_hash [Byte.x01]) [Byte.x01];
    OpInsert (toy_hash [Byte.x02; Byte.x03]) [Byte.x02; Byte.x03]; OpGet (toy_hash [Byte.x01])] with
  | Ok (_, c) => c
  | _ => RawChunkCache_new 0
  end.


Lemma insert_entries `{HM : LinkedHashMap M} {HMS : LinkedHashMapSpec M} key chunk (c c' : RawChunkCache M) :
  raw_inv c -> rc_max_size c + len chunk < 2 ^ 64 -> RawChunkCache_insert key chunk c = Ok c' ->
  forall e, e ∈ raw_entries c' -> e ∈ raw_entries c \/ e = (key, chunk).
Proof.
  move=> Hinv Hsz Heq e Hin. destruct (insert_ok key chunk c Hinv Hsz) as (c2 & Heq2 & _ & _ & Hent).
  rw Heq in Heq2. injection Heq2 as <-. rw Hent in Hin.
  destruct (trim_suffix (rc_max_size c) (without key (raw_entries c) ++ [(key, chunk)])) as [pre Hpre].
  have {}Hin : e ∈ without key (raw_entries c) ++ [(key, chunk)] by rw Hpre; apply elem_of_app; right.
  apply elem_of_app in Hin as [Hin|Hin%list_elem_of_singleton]; [|by right].
  left. by apply list_elem_of_filter in Hin as [_ ?].
Qed.

Lemma read_exact_cases stop n buf :
  read_exact_or stop n buf = Err stop \/
  exists s rest, read_exact_or stop n buf = Ok (s, rest) /\ len s <= Z.max n 0.
Proof.
  rw /read_exact_or. case: Z.ltb_spec => H; [by left|]. right. do 2 eexists. split; [done|]. len_lia.
Qed.

Lemma read_entries_sound `{Hb : Blake3} `{HM : LinkedHashMap M} {HMS : LinkedHashMapSpec M}
  stop count buf (cache : RawChunkCache M) :
  raw_inv cache -> rc_max_size cache + CHUNK_LENGTH_LIMIT < 2 ^ 64 ->
  Forall (fun e => blake3_hash (snd e) = fst e) (raw_entries cache) ->
  match read_cache_entries stop count buf cache with
  | Ok cache' => raw_inv cache' /\ rc_max_size cache' = rc_max_size cache /\
      Forall (fun e => blake3_hash (snd e) = fst e) (raw_entries cache')
  | Err _ => True
  | Panic _ => False
  end.
Proof.
  elim: count buf cache => [|count IH] buf cache Hinv H64 Hok; first done. cbn [read_cache_entries].
  destruct (read_exact_cases stop 32 buf) as [->|(k & buf1 & -> & _)]; first done. rw bind_ok.
  destruct (read_exact_cases stop 4 buf1) as [->|(u & buf2 & -> & _)]; first done. rw bind_ok. cbv zeta.
  case: Z.ltb_spec => Hlim; first done.
  destruct (read_exact_cases stop (le_val u) buf2) as [->|(v & buf3 & -> & Hl)]; first done. rw bind_ok.
  destruct (decide (blake3_hash v = k)) as [Hk|]; [|by apply IH].
  have Hsz : rc_max_size cache + len v < 2 ^ 64 by rw /CHUNK_LENGTH_LIMIT in Hlim H64; lia.
  destruct (insert_ok k v cache Hinv Hsz) as (c1 & Heq & Hinv1 & Hm & _). rw Heq bind_ok.
  have Hok1 : Forall (fun e => blake3_hash (snd e) = fst e) (raw_entries c1).
  { apply Forall_forall => e /(insert_entries k v cache c1 Hinv Hsz Heq) [He| ->]; [|done].
    exact (proj1 (Forall_forall _ _) Hok e He). }
  have := IH buf3 c1 Hinv1. rw Hm. by apply.
Qed.

(** C34: loading is safe.  Whatever bytes the cache file holds, loading it returns an
    error or a cache within its size limit in which every key is the digest of its
    chunk; it never panics. *)
Theorem cache_load_sound `{Hb : Blake3} `{HZ : Zstd} `{HM : LinkedHashMap M} {HMS : LinkedHashMapSpec M}
  mx file (Hmx : 0 <= mx) (H64 : mx + CHUNK_LENGTH_LIMIT < 2 ^ 64) :
  match read_chunk_cache (RawChunkCache_new (M := M) mx) file with
  | Ok cache => rc_total_size cache <= mx /\
      rc_total_size cache = entries_size (lhm_iter (rc_chunks cache)) /\
      Forall (fun e => blake3_hash (snd e) = fst e) (lhm_iter (rc_chunks cache))
  | Err _ => True
  | Panic _ => False
  end.
Proof.
  rw /read_chunk_cache. destruct (zstd_decoder file) as [d stop].
  destruct (read_exact_cases stop 4 d) as [->|(u & rest & -> & _)]; first done. rw bind_ok.
  pose proof (read_entries_sound stop (Z.to_nat (le_val u)) rest (RawChunkCache_new (M := M) mx)
    (raw_inv_new mx Hmx) H64) as H.
  destruct (read_cache_entries _ _ _) as [c|e|p]; [|done|].
  - destruct H as ((Hs & Hle & _) & Hm & Hok); [by rw /raw_entries /= lhm_new_iter|].
    cbn in Hm. rw Hm in Hle. by split_and!.
  - apply H. by rw /raw_entries /= lhm_new_iter.
Qed.

(** A file whose second chunk was damaged: only the first is loaded. *)
Definition damaged_file : bytes :=
  Byte.x28 :: le_bytes 4 2 ++ toy_hash [Byte.x01] ++ le_bytes 4 1 ++ [Byte.x01] ++
  toy_hash [Byte.x02] ++ le_bytes 4 1 ++ [Byte.x09].

Lemma cache_load_sound_witness :
  match @read_chunk_cache toy_blake3 toy_zstd AList _ (RawChunkCache_new 50) damaged_file with
  | Ok cache => rc_total_size cache <= 50 /\
      rc_total_size cache = entries_size (lhm_iter (rc_chunks cache)) /\
      Forall (fun e => @blake3_hash toy_blake3 (snd e) = fst e) (lhm_iter (rc_chunks cache))
  | Err _ => True
  | Panic _ => False
  end.
Proof. by apply (@cache_load_sound toy_blake3 toy_zstd AList _ _ 50 damaged_file). Defined.
