(* ===== verification/CacheWriter.v ===== *)
(** * The writer of the cache file

    Models [start_writer] and [try_save] of common/src/chunk_cache.rs: the task that saves
    the cache from time to time.  The disk is a map from paths to files; the temporary file
    is next to the cache file, with another extension.  Each file operation may fail, other
    tasks use the cache while a save is going on, and the process may stop at any point. *)

From Stdlib Require Import ssreflect Ascii.
From stdpp Require Import base numbers list gmap strings relations.
From S2P Require Import Prelude Buf Dedup ChunkCache.

#[local] Open Scope general_if_scope.

(** ** Paths *)

(** A path to a file: its directory, and its name, which is neither empty nor [..]. *)
Abbreviation Path := (string * string)%type.

(** [rsplit_file_at_dot]: the parts of a name before and after its last dot. *)
Fixpoint rsplit_dot (name : string) : option (string * string) :=
  match name with
  | EmptyString => None
  | String c name =>
      match rsplit_dot name with
      | Some (before, after) => Some (String c before, after)
      | None => if decide (c = "."%char) then Some (EmptyString, name) else None
      end
  end.

(** [Path::file_stem] and [Path::extension]; a name that begins with its only dot has none. *)
Definition file_stem (name : string) : string :=
  match rsplit_dot name with Some (String c before, _) => String c before | _ => name end.
Definition extension (name : string) : option string :=
  match rsplit_dot name with Some (String _ _, after) => Some after | _ => None end.

(** [Path::with_extension] *)
Definition with_extension (path : Path) (ext : string) : Path :=
  (fst path, (file_stem (snd path) ++ String "."%char ext)%string).

Lemma rsplit_dot_inv name before after : rsplit_dot name = Some (before, after) -> name = (before ++ String "."%char after)%string.
Proof.
  elim: name before => [//|c name IH] before. cbn [rsplit_dot]. destruct (rsplit_dot name) as [[b a]|].
  - intros [= <- <-]. by rewrite (IH b eq_refl).
  - destruct (decide _) as [->|]; [by intros [= <- <-]|done].
Qed.

Lemma rsplit_dot_app before after : rsplit_dot after = None -> rsplit_dot (before ++ String "."%char after)%string = Some (before, after).
Proof.
  move=> Ha. elim: before => [|c before IH].
  - change (rsplit_dot ("" ++ String "."%char after)) with (rsplit_dot (String "."%char after)). cbn [rsplit_dot]. by rewrite Ha.
  - change (String c before ++ String "."%char after)%string with (String c (before ++ String "."%char after)).
    cbn [rsplit_dot]. by rewrite IH.
Qed.

(** The temporary file is the cache file itself if that has the extension [tmp]. *)
Lemma temp_path_aliases path : with_extension path "tmp" = path <-> extension (snd path) = Some "tmp"%string.
Proof.
  destruct path as [dir name]. rw /with_extension /extension /file_stem. cbn [fst snd]. split.
  - intros [= Hn]. destruct (rsplit_dot name) as [[[|c b] a]|] eqn:Hr; pose proof (rsplit_dot_app) as Happ.
    + specialize (Happ name "tmp"%string eq_refl). rewrite Hn Hr in Happ. injection Happ as Hname _. by rewrite -Hname in Hr.
    + specialize (Happ (String c b) "tmp"%string eq_refl). rewrite Hn Hr in Happ. by injection Happ as ->.
    + specialize (Happ name "tmp"%string eq_refl). by rewrite Hn Hr in Happ.
  - destruct (rsplit_dot name) as [[[|c b] a]|] eqn:Hr; try done. intros [= ->]. f_equal. by rewrite (rsplit_dot_inv _ _ _ Hr).
Qed.

Abbreviation Disk := (gmap Path bytes).

(** [std::fs::rename(&temp_path, &cache_path)] *)
Definition rename_temp (cache_path : Path) (d : Disk) : Disk :=
  match d !! with_extension cache_path "tmp" with
  | Some b => <[cache_path := b]> (delete (with_extension cache_path "tmp") d)
  | None => d
  end.

(** What [File::create] and the writing of a part of a file leave: nothing if it could not be
    created. *)
Definition write_part (path : Path) (partial : option bytes) (d : Disk) : Disk :=
  match partial with Some b => <[path := b]> d | None => d end.

(** What goes wrong in a save: creating or writing the temporary file, which then holds
    whatever was written before, reading its size, or renaming it. *)
Inductive Fault := NoFault | WriteFails (partial : option bytes) | MetadataFails | RenameFails.

Section writer.
Context `{Zstd, LinkedHashMap M} (cache_path : Path).

(** The part of [try_save] that runs on a blocking thread.  An error or a panic in
    [write_chunk_cache] leaves a partial file, too. *)
Definition save_snapshot (raw_cache : RawChunkCache M) (compression_level : Z) (fault : Fault) (d : Disk) : result unit * Disk :=
  let temp_path := with_extension cache_path "tmp" in
  match fault with
  | WriteFails partial => (Err (LibError "std::io::Error"), write_part temp_path partial d)
  | _ =>
      match write_chunk_cache raw_cache compression_level with
      | Ok b =>
          let d := <[temp_path := b]> d in
          match fault with
          | NoFault => (Ok tt, rename_temp cache_path d)
          | _ => (Err (LibError "std::io::Error"), d)
          end
      | Err e => (Err e, d)
      | Panic _ => (Err (LibError "JoinError"), d)
      end
  end.

Definition try_save (c : ChunkCache M) (compression_level : Z) (fault : Fault) (d : Disk)
  : result unit * ChunkCache M * Disk :=
  match take_dirty c with
  | (None, c) => (Ok tt, c, d)
  | (Some raw_cache, c) => let '(r, d) := save_snapshot raw_cache compression_level fault d in (r, c, d)
  end.

(** [start_writer], one turn per fault; an error is only logged. *)
Definition start_writer (c : ChunkCache M) (compression_level : Z) (faults : list Fault) (d : Disk) : ChunkCache M * Disk :=
  foldl (fun '(c, d) fault => let '(_, c, d) := try_save c compression_level fault d in (c, d)) (c, d) faults.

(** ** Saving while the cache is in use

    The same as a step relation, in which every file operation is a step of its own. *)

Inductive WriterPhase :=
| Sleeping
| Writing (raw_cache : RawChunkCache M)
| Written.

(** [ws_snapshots]: the caches that were to be saved, for the statements. *)
Record WriterState := mkWriter {
  ws_cache : ChunkCache M;
  ws_disk : Disk;
  ws_phase : WriterPhase;
  ws_snapshots : list (RawChunkCache M);
}.

(** [cache_ok]: what the other tasks keep true of the cache. *)
Context (cache_ok : ChunkCache M -> Prop) (level : Z).

Inductive wstep : WriterState -> WriterState -> Prop :=
| w_clean c d snaps c' :
    take_dirty c = (None, c') -> wstep (mkWriter c d Sleeping snaps) (mkWriter c' d Sleeping snaps)
| w_dirty c d snaps raw c' :
    take_dirty c = (Some raw, c') ->
    wstep (mkWriter c d Sleeping snaps) (mkWriter c' d (Writing raw) (snaps ++ [raw]))
| w_partial c d snaps raw partial :
    wstep (mkWriter c d (Writing raw) snaps)
      (mkWriter c (write_part (with_extension cache_path "tmp") partial d) (Writing raw) snaps)
| w_written c d snaps raw b :
    write_chunk_cache raw level = Ok b ->
    wstep (mkWriter c d (Writing raw) snaps) (mkWriter c (<[with_extension cache_path "tmp" := b]> d) Written snaps)
| w_renamed c d snaps :
    wstep (mkWriter c d Written snaps) (mkWriter c (rename_temp cache_path d) Sleeping snaps)
| w_fails c d phase snaps :
    wstep (mkWriter c d phase snaps) (mkWriter c d Sleeping snaps)
| w_used c d phase snaps c' :
    cache_ok c' -> wstep (mkWriter c d phase snaps) (mkWriter c' d phase snaps).
End writer.
Arguments WriterState : clear implicits.
Arguments WriterPhase : clear implicits.

(** ** Proofs *)

Section writer_proofs.
Context `{Hb : Blake3} {Hspec : Blake3Spec Hb} `{HZ : Zstd} {HZS : ZstdSpec HZ} `{HM : LinkedHashMap M} {HMS : LinkedHashMapSpec M}.
Context (cache_path : Path) (mx level : Z).

(** The cache, whatever tasks use it: within its limit, with keys that are digests. *)
Definition verified (raw : RawChunkCache M) : Prop :=
  raw_inv raw /\ Forall (fun e => blake3_hash (snd e) = fst e) (raw_entries raw) /\ rc_max_size raw = mx.

(** No chunk of it is above what [read_chunk_cache] accepts. *)
Definition small_chunks (raw : RawChunkCache M) : Prop :=
  Forall (fun e : ChunkKey * bytes => len (snd e) <= CHUNK_LENGTH_LIMIT) (raw_entries raw).

Lemma small_valid raw : verified raw -> small_chunks raw -> Forall entry_valid (raw_entries raw).
Proof.
  intros (_ & Hd & _) Hs. apply Forall_forall => e He.
  split; [exact (proj1 (Forall_forall _ _) Hd e He)|exact (proj1 (Forall_forall _ _) Hs e He)].
Qed.

Lemma not_small raw : ~ small_chunks raw -> Exists (fun e => CHUNK_LENGTH_LIMIT < len (snd e)) (raw_entries raw).
Proof.
  move=> Hn. apply not_Forall_Exists in Hn; [|move=> e; apply Z.le_dec].
  eapply Exists_impl; [exact Hn|]. cbn. lia.
Qed.

Definition is_content (snaps : list (RawChunkCache M)) (b : bytes) : Prop :=
  exists raw, raw ∈ snaps /\ write_chunk_cache raw level = Ok b.

Definition writer_inv (file0 : option bytes) (s : WriterState M) : Prop :=
  verified (cc_raw_cache (ws_cache s)) /\ Forall verified (ws_snapshots s) /\
  (ws_disk s !! cache_path = file0 \/ exists b, ws_disk s !! cache_path = Some b /\ is_content (ws_snapshots s) b) /\
  match ws_phase s with
  | Sleeping => True
  | Writing raw => raw ∈ ws_snapshots s
  | Written => exists b, ws_disk s !! with_extension cache_path "tmp" = Some b /\ is_content (ws_snapshots s) b
  end.

Lemma is_content_app snaps more b : is_content snaps b -> is_content (snaps ++ more) b.
Proof. intros (raw & Hin & Hw). exists raw. split; [apply elem_of_app; by left|done]. Qed.

Lemma take_dirty_cache c o c' : take_dirty (M := M) c = (o, c') ->
  cc_raw_cache c' = cc_raw_cache c /\ (forall raw, o = Some raw -> raw = cc_raw_cache c) /\ cc_needs_saving c' = false.
Proof.
  rw /take_dirty. destruct (cc_needs_saving c) eqn:Hn; intros [= <- <-]; split_and!; try done. by intros raw [= <-].
Qed.

Context (Hext : extension (snd cache_path) <> Some "tmp"%string).

Lemma temp_other : with_extension cache_path "tmp" <> cache_path.
Proof. move=> He. by apply Hext, temp_path_aliases. Qed.

Lemma wstep_inv file0 s s' :
  writer_inv file0 s -> wstep cache_path (fun c => verified (cc_raw_cache c)) level s s' -> writer_inv file0 s'.
Proof.
  intros (Hc & Hs & Hf & Hp) Hstep. have Hne := temp_other.
  destruct Hstep as [c d snaps c' Ht|c d snaps raw c' Ht|c d snaps raw partial|c d snaps raw b Hw|c d snaps|c d phase snaps|c d phase snaps c' Hok];
    cbn -[with_extension] in *.
  - destruct (take_dirty_cache c None c' Ht) as (He & _). by split_and!; rw ?He.
  - destruct (take_dirty_cache c _ c' Ht) as (He & Hr & _). rw (Hr raw eq_refl). rw /writer_inv. cbn. split_and!.
    + by rw He.
    + apply Forall_app. split; [done|by apply Forall_singleton].
    + destruct Hf as [Hf|(b & Hf & Hco)]; [by left|]. right. exists b. split; [done|by apply is_content_app].
    + apply elem_of_app. right. by left.
  - split_and!; [done|done| |done]. cbn -[with_extension]. rw /write_part. destruct partial; [|done]. by rewrite lookup_insert_ne.
  - split_and!; [done|done| |]; cbn -[with_extension]; [by rewrite lookup_insert_ne|]. exists b. rw lookup_insert_eq. split; [done|]. by exists raw.
  - split_and!; [done|done| |done]. right. destruct Hp as (b & Htb & Hco). exists b. cbn -[with_extension].
    by rewrite /rename_temp Htb lookup_insert_eq.
  - by split_and!.
  - by split_and!.
Qed.

Lemma wsteps_inv file0 s s' :
  rtc (wstep cache_path (fun c => verified (cc_raw_cache c)) level) s s' -> writer_inv file0 s -> writer_inv file0 s'.
Proof. elim => [//|s1 s2 s3 Hs _ IH] Hi. apply IH. by apply (wstep_inv file0 s1). Qed.

End writer_proofs.

Section writer_properties.
Context `{Hb : Blake3} {Hspec : Blake3Spec Hb} `{HZ : Zstd} {HZS : ZstdSpec HZ} `{HM : LinkedHashMap M} {HMS : LinkedHashMapSpec M}.
Context (cache_path : Path) (mx level : Z).

(** C32: the cache file survives a crash.  The cache path does not have the extension [tmp]
    (the temporary file would be the cache file itself).  Whatever the other tasks do to the
    cache during a save (they keep its limit, and its keys are digests, which
    [fetched_chunks_verified] shows), whichever file operations fail, and wherever the process
    is stopped: the cache file is the one that was there at the start, or it holds a whole
    cache that was handed to the writer, never a part of one.  If no chunk of that cache is
    above 20 000 000 bytes (which nothing enforces when a chunk is put in), then the file
    loads without an error into the same entries, in their order, and the same size; if one
    is, then loading it fails with an error.  The sum of the cache's limit and that of a
    chunk is below 2^64. *)
Theorem cache_survives_crash (c : ChunkCache M) d s
  (Hext : extension (snd cache_path) <> Some "tmp"%string)
  (Hmx : mx + CHUNK_LENGTH_LIMIT < 2 ^ 64) (Hc : verified mx (cc_raw_cache c))
  (Hrun : rtc (wstep cache_path (fun c => verified mx (cc_raw_cache c)) level) (mkWriter c d Sleeping []) s) :
  ws_disk s !! cache_path = d !! cache_path \/
  exists raw, raw ∈ ws_snapshots s /\
    (small_chunks raw -> exists c', load_from_file mx (ws_disk s !! cache_path) = Ok c' /\
       lhm_iter (rc_chunks (cc_raw_cache c')) = lhm_iter (rc_chunks raw) /\
       rc_total_size (cc_raw_cache c') = rc_total_size raw) /\
    (~ small_chunks raw -> exists e, load_from_file (M := M) mx (ws_disk s !! cache_path) = Err e).
Proof.
  destruct (wsteps_inv cache_path mx level Hext (d !! cache_path) _ _ Hrun) as (_ & Hs & Hf & _).
  { split; [exact Hc|]. split; [constructor|]. split; [by left|done]. }
  destruct Hf as [Hf|(b & Hb' & raw & Hin & Hw)]; [by left|]. right. exists raw. split; [done|].
  have Hver := proj1 (Forall_forall _ _) Hs raw Hin. destruct (Hver) as (Hinv & Hd & Hm). rw Hb'. split.
  - move=> Hsmall. destruct (cache_file_roundtrip raw level mx b) as (c' & Hr & Hi & Ht); try done.
    { by apply (small_valid mx). }
    { destruct Hinv as (_ & Hle & _). by rw -Hm. }
    exists (mkChunkCache c' ∅ false 0 []). by rw /load_from_file Hr.
  - move=> Hbig. destruct (oversized_unreadable raw level mx b) as (e & Hr); try done.
    { by apply not_small. }
    { rw -Hm. destruct Hinv as (Hz & Hle & _). pose proof (entries_size_pos (raw_entries raw)). lia. }
    exists e. by rw /load_from_file Hr.
Qed.

(** With a path that has the extension [tmp], a save that fails destroys the cache file. *)
Lemma tmp_cache_overwritten (c : ChunkCache M) partial d
  (Hext : extension (snd cache_path) = Some "tmp"%string) (Hdirty : cc_needs_saving c = true) :
  exists e c' d', try_save cache_path c level (WriteFails (Some partial)) d = (Err e, c', d') /\ d' !! cache_path = Some partial.
Proof.
  rw /try_save /take_dirty Hdirty /save_snapshot /write_part (proj2 (temp_path_aliases cache_path) Hext). do 3 eexists. split; [done|].
  by rw lookup_insert_eq.
Qed.

(** A save that fails is not repeated.  When a save fails, the cache file stays as it
    was and the cache counts as saved: however often the writer wakes up, it does nothing
    until the cache is marked dirty again. *)
Lemma failed_save_not_retried (c : ChunkCache M) fault d faults
  (Hext : extension (snd cache_path) <> Some "tmp"%string) (Hdirty : cc_needs_saving c = true) (Hfault : fault <> NoFault) :
  exists e c' d', try_save cache_path c level fault d = (Err e, c', d') /\ d' !! cache_path = d !! cache_path /\
    cc_raw_cache c' = cc_raw_cache c /\ start_writer cache_path c' level faults d' = (c', d').
Proof.
  rw /try_save. destruct (take_dirty c) as [o c'] eqn:Ht. destruct (take_dirty_cache c o c' Ht) as (He & _ & Hn).
  have [raw ->] : is_Some o by move: Ht; rw /take_dirty Hdirty; intros [= <- _]; eexists.
  have [e [d' [-> Hf]]] : exists e d', save_snapshot cache_path raw level fault d = (Err e, d') /\ d' !! cache_path = d !! cache_path.
  { have Hne := temp_other cache_path Hext. rw /save_snapshot /write_part.
    destruct fault as [|[b|]| |]; [done|do 2 eexists; split; [done|by rewrite lookup_insert_ne]|by do 2 eexists| |];
      destruct (write_chunk_cache raw level); do 2 eexists; (split; [done|]); rewrite ?lookup_insert_ne //. }
  exists e, c', d'. split_and!; [done|done|done|]. rw /start_writer. elim: faults => [|f faults IH] //. cbn [foldl].
  by rw /try_save /take_dirty Hn.
Qed.
End writer_properties.

(** ** Witnesses *)

(** A cache that is saved while a chunk more arrives, with a partial file on the way. *)
Definition dirty_cache : ChunkCache AList := mkChunkCache saved_cache ∅ true 0 [].
Definition clean_cache : ChunkCache AList := mkChunkCache saved_cache ∅ false 0 [].
Definition saved_file : bytes :=
  match @write_chunk_cache toy_zstd AList _ saved_cache 3 with Ok b => b | _ => [] end.

Definition sample_path : Path := ("/home/player"%string, "persistent-cache"%string).

Lemma saved_cache_verified : @verified toy_blake3 AList _ 100 saved_cache.
Proof. split; [done|]. split; [by repeat (constructor; [done|])|by vm_compute]. Qed.

Lemma cache_survives_crash_witness :
  let s := mkWriter clean_cache {[ sample_path := saved_file ]} Sleeping [saved_cache] in
  exists c', @load_from_file toy_blake3 toy_zstd AList _ 100 (ws_disk s !! sample_path) = Ok c' /\
    lhm_iter (rc_chunks (cc_raw_cache c')) = lhm_iter (rc_chunks saved_cache) /\
    rc_total_size (cc_raw_cache c') = rc_total_size saved_cache.
Proof.
  cbv zeta. destruct (@cache_survives_crash toy_blake3 toy_blake3_spec toy_zstd toy_zstd_spec AList _ _ sample_path 100 3 dirty_cache ∅
    (mkWriter clean_cache {[ sample_path := saved_file ]} Sleeping [saved_cache])) as [H|(raw & Hin & H & _)].
  - by vm_compute.
  - done.
  - exact saved_cache_verified.
  - eapply rtc_l; [by apply w_dirty|]. eapply rtc_l; [by apply (w_partial _ _ _ _ _ _ _ (Some [Byte.x28]))|].
    eapply rtc_l; [by apply (w_written _ _ _ _ _ _ _ saved_file)|]. eapply rtc_l; [by apply w_renamed|].
    match goal with |- rtc _ ?s _ => have -> : s = mkWriter clean_cache {[ sample_path := saved_file ]} Sleeping [saved_cache] by vm_compute end.
    apply rtc_refl.
  - exfalso. by vm_compute in H.
  - apply list_elem_of_singleton in Hin as ->. apply H. by repeat (constructor; [done|]).
Defined.

Example failed_save_sample :
  exists e c' d', @try_save toy_zstd AList _ sample_path dirty_cache 3 (WriteFails (Some [Byte.x28])) ∅ = (Err e, c', d') /\
    d' !! sample_path = (∅ : Disk) !! sample_path /\ cc_raw_cache c' = saved_cache /\
    @start_writer toy_zstd AList _ sample_path c' 3 [NoFault; NoFault] d' = (c', d').
Proof.
  by apply (@failed_save_not_retried toy_zstd AList _ sample_path 3 dirty_cache (WriteFails (Some [Byte.x28])) ∅ [NoFault; NoFault]).
Qed.
