(* ===== verification/ProtocolUtils.v ===== *)
(** * Messages and chunk transfer

    Models common/src/protocol_utils.rs: length-prefixed messages, the server's
    loop [provide_chunks_as_requested], and [ChunkFetcherProvider], the
    [ChunkProvider] that fetches missing chunks in batches of at most 512 through
    the chunk cache.

    Third-party code is a parameter: [rmp_serde] ([RmpSerde], per message type) and
    [zstd] ([Zstd]).  A bidirectional stream is seen from the client: the bytes it has
    written, and how many of the other end's bytes it has read.  The other end is a
    function from all the bytes written so far to all the bytes it answers with; a read
    that finds too few of them meets the end of the stream. *)

From Stdlib Require Import ssreflect.
From stdpp Require Import base numbers list gmap strings.
From S2P Require Import Prelude Buf Chunker Dedup ChunkCache.

#[local] Open Scope general_if_scope.

(** ** Messages *)

Definition MESSAGE_SIZE_LIMIT : Z := 20000000.

Class RmpSerde (T : Type) := {
  rmp_write : T -> result bytes;
  rmp_from_read : reader -> result T;
}.

Record MessageTransport := mkTransport { compression_level : Z }.

Section messages.
Context `{Zstd, RmpSerde T}.

Definition encode_message (t : MessageTransport) (message : T) : result bytes :=
  data ← rmp_write message; zstd_compress (compression_level t) data.

Definition decode_message (msg_data : bytes) : result T :=
  rmp_from_read (zstd_decoder msg_data).

(** The same on a blocking thread. *)
Definition encode_message_async (t : MessageTransport) (message : T) : result bytes :=
  spawn_blocking (encode_message t message).

Definition decode_message_async (msg_data : bytes) : result T :=
  spawn_blocking (decode_message msg_data).

Lemma encode_async_ok t message b : encode_message t message = Ok b -> encode_message_async t message = Ok b.
Proof. apply spawn_blocking_ok. Qed.

Lemma decode_async_ok msg_data message : decode_message msg_data = Ok message -> decode_message_async msg_data = Ok message.
Proof. apply spawn_blocking_ok. Qed.
End messages.

(** The bytes [write_message] puts on a stream that takes them.  Streams on which a write
    fails or waits are in AnyPeer.v. *)
Definition write_message (msg_data : bytes) : result bytes :=
  if MESSAGE_SIZE_LIMIT <? len msg_data then Panic "Message size exceeded limit"
  else Ok (put_u32_le (len msg_data) ++ msg_data).

(** The message and the rest of a stream that ends after [io].  Streams on which a read
    waits for more are in AnyPeer.v. *)
Definition read_message (io : bytes) : result (bytes * bytes) :=
  '(size_bytes, io) ← read_exact 4 io;
  let msg_size := le_val size_bytes in
  if MESSAGE_SIZE_LIMIT <? msg_size then Panic "Message size exceeded limit"
  else read_exact msg_size io.

(** A stream that the client opened: what it wrote into its sending half, and how far
    it has read the receiving half. *)
Record Stream := mkStream { st_sent : bytes; st_read : Z }.

Definition stream_write (b : bytes) (s : Stream) : Stream := mkStream (st_sent s ++ b) (st_read s).

(** [read_message] on the receiving half, whose other end is [peer]: it answers at once all
    that was sent to it, and then ends the stream. *)
Definition stream_read_message (peer : bytes -> bytes) (s : Stream) : result (bytes * Stream) :=
  '(msg_data, _) ← read_message (zdrop (st_read s) (peer (st_sent s)));
  Ok (msg_data, mkStream (st_sent s) (st_read s + 4 + len msg_data)).

Record RequestChunksMessage := mkRequestChunks { requested_chunks : list ChunkKey }.
Record SendChunksMessage := mkSendChunks { sent_chunks : list bytes }.

(** ** The server *)

Section provide.
Context `{Zstd, RmpSerde RequestChunksMessage, RmpSerde SendChunksMessage}.

(** The answer to one request. *)
Definition answer_request (t : MessageTransport) (chunks : gmap ChunkKey bytes) (request_data : bytes)
  : result bytes :=
  request ← decode_message_async (T := RequestChunksMessage) request_data;
  found ← collect (fun key =>
    ok_or (chunks !! key) (Anyhow "Client requested chunk that we don't have")) (requested_chunks request);
  encode_message_async t (mkSendChunks found).

(** [provide_chunks_as_requested]: what it writes, and the number of bytes
    transferred or the error.  Every message takes at least four bytes of the
    stream: the fuel is the length of the stream. *)
Fixpoint provide_chunks (fuel : nat) (t : MessageTransport) (chunks : gmap ChunkKey bytes)
    (io : bytes) (total_transferred : Z) : bytes * result Z :=
  match read_message io with
  | Ok (request_data, io) =>
      match (response_data ← answer_request t chunks request_data;
             written ← write_message response_data;
             Ok (written, len response_data)) with
      | Ok (written, response_len) =>
          match fuel with
          | O => ([], Panic "out of fuel")
          | S fuel =>
              let '(out, r) := provide_chunks fuel t chunks io
                (total_transferred + len request_data + response_len) in
              (written ++ out, r)
          end
      | Err e => ([], Err e)
      | Panic p => ([], Panic p)
      end
  | Err _ => ([], Ok total_transferred)
  | Panic p => ([], Panic p)
  end.

Definition provide_chunks_as_requested (t : MessageTransport) (chunks : gmap ChunkKey bytes) (io : bytes)
  : bytes * result Z :=
  provide_chunks (length io) t chunks io 0.
End provide.

(** ** The fetching provider *)

Record ChunkFetcherProvider (M : Type) := mkFetcher {
  cf_chunk_cache : ChunkCache M;
  cf_stream : Stream;
  cf_local_cache : gmap ChunkKey bytes;
  cf_pending_chunks : list ChunkKey;
  cf_total_transferred : Z;
}.
Arguments mkFetcher {M}.
Arguments cf_chunk_cache {M}.
Arguments cf_stream {M}.
Arguments cf_local_cache {M}.
Arguments cf_pending_chunks {M}.
Arguments cf_total_transferred {M}.

Definition FETCH_BATCH_SIZE : Z := 512.

Section fetcher.
Context `{Blake3, Zstd, RmpSerde RequestChunksMessage, RmpSerde SendChunksMessage, LinkedHashMap M}.
Context (t : MessageTransport) (peer : bytes -> bytes).
(** The cache once the events a task waits for are closed: what the other tasks
    did in the meantime.  Here the other tasks use the cache only while this one waits for
    them; they use it at any step in SharedCache.v, and it may also be poisoned, or the wait
    never end, in AnyPeer.v. *)
Context (others : ChunkCache M -> list (ChunkKey * nat) -> ChunkCache M).

Definition ChunkFetcherProvider_new (cache : ChunkCache M) (stream : Stream) : ChunkFetcherProvider M :=
  mkFetcher cache stream ∅ [] 0.

Definition fetcher_prefetch (ks : list ChunkKey) (s : ChunkFetcherProvider M) : ChunkFetcherProvider M :=
  mkFetcher (cf_chunk_cache s) (cf_stream s) (cf_local_cache s)
    (cf_pending_chunks s ++ filter (fun k => cf_local_cache s !! k = None) ks) (cf_total_transferred s).

(** The verification loop: insert the chunks with the right digest, stop at the
    first wrong one. *)
Fixpoint accept_chunks (batch : list (ChunkKey * bytes)) (local : gmap ChunkKey bytes)
  : result unit * gmap ChunkKey bytes :=
  match batch with
  | [] => (Ok tt, local)
  | (key, chunk) :: batch =>
      if decide (blake3_hash chunk = key) then accept_chunks batch (<[key := chunk]> local)
      else (Err (Anyhow "Chunk hash mismatch"), local)
  end.

Definition add_transferred (n : Z) (s : ChunkFetcherProvider M) : ChunkFetcherProvider M :=
  mkFetcher (cf_chunk_cache s) (cf_stream s) (cf_local_cache s) (cf_pending_chunks s) (cf_total_transferred s + n).

Definition set_stream (stream : Stream) (s : ChunkFetcherProvider M) : ChunkFetcherProvider M :=
  mkFetcher (cf_chunk_cache s) stream (cf_local_cache s) (cf_pending_chunks s) (cf_total_transferred s).

(** What [fetch_chunk_batch] does with a response: verify, then fulfill. *)
Definition accept_response (b : BatchChunkRequest) (chunks : list bytes) (s : ChunkFetcherProvider M)
  : result unit * ChunkFetcherProvider M :=
  let '(r, local) := accept_chunks (zip (br_batch_keys b) chunks) (cf_local_cache s) in
  let s := mkFetcher (cf_chunk_cache s) (cf_stream s) local (cf_pending_chunks s) (cf_total_transferred s) in
  match (_ ← r; BatchChunkRequest_fulfill (cf_chunk_cache s) b chunks) with
  | Ok cache => (Ok tt, mkFetcher cache (cf_stream s) local (cf_pending_chunks s) (cf_total_transferred s))
  | Err e => (Err e, s)
  | Panic p => (Panic p, s)
  end.

(** What it does with the batch it was given. *)
Definition fetch_batch (b : BatchChunkRequest) (s : ChunkFetcherProvider M)
  : result unit * ChunkFetcherProvider M :=
  match encode_message_async t (mkRequestChunks (br_batch_keys b)) with
  | Ok request_data =>
      let s := add_transferred (len request_data) s in
      match write_message request_data with
      | Ok written =>
          let s := set_stream (stream_write written (cf_stream s)) s in
          match stream_read_message peer (cf_stream s) with
          | Ok (response_data, stream) =>
              let s := add_transferred (len response_data) (set_stream stream s) in
              match decode_message_async (T := SendChunksMessage) response_data with
              | Ok response => accept_response b (sent_chunks response) s
              | Err e => (Err e, s)
              | Panic p => (Panic p, s)
              end
          | Err e => (Err e, s)
          | Panic p => (Panic p, s)
          end
      | Err e => (Err e, s)
      | Panic p => (Panic p, s)
      end
  | Err e => (Err e, s)
  | Panic p => (Panic p, s)
  end.

Definition fetch_chunk_batch (s : ChunkFetcherProvider M) : result unit * ChunkFetcherProvider M :=
  match get_chunks_batched (cf_chunk_cache s) (cf_pending_chunks s) (cf_local_cache s) FETCH_BATCH_SIZE with
  | Ok (outcome, pending, local, cache) =>
      let s := mkFetcher cache (cf_stream s) local pending (cf_total_transferred s) in
      match outcome with
      | AllServed => (Ok tt, s)
      | WaitFor w =>
          match get_chunks_awaited (others cache w) w local with
          | Ok (cache, local) => (Ok tt, mkFetcher cache (cf_stream s) local pending (cf_total_transferred s))
          | Err e => (Err e, s)
          | Panic p => (Panic p, s)
          end
      | Fetch b => fetch_batch b s
      end
  | Err e => (Err e, s)
  | Panic p => (Panic p, s)
  end.

(** The loop of [get_chunk]; every iteration takes keys off [pending_chunks]. *)
Fixpoint get_chunk_loop (fuel : nat) (key : ChunkKey) (s : ChunkFetcherProvider M)
  : result bytes * ChunkFetcherProvider M :=
  match cf_local_cache s !! key with
  | Some chunk => (Ok chunk, s)
  | None =>
      match cf_pending_chunks s with
      | [] => (Panic "Chunk was requested without being prefetched first", s)
      | _ =>
          match fuel with
          | O => (Panic "out of fuel", s)
          | S fuel =>
              match fetch_chunk_batch s with
              | (Ok _, s) => get_chunk_loop fuel key s
              | (Err e, s) => (Err e, s)
              | (Panic p, s) => (Panic p, s)
              end
          end
      end
  end.

Definition fetcher_get_chunk (key : ChunkKey) (s : ChunkFetcherProvider M)
  : result bytes * ChunkFetcherProvider M :=
  get_chunk_loop (length (cf_pending_chunks s)) key s.

Definition fetcher_provider : ChunkProvider (ChunkFetcherProvider M) := {|
  prefetch := fetcher_prefetch;
  get_chunk := fetcher_get_chunk;
|}.

(** [chunk_cache.mark_dirty()] on the cache of the fetcher. *)
Definition fetcher_mark_dirty (s : ChunkFetcherProvider M) : ChunkFetcherProvider M :=
  mkFetcher (ChunkCache_mark_dirty (cf_chunk_cache s)) (cf_stream s) (cf_local_cache s) (cf_pending_chunks s)
    (cf_total_transferred s).
End fetcher.

(** ** Messages: laws and round trips *)

Definition sum_z (l : list Z) : Z := foldr Z.add 0 l.

(** MessagePack: a structure and its array take at most eight bytes, a binary
    string five and its length, a 32-byte digest at most 70. *)
Definition request_size (m : RequestChunksMessage) : Z :=
  8 + sum_z ((fun k => 6 + 2 * len k) <$> requested_chunks m).
Definition send_size (m : SendChunksMessage) : Z :=
  8 + sum_z ((fun c => 5 + len c) <$> sent_chunks m).

Class RmpSpec (T : Type) {R : RmpSerde T} (size : T -> Z) : Prop := {
  rmp_total m : size m < 2 ^ 32 -> exists b, rmp_write m = Ok b /\ len b <= size m;
  rmp_recovers m b : rmp_write m = Ok b -> rmp_from_read (b, UnexpectedEof) = Ok m;
}.

(** The bound of the compressed size, below [ZSTD_compressBound] for all lengths. *)
Class ZstdBound (Z : Zstd) : Prop :=
  zstd_bounded : forall level data, exists b,
    zstd_compress level data = Ok b /\ len b <= len data + len data / 128 + 1024.

Lemma write_message_ok m : len m <= MESSAGE_SIZE_LIMIT -> write_message m = Ok (put_u32_le (len m) ++ m).
Proof. move=> H. rw /write_message. by case: Z.ltb_spec => // ?; lia. Qed.

Lemma read_written m rest :
  len m <= MESSAGE_SIZE_LIMIT -> read_message ((put_u32_le (len m) ++ m) ++ rest) = Ok (m, rest).
Proof.
  move=> H. rw /read_message -app_assoc read_exact_app; [len_lia|]. rw bind_ok.
  rw le_val_le_bytes; [rw /in_u; rw /MESSAGE_SIZE_LIMIT in H; cbn; lia|].
  case: Z.ltb_spec => ?; [lia|]. by rw read_exact_app.
Qed.

Section transport.
Context `{HZ : Zstd} {HZS : ZstdSpec HZ} {HZB : ZstdBound HZ}.
Context {T : Type} `{HR : RmpSerde T} {size : T -> Z} {HRS : RmpSpec T size}.

(** A message whose size allows it fits the limit and is read back. *)
Lemma message_roundtrip t m :
  0 <= size m -> size m + size m / 128 + 1024 <= MESSAGE_SIZE_LIMIT ->
  exists b, encode_message t m = Ok b /\ len b <= MESSAGE_SIZE_LIMIT /\ decode_message b = Ok m.
Proof.
  move=> H0 Hsz. rw /MESSAGE_SIZE_LIMIT in Hsz *.
  have Hdiv : 0 <= size m / 128 by apply Z.div_pos.
  destruct (rmp_total m) as (d & Hd & Hdl); [lia|]. destruct (zstd_bounded (compression_level t) d) as (b & Hb & Hbl).
  exists b. rw /encode_message Hd bind_ok Hb. split; [done|]. split.
  - have : len d / 128 <= size m / 128 by apply Z.div_le_mono. lia.
  - by rw /decode_message (zstd_recovers _ _ _ Hb) (rmp_recovers _ _ Hd).
Qed.
End transport.

(** ** The exchange of one batch *)

Definition MAX_BLOB_SIZE : Z := 5 + 32 * MAX_CHUNKS_IN_LIST.

Lemma sum_z_le (l : list Z) n mx : Forall (fun x => x <= mx) l -> len l <= n -> 0 <= mx -> sum_z l <= n * mx.
Proof.
  move=> Hf Hl Hm. have : sum_z l <= len l * mx; last by nia.
  elim: Hf {Hl} => [|x l' Hx _ IH] /=; [lia|]. lia.
Qed.

Lemma sum_z_pos (l : list Z) : Forall (fun x => 0 <= x) l -> 0 <= sum_z l.
Proof. elim => [|x l' Hx _ IH] /=; lia. Qed.

Section exchange.
Context `{HZ : Zstd} {HZS : ZstdSpec HZ} {HZB : ZstdBound HZ}.
Context `{HRq : RmpSerde RequestChunksMessage} {HRqS : RmpSpec RequestChunksMessage request_size}.
Context `{HRs : RmpSerde SendChunksMessage} {HRsS : RmpSpec SendChunksMessage send_size}.
Context (t : MessageTransport) (chunks : gmap ChunkKey bytes).
(** The chunks a server offers are blobs of the deduplication. *)
Context (Hblobs : forall k c, chunks !! k = Some c -> length k = 32%nat /\ len c <= MAX_BLOB_SIZE).

(** A request the fetcher can make of this server. *)
Definition good_request (keys : list ChunkKey) : Prop :=
  len keys <= FETCH_BATCH_SIZE /\ Forall (fun k => is_Some (chunks !! k)) keys.

Definition found (keys : list ChunkKey) : list bytes := (fun k => default [] (chunks !! k)) <$> keys.

Lemma request_fits keys : good_request keys ->
  exists b, encode_message t (mkRequestChunks keys) = Ok b /\ len b <= MESSAGE_SIZE_LIMIT /\
    decode_message b = Ok (mkRequestChunks keys).
Proof.
  intros [Hl Hk]. apply (message_roundtrip (size := request_size)).
  - have H : 0 <= sum_z ((fun k : ChunkKey => 6 + 2 * len k) <$> keys).
    { apply sum_z_pos, Forall_fmap, Forall_true. cbn. lia. }
    rw /request_size. cbn [requested_chunks]. by apply Z.add_nonneg_nonneg.
  - have H : request_size (mkRequestChunks keys) <= 8 + 512 * 70; last first.
    { rw /MESSAGE_SIZE_LIMIT. move: (request_size _) H => n H. pose proof (Z.div_le_mono _ _ 128 ltac:(lia) H) as H'.
      change ((8 + 512 * 70) / 128) with 280 in H'. lia. }
    rw /request_size. cbn [requested_chunks]. apply Z.add_le_mono_l, sum_z_le; [|by rw length_fmap|done].
    apply Forall_fmap. eapply Forall_impl; [exact Hk|]. cbn. move=> k [c /Hblobs [-> _]]. done.
Qed.

Lemma response_fits keys : good_request keys ->
  exists b, encode_message t (mkSendChunks (found keys)) = Ok b /\ len b <= MESSAGE_SIZE_LIMIT /\
    decode_message b = Ok (mkSendChunks (found keys)).
Proof.
  intros [Hl Hk]. apply (message_roundtrip (size := send_size)).
  - have H : 0 <= sum_z ((fun c : bytes => 5 + len c) <$> found keys).
    { apply sum_z_pos, Forall_fmap, Forall_true. cbn. lia. }
    rw /send_size. cbn [sent_chunks]. by apply Z.add_nonneg_nonneg.
  - have H : send_size (mkSendChunks (found keys)) <= 8 + 512 * (5 + 16389); last first.
    { rw /MESSAGE_SIZE_LIMIT. move: (send_size _) H => n H. pose proof (Z.div_le_mono _ _ 128 ltac:(lia) H) as H'.
      change ((8 + 512 * (5 + 16389)) / 128) with 65576 in H'. lia. }
    rw /send_size. cbn [sent_chunks]. apply Z.add_le_mono_l, sum_z_le; [|by rw /found !length_fmap|done].
    rw /found. apply Forall_fmap, Forall_fmap. eapply Forall_impl; [exact Hk|]. cbn beta.
    move=> k [c Hc]. rw /compose Hc. cbn. have := proj2 (Hblobs k c Hc). rw /MAX_BLOB_SIZE /MAX_CHUNKS_IN_LIST. lia.
Qed.

Lemma answer_request_ok keys b :
  good_request keys -> decode_message b = Ok (mkRequestChunks keys) ->
  answer_request t chunks b = encode_message_async t (mkSendChunks (found keys)).
Proof.
  intros [_ Hk] Hb. rw /answer_request (decode_async_ok _ _ Hb) bind_ok. cbn [requested_chunks].
  rw (collect_ok _ (fun k => default [] (chunks !! k))); [|by rw bind_ok].
  move=> k Hin. by destruct (proj1 (Forall_forall _ _) Hk k Hin) as [c ->].
Qed.

(** A message as it is on the stream. *)
Definition framed (b : bytes) : bytes := put_u32_le (len b) ++ b.

Lemma provide_chunks_cons keys req resp io fuel total :
  good_request keys -> encode_message t (mkRequestChunks keys) = Ok req ->
  encode_message t (mkSendChunks (found keys)) = Ok resp -> len resp <= MESSAGE_SIZE_LIMIT ->
  provide_chunks (S fuel) t chunks (framed req ++ io) total =
    let '(out, r) := provide_chunks fuel t chunks io (total + len req + len resp) in (framed resp ++ out, r).
Proof.
  move=> Hg Hq Hs Hl. destruct (request_fits keys Hg) as (b & Hb & Hbl & Hdec). rw Hq in Hb. injection Hb as <-.
  cbn [provide_chunks]. rw read_written // (answer_request_ok keys) // (encode_async_ok _ _ _ Hs) bind_ok write_message_ok // bind_ok.
Qed.

Lemma provide_chunks_nil fuel total : provide_chunks fuel t chunks [] total = ([], Ok total).
Proof. by destruct fuel. Qed.

(** A request of the fetcher and its answer, as they are on the stream without the
    lengths. *)
Definition exchange (e : bytes * bytes) : Prop :=
  exists keys, good_request keys /\ encode_message t (mkRequestChunks keys) = Ok (fst e) /\
    encode_message t (mkSendChunks (found keys)) = Ok (snd e) /\ len (snd e) <= MESSAGE_SIZE_LIMIT.

Definition requests_of (es : list (bytes * bytes)) : bytes := concat ((fun e => framed (fst e)) <$> es).
Definition responses_of (es : list (bytes * bytes)) : bytes := concat ((fun e => framed (snd e)) <$> es).
Definition exchanged (es : list (bytes * bytes)) : Z := sum_z ((fun e => len (fst e) + len (snd e)) <$> es).

Lemma length_framed b : length (framed b) = (4 + length b)%nat.
Proof. by rw /framed; len_norm. Qed.

Lemma provide_exchanges_fuel es fuel total :
  Forall exchange es -> (length (requests_of es) <= fuel)%nat ->
  provide_chunks fuel t chunks (requests_of es) total = (responses_of es, Ok (total + exchanged es)).
Proof.
  move=> Hes. elim: Hes fuel total => [|[req resp] es' Hex _ IH] fuel total.
  { move=> _. rw provide_chunks_nil. cbn. by rw Z.add_0_r. }
  rw /requests_of /responses_of /exchanged. cbn [fmap list_fmap concat sum_z foldr fst snd].
  rw length_app length_framed => Hlen. destruct fuel as [|fuel]; [lia|].
  destruct Hex as (keys & Hg & Hq & Hr & Hl). cbn [fst snd] in Hq, Hr, Hl.
  rw (provide_chunks_cons keys req resp) // -/(requests_of es') IH; [rw /requests_of; lia|].
  rw /responses_of /exchanged /sum_z. do 2 f_equal. lia.
Qed.

(** The server's loop on the requests of a whole stream. *)
Lemma provide_exchanges es :
  Forall exchange es ->
  provide_chunks_as_requested t chunks (requests_of es) = (responses_of es, Ok (exchanged es)).
Proof. move=> Hes. rw /provide_chunks_as_requested provide_exchanges_fuel //. Qed.

Lemma exchange_intro keys :
  good_request keys -> exists e, exchange e /\ encode_message t (mkRequestChunks keys) = Ok (fst e) /\
    len (fst e) <= MESSAGE_SIZE_LIMIT /\ len (snd e) <= MESSAGE_SIZE_LIMIT /\
    decode_message (snd e) = Ok (mkSendChunks (found keys)).
Proof.
  move=> Hg. destruct (request_fits keys Hg) as (b & Hb & Hbl & _).
  destruct (response_fits keys Hg) as (r & Hr & Hrl & Hd). exists (b, r). split_and!; try done. by exists keys.
Qed.

Lemma exchange_all requests :
  Forall good_request requests -> exists es, Forall exchange es /\
    Forall2 (fun keys e => encode_message t (mkRequestChunks keys) = Ok (fst e) /\
               decode_message (snd e) = Ok (mkSendChunks (found keys)) /\
               len (snd e) <= MESSAGE_SIZE_LIMIT) requests es.
Proof.
  elim => [|keys requests' Hg _ [es [Hes H2]]]; first by exists [].
  destruct (exchange_intro keys Hg) as (e & He & Hq & _ & Hl & Hd). exists (e :: es). by split; constructor.
Qed.

Lemma requests_of_snoc es e : requests_of (es ++ [e]) = requests_of es ++ framed (fst e).
Proof. by rw /requests_of fmap_app concat_app /= app_nil_r. Qed.
Lemma responses_of_snoc es e : responses_of (es ++ [e]) = responses_of es ++ framed (snd e).
Proof. by rw /responses_of fmap_app concat_app /= app_nil_r. Qed.
Lemma exchanged_snoc es e : exchanged (es ++ [e]) = exchanged es + len (fst e) + len (snd e).
Proof. rw /exchanged /sum_z. elim: es => [|e' es IH]; cbn [app fmap list_fmap foldr]; [lia|]. rw IH. lia. Qed.
End exchange.

(** ** The fetcher as a provider *)

Section fetcher_proofs.
Context `{Hb : Blake3} `{HZ : Zstd} {HZS : ZstdSpec HZ} {HZB : ZstdBound HZ}.
Context `{HRq : RmpSerde RequestChunksMessage} {HRqS : RmpSpec RequestChunksMessage request_size}.
Context `{HRs : RmpSerde SendChunksMessage} {HRsS : RmpSpec SendChunksMessage send_size}.
Context `{HM : LinkedHashMap M} {HMS : LinkedHashMapSpec M}.
Context (t : MessageTransport) (chunks : gmap ChunkKey bytes).
Context (others : ChunkCache M -> list (ChunkKey * nat) -> ChunkCache M).
Context (Hblobs : forall k c, chunks !! k = Some c -> length k = 32%nat /\ len c <= MAX_BLOB_SIZE).
Context (Hdigest : forall k c, chunks !! k = Some c -> blake3_hash c = k).
(** The chunks that any server of this run offers, this one's among them. *)
Context (known : gmap ChunkKey bytes) (Hknown : chunks ⊆ known).

(** What the server's loop writes for the requests it reads. *)
Definition server_peer (io : bytes) : bytes := fst (provide_chunks_as_requested t chunks io).

(** The other end of the stream: after the bytes that open the stream, it greets the
    client and answers its requests. *)
Context (peer : bytes -> bytes) (opening greeting : bytes).
Context (Hpeer : forall io, peer (opening ++ io) = greeting ++ server_peer io).

(** The fetcher has exchanged requests and answers with that server, and nothing of
    what the server wrote is left to read. *)
Definition stream_inv (s : ChunkFetcherProvider M) : Prop :=
  exists es, Forall (exchange t chunks) es /\
    cf_stream s = mkStream (opening ++ requests_of es) (len greeting + len (responses_of es)) /\
    cf_total_transferred s = exchanged es.

(** The cache agrees with the servers where both know a chunk.  Other tasks may be
    fetching. *)
Definition cache_agrees (c : ChunkCache M) : Prop :=
  raw_inv (cc_raw_cache c) /\
  rc_max_size (cc_raw_cache c) + MAX_BLOB_SIZE < 2 ^ 64 /\
  (forall k v v', (k, v) ∈ raw_entries (cc_raw_cache c) -> known !! k = Some v' -> v = v').

(** The other tasks deliver what this one waits for: they fulfill their batches, none is
    abandoned, and the awaited chunks are still in the cache when this task goes on. *)
Definition others_deliver : Prop := forall c w,
  cache_agrees c -> Forall (fun r => is_Some (known !! fst r) /\ cc_pending_chunks c !! fst r = Some (snd r)) w ->
  cache_agrees (others c w) /\
  Forall (fun r => snd r ∈ cc_closed (others c w) /\ is_Some (assoc (fst r) (raw_entries (cc_raw_cache (others c w))))) w.

Definition fetcher_inv (s : ChunkFetcherProvider M) : Prop :=
  cache_agrees (cf_chunk_cache s) /\
  (forall k v, cf_local_cache s !! k = Some v -> chunks !! k = Some v) /\
  Forall (fun k => is_Some (chunks !! k)) (cf_pending_chunks s) /\
  stream_inv s.

Definition fetcher_ready (s : ChunkFetcherProvider M) (k : ChunkKey) : Prop :=
  is_Some (cf_local_cache s !! k) \/ k ∈ cf_pending_chunks s.

Lemma accept_chunks_ok keys local :
  Forall (fun k => is_Some (chunks !! k)) keys ->
  (forall k v, local !! k = Some v -> chunks !! k = Some v) ->
  exists local', accept_chunks (zip keys (found chunks keys)) local = (Ok tt, local') /\
    (forall k v, local' !! k = Some v -> chunks !! k = Some v) /\
    (forall k, k ∈ keys \/ is_Some (local !! k) -> is_Some (local' !! k)).
Proof.
  elim: keys local => [|k keys IH] local Hk Hl.
  { exists local. split_and!; try done. move=> k [Hin|]; [by inversion Hin|done]. }
  apply Forall_cons in Hk as [[c Hc] Hk]. cbn [found fmap list_fmap zip zip_with accept_chunks].
  rw Hc. change (default [] (Some c)) with c. destruct (decide (blake3_hash c = k)) as [_|Hn]; [|by destruct (Hn (Hdigest k c Hc))].
  destruct (IH (<[k := c]> local) Hk) as (local' & Heq & Hok & Hin).
  { move=> k' v. destruct (decide (k' = k)) as [->|Hne].
    - rw lookup_insert_eq. by move=> [= <-].
    - rw lookup_insert_ne //. apply Hl. }
  exists local'. split_and!; try done. move=> k' Hk'. apply Hin.
  destruct (decide (k' = k)) as [->|Hne]; [right; by rw lookup_insert_eq|].
  destruct Hk' as [[?|?]%elem_of_cons|?]; [done|by left|right; by rw lookup_insert_ne].
Qed.

(** One more request and its answer. *)
Lemma peer_answers es e :
  Forall (exchange t chunks) es -> exchange t chunks e -> len (snd e) <= MESSAGE_SIZE_LIMIT ->
  stream_read_message peer (stream_write (framed (fst e))
      (mkStream (opening ++ requests_of es) (len greeting + len (responses_of es)))) =
    Ok (snd e, mkStream (opening ++ requests_of (es ++ [e])) (len greeting + len (responses_of (es ++ [e])))).
Proof.
  move=> Hes He Hl. rw /stream_read_message /stream_write. cbn [st_sent st_read].
  rw -app_assoc -requests_of_snoc Hpeer /server_peer (provide_exchanges t chunks Hblobs).
  { apply Forall_app. by split; [|constructor]. }
  cbn [fst]. rw responses_of_snoc app_assoc. have -> : len greeting + len (responses_of es) = len (greeting ++ responses_of es) by len_lia.
  rw zdrop_app // -(app_nil_r (framed (snd e))) /framed read_written // bind_ok.
  do 2 f_equal. rw app_nil_r. f_equal. len_lia.
Qed.

(** The server's view of the same exchange: its loop ends with the stream, without an
    error, and counts the same bytes. *)
Lemma stream_served s :
  stream_inv s -> exists io, st_sent (cf_stream s) = opening ++ io /\
    snd (provide_chunks_as_requested t chunks io) = Ok (cf_total_transferred s).
Proof.
  intros (es & Hes & -> & ->). exists (requests_of es). split; [done|]. by rw (provide_exchanges t chunks Hblobs).
Qed.

Lemma stream_inv_new cache : stream_inv (ChunkFetcherProvider_new cache (mkStream opening (len greeting))).
Proof. exists []. split_and!; [done| |done]. cbn. by rw app_nil_r Z.add_0_r. Qed.

Lemma fetcher_inv_new cache :
  cache_agrees cache -> fetcher_inv (ChunkFetcherProvider_new cache (mkStream opening (len greeting))).
Proof. move=> Hc. split_and!; [done| |done|by apply stream_inv_new]. move=> k v. cbn. by rw lookup_empty. Qed.

Lemma fulfill_agrees c keys event raw' :
  cache_agrees c -> NoDup keys -> Forall (fun k => is_Some (chunks !! k)) keys ->
  raw_inv raw' -> raw_entries raw' ≡ₚ raw_entries (cc_raw_cache c) ->
  rc_max_size raw' = rc_max_size (cc_raw_cache c) ->
  exists c', BatchChunkRequest_fulfill
      (mkChunkCache raw' (foldl (fun p key => <[key := event]> p) (cc_pending_chunks c) keys)
        (cc_needs_saving c) (S event) (cc_closed c)) (mkBatch event keys) (found chunks keys) = Ok c' /\
    cache_agrees c'.
Proof.
  intros (Hinv & Hmx & Hag) Hnd Hk Hr Hpe Hm. rw /BatchChunkRequest_fulfill. cbn [br_batch_keys].
  rw /found length_fmap Nat.eqb_refl. cbn [negb]. rw -/(found chunks keys).
  have Hfst : (zip keys (found chunks keys)).*1 = keys by apply fst_zip; rw /found length_fmap.
  have Hz e : e ∈ zip keys (found chunks keys) -> chunks !! fst e = Some (snd e).
  { rw /found. clear -Hk. elim: Hk => [|k ks [c Hc] _ IH] /=; first by inversion 1.
    move=> /elem_of_cons [->|He]; [by rw Hc|by apply IH]. }
  destruct (put_batch_ok (zip keys (found chunks keys)) raw'
    (foldl (fun p key => <[key := event]> p) (cc_pending_chunks c) keys)) as (raw2 & p2 & Heq & Hinv2 & Hm2 & Hent & Hpend).
  { done. }
  { apply Forall_forall => e /Hz He. rw Hm. have := proj2 (Hblobs _ _ He). lia. }
  cbn [cc_raw_cache cc_pending_chunks]. rw Heq bind_ok. eexists. split; [done|]. split_and!; cbn; [done| |].
  - by rw Hm2 Hm.
  - move=> k v v' /Hent [Hin|/Hz Hin] Hv.
    + rw Hpe in Hin. by eapply Hag.
    + apply (lookup_weaken _ _ _ _ Hin) in Hknown. cbn in Hknown. congruence.
Qed.

(** A batch is requested, verified and put into the cache, whatever else is in it. *)
Lemma fetch_batch_ok b s c' :
  good_request chunks (br_batch_keys b) ->
  (forall k v, cf_local_cache s !! k = Some v -> chunks !! k = Some v) -> stream_inv s ->
  BatchChunkRequest_fulfill (cf_chunk_cache s) b (found chunks (br_batch_keys b)) = Ok c' ->
  exists s', fetch_batch t peer b s = (Ok tt, s') /\ cf_chunk_cache s' = c' /\
    cf_pending_chunks s' = cf_pending_chunks s /\
    (forall k v, cf_local_cache s' !! k = Some v -> chunks !! k = Some v) /\
    (forall k, k ∈ br_batch_keys b \/ is_Some (cf_local_cache s !! k) -> is_Some (cf_local_cache s' !! k)) /\
    stream_inv s'.
Proof.
  intros Hg Hl (es & Hes & Hst & Htot) Hful. rw /fetch_batch.
  destruct (exchange_intro t chunks Hblobs (br_batch_keys b) Hg) as (e & Hex & Hb' & Hbl & Hrl & Hdec).
  rw (encode_async_ok _ _ _ Hb') write_message_ok // -/(framed (fst e)).
  cbn [set_stream add_transferred cf_stream]. rw Hst peer_answers // (decode_async_ok _ _ Hdec). cbn [sent_chunks].
  destruct (accept_chunks_ok (br_batch_keys b) (cf_local_cache s) (proj2 Hg) Hl) as (local & Hacc & Hlok & Hlin).
  rw /accept_response. cbn [add_transferred set_stream cf_local_cache cf_chunk_cache cf_pending_chunks].
  rw Hacc bind_ok Hful. eexists. split; [done|]. split_and!; [done|done|exact Hlok|exact Hlin|].
  exists (es ++ [e]). split_and!; [apply Forall_app; by split; [|constructor]|done|].
  cbn. by rw exchanged_snoc Htot.
Qed.

(** After the wait every awaited chunk is taken from the cache. *)
Lemma take_awaited_agrees w raw out :
  raw_inv raw -> (forall k v v', (k, v) ∈ raw_entries raw -> known !! k = Some v' -> v = v') ->
  Forall (fun r => is_Some (chunks !! fst r) /\ is_Some (assoc (fst r) (raw_entries raw))) w ->
  (forall k v, out !! k = Some v -> chunks !! k = Some v) ->
  exists raw' out', take_awaited w raw out = Ok (raw', out') /\ raw_inv raw' /\ rc_max_size raw' = rc_max_size raw /\
    raw_entries raw' ≡ₚ raw_entries raw /\ (forall k v, out' !! k = Some v -> chunks !! k = Some v) /\
    (forall k, k ∈ w.*1 \/ is_Some (out !! k) -> is_Some (out' !! k)).
Proof.
  elim: w raw out => [|[key e] w IH] raw out Hinv Hag Hw Hout; cbn [take_awaited].
  { exists raw, out. split_and!; try done. move=> k [Hk|//]. by inversion Hk. }
  apply Forall_cons in Hw as [[[c Hc] [v Hv]] Hw]. cbn [fst] in Hc, Hv.
  pose proof (get_perm key raw Hinv) as Hg. destruct (RawChunkCache_get key raw) as [r raw1].
  destruct Hg as (-> & Hinv1 & Hm1 & Hp1). rw Hv bind_ok.
  have Hvc : v = c by apply (Hag key v c (assoc_elem _ _ _ Hv) (lookup_weaken _ _ _ _ Hc Hknown)). subst v.
  destruct (IH raw1 (<[key := c]> out)) as (raw' & out' & -> & H1 & H2 & H3 & H4 & H5); try done.
  - move=> k v v'. rw Hp1. apply Hag.
  - eapply Forall_impl; [exact Hw|]. cbn beta. intros r [? ?]. split; [done|].
    rw (assoc_perm (fst r) _ (raw_entries raw)) //. apply raw_nodup.
  - move=> k v. destruct (decide (k = key)) as [->|Hne]; [rw lookup_insert_eq; by intros [= <-]|].
    rw lookup_insert_ne //. apply Hout.
  - exists raw', out'. split_and!; try done; [by rw H2|by rw H3|]. move=> k Hk. apply H5.
    destruct (decide (k = key)) as [->|Hne]; [right; by rw lookup_insert_eq|].
    rw lookup_insert_ne //. destruct Hk as [Hk|Hk]; [left|by right]. cbn in Hk. by apply elem_of_cons in Hk as [?|?].
Qed.

Context (Hothers : others_deliver).

Lemma fetch_chunk_batch_ok s :
  fetcher_inv s -> cf_pending_chunks s <> [] ->
  exists s', fetch_chunk_batch t peer others s = (Ok tt, s') /\ fetcher_inv s' /\
    (forall k, fetcher_ready s k -> fetcher_ready s' k) /\
    (length (cf_pending_chunks s') < length (cf_pending_chunks s))%nat.
Proof.
  intros ((Hinv & Hmx & Hag) & Hl & Hk & (es & Hes & Hst & Htot)) Hne. rw /fetch_chunk_batch.
  destruct (get_chunks_batched_ok (cf_chunk_cache s) (cf_pending_chunks s) (cf_local_cache s) FETCH_BATCH_SIZE)
    as (o & rq & out & c & -> & raw & (G1 & G2 & G3 & (extra & Ge & Gx) & G5 & G6 & G7 & G8 & G9 & G10 & G11) & Ho);
    [done|done|].
  have Hout k v : out !! k = Some v -> chunks !! k = Some v.
  { move=> /G9 [/Hl //|[Hkp Hin]]. destruct (proj1 (Forall_forall _ _) Hk k Hkp) as [v' Hv'].
    by rw (Hag k v v' Hin (lookup_weaken _ _ _ _ Hv' Hknown)). }
  have Hag' : forall k v v', (k, v) ∈ raw_entries raw -> known !! k = Some v' -> v = v'
    by move=> k v v'; rw G3; apply Hag.
  destruct o as [b| |w].
  - destruct Ho as (Hbne & Hev & ->). cbn in Ge. subst extra. destruct b as [ev keys]. cbn [br_batch_keys br_event] in *.
    have Hkeys : Forall (fun k => is_Some (chunks !! k)) keys.
    { eapply Forall_impl; [exact Gx|]. cbn beta. intros k (Hkp & _). exact (proj1 (Forall_forall _ _) Hk k Hkp). }
    have Hg : good_request chunks keys by split; [apply G6|done].
    destruct (fulfill_agrees (cf_chunk_cache s) keys ev raw) as (c' & Hful & Hag2); try done.
    { by apply G5, NoDup_nil_2. }
    match goal with |- context [fetch_batch t peer ?b ?s1] =>
      destruct (fetch_batch_ok b s1 c') as (s' & -> & Hc' & Hpe & Hlok & Hlin & Hst'); try done; [by exists es|] end.
    cbn in Hpe, Hlin. exists s'. split; [done|]. split; [split; [by rw Hc'|split; [exact Hlok|split; [|exact Hst']]]|split].
    + rw Hpe. eapply Forall_impl; [exact G7|]. cbn beta. intros k (Hkp & _). exact (proj1 (Forall_forall _ _) Hk k Hkp).
    + move=> k [Hk'|Hk']; rw /fetcher_ready Hpe; [left; apply Hlin; right; by apply G10|].
      destruct (G8 k Hk') as [?|[?|?]]; [left; apply Hlin; by right|left; apply Hlin; by left|by right].
    + rw Hpe. destruct keys; [done|]. cbn in G11. lia.
  - destruct Ho as [-> ->]. eexists. split; [done|].
    split; [split; [split_and!; cbn; [done|by rw G2|done]|split; [done|split; [by constructor|by exists es]]]|split]; cbn.
    + move=> k [Hk'|Hk']; left; cbn; [by apply G10|]. destruct (G8 k Hk') as [?|[Hn|Hn]]; [done|by inversion Hn..].
    + destruct (cf_pending_chunks s); [done|cbn; lia].
  - destruct Ho as (-> & -> & _ & Hpend).
    have Hwk : Forall (fun r => is_Some (chunks !! fst r)) w.
    { apply Forall_fmap in G7. eapply Forall_impl; [exact G7|]. cbn beta. intros r (Hkp & _). exact (proj1 (Forall_forall _ _) Hk _ Hkp). }
    destruct (Hothers (with_raw (cf_chunk_cache s) raw) w) as [(Hi2 & Hm2 & Hag2) Hw].
    { split_and!; cbn; [done|by rw G2|done]. }
    { apply Forall_forall => r Hr. split; [|exact (proj1 (Forall_forall _ _) Hpend r Hr)].
      destruct (proj1 (Forall_forall _ _) Hwk r Hr) as [c Hc]. exists c. by eapply lookup_weaken. }
    destruct (take_awaited_agrees w (cc_raw_cache (others (with_raw (cf_chunk_cache s) raw) w)) out)
      as (raw3 & out3 & Ht & Hi3 & Hm3 & Hp3 & Hout3 & Hin3); try done.
    { apply Forall_forall => r Hr. split; [exact (proj1 (Forall_forall _ _) Hwk r Hr)|].
      exact (proj2 (proj1 (Forall_forall _ _) Hw r Hr)). }
    rw /get_chunks_awaited Ht bind_ok. eexists. split; [done|].
    split; [split; [split_and!; cbn; [done|by rw Hm3|]|split; [done|split; [by constructor|by exists es]]]|split]; cbn.
    + move=> k v v'. rw Hp3. apply Hag2.
    + move=> k [Hk'|Hk']; left; cbn; apply Hin3; [right; by apply G10|].
      destruct (G8 k Hk') as [?|[Hn|?]]; [by right|by inversion Hn|by left].
    + destruct (cf_pending_chunks s); [done|cbn; lia].
Qed.

Lemma get_chunk_loop_ok fuel key v s :
  fetcher_inv s -> fetcher_ready s key -> chunks !! key = Some v ->
  (length (cf_pending_chunks s) <= fuel)%nat ->
  exists s', get_chunk_loop t peer others fuel key s = (Ok v, s') /\ fetcher_inv s' /\
    forall k, fetcher_ready s k -> fetcher_ready s' k.
Proof.
  elim: fuel s => [|fuel IH] s Hinv Hready Hv Hlen; cbn [get_chunk_loop].
  all: destruct (cf_local_cache s !! key) as [v'|] eqn:Hl.
  1, 3: pose proof Hinv as (_ & Hloc & _); apply Hloc in Hl; exists s; rw Hv in Hl; injection Hl as <-; by split_and!.
  all: destruct Hready as [[? ?]|Hin]; [by rw Hl in H|].
  all: destruct (cf_pending_chunks s) as [|k0 ks] eqn:Hp; [by inversion Hin|].
  - cbn in Hlen. lia.
  - destruct (fetch_chunk_batch_ok s Hinv) as (s1 & -> & Hinv1 & Hr1 & Hlt); [by rw Hp|].
    destruct (IH s1 Hinv1) as (s2 & -> & Hinv2 & Hr2); [apply Hr1; right; by rw Hp|done|rw Hp in Hlt; cbn in *; lia|].
    exists s2. split_and!; auto.
Qed.

(** The fetcher keeps the promise of a provider for the server's chunks. *)
Program Definition fetcher_provider_spec :
  @ProviderSpec (ChunkFetcherProvider M) (fetcher_provider t peer others) (fun k => chunks !! k) :=
  {| prov_inv := fetcher_inv; prov_ready := fetcher_ready |}.
Next Obligation.
  intros ks s (Hc & Hl & Hp & Hs) Hks. split.
  - split; [done|]. split; [done|]. split; [|exact Hs]. cbn. apply Forall_app. split; [done|]. apply Forall_forall => k /list_elem_of_filter [_ Hk].
    exact (proj1 (Forall_forall _ _) Hks k Hk).
  - move=> k Hk. rw /fetcher_ready. cbn. destruct (cf_local_cache s !! k) eqn:E; [by left; eexists|].
    right. apply elem_of_app. destruct Hk as [Hk|[[? Hk]|Hk]]; [right|by rw E in Hk|by left].
    by apply list_elem_of_filter.
Qed.
Next Obligation.
  intros k v s Hinv Hready Hv. cbn. rw /fetcher_get_chunk.
  destruct (get_chunk_loop_ok (length (cf_pending_chunks s)) k v s Hinv Hready Hv) as (s' & ? & ? & ?); [done|].
  by exists s'.
Qed.
End fetcher_proofs.

(** ** Integrity: what holds of every cached chunk

    A predicate on entries that holds of everything put into the caches holds of
    everything they return, whatever the sizes. *)

Section integrity.
Context `{HM : LinkedHashMap M} {HMS : LinkedHashMapSpec M}.
Context (P : ChunkKey * bytes -> Prop).

Definition map_ok (m : gmap ChunkKey bytes) : Prop := forall k v, m !! k = Some v -> P (k, v).
Definition raw_ok (c : RawChunkCache M) : Prop := Forall P (raw_entries c).

Lemma map_ok_insert k v m : map_ok m -> P (k, v) -> map_ok (<[k := v]> m).
Proof.
  move=> Hm Hp k' v'. destruct (decide (k' = k)) as [->|Hne].
  - rw lookup_insert_eq. by move=> [= <-].
  - rw lookup_insert_ne //. apply Hm.
Qed.

Lemma get_keeps k c :
  raw_ok c -> let '(r, c') := RawChunkCache_get k c in
  raw_ok c' /\ match r with Some v => P (k, v) | None => True end.
Proof.
  rw /RawChunkCache_get /raw_ok /raw_entries => Hok. pose proof (lhm_to_back_iter k (rc_chunks c)) as [H1 H2].
  destruct (lhm_to_back k (rc_chunks c)) as [r m]. cbn in *. subst r. rw H2.
  destruct (assoc k (lhm_iter (rc_chunks c))) as [v|] eqn:E; [|done].
  have Hp : P (k, v) by apply (proj1 (Forall_forall _ _) Hok), assoc_elem.
  split; [|done]. apply Forall_app. split; [|by constructor].
  apply Forall_forall => e /list_elem_of_filter [_ He]. exact (proj1 (Forall_forall _ _) Hok e He).
Qed.

Lemma evict_keeps fuel c c' : raw_ok c -> evict fuel c = Ok c' -> raw_ok c'.
Proof.
  rw /raw_ok /raw_entries. elim: fuel c => [|fuel IH] c Hok; cbn [evict].
  all: destruct (_ <? _); [|by intros <-%ok_inj].
  all: pose proof (lhm_pop_front_iter (rc_chunks c)) as [H1 H2]; destruct (lhm_pop_front (rc_chunks c)) as [p m].
  all: cbn in H1, H2; intros ([k v] & _ & H)%bind_ok_inv; try done.
  apply IH in H; [done|]. cbn. rw H2. destruct (lhm_iter (rc_chunks c)); [done|].
  by apply Forall_cons in Hok as [_ ?].
Qed.

Lemma insert_keeps k v c c' : raw_ok c -> P (k, v) -> RawChunkCache_insert k v c = Ok c' -> raw_ok c'.
Proof.
  rw /RawChunkCache_insert => Hok Hp. pose proof (lhm_insert_iter k v (rc_chunks c)) as [_ H2].
  destruct (lhm_insert k v (rc_chunks c)) as [old m]. cbn in H2. apply evict_keeps.
  rw /raw_ok /raw_entries. cbn. rw H2. apply Forall_app. split; [|by constructor].
  apply Forall_forall => e /list_elem_of_filter [_ He]. exact (proj1 (Forall_forall _ _) Hok e He).
Qed.

Lemma put_batch_keeps batch raw pending raw' pending' :
  raw_ok raw -> Forall P batch -> put_batch batch raw pending = Ok (raw', pending') -> raw_ok raw'.
Proof.
  elim: batch raw pending => [|[k v] batch IH] raw pending Hok Hb; cbn [put_batch].
  { by intros [<- _]%ok_pair_inj. }
  apply Forall_cons in Hb as [Hp Hb]. intros (raw1 & H1 & H2)%bind_ok_inv.
  eapply IH; [|done|exact H2]. by eapply insert_keeps.
Qed.

Lemma take_awaited_keeps w raw out raw' out' :
  raw_ok raw -> map_ok out -> take_awaited w raw out = Ok (raw', out') -> raw_ok raw' /\ map_ok out'.
Proof.
  elim: w raw out => [|[k e] w IH] raw out Hr Ho; cbn [take_awaited]; first by intros [<- <-]%ok_pair_inj.
  pose proof (get_keeps k raw Hr) as Hg. destruct (RawChunkCache_get k raw) as [r raw1]. destruct Hg as [Hr1 Hv].
  intros (v & Hr2 & H)%bind_ok_inv. destruct r as [v'|]; [|done]. injection Hr2 as ->.
  eapply IH; [done| |exact H]. by apply map_ok_insert.
Qed.

Lemma retain_keeps rq raw pending sz out batch rt raw' out' batch' :
  raw_ok raw -> map_ok out -> retain_requested rq raw pending sz out batch = (rt, raw', out', batch') ->
  raw_ok raw' /\ map_ok out'.
Proof.
  elim: rq raw out batch rt raw' out' batch' => [|k rq IH] raw out batch rt raw' out' batch' Hr Ho;
    cbn [retain_requested]; first by move=> [= _ <- <- _].
  pose proof (get_keeps k raw Hr) as Hg. destruct (RawChunkCache_get k raw) as [r raw1]. destruct Hg as [Hr1 Hv].
  destruct r as [v|]; [move=> H; eapply IH; [done| |exact H]; by apply map_ok_insert|].
  destruct (_ && _); [by apply IH|].
  destruct (retain_requested rq raw1 pending sz out batch) as [[[rt2 raw2] out2] b2] eqn:E.
  move=> [= _ <- <- _]. by eapply IH.
Qed.

Lemma get_chunks_batched_keeps c rq out sz o rq' out' c' :
  raw_ok (cc_raw_cache c) -> map_ok out -> get_chunks_batched c rq out sz = Ok (o, rq', out', c') ->
  raw_ok (cc_raw_cache c') /\ map_ok out'.
Proof.
  rw /get_chunks_batched => Hr Ho.
  destruct (retain_requested _ _ _ _ _ _) as [[[rt raw'] ou] [|b0 batch]] eqn:E;
    apply retain_keeps in E as [Hr' Ho']; try done.
  - intros (pr & _ & Heq)%bind_ok_inv. by simplify_eq.
  - intros Heq. by simplify_eq.
Qed.
End integrity.

(** The key is the digest of the chunk. *)
Definition digest_ok `{Blake3} (e : ChunkKey * bytes) : Prop := blake3_hash (snd e) = fst e.

Section untrusted.
Context `{Hb : Blake3, HZ : Zstd, HRq : RmpSerde RequestChunksMessage, HRs : RmpSerde SendChunksMessage}.
Context `{HM : LinkedHashMap M} {HMS : LinkedHashMapSpec M}.
Context (t : MessageTransport) (peer : bytes -> bytes).
Context (others : ChunkCache M -> list (ChunkKey * nat) -> ChunkCache M).

Definition fetcher_verified (s : ChunkFetcherProvider M) : Prop :=
  raw_ok digest_ok (cc_raw_cache (cf_chunk_cache s)) /\ map_ok digest_ok (cf_local_cache s).

Lemma accept_chunks_verified batch local r local' :
  map_ok digest_ok local -> accept_chunks batch local = (r, local') ->
  map_ok digest_ok local' /\ (r = Ok tt -> Forall digest_ok batch).
Proof.
  elim: batch local => [|[k v] batch IH] local Hl; cbn [accept_chunks]; first by move=> [= <- <-].
  destruct (decide (blake3_hash v = k)) as [Hk|]; last by move=> [= <- <-].
  move=> H. destruct (IH (<[k := v]> local)) as [H1 H2]; [by apply map_ok_insert|done|].
  split; [done|]. move=> Hr. constructor; [done|by apply H2].
Qed.

Lemma fetch_chunk_batch_verified s r s' :
  (forall c w, raw_ok digest_ok (cc_raw_cache c) -> raw_ok digest_ok (cc_raw_cache (others c w))) ->
  fetcher_verified s -> fetch_chunk_batch t peer others s = (r, s') -> fetcher_verified s'.
Proof.
  intros Hoth [Hraw Hloc]. rw /fetch_chunk_batch.
  destruct (get_chunks_batched _ _ _ _) as [[[[o rq] out] c]|e|p] eqn:E; try (by move=> [= _ <-]).
  apply (get_chunks_batched_keeps digest_ok) in E as [Hr' Ho']; try done. destruct o as [b| |w].
  - rw /fetch_batch. destruct (encode_message_async _ _) as [req| |]; try (by move=> [= _ <-]).
    destruct (write_message req) as [written| |]; try (by move=> [= _ <-]). cbn [set_stream cf_stream].
    destruct (stream_read_message _ _) as [[resp stream]| |]; try (by move=> [= _ <-]).
    destruct (decode_message_async resp) as [msg| |]; try (by move=> [= _ <-]). rw /accept_response. cbn [add_transferred set_stream cf_local_cache].
    destruct (accept_chunks _ _) as [ra local] eqn:Ea. destruct (accept_chunks_verified _ _ _ _ Ho' Ea) as [Hl2 Hb2].
    destruct ra as [u|e|p]; try (by move=> [= _ <-]). destruct u. rw bind_ok. cbn [cf_chunk_cache cf_pending_chunks].
    destruct (BatchChunkRequest_fulfill _ _ _) as [c2| |] eqn:Ef; try (by move=> [= _ <-]). move=> [= _ <-].
    split; [|done]. cbn. rw /BatchChunkRequest_fulfill in Ef. destruct (negb _); [done|].
    apply bind_ok_inv in Ef as ([raw2 p2] & Hput & <-%ok_inj). cbn. eapply put_batch_keeps; [|by apply Hb2|exact Hput]. done.
  - by move=> [= _ <-].
  - destruct (get_chunks_awaited _ _ _) as [[c2 l2]| |] eqn:Ea; try (by move=> [= _ <-]).
    rw /get_chunks_awaited in Ea. apply bind_ok_inv in Ea as ([raw2 o2] & Ht & [<- <-]%ok_pair_inj).
    apply (take_awaited_keeps digest_ok) in Ht as [? ?]; [|by apply Hoth|done]. by move=> [= _ <-].
Qed.

Lemma get_chunk_verified fuel k s r s' :
  (forall c w, raw_ok digest_ok (cc_raw_cache c) -> raw_ok digest_ok (cc_raw_cache (others c w))) ->
  fetcher_verified s -> get_chunk_loop t peer others fuel k s = (r, s') ->
  fetcher_verified s' /\ (forall v, r = Ok v -> blake3_hash v = k).
Proof.
  intros Hoth. elim: fuel s => [|fuel IH] s Hv; cbn [get_chunk_loop].
  all: destruct (cf_local_cache s !! k) as [v|] eqn:Hl.
  1, 3: move=> [= <- <-]; split; [done|]; move=> v' [= <-]; by apply (proj2 Hv k v).
  all: destruct (cf_pending_chunks s); try (by move=> [= <- <-]).
  destruct (fetch_chunk_batch t peer others s) as [rb sb] eqn:E.
  apply fetch_chunk_batch_verified in E; try done. destruct rb; [by apply IH|by move=> [= <- <-]..].
Qed.
End untrusted.

(** ** Properties *)

(** Messages survive the stream.  A message within the size limit is written
    without a panic, and reading the stream gives it back and leaves exactly what
    follows it. *)
Lemma message_framing_roundtrip m rest (Hlen : len m <= MESSAGE_SIZE_LIMIT) :
  exists io, write_message m = Ok io /\ read_message (io ++ rest) = Ok (m, rest).
Proof. exists (framed m). split; [by apply write_message_ok|by apply read_written]. Qed.


(** The chunks of a list of keys, one [get_chunk] after the other. *)
Fixpoint get_all {S : Type} `{ChunkProvider S} (ks : list ChunkKey) (s : S) : result (list bytes) * S :=
  match ks with
  | [] => (Ok [], s)
  | k :: ks =>
      match get_chunk k s with
      | (Ok c, s) => let '(r, s) := get_all ks s in (cons c <$> r, s)
      | (Err e, s) => (Err e, s)
      | (Panic p, s) => (Panic p, s)
      end
  end.

Lemma get_all_ok {S : Type} `{HP : ChunkProvider S} {D : ChunkKey -> option bytes} {HS : ProviderSpec S D}
  ks cs (s : S) :
  prov_inv s -> Forall (prov_ready s) ks -> Forall2 (fun k c => D k = Some c) ks cs ->
  exists s', get_all ks s = (Ok cs, s') /\ prov_inv s'.
Proof.
  move=> Hi Hr Hf. elim: Hf s Hi Hr => [|k c ks' cs' Hk _ IH] s Hi Hr; first by exists s.
  apply Forall_cons in Hr as [Hrk Hr]. destruct (get_chunk_spec k c s Hi Hrk Hk) as (s1 & Hg & Hi1 & Hm).
  cbn [get_all]. rw Hg. destruct (IH s1 Hi1) as (s2 & -> & ?); [|by exists s2].
  eapply Forall_impl; [exact Hr|]. apply Hm.
Qed.

Section properties.
Context `{Hb : Blake3} `{HZ : Zstd} {HZS : ZstdSpec HZ} {HZB : ZstdBound HZ}.
Context `{HRq : RmpSerde RequestChunksMessage} {HRqS : RmpSpec RequestChunksMessage request_size}.
Context `{HRs : RmpSerde SendChunksMessage} {HRsS : RmpSpec SendChunksMessage send_size}.
Context `{HM : LinkedHashMap M} {HMS : LinkedHashMapSpec M}.

(** The server answers every request.  A stream of requests for chunks the
    server has, each of at most 512 keys, is answered message by message, in order,
    with exactly the requested chunks; every answer respects the message size
    limit, and the loop ends with the stream and counts the bytes of all messages. *)
Lemma server_answers_requests (t : MessageTransport) (chunks : gmap ChunkKey bytes) (requests : list (list ChunkKey))
  (Hblobs : forall k c, chunks !! k = Some c -> length k = 32%nat /\ len c <= MAX_BLOB_SIZE)
  (Hgood : Forall (good_request chunks) requests) :
  exists es,
    Forall2 (fun keys e => encode_message t (mkRequestChunks keys) = Ok (fst e) /\
               decode_message (snd e) = Ok (mkSendChunks (found chunks keys)) /\
               len (snd e) <= MESSAGE_SIZE_LIMIT) requests es /\
    provide_chunks_as_requested t chunks (concat ((fun e => framed (fst e)) <$> es)) =
      (concat ((fun e => framed (snd e)) <$> es), Ok (sum_z ((fun e => len (fst e) + len (snd e)) <$> es))).
Proof.
  destruct (exchange_all t chunks Hblobs requests Hgood) as (es & Hes & H2). exists es. split; [done|].
  exact (provide_exchanges t chunks Hblobs es Hes).
Qed.

(** C10: the fetcher serves what the server has.  On a stream to the server's loop that
    neither end breaks, with any cache that holds no other content for a chunk of the
    server (whatever else it holds or evicts, and whichever chunks other tasks are
    fetching): if the other tasks deliver the chunks that this one finds pending (they
    fulfill their batches, and the chunks are still cached when this task goes on), then
    prefetched chunks can be requested in any order and any number of times, and each
    request is answered with the server's chunk: no error, no panic, and the loop of
    [get_chunk] ends.  The server's loop, on what the fetcher wrote, ends without an error
    too, and both ends count the same number of bytes. *)
Theorem fetcher_serves_chunks (t : MessageTransport) (chunks : gmap ChunkKey bytes) others (cache : ChunkCache M) ks ks'
  (Hblobs : forall k c, chunks !! k = Some c -> length k = 32%nat /\ len c <= MAX_BLOB_SIZE)
  (Hdigest : forall k c, chunks !! k = Some c -> blake3_hash c = k)
  (Hcache : cache_agrees chunks cache) (Hothers : others_deliver others chunks)
  (Hknown : Forall (fun k => is_Some (chunks !! k)) ks) (Hks : ks' ⊆ ks) :
  let P := fetcher_provider t (server_peer t chunks) others in
  exists s, get_all (H := P) ks' (prefetch (ChunkProvider := P) ks (ChunkFetcherProvider_new cache (mkStream [] 0))) =
      (Ok (found chunks ks'), s) /\
    snd (provide_chunks_as_requested t chunks (st_sent (cf_stream s))) = Ok (cf_total_transferred s).
Proof.
  cbv zeta. set P := fetcher_provider _ _ _. set S0 := ChunkFetcherProvider_new cache _.
  set PS := fetcher_provider_spec t chunks others Hblobs Hdigest chunks (reflexivity (R := (⊆)) chunks)
    (server_peer t chunks) [] [] (fun _ => eq_refl) Hothers.
  have Hinv0 : @prov_inv _ P _ PS S0 by apply fetcher_inv_new.
  destruct (@prefetch_spec _ P _ PS ks S0 Hinv0 Hknown) as [Hinv Hready].
  destruct (@get_all_ok _ P _ PS ks' (found chunks ks') (prefetch (ChunkProvider := P) ks S0)) as (s & Hs & Hinv').
  - exact Hinv.
  - apply Forall_forall => k Hk. apply Hready. left. by apply Hks.
  - rw /found. apply Forall2_fmap_r, Forall_Forall2_diag, Forall_forall => k Hk.
    destruct (proj1 (Forall_forall _ _) Hknown k (Hks k Hk)) as [c Hc]. cbn beta in Hc |- *. by rw /compose Hc.
  - exists s. split; [done|]. destruct Hinv' as (_ & _ & _ & Hst).
    by destruct (stream_served t chunks Hblobs [] [] s Hst) as (io & -> & Hio).
Qed.

(** C20: nothing unverified gets through.  Whatever bytes the peer sends (a hostile
    server included) and whatever the other tasks do to a cache of verified
    chunks, a chunk that [get_chunk] returns has the requested digest, and both
    caches hold only verified chunks afterwards. *)
Theorem fetched_chunks_verified (t : MessageTransport) (peer : bytes -> bytes)
  (others : ChunkCache M -> list (ChunkKey * nat) -> ChunkCache M) key s r s'
  (Hothers : forall c w, raw_ok digest_ok (cc_raw_cache c) -> raw_ok digest_ok (cc_raw_cache (others c w)))
  (Hverified : fetcher_verified s) (Hget : fetcher_get_chunk t peer others key s = (r, s')) :
  (forall chunk, r = Ok chunk -> blake3_hash chunk = key) /\ fetcher_verified s'.
Proof. destruct (get_chunk_verified t peer others _ key s r s' Hothers Hverified Hget). by split. Qed.
End properties.

(** ** Witnesses *)

(** A serialisation of lists of byte strings with big-endian lengths. *)
Definition toy_pack (l : list bytes) : bytes :=
  put_u32 (len l) ++ concat ((fun b => put_u32 (len b) ++ b) <$> l).
Fixpoint toy_unpack_items (n : nat) (buf : bytes) : result (list bytes) :=
  match n with
  | O => Ok []
  | S n =>
      '(size, buf) ← try_get_u32 buf;
      '(b, buf) ← try_get_slice size buf;
      l ← toy_unpack_items n buf;
      Ok (b :: l)
  end.
Definition toy_unpack (buf : bytes) : result (list bytes) :=
  '(n, buf) ← try_get_u32 buf; toy_unpack_items (Z.to_nat n) buf.

Definition toy_write (l : list bytes) : result bytes :=
  if forallb (fun b => len b <? 2 ^ 32) l && (len l <? 2 ^ 32) then Ok (toy_pack l) else Err (LibError "too long").

Lemma toy_unpack_pack l b : toy_write l = Ok b -> toy_unpack b = Ok l.
Proof.
  rw /toy_write. destruct (_ && _) eqn:E; [|done]. intros <-%ok_inj. apply andb_prop in E as [Hf Hl].
  apply Z.ltb_lt in Hl. rw /toy_unpack /toy_pack get_put_u32; [split; [lia|done]|]. rw bind_ok Nat2Z.id.
  clear Hl. rw -(app_nil_r (concat _)). elim: l Hf => [|x l IH] //= /andb_prop [Hx Hf].
  apply Z.ltb_lt in Hx. rw -!app_assoc get_put_u32; [split; [lia|done]|].
  rw bind_ok try_get_slice_app // bind_ok IH //.
Qed.

Lemma toy_write_ok l :
  8 + sum_z ((fun b => 5 + len b) <$> l) < 2 ^ 32 ->
  exists b, toy_write l = Ok b /\ len b <= 8 + sum_z ((fun b => 5 + len b) <$> l).
Proof.
  move=> Hs.
  have Hb : Forall (fun b => len b <= sum_z ((fun b : bytes => 5 + len b) <$> l)) l /\
    len l <= sum_z ((fun b : bytes => 5 + len b) <$> l) /\
    len (concat ((fun b => put_u32 (len b) ++ b) <$> l)) <= sum_z ((fun b : bytes => 5 + len b) <$> l).
  { clear Hs. elim: l => [|x l [IH1 [IH2 IH3]]] //. cbn [fmap list_fmap sum_z foldr concat].
    rw -/(sum_z ((fun b : bytes => 5 + len b) <$> l)). set n := sum_z _ in IH1 IH2 IH3 *. split_and!.
    - constructor; [lia|]. eapply Forall_impl; [exact IH1|]. cbn beta. lia.
    - cbn. lia.
    - rw !length_app length_put_u32. lia. }
  set n := sum_z _ in Hs Hb *. destruct Hb as (H1 & H2 & H3).
  exists (toy_pack l). rw /toy_write.
  have -> : forallb (fun b => len b <? 2 ^ 32) l = true.
  { apply forallb_forall => b /list_elem_of_In Hin. apply Z.ltb_lt. have := proj1 (Forall_forall _ _) H1 b Hin. cbn beta. lia. }
  have -> : (len l <? 2 ^ 32) = true by apply Z.ltb_lt; lia.
  split; [done|]. rw /toy_pack length_app length_put_u32. lia.
Qed.

Definition toy_request_rmp : RmpSerde RequestChunksMessage := {|
  rmp_write m := toy_write (requested_chunks m);
  rmp_from_read r := mkRequestChunks <$> toy_unpack (fst r);
|}.
Definition toy_send_rmp : RmpSerde SendChunksMessage := {|
  rmp_write m := toy_write (sent_chunks m);
  rmp_from_read r := mkSendChunks <$> toy_unpack (fst r);
|}.

Lemma toy_send_spec : @RmpSpec SendChunksMessage toy_send_rmp send_size.
Proof.
  split.
  - move=> [l] /toy_write_ok [b [Hb Hl]]. by exists b.
  - move=> [l] b /= /toy_unpack_pack ->. done.
Qed.

Lemma toy_request_spec : @RmpSpec RequestChunksMessage toy_request_rmp request_size.
Proof.
  split.
  - move=> [l] Hs. rw /request_size in Hs *. cbn [requested_chunks] in *.
    have Hle : sum_z ((fun b : bytes => 5 + len b) <$> l) <= sum_z ((fun k : bytes => 6 + 2 * len k) <$> l).
    { clear. elim: l => [|x l IH] //. cbn [fmap list_fmap sum_z foldr].
      rw -/(sum_z ((fun b : bytes => 5 + len b) <$> l)) -/(sum_z ((fun b : bytes => 6 + 2 * len b) <$> l)).
      move: (sum_z _) (sum_z _) IH => a b IH. lia. }
    move: Hle Hs. move: (toy_write_ok l). move: (sum_z _) (sum_z _) => a c Hw Hle Hs.
    destruct Hw as (b & Hb & Hl); [lia|]. exists b. split; [done|lia].
  - move=> [l] b /= /toy_unpack_pack ->. done.
Qed.

Lemma toy_zstd_bound : ZstdBound toy_zstd.
Proof.
  move=> level data. exists (Byte.x28 :: data). split; [done|]. cbn [length].
  have : 0 <= len data / 128 by apply Z.div_pos; lia. lia.
Qed.

Definition sample_chunk : bytes := [Byte.x01; Byte.x02].
Definition sample_chunks : gmap ChunkKey bytes := {[ toy_hash sample_chunk := sample_chunk ]}.
Definition sample_transport : MessageTransport := mkTransport 3.

Lemma sample_chunks_spec k c : sample_chunks !! k = Some c -> k = toy_hash sample_chunk /\ c = sample_chunk.
Proof. rw /sample_chunks lookup_singleton_Some. by move=> [-> ->]. Qed.

Lemma sample_chunks_ok k c : sample_chunks !! k = Some c -> length k = 32%nat /\ len c <= MAX_BLOB_SIZE.
Proof. by intros [-> ->]%sample_chunks_spec. Qed.

(** Other tasks that put all the chunks of the servers into the cache while one waits. *)
Definition all_delivered (known : gmap ChunkKey bytes) (c : ChunkCache AList) (w : list (ChunkKey * nat)) : ChunkCache AList :=
  mkChunkCache (mkRawCache (mkAList (map_to_list known) (NoDup_fst_map_to_list known))
    (entries_size (map_to_list known)) (entries_size (map_to_list known))) ∅ false (cc_next_event c) w.*2.

Lemma all_delivered_ok known :
  entries_size (map_to_list known) + MAX_BLOB_SIZE < 2 ^ 64 -> others_deliver (all_delivered known) known.
Proof.
  move=> Hsz c w _ Hw. split.
  - split_and!; cbn; [|done|].
    + split_and!; cbn; [done|done|]. apply entries_size_pos.
    + move=> k v v' /elem_of_map_to_list -> [= <-]. done.
  - apply Forall_forall => r Hr. destruct (proj1 (Forall_forall _ _) Hw r Hr) as [[v Hv] _]. cbn. split; [by apply list_elem_of_fmap_2|].
    exists v. apply elem_assoc; [apply NoDup_fst_map_to_list|by apply elem_of_map_to_list].
Qed.

(** Another task is fetching the chunk; this one waits for it. *)
Definition busy_cache : ChunkCache AList :=
  mkChunkCache (RawChunkCache_new 1000) {[ toy_hash sample_chunk := 0%nat ]} false 1 [].

Lemma fetcher_serves_chunks_witness :
  let P := @fetcher_provider toy_blake3 toy_zstd toy_request_rmp toy_send_rmp AList _ sample_transport
    (@server_peer toy_zstd toy_request_rmp toy_send_rmp sample_transport sample_chunks) (all_delivered sample_chunks) in
  exists s, get_all (H := P) [toy_hash sample_chunk]
      (prefetch (ChunkProvider := P) [toy_hash sample_chunk]
        (ChunkFetcherProvider_new busy_cache (mkStream [] 0))) = (Ok [sample_chunk], s).
Proof.
  destruct (@fetcher_serves_chunks toy_blake3 toy_zstd toy_zstd_spec toy_zstd_bound toy_request_rmp toy_request_spec
    toy_send_rmp toy_send_spec AList _ _ sample_transport sample_chunks (all_delivered sample_chunks) busy_cache
    [toy_hash sample_chunk] [toy_hash sample_chunk] sample_chunks_ok) as (s & Hs & _).
  - by intros k c [-> ->]%sample_chunks_spec.
  - split_and!; [by apply raw_inv_new|done|]. move=> k v v' Hin. by inversion Hin.
  - apply all_delivered_ok. by vm_compute.
  - constructor; [|done]. rw /sample_chunks lookup_singleton_eq. by eexists.
  - done.
  - exists s. rw Hs /found. cbn [fmap list_fmap]. by rw /sample_chunks lookup_singleton_eq.
Defined.

(** A peer that answers with a chunk of the wrong digest. *)
Lemma fetched_chunks_verified_witness :
  exists r s', @fetcher_get_chunk toy_blake3 toy_zstd toy_request_rmp toy_send_rmp AList _ sample_transport
      (fun _ => framed (Byte.x28 :: toy_pack [[Byte.x09]])) (fun c _ => c) (toy_hash sample_chunk)
      (mkFetcher (ChunkCache_new 1000) (mkStream [] 0) ∅ [toy_hash sample_chunk] 0) = (r, s') /\
    r = Err (Anyhow "Chunk hash mismatch") /\
    (forall chunk, r = Ok chunk -> @blake3_hash toy_blake3 chunk = toy_hash sample_chunk).
Proof.
  destruct (@fetcher_get_chunk toy_blake3 toy_zstd toy_request_rmp toy_send_rmp AList _ sample_transport
      (fun _ => framed (Byte.x28 :: toy_pack [[Byte.x09]])) (fun c _ => c) (toy_hash sample_chunk)
      (mkFetcher (ChunkCache_new 1000) (mkStream [] 0) ∅ [toy_hash sample_chunk] 0)) as [r s'] eqn:Hget.
  exists r, s'. split; [done|]. split; [have := f_equal fst Hget; vm_compute; by move=> <-|].
  apply (@fetched_chunks_verified toy_blake3 toy_zstd toy_request_rmp toy_send_rmp AList _ _ sample_transport
    (fun _ => framed (Byte.x28 :: toy_pack [[Byte.x09]])) (fun c _ => c) (toy_hash sample_chunk)
    (mkFetcher (ChunkCache_new 1000) (mkStream [] 0) ∅ [toy_hash sample_chunk] 0) r s'); [done| |done].
  split; [by constructor|]. move=> k v. cbn. by rw lookup_empty.
Defined.
