(* ===== verification/AnyPeer.v ===== *)
(** * Transfers with an arbitrary other end

    What [get_chunk] of the fetcher and the loop [provide_chunks_as_requested] of
    common/src/protocol_utils.rs do when nothing is known of what surrounds them: the other
    end of the stream may send anything, or nothing any more; reads and writes may fail or
    wait for ever; other tasks use the cache whenever its mutex is free, and may leave it
    poisoned; and the events that a task waits for may never be closed.  [get_chunk_runs] is
    the loop of [get_chunk] in such surroundings, as a relation with a case for every
    [await] and every [lock] of the source; [serve] is the server's loop. *)

From Stdlib Require Import ssreflect.
From stdpp Require Import base numbers list gmap strings.
From S2P Require Import Prelude Buf Chunker Dedup ChunkCache ProtocolUtils.

(** The panics of the two functions that frame messages, of [fulfill], of
    [get_chunks_batched] after its wait, of the locking of a poisoned mutex, and of
    [get_chunk]. *)
Definition oversized : string := "Message size exceeded limit".
Definition wrong_count : string := "assertion `left == right` failed".
Definition not_in_cache : string := "Waited on chunk, but chunk was not put in cache".
Definition poisoned : string := "called `Result::unwrap()` on an `Err` value: PoisonError".
Definition not_prefetched : string := "Chunk was requested without being prefetched first".

(** What a task has come to: it ended, it waits for something that never happens, or it is
    still running. *)
Inductive Outcome (A : Type) := Ends (r : result A) | Waits | Running.
Arguments Ends {A}.
Arguments Waits {A}.
Arguments Running {A}.

(** Rust allocates no more than [isize::MAX] bytes at once. *)
Class RmpAlloc (R : RmpSerde SendChunksMessage) : Prop :=
  decoded_fits : forall r m, rmp_from_read r = Ok m -> Forall (fun c : bytes => len c < 2 ^ 63) (sent_chunks m).

(** ** Messages *)

Lemma read_message_inv io :
  match read_message io with
  | Ok (m, rest) => io = framed m ++ rest /\ len m <= MESSAGE_SIZE_LIMIT
  | Err e => e = UnexpectedEof
  | Panic msg => msg = oversized
  end.
Proof.
  rw /read_message /read_exact_or. destruct (Z.ltb_spec (len io) 4) as [|H4]; [done|]. rw bind_ok.
  have Hl4 : len (ztake 4 io) = 4 by apply len_ztake; lia.
  have Hr := le_val_range (ztake 4 io). rw Hl4 /in_u in Hr. set n := le_val _ in Hr *.
  destruct (Z.ltb_spec MESSAGE_SIZE_LIMIT n) as [|Hn]; [done|].
  destruct (Z.ltb_spec (len (zdrop 4 io)) n) as [|Hm]; [done|].
  have Hlen : len (ztake n (zdrop 4 io)) = n by apply len_ztake; lia.
  split; [|lia]. rw /framed Hlen.
  have -> : put_u32_le n = ztake 4 io.
  { apply le_bytes_val. lia. }
  by rw -app_assoc !ztake_zdrop.
Qed.

Lemma write_message_inv m :
  match write_message m with
  | Ok b => b = framed m /\ len m <= MESSAGE_SIZE_LIMIT
  | Err _ => False
  | Panic msg => msg = oversized /\ MESSAGE_SIZE_LIMIT < len m
  end.
Proof. rw /write_message. by destruct (Z.ltb_spec MESSAGE_SIZE_LIMIT (len m)). Qed.

(** ** The fetcher *)

Section fetcher.
Context `{Hb : Blake3, HZ : Zstd, HRq : RmpSerde RequestChunksMessage, HRs : RmpSerde SendChunksMessage}.
Context {HRa : RmpAlloc HRs} `{HM : LinkedHashMap M} {HMS : LinkedHashMapSpec M}.
Context (t : MessageTransport).

(** A cache as every operation leaves it, with a size limit that cannot overflow. *)
Definition cache_sane (c : ChunkCache M) : Prop :=
  raw_inv (cc_raw_cache c) /\ rc_max_size (cc_raw_cache c) < 2 ^ 63.

Abbreviation fetcher_sane s := (cache_sane (cf_chunk_cache s)).

(** The cache when its mutex is locked again. *)
Definition set_cache (c : ChunkCache M) (s : ChunkFetcherProvider M) : ChunkFetcherProvider M :=
  mkFetcher c (cf_stream s) (cf_local_cache s) (cf_pending_chunks s) (cf_total_transferred s).

(** What a write or a read on the stream does if it does not succeed. *)
Definition io_stops (o : Outcome unit) : Prop := o = Waits \/ exists e, o = Ends (Err e).

(** The part of [fetch_chunk_batch] that fetches a batch, [await] by [await]. *)
Inductive batch_runs (b : BatchChunkRequest) (s : ChunkFetcherProvider M)
  : Outcome unit -> ChunkFetcherProvider M -> Prop :=
| batch_not_encoded e :
    encode_message_async t (mkRequestChunks (br_batch_keys b)) = Err e -> batch_runs b s (Ends (Err e)) s
| batch_too_long request p :
    encode_message_async t (mkRequestChunks (br_batch_keys b)) = Ok request -> write_message request = Panic p ->
    batch_runs b s (Ends (Panic p)) (add_transferred (len request) s)
| batch_write_stops request written o stream :
    encode_message_async t (mkRequestChunks (br_batch_keys b)) = Ok request -> write_message request = Ok written ->
    io_stops o -> batch_runs b s o (set_stream stream (add_transferred (len request) s))
| batch_read_stops request written o stream :
    encode_message_async t (mkRequestChunks (br_batch_keys b)) = Ok request -> write_message request = Ok written ->
    io_stops o \/ o = Ends (Panic oversized) -> batch_runs b s o (set_stream stream (add_transferred (len request) s))
| batch_not_decoded request written response stream e :
    encode_message_async t (mkRequestChunks (br_batch_keys b)) = Ok request -> write_message request = Ok written ->
    len response <= MESSAGE_SIZE_LIMIT -> decode_message_async (T := SendChunksMessage) response = Err e ->
    batch_runs b s (Ends (Err e)) (add_transferred (len response) (set_stream stream (add_transferred (len request) s)))
| batch_answered request written response stream m c r s' :
    encode_message_async t (mkRequestChunks (br_batch_keys b)) = Ok request -> write_message request = Ok written ->
    len response <= MESSAGE_SIZE_LIMIT -> decode_message_async (T := SendChunksMessage) response = Ok m -> cache_sane c ->
    accept_response b (sent_chunks m)
      (set_cache c (add_transferred (len response) (set_stream stream (add_transferred (len request) s)))) = (r, s') ->
    batch_runs b s (Ends r) s'
| batch_poisoned request written response stream m local :
    encode_message_async t (mkRequestChunks (br_batch_keys b)) = Ok request -> write_message request = Ok written ->
    len response <= MESSAGE_SIZE_LIMIT -> decode_message_async (T := SendChunksMessage) response = Ok m ->
    accept_chunks (zip (br_batch_keys b) (sent_chunks m)) (cf_local_cache s) = (Ok tt, local) ->
    length (br_batch_keys b) = length (sent_chunks m) ->
    batch_runs b s (Ends (Panic poisoned)) (mkFetcher (cf_chunk_cache s) stream local (cf_pending_chunks s)
      (cf_total_transferred s + len request + len response)).

(** [fetch_chunk_batch]: the mutex is poisoned, or the cache is in some state [c]; if it
    waits for other tasks, it may wait for ever, and otherwise it goes on when all the
    events are closed, with the cache in some state [c2]. *)
Inductive turn (s : ChunkFetcherProvider M) : Outcome unit -> ChunkFetcherProvider M -> Prop :=
| turn_poisoned : turn s (Ends (Panic poisoned)) s
| turn_panics c p :
    cache_sane c -> get_chunks_batched c (cf_pending_chunks s) (cf_local_cache s) FETCH_BATCH_SIZE = Panic p ->
    turn s (Ends (Panic p)) s
| turn_served c pending local c1 :
    cache_sane c ->
    get_chunks_batched c (cf_pending_chunks s) (cf_local_cache s) FETCH_BATCH_SIZE = Ok (AllServed, pending, local, c1) ->
    turn s (Ends (Ok tt)) (mkFetcher c1 (cf_stream s) local pending (cf_total_transferred s))
| turn_waits c w pending local c1 o :
    cache_sane c ->
    get_chunks_batched c (cf_pending_chunks s) (cf_local_cache s) FETCH_BATCH_SIZE = Ok (WaitFor w, pending, local, c1) ->
    o = Waits \/ o = Ends (Panic poisoned) ->
    turn s o (mkFetcher c1 (cf_stream s) local pending (cf_total_transferred s))
| turn_awaited c w pending local c1 c2 r :
    cache_sane c ->
    get_chunks_batched c (cf_pending_chunks s) (cf_local_cache s) FETCH_BATCH_SIZE = Ok (WaitFor w, pending, local, c1) ->
    cache_sane c2 -> Forall (fun x => snd x ∈ cc_closed c2) w -> get_chunks_awaited c2 w local = r ->
    turn s (Ends (_ ← r; Ok tt))
      (match r with
       | Ok (c3, local3) => mkFetcher c3 (cf_stream s) local3 pending (cf_total_transferred s)
       | _ => mkFetcher c1 (cf_stream s) local pending (cf_total_transferred s)
       end)
| turn_fetches c b pending local c1 o s' :
    cache_sane c ->
    get_chunks_batched c (cf_pending_chunks s) (cf_local_cache s) FETCH_BATCH_SIZE = Ok (Fetch b, pending, local, c1) ->
    batch_runs b (mkFetcher c1 (cf_stream s) local pending (cf_total_transferred s)) o s' -> turn s o s'.

(** The loop of [get_chunk]: how many turns it has begun, what it has come to, and its state. *)
Inductive get_chunk_runs (key : ChunkKey)
  : ChunkFetcherProvider M -> nat -> Outcome bytes -> ChunkFetcherProvider M -> Prop :=
| run_running s : get_chunk_runs key s 0 Running s
| run_found s chunk :
    cf_local_cache s !! key = Some chunk -> get_chunk_runs key s 0 (Ends (Ok chunk)) s
| run_not_prefetched s :
    cf_local_cache s !! key = None -> cf_pending_chunks s = [] ->
    get_chunk_runs key s 0 (Ends (Panic not_prefetched)) s
| run_waits s s' :
    cf_local_cache s !! key = None -> cf_pending_chunks s <> [] -> turn s Waits s' -> get_chunk_runs key s 1 Waits s'
| run_error s e s' :
    cf_local_cache s !! key = None -> cf_pending_chunks s <> [] ->
    turn s (Ends (Err e)) s' -> get_chunk_runs key s 1 (Ends (Err e)) s'
| run_panic s p s' :
    cf_local_cache s !! key = None -> cf_pending_chunks s <> [] ->
    turn s (Ends (Panic p)) s' -> get_chunk_runs key s 1 (Ends (Panic p)) s'
| run_again s u s' n o s'' :
    cf_local_cache s !! key = None -> cf_pending_chunks s <> [] ->
    turn s (Ends (Ok u)) s' -> get_chunk_runs key s' n o s'' -> get_chunk_runs key s (S n) o s''.

Lemma accept_chunks_any batch local r local' :
  accept_chunks batch local = (r, local') ->
  match r with
  | Ok _ => forall k, k ∈ batch.*1 \/ is_Some (local !! k) -> is_Some (local' !! k)
  | Err _ => True
  | Panic _ => False
  end.
Proof.
  elim: batch local => [|[key chunk] batch IH] local; cbn [accept_chunks].
  { move=> [= <- <-] k [Hk|//]. by inversion Hk. }
  destruct (decide _) as [_|]; last by move=> [= <- _].
  move=> H. have := IH _ H. destruct r as [u|e|p]; [|done..]. move=> Hin k Hk. apply Hin.
  destruct (decide (k = key)) as [->|Hne]; [right; by rw lookup_insert_eq|].
  rw lookup_insert_ne //. destruct Hk as [Hk|Hk]; [left|by right]. set_solver.
Qed.

Lemma fst_zip_same {A B} (l : list A) (k : list B) : length l = length k -> (zip l k).*1 = l.
Proof. move=> H. apply fst_zip. lia. Qed.

(** A response with the wrong number of chunks panics, whatever the chunks. *)
Lemma fulfill_any (c : ChunkCache M) b cs :
  cache_sane c -> Forall (fun x : bytes => len x < 2 ^ 63) cs ->
  match BatchChunkRequest_fulfill c b cs with
  | Ok c' => cache_sane c' /\ length (br_batch_keys b) = length cs
  | Err _ => False
  | Panic msg => msg = wrong_count
  end.
Proof.
  intros [Hinv Hmax] Hcs. rw /BatchChunkRequest_fulfill.
  destruct (Nat.eqb_spec (length (br_batch_keys b)) (length cs)) as [Hlen|]; [|done]. cbn [negb].
  destruct (put_batch_ok (zip (br_batch_keys b) cs) (cc_raw_cache c) (cc_pending_chunks c) Hinv)
    as (raw & pending & -> & Hinv' & Hmax' & _).
  - apply Forall_forall => [[k v]] Hkv. pose proof (elem_of_zip_r _ _ _ _ Hkv) as Hin. cbn [snd].
    have := proj1 (Forall_forall _ _) Hcs v Hin. cbn beta. lia.
  - rw bind_ok. split; [|done]. rw /cache_sane. cbn. by rw Hmax'.
Qed.

Lemma accept_response_any b cs s r s' :
  fetcher_sane s -> Forall (fun x : bytes => len x < 2 ^ 63) cs -> accept_response b cs s = (r, s') ->
  fetcher_sane s' /\ cf_pending_chunks s' = cf_pending_chunks s /\
  match r with
  | Ok _ => forall k, k ∈ br_batch_keys b \/ is_Some (cf_local_cache s !! k) -> is_Some (cf_local_cache s' !! k)
  | Err _ => True
  | Panic msg => msg = wrong_count
  end.
Proof.
  intros Hs Hcs. rw /accept_response. destruct (accept_chunks _ _) as [ra local] eqn:Ea.
  apply accept_chunks_any in Ea. cbn [cf_chunk_cache].
  destruct ra as [u|e|p]; [|by move=> [= <- <-]|done]. rw bind_ok.
  pose proof (fulfill_any (cf_chunk_cache s) b cs Hs Hcs) as Hf.
  destruct (BatchChunkRequest_fulfill _ _ _) as [c'|e|msg]; [|done|by move=> [= <- <-]].
  destruct Hf as [Hc' Hlen]. move=> [= <- <-]. split_and!; [done|done|].
  by rw fst_zip_same in Ea.
Qed.

Lemma batch_runs_any b s o s' :
  batch_runs b s o s' ->
  match o with
  | Ends (Ok _) => cf_pending_chunks s' = cf_pending_chunks s /\
      forall k, k ∈ br_batch_keys b \/ is_Some (cf_local_cache s !! k) -> is_Some (cf_local_cache s' !! k)
  | Ends (Err _) | Waits => True
  | Ends (Panic msg) => msg ∈ [oversized; wrong_count; poisoned]
  | Running => False
  end.
Proof.
  destruct 1 as [e|request p _ Hw|request written o stream _ _ Ho|request written o stream _ _ Ho|
    request written response stream e|request written response stream m c r s' _ _ _ Hd Hc Ha|].
  - done.
  - pose proof (write_message_inv request) as Hi. rw Hw in Hi. destruct Hi as [-> _]. set_solver.
  - by destruct Ho as [->|[e ->]].
  - destruct Ho as [[->|[e ->]]| ->]; [done|done|set_solver].
  - done.
  - rw /decode_message_async in Hd. apply (proj1 (spawn_blocking_ok _ _)) in Hd.
    apply accept_response_any in Ha as (_ & Hp & Hr); [|done|exact (decoded_fits _ _ Hd)].
    destruct r as [u|e|msg]; [by split|done|]. subst msg. set_solver.
  - set_solver.
Qed.

Lemma take_awaited_any w (raw : RawChunkCache M) out :
  raw_inv raw ->
  match take_awaited w raw out with
  | Ok (raw', out') => raw_inv raw' /\ rc_max_size raw' = rc_max_size raw /\
      (forall k, k ∈ w.*1 \/ is_Some (out !! k) -> is_Some (out' !! k))
  | Err _ => False
  | Panic msg => msg = not_in_cache
  end.
Proof.
  elim: w raw out => [|[key e] w IH] raw out Hinv; cbn [take_awaited].
  { split_and!; [done|done|]. move=> k [Hk|//]. by inversion Hk. }
  pose proof (get_ok key raw Hinv) as Hg. destruct (RawChunkCache_get key raw) as [[chunk|] raw1]; [|done].
  destruct Hg as (_ & Hinv1 & Hmax1 & _). rw bind_ok. pose proof (IH raw1 (<[key := chunk]> out) Hinv1) as Hi.
  destruct (take_awaited _ _ _) as [[raw' out']|e'|p]; [|done..]. destruct Hi as (H1 & H2 & H3).
  split_and!; [done|by rw H2|]. move=> k Hk. apply H3.
  destruct (decide (k = key)) as [->|Hne]; [right; by rw lookup_insert_eq|].
  rw lookup_insert_ne //. destruct Hk as [Hk|Hk]; [left|by right]. set_solver.
Qed.

(** A turn of the loop takes keys off [pending_chunks], and none of them is lost. *)
Lemma turn_any s o s' :
  cf_pending_chunks s <> [] -> turn s o s' ->
  match o with
  | Ends (Ok _) => (length (cf_pending_chunks s') < length (cf_pending_chunks s))%nat /\
      (forall k, fetcher_ready s k -> fetcher_ready s' k)
  | Ends (Err _) | Waits => True
  | Ends (Panic msg) => msg ∈ [oversized; wrong_count; not_in_cache; poisoned]
  | Running => False
  end.
Proof.
  intros Hne Ht.
  have Hp : (0 < length (cf_pending_chunks s))%nat by destruct (cf_pending_chunks s); [|cbn; lia].
  have Hget c : cache_sane c -> exists o rq out c1,
    get_chunks_batched c (cf_pending_chunks s) (cf_local_cache s) FETCH_BATCH_SIZE = Ok (o, rq, out, c1) /\
    (length rq + length (match o with Fetch b => br_batch_keys b | _ => [] end) <= length (cf_pending_chunks s))%nat /\
    (forall k, is_Some (cf_local_cache s !! k) -> is_Some (out !! k)) /\
    match o with
    | Fetch b => br_batch_keys b <> [] /\ forall k, k ∈ cf_pending_chunks s -> is_Some (out !! k) \/ k ∈ br_batch_keys b \/ k ∈ rq
    | AllServed => rq = [] /\ forall k, k ∈ cf_pending_chunks s -> is_Some (out !! k)
    | WaitFor w => rq = [] /\ forall k, k ∈ cf_pending_chunks s -> is_Some (out !! k) \/ k ∈ w.*1
    end.
  { intros [Hinv _]. destruct (get_chunks_batched_ok c (cf_pending_chunks s) (cf_local_cache s) FETCH_BATCH_SIZE Hinv)
      as (o' & rq & out & c1 & Heq & raw & Hret & Ho); [done|].
    destruct Hret as (_ & _ & _ & _ & _ & _ & _ & Hkeys & _ & Hout & Hlen). exists o', rq, out, c1.
    split; [done|]. destruct o' as [b| |w].
    - destruct Ho as (Hb0 & _ & _). split_and!; [cbn in Hlen; lia|done|done|done].
    - destruct Ho as [-> _]. split_and!; [cbn; lia|done|done|]. move=> k Hk. destruct (Hkeys k Hk) as [?|[Hx|Hx]]; [done|by inversion Hx..].
    - destruct Ho as (-> & _ & _ & _). split_and!; [cbn; lia|done|done|].
      move=> k Hk. destruct (Hkeys k Hk) as [?|[Hx|?]]; [by left|by inversion Hx|by right]. }
  destruct Ht as [|c p Hc Hg|c rq out c1 Hc Hg|c w rq out c1 o Hc Hg Ho|c w rq out c1 c2 r Hc Hg [Hi2 _] _ Ha|c b rq out c1 o s' Hc Hg Hbr].
  - set_solver.
  - destruct (Hget c Hc) as (o' & rq & out & c1 & Heq & _). congruence.
  - destruct (Hget c Hc) as (o' & rq' & out' & c1' & Heq & _ & Hout & Hrest). rw Hg in Heq. simplify_eq. destruct Hrest as [-> Hk].
    split; [done|]. intros k [?|?]; left; cbn; [by apply Hout|by apply Hk].
  - destruct Ho as [->| ->]; [done|set_solver].
  - destruct (Hget c Hc) as (o' & rq' & out' & c1' & Heq & _ & Hout & Hrest). rw Hg in Heq. simplify_eq. destruct Hrest as [-> Hk].
    rw /get_chunks_awaited. pose proof (take_awaited_any w (cc_raw_cache c2) out' Hi2) as Hw.
    destruct (take_awaited _ _ _) as [[raw3 out3]|e|p]; [|done|cbn; subst p; set_solver]. destruct Hw as (_ & _ & Hw).
    rw !bind_ok. split; [done|]. intros k [?|Hin]; left; cbn; apply Hw; [right; by apply Hout|].
    by destruct (Hk k Hin); [right|left].
  - destruct (Hget c Hc) as (o' & rq' & out' & c1' & Heq & Hlen & Hout & Hrest). rw Hg in Heq. simplify_eq. destruct Hrest as [Hb0 Hk].
    apply batch_runs_any in Hbr. cbn [cf_pending_chunks cf_local_cache] in Hbr. destruct o as [[u|e|p]| |]; [|done|set_solver|done|done].
    destruct Hbr as [Hp' Hr]. rw Hp'. split; [destruct (br_batch_keys b); [done|cbn in Hlen; lia]|].
    intros k [?|Hin]; rw /fetcher_ready Hp'; [left; apply Hr; right; by apply Hout|].
    destruct (Hk k Hin) as [?|[?|?]]; [left; apply Hr; by right|left; apply Hr; by left|by right].
Qed.

Lemma get_chunk_runs_any key s n o s' :
  get_chunk_runs key s n o s' -> fetcher_ready s key ->
  (n <= length (cf_pending_chunks s))%nat /\
  match o with
  | Ends (Ok chunk) => cf_local_cache s' !! key = Some chunk
  | Ends (Err _) | Waits => True
  | Ends (Panic msg) => msg ∈ [oversized; wrong_count; not_in_cache; poisoned]
  | Running => fetcher_ready s' key
  end.
Proof.
  elim => {s n o s'} [s|s chunk Hl|s Hl Hp|s s' Hl Hne Ht|s e s' Hl Hne Ht|s p s' Hl Hne Ht|s u s' n o s'' Hl Hne Ht _ IH] Hready.
  1, 2: split; [lia|done].
  - exfalso. destruct Hready as [[? ?]|Hk]; [congruence|]. rw Hp in Hk. by inversion Hk.
  - split; [|done]. destruct (cf_pending_chunks s); [done|cbn; lia].
  - split; [|done]. destruct (cf_pending_chunks s); [done|cbn; lia].
  - apply turn_any in Ht; [|done]. split; [|done]. destruct (cf_pending_chunks s); [done|cbn; lia].
  - apply turn_any in Ht as [Hlt Hkeep]; [|done]. destruct (IH (Hkeep key Hready)) as [Hn Ho]. split; [lia|done].
Qed.

(** *** The loop of ProtocolUtils.v is one of these runs *)

Context (peer : bytes -> bytes) (others : ChunkCache M -> list (ChunkKey * nat) -> ChunkCache M).
(** The other tasks close the events that this one waits for. *)
Definition others_close : Prop := forall c w,
  cache_sane c -> cache_sane (others c w) /\ Forall (fun x => snd x ∈ cc_closed (others c w)) w.

Lemma fetch_batch_run b s r s' :
  fetcher_sane s -> fetch_batch t peer b s = (r, s') -> batch_runs b s (Ends r) s' /\ fetcher_sane s'.
Proof.
  intros Hs. rw /fetch_batch.
  destruct (encode_message_async _ _) as [req|e|p] eqn:Ee; [|move=> [= <- <-]; split; [by apply batch_not_encoded|done]|by apply spawn_blocking_no_panic in Ee].
  pose proof (write_message_inv req) as Hw. destruct (write_message req) as [written|e|p] eqn:Ew; [|done|].
  2: { move=> [= <- <-]. split; [by eapply batch_too_long|done]. }
  rw /stream_read_message. cbn [set_stream add_transferred cf_stream stream_write st_sent st_read].
  set io := zdrop _ _. pose proof (read_message_inv io) as Hr. destruct (read_message io) as [[resp rest]|e|p].
  2: { move=> [= <- <-]. split; [|done]. eapply batch_read_stops; [done|done|]. left. right. by eexists. }
  2: { subst p. move=> [= <- <-]. split; [|done]. eapply batch_read_stops; [done|done|]. by right. }
  rw bind_ok. destruct Hr as [_ Hl]. destruct (decode_message_async resp) as [m|e|p] eqn:Ed;
    [|move=> [= <- <-]; split; [by eapply batch_not_decoded|done]|by apply spawn_blocking_no_panic in Ed].
  move=> Ha. split.
  - eapply batch_answered; [done|done|done|done|exact Hs|exact Ha].
  - rw /decode_message_async in Ed. apply (proj1 (spawn_blocking_ok _ _)) in Ed.
    apply accept_response_any in Ha as (? & _); [done|done|exact (decoded_fits _ _ Ed)].
Qed.

Lemma fetch_chunk_batch_run s r s' :
  others_close -> fetcher_sane s -> cf_pending_chunks s <> [] -> fetch_chunk_batch t peer others s = (r, s') ->
  turn s (Ends r) s' /\ (forall u, r = Ok u -> fetcher_sane s').
Proof.
  intros Hoth Hs Hne. rw /fetch_chunk_batch. destruct Hs as [Hinv Hmax].
  destruct (get_chunks_batched_ok (cf_chunk_cache s) (cf_pending_chunks s) (cf_local_cache s) FETCH_BATCH_SIZE Hinv)
    as (o & rq & out & c & Heq & raw & Hret & Ho); [done|]. rw Heq.
  destruct Hret as (Hinv' & Hmax' & _).
  have Hc : cache_sane c.
  { destruct o as [b| |w]; [destruct Ho as (_ & _ & ->)|destruct Ho as [_ ->]|destruct Ho as (_ & -> & _)];
      rw /cache_sane; cbn; by rw Hmax'. }
  destruct o as [b| |w].
  - move=> Hf. apply fetch_batch_run in Hf as [Hf Hs']; [|done]. split; [|done].
    by apply (turn_fetches s _ b rq out c _ _ (conj Hinv Hmax) Heq).
  - move=> [= <- <-]. split; [|done]. by apply (turn_served s _ rq out c (conj Hinv Hmax) Heq).
  - destruct (Hoth c w Hc) as [Hc2 Hcl].
    have Ht := turn_awaited s _ w rq out c (others c w) _ (conj Hinv Hmax) Heq Hc2 Hcl eq_refl.
    have Hw := take_awaited_any w (cc_raw_cache (others c w)) out (proj1 Hc2). rw /get_chunks_awaited in Ht *.
    destruct (take_awaited _ _ _) as [[raw3 out3]|e|p]; [|done|].
    + destruct Hw as (H1 & H2 & _). rw !bind_ok in Ht *. move=> [= <- <-]. split; [exact Ht|].
      move=> _ _. split; [done|]. cbn. rw H2. apply Hc2.
    + cbn in Ht |- *. move=> [= <- <-]. split; [exact Ht|done].
Qed.

Lemma get_chunk_loop_run fuel key s :
  others_close -> fetcher_sane s -> fetcher_ready s key -> (length (cf_pending_chunks s) <= fuel)%nat ->
  exists n, get_chunk_runs key s n (Ends (fst (get_chunk_loop t peer others fuel key s)))
    (snd (get_chunk_loop t peer others fuel key s)).
Proof.
  intros Hoth. elim: fuel s => [|fuel IH] s Hs Hready Hlen; cbn [get_chunk_loop].
  all: destruct (cf_local_cache s !! key) as [chunk|] eqn:Hl; first by exists 0%nat; apply run_found.
  all: destruct Hready as [[? ?]|Hk]; [congruence|].
  { destruct (cf_pending_chunks s); [by inversion Hk|cbn in Hlen; lia]. }
  have Hne : cf_pending_chunks s <> [] by move=> E; rw E in Hk; inversion Hk.
  destruct (fetch_chunk_batch t peer others s) as [r s1] eqn:Hf.
  destruct (fetch_chunk_batch_run s r s1 Hoth Hs Hne Hf) as [Ht Hs1].
  destruct (cf_pending_chunks s) as [|k0 ks] eqn:Hps; [done|]. destruct r as [u|e|p].
  - have Ha := Ht. apply turn_any in Ha as [Hdec Hkeep]; [|by rw Hps]. rw Hps in Hdec.
    destruct (IH s1 (Hs1 u eq_refl)) as [n Hrun].
    + apply Hkeep. right. by rw Hps.
    + lia.
    + exists (S n). eapply run_again; [done|by rw Hps|done|done].
  - exists 1%nat. apply run_error; [done|by rw Hps|done].
  - exists 1%nat. apply run_panic; [done|by rw Hps|done].
Qed.
End fetcher.

(** ** The server *)

(** What follows the bytes that the client sends: the stream ends or fails, or nothing. *)
Inductive StreamEnd := Stops (e : error) | Silent.

(** What becomes of the writing of a response: it is written, or after [n] bytes of it the
    stream fails, or takes no more. *)
Inductive WriteResult := Written | WriteFails (n : nat) (e : error) | WriteWaits (n : nat).

Section server.
Context `{HZ : Zstd, HRq : RmpSerde RequestChunksMessage, HRs : RmpSerde SendChunksMessage}.
Context (t : MessageTransport) (chunks : gmap ChunkKey bytes).
Context (stop : StreamEnd) (writes : nat -> WriteResult).

(** [provide_chunks_as_requested] on such a stream, at its [i]-th request: what it writes,
    and what it comes to. *)
Fixpoint serve (fuel : nat) (i : nat) (io : bytes) (total_transferred : Z) : bytes * Outcome Z :=
  match read_message io with
  | Ok (request_data, io) =>
      match (response_data ← answer_request t chunks request_data;
             written ← write_message response_data;
             Ok (written, len response_data)) with
      | Ok (written, response_len) =>
          match writes i with
          | WriteFails n e => (take n written, Ends (Err e))
          | WriteWaits n => (take n written, Waits)
          | Written =>
              match fuel with
              | O => ([], Ends (Panic "out of fuel"))
              | S fuel =>
                  let '(out, r) := serve fuel (S i) io (total_transferred + len request_data + response_len) in
                  (written ++ out, r)
              end
          end
      | Err e => ([], Ends (Err e))
      | Panic p => ([], Ends (Panic p))
      end
  | Err _ => ([], match stop with Stops _ => Ends (Ok total_transferred) | Silent => Waits end)
  | Panic p => ([], Ends (Panic p))
  end.

(** [resp] is a right answer to [req]: exactly the chunks that it asks for. *)
Definition answers (req resp : bytes) : Prop :=
  exists keys found, decode_message req = Ok (mkRequestChunks keys) /\
    Forall2 (fun k c => chunks !! k = Some c) keys found /\ encode_message t (mkSendChunks found) = Ok resp.

(** What the loop comes to on what is left of the stream, after [total] bytes, if [write]
    becomes of its next response: what it still writes, and the outcome. *)
Inductive loop_end (write : WriteResult) (rest : bytes) (total : Z) : bytes -> Outcome Z -> Prop :=
| end_of_stream e :
    read_message rest = Err UnexpectedEof -> stop = Stops e -> loop_end write rest total [] (Ends (Ok total))
| end_silent :
    read_message rest = Err UnexpectedEof -> stop = Silent -> loop_end write rest total [] Waits
| end_oversized :
    read_message rest = Panic oversized -> loop_end write rest total [] (Ends (Panic oversized))
| end_refused req rest' e :
    read_message rest = Ok (req, rest') -> (forall resp, ~ answers req resp) -> loop_end write rest total [] (Ends (Err e))
| end_too_large req rest' resp :
    read_message rest = Ok (req, rest') -> answers req resp -> MESSAGE_SIZE_LIMIT < len resp ->
    loop_end write rest total [] (Ends (Panic oversized))
| end_write_fails req rest' resp n e :
    read_message rest = Ok (req, rest') -> answers req resp -> len resp <= MESSAGE_SIZE_LIMIT -> write = WriteFails n e ->
    loop_end write rest total (take n (framed resp)) (Ends (Err e))
| end_write_waits req rest' resp n :
    read_message rest = Ok (req, rest') -> answers req resp -> len resp <= MESSAGE_SIZE_LIMIT -> write = WriteWaits n ->
    loop_end write rest total (take n (framed resp)) Waits.

Lemma collect_lookup keys :
  match collect (fun key => ok_or (chunks !! key) (Anyhow "Client requested chunk that we don't have")) keys with
  | Ok found => Forall2 (fun k c => chunks !! k = Some c) keys found
  | Err _ => exists k, k ∈ keys /\ chunks !! k = None
  | Panic _ => False
  end.
Proof.
  elim: keys => [|k keys IH]; cbn [collect]; [done|]. destruct (chunks !! k) as [c|] eqn:Hk; cbn [ok_or]; last first.
  { cbn. exists k. split; [left|done]. }
  rw bind_ok. destruct (collect _ keys) as [found|e|p]; [|cbn|done].
  - rw bind_ok. by constructor.
  - destruct IH as (k' & Hin & Hn). exists k'. split; [by right|done].
Qed.

Lemma found_det keys found found' :
  Forall2 (fun k c => chunks !! k = Some c) keys found -> Forall2 (fun k c => chunks !! k = Some c) keys found' ->
  found = found'.
Proof.
  move=> H. elim: H found' => [|k c keys' found1 Hk _ IH] found'; inversion 1; subst; [done|].
  f_equal; [congruence|by apply IH].
Qed.

Lemma answer_request_inv req :
  match answer_request t chunks req with
  | Ok resp => answers req resp
  | Err _ => forall resp, ~ answers req resp
  | Panic _ => False
  end.
Proof.
  rw /answer_request /decode_message_async /encode_message_async.
  destruct (decode_message req) as [[keys]|e|p] eqn:Hd; cbn [spawn_blocking].
  2, 3: intros resp (keys & found & Hk & _); congruence.
  rw bind_ok. cbn [requested_chunks]. pose proof (collect_lookup keys) as Hc. destruct (collect _ keys) as [found|e|p]; [|cbn|done].
  - rw bind_ok. destruct (encode_message t (mkSendChunks found)) as [resp|e|p] eqn:He; cbn [spawn_blocking].
    1: by exists keys, found.
    all: intros resp (keys' & found' & Hd' & Hf & He'); rewrite Hd in Hd'; injection Hd' as <-.
    all: by rewrite (found_det _ _ _ Hf Hc) He in He'.
  - intros resp (keys' & found & Hd' & Hf & _). rw Hd in Hd'. injection Hd' as <-. destruct Hc as (k & Hin & Hn).
    apply list_elem_of_lookup in Hin as [i Hi]. destruct (Forall2_lookup_l _ _ _ _ _ Hf Hi) as (c & _ & Hk). congruence.
Qed.

(** What the loop writes and comes to, in terms of the exchanges that it completes. *)
Lemma serve_any fuel i io total :
  (length io <= fuel)%nat ->
  exists es rest tail, io = requests_of es ++ rest /\
    Forall (fun e => answers (fst e) (snd e) /\ len (snd e) <= MESSAGE_SIZE_LIMIT) es /\
    (forall j, (j < length es)%nat -> writes (i + j) = Written) /\
    fst (serve fuel i io total) = responses_of es ++ tail /\
    loop_end (writes (i + length es)) rest (total + exchanged es) tail (snd (serve fuel i io total)).
Proof.
  elim: fuel i io total => [|fuel IH] i io total Hlen; cbn [serve];
    pose proof (read_message_inv io) as Hr; destruct (read_message io) as [[req rest]|e|p] eqn:Eio.
  1: { destruct Hr as [-> _]. rewrite length_app length_framed in Hlen. lia. }
  1, 4: subst e; exists [], io, []; split_and!; [done|done|by move=> j /=; lia|done|]; cbn; rw Z.add_0_r;
    destruct stop eqn:?; [by eapply end_of_stream|by apply end_silent].
  1, 3: subst p; exists [], io, []; split_and!; [done|done|by move=> j /=; lia|done|]; cbn; by apply end_oversized.
  destruct Hr as [Hio Hreq]. pose proof (answer_request_inv req) as Ha.
  destruct (answer_request t chunks req) as [resp|e|p]; [|cbn|done].
  2: { exists [], io, []. split_and!; [done|done|by move=> j /=; lia|done|]. by eapply end_refused. }
  rw bind_ok. pose proof (write_message_inv resp) as Hw. destruct (write_message resp) as [written|e|p]; [|done|cbn].
  2: { destruct Hw as [-> Hbig]. exists [], io, []. split_and!; [done|done|by move=> j /=; lia|done|]. by eapply end_too_large. }
  destruct Hw as [-> Hsmall]. rw bind_ok. destruct (writes i) as [|n e|n] eqn:Hwi.
  2: { exists [], io, (take n (framed resp)). split_and!; [done|done|by move=> j /=; lia|done|]. by eapply end_write_fails; rw ?Nat.add_0_r. }
  2: { exists [], io, (take n (framed resp)). split_and!; [done|done|by move=> j /=; lia|done|]. by eapply end_write_waits; rw ?Nat.add_0_r. }
  destruct (IH (S i) rest (total + len req + len resp)) as (es & rest' & tail & -> & Hes & Hws & Hout & Hend).
  { rewrite Hio length_app length_framed in Hlen. lia. }
  destruct (serve fuel _ _ _) as [out r]. cbn [fst snd] in Hout, Hend |- *.
  exists ((req, resp) :: es), rest', tail. split_and!.
  - by rw Hio /requests_of /= app_assoc.
  - by constructor.
  - move=> [|j] Hj; [by rw Nat.add_0_r|]. rw -Nat.add_succ_comm. apply Hws. cbn in Hj. lia.
  - by rw Hout /responses_of /= app_assoc.
  - cbn [length]. rw -Nat.add_succ_comm /exchanged /= -/(exchanged es). by rewrite !Z.add_assoc.
Qed.
End server.

(** Where the stream ends with the client's bytes and every response can be written, this is
    the loop of ProtocolUtils.v. *)
Lemma serve_provides `{HZ : Zstd, HRq : RmpSerde RequestChunksMessage, HRs : RmpSerde SendChunksMessage} t chunks fuel i io total :
  serve t chunks (Stops UnexpectedEof) (fun _ => Written) fuel i io total =
    (fst (provide_chunks fuel t chunks io total), Ends (snd (provide_chunks fuel t chunks io total))).
Proof.
  elim: fuel i io total => [|fuel IH] i io total; cbn [serve provide_chunks]; destruct (read_message io) as [[req rest]|e|p]; try done.
  all: destruct (mbind _ _) as [[written n]|e|p]; try done.
  rw IH. by destruct (provide_chunks fuel t chunks rest _).
Qed.

(** ** Properties *)

(** C28: [get_chunk] in any surroundings.  Nothing is assumed of the other end of the stream
    (it sends anything, or stops sending), of the stream (reads and writes fail, or wait for
    ever), of the mutex of the cache (it may be poisoned each time it is locked), of the
    contents of the cache when it is locked (other tasks put in and evict what they like,
    within its limit), or of the events that the task waits for (they may never be closed).
    A request for a prefetched chunk then begins at most as many turns as there are pending
    chunks, so it does not go round for ever; and where it stops, it waits in one of these
    places, or it returned the chunk, which is in the local cache, or an error, or it
    panicked, and there are four panics: a message above the size limit, a response with the
    wrong number of chunks, a chunk that another task fetched and that was evicted, and a
    poisoned mutex.  The loop of [fetcher_get_chunk] is one of these runs, if the other tasks
    close the events that it waits for. *)
Theorem fetch_with_any_peer `{Hb : Blake3, HZ : Zstd, HRq : RmpSerde RequestChunksMessage, HRs : RmpSerde SendChunksMessage}
  {HRa : RmpAlloc HRs} `{HM : LinkedHashMap M} {HMS : LinkedHashMapSpec M} (t : MessageTransport) key (s : ChunkFetcherProvider M)
  (Hprefetched : fetcher_ready s key) :
  (forall n o s', get_chunk_runs t key s n o s' ->
    (n <= length (cf_pending_chunks s))%nat /\
    match o with
    | Ends (Ok chunk) => cf_local_cache s' !! key = Some chunk
    | Ends (Err _) => True
    | Ends (Panic msg) => msg ∈ [oversized; wrong_count; not_in_cache; poisoned]
    | Waits => True
    | Running => fetcher_ready s' key
    end) /\
  (forall peer others, others_close others -> cache_sane (cf_chunk_cache s) -> exists n,
    get_chunk_runs t key s n (Ends (fst (fetcher_get_chunk t peer others key s))) (snd (fetcher_get_chunk t peer others key s))).
Proof.
  split; [intros n o s' Hrun; by destruct (get_chunk_runs_any t key s n o s' Hrun Hprefetched) as [? Ho]; split; [|destruct o as [[]| |]]|].
  intros peer others Hoth Hs. by apply get_chunk_loop_run.
Qed.

(** C29: the server's loop with any client.  The client sends any bytes, and then ends the
    stream, breaks it, or sends nothing more; the writing of a response may fail or never
    finish.  The stream begins with requests that are all answered, in order, with exactly
    the chunks that they name and within the size limit, and whose responses are all
    written; except for a part of one more response, nothing else is written.  Then one of
    these happens: no whole message is left, and the loop returns the number of bytes of all
    these messages if the stream ended or failed, and waits if nothing more comes; a request
    that has no answer, or the failing of a write, ends it with an error; a message above
    the size limit, received or to be sent, ends it with a panic; or the writing of a
    response waits for ever.  Where the stream just ends and all can be written,
    [provide_chunks_as_requested] does the same. *)
Theorem server_with_any_client `{HZ : Zstd, HRq : RmpSerde RequestChunksMessage, HRs : RmpSerde SendChunksMessage}
  (t : MessageTransport) (chunks : gmap ChunkKey bytes) (stop : StreamEnd) (writes : nat -> WriteResult) (io : bytes) :
  (exists es rest tail, io = requests_of es ++ rest /\
    Forall (fun e => answers t chunks (fst e) (snd e) /\ len (snd e) <= MESSAGE_SIZE_LIMIT) es /\
    (forall i, (i < length es)%nat -> writes i = Written) /\
    fst (serve t chunks stop writes (length io) 0 io 0) = responses_of es ++ tail /\
    loop_end t chunks stop (writes (length es)) rest (exchanged es) tail
      (snd (serve t chunks stop writes (length io) 0 io 0))) /\
  serve t chunks (Stops UnexpectedEof) (fun _ => Written) (length io) 0 io 0 =
    (fst (provide_chunks_as_requested t chunks io), Ends (snd (provide_chunks_as_requested t chunks io))).
Proof. split; [exact (serve_any t chunks stop writes (length io) 0 io 0 (Nat.le_refl _))|apply serve_provides]. Qed.

(** ** Witnesses *)

Lemma toy_alloc : RmpAlloc toy_send_rmp.
Proof.
  move=> [buf stop] m. cbn. rw /toy_unpack. intros Hm. destruct (try_get_u32 buf) as [[n rest]|e|p]; try done.
  rewrite bind_ok in Hm. destruct (toy_unpack_items _ _) as [l|e|p] eqn:Hl; try done. cbn in Hm. injection Hm as <-. cbn [sent_chunks].
  elim: (Z.to_nat n) rest l Hl => [|k IH] rest' l; cbn [toy_unpack_items]; first by intros <-%ok_inj.
  intros ([size b1] & Hs & H)%bind_ok_inv. apply bind_ok_inv in H as ([c b2] & Hc & (l' & Hl' & <-%ok_inj)%bind_ok_inv).
  constructor; [|by eapply IH]. pose proof (reads_u32 rest') as Hr. rewrite Hs in Hr. destruct Hr as [[Hr1 Hr2] _].
  pose proof (reads_slice size b1 Hr1) as Hrs. rewrite Hc in Hrs. destruct Hrs as [-> _]. lia.
Qed.

(** A peer that answers two requested chunks with one. *)
Definition short_peer : bytes -> bytes := fun _ => framed (Byte.x28 :: toy_pack [sample_chunk]).
Definition short_state : ChunkFetcherProvider AList :=
  mkFetcher (ChunkCache_new 1000) (mkStream [] 0) ∅ [toy_hash sample_chunk; toy_hash [Byte.x07]] 0.

(** The other tasks close the events. *)
Definition events_closed (c : ChunkCache AList) (w : list (ChunkKey * nat)) : ChunkCache AList :=
  mkChunkCache (cc_raw_cache c) (cc_pending_chunks c) (cc_needs_saving c) (cc_next_event c) (w.*2 ++ cc_closed c).

Lemma fetch_with_any_peer_witness :
  exists n s', @get_chunk_runs toy_blake3 toy_zstd toy_request_rmp toy_send_rmp AList _ sample_transport
      (toy_hash sample_chunk) short_state n (Ends (Panic wrong_count)) s' /\ (n <= 2)%nat.
Proof.
  destruct (@fetch_with_any_peer toy_blake3 toy_zstd toy_request_rmp toy_send_rmp toy_alloc AList _ _ sample_transport
    (toy_hash sample_chunk) short_state) as (Hall & Hrun).
  - right. left.
  - destruct (Hrun short_peer events_closed) as (n & Hn).
    + move=> c w Hc. split; [exact Hc|]. apply Forall_forall => x Hx. cbn. apply elem_of_app. left. by apply list_elem_of_fmap_2.
    + split; [by apply raw_inv_new|done].
    + exists n. match type of Hn with get_chunk_runs _ _ _ _ (Ends ?r) ?s' => exists s'; have Hr : r = Panic wrong_count by vm_compute end.
      rw Hr in Hn. split; [exact Hn|]. exact (proj1 (Hall _ _ _ Hn)).
Defined.

(** The loop on one request, for a chunk that is there, and then on one that is not. *)
Example server_any_client_sample :
  let request k := framed (Byte.x28 :: toy_pack [k]) in
  @provide_chunks_as_requested toy_zstd toy_request_rmp toy_send_rmp sample_transport sample_chunks
    (request (toy_hash sample_chunk) ++ request (toy_hash [Byte.x07])) =
  (framed (Byte.x28 :: toy_pack [sample_chunk]), Err (Anyhow "Client requested chunk that we don't have")).
Proof. by vm_compute. Qed.
