(* ===== verification/SharedCache.v ===== *)
(** * Transfers that share one cache

    The client runs a transfer per player (Factorio) or per packet (Nebula); all of them
    use one [ChunkCache], each through a [ChunkFetcherProvider] of its own.  Here any
    number of them run at the same time: every critical section of the cache is a step,
    and the tasks interleave freely.

    A task is the sequence of calls that its client makes on the provider: [prefetch] and
    [get_chunk] (common/src/protocol_utils.rs).  [get_chunk] is cut where it suspends: after
    the first critical section of [get_chunks_batched], while it waits for the batches of
    other tasks, and while it waits for the answer of its server. *)

From Stdlib Require Import ssreflect.
From stdpp Require Import base numbers list gmap strings relations.
From S2P Require Import Prelude Buf Chunker Dedup ChunkCache ProtocolUtils.

#[local] Open Scope general_if_scope.

(** ** Tasks *)

Inductive ProviderCall := CallPrefetch (ks : list ChunkKey) | CallGetChunk (key : ChunkKey).

(** Where a task is: at one of its calls, after [get_chunks_batched] gave it a batch to
    fetch, waiting for events, or ended by an error or a panic. *)
Inductive TaskPhase :=
| Calling
| Fetching (batch : BatchChunkRequest)
| Awaiting (pending_requests : list (ChunkKey * nat))
| Failed.

(** [ft_chunks]: the chunks that [get_chunk] has returned.  The cache of [ft_fetcher] is a
    reference to the shared one: it is put in at every step. *)
Record FetchTask (M : Type) := mkFetchTask {
  ft_fetcher : ChunkFetcherProvider M;
  ft_calls : list ProviderCall;
  ft_chunks : list bytes;
  ft_phase : TaskPhase;
}.
Arguments mkFetchTask {M}.
Arguments ft_fetcher {M}.
Arguments ft_calls {M}.
Arguments ft_chunks {M}.
Arguments ft_phase {M}.

Section tasks.
Context `{Blake3, Zstd, RmpSerde RequestChunksMessage, RmpSerde SendChunksMessage, LinkedHashMap M}.
Context (t : MessageTransport).

Definition with_cache (c : ChunkCache M) (s : ChunkFetcherProvider M) : ChunkFetcherProvider M :=
  mkFetcher c (cf_stream s) (cf_local_cache s) (cf_pending_chunks s) (cf_total_transferred s).

(** One turn of [get_chunk] whose key is not in the local cache, up to the point where
    [get_chunks_batched] returns or waits. *)
Definition begin_fetch (c : ChunkCache M) (task : FetchTask M) : ChunkCache M * FetchTask M :=
  let s := ft_fetcher task in
  match cf_pending_chunks s with
  | [] => (c, mkFetchTask s (ft_calls task) (ft_chunks task) Failed)
  | _ =>
      match get_chunks_batched c (cf_pending_chunks s) (cf_local_cache s) FETCH_BATCH_SIZE with
      | Ok (outcome, pending, local, c) =>
          let phase := match outcome with
            | AllServed => Calling
            | WaitFor w => Awaiting w
            | Fetch b => Fetching b
            end in
          (c, mkFetchTask (mkFetcher c (cf_stream s) local pending (cf_total_transferred s))
                (ft_calls task) (ft_chunks task) phase)
      | _ => (c, mkFetchTask s (ft_calls task) (ft_chunks task) Failed)
      end
  end.

(** The next step of a task; [None] if it has nothing to do or waits for an open event. *)
Definition task_step (peer : bytes -> bytes) (c : ChunkCache M) (task : FetchTask M)
  : option (ChunkCache M * FetchTask M) :=
  let s := ft_fetcher task in
  match ft_phase task, ft_calls task with
  | Calling, [] => None
  | Calling, CallPrefetch ks :: calls =>
      Some (c, mkFetchTask (fetcher_prefetch ks s) calls (ft_chunks task) Calling)
  | Calling, CallGetChunk key :: calls =>
      match cf_local_cache s !! key with
      | Some chunk => Some (c, mkFetchTask s calls (ft_chunks task ++ [chunk]) Calling)
      | None => Some (begin_fetch c task)
      end
  | Fetching b, calls =>
      match fetch_batch t peer b (with_cache c s) with
      | (Ok _, s) => Some (cf_chunk_cache s, mkFetchTask s calls (ft_chunks task) Calling)
      | (_, s) => Some (cf_chunk_cache s, mkFetchTask s calls (ft_chunks task) Failed)
      end
  | Awaiting w, calls =>
      if forallb (fun r => bool_decide (snd r ∈ cc_closed c)) w then
        match get_chunks_awaited c w (cf_local_cache s) with
        | Ok (c, local) =>
            Some (c, mkFetchTask (mkFetcher c (cf_stream s) local (cf_pending_chunks s) (cf_total_transferred s))
                       calls (ft_chunks task) Calling)
        | _ => Some (c, mkFetchTask s calls (ft_chunks task) Failed)
        end
      else None
  | Failed, _ => None
  end.

Definition phase_batches (p : TaskPhase) : list BatchChunkRequest := match p with Fetching b => [b] | _ => [] end.
Definition phase_waits (p : TaskPhase) : list (list (ChunkKey * nat)) := match p with Awaiting w => [w] | _ => [] end.

(** A task is in [Fetching] right after the step that gave it its batch: the chunks that
    this step has made it ask its server for. *)
Definition new_keys (task : FetchTask M) : list ChunkKey := phase_batches (ft_phase task) ≫= br_batch_keys.

(** The cache and the tasks; [peers] are the other ends of their streams. *)
Record SharedSystem := mkShared { sh_cache : ChunkCache M; sh_tasks : list (FetchTask M) }.

(** Task [i] steps and is then [task']. *)
Inductive shared_step (peers : list (bytes -> bytes)) (i : nat) : SharedSystem -> FetchTask M -> SharedSystem -> Prop :=
| shared_task c tasks task peer c' task' :
    tasks !! i = Some task -> peers !! i = Some peer -> task_step peer c task = Some (c', task') ->
    shared_step peers i (mkShared c tasks) task' (mkShared c' (<[i := task']> tasks)).

(** A run of so many steps, and the chunks that the servers are asked for. *)
Inductive shared_run (peers : list (bytes -> bytes)) : nat -> SharedSystem -> list ChunkKey -> SharedSystem -> Prop :=
| run_nil s : shared_run peers 0 s [] s
| run_snoc n s ks s1 i task s2 :
    shared_run peers n s ks s1 -> shared_step peers i s1 task s2 -> shared_run peers (S n) s (ks ++ new_keys task) s2.

(** A scheduler picks the tasks that step; one that cannot is passed over. *)
Fixpoint run_schedule (peers : list (bytes -> bytes)) (schedule : list nat) (s : SharedSystem)
  : nat * list ChunkKey * SharedSystem :=
  match schedule with
  | [] => (0%nat, [], s)
  | i :: schedule =>
      match sh_tasks s !! i, peers !! i with
      | Some task, Some peer =>
          match task_step peer (sh_cache s) task with
          | Some (c, task) =>
              let '(n, ks, s) := run_schedule peers schedule (mkShared c (<[i := task]> (sh_tasks s))) in
              (S n, new_keys task ++ ks, s)
          | None => run_schedule peers schedule s
          end
      | _, _ => run_schedule peers schedule s
      end
  end.

Lemma shared_run_cons peers n s i task s1 ks s2 :
  shared_step peers i s task s1 -> shared_run peers n s1 ks s2 -> shared_run peers (S n) s (new_keys task ++ ks) s2.
Proof.
  move=> Hstep Hrun. elim: Hrun Hstep => {n s1 ks s2} [s1|n s1 ks s2 j task2 s3 _ IH Hlast] Hstep.
  - rw app_nil_r. exact (run_snoc peers 0 s [] s i task s1 (run_nil peers s) Hstep).
  - rw app_assoc. by eapply run_snoc; [apply IH|].
Qed.

Lemma run_schedule_runs peers schedule s n ks s' :
  run_schedule peers schedule s = (n, ks, s') -> shared_run peers n s ks s'.
Proof.
  elim: schedule s n ks s' => [|i schedule IH] s n ks s'; cbn [run_schedule]; [intros [= <- <- <-]; constructor|].
  destruct (sh_tasks s !! i) as [task|] eqn:Ht; [|apply IH]. destruct (peers !! i) as [peer|] eqn:Hp; [|apply IH].
  destruct (task_step peer (sh_cache s) task) as [[c task']|] eqn:Hs; [|apply IH].
  destruct (run_schedule _ _ _) as [[n1 ks1] s1] eqn:Hr. intros [= <- <- <-]. eapply shared_run_cons; [|by apply IH].
  destruct s. by eapply shared_task.
Qed.
End tasks.
Arguments SharedSystem : clear implicits.

(** ** The work that is left

    Every step makes it smaller. *)

Definition call_work (call : ProviderCall) : nat :=
  match call with CallPrefetch ks => 1 + 2 * length ks | CallGetChunk _ => 1 end.

Definition phase_work (p : TaskPhase) : nat := match p with Fetching _ | Awaiting _ => 1 | _ => 0 end.

Definition task_work {M} (task : FetchTask M) : nat :=
  sum_list (call_work <$> ft_calls task) + 2 * length (cf_pending_chunks (ft_fetcher task)) + phase_work (ft_phase task).

Definition shared_work {M} (s : SharedSystem M) : nat := sum_list (task_work <$> sh_tasks s).

(** ** A cache with room

    Nothing is evicted while the cache holds its first entries and chunks that some server
    offers, if all of them fit. *)

Section room.
Context `{HM : LinkedHashMap M} {HMS : LinkedHashMapSpec M}.
Context (first : list (ChunkKey * bytes)) (known : gmap ChunkKey bytes).

Definition roomy (raw : RawChunkCache M) : Prop :=
  raw_inv raw /\ raw_entries raw ⊆ first ++ map_to_list known /\
  entries_size (first ++ map_to_list known) <= rc_max_size raw /\ rc_max_size raw + MAX_BLOB_SIZE < 2 ^ 64.

Definition cached (raw : RawChunkCache M) (k : ChunkKey) : Prop := is_Some (assoc k (raw_entries raw)).

Lemma entries_size_submseteq l l' : l ⊆+ l' -> entries_size l <= entries_size l'.
Proof.
  elim => [|[k v] l1 l2 _ IH|[k1 v1] [k2 v2] l1|[k v] l1 l2 _ IH|l1 l2 l3 _ IH1 _ IH2]; cbn [entries_size]; lia.
Qed.

Lemma raw_entries_nodup (raw : RawChunkCache M) : NoDup (raw_entries raw).
Proof. apply (NoDup_fmap_1 fst), raw_nodup. Qed.

Lemma cached_elem raw k : cached raw k <-> exists v, (k, v) ∈ raw_entries raw.
Proof.
  split; intros [v Hv]; exists v; [by apply assoc_elem|]. apply elem_assoc; [apply raw_nodup|done].
Qed.

Lemma cached_perm raw raw' k : raw_entries raw' ≡ₚ raw_entries raw -> cached raw k -> cached raw' k.
Proof. move=> Hp /cached_elem [v Hv]. apply cached_elem. exists v. by rw Hp. Qed.

Lemma roomy_perm raw raw' :
  roomy raw -> raw_inv raw' -> rc_max_size raw' = rc_max_size raw -> raw_entries raw' ≡ₚ raw_entries raw -> roomy raw'.
Proof. intros (_ & Hsub & Hsz & H64) Hi Hm Hp. rw /roomy Hm. split_and!; try done. move=> e. rw Hp. apply Hsub. Qed.

Lemma insert_room k v raw :
  roomy raw -> known !! k = Some v -> len v <= MAX_BLOB_SIZE ->
  exists raw', RawChunkCache_insert k v raw = Ok raw' /\ roomy raw' /\ rc_max_size raw' = rc_max_size raw /\
    cached raw' k /\ forall k', cached raw k' -> cached raw' k'.
Proof.
  intros (Hi & Hsub & Hsz & H64) Hk Hl.
  destruct (insert_ok k v raw Hi) as (raw' & Hins & Hi' & Hm & He); [lia|].
  have Hsub' : without k (raw_entries raw) ++ [(k, v)] ⊆ first ++ map_to_list known.
  { move=> e /elem_of_app [Hin|/list_elem_of_singleton ->]; [apply Hsub; by apply list_elem_of_filter in Hin as [_ ?]|].
    apply elem_of_app. right. by apply elem_of_map_to_list. }
  have Hnd : NoDup (without k (raw_entries raw) ++ [(k, v)]).
  { apply NoDup_app. split_and!; [by apply NoDup_filter, raw_entries_nodup| |apply NoDup_singleton].
    move=> e Hin /list_elem_of_singleton He'. subst e. by apply list_elem_of_filter in Hin as [Hne _]. }
  rw trim_fits in He; [etrans; [|exact Hsz]; by apply entries_size_submseteq, NoDup_submseteq|].
  exists raw'. split; [done|]. split; [rw /roomy He Hm; by split_and!|]. split; [done|].
  have Hc k' : cached raw' k' <-> exists v', (k', v') ∈ without k (raw_entries raw) ++ [(k, v)] by rw cached_elem He.
  split; [apply Hc; exists v; apply elem_of_app; right; by left|]. move=> k' /cached_elem [v' Hv']. apply Hc.
  destruct (decide (k' = k)) as [->|Hne]; [exists v; apply elem_of_app; right; by left|].
  exists v'. apply elem_of_app. left. by apply list_elem_of_filter.
Qed.

Lemma put_batch_cached batch raw pending raw' pending' :
  roomy raw -> Forall (fun e => known !! fst e = Some (snd e) /\ len (snd e) <= MAX_BLOB_SIZE) batch ->
  put_batch batch raw pending = Ok (raw', pending') ->
  roomy raw' /\ rc_max_size raw' = rc_max_size raw /\ forall k, cached raw k \/ k ∈ batch.*1 -> cached raw' k.
Proof.
  elim: batch raw pending => [|[k v] batch IH] raw pending Hr Hb; cbn [put_batch].
  { intros [<- _]%ok_pair_inj. split_and!; [done|done|]. move=> k [?|Hin]; [done|by inversion Hin]. }
  apply Forall_cons in Hb as [[Hk Hl] Hb]. cbn in Hk, Hl.
  destruct (insert_room k v raw Hr Hk Hl) as (raw1 & -> & Hr1 & Hm1 & Hc1 & Hc2). rw bind_ok => Heq.
  destruct (IH raw1 _ Hr1 Hb Heq) as (Hr2 & Hm2 & Hc3). split_and!; [done|by rw Hm2|].
  move=> k'. cbn [fmap list_fmap fst]. intros [Hin|[->|Hin]%elem_of_cons]; apply Hc3; [left; by apply Hc2|by left|by right].
Qed.

Lemma put_batch_room batch raw pending :
  roomy raw -> Forall (fun e => known !! fst e = Some (snd e) /\ len (snd e) <= MAX_BLOB_SIZE) batch ->
  exists raw' pending', put_batch batch raw pending = Ok (raw', pending') /\ roomy raw' /\
    (forall k, cached raw k \/ k ∈ batch.*1 -> cached raw' k) /\
    (forall k, pending' !! k = if decide (k ∈ batch.*1) then None else pending !! k).
Proof.
  move=> Hr Hb. destruct (put_batch_ok batch raw pending (proj1 Hr)) as (raw' & p' & Heq & _ & _ & _ & Hp).
  { destruct Hr as (_ & _ & _ & H64). eapply Forall_impl; [exact Hb|]. cbn beta. lia. }
  destruct (put_batch_cached _ _ _ _ _ Hr Hb Heq) as (? & _ & ?). by exists raw', p'.
Qed.
End room.

(** ** The cache under the steps of tasks *)

Section cache.
Context `{HM : LinkedHashMap M} {HMS : LinkedHashMapSpec M}.
Implicit Types c : ChunkCache M.

(** What an awaited request can rely on: its batch is outstanding, or it is done and the
    chunk is there. *)
Definition awaited_ok c (r : ChunkKey * nat) : Prop :=
  cc_pending_chunks c !! fst r = Some (snd r) \/ snd r ∈ cc_closed c /\ cached (cc_raw_cache c) (fst r).

(** A chunk is in the cache or on its way. *)
Definition held c (k : ChunkKey) : Prop := cached (cc_raw_cache c) k \/ is_Some (cc_pending_chunks c !! k).

Definition grows c c' : Prop :=
  (forall r, awaited_ok c r -> awaited_ok c' r) /\ (forall k, held c k -> held c' k).

Lemma grows_refl c : grows c c.
Proof. by split. Qed.

Lemma grows_raw c raw' : raw_entries raw' ≡ₚ raw_entries (cc_raw_cache c) -> grows c (with_raw c raw').
Proof.
  move=> Hp. split; [move=> r [?|[? ?]]; [by left|right]; split; [done|]; by eapply cached_perm|].
  move=> k [?|?]; [left; by eapply cached_perm|by right].
Qed.

Lemma grows_fetch c raw' ev keys :
  raw_entries raw' ≡ₚ raw_entries (cc_raw_cache c) -> Forall (fun k => cc_pending_chunks c !! k = None) keys ->
  grows c (mkChunkCache raw' (foldl (fun p key => <[key := ev]> p) (cc_pending_chunks c) keys)
    (cc_needs_saving c) (S ev) (cc_closed c)).
Proof.
  move=> Hp Hk. split.
  - move=> r [Hr|[? ?]]; [left|right; split; [done|by eapply cached_perm]]. cbn. rw pending_insert_batch.
    case_decide as Hin; [|done]. have := proj1 (Forall_forall _ _) Hk _ Hin. cbn beta. by rw Hr.
  - move=> k [?|Hk']; [left; by eapply cached_perm|right]. cbn. rw pending_insert_batch. by case_decide.
Qed.

Lemma take_awaited_cached w (raw : RawChunkCache M) out :
  raw_inv raw -> Forall (fun r => cached raw (fst r)) w ->
  exists raw' out', take_awaited w raw out = Ok (raw', out') /\ raw_inv raw' /\
    rc_max_size raw' = rc_max_size raw /\ raw_entries raw' ≡ₚ raw_entries raw /\
    (forall k v, out' !! k = Some v -> out !! k = Some v \/ k ∈ w.*1 /\ (k, v) ∈ raw_entries raw) /\
    (forall k, k ∈ w.*1 \/ is_Some (out !! k) -> is_Some (out' !! k)).
Proof.
  elim: w raw out => [|[k e] w IH] raw out Hi Hw; cbn [take_awaited].
  { exists raw, out. split_and!; try done; [by left|]. move=> k [Hin|?]; [by inversion Hin|done]. }
  apply Forall_cons in Hw as [[v Hv] Hw]. cbn in Hv.
  pose proof (get_perm k raw Hi) as Hg. destruct (RawChunkCache_get k raw) as [chunk raw1].
  destruct Hg as (-> & Hi1 & Hm1 & Hp1). rw Hv bind_ok.
  destruct (IH raw1 (<[k := v]> out) Hi1) as (raw2 & out2 & -> & Hi2 & Hm2 & Hp2 & Ho2 & Hin2).
  { eapply Forall_impl; [exact Hw|]. move=> r. by apply cached_perm. }
  exists raw2, out2. split_and!; [done|done|by rw Hm2|by rw Hp2| |].
  - move=> k' v' /Ho2 [Hl|[Hk' Hin]]; [|right; rw Hp1 in Hin; split; [by right|done]].
    destruct (decide (k' = k)) as [->|Hne]; [|rw lookup_insert_ne // in Hl; by left].
    rw lookup_insert_eq in Hl. injection Hl as <-. right. split; [by left|by apply assoc_elem].
  - move=> k'. cbn [fmap list_fmap fst]. intros Hk'. apply Hin2. destruct (decide (k' = k)) as [->|Hne].
    + right. by rw lookup_insert_eq.
    + destruct Hk' as [[?|?]%elem_of_cons|?]; [done|by left|right; by rw lookup_insert_ne].
Qed.
End cache.

(** ** Tasks and their servers *)

(** A transfer: the chunks its server offers, the other end of its stream, what was
    written and read on it before, and the calls of its client. *)
Record Transfer := mkTransfer {
  tr_chunks : gmap ChunkKey bytes;
  tr_peer : bytes -> bytes;
  tr_opening : bytes;
  tr_greeting : bytes;
  tr_calls : list ProviderCall;
}.

Definition task_new {M} (c : ChunkCache M) (tr : Transfer) : FetchTask M :=
  mkFetchTask (ChunkFetcherProvider_new c (mkStream (tr_opening tr) (len (tr_greeting tr)))) (tr_calls tr) [] Calling.

(** Only chunks of the server are asked for, and only after they were prefetched. *)
Fixpoint calls_ok (chunks : gmap ChunkKey bytes) (seen : list ChunkKey) (calls : list ProviderCall) : Prop :=
  match calls with
  | [] => True
  | CallPrefetch ks :: calls => Forall (fun k => is_Some (chunks !! k)) ks /\ calls_ok chunks (ks ++ seen) calls
  | CallGetChunk k :: calls => k ∈ seen /\ calls_ok chunks seen calls
  end.

(** What the calls return. *)
Definition expected (chunks : gmap ChunkKey bytes) (calls : list ProviderCall) : list bytes :=
  omap (fun call => match call with CallGetChunk k => Some (default [] (chunks !! k)) | _ => None end) calls.

(** ** The calls of a client

    The calls that a client makes on a provider that has the chunks.  A client only sees
    what its calls return: a task whose calls return the same chunks makes the same calls. *)

Section record.
Context (served : gmap ChunkKey bytes).

Definition record_provider : ChunkProvider (list ProviderCall) := {|
  prefetch ks log := log ++ [CallPrefetch ks];
  get_chunk k log := (expect (served !! k) "No such key", log ++ [CallGetChunk k]);
|}.

Definition prefetched (seen : list ChunkKey) (calls : list ProviderCall) : list ChunkKey :=
  foldl (fun seen call => match call with CallPrefetch ks => ks ++ seen | CallGetChunk _ => seen end) seen calls.

Lemma calls_ok_app seen l1 l2 :
  calls_ok served seen (l1 ++ l2) <-> calls_ok served seen l1 /\ calls_ok served (prefetched seen l1) l2.
Proof. elim: l1 seen => [|[ks|k] l1 IH] seen; cbn; [tauto|rw IH; tauto..]. Qed.

(** Every client that keeps to the laws of a provider may be a task. *)
Definition record_provider_spec : @ProviderSpec _ record_provider (fun k => served !! k).
Proof.
  refine (@Build_ProviderSpec _ record_provider _ (calls_ok served []) (fun log k => k ∈ prefetched [] log) _ _).
  - move=> ks log Hok Hks. split; [apply calls_ok_app; by split_and!|]. move=> k. cbn. rw /prefetched foldl_app. cbn.
    rw elem_of_app. tauto.
  - move=> k v log Hok Hk Hv. eexists. split; [cbn; by rw Hv|]. split; [apply calls_ok_app; by split_and!|].
    move=> k'. by rw /prefetched foldl_app.
Defined.

Lemma reconstruct_calls_ok h fuel root cs :
  denotes (fun k => served !! k) h root cs -> (h < fuel)%nat ->
  exists calls, reconstruct_data (H := record_provider) fuel root [] = (cs, Ok tt, calls) /\ calls_ok served [] calls.
Proof.
  intros Hd Hf. destruct (@reconstruct_runs _ record_provider _ record_provider_spec h fuel root cs [] Hd Hf I) as (calls & Heq & Hc & _).
  by exists calls.
Qed.
End record.

Section simulation.
Context `{Hb : Blake3} `{HZ : Zstd} {HZS : ZstdSpec HZ} {HZB : ZstdBound HZ}.
Context `{HRq : RmpSerde RequestChunksMessage} {HRqS : RmpSpec RequestChunksMessage request_size}.
Context `{HRs : RmpSerde SendChunksMessage} {HRsS : RmpSpec SendChunksMessage send_size}.
Context `{HM : LinkedHashMap M} {HMS : LinkedHashMapSpec M}.
Context (t : MessageTransport) (first : list (ChunkKey * bytes)) (known : gmap ChunkKey bytes).
(** What the cache holds at the beginning does not contradict the servers. *)
Context (Hfirst : forall k v v', (k, v) ∈ first -> known !! k = Some v' -> v = v').
Implicit Types (c : ChunkCache M) (task : FetchTask M).

(** The server's loop at the other end, with blobs that all servers agree on. *)
Definition transfer_ok (tr : Transfer) : Prop :=
  (forall io, tr_peer tr (tr_opening tr ++ io) = tr_greeting tr ++ server_peer t (tr_chunks tr) io) /\
  (forall k v, tr_chunks tr !! k = Some v -> (length k = 32%nat /\ len v <= MAX_BLOB_SIZE) /\ blake3_hash v = k) /\
  tr_chunks tr ⊆ known /\ calls_ok (tr_chunks tr) [] (tr_calls tr).

(** A key that was prefetched: it is here, or it is asked for. *)
Definition task_ready task (k : ChunkKey) : Prop :=
  fetcher_ready (ft_fetcher task) k \/
  match ft_phase task with
  | Fetching b => k ∈ br_batch_keys b
  | Awaiting w => k ∈ w.*1
  | _ => False
  end.

Definition local_ok (chunks local : gmap ChunkKey bytes) : Prop :=
  forall k v, local !! k = Some v -> chunks !! k = Some v.

Record task_ok c (tr : Transfer) task : Prop := {
  tk_local : local_ok (tr_chunks tr) (cf_local_cache (ft_fetcher task));
  tk_pending : Forall (fun k => is_Some (tr_chunks tr !! k)) (cf_pending_chunks (ft_fetcher task));
  tk_stream : stream_inv t (tr_chunks tr) (tr_opening tr) (tr_greeting tr) (ft_fetcher task);
  tk_phase : match ft_phase task with
    | Calling => True
    | Fetching b => good_request (tr_chunks tr) (br_batch_keys b)
    | Awaiting w => Forall (fun r => is_Some (tr_chunks tr !! fst r) /\ awaited_ok c r) w
    | Failed => False
    end;
  tk_calls : exists seen, calls_ok (tr_chunks tr) seen (ft_calls task) /\ Forall (task_ready task) seen;
  tk_chunks : ft_chunks task ++ expected (tr_chunks tr) (ft_calls task) = expected (tr_chunks tr) (tr_calls tr);
}.

Lemma task_ok_grows c c' tr task : grows c c' -> task_ok c tr task -> task_ok c' tr task.
Proof.
  intros Hg [H1 H2 H3 H4 H5 H6]. split; try done. destruct (ft_phase task); try done.
  eapply Forall_impl; [exact H4|]. intros r [? ?]. split; [done|by apply (proj1 Hg)].
Qed.

Lemma task_new_ok c tr : transfer_ok tr -> task_ok c tr (task_new c tr).
Proof.
  intros (_ & _ & _ & Hc). split; [|by constructor| |done| |done].
  - move=> k v. cbn. by rw lookup_empty.
  - by apply stream_inv_new.
  - exists []. by split.
Qed.

(** The chunks that a request of a task finds are those of the servers. *)
Lemma entries_known raw tr k v :
  roomy first known raw -> transfer_ok tr -> is_Some (tr_chunks tr !! k) -> (k, v) ∈ raw_entries raw ->
  tr_chunks tr !! k = Some v.
Proof.
  intros (_ & Hsub & _) (_ & _ & Hk & _) [v' Hv'] Hin. have Hkn := lookup_weaken _ _ _ _ Hv' Hk. rw Hv'. f_equal.
  apply Hsub, elem_of_app in Hin as [Hin|Hin%elem_of_map_to_list]; [symmetry; by eapply Hfirst|congruence].
Qed.

Lemma found_known tr keys :
  transfer_ok tr -> Forall (fun k => is_Some (tr_chunks tr !! k)) keys ->
  Forall (fun e => known !! fst e = Some (snd e) /\ len (snd e) <= MAX_BLOB_SIZE) (zip keys (found (tr_chunks tr) keys)).
Proof.
  intros (_ & Hok & Hk & _). rw /found. elim => [|k ks [v Hv] _ IH]; [constructor|]. cbn. constructor; [|exact IH].
  cbn. rw Hv. cbn. split; [by eapply lookup_weaken|]. by destruct (Hok k v Hv) as [[_ ?] _].
Qed.

(** The cache and one task, with the batches and the waits of the others. *)
Definition good c (tr : Transfer) task bs ws : Prop :=
  roomy first known (cc_raw_cache c) /\ task_ok c tr task /\
  system_inv (mkSystem c (phase_batches (ft_phase task) ++ bs) (phase_waits (ft_phase task) ++ ws)).

(** What a step of a task achieves; a batch that it begins consists of chunks that
    nobody has and nobody asked for. *)
Definition step_ok c tr task bs ws c' task' : Prop :=
  good c' tr task' bs ws /\ grows c c' /\ (task_work task' < task_work task)%nat /\
  NoDup (new_keys task') /\ Forall (fun k => ~ held c k /\ held c' k) (new_keys task').

Lemma prefetch_ok c tr task bs ws ks calls :
  good c tr task bs ws -> ft_phase task = Calling -> ft_calls task = CallPrefetch ks :: calls ->
  step_ok c tr task bs ws c (mkFetchTask (fetcher_prefetch ks (ft_fetcher task)) calls (ft_chunks task) Calling).
Proof.
  intros (Hr & [H1 H2 H3 H4 (seen & Hc & Hs) H6] & Hsys) Hph Hcalls. rw Hcalls in Hc H6. destruct Hc as [Hks Hc].
  split; [|split; [apply grows_refl|split; [|by split; constructor]]].
  - split; [done|]. split; [|by rw Hph in Hsys]. split; cbn; try done.
    + apply Forall_app. split; [done|]. apply Forall_forall => k /list_elem_of_filter [_ Hk]. exact (proj1 (Forall_forall _ _) Hks k Hk).
    + exists (ks ++ seen). split; [done|]. apply Forall_app. split.
      * apply Forall_forall => k Hk. left. rw /fetcher_ready. cbn.
        destruct (cf_local_cache (ft_fetcher task) !! k) eqn:E; [by left; eexists|]. right. apply elem_of_app. right. by apply list_elem_of_filter.
      * eapply Forall_impl; [exact Hs|]. move=> k. rw /task_ready Hph. intros [[?|?]|[]]; left; [by left|right]. cbn. apply elem_of_app. by left.
  - rw /task_work Hph Hcalls. cbn. rw length_app.
    match goal with |- context [length (filter ?P ks)] => pose proof (length_filter P ks) end. lia.
Qed.

Lemma local_hit_ok c tr task bs ws k chunk calls :
  good c tr task bs ws -> ft_phase task = Calling -> ft_calls task = CallGetChunk k :: calls ->
  cf_local_cache (ft_fetcher task) !! k = Some chunk ->
  step_ok c tr task bs ws c (mkFetchTask (ft_fetcher task) calls (ft_chunks task ++ [chunk]) Calling).
Proof.
  intros (Hr & [H1 H2 H3 H4 (seen & Hc & Hs) H6] & Hsys) Hph Hcalls Hl. rw Hcalls in Hc H6. destruct Hc as [Hk Hc].
  split; [|split; [apply grows_refl|split; [rw /task_work Hph Hcalls; cbn; lia|by split; constructor]]].
  split; [done|]. split; [|by rw Hph in Hsys]. split; cbn; try done.
  - exists seen. split; [done|]. eapply Forall_impl; [exact Hs|]. move=> k'. by rw /task_ready Hph.
  - rw -H6. cbn. by rw (H1 k chunk Hl) -app_assoc.
Qed.

(** What [get_chunks_batched] leaves to a task. *)
Lemma batched_task_ok c tr task bs ws outcome retained raw' out' batch pending' c' :
  good c tr task bs ws -> transfer_ok tr -> ft_phase task = Calling ->
  retained_spec (cf_pending_chunks (ft_fetcher task)) (cc_raw_cache c) (cc_pending_chunks c) FETCH_BATCH_SIZE
    (cf_local_cache (ft_fetcher task)) [] retained raw' out' batch ->
  (forall k, k ∈ retained -> k ∈ pending' \/ match outcome with Awaiting w => k ∈ w.*1 | _ => False end) ->
  pending' ⊆ retained -> (forall k, k ∈ batch -> match outcome with Fetching b => k ∈ br_batch_keys b | _ => False end) ->
  match outcome with
  | Calling => True
  | Fetching b => br_batch_keys b = batch
  | Awaiting w => w.*1 = retained /\ Forall (awaited_ok c') w
  | Failed => False
  end ->
  task_ok c' tr (mkFetchTask (mkFetcher c' (cf_stream (ft_fetcher task)) out' pending' (cf_total_transferred (ft_fetcher task)))
    (ft_calls task) (ft_chunks task) outcome).
Proof.
  intros (Hr & [H1 H2 H3 H4 (seen & Hc & Hs) H6] & _) Htr Hph
    (G1 & G2 & G3 & (extra & Ge & Gx) & G5 & G6 & G7 & G8 & G9 & G10 & G11) Hret Hsub Hbatch Hout.
  have Hknown k : k ∈ cf_pending_chunks (ft_fetcher task) -> is_Some (tr_chunks tr !! k) by apply (proj1 (Forall_forall _ _) H2).
  have Hrk k : k ∈ retained -> is_Some (tr_chunks tr !! k).
  { move=> Hk. apply Hknown. by destruct (proj1 (Forall_forall _ _) G7 k Hk) as [? _]. }
  split; cbn.
  - move=> k v /G9 [/H1 //|[Hk Hin]]. by apply (entries_known (cc_raw_cache c)); auto.
  - apply Forall_forall => k Hk. by apply Hrk, Hsub.
  - exact H3.
  - cbn in Ge. subst extra. destruct outcome as [|b|w|]; [done| |destruct Hout as [Hw Ha]|done].
    + rw Hout. split; [by apply G6|]. eapply Forall_impl; [exact Gx|]. cbn beta. intros k [? _]. by apply Hknown.
    + apply Forall_forall => r Hin. split; [|exact (proj1 (Forall_forall _ _) Ha r Hin)].
      apply Hrk. rw -Hw. by apply list_elem_of_fmap_2.
  - exists seen. split; [done|]. eapply Forall_impl; [exact Hs|]. move=> k. rw /task_ready Hph /fetcher_ready. cbn.
    intros [[?|Hk]|[]]; [left; left; by apply G10|]. destruct (G8 k Hk) as [?|[Hk'|Hk']]; [by left; left| |].
    + right. have := Hbatch k Hk'. by destruct outcome.
    + destruct (Hret k Hk') as [?|Hw]; [by left; right|right]. by destruct outcome.
  - exact H6.
Qed.

Lemma begin_fetch_ok c tr task bs ws k calls :
  good c tr task bs ws -> transfer_ok tr -> ft_phase task = Calling -> ft_calls task = CallGetChunk k :: calls ->
  cf_local_cache (ft_fetcher task) !! k = None ->
  let '(c', task') := begin_fetch c task in step_ok c tr task bs ws c' task'.
Proof.
  intros Hgood Htr Hph Hcalls Hl. pose proof Hgood as (Hr & [_ _ _ _ (seen & Hc & Hs) _] & Hsys).
  have Hne : cf_pending_chunks (ft_fetcher task) <> [].
  { rw Hcalls in Hc. destruct Hc as [Hk _]. have := proj1 (Forall_forall _ _) Hs k Hk. rw /task_ready Hph /fetcher_ready Hl.
    intros [[[? ?]|Hin]|[]]; [done|]. by destruct (cf_pending_chunks _); [inversion Hin|]. }
  rw /begin_fetch. destruct (cf_pending_chunks (ft_fetcher task)) as [|k0 ks] eqn:Hpe; [done|]. rw -Hpe.
  destruct (get_chunks_batched_ok c (cf_pending_chunks (ft_fetcher task)) (cf_local_cache (ft_fetcher task)) FETCH_BATCH_SIZE)
    as (o & rq & out & c' & Heq & raw & Hspec & Ho); [apply Hr|done|].
  rw Heq. pose proof Hspec as (G1 & G2 & G3 & (extra & Ge & Gx) & G5 & _ & _ & _ & _ & _ & G11).
  have Hr' : roomy first known raw by apply (roomy_perm _ _ (cc_raw_cache c)).
  rw Hph in Hsys. cbn [phase_batches phase_waits app] in Hsys.
  destruct o as [b| |w].
  - destruct Ho as (Hbne & Hev & ->). cbn in Ge. subst extra. split; [|split; [|split]].
    + split; [exact Hr'|]. split; [by eapply (batched_task_ok c tr task bs ws (Fetching b)); eauto|].
      by eapply cache_step_inv; [eapply step_fetch; [|exact Heq]|].
    + apply grows_fetch; [done|]. eapply Forall_impl; [exact Gx|]. cbn beta. by intros ? (_ & _ & ?).
    + rw /task_work Hph. cbn. destruct (br_batch_keys b); [done|]. cbn in G11. lia.
    + rw /new_keys. cbn. rw app_nil_r. split; [apply G5; constructor|]. apply Forall_forall => k' Hk'.
      destruct (proj1 (Forall_forall _ _) Gx k' Hk') as (_ & Hna & Hnp). split.
      * intros [[? ?]|[? ?]]; congruence.
      * right. cbn. rw pending_insert_batch. by case_decide.
  - destruct Ho as [-> ->]. split; [|split; [by apply grows_raw|split; [|by split; constructor]]].
    + split; [exact Hr'|]. split; [|by eapply cache_step_inv; [eapply step_served; [|exact Heq]|]].
      eapply (batched_task_ok c tr task bs ws Calling); try done; set_solver.
    + rw /task_work Hph Hpe. cbn. lia.
  - destruct Ho as (-> & -> & Hw & Hpend). split; [|split; [by apply grows_raw|split; [|by split; constructor]]].
    + split; [exact Hr'|]. split; [|by eapply cache_step_inv; [eapply step_wait; [|exact Heq]|]].
      eapply (batched_task_ok c tr task bs ws (Awaiting w)); try done; [by right|set_solver|set_solver|]. split; [done|].
      eapply Forall_impl; [exact Hpend|]. move=> r Hp. by left.
    + rw /task_work Hph Hpe. cbn. lia.
Qed.

(** Fulfilling a batch: the chunks are there, and those who wait for them may go on. *)
Lemma fulfill_ok c tr b bs ws :
  roomy first known (cc_raw_cache c) -> transfer_ok tr -> good_request (tr_chunks tr) (br_batch_keys b) ->
  system_inv (mkSystem c (b :: bs) ws) ->
  exists c', BatchChunkRequest_fulfill c b (found (tr_chunks tr) (br_batch_keys b)) = Ok c' /\
    roomy first known (cc_raw_cache c') /\ grows c c' /\ system_inv (mkSystem c' bs ws).
Proof.
  intros Hr Htr [_ Hkeys] Hsys. have Hfk := found_known tr (br_batch_keys b) Htr Hkeys.
  have Hfst : (zip (br_batch_keys b) (found (tr_chunks tr) (br_batch_keys b))).*1 = br_batch_keys b
    by apply fst_zip; rw /found length_fmap.
  destruct (put_batch_room first known _ (cc_raw_cache c) (cc_pending_chunks c) Hr Hfk) as (raw' & p' & Hput & Hr' & Hc & Hp).
  rw Hfst in Hc Hp.
  have Hful : BatchChunkRequest_fulfill c b (found (tr_chunks tr) (br_batch_keys b)) =
      Ok (mkChunkCache raw' p' (cc_needs_saving c) (cc_next_event c) (br_event b :: cc_closed c)).
  { rw /BatchChunkRequest_fulfill {1}/found length_fmap Nat.eqb_refl. cbn [negb]. by rw Hput. }
  eexists. split; [exact Hful|]. split; [exact Hr'|]. split.
  - split; last by move=> k [?|Hpk]; rw /held; cbn; [left; apply Hc; by left|]; rw Hp; case_decide; [left; apply Hc; by right|by right].
    move=> [k e] [Hpk|[Hcl Hck]]; rw /awaited_ok; cbn; [|right; split; [by right|apply Hc; by left]]. cbn in Hpk.
    rw Hp. case_decide as Hin; [|by left]. right. split; [|apply Hc; by right].
    destruct Hsys as (_ & _ & _ & H4 & _). have Hev := proj2 (H4 k (br_event b)). cbn in Hev.
    rw Hev in Hpk; [exists b; split_and!; [by left|done|done]|]. injection Hpk as <-. by left.
  - eapply (fulfill_inv c [] b bs ws); [exact Hsys| |exact Hful]. apply Forall_forall => v Hv.
    apply list_elem_of_fmap in Hv as (k & -> & Hk). destruct (proj1 (Forall_forall _ _) Hkeys k Hk) as [v Hv].
    destruct Htr as (_ & Hok & _). destruct (Hok k v Hv) as [[_ Hl] _]. destruct Hr as (_ & _ & _ & H64). rw Hv. cbn. lia.
Qed.

Lemma fetching_ok c tr task bs ws b :
  good c tr task bs ws -> transfer_ok tr -> ft_phase task = Fetching b ->
  exists s, fetch_batch t (tr_peer tr) b (with_cache c (ft_fetcher task)) = (Ok tt, s) /\
    step_ok c tr task bs ws (cf_chunk_cache s) (mkFetchTask s (ft_calls task) (ft_chunks task) Calling).
Proof.
  intros (Hr & [H1 H2 H3 H4 (seen & Hc & Hs) H6] & Hsys) Htr Hph. rw Hph in H4 Hsys. cbn [phase_batches phase_waits app] in Hsys.
  destruct (fulfill_ok c tr b bs ws Hr Htr H4 Hsys) as (c' & Hful & Hr' & Hg & Hsys').
  pose proof Htr as (Hpeer & Hok & _).
  destruct (fetch_batch_ok t (tr_chunks tr) (fun k v Hv => proj1 (Hok k v Hv)) (fun k v Hv => proj2 (Hok k v Hv))
    (tr_peer tr) (tr_opening tr) (tr_greeting tr) Hpeer b (with_cache c (ft_fetcher task)) c')
    as (s & Heq & Hcs & Hpe & Hlok & Hlin & Hst); [done|done|done|done|].
  cbn in Hpe, Hlin. exists s. split; [exact Heq|]. rw Hcs. split; [|split; [done|split; [|by split; constructor]]].
  - split; [done|]. split; [|done]. split; cbn; try done; [by rw Hpe|]. exists seen. split; [done|].
    eapply Forall_impl; [exact Hs|]. move=> k. rw /task_ready Hph /fetcher_ready. cbn. rw Hpe.
    intros [[?|?]|?]; left; [left; apply Hlin; by right|by right|left; apply Hlin; by left].
  - rw /task_work Hph. cbn. rw Hpe. lia.
Qed.

Lemma awaiting_ok c tr task bs ws w :
  good c tr task bs ws -> transfer_ok tr -> ft_phase task = Awaiting w -> Forall (fun r => snd r ∈ cc_closed c) w ->
  exists c' local, get_chunks_awaited c w (cf_local_cache (ft_fetcher task)) = Ok (c', local) /\
    step_ok c tr task bs ws c' (mkFetchTask (mkFetcher c' (cf_stream (ft_fetcher task)) local
      (cf_pending_chunks (ft_fetcher task)) (cf_total_transferred (ft_fetcher task))) (ft_calls task) (ft_chunks task) Calling).
Proof.
  intros (Hr & [H1 H2 H3 H4 (seen & Hc & Hs) H6] & Hsys) Htr Hph Hcl. rw Hph in H4 Hsys. cbn [phase_batches phase_waits app] in Hsys.
  have Hcached : Forall (fun r => cached (cc_raw_cache c) (fst r)) w.
  { apply Forall_forall => r Hin. destruct (proj1 (Forall_forall _ _) H4 r Hin) as [_ [Hp|[_ ?]]]; [|done]. exfalso.
    destruct Hsys as (_ & _ & _ & G4 & G5 & _). cbn in G4, G5. destruct (proj1 (G4 _ _) Hp) as (b & Hb' & He & _).
    destruct (proj1 (Forall_forall _ _) G5 b Hb') as [_ Hn]. apply Hn. rw He. exact (proj1 (Forall_forall _ _) Hcl r Hin). }
  destruct (take_awaited_cached w (cc_raw_cache c) (cf_local_cache (ft_fetcher task)) (proj1 Hr) Hcached)
    as (raw' & local & Ht & Hi & Hm & Hp & Ho & Hin).
  have Heq : get_chunks_awaited c w (cf_local_cache (ft_fetcher task)) = Ok (with_raw c raw', local)
    by rw /get_chunks_awaited Ht bind_ok.
  exists (with_raw c raw'), local. split; [done|]. split; [|split; [by apply grows_raw|split; [rw /task_work Hph; cbn; lia|by split; constructor]]].
  split; [by apply (roomy_perm _ _ (cc_raw_cache c))|]. split; [split; cbn; try done|].
  - move=> k v /Ho [/H1 //|[Hk Hv]]. apply (entries_known (cc_raw_cache c)); try done.
    apply list_elem_of_fmap in Hk as (r & -> & Hr'). by destruct (proj1 (Forall_forall _ _) H4 r Hr').
  - exists seen. split; [done|]. eapply Forall_impl; [exact Hs|]. move=> k. rw /task_ready Hph /fetcher_ready. cbn.
    intros [[?|?]|?]; left; [left; apply Hin; by right|by right|left; apply Hin; by left].
  - exact (cache_step_inv _ _ (step_wake c bs [] w ws _ _ _ Hcl Heq) Hsys).
Qed.

(** Every step of a task. *)
Lemma task_step_ok c tr task bs ws c' task' :
  good c tr task bs ws -> transfer_ok tr -> task_step t (tr_peer tr) c task = Some (c', task') ->
  step_ok c tr task bs ws c' task'.
Proof.
  intros Hgood Htr. rw /task_step. destruct (ft_phase task) as [|b|w|] eqn:Hph.
  - destruct (ft_calls task) as [|[ks|k] calls] eqn:Hcalls; [done| |].
    + intros [= <- <-]. by apply prefetch_ok.
    + destruct (cf_local_cache (ft_fetcher task) !! k) as [chunk|] eqn:Hl; [intros [= <- <-]; by apply (local_hit_ok _ _ _ _ _ k)|].
      have := begin_fetch_ok c tr task bs ws k calls Hgood Htr Hph Hcalls Hl.
      destruct (begin_fetch c task) as [c1 t1]. by move=> H [= <- <-].
  - destruct (fetching_ok c tr task bs ws b Hgood Htr Hph) as (s & -> & Hok). by intros [= <- <-].
  - destruct (forallb _ w) eqn:Hf; [|done]. have Hcl : Forall (fun r => snd r ∈ cc_closed c) w.
    { apply Forall_forall => r /list_elem_of_In Hin. by have := proj1 (forallb_forall _ _) Hf r Hin; case_bool_decide. }
    destruct (awaiting_ok c tr task bs ws w Hgood Htr Hph Hcl) as (c1 & local & -> & Hok). by intros [= <- <-].
  - done.
Qed.

(** ** All tasks together *)

Definition task_batches (tasks : list (FetchTask M)) : list BatchChunkRequest := tasks ≫= (fun task => phase_batches (ft_phase task)).
Definition task_waits (tasks : list (FetchTask M)) : list (list (ChunkKey * nat)) := tasks ≫= (fun task => phase_waits (ft_phase task)).

Context (transfers : list Transfer) (Htransfers : Forall transfer_ok transfers).

Record shared_inv (s : SharedSystem M) : Prop := {
  si_room : roomy first known (cc_raw_cache (sh_cache s));
  si_cache : system_inv (mkSystem (sh_cache s) (task_batches (sh_tasks s)) (task_waits (sh_tasks s)));
  si_tasks : Forall2 (task_ok (sh_cache s)) transfers (sh_tasks s);
}.

Lemma task_batches_middle l1 task l2 :
  task_batches (l1 ++ task :: l2) ≡ₚ phase_batches (ft_phase task) ++ task_batches (l1 ++ l2).
Proof. rw /task_batches !bind_app. cbn. by rw !app_assoc (Permutation_app_comm (l1 ≫= _)). Qed.

Lemma task_waits_middle l1 task l2 :
  task_waits (l1 ++ task :: l2) ≡ₚ phase_waits (ft_phase task) ++ task_waits (l1 ++ l2).
Proof. rw /task_waits !bind_app. cbn. by rw !app_assoc (Permutation_app_comm (l1 ≫= _)). Qed.

(** One task of the system, and the others. *)
Lemma shared_inv_good c l1 task l2 tr :
  shared_inv (mkShared c (l1 ++ task :: l2)) -> transfers !! length l1 = Some tr ->
  good c tr task (task_batches (l1 ++ l2)) (task_waits (l1 ++ l2)).
Proof.
  intros [Hr Hs Ht] Htr. cbn in *. split; [done|]. split; last first.
  - eapply system_inv_perm; [apply task_batches_middle|apply task_waits_middle|done].
  - eapply Forall2_lookup_lr; [exact Ht|exact Htr|]. by rw lookup_app_r // Nat.sub_diag.
Qed.

(** A step of one task is a step of the system. *)
Lemma step_ok_shared c l1 task l2 tr c' task' :
  shared_inv (mkShared c (l1 ++ task :: l2)) -> transfers !! length l1 = Some tr ->
  step_ok c tr task (task_batches (l1 ++ l2)) (task_waits (l1 ++ l2)) c' task' ->
  shared_inv (mkShared c' (l1 ++ task' :: l2)) /\
  (shared_work (mkShared c' (l1 ++ task' :: l2)) < shared_work (mkShared c (l1 ++ task :: l2)))%nat.
Proof.
  intros [Hr Hs Ht] Htr ((Hr' & Hok & Hs') & Hg & Hw & _). cbn in *. split; last first.
  - rw /shared_work. cbn. rw !fmap_app !fmap_cons !sum_list_with_app. cbn. lia.
  - split; [done| |]; cbn.
    + eapply system_inv_perm; [symmetry; apply task_batches_middle|symmetry; apply task_waits_middle|done].
    + apply Forall2_app_inv_r in Ht as (t1 & t2 & H1 & H2 & Heq). apply Forall2_cons_inv_r in H2 as (tr' & t3 & Htr' & H3 & ->).
      have Htr2 : tr' = tr by move: Htr; rw Heq -(Forall2_length _ _ _ H1) lookup_app_r // Nat.sub_diag => -[= ->].
      rw Heq Htr2. apply Forall2_app; [|constructor; [done|]]; (eapply Forall2_impl; [eassumption|]; move=> ? ?; by apply task_ok_grows).
Qed.

Lemma shared_split (tasks : list (FetchTask M)) i task task' :
  tasks !! i = Some task -> exists l1 l2, tasks = l1 ++ task :: l2 /\ <[i := task']> tasks = l1 ++ task' :: l2 /\ i = length l1.
Proof.
  intros (l1 & l2 & -> & ->)%list_elem_of_split_length. exists l1, l2. split; [done|]. split; [|done].
  have := insert_app_r l1 (task :: l2) 0 task'. by rw Nat.add_0_r.
Qed.

Abbreviation peers := (tr_peer <$> transfers).

(** A step keeps the invariant, takes up work, and asks only for chunks that nobody holds. *)
Lemma shared_step_ok i s task s' :
  shared_inv s -> shared_step t peers i s task s' ->
  shared_inv s' /\ (shared_work s' < shared_work s)%nat /\ grows (sh_cache s) (sh_cache s') /\
  NoDup (new_keys task) /\ Forall (fun k => ~ held (sh_cache s) k /\ held (sh_cache s') k) (new_keys task).
Proof.
  intros Hi Hst. destruct Hst as [c tasks task0 peer c' task' Htask Hpeer Hstep].
  rw list_lookup_fmap in Hpeer. apply fmap_Some in Hpeer as (tr & Htr & ->).
  destruct (shared_split tasks i task0 task' Htask) as (l1 & l2 & -> & -> & ->).
  pose proof (task_step_ok _ _ _ _ _ _ _ (shared_inv_good _ _ _ _ _ Hi Htr) (Forall_lookup_1 _ _ _ _ Htransfers Htr) Hstep) as Hok.
  destruct (step_ok_shared _ _ _ _ _ _ _ Hi Htr Hok) as [? ?]. by destruct Hok as (_ & Hg & _ & Hn).
Qed.

Lemma shared_run_ok n s ks s' :
  shared_run t peers n s ks s' -> shared_inv s ->
  shared_inv s' /\ (n + shared_work s' <= shared_work s)%nat /\
  NoDup ks /\ Forall (fun k => ~ held (sh_cache s) k /\ held (sh_cache s') k) ks /\
  (forall k, held (sh_cache s) k -> held (sh_cache s') k).
Proof.
  elim => {n s ks s'} [s Hi|n s ks s1 i task s2 _ IH Hstep Hi]; [split_and!; try done; by constructor|].
  destruct (IH Hi) as (Hi1 & Hw1 & Hn1 & Hf1 & Hh1). destruct (shared_step_ok _ _ _ _ Hi1 Hstep) as (Hi2 & Hw2 & [_ Hh2] & Hn2 & Hf2).
  split; [done|]. split; [lia|]. split; [|split; [|by auto]].
  - apply NoDup_app. split_and!; [done| |done]. move=> k Hk Hk2.
    destruct (proj1 (Forall_forall _ _) Hf1 k Hk) as [_ ?]. by destruct (proj1 (Forall_forall _ _) Hf2 k Hk2) as [? _].
  - apply Forall_app. split; (eapply Forall_impl; [eassumption|]; cbn beta); intros k [? ?]; auto.
Qed.

(** ** Progress *)

Definition task_done (task : FetchTask M) : bool :=
  match ft_phase task, ft_calls task with Calling, [] => true | _, _ => false end.

(** A task that is not done can step if it fetches, or if nobody does. *)
Lemma task_can_step c tr task bs ws :
  good c tr task bs ws -> transfer_ok tr -> task_done task = false ->
  (phase_batches (ft_phase task) = [] -> bs = []) -> is_Some (task_step t (tr_peer tr) c task).
Proof.
  intros Hgood Htr. pose proof Hgood as (_ & [_ _ _ H4 _ _] & (_ & _ & _ & Hpend & _)). cbn in Hpend.
  rw /task_done /task_step. destruct (ft_phase task) as [|b|w|] eqn:Hph.
  - destruct (ft_calls task) as [|[ks|k] calls]; [done| |]; move=> _ _; [by eexists|]. by case_match; eexists.
  - move=> _ _. destruct (fetching_ok c tr task bs ws b Hgood Htr Hph) as (s & -> & _). by eexists.
  - move=> _ Hbs. have {}Hbs := Hbs eq_refl. have Hcl : Forall (fun r => snd r ∈ cc_closed c) w.
    { eapply Forall_impl; [exact H4|]. intros r [_ [Hp|[? _]]]; [|done]. apply Hpend in Hp as (b & Hin & _).
      rw Hbs in Hin. by inversion Hin. }
    have -> : forallb (fun r => bool_decide (snd r ∈ cc_closed c)) w = true.
    { apply forallb_forall => r /list_elem_of_In Hin. apply bool_decide_eq_true. exact (proj1 (Forall_forall _ _) Hcl r Hin). }
    destruct (awaiting_ok c tr task bs ws w Hgood Htr Hph Hcl) as (c1 & local & -> & _). by eexists.
  - done.
Qed.

Definition fetches (task : FetchTask M) : bool := match ft_phase task with Fetching _ => true | _ => false end.

Lemma shared_can_step c l1 task l2 :
  shared_inv (mkShared c (l1 ++ task :: l2)) -> task_done task = false ->
  fetches task = true \/ task_batches (l1 ++ task :: l2) = [] ->
  exists i task' s', shared_step t peers i (mkShared c (l1 ++ task :: l2)) task' s'.
Proof.
  intros Hi Hd Hf. destruct (lookup_lt_is_Some_2 transfers (length l1)) as [tr Htr].
  { destruct Hi as [_ _ ->%Forall2_length]. cbn. rw length_app. cbn. lia. }
  destruct (task_can_step _ _ _ _ _ (shared_inv_good _ _ _ _ _ Hi Htr) (Forall_lookup_1 _ _ _ _ Htransfers Htr) Hd) as [[c' task'] Hs].
  { move=> Hp. destruct Hf as [Hf|Hf]; [rw /fetches in Hf; by destruct (ft_phase task)|].
    have Hperm := task_batches_middle l1 task l2. rw Hf Hp in Hperm. by apply Permutation_nil in Hperm. }
  exists (length l1), task'. eexists. eapply shared_task; [|by rw list_lookup_fmap Htr|exact Hs].
  by rw lookup_app_r // Nat.sub_diag.
Qed.

(** No deadlock: as long as a task is not done, some task can step. *)
Lemma shared_progress s :
  shared_inv s -> (exists i task s', shared_step t peers i s task s') \/ Forall task_done (sh_tasks s).
Proof.
  destruct s as [c tasks]. cbn. move=> Hi.
  destruct (decide (Exists fetches tasks)) as [He|He].
  { left. apply Exists_exists in He as (task & (l1 & l2 & ->)%list_elem_of_split & Hf).
    apply (shared_can_step c l1 task l2 Hi); [|left; by apply Is_true_true_1 in Hf].
    rw /fetches /task_done in Hf *. by destruct (ft_phase task). }
  destruct (decide (Forall task_done tasks)) as [|Hd]; [by right|left].
  apply not_Forall_Exists, Exists_exists in Hd as (task & Hin & Hnd); [|apply _].
  have Hnil : task_batches tasks = [].
  { rw /task_batches. clear Hi Hin Hnd. elim: tasks He => [|x l IH] He; [done|]. cbn.
    rw IH; [move=> Hl; apply He; by apply Exists_cons_tl|]. rw app_nil_r.
    destruct (ft_phase x) eqn:E; try done. destruct He. apply Exists_cons_hd. by rw /fetches E. }
  apply list_elem_of_split in Hin as (l1 & l2 & ->).
  apply (shared_can_step c l1 task l2 Hi); [|by right].
  cbn in Hnd. destruct (task_done task); [by destruct Hnd|done].
Qed.

(** ** The beginning and the end *)

(** A transfer is complete: all its calls have returned, with the chunks of its server, and
    the server's loop ends without an error and has counted the same bytes. *)
Definition completed (tr : Transfer) (task : FetchTask M) : Prop :=
  ft_phase task = Calling /\ ft_calls task = [] /\ ft_chunks task = expected (tr_chunks tr) (tr_calls tr) /\
  exists io, st_sent (cf_stream (ft_fetcher task)) = tr_opening tr ++ io /\
    snd (provide_chunks_as_requested t (tr_chunks tr) io) = Ok (cf_total_transferred (ft_fetcher task)).

Lemma task_completed c tr task : task_ok c tr task -> transfer_ok tr -> task_done task -> completed tr task.
Proof.
  intros [_ _ Hst _ _ Hch] (_ & Hok & _) Hd. rw /task_done in Hd.
  destruct (ft_phase task) eqn:Hph; try done. destruct (ft_calls task) eqn:Hcalls; [|done].
  split_and!; [done|done|by rw -Hch app_nil_r|]. eapply stream_served; [|exact Hst]. by intros k v [? _]%Hok.
Qed.

Lemma shared_completed s : shared_inv s -> Forall task_done (sh_tasks s) -> Forall2 completed transfers (sh_tasks s).
Proof.
  intros [_ _ Ht] Hd. apply Forall2_same_length_lookup. split; [by eapply Forall2_length|]. move=> i tr task Htr Htask.
  eapply task_completed; [by eapply Forall2_lookup_lr|by eapply (Forall_lookup_1 _ transfers)|by eapply (Forall_lookup_1 (fun x => task_done x))].
Qed.

Definition shared_new c : SharedSystem M := mkShared c (task_new c <$> transfers).

Lemma shared_inv_new c :
  system_inv (mkSystem c [] []) -> first = raw_entries (cc_raw_cache c) ->
  entries_size (first ++ map_to_list known) <= rc_max_size (cc_raw_cache c) ->
  rc_max_size (cc_raw_cache c) + MAX_BLOB_SIZE < 2 ^ 64 -> shared_inv (shared_new c).
Proof.
  intros Hs Hf Hsz H64. split.
  - split_and!; [apply Hs|rw Hf; cbn; set_solver|done|done].
  - have Hall (B : Type) (P : TaskPhase -> list B) : P Calling = [] -> (sh_tasks (shared_new c) ≫= (fun x => P (ft_phase x))) = [].
    { move=> HP. cbn. elim: (transfers) => [|x l IH]; [done|]. cbn. rw HP. exact IH. }
    by rw /task_batches /task_waits !Hall.
  - cbn. apply Forall2_fmap_r, Forall_Forall2_diag. eapply Forall_impl; [exact Htransfers|]. move=> tr. apply task_new_ok.
Qed.
End simulation.

(** ** Properties *)

Section properties.
Context `{Hb : Blake3} `{HZ : Zstd} {HZS : ZstdSpec HZ} {HZB : ZstdBound HZ}.
Context `{HRq : RmpSerde RequestChunksMessage} {HRqS : RmpSpec RequestChunksMessage request_size}.
Context `{HRs : RmpSerde SendChunksMessage} {HRsS : RmpSpec SendChunksMessage send_size}.
Context `{HM : LinkedHashMap M} {HMS : LinkedHashMapSpec M}.

(** Transfers that share a cache all complete.  Any number of transfers run at the
    same time on one cache, their steps interleaved in any way; each has an honest server
    of its own, and the cache has room for all their chunks.  No run is longer than the
    work at its beginning; in every state that is reached no task has failed, and either
    some task can step, or every task has got exactly the chunks that it asked for, its
    server has ended without an error, and both count the same bytes. *)
Lemma shared_transfers_complete (t : MessageTransport) (known : gmap ChunkKey bytes) (transfers : list Transfer)
  (c : ChunkCache M)
  (Htransfers : Forall (transfer_ok t known) transfers)
  (Hquiet : system_inv (mkSystem c [] []))
  (Hagree : forall k v v', (k, v) ∈ raw_entries (cc_raw_cache c) -> known !! k = Some v' -> v = v')
  (Hroom : entries_size (raw_entries (cc_raw_cache c) ++ map_to_list known) <= rc_max_size (cc_raw_cache c))
  (H64 : rc_max_size (cc_raw_cache c) + MAX_BLOB_SIZE < 2 ^ 64) n ks s
  (Hrun : shared_run t (tr_peer <$> transfers) n (shared_new transfers c) ks s) :
  (n + shared_work s <= shared_work (shared_new transfers c))%nat /\
  Forall (fun task => ft_phase task <> Failed) (sh_tasks s) /\
  ((exists i task s', shared_step t (tr_peer <$> transfers) i s task s') \/
   Forall2 (completed t) transfers (sh_tasks s)).
Proof.
  pose proof (shared_inv_new t _ known Hagree transfers Htransfers c Hquiet eq_refl Hroom H64) as Hi0.
  destruct (shared_run_ok t _ known Hagree transfers Htransfers n _ ks s Hrun Hi0) as (Hi & Hw & _).
  split; [done|]. split.
  - destruct Hi as [_ _ Ht]. apply Forall_lookup => i task Htask. destruct (Forall2_lookup_r _ _ _ _ _ Ht Htask) as (tr & _ & [_ _ _ H4 _ _]).
    by destruct (ft_phase task).
  - destruct (shared_progress t _ known Hagree transfers Htransfers s Hi) as [?|?]; [by left|right]. by eapply shared_completed.
Qed.

(** C12: no chunk is downloaded twice.  Under the same conditions, the chunks that the
    servers are asked for in a whole run, by all the tasks together, are pairwise
    different, and none of them was in the cache at the beginning. *)
Theorem chunks_downloaded_once (t : MessageTransport) (known : gmap ChunkKey bytes) (transfers : list Transfer)
  (c : ChunkCache M)
  (Htransfers : Forall (transfer_ok t known) transfers)
  (Hquiet : system_inv (mkSystem c [] []))
  (Hagree : forall k v v', (k, v) ∈ raw_entries (cc_raw_cache c) -> known !! k = Some v' -> v = v')
  (Hroom : entries_size (raw_entries (cc_raw_cache c) ++ map_to_list known) <= rc_max_size (cc_raw_cache c))
  (H64 : rc_max_size (cc_raw_cache c) + MAX_BLOB_SIZE < 2 ^ 64) n ks s
  (Hrun : shared_run t (tr_peer <$> transfers) n (shared_new transfers c) ks s) :
  NoDup ks /\ Forall (fun k => assoc k (raw_entries (cc_raw_cache c)) = None) ks.
Proof.
  pose proof (shared_inv_new t _ known Hagree transfers Htransfers c Hquiet eq_refl Hroom H64) as Hi0.
  destruct (shared_run_ok t _ known Hagree transfers Htransfers n _ ks s Hrun Hi0) as (_ & _ & Hn & Hf & _).
  split; [done|]. eapply Forall_impl; [exact Hf|]. intros k [Hk _]. cbn in Hk.
  destruct (assoc k _) eqn:E; [|done]. destruct Hk. left. by eexists.
Qed.
End properties.

(** ** Witnesses *)

(** Two players load the same world of one chunk: the first asks its server for the
    chunk, the second waits for the batch of the first. *)
Definition sample_root : ChunkList := mkChunkList true [toy_hash sample_chunk].
Definition sample_calls : list ProviderCall := snd (reconstruct_data (H := record_provider sample_chunks) 1 sample_root []).
Definition sample_transfer : Transfer :=
  mkTransfer sample_chunks (@server_peer toy_zstd toy_request_rmp toy_send_rmp sample_transport sample_chunks) [] [] sample_calls.
Definition sample_transfers : list Transfer := [sample_transfer; sample_transfer].

Definition sample_shared : SharedSystem AList := shared_new sample_transfers (ChunkCache_new 1000).

Definition sample_schedule : list nat := [0; 1; 0; 1; 1; 0; 1; 0; 1; 1]%nat.

Definition sample_run : nat * list ChunkKey * SharedSystem AList :=
  @run_schedule toy_blake3 toy_zstd toy_request_rmp toy_send_rmp AList _ sample_transport
    (tr_peer <$> sample_transfers) sample_schedule sample_shared.

Lemma sample_run_ok :
  @shared_run toy_blake3 toy_zstd toy_request_rmp toy_send_rmp AList _ sample_transport (tr_peer <$> sample_transfers)
    (fst (fst sample_run)) sample_shared (snd (fst sample_run)) (snd sample_run).
Proof.
  apply (@run_schedule_runs toy_blake3 toy_zstd toy_request_rmp toy_send_rmp AList _ _ _ sample_schedule).
  rw -/sample_run. by destruct sample_run as [[n ks] s].
Qed.

Lemma sample_transfers_ok :
  Forall (@transfer_ok toy_blake3 toy_zstd toy_request_rmp toy_send_rmp sample_transport sample_chunks) sample_transfers.
Proof.
  have H : @transfer_ok toy_blake3 toy_zstd toy_request_rmp toy_send_rmp sample_transport sample_chunks sample_transfer.
  { split_and!; [done| |done|].
    - move=> k v Hk. split; [by apply sample_chunks_ok|]. by apply sample_chunks_spec in Hk as [-> ->].
    - destruct (reconstruct_calls_ok sample_chunks 0 1 sample_root [sample_chunk]) as (calls & Heq & Hok); [|lia|].
      + split; [done|]. cbn. by rw /sample_chunks lookup_singleton_eq.
      + cbn [tr_chunks tr_calls sample_transfer]. by rw /sample_calls Heq. }
  apply Forall_cons. split; [exact H|]. apply Forall_cons. by split; [exact H|constructor].
Qed.

Lemma sample_entries_nil : raw_entries (cc_raw_cache (ChunkCache_new (M := AList) 1000)) = [].
Proof. done. Qed.

(** Both end with the chunk, after as many steps as the bound allows. *)
Example sample_run_completes :
  fst (fst sample_run) = shared_work sample_shared /\ ft_calls <$> sh_tasks (snd sample_run) = [[]; []] /\
  ft_chunks <$> sh_tasks (snd sample_run) = [[sample_chunk]; [sample_chunk]].
Proof. by vm_compute. Qed.

Lemma chunks_downloaded_once_witness :
  snd (fst sample_run) = [toy_hash sample_chunk] /\ NoDup (snd (fst sample_run)).
Proof.
  split; [by vm_compute|].
  apply (@chunks_downloaded_once toy_blake3 toy_zstd toy_zstd_spec toy_zstd_bound toy_request_rmp toy_request_spec
    toy_send_rmp toy_send_spec AList _ _ sample_transport sample_chunks sample_transfers (ChunkCache_new 1000)
    sample_transfers_ok (system_inv_new 1000 ltac:(done))) with (n := fst (fst sample_run)) (s := snd sample_run).
  - move=> k v v'. rw sample_entries_nil. by inversion 1.
  - by vm_compute.
  - done.
  - exact sample_run_ok.
Defined.
