(* ===== verification/Programs.v ===== *)
(** * The runs of a client

    Models [create_chunk_cache] of common/src/lib.rs, which loads the cache file and starts
    its writer, as a function of the disk, and the options of common/src/cli_args.rs.  The
    calls that it makes are in Main.v.

    The cache file lives across several runs of the client: each run loads it, writes it
    from time to time and is stopped at any point (CacheWriter.v). *)

From Stdlib Require Import ssreflect.
From stdpp Require Import base numbers list gmap strings relations.
From S2P Require Import Prelude Buf Dedup ChunkCache CacheWriter ProtocolUtils.

#[local] Open Scope general_if_scope.

(** ** Options *)

Record CacheOptions := mkCacheOptions {
  cache_path : option string;
  size_limit : Z;
  save_interval : Z;
  cache_compression_level : Z;
}.

Record TransportOptions := mkTransportOptions { net_compression_level : Z }.

Definition create_message_transport (transport_options : TransportOptions) : MessageTransport :=
  mkTransport (net_compression_level transport_options).

(** ** The cache of a client *)

Section cache.
Context `{Blake3, Zstd, LinkedHashMap M} (path : Path).

(** [create_chunk_cache] for the cache path [path]: the cache, with its writer asleep.
    [metadata] is the result of reading the size of the file. *)
Definition create_chunk_cache (cache_options : CacheOptions) (metadata : result unit) (d : Disk)
  : result (WriterState M) :=
  chunk_cache ← match d !! path with
    | Some _ => _ ← metadata; load_from_file (size_limit cache_options) (d !! path)
    | None => Ok (ChunkCache_new (size_limit cache_options))
    end;
  Ok (mkWriter chunk_cache d Sleeping []).

(** Runs of the client one after the other with the same cache path, each with its own
    limit, interval and compression level and each stopped somewhere. *)
Inductive runs : Disk -> Disk -> Prop :=
| runs_none d : runs d d
| runs_once d cache_options start stop d' :
    0 <= size_limit cache_options -> size_limit cache_options + CHUNK_LENGTH_LIMIT < 2 ^ 64 ->
    create_chunk_cache cache_options (Ok tt) d = Ok start ->
    rtc (wstep path (fun c => verified (size_limit cache_options) (cc_raw_cache c)) (cache_compression_level cache_options))
      start stop ->
    runs (ws_disk stop) d' -> runs d d'.
End cache.

Section cache_proofs.
Context `{Hb : Blake3} {Hspec : Blake3Spec Hb} `{HZ : Zstd} {HZS : ZstdSpec HZ} `{HM : LinkedHashMap M} {HMS : LinkedHashMapSpec M}.

Context (path : Path).

(** What the cache file holds if there is one: a cache that was saved. *)
Definition saved_from (raw : RawChunkCache M) (b : bytes) : Prop :=
  raw_inv raw /\ Forall (fun e => blake3_hash (snd e) = fst e) (raw_entries raw) /\ exists level, write_chunk_cache raw level = Ok b.

Definition disk_ok (d : Disk) : Prop :=
  match d !! path with None => True | Some b => exists raw, saved_from raw b end.

Lemma create_saved cache_options d raw b :
  0 <= size_limit cache_options -> size_limit cache_options + CHUNK_LENGTH_LIMIT < 2 ^ 64 ->
  d !! path = Some b -> saved_from raw b -> small_chunks raw ->
  exists c : ChunkCache M, create_chunk_cache path cache_options (Ok tt) d = Ok (mkWriter c d Sleeping []) /\
    raw_entries (cc_raw_cache c) = trim (size_limit cache_options) (raw_entries raw) /\
    raw_inv (cc_raw_cache c) /\ rc_max_size (cc_raw_cache c) = size_limit cache_options.
Proof.
  move=> H0 H64 Hf [Hi [Hv [level Hw]]] Hs. rw /create_chunk_cache Hf bind_ok /load_from_file.
  destruct (cache_file_reload raw level (size_limit cache_options) b) as (c & -> & He & Hi' & Hm); try done.
  { by apply (small_valid (rc_max_size raw)). }
  by eexists.
Qed.

Lemma create_oversized cache_options d raw b :
  0 <= size_limit cache_options -> size_limit cache_options + CHUNK_LENGTH_LIMIT < 2 ^ 64 ->
  d !! path = Some b -> saved_from raw b -> ~ small_chunks raw ->
  exists e, create_chunk_cache (M := M) path cache_options (Ok tt) d = Err e.
Proof.
  move=> H0 H64 Hf [Hi [Hv [level Hw]]] Hs. rw /create_chunk_cache Hf bind_ok /load_from_file.
  destruct (oversized_unreadable raw level (size_limit cache_options) b) as (e & ->); try done; [by apply not_small|]. by exists e.
Qed.

Lemma create_new (cache_options : CacheOptions) (d : Disk) metadata :
  d !! path = None -> create_chunk_cache (M := M) path cache_options metadata d =
    Ok (mkWriter (ChunkCache_new (size_limit cache_options)) d Sleeping []).
Proof. move=> Hf. by rw /create_chunk_cache Hf. Qed.

(** A run that starts begins with a verified cache. *)
Lemma create_verified cache_options d start :
  0 <= size_limit cache_options -> size_limit cache_options + CHUNK_LENGTH_LIMIT < 2 ^ 64 -> disk_ok d ->
  create_chunk_cache (M := M) path cache_options (Ok tt) d = Ok start ->
  ws_disk start = d /\ ws_phase start = Sleeping /\ ws_snapshots start = [] /\
  verified (size_limit cache_options) (cc_raw_cache (ws_cache start)).
Proof.
  move=> H0 H64 Hd. rw /disk_ok in Hd. destruct (d !! path) as [b|] eqn:Hf.
  - destruct Hd as (raw & Hraw). destruct (Forall_dec (fun e : ChunkKey * bytes => len (snd e) <= CHUNK_LENGTH_LIMIT) (raw_entries raw)) as [Hs|Hs].
    + destruct (create_saved cache_options d raw b) as (c & -> & He & Hi & Hm); try done. intros [= <-]. split_and!; try done.
      cbn. rw /verified He. split; [done|]. split; [|done]. destruct Hraw as (_ & Hv & _).
      destruct (trim_suffix (size_limit cache_options) (raw_entries raw)) as [pre Hp]. rw Hp in Hv. by apply Forall_app in Hv as [_ ?].
    + by destruct (create_oversized cache_options d raw b) as (e & ->).
  - rw create_new //. intros [= <-]. split_and!; try done. split; [by apply raw_inv_new|]. split; [|done].
    by rw /raw_entries /= lhm_new_iter.
Qed.

Context (Hext : extension (snd path) <> Some "tmp"%string).

Lemma run_keeps_disk cache_options (start stop : WriterState M) :
  disk_ok (ws_disk start) -> ws_phase start = Sleeping -> ws_snapshots start = [] ->
  verified (size_limit cache_options) (cc_raw_cache (ws_cache start)) ->
  rtc (wstep path (fun c => verified (size_limit cache_options) (cc_raw_cache c)) (cache_compression_level cache_options)) start stop ->
  disk_ok (ws_disk stop).
Proof.
  move=> Hd Hph Hsn Hs Hrun.
  destruct (wsteps_inv path _ _ Hext (ws_disk start !! path) _ _ Hrun) as (_ & Hsnaps & Hf & _).
  { rw /writer_inv Hph Hsn. split; [done|]. split; [done|]. by split; [left|]. }
  rw /disk_ok. destruct Hf as [->|(b & -> & raw & Hin & Hw)]; [done|].
  destruct (proj1 (Forall_forall _ _) Hsnaps raw Hin) as (Hi & Hv & _). exists raw. split_and!; [done|done|]. by eexists.
Qed.

Lemma runs_disk d d' : runs (M := M) path d d' -> disk_ok d -> disk_ok d'.
Proof.
  elim => [//|d1 o start stop d2 H0 H64 Hc Hrun _ IH] Hd. apply IH.
  destruct (create_verified o d1 start H0 H64 Hd Hc) as (Hdisk & Hph & Hsn & Hok).
  apply (run_keeps_disk o start stop); try done. by rw Hdisk.
Qed.
End cache_proofs.

Section cache_properties.
Context `{Hb : Blake3} {Hspec : Blake3Spec Hb} `{HZ : Zstd} {HZS : ZstdSpec HZ} `{HM : LinkedHashMap M} {HMS : LinkedHashMapSpec M}.

(** C33: a client starts again.  The runs have the same cache path, whose extension is not
    [tmp]; each has its own size limit (plus 20 000 000 below 2^64), interval and compression
    level, puts only verified chunks into its cache, and is stopped at any point; before the
    first one there is no cache file.  Then, whenever the size of the file can be read, the
    next run starts: with an empty cache if there is no cache file; and otherwise the file
    is that of a cache that was saved, and the run starts within its own size limit with the
    newest chunks of it that fit, if none of the saved chunks is above 20 000 000 bytes.  If
    one is, the client does not start: it returns an error. *)
Theorem client_restarts (path : Path) (cache_options : CacheOptions) (d0 d : Disk)
  (Hext : extension (snd path) <> Some "tmp"%string) (Hfirst : d0 !! path = None) (Hruns : runs (M := M) path d0 d)
  (Hlimit : 0 <= size_limit cache_options) (H64 : size_limit cache_options + CHUNK_LENGTH_LIMIT < 2 ^ 64) :
  match d !! path with
  | None => create_chunk_cache (M := M) path cache_options (Ok tt) d =
      Ok (mkWriter (ChunkCache_new (size_limit cache_options)) d Sleeping [])
  | Some b => exists raw : RawChunkCache M, saved_from raw b /\
      (small_chunks raw -> exists start : WriterState M, create_chunk_cache path cache_options (Ok tt) d = Ok start /\
         rc_total_size (cc_raw_cache (ws_cache start)) <= size_limit cache_options /\
         raw_entries (cc_raw_cache (ws_cache start)) = trim (size_limit cache_options) (raw_entries raw)) /\
      (~ small_chunks raw -> exists e, create_chunk_cache (M := M) path cache_options (Ok tt) d = Err e)
  end.
Proof.
  have Hd : disk_ok (M := M) path d by apply (runs_disk path Hext d0); [done|rw /disk_ok Hfirst].
  rw /disk_ok in Hd. destruct (d !! path) as [b|] eqn:Hf; [|by apply create_new].
  destruct Hd as (raw & Hraw). exists raw. split; [done|]. split.
  - move=> Hs. destruct (create_saved path cache_options d raw b) as (c & -> & He & (_ & Hle & _) & Hm); try done.
    eexists. split; [done|]. split; [by rw Hm in Hle|done].
  - move=> Hs. by apply (create_oversized path cache_options d raw b).
Qed.
End cache_properties.

(** ** Witness *)

Definition sample_options : CacheOptions := mkCacheOptions None 100 60 3.

(** A run that saves the cache and is stopped while it writes it again. *)
Lemma client_restarts_witness :
  let d := <[with_extension sample_path "tmp" := [Byte.x28]]> {[ sample_path := saved_file ]} in
  match d !! sample_path with
  | None => False
  | Some b => exists raw : RawChunkCache AList, @saved_from toy_blake3 toy_zstd AList _ raw b /\
      (small_chunks raw -> exists start,
         @create_chunk_cache toy_blake3 toy_zstd AList _ sample_path (mkCacheOptions None 40 60 3) (Ok tt) d = Ok start /\
         rc_total_size (cc_raw_cache (ws_cache start)) <= 40)
  end.
Proof.
  cbv zeta. set d : Disk := <[with_extension sample_path "tmp" := [Byte.x28]]> {[ sample_path := saved_file ]}.
  have Hf : d !! sample_path = Some saved_file by vm_compute.
  have Hruns : @runs toy_blake3 toy_zstd AList _ sample_path ∅ d.
  { eapply (runs_once _ _ sample_options _ (mkWriter dirty_cache d Sleeping [saved_cache; saved_cache]));
      [done|done|reflexivity| |apply runs_none].
    eapply rtc_l; [apply (w_used _ _ _ _ _ _ _ dirty_cache), saved_cache_verified|].
    eapply rtc_l; [by apply w_dirty|]. eapply rtc_l; [by apply (w_written _ _ _ _ _ _ _ saved_file)|].
    eapply rtc_l; [by apply w_renamed|].
    eapply rtc_l; [apply (w_used _ _ _ _ _ _ _ dirty_cache), saved_cache_verified|]. eapply rtc_l; [by apply w_dirty|].
    eapply rtc_l; [by apply (w_partial _ _ _ _ _ _ _ (Some [Byte.x28]))|]. eapply rtc_l; [apply w_fails|].
    eapply rtc_l; [apply (w_used _ _ _ _ _ _ _ dirty_cache), saved_cache_verified|].
    match goal with |- rtc _ ?s _ => have -> : s = mkWriter dirty_cache d Sleeping [saved_cache; saved_cache] by vm_compute end.
    apply rtc_refl. }
  pose proof (@client_restarts toy_blake3 toy_blake3_spec toy_zstd toy_zstd_spec AList _ _ sample_path (mkCacheOptions None 40 60 3) ∅ d
    ltac:(by vm_compute) eq_refl Hruns ltac:(done) ltac:(done)) as Hrun.
  rewrite Hf in Hrun |- *. destruct Hrun as (raw & Hr & Hs & _).
  exists raw. split; [exact Hr|]. move=> Hsm. destruct (Hs Hsm) as (start & H1 & H2 & _). exists start. split; [exact H1|exact H2].
Defined.
