(* ===== verification/BTreeSet.v ===== *)
(** * [BTreeSet<u32>]

    The ordered sets of the proxies, as strictly increasing lists: iteration is
    in increasing order and [pop_first] takes the least element.  Lengths are
    kept, so a bound on [len()] is a bound on the list. *)

From Stdlib Require Import ssreflect Sorting.Sorted.
From stdpp Require Import base numbers list sets.
From S2P Require Import Prelude.

Abbreviation BTreeSet := (list Z).

Fixpoint bt_insert (x : Z) (s : BTreeSet) : BTreeSet :=
  match s with
  | [] => [x]
  | y :: s' => if x <? y then x :: s else if x =? y then s else y :: bt_insert x s'
  end.

(** [remove]: whether the element was there, and the set without it. *)
Fixpoint bt_remove (x : Z) (s : BTreeSet) : bool * BTreeSet :=
  match s with
  | [] => (false, [])
  | y :: s' =>
      if x =? y then (true, s')
      else let '(b, s'') := bt_remove x s' in (b, y :: s'')
  end.

Definition bt_pop_first (s : BTreeSet) : option (Z * BTreeSet) :=
  match s with
  | [] => None
  | x :: s => Some (x, s)
  end.

(** [0..n], the block ids in order. *)
Definition z_range (n : Z) : list Z := Z.of_nat <$> seq 0 (Z.to_nat n).

Definition bt_sorted (s : BTreeSet) : Prop := StronglySorted Z.lt s.

Lemma bt_sorted_cons x s : bt_sorted (x :: s) <-> Forall (Z.lt x) s /\ bt_sorted s.
Proof.
  split; [by inversion 1|]. move=> [? ?]. by constructor.
Qed.

Lemma bt_sorted_nodup s : bt_sorted s -> NoDup s.
Proof.
  elim: s => [|x s IH]; first by constructor.
  move=> /bt_sorted_cons [Hx Hs]. constructor; [|by apply IH].
  move=> Hin. have := proj1 (Forall_forall _ _) Hx x Hin. lia.
Qed.

Lemma elem_of_bt_insert x y s : y ∈ bt_insert x s <-> y = x \/ y ∈ s.
Proof.
  elim: s => [|z s IH] /=; first set_solver.
  case: Z.ltb_spec => ?; first set_solver.
  case: Z.eqb_spec => [->|?]; set_solver.
Qed.

Lemma bt_insert_sorted x s : bt_sorted s -> bt_sorted (bt_insert x s).
Proof.
  elim: s => [|z s IH] /=; first by repeat constructor.
  move=> /bt_sorted_cons [Hz Hs]. case: Z.ltb_spec => Hlt.
  { apply bt_sorted_cons. split; [|by apply bt_sorted_cons].
    constructor; [done|]. eapply Forall_impl; [exact Hz|]. simpl. lia. }
  case: Z.eqb_spec => [_|Hne]; first by apply bt_sorted_cons.
  apply bt_sorted_cons. split; [|by apply IH]. apply Forall_forall => y.
  rw elem_of_bt_insert => [[->|Hy]]; first lia. exact (proj1 (Forall_forall _ _) Hz y Hy).
Qed.

Lemma bt_insert_fresh x s : x ∉ s -> bt_insert x s ≡ₚ x :: s.
Proof.
  elim: s => [|z s IH] Hx //=. case: Z.ltb_spec => ? //.
  case: Z.eqb_spec => ?; first set_solver. rw IH; [set_solver|]. by constructor.
Qed.

Lemma bt_remove_spec x s :
  bt_sorted s ->
  let '(b, s') := bt_remove x s in
  bt_sorted s' /\ if b then s ≡ₚ x :: s' else x ∉ s /\ s' = s.
Proof.
  elim: s => [|z s IH] /=; first by split; [constructor|split; [set_solver|]].
  move=> /bt_sorted_cons [Hz Hs]. case: Z.eqb_spec => [->|Hne]; first by split.
  specialize (IH Hs). destruct (bt_remove x s) as [b s']. destruct IH as [Hs' Hb].
  have Hsub : Forall (Z.lt z) s'.
  { destruct b; [|by destruct Hb as [_ ->]]. apply Forall_forall => y Hy.
    apply (proj1 (Forall_forall _ _) Hz). rw Hb. by right. }
  split; [by apply bt_sorted_cons|]. destruct b.
  - rw Hb. by constructor.
  - destruct Hb as [? ->]. split; [set_solver|done].
Qed.

Lemma z_range_sorted n : bt_sorted (z_range n).
Proof.
  rw /z_range. move: (Z.to_nat n) => {}n. move: 0%nat.
  elim: n => [|n IH] k /=; first by constructor.
  apply bt_sorted_cons. split; [|apply IH]. apply Forall_fmap, Forall_forall => y /elem_of_seq Hy /=. lia.
Qed.

Lemma elem_of_z_range n x : x ∈ z_range n <-> 0 <= x < n.
Proof.
  rw /z_range list_elem_of_fmap. split.
  - intros (k & -> & Hk%elem_of_seq). lia.
  - move=> Hx. exists (Z.to_nat x). split; [lia|]. apply elem_of_seq. lia.
Qed.

Lemma length_z_range n : length (z_range n) = Z.to_nat n.
Proof. by rw /z_range length_fmap length_seq. Qed.

(** A strictly increasing list is determined by its elements. *)
Lemma bt_sorted_unique s1 s2 : bt_sorted s1 -> bt_sorted s2 -> s1 ≡ₚ s2 -> s1 = s2.
Proof.
  elim: s1 s2 => [|x s1 IH] [|y s2] H1 H2 Hp.
  - done.
  - by apply Permutation_nil_l in Hp.
  - by apply Permutation_nil_r in Hp.
  - move: H1 H2 => /bt_sorted_cons [Hx H1] /bt_sorted_cons [Hy H2].
    have Hxy : x = y.
    { have Hxin : x ∈ y :: s2 by rw -Hp; left. have Hyin : y ∈ x :: s1 by rw Hp; left.
      apply elem_of_cons in Hxin as [|Hxin]; [done|]. apply elem_of_cons in Hyin as [|Hyin]; [done|].
      have := proj1 (Forall_forall _ _) Hx y Hyin. have := proj1 (Forall_forall _ _) Hy x Hxin. lia. }
    subst y. f_equal. apply IH; [done|done|]. by apply Permutation_cons_inv in Hp.
Qed.
