(* ===== verification/RevCrc.v ===== *)
(** * Reverse CRC and CRC forging

    Models factorio-cacher/src/rev_crc.rs: the table that runs a CRC backwards
    over a suffix, and [forge_crc], which computes the four bytes to put between
    a prefix and a suffix so that the whole has a chosen CRC.

    The [crc] crate is a parameter: [CrcImpl] has what the source uses of a
    [Crc<u32, Table<1>>] (its table, its [xorout], the digest operations) and
    [CrcSpec] its documented behaviour for a reflected 32-bit algorithm.
    [iso_hdlc] is the algorithm the source picks, CRC_32_ISO_HDLC. *)

From Stdlib Require Import ssreflect.
From stdpp Require Import base numbers list sets.
From S2P Require Import Prelude Buf.

(** ** The forward CRC *)

Class CrcImpl := {
  crc_table : list Z;                  (* crc.table()[0] *)
  crc_xorout : Z;                      (* crc.algorithm.xorout *)
  crc_init : Z;                        (* the register of crc.digest() *)
  crc_update : Z -> bytes -> Z;        (* Digest::update *)
}.

Definition crc_finalize `{CrcImpl} (reg : Z) : Z := Z.lxor reg crc_xorout.
Definition crc_checksum `{CrcImpl} (data : bytes) : Z := crc_finalize (crc_update crc_init data).

Definition crc_entry `{CrcImpl} (i : Z) : Z := default 0 (crc_table !! Z.to_nat i).

(** One byte of a reflected table-driven CRC. *)
Definition crc_step `{CrcImpl} (reg : Z) (b : Byte.byte) : Z :=
  Z.lxor (crc_entry (Z.land (Z.lxor reg (b2z b)) 255)) (Z.shiftr reg 8).

Class CrcSpec (C : CrcImpl) : Prop := {
  crc_table_length : length crc_table = 256%nat;
  crc_table_range : Forall (in_u 32) crc_table;
  crc_table_top : NoDup ((fun t => Z.shiftr t 24) <$> crc_table);
  crc_init_range : in_u 32 crc_init;
  crc_xorout_range : in_u 32 crc_xorout;
  crc_update_bytes reg data : crc_update reg data = foldl crc_step reg data;
}.

(** ** [RevCRC] *)

Record RevCRC := mkRevCRC {
  rev_xorout : Z;
  reverse_table : list Z;
}.

(** The [while n < table.len()] loop. *)
Definition RevCRC_new `{CrcImpl} : RevCRC :=
  let entry n := default 0 (crc_table !! n) in
  mkRevCRC crc_xorout
    (foldl (fun rt n =>
       <[Z.to_nat (Z.shiftr (entry n) 24) :=
           Z.lxor (wrap 32 (Z.shiftl (entry n) 8)) (Z.of_nat n)]> rt)
     (replicate 256 0) (seq 0 (length crc_table))).

Definition rev_entry (rc : RevCRC) (i : Z) : Z := default 0 (reverse_table rc !! Z.to_nat i).

Definition RevCRC_step (rc : RevCRC) (value : Z) (byte : Byte.byte) : Z :=
  Z.lxor (Z.lxor (wrap 32 (Z.shiftl value 8)) (rev_entry rc (Z.shiftr value 24))) (b2z byte).

(** [for &byte in data.iter().rev()] *)
Definition RevCRC_update (rc : RevCRC) (value : Z) (data : bytes) : Z :=
  foldl (RevCRC_step rc) value (reverse data).

Record RevDigest := mkRevDigest {
  rd_crc : RevCRC;
  rd_value : Z;
}.

Definition RevCRC_digest (rc : RevCRC) (initial_value : Z) : RevDigest :=
  mkRevDigest rc (Z.lxor initial_value (rev_xorout rc)).

Definition RevDigest_update (d : RevDigest) (data : bytes) : RevDigest :=
  mkRevDigest (rd_crc d) (RevCRC_update (rd_crc d) (rd_value d) data).

Definition RevDigest_finalize (d : RevDigest) : Z := rd_value d.

Definition forge_crc (before_digest : Z) (after_digest : RevDigest) : bytes :=
  let before_digest := Z.lxor before_digest (rev_xorout (rd_crc after_digest)) in
  let after_digest := RevDigest_update after_digest (le_bytes 4 before_digest) in
  le_bytes 4 (RevDigest_finalize after_digest).

(** ** CRC_32_ISO_HDLC *)

Definition iso_hdlc_bit (c : Z) : Z :=
  if Z.odd c then Z.lxor (Z.shiftr c 1) 0xEDB88320 else Z.shiftr c 1.
Definition iso_hdlc_table : list Z :=
  Eval vm_compute in (fun n => Nat.iter 8 iso_hdlc_bit (Z.of_nat n)) <$> seq 0 256.

Definition iso_hdlc_step (reg : Z) (b : Byte.byte) : Z :=
  Z.lxor (default 0 (iso_hdlc_table !! Z.to_nat (Z.land (Z.lxor reg (b2z b)) 255))) (Z.shiftr reg 8).

Definition iso_hdlc : CrcImpl := {|
  crc_table := iso_hdlc_table;
  crc_xorout := 0xFFFFFFFF;
  crc_init := 0xFFFFFFFF;
  crc_update reg data := foldl iso_hdlc_step reg data;
|}.

(** The check value of the CRC catalogue, for the ASCII digits 1 to 9. *)
Example iso_hdlc_check :
  @crc_checksum iso_hdlc (z2b <$> [49; 50; 51; 52; 53; 54; 55; 56; 57]) = 0xCBF43926.
Proof. vm_compute. reflexivity. Qed.

Lemma iso_hdlc_spec : CrcSpec iso_hdlc.
Proof.
  split; [done| | |done|done|done].
  - repeat (constructor; [done|]). constructor.
  - refine (bool_decide_eq_true_1 (NoDup _) _). vm_compute. reflexivity.
Qed.

(** ** Bit-level lemmas *)

Lemma testbit_high w z n : in_u w z -> 0 <= w <= n -> Z.testbit z n = false.
Proof.
  move=> Hz Hn. rw -(Z.mod_small z (2 ^ w)) //. apply Z.mod_pow2_bits_high. lia.
Qed.

Lemma in_u_bits w z :
  0 <= w -> 0 <= z -> (forall n, w <= n -> Z.testbit z n = false) -> in_u w z.
Proof.
  move=> Hw Hz Hb. split; [done|].
  have -> : z = z mod 2 ^ w.
  { apply Z.bits_inj' => n Hn. destruct (Z.lt_ge_cases n w).
    - by rw Z.mod_pow2_bits_low.
    - rw Hb // Z.mod_pow2_bits_high //. }
  apply Z.mod_pos_bound. lia.
Qed.

Lemma in_u_lxor w a b : 0 <= w -> in_u w a -> in_u w b -> in_u w (Z.lxor a b).
Proof.
  move=> Hw Ha Hb. apply in_u_bits; [done| |].
  - apply Z.lxor_nonneg. rw /in_u in Ha Hb. lia.
  - move=> n Hn. by rw Z.lxor_spec !(testbit_high w).
Qed.

Lemma in_u_mono w w' z : 0 <= w <= w' -> in_u w z -> in_u w' z.
Proof.
  move=> Hw [H1 H2]. split; [done|]. eapply Z.lt_le_trans; [done|]. apply Z.pow_le_mono_r; lia.
Qed.

Lemma in_u_shiftr w k z : 0 <= k <= w -> in_u w z -> in_u (w - k) (Z.shiftr z k).
Proof.
  move=> Hk Hz. apply in_u_bits; [lia| |].
  - apply Z.shiftr_nonneg. by destruct Hz.
  - move=> n Hn. rw Z.shiftr_spec; [lia|]. apply (testbit_high w); [done|lia].
Qed.

Lemma in_u_land z : in_u 8 (Z.land z 255).
Proof. change 255 with (Z.ones 8). rw Z.land_ones //. by apply wrap_range. Qed.

Lemma in_u_b2z b : in_u 8 (b2z b).
Proof. apply b2z_range. Qed.

Lemma wrap_testbit w z n :
  0 <= w -> 0 <= n -> Z.testbit (wrap w z) n = (n <? w) && Z.testbit z n.
Proof.
  move=> Hw Hn. rw /wrap. case: Z.ltb_spec => H.
  - by rw Z.mod_pow2_bits_low.
  - rw Z.mod_pow2_bits_high //.
Qed.

Lemma mask_testbit n : 0 <= n -> Z.testbit 255 n = (n <? 8).
Proof.
  move=> Hn. change 255 with (Z.ones 8). by rw Z.testbit_ones_nonneg.
Qed.

(** Two integers are equal when their bits are: rewrite with the bit
    specifications of the operations. *)
Ltac bits n Hn :=
  apply Z.bits_inj'; intros n Hn;
  repeat first [rewrite -> Z.lxor_spec | rewrite -> Z.land_spec
               | rewrite -> wrap_testbit by lia | rewrite -> mask_testbit by lia
               | rewrite -> Z.shiftr_spec by lia | rewrite -> Z.shiftl_spec by lia].

(** Bits below position 0, and bits above the width of a bounded integer. *)
Ltac bits_out :=
  repeat first [rewrite -> Z.testbit_neg_r by lia
               | match goal with
                 | H : in_u ?w ?z |- context [Z.testbit ?z ?n] =>
                     rewrite -> (testbit_high w z n H) by lia
                 end].

(** Decide a comparison of a bit position with a constant. *)
Ltac bits_cmp :=
  repeat match goal with
  | |- context [?n <? ?w] => destruct (Z.ltb_spec n w); [try lia|try lia]
  end.

(** ** The reverse table *)

Lemma foldl_insert_lookup {A} (g : nat -> nat) (f : nat -> A) ns l k :
  k ∈ ns -> (forall i j, i ∈ ns -> j ∈ ns -> g i = g j -> i = j) -> (g k < length l)%nat ->
  foldl (fun l n => <[g n := f n]> l) l ns !! g k = Some (f k).
Proof.
  elim/rev_ind: ns => [|n ns IH] Hk Hinj Hlt; first by apply elem_of_nil in Hk.
  rw foldl_app /=.
  have Hlen ns' : length (foldl (fun l n => <[g n := f n]> l) l ns') = length l.
  { elim/rev_ind: ns' => [|m ns' IH'] //. by rw foldl_app /= length_insert. }
  destruct (decide (k = n)) as [->|Hne].
  - apply list_lookup_insert_eq. by rw Hlen.
  - rw list_lookup_insert_ne.
    { move=> Heq. apply Hne. symmetry. apply Hinj; [set_solver..|done]. }
    apply IH; [set_solver|set_solver|done].
Qed.

Section rev_crc.
Context `{C : CrcImpl} {CS : CrcSpec C}.

Lemma crc_entry_lookup i : in_u 8 i -> crc_table !! Z.to_nat i = Some (crc_entry i).
Proof.
  move=> [H1 H2]. rw /crc_entry. destruct (lookup_lt_is_Some_2 crc_table (Z.to_nat i)) as [t Ht].
  { rw crc_table_length. lia. }
  by rw Ht.
Qed.

Lemma crc_entry_range i : in_u 8 i -> in_u 32 (crc_entry i).
Proof.
  move=> Hi. eapply Forall_lookup_1; [apply crc_table_range|by apply crc_entry_lookup].
Qed.

Lemma crc_top_inj i j :
  in_u 8 i -> in_u 8 j -> Z.shiftr (crc_entry i) 24 = Z.shiftr (crc_entry j) 24 -> i = j.
Proof.
  move=> Hi Hj Heq. pose proof crc_table_top as H. rewrite -> NoDup_alt in H.
  have : Z.to_nat i = Z.to_nat j; last by rw /in_u in Hi Hj; lia.
  apply (H _ _ (Z.shiftr (crc_entry i) 24)); rw list_lookup_fmap crc_entry_lookup //=.
  by rw Heq.
Qed.

(** Every top byte occurs in the table. *)
Lemma crc_top_surj j : in_u 8 j -> exists i, in_u 8 i /\ Z.shiftr (crc_entry i) 24 = j.
Proof.
  move=> Hj. set tops := (fun t => Z.shiftr t 24) <$> crc_table.
  have Hin : j ∈ tops.
  { apply list_elem_of_In.
    apply (List.NoDup_length_incl (l := tops) (l' := Z.of_nat <$> seq 0 256)).
    - apply NoDup_ListNoDup, crc_table_top.
    - by rw length_fmap length_seq /tops length_fmap crc_table_length.
    - move=> t /list_elem_of_In /list_elem_of_fmap [u [-> Hu]]. apply list_elem_of_In.
      pose proof (proj1 (Forall_forall _ _) crc_table_range u Hu) as Hr.
      have [H1 H2] := in_u_shiftr 32 24 u ltac:(lia) Hr.
      apply list_elem_of_fmap. exists (Z.to_nat (Z.shiftr u 24)). split; [lia|].
      apply elem_of_seq. change (2 ^ (32 - 24)) with 256 in H2. lia.
    - apply list_elem_of_In, list_elem_of_fmap. exists (Z.to_nat j).
      rw /in_u in Hj. split; [lia|]. apply elem_of_seq. lia. }
  apply list_elem_of_fmap in Hin as (t & -> & Ht).
  apply list_elem_of_lookup in Ht as [i Hi].
  have Hlt := lookup_lt_Some _ _ _ Hi. rw crc_table_length in Hlt.
  exists (Z.of_nat i). split; [rw /in_u; lia|]. by rw /crc_entry Nat2Z.id Hi.
Qed.

Lemma rev_entry_top i :
  in_u 8 i ->
  rev_entry RevCRC_new (Z.shiftr (crc_entry i) 24) = Z.lxor (wrap 32 (Z.shiftl (crc_entry i) 8)) i.
Proof.
  move=> Hi. rw /rev_entry /RevCRC_new. cbn [reverse_table].
  rw crc_table_length.
  set g := fun n : nat => Z.to_nat (Z.shiftr (default 0 (crc_table !! n)) 24).
  set f := fun n : nat => Z.lxor (wrap 32 (Z.shiftl (default 0 (crc_table !! n)) 8)) (Z.of_nat n).
  have Hg n : g n = Z.to_nat (Z.shiftr (crc_entry (Z.of_nat n)) 24) by rw /g /crc_entry Nat2Z.id.
  have Hf n : f n = Z.lxor (wrap 32 (Z.shiftl (crc_entry (Z.of_nat n)) 8)) (Z.of_nat n)
    by rw /f /crc_entry Nat2Z.id.
  have Hz : Z.of_nat (Z.to_nat i) = i by rw /in_u in Hi; lia.
  have Hgi : Z.to_nat (Z.shiftr (crc_entry i) 24) = g (Z.to_nat i) by rw Hg Hz.
  rw Hgi (foldl_insert_lookup g f (seq 0 256) (replicate 256 0) (Z.to_nat i)).
  - apply elem_of_seq. rw /in_u in Hi. lia.
  - move=> n m /elem_of_seq Hn1 /elem_of_seq Hm1. rw !Hg => Heq.
    apply Nat2Z.inj, crc_top_inj; [rw /in_u; lia..|].
    have R k : (k < 256)%nat -> 0 <= Z.shiftr (crc_entry (Z.of_nat k)) 24.
    { move=> ?. apply Z.shiftr_nonneg. apply crc_entry_range. rw /in_u. lia. }
    have := R n. have := R m. lia.
  - rw length_replicate -Hgi. have [H1 H2] := in_u_shiftr 32 24 _ ltac:(lia) (crc_entry_range i Hi).
    change (2 ^ (32 - 24)) with 256 in H2. lia.
  - by rw /= Hf Hz.
Qed.

Lemma crc_step_range reg b : in_u 32 reg -> in_u 32 (crc_step reg b).
Proof.
  move=> Hr. apply in_u_lxor; [lia|apply crc_entry_range, in_u_land|].
  apply (in_u_mono (32 - 8)); [lia|]. by apply in_u_shiftr.
Qed.

Lemma rev_index value : in_u 32 value -> in_u 8 (Z.shiftr value 24).
Proof. move=> H. by apply (in_u_shiftr 32 24 value). Qed.

(** The backward step undoes a forward step over the same byte... *)
Lemma rev_step_undoes reg b :
  in_u 32 reg -> RevCRC_step RevCRC_new (crc_step reg b) b = reg.
Proof.
  move=> Hr. rw /RevCRC_step /crc_step. set i := Z.land (Z.lxor reg (b2z b)) 255.
  have Hi : in_u 8 i by apply in_u_land. have HT := crc_entry_range i Hi.
  have Hb := in_u_b2z b.
  have -> : Z.shiftr (Z.lxor (crc_entry i) (Z.shiftr reg 8)) 24 = Z.shiftr (crc_entry i) 24.
  { bits n Hn. bits_out. by rw xorb_false_r. }
  rw rev_entry_top //. bits n Hn. bits_cmp.
  all: destruct (Z.lt_ge_cases n 8); bits_out.
  all: try (rewrite -> Z.shiftr_spec, Z.sub_add by lia).
  all: try (rw /i; rewrite -> Z.land_spec, Z.lxor_spec, mask_testbit by lia; bits_cmp).
  all: by repeat destruct (Z.testbit _ _).
Qed.

(** ... and is undone by it. *)
Lemma crc_step_undoes value b :
  in_u 32 value -> crc_step (RevCRC_step RevCRC_new value b) b = value.
Proof.
  move=> Hv. destruct (crc_top_surj (Z.shiftr value 24)) as (i & Hi & Htop); [by apply rev_index|].
  have HT := crc_entry_range i Hi. have Hb := in_u_b2z b.
  rw /RevCRC_step -Htop rev_entry_top //. set w := Z.lxor _ (b2z b).
  have Hw : Z.land (Z.lxor w (b2z b)) 255 = i.
  { rw /w. bits n Hn. bits_cmp; bits_out; by repeat destruct (Z.testbit _ _). }
  rw /crc_step Hw /w. bits n Hn. bits_cmp; bits_out; rewrite ?Z.add_simpl_r.
  - by repeat destruct (Z.testbit _ _).
  - destruct (Z.lt_ge_cases n 32); last by bits_out.
    have := f_equal (fun z => Z.testbit z (n - 24)) Htop.
    rewrite -> !Z.shiftr_spec by lia. rewrite !Z.sub_add => ->. by destruct (Z.testbit _ _).
Qed.

Lemma RevCRC_step_range value b : in_u 32 value -> in_u 32 (RevCRC_step RevCRC_new value b).
Proof.
  move=> Hv. destruct (crc_top_surj (Z.shiftr value 24)) as (i & Hi & Htop); [by apply rev_index|].
  rw /RevCRC_step -Htop rev_entry_top //.
  repeat apply in_u_lxor; try lia; try by apply wrap_range.
  - by apply (in_u_mono 8); [lia|].
  - apply (in_u_mono 8); [lia|apply in_u_b2z].
Qed.

Lemma crc_update_app reg d1 d2 : crc_update reg (d1 ++ d2) = crc_update (crc_update reg d1) d2.
Proof. by rw !crc_update_bytes foldl_app. Qed.

Lemma crc_update_range reg d : in_u 32 reg -> in_u 32 (crc_update reg d).
Proof.
  rw crc_update_bytes. elim: d reg => [|b d IH] reg // Hr /=. by apply IH, crc_step_range.
Qed.

Lemma RevCRC_update_cons value b d :
  RevCRC_update RevCRC_new value (b :: d) = RevCRC_step RevCRC_new (RevCRC_update RevCRC_new value d) b.
Proof. by rw /RevCRC_update reverse_cons foldl_app. Qed.

Lemma RevCRC_update_range value d : in_u 32 value -> in_u 32 (RevCRC_update RevCRC_new value d).
Proof.
  move=> Hv. elim: d => [|b d IH] //. rw RevCRC_update_cons. by apply RevCRC_step_range.
Qed.

(** Running backwards over [d] finds the register from which [d] leads to [value]. *)
Lemma crc_update_rev value d :
  in_u 32 value -> crc_update (RevCRC_update RevCRC_new value d) d = value.
Proof.
  move=> Hv. rw crc_update_bytes. elim: d => [|b d IH] //.
  rw RevCRC_update_cons /= crc_step_undoes //. by apply RevCRC_update_range.
Qed.

Lemma rev_update_crc reg d :
  in_u 32 reg -> RevCRC_update RevCRC_new (crc_update reg d) d = reg.
Proof.
  rw crc_update_bytes. elim: d reg => [|b d IH] reg Hr //.
  rw RevCRC_update_cons /= IH; [by apply crc_step_range|]. by apply rev_step_undoes.
Qed.

(** A register update with the data already mixed in. *)
Definition mixed_step (u : Z) : Z := Z.lxor (crc_entry (Z.land u 255)) (Z.shiftr u 8).

Lemma crc_update_mixed k reg x :
  0 <= x -> Z.lxor (crc_update reg (le_bytes k x)) (Z.shiftr x (8 * Z.of_nat k)) =
  Nat.iter k mixed_step (Z.lxor reg x).
Proof.
  rw crc_update_bytes. elim: k reg x => [|k IH] reg x Hx; first by rw Z.shiftr_0_r.
  cbn [le_bytes foldl]. rw Nat.iter_succ_r.
  have -> : mixed_step (Z.lxor reg x) = Z.lxor (crc_step reg (z2b x)) (Z.shiftr x 8).
  { rw /mixed_step /crc_step b2z_z2b Z.shiftr_lxor -Z.lxor_assoc. do 3 f_equal.
    change 256 with (2 ^ 8). bits n Hn. bits_cmp.
    by rewrite -> Z.mod_pow2_bits_low by lia. }
  rw -IH; [by apply Z.shiftr_nonneg|].
  rw Z.shiftr_shiftr; [lia|]. change 256 with (2 ^ 8). rw -Z.shiftr_div_pow2 //.
  do 2 f_equal. lia.
Qed.

(** Four bytes: register and data are interchangeable. *)
Lemma crc_update_swap a b :
  in_u 32 a -> in_u 32 b -> crc_update a (le_bytes 4 b) = crc_update b (le_bytes 4 a).
Proof.
  move=> Ha Hb. have H1 := crc_update_mixed 4 a b. have H2 := crc_update_mixed 4 b a.
  have Hz x : in_u 32 x -> Z.shiftr x (8 * Z.of_nat 4) = 0.
  { move=> Hx. change (8 * Z.of_nat 4) with 32. rw Z.shiftr_div_pow2 //. by apply Z.div_small. }
  rw !Hz // !Z.lxor_0_r in H1 H2.
  rw H1; [by destruct Hb|]. rw H2; [by destruct Ha|]. by rw Z.lxor_comm.
Qed.
End rev_crc.

(** ** Forging *)

Section forging.
Context `{C : CrcImpl} {CS : CrcSpec C}.

Lemma le_bytes_4_range x : in_u 32 x -> le_val (le_bytes 4 x) = x.
Proof. apply (le_val_le_bytes 4). Qed.

(** The register reached after the forged bytes is the one from which the
    suffix leads to the target. *)
Lemma forge_register reg value :
  in_u 32 reg -> in_u 32 value ->
  crc_update reg (forge_crc (crc_finalize reg) (mkRevDigest RevCRC_new value)) = value.
Proof.
  move=> Hr Hv. rw /forge_crc /crc_finalize.
  have Hx : Z.lxor (Z.lxor reg crc_xorout) crc_xorout = reg by rw Z.lxor_assoc Z.lxor_nilpotent Z.lxor_0_r.
  cbn [rd_crc rev_xorout RevCRC_new RevDigest_update RevDigest_finalize rd_value]. rw Hx.
  rw crc_update_swap //; [by apply RevCRC_update_range|]. by apply crc_update_rev.
Qed.

Lemma RevDigest_updates value (ds : list bytes) :
  foldl RevDigest_update (mkRevDigest RevCRC_new value) ds =
  mkRevDigest RevCRC_new (RevCRC_update RevCRC_new value (concat (reverse ds))).
Proof.
  elim: ds value => [|d ds IH] value //=. rw /RevDigest_update /= IH. f_equal.
  by rw /RevCRC_update reverse_cons concat_app /= app_nil_r reverse_app foldl_app.
Qed.
End forging.

(** ** Properties *)

(** Running the CRC backwards inverts running it forwards: over any data,
    in both directions. *)
Lemma rev_crc_inverse `{C : CrcImpl} {CS : CrcSpec C} reg data (Hreg : in_u 32 reg) :
  RevCRC_update RevCRC_new (crc_update reg data) data = reg /\
  crc_update (RevCRC_update RevCRC_new reg data) data = reg.
Proof. split; [by apply rev_update_crc|by apply crc_update_rev]. Qed.


(** C13: [forge_crc] works.  For every prefix, every suffix fed to the reverse
    digest in reverse order of its pieces, and every 32-bit target, the CRC of
    prefix, forged bytes and suffix is the target; the forged bytes are four. *)
Theorem forge_crc_correct `{C : CrcImpl} {CS : CrcSpec C} (prefix : bytes) (suffix : list bytes)
  (target : Z) (Htarget : in_u 32 target) :
  let before := crc_checksum prefix in
  let after := foldl RevDigest_update (RevCRC_digest RevCRC_new target) (reverse suffix) in
  let forged := forge_crc before after in
  length forged = 4%nat /\
  crc_checksum (prefix ++ forged ++ concat suffix) = target.
Proof.
  cbn zeta. split; [apply length_le_bytes|].
  rw /RevCRC_digest RevDigest_updates reverse_involutive /crc_checksum !crc_update_app.
  have Hx : in_u 32 (Z.lxor target crc_xorout) by apply in_u_lxor; [lia|done|apply crc_xorout_range].
  change (rev_xorout RevCRC_new) with crc_xorout.
  rw forge_register; [apply crc_update_range, crc_init_range|by apply RevCRC_update_range|].
  rw crc_update_rev // /crc_finalize Z.lxor_assoc Z.lxor_nilpotent. apply Z.lxor_0_r.
Qed.

Lemma forge_crc_correct_witness :
  let before := @crc_checksum iso_hdlc [Byte.x41; Byte.x42] in
  let after := foldl RevDigest_update (RevCRC_digest (@RevCRC_new iso_hdlc) 0xDEADBEEF)
    (reverse [[Byte.x01]; [Byte.x02; Byte.x03]]) in
  let forged := forge_crc before after in
  length forged = 4%nat /\
  @crc_checksum iso_hdlc ([Byte.x41; Byte.x42] ++ forged ++ concat [[Byte.x01]; [Byte.x02; Byte.x03]]) = 0xDEADBEEF.
Proof. apply (@forge_crc_correct iso_hdlc iso_hdlc_spec). vm_compute. split; congruence. Defined.
