(* ===== verification/FactorioProtocol.v ===== *)
(** * The Factorio packets the proxies look into

    Models factorio-cacher/src/factorio_protocol.rs: the packet header with its
    fragmentation fields, the two transfer-block packets, the heartbeat that
    announces a world ready for download, and the world metadata.  A decoder
    returns the value and the rest of the datagram, or the error of a datagram
    that is too short. *)

From Stdlib Require Import ssreflect.
From stdpp Require Import base numbers list strings.
From S2P Require Import Prelude Buf.

Definition TRANSFER_BLOCK_SIZE : Z := 503.

(** ** Packet types *)

Inductive PacketType :=
| ServerToClientHeartbeat
| TransferBlockRequest
| TransferBlock
| Unknown (val : Z).

#[global] Instance PacketType_eq_dec : EqDecision PacketType.
Proof. solve_decision. Defined.

Definition PacketType_from (val : Z) : PacketType :=
  if val =? 7 then ServerToClientHeartbeat
  else if val =? 12 then TransferBlockRequest
  else if val =? 13 then TransferBlock
  else Unknown val.

Definition PacketType_into (t : PacketType) : Z :=
  match t with
  | ServerToClientHeartbeat => 7
  | TransferBlockRequest => 12
  | TransferBlock => 13
  | Unknown val => val
  end.

(** ** Headers *)

Record PacketFragmentationInfo := mkFragmentation {
  is_last_fragment : bool;
  message_id : Z;
  fragment_id : option Z;
}.

Record FactorioPacketHeader := mkHeader {
  packet_type : PacketType;
  fragmentation : option PacketFragmentationInfo;
}.

Definition FactorioPacketHeader_new_unfragmented (t : PacketType) : FactorioPacketHeader :=
  mkHeader t None.

Definition FactorioPacketHeader_decode (data : bytes) : result (FactorioPacketHeader * bytes) :=
  '(flags, data) ← try_get_u8 data;
  let packet_type := PacketType_from (Z.land flags 31) in
  let is_fragmented := negb (Z.land flags 64 =? 0) in
  let is_last_fragment := negb (Z.land flags 128 =? 0) in
  if is_fragmented || is_last_fragment then
    '(message_id, data) ← try_get_u16_le data;
    '(fragment_id, data) ←
      (if is_fragmented then
         '(id, data) ← try_get_factorio_varint16 data; Ok (Some id, data)
       else Ok (None, data));
    '(_, data) ←
      (if negb (Z.land message_id 0x8000 =? 0) then
         '(len, data) ← try_get_u32_le data;
         try_advance len data
       else Ok (tt, data));
    Ok (mkHeader packet_type
          (Some (mkFragmentation is_last_fragment (Z.land message_id 0x7FFF) fragment_id)), data)
  else Ok (mkHeader packet_type None, data).

Definition FactorioPacketHeader_encode (h : FactorioPacketHeader) : result bytes :=
  match fragmentation h with
  | Some _ => Panic "Encoding fragmented packets is unsupported"
  | None => Ok (put_u8 (PacketType_into (packet_type h)))
  end.

(** ** Packets *)

(** [trait FactorioPacket] *)
Class FactorioPacket (P : Type) := {
  PACKET_TYPE : PacketType;
  packet_encode : P -> bytes;
}.
Arguments PACKET_TYPE P {_}.

Definition encode_full_packet {P} `{FactorioPacket P} (p : P) : result bytes :=
  header ← FactorioPacketHeader_encode (FactorioPacketHeader_new_unfragmented (PACKET_TYPE P));
  Ok (header ++ packet_encode p).

Record TransferBlockRequestPacket := mkTransferBlockRequest {
  tbr_block_id : Z;
}.

Definition TransferBlockRequestPacket_decode (data : bytes) : result TransferBlockRequestPacket :=
  '(block_id, _) ← try_get_u32_le data; Ok (mkTransferBlockRequest block_id).

#[global] Instance TransferBlockRequestPacket_packet : FactorioPacket TransferBlockRequestPacket := {
  PACKET_TYPE := TransferBlockRequest;
  packet_encode p := put_u32_le (tbr_block_id p);
}.

Record TransferBlockPacket := mkTransferBlock {
  tb_block_id : Z;
  tb_data : bytes;
}.

Definition TransferBlockPacket_decode (data : bytes) : result TransferBlockPacket :=
  '(block_id, data) ← try_get_u32_le data; Ok (mkTransferBlock block_id data).

#[global] Instance TransferBlockPacket_packet : FactorioPacket TransferBlockPacket := {
  PACKET_TYPE := TransferBlock;
  packet_encode p := put_u32_le (tb_block_id p) ++ tb_data p;
}.

(** ** World metadata *)

Record FactorioWorldMetadata := mkWorldMetadata {
  world_size : Z;
  no_idea1 : Z;
  aux_size : Z;
  no_idea2 : Z;
  world_crc : Z;
}.

#[global] Instance FactorioWorldMetadata_eq_dec : EqDecision FactorioWorldMetadata.
Proof. solve_decision. Defined.

Definition FactorioWorldMetadata_decode (data : bytes) : result (FactorioWorldMetadata * bytes) :=
  '(world_size, data) ← try_get_u32_le data;
  '(no_idea1, data) ← try_get_u32_le data;
  '(aux_size, data) ← try_get_u32_le data;
  '(no_idea2, data) ← try_get_u32_le data;
  '(world_crc, data) ← try_get_u32_le data;
  Ok (mkWorldMetadata world_size no_idea1 aux_size no_idea2 world_crc, data).

Definition FactorioWorldMetadata_encode (w : FactorioWorldMetadata) : bytes :=
  put_u32_le (world_size w) ++ put_u32_le (no_idea1 w) ++ put_u32_le (aux_size w) ++
  put_u32_le (no_idea2 w) ++ put_u32_le (world_crc w).

Arguments FactorioWorldMetadata_encode : simpl never.

(** ** Heartbeats *)

Definition HasSynchronizerActions : Z := 0x10.
Definition MAP_READY_FOR_DOWNLOAD_ACTION_ID : Z := 5.

Record ServerToClientHeartbeatPacket := mkHeartbeat {
  hb_flags : Z;
  hb_data : bytes;
}.

Definition ServerToClientHeartbeatPacket_decode (data : bytes)
  : result ServerToClientHeartbeatPacket :=
  '(flags, data) ← try_get_u8 data;
  '(_, data) ← try_get_u32_le data;
  Ok (mkHeartbeat flags data).

Definition try_decode_map_ready (p : ServerToClientHeartbeatPacket)
  : result (option FactorioWorldMetadata) :=
  if hb_flags p =? HasSynchronizerActions then
    '(action_count, data) ← try_get_factorio_varint32 (hb_data p);
    if 0 <? action_count then
      '(action_type, data) ← try_get_u8 data;
      if action_type =? MAP_READY_FOR_DOWNLOAD_ACTION_ID then
        '(w, _) ← FactorioWorldMetadata_decode data; Ok (Some w)
      else Ok None
    else Ok None
  else Ok None.

(** ** Lemmas *)

Definition metadata_ok (w : FactorioWorldMetadata) : Prop :=
  in_u 32 (world_size w) /\ in_u 32 (no_idea1 w) /\ in_u 32 (aux_size w) /\
  in_u 32 (no_idea2 w) /\ in_u 32 (world_crc w).

Lemma metadata_decode_encode w rest :
  metadata_ok w -> FactorioWorldMetadata_decode (FactorioWorldMetadata_encode w ++ rest) = Ok (w, rest).
Proof.
  move=> [H1 [H2 [H3 [H4 H5]]]]. rw /FactorioWorldMetadata_decode /FactorioWorldMetadata_encode -!app_assoc.
  rw get_put_u32_le // bind_ok get_put_u32_le // bind_ok get_put_u32_le // bind_ok.
  rw get_put_u32_le // bind_ok get_put_u32_le // bind_ok. by destruct w.
Qed.

Lemma length_metadata w : length (FactorioWorldMetadata_encode w) = 20%nat.
Proof. rw /FactorioWorldMetadata_encode. len_norm. done. Qed.
#[export] Hint Rewrite length_metadata : len.

Definition packet_type_ok (t : PacketType) : Prop :=
  match t with Unknown v => 0 <= v < 32 /\ v <> 7 /\ v <> 12 /\ v <> 13 | _ => True end.

Lemma from_into t : packet_type_ok t -> PacketType_from (PacketType_into t) = t.
Proof.
  destruct t as [| | |v] => //= [[Hv [H7 [H12 H13]]]]. rw /PacketType_from.
  by rewrite -> (proj2 (Z.eqb_neq _ _) H7), (proj2 (Z.eqb_neq _ _) H12), (proj2 (Z.eqb_neq _ _) H13).
Qed.

Lemma header_decode_unfragmented t rest :
  packet_type_ok t ->
  FactorioPacketHeader_decode (put_u8 (PacketType_into t) ++ rest) = Ok (mkHeader t None, rest).
Proof.
  move=> Ht. have Hr : 0 <= PacketType_into t < 32 by destruct t; simpl in *; lia.
  rw /FactorioPacketHeader_decode get_put_u8; [by rw /in_u; lia|]. rw bind_ok.
  have Hland m : 0 <= m -> Z.land (PacketType_into t) (2 ^ 5 * m) = 0.
  { move=> Hm. apply Z.bits_inj' => n Hn. rw Z.land_spec Z.bits_0.
    destruct (Z.lt_ge_cases n 5).
    - rw (Z.mul_comm (2 ^ 5)) Z.mul_pow2_bits_low // andb_false_r //.
    - rw -(Z.mod_small (PacketType_into t) (2 ^ 5)) // Z.mod_pow2_bits_high //. }
  have -> : Z.land (PacketType_into t) 64 = 0 by apply (Hland 2).
  have -> : Z.land (PacketType_into t) 128 = 0 by apply (Hland 4).
  change 31 with (Z.ones 5). rw Z.land_ones // Z.mod_small //= from_into //.
Qed.

Lemma encode_full_request id :
  encode_full_packet (mkTransferBlockRequest id) = Ok (put_u8 12 ++ put_u32_le id).
Proof. done. Qed.

Lemma encode_full_block id data :
  encode_full_packet (mkTransferBlock id data) = Ok (put_u8 13 ++ put_u32_le id ++ data).
Proof. done. Qed.

(** ** Properties *)

Definition header_ok (h : FactorioPacketHeader) : Prop :=
  packet_type_ok (packet_type h) /\
  match fragmentation h with
  | None => True
  | Some f => in_u 15 (message_id f) /\
      match fragment_id f with None => is_last_fragment f = true | Some id => in_u 16 id end
  end.

Lemma packet_type_from_ok v : 0 <= v < 32 -> packet_type_ok (PacketType_from v).
Proof.
  move=> Hv. rw /PacketType_from. case: Z.eqb_spec => // ?. case: Z.eqb_spec => // ?.
  by case: Z.eqb_spec.
Qed.

Lemma land_mask z k : 0 <= k -> 0 <= Z.land z (Z.ones k) < 2 ^ k.
Proof. move=> Hk. rw Z.land_ones //. apply Z.mod_pos_bound. lia. Qed.

(** [FactorioPacketHeader::decode] on an arbitrary datagram never panics; an
    accepted header has a 5-bit packet type, a 15-bit message id and a 16-bit
    fragment id (absent only on a last fragment), and the message data handed on
    is a suffix of the datagram. *)
Theorem header_decode_safe data :
  reads header_ok (FactorioPacketHeader_decode data) data.
Proof.
  rw /FactorioPacketHeader_decode. eapply reads_bind; [apply reads_u8|]. move=> flags rest _ _.
  have Ht : packet_type_ok (PacketType_from (Z.land flags 31))
    by apply packet_type_from_ok, (land_mask flags 5).
  destruct (_ || _) eqn:Hor; last by apply reads_ok; split.
  eapply reads_bind; [apply reads_u16_le|]. move=> mid rest' _ _.
  eapply (reads_bind (fun fid => match fid with
    | None => negb (Z.land flags 128 =? 0) = true
    | Some id => in_u 16 id end)).
  { destruct (negb (Z.land flags 64 =? 0)); last by apply reads_ok.
    eapply reads_bind; [apply reads_varint16|]. move=> id r Hid _. by apply reads_ok. }
  move=> fid r Hfid _. eapply (reads_bind (fun _ => True)).
  { destruct (negb (Z.land mid 0x8000 =? 0)); last by apply reads_ok.
    eapply reads_bind; [apply reads_u32_le|]. move=> n r' _ _. apply reads_advance. }
  move=> [] r' _ _. apply reads_ok. split; [done|]. cbn.
  split; [by apply (land_mask mid 15)|by destruct fid].
Qed.

(** The packets the proxies build are read back as what was built: the
    header decoder accepts the full packet as unfragmented, of the packet's
    type, and the packet decoder returns the fields. *)
Lemma transfer_packets_roundtrip id data (Hid : in_u 32 id) :
  (exists full, encode_full_packet (mkTransferBlockRequest id) = Ok full /\
     exists msg, FactorioPacketHeader_decode full = Ok (mkHeader TransferBlockRequest None, msg) /\
       TransferBlockRequestPacket_decode msg = Ok (mkTransferBlockRequest id)) /\
  (exists full, encode_full_packet (mkTransferBlock id data) = Ok full /\
     exists msg, FactorioPacketHeader_decode full = Ok (mkHeader TransferBlock None, msg) /\
       TransferBlockPacket_decode msg = Ok (mkTransferBlock id data)).
Proof.
  split.
  - eexists. split; [apply encode_full_request|]. eexists.
    split; [by apply (header_decode_unfragmented TransferBlockRequest)|].
    rw /TransferBlockRequestPacket_decode -(app_nil_r (put_u32_le id)) get_put_u32_le //.
  - eexists. split; [apply encode_full_block|]. eexists.
    split; [by apply (header_decode_unfragmented TransferBlock)|].
    rw /TransferBlockPacket_decode get_put_u32_le //.
Qed.

(** A heartbeat that announces the world [w]: flags, sequence number, action
    count, action, metadata, and whatever follows. *)
Definition map_ready_heartbeat (seq count : Z) (w : FactorioWorldMetadata) (rest : bytes) : bytes :=
  put_u8 7 ++ put_u8 HasSynchronizerActions ++ put_u32_le seq ++ put_u8 count ++
  put_u8 MAP_READY_FOR_DOWNLOAD_ACTION_ID ++ FactorioWorldMetadata_encode w ++ rest.

Lemma map_ready_decode seq count w rest :
  in_u 32 seq -> 0 < count < 255 -> metadata_ok w ->
  exists msg hb, FactorioPacketHeader_decode (map_ready_heartbeat seq count w rest) =
      Ok (mkHeader ServerToClientHeartbeat None, msg) /\
    ServerToClientHeartbeatPacket_decode msg = Ok hb /\
    try_decode_map_ready hb = Ok (Some w).
Proof.
  move=> Hseq Hc Hw. eexists _, _. split; [by apply (header_decode_unfragmented ServerToClientHeartbeat)|].
  split.
  { rw /ServerToClientHeartbeatPacket_decode get_put_u8 // bind_ok get_put_u32_le // bind_ok //. }
  rw /try_decode_map_ready /= /try_get_factorio_varint32 get_put_u8; [by rw /in_u; lia|].
  rw bind_ok. have -> : (count =? 255) = false by lia. rw bind_ok.
  have -> : (0 <? count) = true by lia. rw get_put_u8 // bind_ok Z.eqb_refl.
  by rw metadata_decode_encode.
Qed.

(** A heartbeat announcing a world is recognised, with exactly the metadata
    it carries. *)
Lemma map_ready_recognised seq count w rest
  (Hseq : in_u 32 seq) (Hcount : 0 < count < 255) (Hw : metadata_ok w) :
  exists msg hb, FactorioPacketHeader_decode (map_ready_heartbeat seq count w rest) =
      Ok (mkHeader ServerToClientHeartbeat None, msg) /\
    ServerToClientHeartbeatPacket_decode msg = Ok hb /\
    try_decode_map_ready hb = Ok (Some w).
Proof. by apply map_ready_decode. Qed.

Definition sample_metadata : FactorioWorldMetadata := mkWorldMetadata 1000 1 600 2 0xDEADBEEF.

