(* ===== verification/FactorioServerProxy.v ===== *)
(** * The server side of the Factorio proxy

    Models the packet state machine of
    factorio-cacher/src/proxy/server_proxy.rs: [ServerProxyState] with its three
    phases, the download of the world in 503-byte blocks with at most 16
    requests in flight, the filter that rewrites the announced world size in
    later packets, and the reassembly at the start of [transfer_world_data].

    A handler takes the time [now] (in milliseconds) at which it runs: the
    source reads the clock several times in one call, the model once.  The u32
    additions and products wrap, as in a release build.  [memchr::memmem] is a
    parameter ([Memmem]) with its documented behaviour as laws; the channel pair
    [comp_stream] is an abstract token, and [finalize_world] returns the state
    it hands to the spawned [transfer_world_data]. *)

From Stdlib Require Import ssreflect Sorting.Sorted.
From Corelib Require Import SpecFloat.
From stdpp Require Import base numbers list sets strings sorting.
From S2P Require Import Prelude Buf BTreeSet FactorioProtocol.

#[local] Open Scope general_if_scope.

(** ** The size estimate

    [(world_size as f64 * world_estimate_multiplier) as u32], in the IEEE 754
    binary64 arithmetic of the standard library; the cast to [u32] truncates
    and saturates. *)

Definition u32_as_f64 (z : Z) : spec_float := binary_normalize 53 1024 z 0 false.
Definition f64_mul (x y : spec_float) : spec_float := SFmul 53 1024 x y.

Definition f64_as_u32 (x : spec_float) : Z :=
  match x with
  | S754_zero _ => 0
  | S754_infinity neg => if neg then 0 else U32_MAX
  | S754_nan => 0
  | S754_finite neg m e =>
      if neg then 0
      else Z.min U32_MAX (if 0 <=? e then Zpos m * 2 ^ e else Zpos m / 2 ^ (- e))
  end.

Record WorldOptions := mkWorldOptions {
  world_estimate_multiplier : spec_float;
}.

(** ** Substring search *)

Class Memmem := find_iter : bytes -> bytes -> list Z.

Definition occurs_at (needle hay : bytes) (pos : Z) : Prop :=
  0 <= pos /\ pos + len needle <= len hay /\ ztake (len needle) (zdrop pos hay) = needle.

(** Matches are occurrences, from left to right, and do not overlap; an
    occurrence that is not reported overlaps a reported one before it. *)
Class MemmemSpec (F : Memmem) : Prop := {
  find_iter_sound needle hay : Forall (occurs_at needle hay) (find_iter needle hay);
  find_iter_disjoint needle hay :
    StronglySorted (fun p q => p + len needle <= q) (find_iter needle hay);
  find_iter_complete needle hay pos : 0 < len needle -> occurs_at needle hay pos ->
    exists p, p ∈ find_iter needle hay /\ p <= pos < p + len needle;
}.

(** ** States *)

Inductive PacketDirection := ToClient | ToServer.

#[global] Instance PacketDirection_eq_dec : EqDecision PacketDirection.
Proof. solve_decision. Defined.

Record DownloadingWorldState := mkDownloading {
  dw_world_info : FactorioWorldMetadata;
  dw_new_world_info : FactorioWorldMetadata;
  dw_world_block_count : Z;
  dw_download_start_time : Z;
  dw_received_blocks : list TransferBlockPacket;
  dw_block_request_queue : BTreeSet;
  dw_inflight_block_requests : BTreeSet;
  dw_last_block_time : Z;
}.

Record FilteringPacketsState := mkFiltering {
  fp_needle : bytes;
  fp_replace_with : bytes;
  fp_last_replace : Z;
}.

Inductive ServerProxyPhase :=
| WaitingForWorld
| DownloadingWorld (state : DownloadingWorldState)
| Done.

Record ServerProxyState := mkServerProxy {
  sp_phase : ServerProxyPhase;
  sp_packet_filter : option FilteringPacketsState;
  sp_comp_stream : option unit;
  sp_world_options : WorldOptions;
}.

Definition INFLIGHT_BLOCK_REQUEST_LIMIT : Z := 16.

Definition ServerProxyState_new (opts : WorldOptions) : ServerProxyState :=
  mkServerProxy WaitingForWorld None (Some tt) opts.

Abbreviation packets := (list (bytes * PacketDirection)).

(** ** Operations *)

Definition block_request (block_id : Z) : result (bytes * PacketDirection) :=
  p ← encode_full_packet (mkTransferBlockRequest block_id); Ok (p, ToServer).

(** The [while] loop of [request_next_blocks], over the queue it pops. *)
Fixpoint request_next (queue inflight : BTreeSet) : result (BTreeSet * BTreeSet * packets) :=
  if len inflight <? INFLIGHT_BLOCK_REQUEST_LIMIT then
    match queue with
    | [] => Ok ([], inflight, [])
    | block_id :: queue =>
        p ← block_request block_id;
        '(queue, inflight, out) ← request_next queue (bt_insert block_id inflight);
        Ok (queue, inflight, p :: out)
    end
  else Ok (queue, inflight, []).

Definition request_next_blocks (s : DownloadingWorldState)
  : result (DownloadingWorldState * packets) :=
  '(queue, inflight, out) ←
    request_next (dw_block_request_queue s) (dw_inflight_block_requests s);
  Ok (mkDownloading (dw_world_info s) (dw_new_world_info s) (dw_world_block_count s)
        (dw_download_start_time s) (dw_received_blocks s) queue inflight (dw_last_block_time s), out).

(** [new_packet_data[pos..pos + n].copy_from_slice(r)] *)
Definition copy_into (pos n : Z) (r data : bytes) : result bytes :=
  if (len data <? pos + n) then Panic "range end index out of range for slice"
  else if negb (len r =? n) then Panic "copy_from_slice: source slice length does not match"
  else Ok (ztake pos data ++ r ++ zdrop (pos + n) data).

Fixpoint copy_all (ps : list Z) (n : Z) (r data : bytes) : result bytes :=
  match ps with
  | [] => Ok data
  | p :: ps => data ← copy_into p n r data; copy_all ps n r data
  end.

Section handlers.
Context `{Memmem}.

Definition filter_packet (f : FilteringPacketsState) (now : Z) (packet_data : bytes)
  : result (bytes * FilteringPacketsState) :=
  match find_iter (fp_needle f) packet_data with
  | [] => Ok (packet_data, f)
  | ps =>
      new_packet_data ← copy_all ps (len (fp_needle f)) (fp_replace_with f) packet_data;
      Ok (new_packet_data, mkFiltering (fp_needle f) (fp_replace_with f) now)
  end.

Definition block_count (size : Z) : Z :=
  wrap 32 (wrap 32 (size + TRANSFER_BLOCK_SIZE) - 1) / TRANSFER_BLOCK_SIZE.

Definition estimated_reconstructed_world_size (opts : WorldOptions) (w : FactorioWorldMetadata) : Z :=
  f64_as_u32 (f64_mul (u32_as_f64 (world_size w)) (world_estimate_multiplier opts)).

Definition transition_to_downloading_world (st : ServerProxyState) (now : Z)
    (in_packet_data : bytes) (world_info : FactorioWorldMetadata)
  : result (ServerProxyState * packets) :=
  let new_world_info := mkWorldMetadata
    (estimated_reconstructed_world_size (sp_world_options st) world_info)
    (no_idea1 world_info) (aux_size world_info) (no_idea2 world_info) (world_crc world_info) in
  let filtering_state := mkFiltering (FactorioWorldMetadata_encode world_info)
    (FactorioWorldMetadata_encode new_world_info) now in
  '(in_packet_data, filtering_state) ← filter_packet filtering_state now in_packet_data;
  let world_block_count := block_count (world_size world_info) in
  let aux_block_count := block_count (aux_size world_info) in
  let total_block_count := wrap 32 (world_block_count + aux_block_count) in
  let state := mkDownloading world_info new_world_info world_block_count now
    [] (z_range total_block_count) [] now in
  '(state, out) ← request_next_blocks state;
  Ok (mkServerProxy (DownloadingWorld state) (Some filtering_state)
        (sp_comp_stream st) (sp_world_options st),
      (in_packet_data, ToClient) :: out).

(** The state handed to the spawned [transfer_world_data]. *)
Definition finalize_world (st : ServerProxyState)
  : result (ServerProxyState * DownloadingWorldState) :=
  match sp_phase st with
  | DownloadingWorld state =>
      _ ← expect (sp_comp_stream st) "called `Option::unwrap()` on a `None` value";
      Ok (mkServerProxy Done (sp_packet_filter st) None (sp_world_options st), state)
  | _ => Panic "internal error: entered unreachable code"
  end.

Definition set_phase (st : ServerProxyState) (p : ServerProxyPhase) : ServerProxyState :=
  mkServerProxy p (sp_packet_filter st) (sp_comp_stream st) (sp_world_options st).

(** The end of [on_packet_from_server]: filter the packet and pass it on. *)
Definition forward_filtered (st : ServerProxyState) (now : Z) (in_packet_data : bytes)
  : result (ServerProxyState * packets) :=
  match sp_packet_filter st with
  | None => Ok (st, [(in_packet_data, ToClient)])
  | Some f =>
      '(in_packet_data, f) ← filter_packet f now in_packet_data;
      let filter := if 30000 <? now - fp_last_replace f then None else Some f in
      Ok (mkServerProxy (sp_phase st) filter (sp_comp_stream st) (sp_world_options st),
          [(in_packet_data, ToClient)])
  end.

(** The world a packet announces, if it does ([WaitingForWorld] arm). *)
Definition announced_world (in_packet_data : bytes) : option FactorioWorldMetadata :=
  match FactorioPacketHeader_decode in_packet_data with
  | Ok (header, msg_data) =>
      if bool_decide (packet_type header = ServerToClientHeartbeat) &&
         match fragmentation header with
         | None => true
         | Some frag => bool_decide (fragment_id frag = Some 0)
         end
      then
        match (hb ← ServerToClientHeartbeatPacket_decode msg_data; try_decode_map_ready hb) with
        | Ok (Some world_info) => Some world_info
        | _ => None
        end
      else None
  | _ => None
  end.

(** The message of a [TransferBlock] packet ([DownloadingWorld] arm). *)
Definition transfer_block_message (in_packet_data : bytes) : option bytes :=
  match FactorioPacketHeader_decode in_packet_data with
  | Ok (header, msg_data) =>
      if bool_decide (packet_type header = TransferBlock) then Some msg_data else None
  | _ => None
  end.

(** A block arrives: it is kept only if it was asked for or still queued. *)
Definition receive_block (s : DownloadingWorldState) (now : Z) (b : TransferBlockPacket)
  : DownloadingWorldState :=
  let '(was_inflight, inflight) := bt_remove (tb_block_id b) (dw_inflight_block_requests s) in
  let '(was_queued, queue) :=
    if was_inflight then (false, dw_block_request_queue s)
    else bt_remove (tb_block_id b) (dw_block_request_queue s) in
  if was_inflight || was_queued then
    mkDownloading (dw_world_info s) (dw_new_world_info s) (dw_world_block_count s)
      (dw_download_start_time s) (dw_received_blocks s ++ [b]) queue inflight now
  else s.

(** Ask again for everything in flight after 100 ms of silence. *)
Definition retry_requests (s : DownloadingWorldState) (now : Z)
  : result (DownloadingWorldState * packets) :=
  if 100 <? now - dw_last_block_time s then
    again ← collect block_request (dw_inflight_block_requests s);
    '(s, out) ← request_next_blocks s;
    Ok (mkDownloading (dw_world_info s) (dw_new_world_info s) (dw_world_block_count s)
          (dw_download_start_time s) (dw_received_blocks s) (dw_block_request_queue s)
          (dw_inflight_block_requests s) now, again ++ out)
  else Ok (s, []).

Definition on_packet_from_server (st : ServerProxyState) (now : Z) (in_packet_data : bytes)
  : result (ServerProxyState * packets * option DownloadingWorldState) :=
  match sp_phase st with
  | WaitingForWorld =>
      match announced_world in_packet_data with
      | Some world_info =>
          '(st, out) ← transition_to_downloading_world st now in_packet_data world_info;
          Ok (st, out, None)
      | None => '(st, out) ← forward_filtered st now in_packet_data; Ok (st, out, None)
      end
  | DownloadingWorld state =>
      match transfer_block_message in_packet_data with
      | Some msg_data =>
          match TransferBlockPacket_decode msg_data with
          | Ok transfer_block =>
              let state := receive_block state now transfer_block in
              match dw_block_request_queue state, dw_inflight_block_requests state with
              | [], [] =>
                  '(st, spawned) ← finalize_world (set_phase st (DownloadingWorld state));
                  Ok (st, [], Some spawned)
              | _, _ =>
                  '(state, out) ← request_next_blocks state;
                  Ok (set_phase st (DownloadingWorld state), out, None)
              end
          | _ => Ok (st, [], None)
          end
      | None =>
          '(state, out) ← retry_requests state now;
          '(st, out') ← forward_filtered (set_phase st (DownloadingWorld state)) now in_packet_data;
          Ok (st, out ++ out', None)
      end
  | Done => '(st, out) ← forward_filtered st now in_packet_data; Ok (st, out, None)
  end.
End handlers.

(** ** Reassembly ([transfer_world_data]) *)

Definition block_id_le (a b : TransferBlockPacket) : Prop := tb_block_id a <= tb_block_id b.
#[global] Instance block_id_le_dec : RelDecision block_id_le.
Proof. move=> a b. apply Z.le_dec. Defined.

(** [sort_by_key(|block| block.block_id)], a stable merge sort. *)
Definition sort_by_block_id : list TransferBlockPacket -> list TransferBlockPacket :=
  merge_sort block_id_le.

Definition assemble_world (s : DownloadingWorldState) : result (bytes * bytes) :=
  let blocks := sort_by_block_id (dw_received_blocks s) in
  let received_data := concat (tb_data <$> blocks) in
  let aux_data_offset := wrap 32 (dw_world_block_count s * TRANSFER_BLOCK_SIZE) in
  let world_size := world_size (dw_world_info s) in
  let aux_size := aux_size (dw_world_info s) in
  if len received_data <? aux_data_offset + aux_size then
    Err (Anyhow "Received data length is smaller than expected length")
  else if len received_data <? world_size then Panic "range end out of bounds"
  else
    let aux_end := wrap 32 (aux_data_offset + aux_size) in
    if aux_end <? aux_data_offset then Panic "range start must not be greater than end"
    else
      let world_data := ztake world_size received_data in
      let aux_data := ztake (aux_end - aux_data_offset) (zdrop aux_data_offset received_data) in
      Ok (world_data, aux_data).

(** ** The invariant *)

Definition total_blocks (w : FactorioWorldMetadata) : Z :=
  wrap 32 (block_count (world_size w) + block_count (aux_size w)).

(** Every block id is in exactly one of the received blocks, the requests in
    flight and the queue; at most 16 requests are in flight, and exactly 16
    while some id is still queued. *)
Definition download_inv (s : DownloadingWorldState) : Prop :=
  bt_sorted (dw_block_request_queue s) /\ bt_sorted (dw_inflight_block_requests s) /\
  (tb_block_id <$> dw_received_blocks s) ++ dw_inflight_block_requests s ++
    dw_block_request_queue s ≡ₚ z_range (total_blocks (dw_world_info s)) /\
  len (dw_inflight_block_requests s) <= INFLIGHT_BLOCK_REQUEST_LIMIT /\
  (dw_block_request_queue s <> [] ->
     len (dw_inflight_block_requests s) = INFLIGHT_BLOCK_REQUEST_LIMIT) /\
  dw_world_block_count s = block_count (world_size (dw_world_info s)).

Definition filter_ok (f : FilteringPacketsState) : Prop :=
  len (fp_needle f) = 20 /\ len (fp_replace_with f) = 20.

Definition proxy_inv (st : ServerProxyState) : Prop :=
  (forall f, sp_packet_filter st = Some f -> filter_ok f) /\
  match sp_phase st with
  | WaitingForWorld => sp_comp_stream st = Some tt /\ sp_packet_filter st = None
  | DownloadingWorld s => sp_comp_stream st = Some tt /\ download_inv s
  | Done => sp_comp_stream st = None
  end.

(** ** Requests *)

Definition request_packet (id : Z) : bytes * PacketDirection :=
  (put_u8 12 ++ put_u32_le id, ToServer).

Lemma block_request_ok id : block_request id = Ok (request_packet id).
Proof. by rw /block_request encode_full_request. Qed.

Lemma request_next_ok queue inflight :
  bt_sorted queue -> bt_sorted inflight -> NoDup (inflight ++ queue) ->
  len inflight <= INFLIGHT_BLOCK_REQUEST_LIMIT ->
  exists ids queue' inflight',
    request_next queue inflight = Ok (queue', inflight', request_packet <$> ids) /\
    queue = ids ++ queue' /\ inflight' ≡ₚ inflight ++ ids /\
    bt_sorted queue' /\ bt_sorted inflight' /\
    len inflight' <= INFLIGHT_BLOCK_REQUEST_LIMIT /\
    (queue' <> [] -> len inflight' = INFLIGHT_BLOCK_REQUEST_LIMIT).
Proof.
  elim: queue inflight => [|id queue IH] inflight Hq Hi Hnd Hlen; cbn [request_next].
  - exists [], [], inflight. destruct (_ <? _); split_and!; try done; by rw app_nil_r.
  - case: Z.ltb_spec => Hlt.
    + have Hfresh : id ∉ inflight.
      { move=> Hin. apply NoDup_app in Hnd as (_ & Hd & _). apply (Hd id Hin). by left. }
      have Hp := bt_insert_fresh id inflight Hfresh.
      destruct (IH (bt_insert id inflight)) as (ids & q' & i' & Heq & -> & Hpi & Hsq & Hsi & Hl & Hfull).
      { by apply bt_sorted_cons in Hq as [_ ?]. }
      { by apply bt_insert_sorted. }
      { rw Hp. by rw -Permutation_middle in Hnd. }
      { rw Hp /=. rw /INFLIGHT_BLOCK_REQUEST_LIMIT in Hlt *. lia. }
      exists (id :: ids), q', i'. rw block_request_ok bind_ok Heq. split_and!; try done.
      rw Hpi Hp. by rw -Permutation_middle.
    + exists [], (id :: queue), inflight. split_and!; try done; [by rw app_nil_r|lia].
Qed.

Lemma request_next_blocks_ok s :
  bt_sorted (dw_block_request_queue s) -> bt_sorted (dw_inflight_block_requests s) ->
  (tb_block_id <$> dw_received_blocks s) ++ dw_inflight_block_requests s ++
    dw_block_request_queue s ≡ₚ z_range (total_blocks (dw_world_info s)) ->
  len (dw_inflight_block_requests s) <= INFLIGHT_BLOCK_REQUEST_LIMIT ->
  dw_world_block_count s = block_count (world_size (dw_world_info s)) ->
  exists s' ids, request_next_blocks s = Ok (s', request_packet <$> ids) /\ download_inv s' /\
    dw_world_info s' = dw_world_info s /\ dw_new_world_info s' = dw_new_world_info s /\
    dw_received_blocks s' = dw_received_blocks s /\
    dw_inflight_block_requests s' ≡ₚ dw_inflight_block_requests s ++ ids /\
    dw_block_request_queue s = ids ++ dw_block_request_queue s' /\
    dw_last_block_time s' = dw_last_block_time s.
Proof.
  move=> Hq Hi Hp Hlen Hwb.
  have Hnd : NoDup (dw_inflight_block_requests s ++ dw_block_request_queue s).
  { have H : NoDup (z_range (total_blocks (dw_world_info s))) by apply bt_sorted_nodup, z_range_sorted.
    rw -Hp in H. by apply NoDup_app in H as (_ & _ & ?). }
  destruct (request_next_ok _ _ Hq Hi Hnd Hlen) as (ids & q' & i' & Heq & Hqe & Hpi & Hsq & Hsi & Hl & Hfull).
  eexists _, ids. rw /request_next_blocks Heq bind_ok. split; [done|].
  split_and!; try done. split_and!; try done. cbn.
  rw Hpi -app_assoc -Hqe. exact Hp.
Qed.

(** ** The filter *)

(** The byte of the filtered packet at [i]: the replacement inside a match. *)
Definition filtered_byte (ps : list Z) (n : Z) (r data : bytes) (i : Z) : option Byte.byte :=
  match filter (fun p => p <= i < p + n) ps with
  | p :: _ => r !! Z.to_nat (i - p)
  | [] => data !! Z.to_nat i
  end.

Lemma filtered_byte_match ps n r data p i :
  StronglySorted (fun p q => p + n <= q) ps -> p ∈ ps -> 0 <= i < n ->
  filtered_byte ps n r data (p + i) = r !! Z.to_nat i.
Proof.
  move=> Hs Hp Hi. rw /filtered_byte. elim: Hs Hp => [|q qs Hs IH Hq] Hp; first by inversion Hp.
  rw filter_cons. have Hlt := proj1 (Forall_forall _ _) Hq.
  apply elem_of_cons in Hp as [->|Hp].
  - rw decide_True; [lia|]. f_equal. lia.
  - have := Hlt p Hp => /= ?. rw decide_False; [lia|]. by apply IH.
Qed.

Lemma copy_into_ok pos n r data :
  0 <= pos -> 0 <= n -> pos + n <= len data -> len r = n ->
  exists data', copy_into pos n r data = Ok data' /\ len data' = len data /\
    forall i, 0 <= i -> data' !! Z.to_nat i =
      if decide (pos <= i < pos + n) then r !! Z.to_nat (i - pos) else data !! Z.to_nat i.
Proof.
  move=> Hpos Hn Hle Hr. rw /copy_into. case: Z.ltb_spec => ?; first lia. rw Hr Z.eqb_refl /=.
  eexists. split; [done|]. split; first len_lia.
  move=> i Hi. have Ht : length (ztake pos data) = Z.to_nat pos by len_lia.
  case_decide as Hin.
  - rw lookup_app_r; [lia|]. rw lookup_app_l; [lia|]. f_equal. lia.
  - destruct (Z.lt_ge_cases i pos).
    + rw lookup_app_l; [lia|]. rw /ztake lookup_take_lt //. lia.
    + rw lookup_app_r; [lia|]. rw lookup_app_r; [lia|]. rw /zdrop lookup_drop. f_equal. lia.
Qed.

Lemma copy_all_ok ps n r data :
  0 <= n -> len r = n -> Forall (fun p => 0 <= p /\ p + n <= len data) ps ->
  StronglySorted (fun p q => p + n <= q) ps ->
  exists data', copy_all ps n r data = Ok data' /\ len data' = len data /\
    forall i, 0 <= i -> data' !! Z.to_nat i = filtered_byte ps n r data i.
Proof.
  move=> Hn Hr. elim: ps data => [|p ps IH] data Hin Hs; first by exists data.
  apply Forall_cons in Hin as [[Hp1 Hp2] Hin]. inversion Hs as [|?? Hs' Hlt]; subst.
  destruct (copy_into_ok p (len r) r data) as (d1 & Heq1 & Hl1 & Hb1); [lia..|].
  destruct (IH d1) as (d2 & Heq2 & Hl2 & Hb2); [by rw Hl1|done|].
  exists d2. cbn [copy_all]. rw Heq1 bind_ok Heq2. split_and!; [done|lia|].
  move=> i Hi. rw Hb2 // /filtered_byte filter_cons. case_decide as Hpi.
  - have -> : filter (fun q => q <= i < q + len r) ps = [].
    { apply elem_of_nil_inv => q /list_elem_of_filter [Hq Hqin].
      have := proj1 (Forall_forall _ _) Hlt q Hqin. simpl. lia. }
    rw Hb1 // decide_True //.
  - destruct (filter _ ps); [|done]. by rw Hb1 // decide_False.
Qed.

Section filter.
Context `{F : Memmem} {FS : MemmemSpec F}.

Lemma filter_packet_ok f now data :
  len (fp_needle f) = len (fp_replace_with f) ->
  exists data' f', filter_packet f now data = Ok (data', f') /\
    len data' = len data /\
    (forall i, 0 <= i -> data' !! Z.to_nat i =
       filtered_byte (find_iter (fp_needle f) data) (len (fp_needle f)) (fp_replace_with f) data i) /\
    fp_needle f' = fp_needle f /\ fp_replace_with f' = fp_replace_with f /\
    fp_last_replace f' = (if find_iter (fp_needle f) data is [] then fp_last_replace f else now).
Proof.
  move=> Hlen.
  destruct (copy_all_ok (find_iter (fp_needle f) data) (len (fp_needle f)) (fp_replace_with f) data)
    as (d' & Heq & Hl & Hb); [lia|done| |apply find_iter_disjoint|].
  { eapply Forall_impl; [apply find_iter_sound|]. move=> p [? [? _]]. lia. }
  rw /filter_packet. destruct (find_iter (fp_needle f) data) as [|p ps] eqn:Hf.
  - exists data, f. by split_and!.
  - eexists _, _. rw Heq bind_ok. by split_and!.
Qed.

Lemma forward_filtered_ok st now data :
  (forall f, sp_packet_filter st = Some f -> filter_ok f) ->
  exists st' data', forward_filtered st now data = Ok (st', [(data', ToClient)]) /\
    len data' = len data /\
    (sp_packet_filter st = None -> data' = data /\ st' = st) /\
    (forall f, sp_packet_filter st' = Some f -> filter_ok f) /\
    sp_phase st' = sp_phase st /\ sp_comp_stream st' = sp_comp_stream st.
Proof.
  move=> Hok. rw /forward_filtered. destruct (sp_packet_filter st) as [f|] eqn:Hf; last first.
  { exists st, data. split_and!; try done. by move=> f; rw Hf. }
  specialize (Hok f eq_refl).
  destruct (filter_packet_ok f now data) as (d' & f' & Heq & Hl & _ & Hn & Hr & _).
  { destruct Hok. lia. }
  rw Heq bind_ok. eexists _, d'. split; [done|]. split_and!; try done. cbn.
  move=> g. destruct (_ <? _); [done|]. move=> [<-]. by rw /filter_ok Hn Hr.
Qed.
End filter.

(** ** The download *)

Lemma receive_block_ok s now b :
  download_inv s ->
  let s' := receive_block s now b in
  bt_sorted (dw_block_request_queue s') /\ bt_sorted (dw_inflight_block_requests s') /\
  (tb_block_id <$> dw_received_blocks s') ++ dw_inflight_block_requests s' ++
    dw_block_request_queue s' ≡ₚ z_range (total_blocks (dw_world_info s')) /\
  len (dw_inflight_block_requests s') <= INFLIGHT_BLOCK_REQUEST_LIMIT /\
  dw_world_block_count s' = block_count (world_size (dw_world_info s')) /\
  dw_world_info s' = dw_world_info s /\ dw_new_world_info s' = dw_new_world_info s /\
  dw_received_blocks s' =
    dw_received_blocks s ++
      (if decide (tb_block_id b ∈ dw_inflight_block_requests s ++ dw_block_request_queue s)
       then [b] else []).
Proof.
  intros (Hq & Hi & Hp & Hlen & _ & Hwb). rw /receive_block.
  have Hri := bt_remove_spec (tb_block_id b) _ Hi.
  destruct (bt_remove (tb_block_id b) (dw_inflight_block_requests s)) as [bi i'].
  destruct Hri as [Hsi Hri]. destruct bi; cbn [orb].
  - have Hin : tb_block_id b ∈ dw_inflight_block_requests s by rw Hri; left.
    rw decide_True; [set_solver|]. cbn. split_and!; try done.
    + rw -Hp Hri fmap_app /=. by rw -app_assoc.
    + rw Hri /= in Hlen. lia.
  - destruct Hri as [Hni ->].
    have Hrq := bt_remove_spec (tb_block_id b) _ Hq.
    destruct (bt_remove (tb_block_id b) (dw_block_request_queue s)) as [bq q'].
    destruct Hrq as [Hsq Hrq]. destruct bq; cbn.
    + have Hin : tb_block_id b ∈ dw_block_request_queue s by rw Hrq; left.
      rw decide_True; [set_solver|]. split_and!; try done.
      rw -Hp Hrq fmap_app /= -app_assoc /=. by rw (Permutation_middle (dw_inflight_block_requests s)).
    + destruct Hrq as [Hnq _]. rw decide_False; [set_solver|]. rw app_nil_r. by split_and!.
Qed.

Lemma download_inv_time s now :
  download_inv s ->
  download_inv (mkDownloading (dw_world_info s) (dw_new_world_info s) (dw_world_block_count s)
    (dw_download_start_time s) (dw_received_blocks s) (dw_block_request_queue s)
    (dw_inflight_block_requests s) now).
Proof. done. Qed.

Lemma retry_requests_ok s now :
  download_inv s ->
  exists s' ids, retry_requests s now = Ok (s', request_packet <$> ids) /\ download_inv s' /\
    dw_world_info s' = dw_world_info s /\ dw_new_world_info s' = dw_new_world_info s /\
    dw_received_blocks s' = dw_received_blocks s /\
    dw_inflight_block_requests s' ++ dw_block_request_queue s' ≡ₚ
      dw_inflight_block_requests s ++ dw_block_request_queue s /\
    (100 < now - dw_last_block_time s ->
       dw_inflight_block_requests s ⊆ ids /\ dw_last_block_time s' = now).
Proof.
  move=> Hinv. rw /retry_requests. case: Z.ltb_spec => Hlt; last first.
  { exists s, []. split_and!; try done. lia. }
  destruct Hinv as (Hq & Hi & Hp & Hlen & Hfull & Hwb).
  rw (collect_ok _ request_packet); [move=> x _; apply block_request_ok|]. rw bind_ok.
  destruct (request_next_blocks_ok s) as (s' & ids & Heq & Hinv' & Hw & Hnw & Hr & Hi' & Hq' & _); try done.
  rw Heq bind_ok -fmap_app. do 2 eexists. split; [done|].
  split_and!; [by apply download_inv_time|done|done|done| |].
  - cbn. rw Hi' Hq'. by rw app_assoc.
  - move=> _. split; [set_solver|done].
Qed.

(** The metadata the game client is told. *)
Definition announced_info (opts : WorldOptions) (w : FactorioWorldMetadata) : FactorioWorldMetadata :=
  mkWorldMetadata (estimated_reconstructed_world_size opts w)
    (no_idea1 w) (aux_size w) (no_idea2 w) (world_crc w).

Section handler.
Context `{F : Memmem} {FS : MemmemSpec F}.

Lemma transition_ok st now data w :
  sp_comp_stream st = Some tt ->
  exists st' data' s ids,
    transition_to_downloading_world st now data w =
      Ok (st', (data', ToClient) :: (request_packet <$> ids)) /\
    len data' = len data /\ proxy_inv st' /\ sp_phase st' = DownloadingWorld s /\
    dw_world_info s = w /\ dw_new_world_info s = announced_info (sp_world_options st) w /\
    dw_received_blocks s = [] /\ ids ≡ₚ dw_inflight_block_requests s.
Proof.
  move=> Hcs. rw /transition_to_downloading_world. set nw := mkWorldMetadata _ _ _ _ _.
  destruct (filter_packet_ok (mkFiltering (FactorioWorldMetadata_encode w)
    (FactorioWorldMetadata_encode nw) now) now data) as (d' & f' & Heq & Hl & _ & Hn & Hr & _).
  { cbn [fp_needle fp_replace_with]. by rw !length_metadata. }
  rw Heq bind_ok.
  destruct (request_next_blocks_ok (mkDownloading w nw (block_count (world_size w)) now []
    (z_range (total_blocks w)) [] now)) as (s & ids & Heq2 & Hinv & Hw & Hnw & Hrec & Hpi & Hq & _);
    try done; [apply z_range_sorted|constructor|].
  rw Heq2 bind_ok. do 4 eexists. split; [done|]. split_and!; try done.
  split; [|done]. move=> g [<-]. rw /filter_ok Hn Hr. cbn [fp_needle fp_replace_with].
  by rw !length_metadata.
Qed.

(** A [TransferBlock] packet during the download: the download goes on with
    the block added, or it was the last one and the world is handed over. *)
Lemma on_block_ok st s now data msg b :
  proxy_inv st -> sp_phase st = DownloadingWorld s ->
  transfer_block_message data = Some msg -> TransferBlockPacket_decode msg = Ok b ->
  let s1 := receive_block s now b in
  exists st' out spawned,
    on_packet_from_server st now data = Ok (st', out, spawned) /\ proxy_inv st' /\
    Forall (fun p => snd p = ToServer) out /\
    match spawned with
    | None => exists s2, sp_phase st' = DownloadingWorld s2 /\
        dw_world_info s2 = dw_world_info s /\ dw_new_world_info s2 = dw_new_world_info s /\
        dw_received_blocks s2 = dw_received_blocks s1 /\
        dw_inflight_block_requests s2 ++ dw_block_request_queue s2 ≡ₚ
          dw_inflight_block_requests s1 ++ dw_block_request_queue s1 /\
        dw_inflight_block_requests s1 ++ dw_block_request_queue s1 <> []
    | Some s' => s' = s1 /\ sp_phase st' = Done /\
        dw_inflight_block_requests s1 = [] /\ dw_block_request_queue s1 = []
    end.
Proof.
  move=> [Hf Hph] Hphase Hmsg Hb s1. rw Hphase in Hph. destruct Hph as [Hcs Hinv].
  rw /on_packet_from_server Hphase Hmsg Hb.
  destruct (receive_block_ok s now b Hinv) as (Hq & Hi & Hp & Hlen & Hwb & Hw & Hnw & _).
  rw -/s1 in Hq Hi Hp Hlen Hwb Hw Hnw *. cbn zeta.
  destruct (decide (dw_block_request_queue s1 = [] /\ dw_inflight_block_requests s1 = []))
    as [[Hq0 Hi0]|Hne].
  - rw Hq0 Hi0 /finalize_world. cbn. rw Hcs. cbn. do 3 eexists. split; [done|]. by split_and!.
  - destruct (request_next_blocks_ok s1 Hq Hi Hp Hlen Hwb)
      as (s2 & ids & Heq & Hinv2 & Hw2 & Hnw2 & Hr2 & Hi2 & Hq2 & _).
    have -> : (match dw_block_request_queue s1, dw_inflight_block_requests s1 with
      | [], [] => '(st, spawned) ← finalize_world (set_phase st (DownloadingWorld s1));
          Ok (st, [], Some spawned)
      | _, _ => '(state, out) ← request_next_blocks s1;
          Ok (set_phase st (DownloadingWorld state), out, None) end) =
      Ok (set_phase st (DownloadingWorld s2), request_packet <$> ids, None).
    { destruct (dw_block_request_queue s1), (dw_inflight_block_requests s1);
        try (by rw Heq bind_ok). by destruct Hne. }
    do 3 eexists. split; [done|]. split; [done|]. split; [by apply Forall_fmap, Forall_true|].
    exists s2. split_and!; try done.
    + by rw Hw2.
    + by rw Hnw2.
    + rw Hi2 Hq2. by rw app_assoc.
    + move=> /app_nil [? ?]. by apply Hne.
Qed.

(** Every other packet is passed on, filtered, after the requests. *)
Lemma on_other_ok st now data :
  proxy_inv st ->
  (forall s, sp_phase st = DownloadingWorld s -> transfer_block_message data = None) ->
  (sp_phase st = WaitingForWorld -> announced_world data = None) ->
  exists st' ids data',
    on_packet_from_server st now data =
      Ok (st', (request_packet <$> ids) ++ [(data', ToClient)], None) /\ proxy_inv st' /\
    len data' = len data /\ (sp_packet_filter st = None -> data' = data) /\
    match sp_phase st with
    | DownloadingWorld s => exists s2, sp_phase st' = DownloadingWorld s2 /\
        dw_world_info s2 = dw_world_info s /\ dw_new_world_info s2 = dw_new_world_info s /\
        dw_received_blocks s2 = dw_received_blocks s /\
        dw_inflight_block_requests s2 ++ dw_block_request_queue s2 ≡ₚ
          dw_inflight_block_requests s ++ dw_block_request_queue s
    | ph => sp_phase st' = ph
    end.
Proof.
  move=> [Hf Hph] Hb Hw. rw /on_packet_from_server. destruct (sp_phase st) as [|s|] eqn:Hphase.
  - rw Hw //. destruct (forward_filtered_ok st now data Hf) as (st' & d' & -> & Hl & Hn & Hf' & Hp & Hc).
    destruct Hph as [Hcs Hnf]. destruct (Hn Hnf) as [-> ->].
    rw bind_ok. exists st, [], data. split; [done|]. rw /proxy_inv Hphase. by split_and!.
  - destruct Hph as [Hcs Hinv]. rw (Hb s) //.
    destruct (retry_requests_ok s now Hinv) as (s2 & ids & -> & Hinv2 & Hw2 & Hnw2 & Hr2 & Hp2 & _).
    rw bind_ok.
    destruct (forward_filtered_ok (set_phase st (DownloadingWorld s2)) now data Hf)
      as (st' & d' & -> & Hl & Hn & Hf' & Hp & Hc).
    rw bind_ok. exists st', ids, d'. split; [done|]. rw /proxy_inv Hp Hc. cbn. split_and!; try done.
    { by move=> /Hn []. } by exists s2.
  - destruct (forward_filtered_ok st now data Hf) as (st' & d' & -> & Hl & Hn & Hf' & Hp & Hc).
    rw bind_ok. exists st', [], d'. split; [done|]. rw /proxy_inv Hp Hphase Hc. split_and!; try done.
    by move=> /Hn [].
Qed.

(** What one packet does to the phase and what it hands over. *)
Definition step_ok (st st' : ServerProxyState) (spawned : option DownloadingWorldState) : Prop :=
  match spawned with
  | None => sp_phase st' = Done <-> sp_phase st = Done
  | Some s => sp_phase st' = Done /\ sp_phase st <> Done /\
      tb_block_id <$> dw_received_blocks s ≡ₚ z_range (total_blocks (dw_world_info s)) /\
      dw_world_block_count s = block_count (world_size (dw_world_info s))
  end.

Lemma on_packet_ok st now data :
  proxy_inv st ->
  exists st' out spawned,
    on_packet_from_server st now data = Ok (st', out, spawned) /\ proxy_inv st' /\
    step_ok st st' spawned.
Proof.
  move=> Hinv.
  have Hother : (forall s, sp_phase st = DownloadingWorld s -> transfer_block_message data = None) ->
    (sp_phase st = WaitingForWorld -> announced_world data = None) ->
    exists st' out spawned, on_packet_from_server st now data = Ok (st', out, spawned) /\
      proxy_inv st' /\ step_ok st st' spawned.
  { move=> Hb Hw. destruct (on_other_ok st now data Hinv Hb Hw) as (st' & ids & d' & Heq & Hi & _ & _ & Hp).
    do 3 eexists. split; [done|]. split; [done|]. rw /step_ok.
    destruct (sp_phase st); [by rw Hp| |by rw Hp]. by destruct Hp as (s2 & -> & _). }
  destruct (sp_phase st) as [|s|] eqn:Hphase; [| |by apply Hother].
  - destruct (announced_world data) as [w|] eqn:Hw; [|by apply Hother].
    destruct Hinv as [_ Hph]. rw Hphase in Hph.
    destruct (transition_ok st now data w (proj1 Hph)) as (st' & d' & s & ids & Heq & _ & Hinv & Hp & _).
    exists st', ((d', ToClient) :: (request_packet <$> ids)), None.
    rw /on_packet_from_server Hphase Hw Heq. split; [done|]. split; [done|]. by rw /step_ok Hp Hphase.
  - destruct (transfer_block_message data) as [msg|] eqn:Hmsg; [|apply Hother; naive_solver].
    destruct (TransferBlockPacket_decode msg) as [b|e|p] eqn:Hb.
    + destruct (on_block_ok st s now data msg b Hinv Hphase Hmsg Hb)
        as (st' & out & spawned & Heq & Hinv' & _ & Hsp).
      do 3 eexists. split; [done|]. split; [done|]. rw /step_ok Hphase.
      destruct spawned as [s'|]; last by destruct Hsp as (s2 & -> & _).
      destruct Hsp as (-> & Hd & Hi0 & Hq0). destruct Hinv as [_ Hph]. rw Hphase in Hph.
      destruct (receive_block_ok s now b (proj2 Hph)) as (_ & _ & Hp & _ & Hwb & _).
      rw Hi0 Hq0 !app_nil_r in Hp. by split_and!.
    + exists st, [], None. rw /on_packet_from_server Hphase Hmsg Hb. by rw /step_ok Hphase.
    + exists st, [], None. rw /on_packet_from_server Hphase Hmsg Hb. by rw /step_ok Hphase.
Qed.
End handler.

(** ** Runs

    The proxy handles the packets one after the other; a run collects what it
    sends and the downloads it hands over. *)

Section runs.
Context `{F : Memmem}.

Fixpoint run_server (st : ServerProxyState) (evs : list (Z * bytes))
  : result (ServerProxyState * packets * list DownloadingWorldState) :=
  match evs with
  | [] => Ok (st, [], [])
  | (now, data) :: evs =>
      '(st, out, spawned) ← on_packet_from_server st now data;
      '(st, out', spawned') ← run_server st evs;
      Ok (st, out ++ out', option_list spawned ++ spawned')
  end.

Context {FS : MemmemSpec F}.

Lemma run_ok st evs :
  proxy_inv st ->
  exists st' out spawned,
    run_server st evs = Ok (st', out, spawned) /\ proxy_inv st' /\
    match spawned with
    | [] => sp_phase st' = Done <-> sp_phase st = Done
    | s :: more => more = [] /\ sp_phase st' = Done /\ sp_phase st <> Done /\
        tb_block_id <$> dw_received_blocks s ≡ₚ z_range (total_blocks (dw_world_info s)) /\
        dw_world_block_count s = block_count (world_size (dw_world_info s))
    end.
Proof.
  elim: evs st => [|[now data] evs IH] st Hinv; first by do 3 eexists.
  destruct (on_packet_ok st now data Hinv) as (st1 & out1 & sp1 & Heq1 & Hinv1 & Hs1).
  destruct (IH st1 Hinv1) as (st2 & out2 & sp2 & Heq2 & Hinv2 & Hs2).
  cbn [run_server]. rw Heq1 bind_ok Heq2 bind_ok. do 3 eexists. split; [done|]. split; [done|].
  rw /step_ok in Hs1. destruct sp1 as [s|]; cbn [option_list app].
  - destruct Hs1 as (Hd & Hnd & Hp & Hwb). destruct sp2 as [|s' more]; [|by destruct Hs2 as (_ & _ & ? & _)].
    split_and!; try done. by apply Hs2.
  - destruct sp2 as [|s' more]; cbn; [tauto|]. destruct Hs2 as (? & ? & Hn & ? & ?).
    split_and!; try done. tauto.
Qed.
End runs.

(** ** Reassembly *)

(** What an honest server transfers: the world padded to whole blocks, then the
    auxiliary data; block [id] is the [id]-th slice of 503 bytes. *)
Definition transfer_layout (world aux : bytes) : bytes :=
  resize0 (block_count (len world) * TRANSFER_BLOCK_SIZE) world ++ aux.
Definition server_block (world aux : bytes) (id : Z) : bytes :=
  ztake TRANSFER_BLOCK_SIZE (zdrop (id * TRANSFER_BLOCK_SIZE) (transfer_layout world aux)).

(** Sizes for which none of the [u32] computations of the download wraps. *)
Definition sizes_ok (w : FactorioWorldMetadata) : Prop :=
  0 <= world_size w /\ 0 <= aux_size w /\
  world_size w + aux_size w + 2 * TRANSFER_BLOCK_SIZE <= U32_MAX.

Lemma block_count_small size :
  0 <= size -> size + TRANSFER_BLOCK_SIZE <= U32_MAX ->
  block_count size = (size + 502) / 503 /\
  size <= block_count size * TRANSFER_BLOCK_SIZE < size + TRANSFER_BLOCK_SIZE.
Proof.
  rw /block_count /TRANSFER_BLOCK_SIZE => H0 H1.
  rw !wrap_small /in_u; [lia..|]. replace (size + 503 - 1) with (size + 502) by lia.
  split; [done|]. pose proof (Z.div_mod (size + 502) 503). pose proof (Z.mod_pos_bound (size + 502) 503). lia.
Qed.

Lemma block_count_range size : 0 <= block_count size <= U32_MAX.
Proof.
  rw /block_count /TRANSFER_BLOCK_SIZE.
  have [H0 H1] := wrap_range 32 (wrap 32 (size + 503) - 1) ltac:(lia).
  set x := wrap 32 (_ - 1) in H0 H1 *. split; [by apply Z.div_pos|].
  apply Z.le_trans with x; [|lia]. apply Z.div_le_upper_bound; lia.
Qed.

Lemma concat_blocks (layout : bytes) n :
  concat ((fun id => ztake TRANSFER_BLOCK_SIZE (zdrop (id * TRANSFER_BLOCK_SIZE) layout)) <$> z_range n) =
  ztake (n * TRANSFER_BLOCK_SIZE) layout.
Proof.
  rw /z_range. destruct (Z.le_gt_cases n 0).
  { replace (Z.to_nat n) with 0%nat by lia. rw /ztake.
    by replace (Z.to_nat (n * TRANSFER_BLOCK_SIZE)) with 0%nat by (rw /TRANSFER_BLOCK_SIZE; lia). }
  replace n with (Z.of_nat (Z.to_nat n)) at 2 by lia. move: (Z.to_nat n) => {H}k. rw -list_fmap_compose.
  elim: k => [|k IH]; first done.
  rw seq_S fmap_app concat_app IH. cbn [fmap list_fmap concat]. rw app_nil_r.
  rw /compose /ztake /zdrop /TRANSFER_BLOCK_SIZE. replace (0 + k)%nat with k by lia.
  replace (Z.to_nat (Z.of_nat (S k) * 503)) with (Z.to_nat (Z.of_nat k * 503) + 503)%nat by lia.
  by rw take_take_drop.
Qed.

Lemma sort_by_block_id_range blocks n :
  tb_block_id <$> blocks ≡ₚ z_range n -> tb_block_id <$> sort_by_block_id blocks = z_range n.
Proof.
  move=> Hp. have Hps : sort_by_block_id blocks ≡ₚ blocks by apply merge_sort_Permutation.
  have Hids : tb_block_id <$> sort_by_block_id blocks ≡ₚ z_range n by rw Hps.
  apply bt_sorted_unique; [|apply z_range_sorted|done].
  have Hnd : NoDup (tb_block_id <$> sort_by_block_id blocks)
    by rw Hids; apply bt_sorted_nodup, z_range_sorted.
  have Hs : StronglySorted block_id_le (sort_by_block_id blocks).
  { apply StronglySorted_merge_sort; [|].
    - move=> a b c. rw /block_id_le. lia.
    - move=> a b. rw /block_id_le. lia. }
  move: Hnd Hs. elim: (sort_by_block_id blocks) => [|b l IH] Hnd Hs; first by constructor.
  cbn in *. inversion Hnd as [|?? Hni Hnd']; inversion Hs as [|?? Hs' Hle]; subst.
  constructor; [by apply IH|]. rw Forall_fmap. apply Forall_forall => c Hc /=.
  have := proj1 (Forall_forall _ _) Hle c Hc. rw /block_id_le => ?.
  have : tb_block_id b <> tb_block_id c by move=> E; apply Hni; rw E; apply list_elem_of_fmap_2.
  lia.
Qed.

Definition honest_block (world aux : bytes) (b : TransferBlockPacket) : Prop :=
  tb_data b = server_block world aux (tb_block_id b).

Lemma total_blocks_small w :
  sizes_ok w -> total_blocks w = block_count (world_size w) + block_count (aux_size w).
Proof.
  rw /sizes_ok /TRANSFER_BLOCK_SIZE => [[H1 [H2 H3]]]. apply wrap_small.
  destruct (block_count_small (world_size w)) as [_ Hw]; [rw /TRANSFER_BLOCK_SIZE; lia..|].
  destruct (block_count_small (aux_size w)) as [_ Ha]; [rw /TRANSFER_BLOCK_SIZE; lia..|].
  rw /TRANSFER_BLOCK_SIZE in Hw Ha. rw /in_u. lia.
Qed.

Lemma assemble_ok s world aux :
  sizes_ok (dw_world_info s) ->
  len world = world_size (dw_world_info s) -> len aux = aux_size (dw_world_info s) ->
  tb_block_id <$> dw_received_blocks s ≡ₚ z_range (total_blocks (dw_world_info s)) ->
  dw_world_block_count s = block_count (world_size (dw_world_info s)) ->
  Forall (honest_block world aux) (dw_received_blocks s) ->
  assemble_world s = Ok (world, aux).
Proof.
  move=> Hok Hw Ha Hp Hwb Hh. have Hids := sort_by_block_id_range _ _ Hp.
  have Hdata : concat (tb_data <$> sort_by_block_id (dw_received_blocks s)) =
               ztake (total_blocks (dw_world_info s) * TRANSFER_BLOCK_SIZE) (transfer_layout world aux).
  { rw -concat_blocks -Hids -list_fmap_compose. f_equal. apply list_fmap_ext => i b Hb.
    have Hin : b ∈ dw_received_blocks s.
    { rw -(merge_sort_Permutation block_id_le (dw_received_blocks s)).
      by eapply list_elem_of_lookup_2. }
    exact (proj1 (Forall_forall _ _) Hh b Hin). }
  have Htot := total_blocks_small _ Hok.
  destruct Hok as (H1 & H2 & H3).
  destruct (block_count_small (world_size (dw_world_info s))) as [_ Hbw]; [rw /TRANSFER_BLOCK_SIZE in H3 *; lia..|].
  destruct (block_count_small (aux_size (dw_world_info s))) as [_ Hba]; [rw /TRANSFER_BLOCK_SIZE in H3 *; lia..|].
  rw /assemble_world Hdata Hwb. rw Htot. rw -Hw -Ha in Hbw Hba H1 H2 H3 *.
  set off := block_count (len world) * TRANSFER_BLOCK_SIZE in Hbw *.
  have Hoff : wrap 32 off = off by apply wrap_small; rw /in_u; rw /TRANSFER_BLOCK_SIZE in Hbw H3; lia.
  have Hoff' : wrap 32 (off + len aux) = off + len aux
    by apply wrap_small; rw /in_u; rw /TRANSFER_BLOCK_SIZE in Hbw H3; lia.
  rw Hoff Hoff'.
  have Hll : len (resize0 off world) = off by apply len_resize0; lia.
  rw (ztake_all (_ * _)); [rw /transfer_layout -/off length_app; lia|].
  rw /transfer_layout -/off length_app Nat2Z.inj_add Hll.
  destruct (Z.ltb_spec (off + len aux) (off + len aux)); first lia.
  destruct (Z.ltb_spec (off + len aux) (len world)); first lia.
  destruct (Z.ltb_spec (off + len aux) off); first lia.
  rw (zdrop_app off); [lia|]. rw (ztake_all (_ - _)); [lia|].
  rw resize0_grow; [lia|]. by rw -app_assoc ztake_app.
Qed.

(** ** A download from an honest server *)

Definition pending (s : DownloadingWorldState) : list Z :=
  dw_inflight_block_requests s ++ dw_block_request_queue s.

(** The [TransferBlock] packets among what the server sends carry the right data. *)
Definition honest_packet (world aux data : bytes) : Prop :=
  forall msg, transfer_block_message data = Some msg ->
    exists b, TransferBlockPacket_decode msg = Ok b /\ honest_block world aux b.

Definition delivers (id : Z) (data : bytes) : Prop :=
  exists msg b, transfer_block_message data = Some msg /\
    TransferBlockPacket_decode msg = Ok b /\ tb_block_id b = id.

Lemma receive_block_pending s now b :
  download_inv s ->
  forall id, id ∈ pending (receive_block s now b) <-> id ∈ pending s /\ id <> tb_block_id b.
Proof.
  move=> Hinv id. destruct (receive_block_ok s now b Hinv) as (_ & _ & Hp & _ & _ & Hw & _ & Hr).
  set s1 := receive_block s now b in Hp Hw Hr *. destruct Hinv as (_ & _ & Hp0 & _).
  rw -/(pending s1) in Hp. rw -/(pending s) in Hr Hp0. rw Hw -Hp0 Hr fmap_app in Hp.
  have Hnd : NoDup ((tb_block_id <$> dw_received_blocks s) ++ pending s)
    by rw Hp0; apply bt_sorted_nodup, z_range_sorted.
  rw -app_assoc in Hp. apply Permutation_app_inv_l in Hp.
  apply NoDup_app in Hnd as (_ & _ & Hnd). rw -Hp in Hnd. rw -Hp.
  case_decide as Hin; cbn in *.
  - apply NoDup_cons in Hnd as [Hni _]. set_solver.
  - rw -Hp in Hin. set_solver.
Qed.

Section honest.
Context `{F : Memmem} {FS : MemmemSpec F}.
Context (world aux : bytes).

Definition complete (w nw : FactorioWorldMetadata) (s : DownloadingWorldState) : Prop :=
  dw_world_info s = w /\ dw_new_world_info s = nw /\ tb_block_id <$> dw_received_blocks s ≡ₚ z_range (total_blocks w) /\
  dw_world_block_count s = block_count (world_size w) /\
  Forall (honest_block world aux) (dw_received_blocks s).

Lemma run_done st evs :
  proxy_inv st -> sp_phase st = Done ->
  exists st' out, run_server st evs = Ok (st', out, []) /\ sp_phase st' = Done.
Proof.
  move=> Hinv Hd. destruct (run_ok st evs Hinv) as (st' & out & spawned & Heq & _ & Hs).
  destruct spawned; [|by destruct Hs as (_ & _ & ? & _)].
  do 2 eexists. split; [done|]. tauto.
Qed.

Lemma honest_run evs st s :
  proxy_inv st -> sp_phase st = DownloadingWorld s -> pending s <> [] ->
  Forall (honest_block world aux) (dw_received_blocks s) ->
  Forall (fun ev => honest_packet world aux (snd ev)) evs ->
  (forall id, id ∈ pending s -> Exists (fun ev => delivers id (snd ev)) evs) ->
  exists st' out s', run_server st evs = Ok (st', out, [s']) /\ sp_phase st' = Done /\
    complete (dw_world_info s) (dw_new_world_info s) s'.
Proof.
  elim: evs st s => [|[now data] evs IH] st s Hinv Hph Hne Hrec Hhon Hdel.
  { destruct (pending s) as [|id l] eqn:E; [done|]. exfalso.
    have H := Hdel id ltac:(by left). by inversion H. }
  apply Forall_cons in Hhon as [Hh Hhon]. cbn in Hh. cbn [run_server].
  have Hdinv : download_inv s by destruct Hinv as [_ Hi]; rw Hph in Hi; apply Hi.
  destruct (transfer_block_message data) as [msg|] eqn:Hmsg.
  - destruct (Hh msg Hmsg) as (b & Hb & Hhb).
    destruct (on_block_ok st s now data msg b Hinv Hph Hmsg Hb) as (st1 & out1 & sp1 & Heq & Hinv1 & _ & Hs).
    destruct (receive_block_ok s now b Hdinv) as (_ & _ & Hp & _ & Hwb & Hw & Hnw & Hr).
    have Hrec1 : Forall (honest_block world aux) (dw_received_blocks (receive_block s now b)).
    { rw Hr. apply Forall_app. split; [done|]. case_decide; by repeat constructor. }
    rw Heq bind_ok. destruct sp1 as [s'|].
    + destruct Hs as (-> & Hd & Hi0 & Hq0).
      destruct (run_done st1 evs Hinv1 Hd) as (st2 & out2 & -> & Hd2). rw bind_ok. cbn.
      do 3 eexists. split; [done|]. split; [done|].
      rw Hi0 Hq0 !app_nil_r Hw in Hp. rw Hw in Hwb. by split_and!.
    + destruct Hs as (s2 & Hph2 & Hw2 & Hnw2 & Hr2 & Hp2 & Hne2).
      destruct (IH st1 s2 Hinv1 Hph2) as (st2 & out2 & s' & -> & Hd & Hc); [..|rw bind_ok; cbn].
      * rw /pending => Hnil. rw Hnil in Hp2. by apply Permutation_nil_l in Hp2.
      * by rw Hr2.
      * done.
      * move=> id. rw /pending Hp2 -/(pending (receive_block s now b)) receive_block_pending //.
        move=> [/Hdel Hex Hneq]. apply Exists_cons in Hex as [(m & b' & Hm & Hb' & Hid)|]; [|done].
        exfalso. cbn in Hm. rw Hmsg in Hm. injection Hm as <-. rw Hb in Hb'. by injection Hb' as <-.
      * do 3 eexists. split; [done|]. rw -Hw2 -Hnw2. by split.
  - destruct (on_other_ok st now data Hinv) as (st1 & ids & d' & Heq & Hinv1 & _ & _ & Hs).
    { by intros. } { by rw Hph. }
    rw Heq bind_ok. rw Hph in Hs. destruct Hs as (s2 & Hph2 & Hw2 & Hnw2 & Hr2 & Hp2).
    destruct (IH st1 s2 Hinv1 Hph2) as (st2 & out2 & s' & -> & Hd & Hc); [..|rw bind_ok; cbn].
    + rw /pending => Hnil. rw Hnil in Hp2. apply Permutation_nil_l in Hp2. by apply Hne.
    + by rw Hr2.
    + done.
    + move=> id. rw /pending Hp2 => Hin. apply Hdel, Exists_cons in Hin as [(m & b' & Hm & _)|]; [|done].
      cbn in Hm. by rw Hmsg in Hm.
    + do 3 eexists. split; [done|]. rw -Hw2 -Hnw2. by split.
Qed.
End honest.

(** ** A concrete substring search *)

Fixpoint naive_find (needle hay : bytes) (pos : Z) (skip : nat) : list Z :=
  match hay with
  | [] => []
  | _ :: hay' =>
      match skip with
      | S skip => naive_find needle hay' (pos + 1) skip
      | O =>
          if decide (take (length needle) hay = needle)
          then pos :: naive_find needle hay' (pos + 1) (pred (length needle))
          else naive_find needle hay' (pos + 1) 0
      end
  end.

Definition naive_memmem : Memmem := fun needle hay => naive_find needle hay 0 0.

Lemma occurs_at_cons needle x hay p :
  0 <= p -> occurs_at needle hay p <-> occurs_at needle (x :: hay) (p + 1).
Proof.
  move=> Hp. rw /occurs_at /ztake /zdrop. replace (Z.to_nat (p + 1)) with (S (Z.to_nat p)) by lia.
  cbn [drop length]. rw Nat2Z.inj_succ. intuition lia.
Qed.

Lemma occurs_at_head needle hay :
  occurs_at needle hay 0 <-> take (length needle) hay = needle.
Proof.
  rw /occurs_at /ztake zdrop_0 Nat2Z.id. split; [by intros (_ & _ & ?)|].
  move=> H. split_and!; [done| |done]. rewrite <- H at 1. rw length_take. lia.
Qed.

Lemma naive_find_sound needle hay pos skip :
  Forall (fun p => pos + Z.of_nat skip <= p /\ occurs_at needle hay (p - pos)) (naive_find needle hay pos skip).
Proof.
  elim: hay pos skip => [|x hay IH] pos skip; first by constructor.
  have Hrec k j : Z.of_nat j <= 1 + Z.of_nat k ->
    Forall (fun p => pos + Z.of_nat j <= p /\ occurs_at needle (x :: hay) (p - pos)) (naive_find needle hay (pos + 1) k).
  { move=> Hk. eapply Forall_impl; [apply (IH (pos + 1) k)|]. cbn beta. move=> p [Hle Hocc].
    split; [lia|]. replace (p - pos) with (p - (pos + 1) + 1) by lia. apply occurs_at_cons; [lia|done]. }
  cbn [naive_find]. destruct skip as [|skip]; last by apply Hrec; lia.
  case_decide as Hd; [|apply Hrec; lia]. constructor; [|apply Hrec; lia].
  split; [lia|]. rw Z.sub_diag. by apply occurs_at_head.
Qed.

Lemma naive_find_sorted needle hay pos skip :
  StronglySorted (fun p q => p + len needle <= q) (naive_find needle hay pos skip).
Proof.
  elim: hay pos skip => [|x hay IH] pos skip; first by constructor.
  cbn [naive_find]. destruct skip as [|skip]; [|apply IH]. case_decide; [|apply IH].
  constructor; [apply IH|]. eapply Forall_impl; [apply naive_find_sound|]. cbn beta. move=> p [Hle _]. lia.
Qed.

Lemma naive_find_complete needle hay pos skip q :
  0 < len needle -> occurs_at needle hay q -> Z.of_nat skip <= q ->
  exists p, p ∈ naive_find needle hay pos skip /\ p - pos <= q < p - pos + len needle.
Proof.
  move=> Hn. elim: hay pos skip q => [|x hay IH] pos skip q Hocc Hq.
  { destruct Hocc as (_ & H & _). cbn in H. lia. }
  have Hrec k : Z.of_nat k + 1 <= q ->
    exists p, p ∈ naive_find needle hay (pos + 1) k /\ p - pos <= q < p - pos + len needle.
  { move=> Hk. destruct (IH (pos + 1) k (q - 1)) as (p & Hp & Hle); [|lia|].
    - apply (occurs_at_cons needle x); [lia|]. by replace (q - 1 + 1) with q by lia.
    - exists p. split; [done|lia]. }
  cbn [naive_find]. destruct skip as [|skip]; last by apply Hrec; lia.
  case_decide as Hd.
  - destruct (Z.lt_ge_cases q (len needle)).
    + exists pos. split; [by left|lia].
    + destruct (Hrec (pred (length needle))) as (p & Hp & Hle); [lia|]. exists p. split; [by right|done].
  - apply Hrec. destruct (Z.eq_dec q 0) as [->|]; [|lia]. by rw occurs_at_head in Hocc.
Qed.

#[global] Instance naive_memmem_spec : MemmemSpec naive_memmem.
Proof.
  split.
  - move=> needle hay. eapply Forall_impl; [apply (naive_find_sound needle hay 0 0)|].
    cbn beta. move=> p [_ H]. by rw Z.sub_0_r in H.
  - move=> needle hay. apply naive_find_sorted.
  - move=> needle hay pos Hn Hocc. destruct (naive_find_complete needle hay 0 0 pos Hn Hocc) as (p & ? & ?).
    { by destruct Hocc. } exists p. split; [done|lia].
Qed.

(** ** Properties *)

Lemma proxy_inv_new opts : proxy_inv (ServerProxyState_new opts).
Proof. by split. Qed.

Lemma announced_map_ready seq count w rest :
  in_u 32 seq -> 0 < count < 255 -> metadata_ok w ->
  announced_world (map_ready_heartbeat seq count w rest) = Some w.
Proof.
  move=> Hs Hc Hw. destruct (map_ready_decode seq count w rest Hs Hc Hw) as (msg & hb & H1 & H2 & H3).
  rw /announced_world H1. cbn [packet_type fragmentation]. rw bool_decide_true //= H2 bind_ok. by rw H3.
Qed.

(** The datagrams of a batch that go to the client. *)
Definition to_client (out : packets) : list bytes :=
  fst <$> filter (fun p => snd p = ToClient) out.

Definition is_download_block (st : ServerProxyState) (data : bytes) : bool :=
  match sp_phase st, transfer_block_message data with
  | DownloadingWorld _, Some _ => true
  | _, _ => false
  end.

Lemma to_client_requests ids out : to_client ((request_packet <$> ids) ++ out) = to_client out.
Proof. rw /to_client. elim: ids => [|id ids IH] //. Qed.

Lemma to_client_cons d out : to_client ((d, ToClient) :: out) = d :: to_client out.
Proof. done. Qed.

Lemma to_client_none out : Forall (fun p => snd p = ToServer) out -> to_client out = [].
Proof. rw /to_client. elim: out => [|[d dir] out IH] // /Forall_cons [/= -> Hs]. by apply IH. Qed.

Section properties.
Context `{F : Memmem} {FS : MemmemSpec F}.

(** C9: whatever packets the server sends and whenever they arrive, the proxy
    never panics (no slice out of range in the filter, no [unwrap] of a used
    channel, no [unreachable!]); it hands over at most one download, exactly
    when it reaches [Done], and that download holds every block id of the world
    and of the auxiliary data exactly once. *)
Theorem server_proxy_safe opts evs :
  exists st out spawned,
    run_server (ServerProxyState_new opts) evs = Ok (st, out, spawned) /\
    (sp_phase st = Done <-> spawned <> []) /\ (length spawned <= 1)%nat /\
    Forall (fun s => tb_block_id <$> dw_received_blocks s ≡ₚ
              z_range (total_blocks (dw_world_info s))) spawned /\
    (forall s, sp_phase st = DownloadingWorld s -> download_inv s).
Proof.
  destruct (run_ok _ evs (proxy_inv_new opts)) as (st & out & spawned & Heq & Hinv & Hs).
  exists st, out, spawned. split; [done|].
  have Hdl s : sp_phase st = DownloadingWorld s -> download_inv s.
  { move=> Hph. destruct Hinv as [_ Hi]. rw Hph in Hi. by destruct Hi. }
  destruct spawned as [|s more].
  - split_and!; try done; [|cbn; lia]. split; [|done]. by move=> /Hs.
  - destruct Hs as (-> & Hd & _ & Hp & _). split_and!; try done. by repeat constructor.
Qed.

(** The state the proxy is in when it starts the download. *)
Lemma download_ok opts now seq count w rest world aux evs :
  in_u 32 seq -> 0 < count < 255 -> metadata_ok w -> sizes_ok w -> 0 < world_size w ->
  len world = world_size w -> len aux = aux_size w ->
  Forall (fun ev => honest_packet world aux (snd ev)) evs ->
  (forall id, 0 <= id < total_blocks w -> Exists (fun ev => delivers id (snd ev)) evs) ->
  exists st out s,
    run_server (ServerProxyState_new opts) ((now, map_ready_heartbeat seq count w rest) :: evs) =
      Ok (st, out, [s]) /\ sp_phase st = Done /\ assemble_world s = Ok (world, aux) /\
    dw_world_info s = w /\ dw_new_world_info s = announced_info opts w.
Proof.
  move=> Hseq Hcount Hmeta Hsizes Hpos Hworld Haux Hhonest Hall.
  destruct (transition_ok (ServerProxyState_new opts) now (map_ready_heartbeat seq count w rest) w)
    as (st1 & d1 & s1 & ids & Htr & _ & Hinv1 & Hph1 & Hw1 & Hnw1 & Hr1 & _); [done|].
  have Hp : pending s1 ≡ₚ z_range (total_blocks w).
  { destruct Hinv1 as [_ Hi]. rw Hph1 in Hi. destruct Hi as (_ & _ & _ & Hp & _).
    by rw Hr1 Hw1 in Hp. }
  destruct (honest_run world aux evs st1 s1 Hinv1 Hph1) as (st2 & out2 & s & Hrun & Hd & Hc).
  - move=> Hnil. rw Hnil in Hp. apply Permutation_length in Hp. cbn in Hp.
    rw length_z_range (total_blocks_small w Hsizes) in Hp.
    destruct (block_count_small (world_size w)) as [_ Hb]; [lia|destruct Hsizes as (_ & _ & ?); rw /TRANSFER_BLOCK_SIZE in H *; lia|].
    have [? _] := block_count_range (aux_size w). rw /TRANSFER_BLOCK_SIZE in Hb. lia.
  - by rw Hr1.
  - done.
  - move=> id. rw Hp elem_of_z_range. apply Hall.
  - cbn [run_server]. rw /on_packet_from_server. cbn [ServerProxyState_new sp_phase].
    rw announced_map_ready // Htr !bind_ok Hrun bind_ok. do 3 eexists. split; [done|]. split; [done|].
    destruct Hc as (Hcw & Hcn & Hcp & Hcb & Hch). rw Hw1 in Hcw Hcp Hcb. rw Hnw1 in Hcn.
    split; [|done]. apply assemble_ok; rw ?Hcw //.
Qed.

(** C8: the download completes and is exact.  After a heartbeat that announces
    the world, if the server's blocks carry the right slices of the padded
    world and the auxiliary data and every block arrives at least once, in
    whatever order, with whatever duplicates and other packets in between, then
    the proxy hands over exactly one download, and reassembling it gives the
    world file and the auxiliary data byte for byte. *)
Theorem download_delivers_world opts now seq count w rest world aux evs
  (Hseq : in_u 32 seq) (Hcount : 0 < count < 255) (Hmeta : metadata_ok w)
  (Hsizes : sizes_ok w) (Hpos : 0 < world_size w)
  (Hworld : len world = world_size w) (Haux : len aux = aux_size w)
  (Hhonest : Forall (fun ev => honest_packet world aux (snd ev)) evs)
  (Hall : forall id, 0 <= id < total_blocks w -> Exists (fun ev => delivers id (snd ev)) evs) :
  exists st out s,
    run_server (ServerProxyState_new opts) ((now, map_ready_heartbeat seq count w rest) :: evs) =
      Ok (st, out, [s]) /\ sp_phase st = Done /\ assemble_world s = Ok (world, aux).
Proof.
  destruct (download_ok opts now seq count w rest world aux evs) as (st & out & s & ? & ? & ? & _); try done.
  by exists st, out, s.
Qed.

(** C31: the proxy is transparent.  In any state it can reach, a [TransferBlock]
    packet that arrives during the download is swallowed, and every other packet
    is passed on to the client exactly once and with its length unchanged, and
    byte for byte until a world has been announced; the packets the proxy adds
    all go to the server. *)
Theorem packets_forwarded_once opts evs st out spawned now data
  (Hreach : run_server (ServerProxyState_new opts) evs = Ok (st, out, spawned)) :
  exists st' out' spawned', on_packet_from_server st now data = Ok (st', out', spawned') /\
    if is_download_block st data then to_client out' = []
    else exists data', to_client out' = [data'] /\ len data' = len data /\
           (sp_phase st = WaitingForWorld -> announced_world data = None -> data' = data).
Proof.
  destruct (run_ok _ evs (proxy_inv_new opts)) as (st0 & out0 & sp0 & Heq & Hinv & _).
  rw Hreach in Heq. injection Heq as <- _ _.
  destruct (is_download_block st data) eqn:Hb; rw /is_download_block in Hb.
  - destruct (sp_phase st) as [|s|] eqn:Hph; try done.
    destruct (transfer_block_message data) as [msg|] eqn:Hmsg; [|done].
    destruct (TransferBlockPacket_decode msg) as [b|e|m] eqn:Hd.
    + destruct (on_block_ok st s now data msg b Hinv Hph Hmsg Hd) as (st' & out' & sp' & -> & _ & Hs & _).
      do 3 eexists. split; [done|]. by apply to_client_none.
    + exists st, [], None. by rw /on_packet_from_server Hph Hmsg Hd.
    + exists st, [], None. by rw /on_packet_from_server Hph Hmsg Hd.
  - have [[Hw [w Haw]]|Hn] : (sp_phase st = WaitingForWorld /\ exists w, announced_world data = Some w) \/
      (sp_phase st = WaitingForWorld -> announced_world data = None).
    { destruct (announced_world data) as [w|]; [|by right]. destruct (sp_phase st); [left; eauto|by right..]. }
    + have Hcs : sp_comp_stream st = Some tt by destruct Hinv as [_ Hi]; rw Hw in Hi; apply Hi.
      destruct (transition_ok st now data w Hcs) as (st' & d' & s & ids & Htr & Hl & _).
      rw /on_packet_from_server Hw Haw Htr bind_ok. do 3 eexists. split; [done|]. exists d'.
      split_and!; [|done|done]. have H := to_client_requests ids [].
      rw app_nil_r in H. by rw to_client_cons H.
    + destruct (on_other_ok st now data Hinv) as (st' & ids & d' & -> & _ & Hl & Hsame & _).
      * move=> s Hph. rw Hph in Hb. by destruct (transfer_block_message data).
      * done.
      * do 3 eexists. split; [done|]. exists d'. rw to_client_requests. split_and!; try done.
        move=> Hw _. apply Hsame. destruct Hinv as [_ Hi]. rw Hw in Hi. by apply Hi.
Qed.

(** The filter overwrites every match of the announced metadata with the
    replacement, leaves every other byte of the packet as it was, and keeps the
    packet's length; it never slices out of range. *)
Lemma filter_packet_rewrites f now data
  (Hlen : len (fp_needle f) = len (fp_replace_with f)) :
  exists data' f', filter_packet f now data = Ok (data', f') /\ len data' = len data /\
    (forall p i, p ∈ find_iter (fp_needle f) data -> 0 <= i < len (fp_needle f) ->
       data' !! Z.to_nat (p + i) = fp_replace_with f !! Z.to_nat i) /\
    (forall i, 0 <= i ->
       (forall p, p ∈ find_iter (fp_needle f) data -> ~ p <= i < p + len (fp_needle f)) ->
       data' !! Z.to_nat i = data !! Z.to_nat i).
Proof.
  destruct (filter_packet_ok f now data Hlen) as (d' & f' & Heq & Hl & Hb & _).
  exists d', f'. split_and!; [done|done| |].
  - move=> p i Hp Hi.
    have H0 : 0 <= p by destruct (proj1 (Forall_forall _ _) (find_iter_sound (fp_needle f) data) p Hp).
    rw Hb; [lia|]. by rw (filtered_byte_match _ _ _ _ p i (find_iter_disjoint _ _)).
  - move=> i Hi Hno. rw Hb // /filtered_byte.
    have -> // : filter (fun p => p <= i < p + len (fp_needle f)) (find_iter (fp_needle f) data) = [].
    apply elem_of_nil_inv => q /list_elem_of_filter [Hq Hin]. by apply (Hno q).
Qed.

(** C36: lost requests are retried.  In any state the proxy can reach during the
    download, when the last useful block is more than 100 ms old, the next packet
    that is not a [TransferBlock] makes the proxy ask again for every block in
    flight and restarts the clock. *)
Theorem stalled_requests_retried opts evs st out spawned s now data
  (Hreach : run_server (ServerProxyState_new opts) evs = Ok (st, out, spawned))
  (Hph : sp_phase st = DownloadingWorld s) (Hstall : 100 < now - dw_last_block_time s)
  (Hdata : transfer_block_message data = None) :
  exists st' out' s', on_packet_from_server st now data = Ok (st', out', None) /\
    sp_phase st' = DownloadingWorld s' /\ dw_last_block_time s' = now /\
    Forall (fun id => request_packet id ∈ out') (dw_inflight_block_requests s).
Proof.
  destruct (run_ok _ evs (proxy_inv_new opts)) as (st0 & out0 & sp0 & Heq & [Hf Hinv] & _).
  rw Hreach in Heq. injection Heq as <- _ _. rw Hph in Hinv. destruct Hinv as [Hcs Hinv].
  rw /on_packet_from_server Hph Hdata.
  destruct (retry_requests_ok s now Hinv) as (s2 & ids & -> & Hinv2 & _ & _ & _ & _ & Hretry).
  destruct (Hretry Hstall) as [Hsub Hlast]. rw bind_ok.
  destruct (forward_filtered_ok (set_phase st (DownloadingWorld s2)) now data Hf)
    as (st' & d' & -> & _ & _ & _ & Hp & _).
  rw bind_ok. eexists st', _, s2. split; [done|]. split; [done|]. split; [done|].
  apply Forall_forall => id Hid. apply elem_of_app. left. by apply list_elem_of_fmap_2, Hsub.
Qed.
End properties.

(** ** Witnesses *)

(** The datagram of a block. *)
Definition block_packet (world aux : bytes) (id : Z) : bytes :=
  put_u8 13 ++ put_u32_le id ++ server_block world aux id.

Lemma block_packet_message world aux id :
  transfer_block_message (block_packet world aux id) = Some (put_u32_le id ++ server_block world aux id).
Proof.
  rw /transfer_block_message /block_packet.
  by rw (header_decode_unfragmented TransferBlock (put_u32_le id ++ server_block world aux id) I).
Qed.

Lemma block_packet_decode world aux id :
  in_u 32 id ->
  TransferBlockPacket_decode (put_u32_le id ++ server_block world aux id) =
    Ok (mkTransferBlock id (server_block world aux id)).
Proof. move=> Hid. by rw /TransferBlockPacket_decode get_put_u32_le // bind_ok. Qed.

Lemma block_packet_honest world aux id : in_u 32 id -> honest_packet world aux (block_packet world aux id).
Proof.
  move=> Hid msg. rw block_packet_message => [[<-]]. eexists. split; [by apply block_packet_decode|done].
Qed.

Lemma block_packet_delivers world aux id : in_u 32 id -> delivers id (block_packet world aux id).
Proof.
  move=> Hid. do 2 eexists. split; [apply block_packet_message|]. split; [by apply block_packet_decode|done].
Qed.

Definition sample_opts : WorldOptions := mkWorldOptions (u32_as_f64 2).
Definition sample_world : bytes := z2b <$> z_range 1000.
Definition sample_aux : bytes := z2b <$> z_range 600.
(** Blocks out of order, one of them twice, and a stray datagram. *)
Definition sample_events : list (Z * bytes) :=
  [(5, block_packet sample_world sample_aux 2); (7, [Byte.x01; Byte.x02]);
   (300, block_packet sample_world sample_aux 0); (310, block_packet sample_world sample_aux 2);
   (320, block_packet sample_world sample_aux 3); (900, block_packet sample_world sample_aux 1)].
Definition sample_start : Z * bytes := (0, map_ready_heartbeat 9 1 sample_metadata []).

Lemma sample_events_honest :
  Forall (fun ev => honest_packet sample_world sample_aux (snd ev)) sample_events.
Proof.
  repeat (apply Forall_cons; split); try (by apply block_packet_honest); [|done]. by move=> msg.
Qed.

Lemma sample_events_deliver id :
  0 <= id < total_blocks sample_metadata -> Exists (fun ev => delivers id (snd ev)) sample_events.
Proof.
  have -> : total_blocks sample_metadata = 4 by vm_compute. move=> Hid.
  have [->|[->|[->|->]]] : id = 0 \/ id = 1 \/ id = 2 \/ id = 3 by lia.
  - do 2 apply Exists_cons_tl. apply Exists_cons_hd. by apply block_packet_delivers.
  - do 5 apply Exists_cons_tl. apply Exists_cons_hd. by apply block_packet_delivers.
  - apply Exists_cons_hd. by apply block_packet_delivers.
  - do 4 apply Exists_cons_tl. apply Exists_cons_hd. by apply block_packet_delivers.
Qed.

Lemma server_proxy_safe_witness :
  exists st out spawned,
    run_server (F := naive_memmem) (ServerProxyState_new sample_opts) (sample_start :: sample_events) =
      Ok (st, out, spawned) /\
    (sp_phase st = Done <-> spawned <> []) /\ (length spawned <= 1)%nat /\
    Forall (fun s => tb_block_id <$> dw_received_blocks s ≡ₚ
              z_range (total_blocks (dw_world_info s))) spawned /\
    (forall s, sp_phase st = DownloadingWorld s -> download_inv s).
Proof. exact (server_proxy_safe (FS := naive_memmem_spec) sample_opts (sample_start :: sample_events)). Defined.

Lemma download_delivers_world_witness :
  exists st out s,
    run_server (F := naive_memmem) (ServerProxyState_new sample_opts) (sample_start :: sample_events) =
      Ok (st, out, [s]) /\ sp_phase st = Done /\ assemble_world s = Ok (sample_world, sample_aux).
Proof.
  apply (download_delivers_world (FS := naive_memmem_spec) sample_opts 0 9 1 sample_metadata []);
    [by vm_compute|lia|by vm_compute|by vm_compute|done|by vm_compute|by vm_compute| |].
  - exact sample_events_honest.
  - exact sample_events_deliver.
Defined.

Lemma packets_forwarded_once_witness :
  exists st out spawned st' out' spawned' data',
    run_server (F := naive_memmem) (ServerProxyState_new sample_opts) [sample_start] = Ok (st, out, spawned) /\
    on_packet_from_server (H := naive_memmem) st 20 [Byte.x01] = Ok (st', out', spawned') /\
    to_client out' = [data'] /\ len data' = 1.
Proof.
  destruct (run_server (F := naive_memmem) (ServerProxyState_new sample_opts) [sample_start])
    as [[[st out] spawned]|e|m] eqn:Hrun; [|by vm_compute in Hrun..].
  destruct (packets_forwarded_once (FS := naive_memmem_spec) sample_opts [sample_start] st out spawned 20 [Byte.x01] Hrun)
    as (st' & out' & spawned' & Heq & Hout).
  have Hb : is_download_block st [Byte.x01] = false by rw /is_download_block; destruct (sp_phase st).
  rw Hb in Hout. destruct Hout as (data' & Hd & Hl & _).
  exists st, out, spawned, st', out', spawned', data'. by split_and!.
Defined.

Lemma stalled_requests_retried_witness :
  exists st out spawned s st' out' s',
    run_server (F := naive_memmem) (ServerProxyState_new sample_opts) [sample_start] = Ok (st, out, spawned) /\
    sp_phase st = DownloadingWorld s /\ dw_inflight_block_requests s = [0; 1; 2; 3] /\
    on_packet_from_server (H := naive_memmem) st 101 [Byte.x01] = Ok (st', out', None) /\
    sp_phase st' = DownloadingWorld s' /\ dw_last_block_time s' = 101 /\
    Forall (fun id => request_packet id ∈ out') (dw_inflight_block_requests s).
Proof.
  destruct (run_server (F := naive_memmem) (ServerProxyState_new sample_opts) [sample_start])
    as [[[st out] spawned]|e|m] eqn:Hrun; [|by vm_compute in Hrun..].
  have Hrun' := Hrun. vm_compute in Hrun'. injection Hrun' as Hst _ _.
  have [s [Hph [Hi Ht]]] : exists s, sp_phase st = DownloadingWorld s /\
    dw_inflight_block_requests s = [0; 1; 2; 3] /\ dw_last_block_time s = 0 by rw -Hst; eexists.
  destruct (stalled_requests_retried (FS := naive_memmem_spec) sample_opts [sample_start] st out spawned s 101
    [Byte.x01] Hrun Hph) as (st' & out' & s' & H1 & H2 & H3 & H4); [by rw Ht|done|].
  exists st, out, spawned, s, st', out', s'. by split_and!.
Defined.
