(* ===== verification/FactorioClientProxy.v ===== *)
(** * The client side of the Factorio proxy

    Models [ClientProxyState] of factorio-cacher/src/proxy/client_proxy.rs: the
    reconstructed world arrives in pieces while the game client asks for its
    503-byte blocks; a request that cannot be served yet waits in
    [pending_requests].  A handler takes the time [now] (in milliseconds) at which
    it runs.  Every packet that is not a block request goes to the server. *)

From Stdlib Require Import ssreflect Sorting.Sorted.
From stdpp Require Import base numbers list sets strings.
From S2P Require Import Prelude Buf BTreeSet FactorioProtocol FactorioServerProxy.

#[local] Open Scope general_if_scope.

(** ** State and operations *)

Definition WORLD_DATA_TIMEOUT : Z := 60000.

Record ClientProxyState := mkClientProxy {
  cp_world_data : bytes;
  cp_last_block_request : Z;
  cp_pending_requests : BTreeSet;
  cp_pending_requests_swap : BTreeSet;
  cp_world_data_done : bool;
}.

Definition ClientProxyState_new (now : Z) : ClientProxyState := mkClientProxy [] now [] [] false.

Definition try_fulfill_block_request (st : ClientProxyState) (requested_block_id : Z)
  : option TransferBlockPacket :=
  let offset := requested_block_id * TRANSFER_BLOCK_SIZE in
  if offset + TRANSFER_BLOCK_SIZE <=? len (cp_world_data st) then
    Some (mkTransferBlock requested_block_id
            (ztake TRANSFER_BLOCK_SIZE (zdrop offset (cp_world_data st))))
  else None.

(** The block a datagram asks for, if it is a well-formed request. *)
Definition requested_block (packet_data : bytes) : option Z :=
  match FactorioPacketHeader_decode packet_data with
  | Ok (header, msg_data) =>
      if bool_decide (packet_type header = TransferBlockRequest) then
        match TransferBlockRequestPacket_decode msg_data with
        | Ok request => Some (tbr_block_id request)
        | _ => None
        end
      else None
  | _ => None
  end.

Definition on_packet_from_client (st : ClientProxyState) (now : Z) (packet_data : bytes)
  : result (ClientProxyState * packets) :=
  match requested_block packet_data with
  | Some block_id =>
      match try_fulfill_block_request st block_id with
      | Some response =>
          p ← encode_full_packet response;
          Ok (mkClientProxy (cp_world_data st) now (cp_pending_requests st)
                (cp_pending_requests_swap st) (cp_world_data_done st), [(p, ToClient)])
      | None =>
          Ok (mkClientProxy (cp_world_data st) now (bt_insert block_id (cp_pending_requests st))
                (cp_pending_requests_swap st) (cp_world_data_done st), [])
      end
  | None =>
      let world_data :=
        if (0 <? len (cp_world_data st)) && cp_world_data_done st &&
           (WORLD_DATA_TIMEOUT <? now - cp_last_block_request st)
        then [] else cp_world_data st in
      Ok (mkClientProxy world_data (cp_last_block_request st) (cp_pending_requests st)
            (cp_pending_requests_swap st) (cp_world_data_done st), [(packet_data, ToServer)])
  end.

(** The loop of [on_new_world_data] over the pending requests. *)
Fixpoint fulfill_pending (st : ClientProxyState) (pending swap : BTreeSet)
  : result (BTreeSet * packets) :=
  match pending with
  | [] => Ok (swap, [])
  | requested_block_id :: pending =>
      match try_fulfill_block_request st requested_block_id with
      | Some response =>
          p ← encode_full_packet response;
          '(swap, out) ← fulfill_pending st pending swap;
          Ok (swap, (p, ToClient) :: out)
      | None => fulfill_pending st pending (bt_insert requested_block_id swap)
      end
  end.

Definition on_new_world_data (st : ClientProxyState) (now : Z) (new_data : option bytes)
  : result (ClientProxyState * packets) :=
  match new_data with
  | None =>
      Ok (mkClientProxy (cp_world_data st) now (cp_pending_requests st)
            (cp_pending_requests_swap st) true, [])
  | Some new_data =>
      let st := mkClientProxy (cp_world_data st ++ new_data) (cp_last_block_request st)
        (cp_pending_requests st) (cp_pending_requests_swap st) (cp_world_data_done st) in
      '(swap, out) ← fulfill_pending st (cp_pending_requests st) (cp_pending_requests_swap st);
      (* [pending_requests.clear()], then [mem::swap] *)
      Ok (mkClientProxy (cp_world_data st) now swap [] (cp_world_data_done st), out)
  end.

(** ** Runs

    What [proxy_client] feeds to the state: datagrams of the game client, and
    what the world channel yields ([None] when it is closed, after which it is
    not polled again). *)

Inductive ClientEvent :=
| FromClient (packet_data : bytes)
| NewWorldData (new_data : option bytes).

Fixpoint run_client (st : ClientProxyState) (evs : list (Z * ClientEvent))
  : result (ClientProxyState * packets) :=
  match evs with
  | [] => Ok (st, [])
  | (now, ev) :: evs =>
      '(st, out) ← match ev with
                   | FromClient data => on_packet_from_client st now data
                   | NewWorldData d => on_new_world_data st now d
                   end;
      '(st, out') ← run_client st evs;
      Ok (st, out ++ out')
  end.

(** No world data after the end of the channel. *)
Fixpoint channel_ok (closed : bool) (evs : list (Z * ClientEvent)) : bool :=
  match evs with
  | [] => true
  | (_, NewWorldData d) :: evs => negb closed && channel_ok (bool_decide (d = None)) evs
  | (_, FromClient _) :: evs => channel_ok closed evs
  end.

Definition world_stream (evs : list (Z * ClientEvent)) : bytes :=
  concat ((fun ev => match snd ev with NewWorldData (Some d) => d | _ => [] end) <$> evs).

(** Block [id] of a world stream, and the datagram that carries it. *)
Definition stream_block (stream : bytes) (id : Z) : bytes :=
  ztake TRANSFER_BLOCK_SIZE (zdrop (id * TRANSFER_BLOCK_SIZE) stream).
Definition block_complete (stream : bytes) (id : Z) : Prop :=
  0 <= id /\ id * TRANSFER_BLOCK_SIZE + TRANSFER_BLOCK_SIZE <= len stream.
Definition block_response (stream : bytes) (id : Z) : bytes * PacketDirection :=
  (put_u8 13 ++ put_u32_le id ++ stream_block stream id, ToClient).

(** ** The invariant *)

(** The world data received so far, or nothing once it was cleaned up; no
    pending request could be served. *)
Definition client_inv (stream : bytes) (st : ClientProxyState) : Prop :=
  bt_sorted (cp_pending_requests st) /\ cp_pending_requests_swap st = [] /\
  Forall (fun id => 0 <= id) (cp_pending_requests st) /\
  (cp_world_data_done st = false -> cp_world_data st = stream) /\
  (cp_world_data st = stream \/ cp_world_data st = []) /\
  Forall (fun id => ~ block_complete (cp_world_data st) id) (cp_pending_requests st).

Lemma stream_block_prefix stream more id :
  block_complete stream id -> stream_block (stream ++ more) id = stream_block stream id.
Proof.
  rw /block_complete /stream_block /TRANSFER_BLOCK_SIZE => [[H0 H1]].
  rw zdrop_app_le; [lia|]. rw ztake_app_le //. len_lia.
Qed.

Lemma block_complete_prefix stream more id :
  block_complete stream id -> block_complete (stream ++ more) id.
Proof. rw /block_complete. len_lia. Qed.

Lemma block_response_prefix stream more id :
  block_complete stream id -> block_response (stream ++ more) id = block_response stream id.
Proof. move=> H. by rw /block_response stream_block_prefix. Qed.

Lemma try_fulfill_spec st id :
  0 <= id ->
  (block_complete (cp_world_data st) id /\
   try_fulfill_block_request st id = Some (mkTransferBlock id (stream_block (cp_world_data st) id))) \/
  (~ block_complete (cp_world_data st) id /\ try_fulfill_block_request st id = None).
Proof.
  move=> Hid. rw /try_fulfill_block_request /block_complete. case: Z.leb_spec => ?; [left|right].
  - by split_and!.
  - split; [lia|done].
Qed.

Lemma fulfill_pending_ok st pending swap :
  Forall (fun id => 0 <= id) pending -> bt_sorted swap ->
  exists ids swap',
    fulfill_pending st pending swap = Ok (swap', block_response (cp_world_data st) <$> ids) /\
    bt_sorted swap' /\
    (forall id, id ∈ ids <-> id ∈ pending /\ block_complete (cp_world_data st) id) /\
    (forall id, id ∈ swap' <-> id ∈ swap \/ id ∈ pending /\ ~ block_complete (cp_world_data st) id).
Proof.
  elim: pending swap => [|id pending IH] swap Hpos Hs; cbn [fulfill_pending].
  { exists [], swap. split_and!; try done; set_solver. }
  apply Forall_cons in Hpos as [Hid Hpos].
  destruct (try_fulfill_spec st id Hid) as [[Hc ->]|[Hc ->]].
  - destruct (IH swap Hpos Hs) as (ids & swap' & Heq & Hs' & Hids & Hsw).
    exists (id :: ids), swap'. rw encode_full_block bind_ok Heq bind_ok. split_and!; try done.
    + move=> x. rw !elem_of_cons Hids. naive_solver.
    + move=> x. rw Hsw elem_of_cons. naive_solver.
  - destruct (IH (bt_insert id swap) Hpos) as (ids & swap' & Heq & Hs' & Hids & Hsw).
    { by apply bt_insert_sorted. }
    exists ids, swap'. split_and!; try done.
    + move=> x. rw elem_of_cons Hids. naive_solver.
    + move=> x. rw Hsw elem_of_bt_insert elem_of_cons. naive_solver.
Qed.

Lemma requested_block_pos data id : requested_block data = Some id -> in_u 32 id.
Proof.
  rw /requested_block. destruct (FactorioPacketHeader_decode data) as [[h msg]| |]; try done.
  case_bool_decide; [|done]. rw /TransferBlockRequestPacket_decode.
  have := reads_u32_le msg. destruct (try_get_u32_le msg) as [[x rest]| |]; cbn; try done.
  by move=> [Hx _] [<-].
Qed.

(** ** One event *)

Lemma on_client_packet_ok stream st now data :
  client_inv stream st ->
  exists st' out, on_packet_from_client st now data = Ok (st', out) /\ client_inv stream st' /\
    cp_world_data_done st' = cp_world_data_done st /\
    (forall id, id ∈ cp_pending_requests st -> id ∈ cp_pending_requests st') /\
    match requested_block data with
    | None => out = [(data, ToServer)]
    | Some id =>
        (block_complete stream id /\ out = [block_response stream id]) \/
        (out = [] /\ id ∈ cp_pending_requests st')
    end.
Proof.
  intros (Hs & Hsw & Hpos & Hopen & Hwd & Hpend). rw /on_packet_from_client.
  destruct (requested_block data) as [id|] eqn:Hreq.
  - destruct (requested_block_pos data id Hreq) as [Hid _].
    destruct (try_fulfill_spec st id Hid) as [[Hc ->]|[Hc ->]].
    + rw encode_full_block bind_ok. do 2 eexists. split; [done|]. split_and!; try done. left.
      destruct Hwd as [<-|Hnil]; [done|]. destruct Hc as [_ Hc]. rw Hnil /TRANSFER_BLOCK_SIZE /= in Hc. lia.
    + do 2 eexists. split; [done|]. cbn. have Hin x := elem_of_bt_insert id x (cp_pending_requests st).
      split_and!; try done; [split_and!; try done| |right; split; [done|set_solver]].
      * by apply bt_insert_sorted.
      * apply Forall_forall => x /Hin [->|Hx]; [done|]. exact (proj1 (Forall_forall _ _) Hpos x Hx).
      * apply Forall_forall => x /Hin [->|Hx]; [done|]. exact (proj1 (Forall_forall _ _) Hpend x Hx).
      * set_solver.
  - do 2 eexists. split; [done|]. split_and!; try done.
    destruct (_ && _) eqn:Hcl; last by split_and!.
    apply andb_prop in Hcl as [Hcl _]. apply andb_prop in Hcl as [_ Hd].
    split_and!; try done; cbn; [by rw Hd|by right|].
    apply Forall_forall => x Hx [Hx0 Hc]. cbn in Hc. rw /TRANSFER_BLOCK_SIZE in Hc. lia.
Qed.

Lemma on_world_data_ok stream st now d :
  client_inv stream st -> cp_world_data_done st = false ->
  exists st' ids, on_new_world_data st now (Some d) = Ok (st', block_response (stream ++ d) <$> ids) /\
    client_inv (stream ++ d) st' /\ cp_world_data_done st' = false /\
    Forall (block_complete (stream ++ d)) ids /\
    (forall id, id ∈ cp_pending_requests st -> id ∈ ids \/ id ∈ cp_pending_requests st').
Proof.
  intros (Hs & Hsw & Hpos & Hopen & Hwd & Hpend) Hd. rw /on_new_world_data. rw Hsw (Hopen Hd).
  set st1 := mkClientProxy (stream ++ d) _ _ _ _.
  destruct (fulfill_pending_ok st1 (cp_pending_requests st1) []) as (ids & swap & Heq & Hss & Hids & Hin).
  { done. } { constructor. }
  rw Heq bind_ok. cbn in Hids, Hin. exists (mkClientProxy (stream ++ d) now swap [] (cp_world_data_done st)), ids.
  split; [done|]. split; [|split_and!; try done].
  - split_and!; try done; cbn; [|by left|].
    + apply Forall_forall => x /Hin [Hx|[Hx _]]; [by inversion Hx|].
      exact (proj1 (Forall_forall _ _) Hpos x Hx).
    + apply Forall_forall => x /Hin [Hx|[_ Hx]]; [by inversion Hx|done].
  - apply Forall_forall => x. by move=> /Hids [_ ?].
  - move=> id Hid. have Hi0 : 0 <= id := proj1 (Forall_forall _ _) Hpos id Hid.
    destruct (try_fulfill_spec st1 id Hi0) as [[Hc _]|[Hc _]].
    + left. by apply Hids.
    + right. apply Hin. by right.
Qed.

(** ** Runs *)

Definition closes (ev : Z * ClientEvent) : bool :=
  match snd ev with NewWorldData None => true | _ => false end.

Definition good_response (stream : bytes) (p : bytes * PacketDirection) : Prop :=
  snd p = ToClient -> exists id, block_complete stream id /\ p = block_response stream id.

Lemma good_response_prefix stream more p :
  good_response stream p -> good_response (stream ++ more) p.
Proof.
  move=> H Hp. destruct (H Hp) as (id & Hc & ->). exists id.
  rw block_response_prefix //. split; [by apply block_complete_prefix|done].
Qed.

Lemma block_complete_nil id : ~ block_complete [] id.
Proof. rw /block_complete /TRANSFER_BLOCK_SIZE => [[? H]]. cbn in H. lia. Qed.

(** A request waiting while the channel is open is not yet in the stream. *)
Lemma pending_incomplete stream st id :
  client_inv stream st -> cp_world_data_done st = false ->
  id ∈ cp_pending_requests st -> ~ block_complete stream id.
Proof.
  intros (_ & _ & _ & Hopen & _ & Hp) Hd Hid. rw -(Hopen Hd). exact (proj1 (Forall_forall _ _) Hp id Hid).
Qed.

Lemma closed_stream evs : channel_ok true evs = true -> world_stream evs = [].
Proof. by elim: evs => [|[now [data|d]] evs IH]. Qed.

Lemma run_client_ok evs stream st :
  client_inv stream st -> channel_ok (cp_world_data_done st) evs = true ->
  exists st' out, run_client st evs = Ok (st', out) /\
    client_inv (stream ++ world_stream evs) st' /\
    cp_world_data_done st' = cp_world_data_done st || existsb closes evs /\
    Forall (good_response (stream ++ world_stream evs)) out /\
    (forall id, cp_world_data_done st = false -> id ∈ cp_pending_requests st ->
       block_complete (stream ++ world_stream evs) id ->
       block_response (stream ++ world_stream evs) id ∈ out).
Proof.
  elim: evs stream st => [|[now ev] evs IH] stream st Hinv Hch.
  { exists st, []. rw /world_stream /= app_nil_r orb_false_r. split_and!; try done.
    move=> id Hd Hid Hc. by destruct (pending_incomplete stream st id Hinv Hd Hid). }
  cbn [run_client]. destruct ev as [data|[d|]].
  - destruct (on_client_packet_ok stream st now data Hinv) as (st1 & out1 & -> & Hinv1 & Hd1 & Hp1 & Hout).
    rw -Hd1 in Hch. destruct (IH stream st1 Hinv1 Hch) as (st2 & out2 & Heq2 & Hinv2 & Hd2 & Hg2 & Hr2).
    rw bind_ok Heq2 bind_ok. do 2 eexists. split; [done|]. split; [done|].
    split; [by rw Hd2 Hd1|]. split.
    + apply Forall_app. split; [|done]. destruct (requested_block data) as [id|].
      * destruct Hout as [[Hc ->]|[-> _]]; [|done]. apply Forall_singleton, good_response_prefix.
        move=> _. by exists id.
      * rw Hout. by apply Forall_singleton.
    + move=> id Hd Hid Hc. apply elem_of_app. right. apply Hr2; [by rw Hd1|auto|done].
  - cbn in Hch. apply andb_prop in Hch as [Hd Hch]. apply negb_true_iff in Hd.
    destruct (on_world_data_ok stream st now d Hinv Hd) as (st1 & ids & -> & Hinv1 & Hd1 & Hids & Hp1).
    have {}Hch : channel_ok (cp_world_data_done st1) evs = true by rw Hd1.
    destruct (IH (stream ++ d) st1 Hinv1 Hch) as (st2 & out2 & Heq2 & Hinv2 & Hd2 & Hg2 & Hr2).
    have Hst : (stream ++ d) ++ world_stream evs = stream ++ world_stream ((now, NewWorldData (Some d)) :: evs)
      by rw -app_assoc.
    rw Hst in Hinv2 Hg2 Hr2. rw bind_ok Heq2 bind_ok. do 2 eexists. split; [done|]. split; [done|].
    split; [by rw Hd2 Hd1 Hd|]. split.
    + apply Forall_app. split; [|done]. rw -Hst. apply Forall_fmap. eapply Forall_impl; [exact Hids|].
      move=> id Hc. apply good_response_prefix => _. by exists id.
    + move=> id _ Hid Hc. apply elem_of_app. destruct (Hp1 id Hid) as [Hi|Hi].
      * left. rw -Hst block_response_prefix; [exact (proj1 (Forall_forall _ _) Hids id Hi)|].
        by apply list_elem_of_fmap_2.
      * right. by apply Hr2.
  - cbn in Hch. apply andb_prop in Hch as [Hd Hch]. apply negb_true_iff in Hd.
    cbn [on_new_world_data]. rw bind_ok.
    set st1 := mkClientProxy _ _ _ _ true.
    destruct Hinv as (Hs & Hsw & Hpos & Hopen & Hwd & Hpend).
    have Hinv1 : client_inv stream st1 by split_and!.
    destruct (IH stream st1 Hinv1 Hch) as (st2 & out2 & Heq2 & Hinv2 & Hd2 & Hg2 & _).
    rw Heq2 bind_ok. do 2 eexists. split; [done|]. split; [done|]. split; [by rw Hd2 orb_true_r|].
    split; [done|]. move=> id _ Hid. rw /world_stream. cbn [fmap list_fmap snd concat app].
    rw -/(world_stream evs) (closed_stream evs Hch) app_nil_r => Hc.
    exfalso. apply (proj1 (Forall_forall _ _) Hpend id Hid). by rw (Hopen Hd).
Qed.

Lemma run_client_app evs evs' st :
  run_client st (evs ++ evs') =
    ('(st, out) ← run_client st evs; '(st, out') ← run_client st evs'; Ok (st, out ++ out')).
Proof.
  elim: evs st => [|[now ev] evs IH] st; cbn [app run_client].
  { rw bind_ok. by destruct (run_client st evs') as [[? ?]| |]. }
  destruct (match ev with FromClient data => on_packet_from_client st now data
            | NewWorldData d => on_new_world_data st now d end) as [[st1 out1]| |]; try done.
  rw !bind_ok IH. destruct (run_client st1 evs) as [[st2 out2]| |]; try done. rw !bind_ok.
  destruct (run_client st2 evs') as [[st3 out3]| |]; try done. rw !bind_ok. by rw app_assoc.
Qed.

Lemma channel_ok_app closed evs evs' :
  channel_ok closed (evs ++ evs') = true ->
  channel_ok closed evs = true /\ channel_ok (closed || existsb closes evs) evs' = true.
Proof.
  elim: evs closed => [|[now [data|d]] evs IH] closed /=; first by rw orb_false_r.
  - by apply IH.
  - destruct closed; [done|]. cbn. move=> /IH. by destruct d.
Qed.

Lemma world_stream_app evs evs' : world_stream (evs ++ evs') = world_stream evs ++ world_stream evs'.
Proof. by rw /world_stream fmap_app concat_app. Qed.

Lemma client_inv_new now : client_inv [] (ClientProxyState_new now).
Proof. split_and!; try done; [constructor|by left]. Qed.

Definition to_server (out : packets) : list bytes :=
  fst <$> filter (fun p => snd p = ToServer) out.

(** The datagrams of the game client that are not block requests. *)
Definition other_packets (evs : list (Z * ClientEvent)) : list bytes :=
  concat ((fun ev => match snd ev with
                     | FromClient data => if requested_block data then [] else [data]
                     | NewWorldData _ => []
                     end) <$> evs).

Lemma to_server_app out out' : to_server (out ++ out') = to_server out ++ to_server out'.
Proof. by rw /to_server filter_app fmap_app. Qed.

Lemma to_server_responses stream ids : to_server (block_response stream <$> ids) = [].
Proof. by elim: ids. Qed.

Lemma run_client_forwards evs stream st st' out :
  client_inv stream st -> channel_ok (cp_world_data_done st) evs = true ->
  run_client st evs = Ok (st', out) -> to_server out = other_packets evs.
Proof.
  elim: evs stream st out => [|[now ev] evs IH] stream st out Hinv Hch; cbn [run_client].
  { by move=> [_ <-]. }
  intros ([st1 out1] & H1 & ([st2 out2] & H2 & [= -> <-])%bind_ok_inv)%bind_ok_inv.
  rw to_server_app.
  have Hcons : other_packets ((now, ev) :: evs) =
    match ev with FromClient data => if requested_block data then [] else [data] | _ => [] end ++
    other_packets evs by done.
  rw Hcons. destruct ev as [data|[d|]].
  - destruct (on_client_packet_ok stream st now data Hinv) as (st3 & out3 & Heq & Hinv3 & Hd3 & _ & Hout).
    rw H1 in Heq. injection Heq as <- <-. rw -Hd3 in Hch. rw (IH stream st1 out2 Hinv3 Hch H2). f_equal.
    destruct (requested_block data); [|by rw Hout]. by destruct Hout as [[_ ->]|[-> _]].
  - cbn in Hch. apply andb_prop in Hch as [Hd Hch]. apply negb_true_iff in Hd.
    destruct (on_world_data_ok stream st now d Hinv Hd) as (st3 & ids & Heq & Hinv3 & Hd3 & _).
    rw H1 in Heq. injection Heq as <- ->. rw to_server_responses. apply (IH (stream ++ d) st1); try done.
    by rw Hd3.
  - cbn in Hch. apply andb_prop in Hch as [Hd Hch]. injection H1 as <- <-.
    destruct Hinv as (Hs & Hsw & Hpos & Hopen & Hwd & Hpend).
    by apply (IH stream _ out2) in H2; [|split_and!|].
Qed.

Lemma client_answers_ok now t data id pre post
  (Hch : channel_ok false (pre ++ (t, FromClient data) :: post) = true)
  (Hopen : existsb closes pre = false) (Hreq : requested_block data = Some id)
  (Hc : block_complete (world_stream (pre ++ (t, FromClient data) :: post)) id) :
  exists st out,
    run_client (ClientProxyState_new now) (pre ++ (t, FromClient data) :: post) = Ok (st, out) /\
    block_response (world_stream (pre ++ (t, FromClient data) :: post)) id ∈ out.
Proof.
  destruct (channel_ok_app _ _ _ Hch) as [Hpre Hpost]. rw Hopen /= in Hpost.
  destruct (run_client_ok pre [] _ (client_inv_new now) Hpre) as (st1 & out1 & Heq1 & Hinv1 & Hd1 & _).
  rw Hopen in Hd1. cbn in Hd1, Hinv1.
  destruct (on_client_packet_ok _ st1 t data Hinv1) as (st2 & out2 & Heq2 & Hinv2 & Hd2 & _ & Hout).
  have Hpost' : channel_ok (cp_world_data_done st2) post = true by rw Hd2 Hd1.
  destruct (run_client_ok post _ st2 Hinv2 Hpost') as (st3 & out3 & Heq3 & _ & _ & _ & Hr).
  have Hws : world_stream (pre ++ (t, FromClient data) :: post) = world_stream pre ++ world_stream post
    by rw world_stream_app.
  rw run_client_app Heq1 bind_ok. cbn [run_client]. rw Heq2 bind_ok Heq3 !bind_ok.
  do 2 eexists. split; [done|]. rw Hws in Hc *. rw Hreq in Hout.
  apply elem_of_app. right. apply elem_of_app. destruct Hout as [[Hc' ->]|[-> Hin]].
  - left. rw block_response_prefix //. by left.
  - right. apply Hr; [by rw Hd2 Hd1|done|done].
Qed.

(** ** Properties *)

(** C18: whatever the game client sends and however the world arrives, the proxy
    never panics; every datagram it sends to the client is a [TransferBlock] with a
    whole 503-byte block, cut from the world stream at the block's offset; and the
    client's other datagrams reach the server unchanged, once and in order. *)
Theorem client_serves_stream now evs (Hch : channel_ok false evs = true) :
  exists st out, run_client (ClientProxyState_new now) evs = Ok (st, out) /\
    (forall p, p ∈ out -> snd p = ToClient -> exists id, block_complete (world_stream evs) id /\
       Ok (fst p) = encode_full_packet (mkTransferBlock id (stream_block (world_stream evs) id))) /\
    to_server out = other_packets evs.
Proof.
  destruct (run_client_ok evs [] _ (client_inv_new now) Hch) as (st & out & Heq & _ & _ & Hg & _).
  exists st, out. split; [done|]. split.
  - move=> p Hp Hdir. destruct (proj1 (Forall_forall _ _) Hg p Hp Hdir) as (id & Hc & ->). by exists id.
  - by apply (run_client_forwards evs [] _ st out (client_inv_new now) Hch).
Qed.

(** C17: no block request is lost.  A request that arrives before the world channel
    is closed, for a block that the complete stream contains, is answered with that
    block, at once or when the data arrives, whatever happens in between. *)
Theorem client_answers_requests now t data id pre post
  (Hch : channel_ok false (pre ++ (t, FromClient data) :: post) = true)
  (Hopen : existsb closes pre = false) (Hreq : requested_block data = Some id)
  (Hc : block_complete (world_stream (pre ++ (t, FromClient data) :: post)) id) :
  exists st out,
    run_client (ClientProxyState_new now) (pre ++ (t, FromClient data) :: post) = Ok (st, out) /\
    block_response (world_stream (pre ++ (t, FromClient data) :: post)) id ∈ out.
Proof. by apply client_answers_ok. Qed.

(** ** Witnesses *)

Definition sample_request (id : Z) : bytes := put_u8 12 ++ put_u32_le id.
Definition sample_piece : bytes := z2b <$> z_range 600.

Lemma client_serves_stream_witness :
  exists st out, run_client (ClientProxyState_new 0)
      [(1, FromClient (sample_request 1)); (2, NewWorldData (Some sample_piece)); (3, FromClient [Byte.x01]);
       (4, NewWorldData (Some sample_piece)); (5, NewWorldData None)] = Ok (st, out) /\
    to_server out = [[Byte.x01]].
Proof.
  destruct (client_serves_stream 0
      [(1, FromClient (sample_request 1)); (2, NewWorldData (Some sample_piece)); (3, FromClient [Byte.x01]);
       (4, NewWorldData (Some sample_piece)); (5, NewWorldData None)]) as (st & out & Heq & _ & Hs); [done|].
  exists st, out. split; [done|]. rw Hs. by vm_compute.
Defined.

Lemma client_answers_requests_witness :
  exists st out,
    run_client (ClientProxyState_new 0) ([(1, NewWorldData (Some sample_piece))] ++
      (2, FromClient (sample_request 1)) :: [(3, NewWorldData (Some sample_piece))]) = Ok (st, out) /\
    block_response (world_stream ([(1, NewWorldData (Some sample_piece))] ++
      (2, FromClient (sample_request 1)) :: [(3, NewWorldData (Some sample_piece))])) 1 ∈ out.
Proof. by apply (client_answers_requests 0 2 (sample_request 1) 1); vm_compute. Defined.
