(* ===== verification/FactorioRouting.v ===== *)
(** * Sockets, queues and tasks of the Factorio proxies

    Models the select loops of factorio-cacher: [run_client_proxy] and [proxy_client]
    of proxy/client_proxy.rs, [run_server_proxy] and [proxy_server] of
    proxy/server_proxy.rs, the datagrams of protocol.rs and the address cell that
    lan_discovery.rs updates.

    A router is the state of a [run_*] loop with the tasks it spawned; one step is one
    turn of one loop, with the branch of [select!] that was taken as its argument.
    The packets a step sends are its output.  The variable-length integers of
    quinn-proto and the channels of tokio are parameters. *)

From Stdlib Require Import ssreflect.
From stdpp Require Import base numbers list gmap countable strings.
From S2P Require Import Prelude Buf BTreeSet FactorioProtocol FactorioServerProxy FactorioClientProxy.

#[local] Open Scope general_if_scope.

(** ** Addresses ([std::net]) *)

Inductive IpAddr := V4 (ip : Z) | V6 (ip : Z).
Inductive SocketAddr := SockV4 (ip port : Z) | SockV6 (ip port flowinfo scope_id : Z).

#[global] Instance SocketAddr_eq_dec : EqDecision SocketAddr.
Proof. solve_decision. Defined.

#[global] Instance SocketAddr_countable : Countable SocketAddr.
Proof.
  refine (inj_countable' (fun a => match a with
    | SockV4 ip port => inl (ip, port)
    | SockV6 ip port f s => inr (ip, port, f, s)
    end) (fun x => match x with inl (ip, port) => SockV4 ip port | inr (ip, port, f, s) => SockV6 ip port f s end) _).
  by case.
Defined.

Definition SocketAddr_new (ip : IpAddr) (port : Z) : SocketAddr :=
  match ip with V4 ip => SockV4 ip port | V6 ip => SockV6 ip port 0 0 end.

Definition addr_ip (a : SocketAddr) : IpAddr :=
  match a with SockV4 ip _ => V4 ip | SockV6 ip _ _ _ => V6 ip end.

(** ** LAN discovery *)

(** One turn of [lan_discovery_task]: the task's own copy of the address, and the
    shared cell. *)
Definition lan_packet (current_factorio_address cell : SocketAddr) (buf : bytes) (addr : SocketAddr)
  : SocketAddr * SocketAddr :=
  match buf with
  | [_; lo; hi] =>
      let lan_port := le_val [lo; hi] in
      let lan_addr := SocketAddr_new (addr_ip addr) lan_port in
      if decide (current_factorio_address <> lan_addr) then (lan_addr, lan_addr)
      else (current_factorio_address, cell)
  | _ => (current_factorio_address, cell)
  end.

(** [lan_discovery_task]: its copy starts as what the cell holds. *)
Definition lan_discovery_task (cell : SocketAddr) (received : list (bytes * SocketAddr)) : SocketAddr * SocketAddr :=
  foldl (fun st p => lan_packet (fst st) (snd st) (fst p) (snd p)) (cell, cell) received.

(** ** Datagrams *)

(** [quinn_proto::VarInt] *)
Class VarInt := {
  varint_encode : Z -> bytes;
  varint_decode : bytes -> result (Z * bytes);
}.

Class VarIntSpec (V : VarInt) : Prop :=
  varint_recovers : forall z rest, in_u 62 z -> varint_decode (varint_encode z ++ rest) = Ok (z, rest).

Record Datagram := mkDatagram { dg_peer_id : Z; dg_data : bytes }.

Definition Datagram_decode `{VarInt} (data : bytes) : result Datagram :=
  '(peer_id, data) ← varint_decode data;
  Ok (mkDatagram peer_id data).

Definition Datagram_encode `{VarInt} (d : Datagram) : bytes := varint_encode (dg_peer_id d) ++ dg_data d.

(** ** Channels *)

Definition UDP_QUEUE_SIZE : Z := 512.

Inductive Recv Q := Received (data : bytes) (q : Q) | Disconnected | Waiting.
Arguments Received {Q}.
Arguments Disconnected {Q}.
Arguments Waiting {Q}.

(** [tokio::sync::mpsc]: a channel with its two ends.  [try_send] leaves the channel
    as it is when it fails; [drop_sender] and [drop_receiver] are the destructors. *)
Class Mpsc (Q : Type) := {
  mpsc_channel : Z -> Q;
  try_send : Q -> bytes -> Q;
  recv : Q -> Recv Q;
  is_closed : Q -> bool;
  drop_sender : Q -> Q;
  drop_receiver : Q -> Q;
}.

(** The documented behaviour: a bounded queue, first in first out, which accepts
    nothing once its receiver is gone. *)
Class MpscSpec (Q : Type) {H : Mpsc Q} := {
  queued : Q -> list bytes;
  capacity : Q -> Z;
  mpsc_channel_new n : 0 < n -> queued (mpsc_channel n) = [] /\ capacity (mpsc_channel n) = n /\ is_closed (mpsc_channel n) = false;
  try_send_queued q b :
    queued (try_send q b) = (if is_closed q then queued q else if len (queued q) <? capacity q then queued q ++ [b] else queued q);
  try_send_capacity q b : capacity (try_send q b) = capacity q;
  try_send_closed q b : is_closed (try_send q b) = is_closed q;
  recv_received q b q' : recv q = Received b q' ->
    queued q = b :: queued q' /\ capacity q' = capacity q /\ is_closed q' = is_closed q;
  recv_ready q b rest : queued q = b :: rest -> is_closed q = false -> exists q', recv q = Received b q' /\ queued q' = rest;
  drop_sender_queued q : queued (drop_sender q) = queued q /\ capacity (drop_sender q) = capacity q;
  drop_receiver_closed q : is_closed (drop_receiver q) = true /\ queued (drop_receiver q) = [] /\
    capacity (drop_receiver q) = capacity q;
}.

(** What a proxy does to the outside. *)
Inductive Send :=
| SendUdp (data : bytes) (dest : SocketAddr)
| SendDatagram (data : bytes)
| OpenStream (first_bytes : bytes).

(** The loop over [out_packets]: it stops at the first send that fails, the one with
    number [working].  The second component: did all succeed? *)
Definition send_all (send : bytes * PacketDirection -> Send) (working : nat) (out : packets) : list Send * bool :=
  (send <$> take working out, bool_decide (length out <= working)%nat).

(** ** The client proxy *)

Section client_router.
Context `{VarInt, Mpsc Q}.

(** [proxy_client] before and in its loop, and after it returned. *)
Inductive ClientTaskPhase :=
| ClientStarting
| ClientRunning (proxy_state : ClientProxyState) (world_data_done : bool)
| ClientReturned.

(** A spawned [proxy_client] with its arguments. *)
Record ClientTask := mkClientTask {
  ct_peer_id : Z;
  ct_peer_addr : SocketAddr;
  ct_server_receive_queue : Q;
  ct_client_receive_queue : Q;
  ct_phase : ClientTaskPhase;
}.

(** [run_client_proxy].  A sender in a table is the id of the task that holds the
    receiver. *)
Record ClientRouter := mkClientRouter {
  addr_to_queue : gmap SocketAddr Z;
  id_to_queue : gmap Z Z;
  next_peer_id : Z;
  client_tasks : gmap Z ClientTask;
}.

Definition ClientRouter_new : ClientRouter := mkClientRouter ∅ ∅ 0 ∅.

Definition set_client_task (r : ClientRouter) (id : Z) (task : ClientTask) : ClientRouter :=
  mkClientRouter (addr_to_queue r) (id_to_queue r) (next_peer_id r) (<[id := task]> (client_tasks r)).

(** [addr_to_queue.get(&peer_addr).filter(|s| !s.is_closed())] *)
Definition open_queue (r : ClientRouter) (peer_addr : SocketAddr) : option Z :=
  id ← addr_to_queue r !! peer_addr;
  task ← client_tasks r !! id;
  if is_closed (ct_client_receive_queue task) then None else Some id.

(** A packet from an unknown address, or from one whose task is gone.  The sender that
    the first table loses belongs to a channel without a receiver. *)
Definition new_peer (r : ClientRouter) (peer_addr : SocketAddr) : result (Z * ClientRouter) :=
  let peer_id := next_peer_id r in
  if U32_MAX <? next_peer_id r + 1 then Err (Anyhow "Ran out of peer ids")
  else
    let task := mkClientTask peer_id peer_addr (mpsc_channel UDP_QUEUE_SIZE) (mpsc_channel UDP_QUEUE_SIZE) ClientStarting in
    Ok (peer_id, mkClientRouter (<[peer_addr := peer_id]> (addr_to_queue r)) (<[peer_id := peer_id]> (id_to_queue r))
          (next_peer_id r + 1) (<[peer_id := task]> (client_tasks r))).

Definition push_client (r : ClientRouter) (id : Z) (data : bytes) : ClientRouter :=
  match client_tasks r !! id with
  | Some t => set_client_task r id (mkClientTask (ct_peer_id t) (ct_peer_addr t) (ct_server_receive_queue t)
                (try_send (ct_client_receive_queue t) data) (ct_phase t))
  | None => r
  end.

Definition push_server (r : ClientRouter) (id : Z) (data : bytes) : ClientRouter :=
  match client_tasks r !! id with
  | Some t => set_client_task r id (mkClientTask (ct_peer_id t) (ct_peer_addr t)
                (try_send (ct_server_receive_queue t) data) (ct_client_receive_queue t) (ct_phase t))
  | None => r
  end.

(** [socket.recv_buf_from] *)
Definition client_udp_packet (r : ClientRouter) (peer_addr : SocketAddr) (data : bytes) : result ClientRouter :=
  '(outgoing_queue, r) ← match open_queue r peer_addr with
                         | Some id => Ok (id, r)
                         | None => new_peer r peer_addr
                         end;
  Ok (push_client r outgoing_queue data).

(** [connection.read_datagram] *)
Definition client_datagram (r : ClientRouter) (data : bytes) : result ClientRouter :=
  datagram ← Datagram_decode data;
  match id_to_queue r !! dg_peer_id datagram with
  | Some outgoing_queue => Ok (push_server r outgoing_queue (dg_data datagram))
  | None => Ok r
  end.

(** What a turn of [proxy_client] takes: the start, with the result of opening the
    stream, or a branch of [select!]. *)
Inductive ClientChoice :=
| StreamOpened (ok : bool)
| ClientQueue
| ServerQueue
| WorldData (result : option bytes)
| ClientIdle.

Definition client_send (t : ClientTask) (p : bytes * PacketDirection) : Send :=
  match snd p with
  | ToClient => SendUdp (fst p) (ct_peer_addr t)
  | ToServer => SendDatagram (Datagram_encode (mkDatagram (ct_peer_id t) (fst p)))
  end.

(** The task returns (or panics) and drops the receivers. *)
Definition client_returns (t : ClientTask) : ClientTask :=
  mkClientTask (ct_peer_id t) (ct_peer_addr t) (drop_receiver (ct_server_receive_queue t))
    (drop_receiver (ct_client_receive_queue t)) ClientReturned.

(** The end of a turn: send what the handler put into [out_packets]. *)
Definition client_turn (t : ClientTask) (working : nat) (world_data_done : bool)
    (handled : result (ClientProxyState * packets)) : ClientTask * list Send :=
  match handled with
  | Ok (st, out) =>
      let '(sent, all_sent) := send_all (client_send t) working out in
      (if all_sent then mkClientTask (ct_peer_id t) (ct_peer_addr t) (ct_server_receive_queue t)
                          (ct_client_receive_queue t) (ClientRunning st world_data_done)
       else client_returns t, sent)
  | _ => (client_returns t, [])
  end.

(** One turn of [proxy_client]; [None] if the branch is not ready. *)
Definition client_task_step (t : ClientTask) (choice : ClientChoice) (now : Z) (working : nat)
  : option (ClientTask * list Send) :=
  match ct_phase t, choice with
  | ClientStarting, StreamOpened true =>
      Some (mkClientTask (ct_peer_id t) (ct_peer_addr t) (ct_server_receive_queue t) (ct_client_receive_queue t)
              (ClientRunning (ClientProxyState_new now) false),
            [OpenStream (put_u32_le (wrap 32 (ct_peer_id t)))])
  | ClientStarting, StreamOpened false => Some (client_returns t, [])
  | ClientRunning st wdone, ClientQueue =>
      match recv (ct_client_receive_queue t) with
      | Received packet_data q =>
          let t := mkClientTask (ct_peer_id t) (ct_peer_addr t) (ct_server_receive_queue t) q (ct_phase t) in
          Some (client_turn t working wdone (on_packet_from_client st now packet_data))
      | Disconnected => Some (client_returns t, [])
      | Waiting => None
      end
  | ClientRunning st wdone, ServerQueue =>
      match recv (ct_server_receive_queue t) with
      | Received packet_data q =>
          let t := mkClientTask (ct_peer_id t) (ct_peer_addr t) q (ct_client_receive_queue t) (ct_phase t) in
          Some (client_turn t working wdone (Ok (st, [(packet_data, ToClient)])))
      | Disconnected => Some (client_returns t, [])
      | Waiting => None
      end
  | ClientRunning st wdone, WorldData result =>
      if wdone then None
      else Some (client_turn t working (bool_decide (result = None)) (on_new_world_data st now result))
  | ClientRunning _ _, ClientIdle => Some (client_returns t, [])
  | _, _ => None
  end.
End client_router.
Arguments ClientTask : clear implicits.
Arguments ClientRouter : clear implicits.

(** ** The server proxy *)

Section server_router.
Context `{VarInt, Mpsc Q, Memmem}.

(** A spawned [proxy_server] with its arguments; [None] after it returned. *)
Record ServerTask := mkServerTask {
  st_peer_id : Z;
  st_factorio_addr : SocketAddr;
  st_receive_queue : Q;
  st_proxy_state : option ServerProxyState;
}.

(** [run_server_proxy] with its tasks, in the order they were spawned.  A sender in the
    table is the number of the task that holds the receiver. *)
Record ServerRouter := mkServerRouter {
  outgoing_queues : gmap Z nat;
  server_tasks : list ServerTask;
}.

Definition ServerRouter_new : ServerRouter := mkServerRouter ∅ [].

Definition map_queue (f : Q -> Q) (t : ServerTask) : ServerTask :=
  mkServerTask (st_peer_id t) (st_factorio_addr t) (f (st_receive_queue t)) (st_proxy_state t).

(** [connection.read_datagram] *)
Definition server_datagram (r : ServerRouter) (data : bytes) : result ServerRouter :=
  datagram ← Datagram_decode data;
  match outgoing_queues r !! dg_peer_id datagram with
  | Some outgoing_queue =>
      Ok (mkServerRouter (outgoing_queues r)
            (alter (map_queue (fun q => try_send q (dg_data datagram))) outgoing_queue (server_tasks r)))
  | None => Ok r
  end.

(** [connection.accept_bi]: the stream starts with the id of the peer; [bound] is the
    result of [UdpSocket::bind].  A sender that is replaced in the table is dropped. *)
Definition server_accept (opts : WorldOptions) (factorio_address_cell : SocketAddr) (r : ServerRouter)
    (stream : bytes) (bound : result unit) : result ServerRouter :=
  '(peer_id, _) ← read_exact 4 stream;
  let peer_id := le_val peer_id in
  let factorio_addr := factorio_address_cell in
  _ ← bound;
  let task := mkServerTask peer_id factorio_addr (mpsc_channel UDP_QUEUE_SIZE) (Some (ServerProxyState_new opts)) in
  let tasks := match outgoing_queues r !! peer_id with
               | Some old => alter (map_queue drop_sender) old (server_tasks r)
               | None => server_tasks r
               end in
  Ok (mkServerRouter (<[peer_id := length tasks]> (outgoing_queues r)) (tasks ++ [task])).

(** The branches of [select!] in [proxy_server]. *)
Inductive ServerChoice :=
| FactorioSocket (packet : option (bytes * SocketAddr))
| ReceiveQueue
| ServerIdle.

Definition server_send (t : ServerTask) (p : bytes * PacketDirection) : Send :=
  match snd p with
  | ToClient => SendDatagram (Datagram_encode (mkDatagram (st_peer_id t) (fst p)))
  | ToServer => SendUdp (fst p) (st_factorio_addr t)
  end.

Definition server_returns (t : ServerTask) : ServerTask :=
  mkServerTask (st_peer_id t) (st_factorio_addr t) (drop_receiver (st_receive_queue t)) None.

Definition server_turn (t : ServerTask) (working : nat) (st : ServerProxyState) (out : packets) : ServerTask * list Send :=
  let '(sent, all_sent) := send_all (server_send t) working out in
  (if all_sent then mkServerTask (st_peer_id t) (st_factorio_addr t) (st_receive_queue t) (Some st)
   else server_returns t, sent).

(** One turn of [proxy_server]: the task, what it sends, and the world transfer it
    spawns; [None] if the branch is not ready. *)
Definition server_task_step (t : ServerTask) (choice : ServerChoice) (now : Z) (working : nat)
  : option (ServerTask * list Send * option DownloadingWorldState) :=
  match st_proxy_state t, choice with
  | Some st, FactorioSocket None => Some (server_returns t, [], None)
  | Some st, FactorioSocket (Some (data, remote_addr)) =>
      if decide (remote_addr <> st_factorio_addr t) then Some (t, [], None)
      else
        match on_packet_from_server st now data with
        | Ok (st, out, spawned) => Some (server_turn t working st out, spawned)
        | _ => Some (server_returns t, [], None)
        end
  | Some st, ReceiveQueue =>
      match recv (st_receive_queue t) with
      | Received packet_data q =>
          let t := mkServerTask (st_peer_id t) (st_factorio_addr t) q (st_proxy_state t) in
          Some (server_turn t working st [(packet_data, ToServer)], None)
      | Disconnected => Some (server_returns t, [], None)
      | Waiting => None
      end
  | Some st, ServerIdle => Some (server_returns t, [], None)
  | None, _ => None
  end.
End server_router.
Arguments ServerTask : clear implicits.
Arguments ServerRouter : clear implicits.
