(* ===== verification/FactorioSystem.v ===== *)
(** * The Factorio proxies as a system

    The client proxy, the server proxy and the LAN discovery task running side by side:
    a step relation over their joint state, in which any of their loops may take its
    next turn and the network may lose, repeat and reorder datagrams.  The log records
    what came in from the games and what the tasks sent; it serves the statements and
    is never read by a program. *)

From Stdlib Require Import ssreflect.
From stdpp Require Import base numbers list gmap strings relations.
From S2P Require Import Prelude Buf BTreeSet FactorioProtocol FactorioServerProxy FactorioClientProxy FactorioRouting.

#[local] Open Scope general_if_scope.

(** ** The LAN discovery task *)

(** The address a LAN packet announces. *)
Definition lan_announcement (p : bytes * SocketAddr) : option SocketAddr :=
  match fst p with
  | [_; lo; hi] => Some (SocketAddr_new (addr_ip (snd p)) (le_val [lo; hi]))
  | _ => None
  end.

Lemma lan_packet_ok cell p :
  lan_packet cell cell (fst p) (snd p) =
    (default cell (lan_announcement p), default cell (lan_announcement p)).
Proof.
  rw /lan_packet /lan_announcement. destruct (fst p) as [|b [|lo [|hi [|]]]]; try done. cbn [default from_option].
  destruct (decide _) as [Hn|He]; [done|]. by destruct (decide (cell = SocketAddr_new (addr_ip (snd p)) (le_val [lo; hi]))) as [<-|].
Qed.

(** The cell holds the address that was announced last.  Packets of another length
    than 3 are ignored, and the task's own copy, which it compares with, always equals
    the cell. *)
Lemma lan_discovery_last cell received :
  lan_discovery_task cell received =
    (default cell (last (omap lan_announcement received)), default cell (last (omap lan_announcement received))).
Proof.
  rw /lan_discovery_task. elim/rev_ind: received => [|p received IH] //.
  rw foldl_app IH omap_app. cbn [foldl fst snd omap list_omap]. rw lan_packet_ok.
  destruct (lan_announcement p) as [a|]; cbn [default from_option]; [by rw last_snoc|by rw app_nil_r].
Qed.

(** ** Steps *)

Inductive Event :=
| UdpIn (peer_addr : SocketAddr) (data : bytes)
| FactorioIn (task : nat) (data : bytes)
| WorldIn (peer_id : Z) (data : option bytes)
| ClientSent (peer_id : Z) (s : Send)
| ServerSent (task : nat) (s : Send).

Section system.
Context `{HV : VarInt, HQ : Mpsc Q, HF : Memmem} (opts : WorldOptions).

Record System := mkSystem {
  sy_client : ClientRouter Q;
  sy_server : ServerRouter Q;
  sy_lan : SocketAddr * SocketAddr;
  sy_log : list Event;
}.

Definition System_new (factorio_address : SocketAddr) : System :=
  mkSystem ClientRouter_new ServerRouter_new (factorio_address, factorio_address) [].

(** What reaches a task from outside in its turn. *)
Definition client_input (id : Z) (choice : ClientChoice) : list Event :=
  match choice with WorldData d => [WorldIn id d] | _ => [] end.

Definition server_input (i : nat) (t : ServerTask Q) (choice : ServerChoice) : list Event :=
  match choice with
  | FactorioSocket (Some (data, remote_addr)) => if decide (remote_addr = st_factorio_addr t) then [FactorioIn i data] else []
  | _ => []
  end.

Inductive step : System -> System -> Prop :=
| step_udp c s lan log peer_addr data c' :
    client_udp_packet c peer_addr data = Ok c' ->
    step (mkSystem c s lan log) (mkSystem c' s lan (log ++ [UdpIn peer_addr data]))
| step_datagram_down c s lan log i b c' :
    ServerSent i (SendDatagram b) ∈ log -> client_datagram c b = Ok c' ->
    step (mkSystem c s lan log) (mkSystem c' s lan log)
| step_client_task c s lan log id t choice now working t' sent :
    client_tasks c !! id = Some t -> client_task_step t choice now working = Some (t', sent) ->
    step (mkSystem c s lan log)
      (mkSystem (set_client_task c id t') s lan (log ++ client_input id choice ++ (ClientSent id <$> sent)))
| step_datagram_up c s lan log id b s' :
    ClientSent id (SendDatagram b) ∈ log -> server_datagram s b = Ok s' ->
    step (mkSystem c s lan log) (mkSystem c s' lan log)
| step_accept c s lan log id b bound s' :
    ClientSent id (OpenStream b) ∈ log -> server_accept opts (snd lan) s b bound = Ok s' ->
    step (mkSystem c s lan log) (mkSystem c s' lan log)
| step_server_task c s lan log i t choice now working t' sent spawned :
    server_tasks s !! i = Some t -> server_task_step t choice now working = Some (t', sent, spawned) ->
    step (mkSystem c s lan log)
      (mkSystem c (mkServerRouter (outgoing_queues s) (<[i := t']> (server_tasks s))) lan
         (log ++ server_input i t choice ++ (ServerSent i <$> sent)))
| step_lan c s lan log buf addr :
    step (mkSystem c s lan log) (mkSystem c s (lan_packet (fst lan) (snd lan) buf addr) log).

Definition reachable (cell : SocketAddr) (sys : System) : Prop := rtc step (System_new cell) sys.
End system.
Arguments System : clear implicits.

(** ** What a log tells

    The addresses of the players and the peers of the server's tasks never change:
    statements about them and about a log stay true as the system goes on. *)

Record Facts := mkFacts {
  fa_addr : Z -> option SocketAddr;
  fa_peer : nat -> option (Z * SocketAddr);
  fa_log : list Event;
}.

Definition extends (f f' : Facts) : Prop :=
  (forall id a, fa_addr f id = Some a -> fa_addr f' id = Some a) /\
  (forall i p, fa_peer f i = Some p -> fa_peer f' i = Some p) /\
  fa_log f `prefix_of` fa_log f'.

(** A packet that the player with an id sent. *)
Definition from_player (f : Facts) (id : Z) (data : bytes) : Prop :=
  exists a, fa_addr f id = Some a /\ UdpIn a data ∈ fa_log f.

(** The world that was rebuilt for a player, as far as it has arrived. *)
Definition world_of (log : list Event) (id : Z) : bytes :=
  concat (omap (fun e => match e with WorldIn id' (Some d) => if decide (id' = id) then Some d else None | _ => None end) log).

Section facts.
Context `{HV : VarInt} {HVS : VarIntSpec HV} `{HQ : Mpsc Q} {HQS : MpscSpec Q} `{HF : Memmem} {HFS : MemmemSpec HF}.
Context (opts : WorldOptions).

(** The metadata with which the proxy announces a world to the player. *)
Definition announced_info (w : FactorioWorldMetadata) : FactorioWorldMetadata :=
  mkWorldMetadata (estimated_reconstructed_world_size opts w) (no_idea1 w) (aux_size w) (no_idea2 w) (world_crc w).

(** A filter that replaces the metadata of one of these worlds by that. *)
Definition world_filter (P : FactorioWorldMetadata -> Prop) (fs : FilteringPacketsState) : Prop :=
  exists w, P w /\ fp_needle fs = FactorioWorldMetadata_encode w /\
    fp_replace_with fs = FactorioWorldMetadata_encode (announced_info w).

(** The packet itself, or with that replacement made. *)
Definition rewritten (P : FactorioWorldMetadata -> Prop) (data0 data : bytes) : Prop :=
  data = data0 \/ exists fs now fs', world_filter P fs /\ filter_packet fs now data0 = Ok (data, fs').

(** A world that the Factorio server announced to the socket of a task. *)
Definition announced (f : Facts) (i : nat) (w : FactorioWorldMetadata) : Prop :=
  exists packet, FactorioIn i packet ∈ fa_log f /\ announced_world packet = Some w.

(** The packet itself, or with the metadata of a world that was announced on the same socket
    replaced by the metadata that the proxy announces. *)
Definition filtered (f : Facts) (i : nat) : bytes -> bytes -> Prop := rewritten (announced f i).

(** A packet that the Factorio server sent to the socket of a task. *)
Definition from_factorio (f : Facts) (i : nat) (data : bytes) : Prop :=
  exists data0, FactorioIn i data0 ∈ fa_log f /\ filtered f i data0 data.

Definition from_server (f : Facts) (id : Z) (data : bytes) : Prop :=
  exists i addr, fa_peer f i = Some (id, addr) /\ from_factorio f i data.

(** Where what was sent comes from. *)
Definition event_ok (f : Facts) (e : Event) : Prop :=
  match e with
  | ClientSent id (SendDatagram b) =>
      exists data, b = Datagram_encode (mkDatagram id data) /\ from_player f id data
  | ClientSent id (SendUdp data a) =>
      fa_addr f id = Some a /\
      (from_server f id data \/ exists block, block_complete (world_of (fa_log f) id) block /\
         data = fst (block_response (world_of (fa_log f) id) block))
  | ClientSent id (OpenStream b) => b = put_u32_le id /\ is_Some (fa_addr f id)
  | ServerSent i (SendUdp data a) =>
      exists id, fa_peer f i = Some (id, a) /\
        (from_player f id data \/ exists block, data = fst (request_packet block))
  | ServerSent i (SendDatagram b) =>
      exists id a data, fa_peer f i = Some (id, a) /\ b = Datagram_encode (mkDatagram id data) /\ from_factorio f i data
  | ServerSent _ (OpenStream _) => False
  | WorldIn id _ => is_Some (fa_addr f id)
  | _ => True
  end.

Lemma extends_log f f' e : extends f f' -> e ∈ fa_log f -> e ∈ fa_log f'.
Proof. intros (_ & _ & [more ->]) He. apply elem_of_app. by left. Qed.

Lemma extends_refl f : extends f f.
Proof. by split_and!. Qed.

Lemma from_player_mono f f' id data : extends f f' -> from_player f id data -> from_player f' id data.
Proof. intros He (a & Ha & Hl). exists a. split; [by apply He|by apply (extends_log f)]. Qed.

Lemma world_of_app log log' id : world_of (log ++ log') id = world_of log id ++ world_of log' id.
Proof. by rw /world_of omap_app concat_app. Qed.

Lemma world_of_prefix f f' id : extends f f' -> world_of (fa_log f) id `prefix_of` world_of (fa_log f') id.
Proof. intros (_ & _ & [more ->]). rw world_of_app. by exists (world_of more id). Qed.

Lemma announced_mono f f' i w : extends f f' -> announced f i w -> announced f' i w.
Proof. intros He (packet & Hl & Hw). exists packet. split; [by apply (extends_log f)|done]. Qed.

Lemma world_filter_mono (P P' : FactorioWorldMetadata -> Prop) fs : (forall w, P w -> P' w) -> world_filter P fs -> world_filter P' fs.
Proof. intros HP (w & Hw & ?). exists w. split; [by apply HP|done]. Qed.

Lemma from_factorio_mono f f' i data : extends f f' -> from_factorio f i data -> from_factorio f' i data.
Proof.
  intros He (d0 & Hl & Hf). exists d0. split; [by apply (extends_log f)|].
  destruct Hf as [->|(fs & now & fs' & Hw & Hp)]; [by left|]. right. exists fs, now, fs'. split; [|done].
  eapply world_filter_mono; [|exact Hw]. move=> w. by apply announced_mono.
Qed.

Lemma from_server_mono f f' id data : extends f f' -> from_server f id data -> from_server f' id data.
Proof. intros He (i & a & Hp & Hf). exists i, a. split; [by apply He|by apply (from_factorio_mono f)]. Qed.

Lemma event_ok_mono f f' e : extends f f' -> event_ok f e -> event_ok f' e.
Proof.
  move=> He. destruct e as [a d|i d|id d|id [d a|b|b]|i [d a|b|b]]; cbn [event_ok]; try done.
  - intros [a Ha]. exists a. by apply He.
  - intros [Ha [Hs|(block & Hc & ->)]]; (split; [by apply He|]).
    + left. by apply (from_server_mono f).
    + right. exists block. destruct (world_of_prefix f f' id He) as [more ->].
      rw block_response_prefix //. split; [by apply block_complete_prefix|done].
  - intros (data & -> & Hp). exists data. split; [done|by apply (from_player_mono f)].
  - intros [-> [a Ha]]. split; [done|]. exists a. by apply He.
  - intros (id & Hp & [Hd|Hr]); exists id; (split; [by apply He|]); [left; by apply (from_player_mono f)|by right].
  - intros (id & a & data & Hp & -> & Hf). exists id, a, data. split_and!; [by apply He|done|by apply (from_factorio_mono f)].
Qed.

(** *** The packets of the handlers *)

(** The filter of a task, if it has one, is for one of these worlds. *)
Definition filters (P : FactorioWorldMetadata -> Prop) (st : ServerProxyState) : Prop :=
  sp_world_options st = opts /\ forall fs, sp_packet_filter st = Some fs -> world_filter P fs.

Definition server_out (P : FactorioWorldMetadata -> Prop) (data : bytes) (p : bytes * PacketDirection) : Prop :=
  match snd p with
  | ToServer => exists block, p = request_packet block
  | ToClient => rewritten P data (fst p)
  end.

Section handlers_out.
Context (P : FactorioWorldMetadata -> Prop).

Lemma request_next_out queue inflight queue' inflight' out data :
  request_next queue inflight = Ok (queue', inflight', out) -> Forall (server_out P data) out.
Proof.
  elim: queue inflight queue' inflight' out => [|id queue IH] inflight queue' inflight' out; cbn [request_next].
  - by destruct (_ <? _); intros [= <- <- <-].
  - destruct (_ <? _); [|by intros [= <- <- <-]]. rw block_request_ok bind_ok.
    intros ([[q i] o] & Hr & [= <- <- <-])%bind_ok_inv. constructor; [by exists id|by apply (IH _ _ _ _ Hr)].
Qed.

Lemma request_next_blocks_out s s' out data :
  request_next_blocks s = Ok (s', out) -> Forall (server_out P data) out.
Proof. intros ([[q i] o] & Hr & [= <- <-])%bind_ok_inv. by apply (request_next_out _ _ _ _ _ _ Hr). Qed.

Lemma retry_requests_out s now s' out data : retry_requests s now = Ok (s', out) -> Forall (server_out P data) out.
Proof.
  rw /retry_requests. destruct (_ <? _); [|by intros [= <- <-]].
  rw (collect_ok _ request_packet); [move=> x _; apply block_request_ok|]. rw bind_ok.
  intros ([s2 o] & Hr & [= <- <-])%bind_ok_inv. apply Forall_app. split.
  - apply Forall_fmap, Forall_true. move=> x. by exists x.
  - by apply (request_next_blocks_out _ _ _ _ Hr).
Qed.

(** Filtering a packet does not change what the filter replaces. *)
Lemma filter_packet_keeps fs now data data' fs' :
  filter_packet fs now data = Ok (data', fs') -> world_filter P fs -> world_filter P fs'.
Proof.
  rw /filter_packet. destruct (find_iter _ _); [by intros [= _ <-]|]. by intros (d & _ & [= _ <-])%bind_ok_inv.
Qed.

Lemma forward_filtered_out st now data st' out :
  filters P st -> forward_filtered st now data = Ok (st', out) -> Forall (server_out P data) out /\ filters P st'.
Proof.
  intros [Ho Hf]. rw /forward_filtered. destruct (sp_packet_filter st) as [fs|] eqn:Hfs.
  - intros ([d fs'] & Hp & [= <- <-])%bind_ok_inv. have Hw := Hf fs eq_refl. split.
    + apply Forall_singleton. right. by exists fs, now, fs'.
    + split; [done|]. cbn. destruct (30000 <? _); [done|]. intros fs0 [= <-]. by apply (filter_packet_keeps _ _ _ _ _ Hp).
  - intros [= <- <-]. split; [apply Forall_singleton; by left|]. split; [done|]. by rw Hfs.
Qed.

(** What [on_packet_from_server] sends to the player is the packet, filtered; what it
    sends to the server are block requests. *)
Lemma on_packet_from_server_out st now data st' out spawned :
  filters P st -> (forall w, announced_world data = Some w -> P w) ->
  on_packet_from_server st now data = Ok (st', out, spawned) -> Forall (server_out P data) out /\ filters P st'.
Proof.
  intros Hst HP. have Hfwd st0 st1 o : filters P st0 -> ('(st, out) ← forward_filtered st0 now data; Ok (st, out, @None DownloadingWorldState)) =
      Ok (st1, o, spawned) -> Forall (server_out P data) o /\ filters P st1.
  { intros H0 ([st2 o2] & Hf & [= <- <- <-])%bind_ok_inv. by apply (forward_filtered_out _ _ _ _ _ H0 Hf). }
  rw /on_packet_from_server. destruct (sp_phase st) as [|s|].
  - destruct (announced_world data) as [w|]; [|by apply Hfwd].
    intros ([st2 o2] & Ht & [= <- <- <-])%bind_ok_inv. move: Ht. rw /transition_to_downloading_world.
    intros ([d f] & Hf & ([s o] & Hr & [= <- <-])%bind_ok_inv)%bind_ok_inv. destruct Hst as [Hopts _].
    set fs := mkFiltering _ _ _ in Hf. have Hw : world_filter P fs.
    { exists w. split; [by apply HP|]. by rw /announced_info -Hopts. }
    split; [constructor; [right; by exists fs, now, f|by apply (request_next_blocks_out _ _ _ _ Hr)]|].
    split; [done|]. intros fs0 [= <-]. by apply (filter_packet_keeps _ _ _ _ _ Hf).
  - destruct (transfer_block_message data) as [msg|].
    + destruct (TransferBlockPacket_decode msg) as [b| |]; [|by intros [= <- <- <-]..].
      set s1 := receive_block s now b. cbv zeta.
      have Hnext : ('(state, out) ← request_next_blocks s1; Ok (set_phase st (DownloadingWorld state), out, @None DownloadingWorldState)) =
          Ok (st', out, spawned) -> Forall (server_out P data) out /\ filters P st'.
      { intros ([s2 o2] & Hr & [= <- <- <-])%bind_ok_inv. split; [by apply (request_next_blocks_out _ _ _ _ Hr)|done]. }
      destruct (dw_block_request_queue s1) as [|x l]; [destruct (dw_inflight_block_requests s1) as [|y l']|];
        [|exact Hnext|exact Hnext].
      intros ([st2 s2] & Hfin & [= <- <- <-])%bind_ok_inv. split; [done|]. move: Hfin. rw /finalize_world. cbn [sp_phase set_phase].
      by intros ([] & _ & [= <- _])%bind_ok_inv.
    + intros ([s2 o2] & Hr & ([st2 o3] & Hf & [= <- <- <-])%bind_ok_inv)%bind_ok_inv.
      apply forward_filtered_out in Hf as [Hf1 Hf2]; [|exact Hst]. split; [|done]. apply Forall_app.
      split; [by apply (retry_requests_out _ _ _ _ _ Hr)|done].
  - by apply Hfwd.
Qed.
End handlers_out.

(** ** The invariant *)

Definition facts_of (sys : System Q) : Facts :=
  mkFacts (fun id => ct_peer_addr <$> client_tasks (sy_client sys) !! id)
    (fun i => (fun t => (st_peer_id t, st_factorio_addr t)) <$> server_tasks (sy_server sys) !! i)
    (sy_log sys).

(** A queue of [UDP_QUEUE_SIZE] packets, all of which satisfy [P]. *)
Definition queue_ok (P : bytes -> Prop) (q : Q) : Prop :=
  capacity q = UDP_QUEUE_SIZE /\ len (queued q) <= UDP_QUEUE_SIZE /\ Forall P (queued q).

Definition client_state_ok (log : list Event) (id : Z) (phase : ClientTaskPhase) : Prop :=
  match phase with
  | ClientStarting => world_of log id = []
  | ClientRunning st wdone => client_inv (world_of log id) st /\ cp_world_data_done st = wdone
  | ClientReturned => True
  end.

Definition client_task_ok (f : Facts) (id : Z) (t : ClientTask Q) : Prop :=
  ct_peer_id t = id /\ queue_ok (from_player f id) (ct_client_receive_queue t) /\
  queue_ok (from_server f id) (ct_server_receive_queue t) /\ client_state_ok (fa_log f) id (ct_phase t).

Definition server_task_ok (f : Facts) (i : nat) (t : ServerTask Q) : Prop :=
  is_Some (fa_addr f (st_peer_id t)) /\ queue_ok (from_player f (st_peer_id t)) (st_receive_queue t) /\
  forall st, st_proxy_state t = Some st -> proxy_inv st /\ filters (announced f i) st.

Definition client_tables_ok (c : ClientRouter Q) : Prop :=
  0 <= next_peer_id c <= U32_MAX /\
  (forall id, is_Some (client_tasks c !! id) -> 0 <= id < next_peer_id c) /\
  (forall a id, addr_to_queue c !! a = Some id -> exists t, client_tasks c !! id = Some t /\ ct_peer_addr t = a) /\
  (forall id q, id_to_queue c !! id = Some q -> q = id).

Definition server_table_ok (s : ServerRouter Q) : Prop :=
  forall id i, outgoing_queues s !! id = Some i -> exists t, server_tasks s !! i = Some t /\ st_peer_id t = id.

Definition sys_inv (sys : System Q) : Prop :=
  client_tables_ok (sy_client sys) /\ server_table_ok (sy_server sys) /\
  (forall id t, client_tasks (sy_client sys) !! id = Some t -> client_task_ok (facts_of sys) id t) /\
  (forall i t, server_tasks (sy_server sys) !! i = Some t -> server_task_ok (facts_of sys) i t) /\
  Forall (event_ok (facts_of sys)) (sy_log sys).

(** *** Queues *)

Lemma queue_ok_mono (P P' : bytes -> Prop) q : (forall b, P b -> P' b) -> queue_ok P q -> queue_ok P' q.
Proof. intros Hi (Hc & Hl & Hq). split_and!; [done|done|]. by eapply Forall_impl. Qed.

Lemma queue_ok_new P : queue_ok P (mpsc_channel UDP_QUEUE_SIZE).
Proof.
  destruct (mpsc_channel_new UDP_QUEUE_SIZE) as (Hq & Hc & _); [done|]. rw /queue_ok Hq Hc. by split_and!.
Qed.

Lemma queue_ok_send P q b : P b -> queue_ok P q -> queue_ok P (try_send q b).
Proof.
  intros Hb (Hc & Hl & Hq). rw /queue_ok try_send_capacity try_send_queued. split; [done|].
  destruct (is_closed q); [done|]. case: Z.ltb_spec => Hlt; [|done].
  rw Hc in Hlt. split; [len_lia|]. apply Forall_app. split; [done|by apply Forall_singleton].
Qed.

Lemma queue_ok_recv P q b q' : recv q = Received b q' -> queue_ok P q -> P b /\ queue_ok P q'.
Proof.
  intros (Hq & Hc & _)%recv_received. rw /queue_ok Hq Hc. intros (H1 & H2 & [Hb Hr]%Forall_cons).
  cbn [length] in H2. split_and!; [done|done|lia|done].
Qed.

Lemma queue_ok_drop_sender P q : queue_ok P q -> queue_ok P (drop_sender q).
Proof. rw /queue_ok. by destruct (drop_sender_queued q) as [-> ->]. Qed.

Lemma queue_ok_drop_receiver P q : queue_ok P q -> queue_ok P (drop_receiver q).
Proof.
  rw /queue_ok. destruct (drop_receiver_closed q) as (_ & -> & ->). intros (Hc & _). split_and!; [done|done|constructor].
Qed.

(** *** Extending the facts *)

Lemma client_task_mono f f' id t :
  extends f f' -> world_of (fa_log f') id = world_of (fa_log f) id -> client_task_ok f id t -> client_task_ok f' id t.
Proof.
  intros He Hw (Hi & Hc & Hs & Hst). split_and!; [done| | |].
  - eapply queue_ok_mono; [|exact Hc]. move=> b. by apply from_player_mono.
  - eapply queue_ok_mono; [|exact Hs]. move=> b. by apply from_server_mono.
  - rw /client_state_ok Hw. exact Hst.
Qed.

Lemma server_task_mono f f' i t : extends f f' -> server_task_ok f i t -> server_task_ok f' i t.
Proof.
  intros He ([a Ha] & Hq & Hst). split_and!.
  - exists a. by apply He.
  - eapply queue_ok_mono; [|exact Hq]. move=> b. by apply from_player_mono.
  - move=> st Hs. destruct (Hst st Hs) as (Hp & Ho & Hf). split; [done|]. split; [done|]. move=> fs Hfs.
    eapply world_filter_mono; [|exact (Hf fs Hfs)]. move=> w. by apply announced_mono.
Qed.

Lemma events_mono f f' log : extends f f' -> Forall (event_ok f) log -> Forall (event_ok f') log.
Proof. move=> He Hl. eapply Forall_impl; [exact Hl|]. move=> e. by apply event_ok_mono. Qed.

Lemma datagram_roundtrip id data :
  in_u 62 id -> Datagram_decode (Datagram_encode (mkDatagram id data)) = Ok (mkDatagram id data).
Proof. move=> H. by rw /Datagram_decode /Datagram_encode varint_recovers // bind_ok. Qed.

(** *** Preservation *)

Lemma inv_update c s lan log c' s' lan' evs :
  let f := facts_of (mkSystem c s lan log) in
  let f' := facts_of (mkSystem c' s' lan' (log ++ evs)) in
  sys_inv (mkSystem c s lan log) -> extends f f' -> client_tables_ok c' -> server_table_ok s' ->
  (forall id t, client_tasks c' !! id = Some t ->
     client_tasks c !! id = Some t /\ world_of evs id = [] \/ client_task_ok f' id t) ->
  (forall i t, server_tasks s' !! i = Some t -> server_tasks s !! i = Some t \/ server_task_ok f' i t) ->
  Forall (event_ok f') evs -> sys_inv (mkSystem c' s' lan' (log ++ evs)).
Proof.
  intros f f' (_ & _ & Hct & Hst & Hev) He Hc Hs Hct' Hst' Hev'. split_and!; [done|done| | |].
  - move=> id t Ht. destruct (Hct' id t Ht) as [[Hold Hw]|Hok]; [|done].
    apply (client_task_mono f); [done| |by apply Hct]. cbn [fa_log f f' facts_of sy_log]. by rw world_of_app Hw app_nil_r.
  - move=> i t Ht. destruct (Hst' i t Ht) as [Hold|Hok]; [|done]. apply (server_task_mono f); [done|by apply (Hst i)].
  - cbn [sy_log]. apply Forall_app. split; [|done]. by apply (events_mono f).
Qed.

(** The client's side changes at one task, whose address stays. *)
Lemma client_extends c s lan log id t t' lan' evs :
  client_tasks c !! id = Some t -> ct_peer_addr t' = ct_peer_addr t ->
  extends (facts_of (mkSystem c s lan log)) (facts_of (mkSystem (set_client_task c id t') s lan' (log ++ evs))).
Proof.
  move=> Ht Ha. split_and!; [|done|by exists evs]. move=> id' a. cbn.
  destruct (decide (id' = id)) as [->|Hn]; [|by rw lookup_insert_ne].
  by rw Ht lookup_insert_eq /= Ha.
Qed.

Lemma set_client_tables c id t t' :
  client_tasks c !! id = Some t -> ct_peer_addr t' = ct_peer_addr t -> client_tables_ok c ->
  client_tables_ok (set_client_task c id t').
Proof.
  intros Ht Ha (Hn & Hd & Haq & Hiq). split; [done|]. split_and!; [| |done].
  - move=> id'. cbn. destruct (decide (id' = id)) as [->|Hne]; [|rw lookup_insert_ne //; apply Hd].
    move=> _. apply Hd. by exists t.
  - intros a id' (t0 & Ht0 & Hat0)%Haq. cbn. destruct (decide (id' = id)) as [->|Hne].
    + exists t'. rw lookup_insert_eq. split; [done|]. rw Ht in Ht0. injection Ht0 as <-. by rw Ha.
    + exists t0. by rw lookup_insert_ne.
Qed.

Lemma set_client_ok c s lan log id t t' evs :
  let f' := facts_of (mkSystem (set_client_task c id t') s lan (log ++ evs)) in
  sys_inv (mkSystem c s lan log) -> client_tasks c !! id = Some t -> ct_peer_addr t' = ct_peer_addr t ->
  (forall id', id' <> id -> world_of evs id' = []) ->
  client_task_ok f' id t' -> Forall (event_ok f') evs ->
  sys_inv (mkSystem (set_client_task c id t') s lan (log ++ evs)).
Proof.
  move=> f' Hinv Ht Ha Hw Hok Hev. apply (inv_update c s lan log); [done|by eapply client_extends| | | |by left|done].
  - apply (set_client_tables c id t); [done|done|apply Hinv].
  - apply Hinv.
  - move=> id' t0. cbn. destruct (decide (id' = id)) as [->|Hne].
    + rw lookup_insert_eq. intros [= <-]. by right.
    + rw lookup_insert_ne //. move=> ?. left. split; [done|by apply Hw].
Qed.

Lemma log_udp c s lan log a data :
  sys_inv (mkSystem c s lan log) -> sys_inv (mkSystem c s lan (log ++ [UdpIn a data])).
Proof.
  move=> Hinv. apply (inv_update c s lan log); [done| |apply Hinv|apply Hinv|by left|by left|by repeat constructor].
  split_and!; [done|done|by exists [UdpIn a data]].
Qed.

Lemma push_client_ok c s lan log id data :
  sys_inv (mkSystem c s lan log) -> from_player (facts_of (mkSystem c s lan log)) id data ->
  sys_inv (mkSystem (push_client c id data) s lan log).
Proof.
  move=> Hinv Hp. rw /push_client. destruct (client_tasks c !! id) as [t|] eqn:Ht; [|done].
  set t' := mkClientTask _ _ _ _ _. rw -(app_nil_r log).
  have He := client_extends c s lan log id t t' lan [] Ht eq_refl.
  apply (set_client_ok c s lan log id t); [done|done|done|done| |constructor].
  destruct Hinv as (_ & _ & Hct & _). destruct (Hct id t Ht) as (Hi & Hc & Hs & Hst).
  apply (client_task_mono (facts_of (mkSystem c s lan log))); [done|by rw /= app_nil_r|].
  split_and!; [done|by apply queue_ok_send|done|done].
Qed.

Lemma push_server_ok c s lan log id data :
  sys_inv (mkSystem c s lan log) -> from_server (facts_of (mkSystem c s lan log)) id data ->
  sys_inv (mkSystem (push_server c id data) s lan log).
Proof.
  move=> Hinv Hp. rw /push_server. destruct (client_tasks c !! id) as [t|] eqn:Ht; [|done].
  set t' := mkClientTask _ _ _ _ _. rw -(app_nil_r log).
  have He := client_extends c s lan log id t t' lan [] Ht eq_refl.
  apply (set_client_ok c s lan log id t); [done|done|done|done| |constructor].
  destruct Hinv as (_ & _ & Hct & _). destruct (Hct id t Ht) as (Hi & Hc & Hs & Hst).
  apply (client_task_mono (facts_of (mkSystem c s lan log))); [done|by rw /= app_nil_r|].
  split_and!; [done|done|by apply queue_ok_send|done].
Qed.

Lemma world_of_unknown f log id :
  Forall (event_ok f) log -> fa_addr f id = None -> world_of log id = [].
Proof.
  move=> Hf Hn. rw /world_of. elim: Hf => [|e log' He _ IH] //. cbn [omap list_omap].
  destruct e as [a d|i d|id' [d|]|id' snd|i snd]; try done. destruct (decide (id' = id)) as [->|_]; [|done].
  cbn in He. rw Hn in He. by destruct He.
Qed.

Lemma new_peer_ok c s lan log a id c' :
  sys_inv (mkSystem c s lan log) -> new_peer c a = Ok (id, c') ->
  sys_inv (mkSystem c' s lan log) /\ exists t, client_tasks c' !! id = Some t /\ ct_peer_addr t = a.
Proof.
  move=> Hinv. rw /new_peer. case: Z.ltb_spec => // Hlt [= <- <-].
  destruct Hinv as ((Hn & Hd & Haq & Hiq) & Hsrv & Hct & Hst & Hev) eqn:Hi. clear Hi. cbn [sy_client sy_log] in *.
  have Hfresh : client_tasks c !! next_peer_id c = None.
  { destruct (client_tasks c !! next_peer_id c) eqn:E; [|done]. destruct (Hd (next_peer_id c)); [by exists c0|lia]. }
  split; [|eexists; cbn; rw lookup_insert_eq; done]. rw -(app_nil_r log).
  apply (inv_update c s lan log); [done| | |done| |by left|constructor].
  - split_and!; [|done|by exists []]. move=> id' a'. cbn.
    destruct (decide (id' = next_peer_id c)) as [->|Hne]; [by rw Hfresh|by rw lookup_insert_ne].
  - split; [cbn; lia|]. split_and!; cbn.
    + move=> id'. destruct (decide (id' = next_peer_id c)) as [->|Hne]; [lia|]. rw lookup_insert_ne //. move=> /Hd. lia.
    + move=> a' id'. destruct (decide (a' = a)) as [->|Hne].
      * rw lookup_insert_eq. intros [= <-]. rw lookup_insert_eq. by eexists.
      * rw lookup_insert_ne //. intros (t & Ht & Hat)%Haq. exists t. rw lookup_insert_ne //. move=> Heq. by rw -Heq Hfresh in Ht.
    + move=> id' q. destruct (decide (id' = next_peer_id c)) as [->|Hne]; [rw lookup_insert_eq; by intros [= <-]|].
      rw lookup_insert_ne //. apply Hiq.
  - move=> id' t. cbn. destruct (decide (id' = next_peer_id c)) as [->|Hne]; [|rw lookup_insert_ne //; by left].
    rw lookup_insert_eq. intros [= <-]. right. split_and!; [done|apply queue_ok_new|apply queue_ok_new|].
    cbn. rw app_nil_r. apply (world_of_unknown _ _ _ Hev). cbn. by rw Hfresh.
Qed.

Lemma client_udp_ok c s lan log a data c' :
  sys_inv (mkSystem c s lan log) -> client_udp_packet c a data = Ok c' ->
  sys_inv (mkSystem c' s lan (log ++ [UdpIn a data])).
Proof.
  move=> Hinv. rw /client_udp_packet. intros ([id c1] & Hq & [= <-])%bind_ok_inv.
  assert (sys_inv (mkSystem c1 s lan log) /\ exists t, client_tasks c1 !! id = Some t /\ ct_peer_addr t = a)
    as [Hinv1 (t & Ht & Ha)].
  { destruct (open_queue c a) as [id0|] eqn:Ho; [|by apply (new_peer_ok c)].
    injection Hq as -> ->. split; [done|]. destruct Hinv as ((_ & _ & Haq & _) & _). apply Haq. move: Ho. rw /open_queue.
    intros (i & Hi & (t & Ht & Hc)%bind_Some)%bind_Some. destruct (is_closed _); [done|]. by injection Hc as <-. }
  apply push_client_ok; [by apply log_udp|]. exists a. cbn. rw Ht /= Ha. split; [done|]. apply elem_of_app. right. by left.
Qed.

Lemma peer_id_range c s lan log id :
  sys_inv (mkSystem c s lan log) -> is_Some (fa_addr (facts_of (mkSystem c s lan log)) id) -> in_u 32 id.
Proof.
  intros ((Hn & Hd & _) & _) [a Ha]. cbn in Ha, Hn. destruct (client_tasks c !! id) eqn:Hc; [|done].
  destruct (Hd id) as [H1 H2]; [by eexists|]. cbn in H2. rw /in_u. lia.
Qed.

Lemma client_datagram_ok c s lan log i b c' :
  sys_inv (mkSystem c s lan log) -> ServerSent i (SendDatagram b) ∈ log -> client_datagram c b = Ok c' ->
  sys_inv (mkSystem c' s lan log).
Proof.
  move=> Hinv Hin. destruct (Hinv) as ((Hn & Hd & Haq & Hiq) & Hsrv & Hct & Hst & Hev).
  destruct (proj1 (Forall_forall _ _) Hev _ Hin) as (id & a & data & Hp & -> & Hf).
  have Hid : in_u 62 id.
  { cbn in Hp. destruct (server_tasks s !! i) as [t|] eqn:Ht; [|done]. injection Hp as <- _.
    destruct (Hst i t Ht) as (Ha & _). have := peer_id_range c s lan log _ Hinv Ha. rw /in_u. lia. }
  rw /client_datagram datagram_roundtrip // bind_ok. cbn [dg_peer_id dg_data].
  destruct (id_to_queue c !! id) as [q|] eqn:Hq; intros [= <-]; [|done].
  rw (Hiq id q Hq). apply push_server_ok; [done|]. by exists i, a.
Qed.

Lemma world_of_sent id id' sent : world_of (ClientSent id <$> sent) id' = [].
Proof. rw /world_of. by elim: sent. Qed.

(** A task of the client proxy takes a turn. *)
Lemma client_update_ok c s lan log id t t' input sent :
  let f0 := facts_of (mkSystem c s lan (log ++ input)) in
  sys_inv (mkSystem c s lan log) -> client_tasks c !! id = Some t ->
  ct_peer_addr t' = ct_peer_addr t -> ct_peer_id t' = id ->
  (forall id', id' <> id -> world_of input id' = []) -> Forall (event_ok f0) input ->
  queue_ok (from_player f0 id) (ct_client_receive_queue t') ->
  queue_ok (from_server f0 id) (ct_server_receive_queue t') -> client_state_ok (log ++ input) id (ct_phase t') ->
  Forall (fun x => event_ok f0 (ClientSent id x)) sent ->
  sys_inv (mkSystem (set_client_task c id t') s lan (log ++ input ++ (ClientSent id <$> sent))).
Proof.
  move=> f0 Hinv Ht Ha Hi Hw Hin Hc Hs Hst Hsent.
  have He : extends f0 (facts_of (mkSystem (set_client_task c id t') s lan (log ++ input ++ (ClientSent id <$> sent)))).
  { rw app_assoc. by apply (client_extends c s lan (log ++ input) id t). }
  apply (set_client_ok c s lan log id t); [done|done|done| | |].
  - move=> id' Hne. by rw world_of_app world_of_sent Hw.
  - apply (client_task_mono f0); [done| |by split_and!]. rw /f0. cbn [fa_log facts_of sy_log].
    by rw app_assoc (world_of_app (log ++ input)) world_of_sent app_nil_r.
  - apply Forall_app. split; [by apply (events_mono f0)|]. apply Forall_fmap. eapply Forall_impl; [exact Hsent|].
    move=> x. by apply event_ok_mono.
Qed.

Lemma client_turn_ok c s lan log id t t1 t' input sent working wdone st out :
  let f0 := facts_of (mkSystem c s lan (log ++ input)) in
  sys_inv (mkSystem c s lan log) -> client_tasks c !! id = Some t ->
  ct_peer_addr t1 = ct_peer_addr t -> ct_peer_id t1 = id ->
  (forall id', id' <> id -> world_of input id' = []) -> Forall (event_ok f0) input ->
  queue_ok (from_player f0 id) (ct_client_receive_queue t1) ->
  queue_ok (from_server f0 id) (ct_server_receive_queue t1) ->
  client_inv (world_of (log ++ input) id) st -> cp_world_data_done st = wdone ->
  Forall (fun p => event_ok f0 (ClientSent id (client_send t1 p))) out ->
  client_turn t1 working wdone (Ok (st, out)) = (t', sent) ->
  sys_inv (mkSystem (set_client_task c id t') s lan (log ++ input ++ (ClientSent id <$> sent))).
Proof.
  move=> f0 Hinv Ht Ha Hi Hw Hin Hc Hs Hst Hd Hout. rw /client_turn /send_all.
  have Hsent : Forall (fun x => event_ok f0 (ClientSent id x)) (client_send t1 <$> take working out).
  { apply Forall_fmap. by apply Forall_take. }
  destruct (bool_decide _); intros [= <- <-]; apply (client_update_ok c s lan log id t); try done.
  - by apply queue_ok_drop_receiver.
  - by apply queue_ok_drop_receiver.
Qed.

(** A response of the client proxy, as an event. *)
Lemma response_event (f : Facts) (t : ClientTask Q) id block :
  fa_addr f id = Some (ct_peer_addr t) -> block_complete (world_of (fa_log f) id) block ->
  event_ok f (ClientSent id (client_send t (block_response (world_of (fa_log f) id) block))).
Proof. move=> Ha Hb. split; [done|]. right. by exists block. Qed.

(** What is known of a task when some input has been logged. *)
Lemma client_task_facts c s lan log id t evs :
  let f0 := facts_of (mkSystem c s lan (log ++ evs)) in
  sys_inv (mkSystem c s lan log) -> client_tasks c !! id = Some t ->
  fa_addr f0 id = Some (ct_peer_addr t) /\ ct_peer_id t = id /\ in_u 32 id /\
  queue_ok (from_player f0 id) (ct_client_receive_queue t) /\
  queue_ok (from_server f0 id) (ct_server_receive_queue t) /\ client_state_ok log id (ct_phase t).
Proof.
  move=> f0 Hinv Ht. have Hid := peer_id_range c s lan log id Hinv ltac:(cbn; rw Ht; by eexists).
  destruct Hinv as (_ & _ & Hct & _). destruct (Hct id t Ht) as (Hi & Hc & Hs & Hst).
  have He0 : extends (facts_of (mkSystem c s lan log)) f0 by split_and!; [done|done|by eexists].
  split; [by cbn; rw Ht|]. split; [done|]. split; [done|]. split; [|split; [|done]].
  - eapply queue_ok_mono; [|exact Hc]. move=> b. by apply from_player_mono.
  - eapply queue_ok_mono; [|exact Hs]. move=> b. by apply from_server_mono.
Qed.

Lemma world_input_other id id' d : id' <> id -> world_of [WorldIn id d] id' = [].
Proof. move=> Hne. rw /world_of. cbn. destruct d as [d|]; [|done]. by rw decide_False. Qed.

(** The branch of the world data. *)
Lemma client_world_ok c s lan log id t st d now working t' sent :
  sys_inv (mkSystem c s lan log) -> client_tasks c !! id = Some t -> ct_phase t = ClientRunning st false ->
  client_turn t working (bool_decide (d = None)) (on_new_world_data st now d) = (t', sent) ->
  sys_inv (mkSystem (set_client_task c id t') s lan (log ++ [WorldIn id d] ++ (ClientSent id <$> sent))).
Proof.
  move=> Hinv Ht Hphase Hturn. set f0 := facts_of (mkSystem c s lan (log ++ [WorldIn id d])).
  destruct (client_task_facts c s lan log id t [WorldIn id d] Hinv Ht) as (Ha & Hi & _ & Hc & Hs & Hst).
  rw Hphase in Hst. destruct Hst as [Hsi Hsd].
  have Hin : Forall (event_ok f0) [WorldIn id d] by apply Forall_singleton; exists (ct_peer_addr t).
  have Hw id' : id' <> id -> world_of [WorldIn id d] id' = [] by apply world_input_other.
  destruct d as [d|].
  - destruct (on_world_data_ok _ st now d Hsi Hsd) as (st1 & ids & Heq & Hinv1 & Hd1 & Hids & _). rw Heq in Hturn.
    have Hwo : world_of (log ++ [WorldIn id (Some d)]) id = world_of log id ++ d.
    { rw world_of_app. f_equal. rw /world_of. cbn [omap list_omap concat]. rw decide_True //. cbn. by rw app_nil_r. }
    refine (client_turn_ok c s lan log id t _ t' _ sent _ _ _ _ Hinv Ht _ _ _ _ _ _ _ _ _ Hturn); try done; [by rw Hwo|].
    apply Forall_fmap. eapply Forall_impl; [exact Hids|]. move=> block Hb. rw /compose -Hwo in Hb |- *. by apply (response_event f0).
  - cbn [on_new_world_data] in Hturn.
    refine (client_turn_ok c s lan log id t _ t' _ sent _ _ _ _ Hinv Ht _ _ _ _ _ _ _ _ _ Hturn); try done.
    have -> : world_of (log ++ [WorldIn id None]) id = world_of log id by rw world_of_app app_nil_r.
    destruct Hsi as (H1 & H2 & H3 & H4 & H5 & H6). by split_and!.
Qed.

Lemma client_step_ok c s lan log id t choice now working t' sent :
  sys_inv (mkSystem c s lan log) -> client_tasks c !! id = Some t ->
  client_task_step t choice now working = Some (t', sent) ->
  sys_inv (mkSystem (set_client_task c id t') s lan (log ++ client_input id choice ++ (ClientSent id <$> sent))).
Proof.
  move=> Hinv Ht. destruct (client_task_facts c s lan log id t [] Hinv Ht) as (Ha & Hi & Hid & Hc & Hs & Hst).
  have Hret : Some (client_returns t, []) = Some (t', sent) ->
    sys_inv (mkSystem (set_client_task c id t') s lan (log ++ [] ++ (ClientSent id <$> sent))).
  { intros [= <- <-]. apply (client_update_ok c s lan log id t); try done; by apply queue_ok_drop_receiver. }
  rw /client_task_step. destruct (ct_phase t) as [|st wdone|] eqn:Hphase; [| |by destruct choice].
  - destruct choice as [[|]| | | |]; try done. intros [= <- <-].
    apply (client_update_ok c s lan log id t); try done.
    + cbn [client_state_ok ct_phase] in Hst |- *. rw app_nil_r Hst. split; [apply client_inv_new|done].
    + apply Forall_singleton. split; [|by exists (ct_peer_addr t)]. by rw Hi wrap_small.
  - destruct Hst as [Hsi Hsd]. rw -(app_nil_r log) in Hsi. destruct choice as [ok| | |d|]; try done.
    + destruct (recv (ct_client_receive_queue t)) as [data q| |] eqn:Hr; [|exact Hret|done].
      destruct (queue_ok_recv _ _ _ _ Hr Hc) as [Hdata Hq].
      destruct (on_client_packet_ok _ st now data Hsi) as (st1 & out & -> & Hinv1 & Hd1 & _ & Hout).
      intros Hturn%(inj Some).
      refine (client_turn_ok c s lan log id t _ t' [] sent _ _ _ _ Hinv Ht _ _ _ _ _ _ _ _ _ Hturn); try done; [by rw Hd1|].
      destruct (requested_block data) as [block|].
      * destruct Hout as [[Hb ->]|[-> _]]; [|constructor]. apply Forall_singleton.
        by apply (response_event (facts_of (mkSystem c s lan (log ++ [])))).
      * rw Hout. apply Forall_singleton. cbn [client_send snd fst ct_peer_id]. rw Hi. by exists data.
    + destruct (recv (ct_server_receive_queue t)) as [data q| |] eqn:Hr; [|exact Hret|done].
      destruct (queue_ok_recv _ _ _ _ Hr Hs) as [Hdata Hq]. intros Hturn%(inj Some).
      refine (client_turn_ok c s lan log id t _ t' [] sent _ _ _ _ Hinv Ht _ _ _ _ _ _ _ _ _ Hturn); try done.
      apply Forall_singleton. split; [done|by left].
    + destruct wdone; [done|]. intros Hturn%(inj Some). by apply (client_world_ok c s lan log id t st d now working).
Qed.

(** *** The server's side *)

(** The server's tasks change without losing one or changing its peer. *)
Lemma server_extends c s lan log s' evs :
  (forall i t, server_tasks s !! i = Some t -> exists t', server_tasks s' !! i = Some t' /\
     st_peer_id t' = st_peer_id t /\ st_factorio_addr t' = st_factorio_addr t) ->
  extends (facts_of (mkSystem c s lan log)) (facts_of (mkSystem c s' lan (log ++ evs))).
Proof.
  move=> Hs. split_and!; [done| |by exists evs]. move=> i p. cbn. destruct (server_tasks s !! i) as [t|] eqn:Ht; [|done].
  destruct (Hs i t Ht) as (t' & -> & H1 & H2). cbn. by rw H1 H2.
Qed.

Lemma server_update_ok c s lan log s' evs :
  let f' := facts_of (mkSystem c s' lan (log ++ evs)) in
  sys_inv (mkSystem c s lan log) -> server_table_ok s' ->
  (forall i t, server_tasks s !! i = Some t -> exists t', server_tasks s' !! i = Some t' /\
     st_peer_id t' = st_peer_id t /\ st_factorio_addr t' = st_factorio_addr t) ->
  (forall i t, server_tasks s' !! i = Some t -> server_tasks s !! i = Some t \/ server_task_ok f' i t) ->
  (forall id, world_of evs id = []) -> Forall (event_ok f') evs -> sys_inv (mkSystem c s' lan (log ++ evs)).
Proof.
  move=> f' Hinv Ht Hs Hok Hw Hev. apply (inv_update c s lan log); [done|by apply server_extends|apply Hinv|done| |done|done].
  move=> id t Hid. left. by split.
Qed.

(** One queue changes. *)
Lemma alter_queue_ok c s lan log i f :
  sys_inv (mkSystem c s lan log) ->
  (forall t, server_tasks s !! i = Some t ->
     queue_ok (from_player (facts_of (mkSystem c s lan log)) (st_peer_id t)) (f (st_receive_queue t))) ->
  sys_inv (mkSystem c (mkServerRouter (outgoing_queues s) (alter (map_queue f) i (server_tasks s))) lan log).
Proof.
  move=> Hinv Hf. set s' := mkServerRouter _ _. rw -(app_nil_r log). destruct (Hinv) as (_ & Htab & _ & Hst & _).
  have Hkeep j t : server_tasks s !! j = Some t -> exists t', server_tasks s' !! j = Some t' /\
     st_peer_id t' = st_peer_id t /\ st_factorio_addr t' = st_factorio_addr t.
  { move=> Ht. cbn. destruct (decide (i = j)) as [->|Hne].
    - rw list_lookup_alter_eq Ht. by exists (map_queue f t).
    - rw list_lookup_alter_ne // Ht. by exists t. }
  apply (server_update_ok c s lan log); [done| |done| |done|constructor].
  - intros id j (t & Ht & <-)%Htab. destruct (Hkeep j t Ht) as (t' & Ht' & Hp & _). by exists t'.
  - move=> j t. cbn. destruct (decide (i = j)) as [->|Hne]; [|rw list_lookup_alter_ne //; by left].
    rw list_lookup_alter_eq. destruct (server_tasks s !! j) as [t0|] eqn:Ht; [|done]. intros [= <-]. right.
    apply (server_task_mono (facts_of (mkSystem c s lan log))); [by apply server_extends|].
    destruct (Hst j t0 Ht) as (Ha & _ & Hp). split_and!; [done|by apply Hf|done].
Qed.

Lemma server_datagram_ok c s lan log id b s' :
  sys_inv (mkSystem c s lan log) -> ClientSent id (SendDatagram b) ∈ log -> server_datagram s b = Ok s' ->
  sys_inv (mkSystem c s' lan log).
Proof.
  move=> Hinv Hin. destruct (Hinv) as (_ & Htab & _ & Hst & Hev).
  destruct (proj1 (Forall_forall _ _) Hev _ Hin) as (data & -> & Hp).
  have Hid : in_u 32 id. { apply (peer_id_range c s lan log); [done|]. destruct Hp as (a & Ha & _). by exists a. }
  rw /server_datagram datagram_roundtrip; [rw /in_u in Hid *; lia|]. rw bind_ok. cbn [dg_peer_id dg_data].
  destruct (outgoing_queues s !! id) as [i|] eqn:Hq; intros [= <-]; [|done].
  apply alter_queue_ok; [done|]. move=> t Ht. destruct (Htab id i Hq) as (t0 & Ht0 & Hpid). cbn in Ht0.
  rw Ht in Ht0. injection Ht0 as <-. destruct (Hst i t Ht) as (_ & Hqok & _). apply queue_ok_send; [by rw Hpid|done].
Qed.

Lemma server_accept_ok c s lan log id b bound s' :
  sys_inv (mkSystem c s lan log) -> ClientSent id (OpenStream b) ∈ log ->
  server_accept opts (snd lan) s b bound = Ok s' -> sys_inv (mkSystem c s' lan log).
Proof.
  move=> Hinv Hin. destruct (Hinv) as (_ & _ & _ & _ & Hev).
  destruct (proj1 (Forall_forall _ _) Hev _ Hin) as [-> Ha].
  have Hid := peer_id_range c s lan log id Hinv Ha.
  rw /server_accept. have -> : read_exact 4 (put_u32_le id) = Ok (put_u32_le id, []) by done.
  rw bind_ok le_val_le_bytes //. intros (u & _ & [= <-])%bind_ok_inv.
  set tasks := match outgoing_queues s !! id with Some old => _ | None => _ end.
  have Hinv1 : sys_inv (mkSystem c (mkServerRouter (outgoing_queues s) tasks) lan log).
  { rw /tasks. destruct (outgoing_queues s !! id) as [old|]; [|by destruct s]. apply alter_queue_ok; [done|].
    move=> t Ht. apply queue_ok_drop_sender. destruct Hinv as (_ & _ & _ & Hst & _). by apply (Hst old). }
  clearbody tasks. set task := mkServerTask _ _ _ _. rw -(app_nil_r log).
  destruct (Hinv1) as (_ & Htab & _ & _ & _). cbn in Htab.
  apply (server_update_ok c (mkServerRouter (outgoing_queues s) tasks) lan log); [done| | | |done|constructor].
  - move=> id' i. cbn. destruct (decide (id' = id)) as [->|Hne].
    + rw lookup_insert_eq. intros [= <-]. exists task. by rw list_lookup_middle.
    + rw lookup_insert_ne //. intros (t & Ht & <-)%Htab. exists t. split; [|done]. by apply lookup_app_l_Some.
  - move=> i t Ht. cbn in Ht |- *. exists t. split; [|done]. by apply lookup_app_l_Some.
  - move=> i t. cbn. intros [Ht|[Hl Ht]]%lookup_app_Some; [by left|]. right.
    apply list_lookup_singleton_Some in Ht as [_ <-]. split_and!; [done|apply queue_ok_new|].
    intros st [= <-]. split; [apply proxy_inv_new|]. by split.
Qed.

Lemma world_of_server i sent id : world_of (ServerSent i <$> sent) id = [].
Proof. rw /world_of. by elim: sent. Qed.

Lemma server_turn_ok (f : Facts) i (t : ServerTask Q) working st out t' sent :
  server_task_ok f i t -> fa_peer f i = Some (st_peer_id t, st_factorio_addr t) ->
  proxy_inv st /\ filters (announced f i) st ->
  Forall (fun p => event_ok f (ServerSent i (server_send t p))) out -> server_turn t working st out = (t', sent) ->
  st_peer_id t' = st_peer_id t /\ st_factorio_addr t' = st_factorio_addr t /\ server_task_ok f i t' /\
  Forall (fun x => event_ok f (ServerSent i x)) sent.
Proof.
  intros (Ha & Hq & Hp) Hpeer Hst Hout. rw /server_turn /send_all.
  have Hsent : Forall (fun x => event_ok f (ServerSent i x)) (server_send t <$> take working out).
  { apply Forall_fmap. by apply Forall_take. }
  destruct (bool_decide _); intros [= <- <-]; (split; [done|]; split; [done|]; split; [|done]; split; [done|]).
  - split; [done|]. by intros st0 [= <-].
  - split; [|done]. by apply queue_ok_drop_receiver.
Qed.

(** A turn of a server task, in any log that holds its input. *)
Lemma server_step_facts (f : Facts) i (t : ServerTask Q) choice now working t' sent spawned :
  server_task_ok f i t -> fa_peer f i = Some (st_peer_id t, st_factorio_addr t) ->
  (forall data, choice = FactorioSocket (Some (data, st_factorio_addr t)) -> FactorioIn i data ∈ fa_log f) ->
  server_task_step t choice now working = Some (t', sent, spawned) ->
  st_peer_id t' = st_peer_id t /\ st_factorio_addr t' = st_factorio_addr t /\ server_task_ok f i t' /\
  Forall (fun x => event_ok f (ServerSent i x)) sent.
Proof.
  intros Hok Hpeer Hin. destruct (Hok) as (Ha & Hq & Hp).
  have Hret : Some (server_returns t, [], @None DownloadingWorldState) = Some (t', sent, spawned) ->
    st_peer_id t' = st_peer_id t /\ st_factorio_addr t' = st_factorio_addr t /\ server_task_ok f i t' /\
    Forall (fun x => event_ok f (ServerSent i x)) sent.
  { intros [= <- <- <-]. split; [done|]. split; [done|]. split; [|constructor]. split; [done|].
    split; [|done]. by apply queue_ok_drop_receiver. }
  rw /server_task_step. destruct (st_proxy_state t) as [st|] eqn:Hst; [|done]. destruct (Hp st eq_refl) as [Hpi Hfl].
  destruct choice as [[[data a]|]| |]; [|exact Hret| |exact Hret].
  - destruct (decide (a <> st_factorio_addr t)) as [_|Hn].
    { intros [= <- <- <-]. split; [done|]. split; [done|]. split; [|constructor]. split; [done|]. split; [done|].
      by rw Hst. }
    have Hd : FactorioIn i data ∈ fa_log f. { apply Hin. by destruct (decide (a = st_factorio_addr t)) as [->|]. }
    destruct (on_packet_ok st now data Hpi) as (st' & out & sp & Heq & Hpi' & _). rw Heq.
    destruct (server_turn t working st' out) as [t1 sent1] eqn:Hturn. intros [= <- <- <-].
    destruct (on_packet_from_server_out (announced f i) st now data st' out sp) as [Hout Hfl']; [done| |done|].
    { move=> w Hw. by exists data. }
    apply (server_turn_ok f i t working st' out); [done|done|done| |done].
    eapply Forall_impl; [exact Hout|].
    move=> [d dir]. rw /server_out. cbn [snd fst]. destruct dir; cbn [server_send snd fst event_ok].
    + move=> Hf. exists (st_peer_id t), (st_factorio_addr t), d. split_and!; [done|done|by exists data].
    + intros [block [= ->]]. exists (st_peer_id t). split; [done|]. right. by exists block.
  - destruct (recv (st_receive_queue t)) as [data q| |] eqn:Hr; [|exact Hret|done].
    destruct (queue_ok_recv _ _ _ _ Hr Hq) as [Hdata Hq'].
    set t0 := mkServerTask _ _ q _. destruct (server_turn t0 working st [(data, ToServer)]) as [t1 sent1] eqn:Hturn.
    intros [= <- <- <-]. apply (server_turn_ok f i t0 working st [(data, ToServer)]); [|done|done| |done].
    { split; [done|]. split; [done|]. by intros st0 [= <-]. }
    apply Forall_singleton. exists (st_peer_id t). split; [done|by left].
Qed.

Lemma server_step_ok c s lan log i t choice now working t' sent spawned :
  sys_inv (mkSystem c s lan log) -> server_tasks s !! i = Some t ->
  server_task_step t choice now working = Some (t', sent, spawned) ->
  sys_inv (mkSystem c (mkServerRouter (outgoing_queues s) (<[i := t']> (server_tasks s))) lan
    (log ++ server_input i t choice ++ (ServerSent i <$> sent))).
Proof.
  move=> Hinv Ht Hstep. destruct (Hinv) as (_ & Htab & _ & Hst & _). cbn in Htab.
  set f0 := facts_of (mkSystem c s lan (log ++ server_input i t choice)).
  have He0 : extends (facts_of (mkSystem c s lan log)) f0 by split_and!; [done|done|by eexists].
  destruct (server_step_facts f0 i t choice now working t' sent spawned) as (H1 & H2 & H3 & H4); [|by cbn; rw Ht| |done|].
  { apply (server_task_mono (facts_of (mkSystem c s lan log))); [done|by apply (Hst i)]. }
  { move=> data Hch. rw /f0 Hch. cbn. rw decide_True //. apply elem_of_app. right. by left. }
  have Hlt := lookup_lt_Some _ _ _ Ht.
  have Hkeep j t0 : server_tasks s !! j = Some t0 -> exists t1, <[i := t']> (server_tasks s) !! j = Some t1 /\
    st_peer_id t1 = st_peer_id t0 /\ st_factorio_addr t1 = st_factorio_addr t0.
  { move=> Ht0. destruct (decide (i = j)) as [<-|Hne]; [|exists t0; by rw list_lookup_insert_ne].
    exists t'. rw list_lookup_insert_eq //. rw Ht in Ht0. by injection Ht0 as <-. }
  have He : extends f0 (facts_of (mkSystem c (mkServerRouter (outgoing_queues s) (<[i := t']> (server_tasks s))) lan
      (log ++ server_input i t choice ++ (ServerSent i <$> sent)))).
  { rw app_assoc. by apply server_extends. }
  apply (server_update_ok c s lan log); [done| |exact Hkeep| | |].
  - intros id j (t0 & Ht0 & <-)%Htab. destruct (Hkeep j t0 Ht0) as (t1 & Ht1 & Hp1 & _). by exists t1.
  - move=> j t0. cbn. destruct (decide (i = j)) as [<-|Hne]; [|rw list_lookup_insert_ne //; by left].
    rw list_lookup_insert_eq //. intros [= <-]. right. by apply (server_task_mono f0).
  - move=> id. rw world_of_app world_of_server app_nil_r. destruct choice as [[[d a]|]| |]; try done.
    cbn. by destruct (decide _).
  - apply Forall_app. split; [|apply Forall_fmap; eapply Forall_impl; [exact H4|]; move=> x; by apply event_ok_mono].
    apply (events_mono f0); [done|]. destruct choice as [[[d a]|]| |]; cbn; try constructor.
    destruct (decide _); by repeat constructor.
Qed.

Lemma step_inv sys sys' : sys_inv sys -> step opts sys sys' -> sys_inv sys'.
Proof.
  move=> Hinv Hstep. destruct Hstep.
  - by apply (client_udp_ok c).
  - by apply (client_datagram_ok c s lan log i b).
  - by apply (client_step_ok c s lan log id t choice now working).
  - by apply (server_datagram_ok c s lan log id b).
  - by apply (server_accept_ok c s lan log id b bound).
  - by apply (server_step_ok c s lan log i t choice now working t' sent spawned).
  - exact Hinv.
Qed.

Lemma system_reachable_inv cell sys : reachable opts cell sys -> sys_inv sys.
Proof.
  have H0 : sys_inv (System_new cell).
  { split; [split_and!; cbn; try done; move=> id [t]; by rw lookup_empty|].
    split; [by move=> id i|]. split; [by move=> id t; rw lookup_empty|]. split; [by move=> i t|constructor]. }
  rw /reachable => Hr. elim: Hr H0 => [//|s1 s2 s3 Hs _ IH] Hi. apply IH. by apply (step_inv s1).
Qed.
End facts.

(** ** Properties *)

Section properties.
Context `{HV : VarInt} {HVS : VarIntSpec HV} `{HQ : Mpsc Q} {HQS : MpscSpec Q} `{HF : Memmem} {HFS : MemmemSpec HF}.
Context (opts : WorldOptions).

(** C6: the players are kept apart.  However the loops of the two proxies interleave and
    whatever the network loses, repeats or reorders: what the socket of a server task
    sends goes to the Factorio server, and is a packet that the player of this task sent,
    byte for byte, or a block request of the proxy itself; what a client task sends goes
    to the address of its player, and is a packet that the Factorio server sent to this
    player's socket, or a block of the world that was rebuilt for this player.  The packet is
    unchanged, byte for byte, or [filter_packet] replaced in it the metadata of a world that
    the Factorio server announced to this same socket by the metadata with the size that the
    proxy estimates. *)
Theorem players_isolated cell sys (Hreach : reachable (Q := Q) opts cell sys) :
  (forall i data dest, ServerSent i (SendUdp data dest) ∈ sy_log sys ->
     exists t, server_tasks (sy_server sys) !! i = Some t /\ dest = st_factorio_addr t /\
       ((exists ct, client_tasks (sy_client sys) !! st_peer_id t = Some ct /\ UdpIn (ct_peer_addr ct) data ∈ sy_log sys) \/
        exists block, data = fst (request_packet block))) /\
  (forall id data dest, ClientSent id (SendUdp data dest) ∈ sy_log sys ->
     exists ct, client_tasks (sy_client sys) !! id = Some ct /\ dest = ct_peer_addr ct /\
       ((exists i t data0, server_tasks (sy_server sys) !! i = Some t /\ st_peer_id t = id /\
           FactorioIn i data0 ∈ sy_log sys /\ filtered opts (facts_of sys) i data0 data) \/
        exists block, block_complete (world_of (sy_log sys) id) block /\
          data = fst (block_response (world_of (sy_log sys) id) block))).
Proof.
  destruct (system_reachable_inv opts cell sys Hreach) as (_ & _ & _ & _ & Hev). split.
  - move=> i data dest Hin. destruct (proj1 (Forall_forall _ _) Hev _ Hin) as (id & Hp & Hd). cbn in Hp.
    destruct (server_tasks (sy_server sys) !! i) as [t|]; [|done]. injection Hp as <- <-. exists t. split_and!; [done|done|].
    destruct Hd as [(a & Ha & Hl)|Hr]; [|by right]. left. cbn in Ha.
    destruct (client_tasks (sy_client sys) !! st_peer_id t) as [ct|]; [|done]. injection Ha as <-. by exists ct.
  - move=> id data dest Hin. destruct (proj1 (Forall_forall _ _) Hev _ Hin) as [Ha Hd]. cbn in Ha.
    destruct (client_tasks (sy_client sys) !! id) as [ct|]; [|done]. injection Ha as <-. exists ct. split_and!; [done|done|].
    destruct Hd as [(i & a & Hp & data0 & Hl & Hf)|Hr]; [|by right]. left. cbn in Hp.
    destruct (server_tasks (sy_server sys) !! i) as [t|] eqn:Ht; [|done]. injection Hp as <- _. by exists i, t, data0.
Qed.

Lemma open_queue_task c a id :
  open_queue (Q := Q) c a = Some id ->
  exists t, addr_to_queue c !! a = Some id /\ client_tasks c !! id = Some t /\ is_closed (ct_client_receive_queue t) = false.
Proof.
  rw /open_queue. intros (i & Hi & (t & Ht & Hc)%bind_Some)%bind_Some.
  destruct (is_closed _) eqn:Hcl; [done|]. injection Hc as <-. by exists t.
Qed.

(** A packet from a player goes into one queue.  In every reachable state: a packet
    from a known address whose task still runs is appended to this task's queue, or
    dropped when the queue is full; from another address it starts a new task, with a
    fresh id, and is the first packet in its queue; no other task changes.  The only error
    is that all 2^32 - 1 ids are used up. *)
Lemma udp_packet_routed cell sys (Hreach : reachable (Q := Q) opts cell sys) peer_addr data :
  let c := sy_client sys in
  match client_udp_packet c peer_addr data with
  | Ok c' => exists id t', client_tasks c' !! id = Some t' /\ ct_peer_addr t' = peer_addr /\
      (forall id', id' <> id -> client_tasks c' !! id' = client_tasks c !! id') /\
      match open_queue c peer_addr with
      | Some id0 => id0 = id /\ exists t, client_tasks c !! id = Some t /\
          let q := queued (ct_client_receive_queue t) in
          queued (ct_client_receive_queue t') = (if len q <? UDP_QUEUE_SIZE then q ++ [data] else q) /\
          ct_server_receive_queue t' = ct_server_receive_queue t /\ ct_phase t' = ct_phase t
      | None => client_tasks c !! id = None /\ queued (ct_client_receive_queue t') = [data]
      end
  | Err _ => open_queue c peer_addr = None /\ next_peer_id c = U32_MAX
  | Panic _ => False
  end.
Proof.
  destruct (system_reachable_inv opts cell sys Hreach) as ((Hn & Hd & Haq & _) & _ & Hct & _ & _).
  cbv zeta. set c := sy_client sys in Hn Hd Haq Hct *.
  rw /client_udp_packet. destruct (open_queue c peer_addr) as [id|] eqn:Ho.
  - destruct (open_queue_task c peer_addr id Ho) as (t & Ha & Ht & Hcl). rw bind_ok /push_client Ht.
    destruct (Hct id t Ht) as (_ & (Hcap & _) & _).
    exists id. eexists. cbn. rw lookup_insert_eq. split; [done|].
    split; [destruct (Haq _ _ Ha) as (t0 & Ht0 & Hat); rw Ht in Ht0; by injection Ht0 as <-|].
    split; [by move=> id' Hne; rw lookup_insert_ne|]. split; [done|]. exists t. split; [done|]. cbn.
    by rw try_send_queued Hcl Hcap.
  - rw /new_peer. case: Z.ltb_spec => Hlt; [split; [done|]; lia|]. rw bind_ok /push_client. cbn. rw lookup_insert_eq.
    destruct (mpsc_channel_new UDP_QUEUE_SIZE) as (Hq & Hc & Hcl); [done|].
    exists (next_peer_id c). eexists. rw lookup_insert_eq. split; [done|]. split; [done|]. split.
    + move=> id' Hne. by rw !lookup_insert_ne.
    + split; [|cbn; by rw try_send_queued Hq Hc Hcl].
      destruct (client_tasks c !! next_peer_id c) as [t|] eqn:Ht; [|done]. destruct (Hd (next_peer_id c)) as [_ Hb]; [by exists t|]. lia.
Qed.

(** C27: ids and queues stay within their bounds.  In every reachable state the next id
    fits 32 bits, every task has an id below it, which is its own, no queue holds more
    than 512 packets, and an address leads to a task of this very address. *)
Theorem routing_bounds cell sys (Hreach : reachable (Q := Q) opts cell sys) :
  let c := sy_client sys in
  0 <= next_peer_id c <= U32_MAX /\
  (forall id t, client_tasks c !! id = Some t -> ct_peer_id t = id /\ 0 <= id < next_peer_id c /\
     len (queued (ct_client_receive_queue t)) <= 512 /\ len (queued (ct_server_receive_queue t)) <= 512) /\
  (forall a id, addr_to_queue c !! a = Some id -> exists t, client_tasks c !! id = Some t /\ ct_peer_addr t = a) /\
  (forall i t, server_tasks (sy_server sys) !! i = Some t -> in_u 32 (st_peer_id t) /\ len (queued (st_receive_queue t)) <= 512).
Proof.
  pose proof (system_reachable_inv opts cell sys Hreach) as Hinv. destruct (Hinv) as ((Hn & Hd & Haq & _) & _ & Hct & Hst & _). cbv zeta.
  split; [done|]. split; [|split; [done|]].
  - move=> id t Ht. destruct (Hct id t Ht) as (Hi & (_ & Hc & _) & (_ & Hs & _) & _).
    split; [done|]. split; [apply Hd; by exists t|done].
  - move=> i t Ht. destruct (Hst i t Ht) as (Ha & (_ & Hq & _) & _). split; [|done].
    destruct sys as [c s lan log]. by apply (peer_id_range opts c s lan log).
Qed.

Lemma sent_ready q data :
  queued q = [] -> capacity q = UDP_QUEUE_SIZE -> is_closed q = false ->
  exists q', recv (try_send q data) = Received data q' /\ queued q' = [].
Proof.
  move=> Hq Hc Hcl. apply recv_ready; [by rw try_send_queued Hcl Hq Hc|by rw try_send_closed].
Qed.

Lemma forwarded_packet st now data :
  requested_block data = None -> exists st', on_packet_from_client st now data = Ok (st', [(data, ToServer)]).
Proof. move=> H. rw /on_packet_from_client H. by eexists. Qed.

(** C22: a player's packet gets through.  When the two tasks of a player run and have
    nothing else to do, a packet of the player that is no block request can go all the
    way: it is queued, sent as a datagram with the player's id, queued by the server
    proxy, and sent unchanged to the Factorio server from the socket of this player's
    task, in four turns and with nothing else sent on the way. *)
Theorem packet_reaches_factorio cell sys a id ct st wdone i t ss data
  (Hreach : reachable (Q := Q) opts cell sys)
  (Hopen : open_queue (sy_client sys) a = Some id)
  (Hct : client_tasks (sy_client sys) !! id = Some ct) (Hrun : ct_phase ct = ClientRunning st wdone)
  (Hcq : queued (ct_client_receive_queue ct) = [])
  (Hout : outgoing_queues (sy_server sys) !! id = Some i)
  (Ht : server_tasks (sy_server sys) !! i = Some t) (Hss : st_proxy_state t = Some ss)
  (Hsq : queued (st_receive_queue t) = []) (Hscl : is_closed (st_receive_queue t) = false)
  (Hdata : requested_block data = None) :
  exists sys', rtc (step opts) sys sys' /\
    sy_log sys' = sy_log sys ++ [UdpIn a data; ClientSent id (SendDatagram (Datagram_encode (mkDatagram id data)));
      ServerSent i (SendUdp data (st_factorio_addr t))].
Proof.
  pose proof (system_reachable_inv opts cell sys Hreach) as Hinv. destruct sys as [c s lan log]. cbn in *.
  destruct (open_queue_task c a id Hopen) as (ct' & _ & Hct' & Hcl). rw Hct in Hct'. injection Hct' as <-.
  destruct (Hinv) as (_ & _ & Hcok & Hsok & _).
  destruct (Hcok id ct Hct) as (Hid & (Hcap & _) & _). destruct (Hsok i t Ht) as (Haddr & (Hscap & _) & _).
  have Hid32 := peer_id_range opts c s lan log id Hinv ltac:(cbn; rw Hct; by eexists).
  destruct (sent_ready (ct_client_receive_queue ct) data Hcq Hcap Hcl) as (q1 & Hr1 & _).
  destruct (sent_ready (st_receive_queue t) data Hsq Hscap Hscl) as (q2 & Hr2 & _).
  destruct (forwarded_packet st 0 data Hdata) as (st' & Hfw).
  set ct1 := mkClientTask (ct_peer_id ct) (ct_peer_addr ct) (ct_server_receive_queue ct)
    (try_send (ct_client_receive_queue ct) data) (ct_phase ct).
  set c1 := set_client_task c id ct1.
  have H1 : step opts (mkSystem c s lan log) (mkSystem c1 s lan (log ++ [UdpIn a data])).
  { apply step_udp. rw /client_udp_packet Hopen bind_ok /push_client Hct. done. }
  set ct2 := mkClientTask (ct_peer_id ct) (ct_peer_addr ct) (ct_server_receive_queue ct) q1 (ClientRunning st' wdone).
  set b := Datagram_encode (mkDatagram id data).
  have H2 : step opts (mkSystem c1 s lan (log ++ [UdpIn a data]))
      (mkSystem (set_client_task c1 id ct2) s lan ((log ++ [UdpIn a data]) ++ [] ++ [ClientSent id (SendDatagram b)])).
  { apply (step_client_task opts c1 s lan _ id ct1 ClientQueue 0 1 ct2 [SendDatagram b]); [by rw /c1 lookup_insert_eq|].
    rw /client_task_step. cbn [ct1 ct_phase ct_client_receive_queue]. rw Hrun Hr1 /client_turn Hfw /send_all. cbn.
    by rw /ct2 Hid bool_decide_true. }
  set t1 := map_queue (fun q => try_send q data) t.
  set s1 := mkServerRouter (outgoing_queues s) (alter (map_queue (fun q => try_send q data)) i (server_tasks s)).
  have H3 : step opts (mkSystem (set_client_task c1 id ct2) s lan ((log ++ [UdpIn a data]) ++ [] ++ [ClientSent id (SendDatagram b)]))
      (mkSystem (set_client_task c1 id ct2) s1 lan ((log ++ [UdpIn a data]) ++ [] ++ [ClientSent id (SendDatagram b)])).
  { apply (step_datagram_up opts _ _ _ _ id b); [apply elem_of_app; right; by left|].
    rw /server_datagram /b datagram_roundtrip; [rw /in_u in Hid32 *; lia|]. by rw bind_ok Hout. }
  set t2 := mkServerTask (st_peer_id t) (st_factorio_addr t) q2 (Some ss).
  have H4 := step_server_task opts (set_client_task c1 id ct2) s1 lan
    ((log ++ [UdpIn a data]) ++ [] ++ [ClientSent id (SendDatagram b)]) i t1 ReceiveQueue 0 1 t2
    [SendUdp data (st_factorio_addr t)] None.
  eexists. split.
  - eapply rtc_l; [exact H1|]. eapply rtc_l; [exact H2|]. eapply rtc_l; [exact H3|]. apply rtc_once, H4.
    + rw /s1 list_lookup_alter_eq Ht. done.
    + rw /server_task_step. cbn. by rw Hss Hr2.
  - cbn. by rw -!app_assoc.
Qed.

(** C23: a packet of the Factorio server gets through.  When the two tasks of a player
    run and the player's has nothing else to do, every packet that the server proxy's
    state machine lets through to the client (the packet that came in, perhaps with the
    announced world replaced) can go all the way: it is sent as a datagram with the
    player's id, queued by the client proxy and sent unchanged to the player's address. *)
Theorem packet_reaches_player cell sys i t ss now data ss' out spawned p ct st wdone
  (Hreach : reachable (Q := Q) opts cell sys)
  (Ht : server_tasks (sy_server sys) !! i = Some t) (Hss : st_proxy_state t = Some ss)
  (Hon : on_packet_from_server ss now data = Ok (ss', out, spawned)) (Hp : (p, ToClient) ∈ out)
  (Hq : is_Some (id_to_queue (sy_client sys) !! st_peer_id t))
  (Hct : client_tasks (sy_client sys) !! st_peer_id t = Some ct) (Hrun : ct_phase ct = ClientRunning st wdone)
  (Hcq : queued (ct_server_receive_queue ct) = []) (Hcl : is_closed (ct_server_receive_queue ct) = false) :
  exists sys', rtc (step opts) sys sys' /\
    sy_log sys' = sy_log sys ++ FactorioIn i data :: (ServerSent i <$> (server_send t <$> out)) ++
      [ClientSent (st_peer_id t) (SendUdp p (ct_peer_addr ct))].
Proof.
  pose proof (system_reachable_inv opts cell sys Hreach) as Hinv. destruct sys as [c s lan log]. cbn in *.
  destruct (Hinv) as ((_ & _ & _ & Hids) & _ & Hcok & Hsok & _). destruct Hq as [id Hq]. have := Hids _ _ Hq. move=> ?. subst id.
  set id := st_peer_id t in Hq Hct *.
  destruct (Hcok id ct Hct) as (Hid & _ & (Hcap & _) & _).
  have Hid32 := peer_id_range opts c s lan log id Hinv ltac:(cbn; rw Hct; by eexists).
  destruct (sent_ready (ct_server_receive_queue ct) p Hcq Hcap Hcl) as (q1 & Hr1 & _).
  set t1 := mkServerTask id (st_factorio_addr t) (st_receive_queue t) (Some ss').
  set log1 := log ++ [FactorioIn i data] ++ (ServerSent i <$> (server_send t <$> out)).
  set s1 := mkServerRouter (outgoing_queues s) (<[i := t1]> (server_tasks s)).
  have H1 : step opts (mkSystem c s lan log) (mkSystem c s1 lan log1).
  { have Hst := step_server_task opts c s lan log i t (FactorioSocket (Some (data, st_factorio_addr t))) now (length out) t1
      (server_send t <$> out) spawned Ht. cbn [server_input] in Hst. rw decide_True // in Hst. apply Hst.
    rw /server_task_step Hss decide_False; [by move=> H|]. rw Hon /server_turn /send_all take_ge // bool_decide_true //. }
  set ct1 := mkClientTask (ct_peer_id ct) (ct_peer_addr ct) (try_send (ct_server_receive_queue ct) p)
    (ct_client_receive_queue ct) (ct_phase ct).
  set c1 := set_client_task c id ct1.
  have H2 : step opts (mkSystem c s1 lan log1) (mkSystem c1 s1 lan log1).
  { apply (step_datagram_down opts _ _ _ _ i (Datagram_encode (mkDatagram id p))).
    - rw /log1. apply elem_of_app. right. right. apply list_elem_of_fmap_2, (list_elem_of_fmap_2 (server_send t) _ (p, ToClient)), Hp.
    - rw /client_datagram datagram_roundtrip; [rw /in_u in Hid32 *; lia|]. rw bind_ok. cbn [dg_peer_id dg_data].
      by rw Hq /push_server Hct. }
  set ct2 := mkClientTask (ct_peer_id ct) (ct_peer_addr ct) q1 (ct_client_receive_queue ct) (ClientRunning st wdone).
  have H3 := step_client_task opts c1 s1 lan log1 id ct1 ServerQueue 0 1 ct2 [SendUdp p (ct_peer_addr ct)].
  eexists. split.
  - eapply rtc_l; [exact H1|]. eapply rtc_l; [exact H2|]. apply rtc_once, H3; [by rw /c1 lookup_insert_eq|].
    rw /client_task_step. cbn [ct1 ct_phase ct_server_receive_queue]. rw Hrun Hr1. done.
  - cbn. by rw /log1 -!app_assoc.
Qed.
End properties.

(** ** Witnesses *)

(** A channel as a list, its capacity and its two ends. *)
Record ListChannel := mkListChannel { lc_items : list bytes; lc_capacity : Z; lc_sender : bool; lc_receiver : bool }.

#[global] Instance list_channel : Mpsc ListChannel := {|
  mpsc_channel n := mkListChannel [] n true true;
  try_send q b :=
    if lc_receiver q && (len (lc_items q) <? lc_capacity q)
    then mkListChannel (lc_items q ++ [b]) (lc_capacity q) (lc_sender q) (lc_receiver q) else q;
  recv q :=
    match lc_items q with
    | b :: items => Received b (mkListChannel items (lc_capacity q) (lc_sender q) (lc_receiver q))
    | [] => if lc_sender q then Waiting else Disconnected
    end;
  is_closed q := negb (lc_receiver q);
  drop_sender q := mkListChannel (lc_items q) (lc_capacity q) false (lc_receiver q);
  drop_receiver q := mkListChannel [] (lc_capacity q) (lc_sender q) false;
|}.

#[global] Instance list_channel_spec : MpscSpec ListChannel.
Proof.
  refine {| queued := lc_items; capacity := lc_capacity |}; cbn.
  - done.
  - move=> q b. destruct (lc_receiver q); [|done]. by destruct (_ <? _).
  - move=> q b. by destruct (_ && _).
  - move=> q b. by destruct (_ && _).
  - move=> q b q'. destruct (lc_items q) as [|b' items]; [by destruct (lc_sender q)|]. by intros [= <- <-].
  - move=> q b rest -> _. by eexists.
  - done.
  - done.
Defined.

(** The eight-byte form of the integers. *)
Definition toy_varint : VarInt := {| varint_encode := put_u64; varint_decode := try_get_u64 |}.

Lemma toy_varint_spec : VarIntSpec toy_varint.
Proof. move=> z rest H. apply get_put_u64. rw /in_u in H *. lia. Qed.

Definition sample_factorio : SocketAddr := SockV4 2130706433 34197.
Definition sample_player : SocketAddr := SockV4 3232235777 50000.

(** A player's first packet, its task, its stream, and the turn that forwards the
    packet. *)
Definition sample_client : ClientRouter ListChannel :=
  match client_udp_packet (Q := ListChannel) ClientRouter_new sample_player [Byte.x02] with Ok c => c | _ => ClientRouter_new end.

Definition sample_task (q : list bytes) : ClientTask ListChannel :=
  mkClientTask 0 sample_player (mkListChannel [] 512 true true) (mkListChannel q 512 true true)
    (ClientRunning (ClientProxyState_new 0) false).

Definition sample_server : ServerRouter ListChannel :=
  match server_accept sample_opts sample_factorio (ServerRouter_new (Q := ListChannel)) (put_u32_le 0) (Ok tt) with
  | Ok s => s
  | _ => ServerRouter_new
  end.

Definition sample_datagram : bytes := @Datagram_encode toy_varint (mkDatagram 0 [Byte.x02]).

Definition sample_system : System ListChannel :=
  mkSystem (set_client_task (set_client_task sample_client 0 (sample_task [[Byte.x02]])) 0 (sample_task [])) sample_server
    (sample_factorio, sample_factorio)
    [UdpIn sample_player [Byte.x02]; ClientSent 0 (OpenStream (put_u32_le 0)); ClientSent 0 (SendDatagram sample_datagram)].

Abbreviation sample_reachable := (@reachable toy_varint ListChannel list_channel naive_memmem sample_opts sample_factorio).

Lemma sample_system_reachable : sample_reachable sample_system.
Proof.
  eapply rtc_l; [by apply (@step_udp toy_varint _ _ naive_memmem) with (peer_addr := sample_player) (data := [Byte.x02]) (c' := sample_client)|].
  eapply rtc_l; [by eapply (@step_client_task toy_varint _ _ naive_memmem) with (id := 0) (choice := StreamOpened true) (now := 0) (working := 1%nat)|].
  eapply rtc_l; [eapply (@step_accept toy_varint _ _ naive_memmem) with (id := 0) (bound := Ok tt) (s' := sample_server);
    [apply elem_of_app; right; by left|done]|].
  eapply rtc_l; [by eapply (@step_client_task toy_varint _ _ naive_memmem) with (id := 0) (choice := ClientQueue) (now := 0) (working := 1%nat)|].
  apply rtc_refl.
Qed.

(** The packet goes on to the Factorio server. *)
Definition sample_pushed : ServerRouter ListChannel :=
  match @server_datagram toy_varint _ _ sample_server sample_datagram with Ok s => s | _ => sample_server end.

Definition sample_server_task (q : list bytes) : ServerTask ListChannel :=
  mkServerTask 0 sample_factorio (mkListChannel q 512 true true) (Some (ServerProxyState_new sample_opts)).

Definition sample_delivered : System ListChannel :=
  mkSystem (sy_client sample_system)
    (mkServerRouter (outgoing_queues sample_pushed) (<[0%nat := sample_server_task []]> (server_tasks sample_pushed)))
    (sample_factorio, sample_factorio)
    (sy_log sample_system ++ [] ++ [ServerSent 0 (SendUdp [Byte.x02] sample_factorio)]).

Lemma sample_delivered_reachable : sample_reachable sample_delivered.
Proof.
  refine (transitivity sample_system_reachable _).
  apply (rtc_l _ _ (mkSystem (sy_client sample_system) sample_pushed (sample_factorio, sample_factorio) (sy_log sample_system))).
  { apply (@step_datagram_up toy_varint _ _ naive_memmem) with (id := 0) (b := sample_datagram).
    - by do 2 right; left.
    - by vm_compute. }
  apply rtc_once.
  by apply (@step_server_task toy_varint _ _ naive_memmem sample_opts _ sample_pushed _ _ 0%nat (sample_server_task [[Byte.x02]])
    ReceiveQueue 0 1 _ [SendUdp [Byte.x02] sample_factorio] None).
Qed.

Lemma players_isolated_witness :
  exists t, server_tasks (sy_server sample_delivered) !! 0%nat = Some t /\ sample_factorio = st_factorio_addr t /\
    ((exists ct, client_tasks (sy_client sample_delivered) !! st_peer_id t = Some ct /\
        UdpIn (ct_peer_addr ct) [Byte.x02] ∈ sy_log sample_delivered) \/
     exists block, [Byte.x02] = fst (request_packet block)).
Proof.
  destruct (@players_isolated toy_varint toy_varint_spec ListChannel _ _ naive_memmem naive_memmem_spec sample_opts
    sample_factorio sample_delivered sample_delivered_reachable) as [H _].
  apply H. do 3 right. by left.
Defined.

Lemma routing_bounds_witness : next_peer_id (sy_client sample_delivered) <= U32_MAX.
Proof.
  destruct (@routing_bounds toy_varint toy_varint_spec ListChannel _ _ naive_memmem naive_memmem_spec sample_opts
    sample_factorio sample_delivered sample_delivered_reachable) as ((_ & H) & _). exact H.
Defined.

Lemma packet_reaches_factorio_witness :
  exists sys', rtc (@step toy_varint ListChannel _ naive_memmem sample_opts) sample_delivered sys' /\
    ServerSent 0 (SendUdp [Byte.x07] sample_factorio) ∈ sy_log sys'.
Proof.
  destruct (@packet_reaches_factorio toy_varint toy_varint_spec ListChannel _ _ naive_memmem naive_memmem_spec sample_opts
    sample_factorio sample_delivered sample_player 0 (sample_task []) (ClientProxyState_new 0) false 0%nat
    (sample_server_task []) (ServerProxyState_new sample_opts) [Byte.x07] sample_delivered_reachable) as (sys' & Hr & Hl).
  - by vm_compute.
  - by vm_compute.
  - done.
  - done.
  - by vm_compute.
  - done.
  - done.
  - done.
  - done.
  - by vm_compute.
  - exists sys'. split; [exact Hr|]. rw Hl. apply elem_of_app. right. by do 2 right; left.
Defined.

Lemma packet_reaches_player_witness :
  exists sys', rtc (@step toy_varint ListChannel _ naive_memmem sample_opts) sample_delivered sys' /\
    ClientSent 0 (SendUdp [Byte.x05] sample_player) ∈ sy_log sys'.
Proof.
  destruct (@packet_reaches_player toy_varint toy_varint_spec ListChannel _ _ naive_memmem naive_memmem_spec sample_opts
    sample_factorio sample_delivered 0%nat (sample_server_task []) (ServerProxyState_new sample_opts) 5 [Byte.x05]
    (ServerProxyState_new sample_opts) [([Byte.x05], ToClient)] None [Byte.x05] (sample_task []) (ClientProxyState_new 0) false
    sample_delivered_reachable) as (sys' & Hr & Hl).
  - done.
  - done.
  - by vm_compute.
  - by left.
  - exists 0. by vm_compute.
  - by vm_compute.
  - done.
  - done.
  - done.
  - exists sys'. split; [exact Hr|]. rw Hl. apply elem_of_app. right. by do 2 right; left.
Defined.
