(* ===== verification/ZipWriter.v ===== *)
(** * The ZIP writer

    Models factorio-cacher/src/zip_writer.rs: local file entries, the central
    directory, and the offset that [advance_offset] moves past foreign bytes.
    A [usize] or [u64] is an integer; the [try_into().expect(..)] conversions to
    [u16] and [u32] are kept with their panics.  A file name is its UTF-8 bytes.

    Two third-party crates are parameters: [miniz_oxide]'s deflate ([Deflate]) and
    [crc] ([CrcImpl] of RevCrc, for [ZIP_CRC]).  [read_zip] is a reference reader
    after the ZIP file format (end record, central directory, local entries); the
    round trip is stated against it. *)

From Stdlib Require Import ssreflect.
From stdpp Require Import base numbers list strings.
From S2P Require Import Prelude Buf RevCrc.

#[local] Open Scope general_if_scope.

(** [miniz_oxide::deflate::compress_to_vec] *)
Class Deflate := compress_to_vec : bytes -> Z -> bytes.

(** ** The writer *)

Record ZipEntryMetadata := mkZipEntry {
  start_offset : Z;
  file_name : bytes;
  file_name_size : Z;
  compressed_size : Z;
  uncompressed_size : Z;
  compression_method : Z;
  data_crc : Z;
}.

Record ZipWriter := mkZipWriter {
  current_offset : Z;
  entries : list ZipEntryMetadata;
}.

Definition CENTRAL_DIRECTORY_ENTRY_SIZE : Z := 46.
Definition END_OF_CENTRAL_DIRECTORY_SIZE : Z := 22.

Definition ZipWriter_new : ZipWriter := mkZipWriter 0 [].

(** The local file header of an entry. *)
Definition local_header (e : ZipEntryMetadata) : bytes :=
  put_u32_le 0x04034b50 ++ put_u16_le 45 ++ put_u16_le 0 ++
  put_u16_le (compression_method e) ++ put_u16_le 0 ++ put_u16_le 0 ++
  put_u32_le (data_crc e) ++ put_u32_le (compressed_size e) ++ put_u32_le (uncompressed_size e) ++
  put_u16_le (file_name_size e) ++ put_u16_le 0 ++ file_name e.

Definition encode_file `{CrcImpl, Deflate} (zw : ZipWriter) (name file_data : bytes)
    (deflate_level : option Z) : result (ZipWriter * bytes) :=
  let '(final_data, method) :=
    match deflate_level with
    | Some level => (compress_to_vec file_data level, 8)
    | None => (file_data, 0)
    end in
  let crc := crc_checksum file_data in
  uncompressed_size ← try_into 32 (len file_data) "Zip entry uncompressed size didn't fit in u32";
  compressed_size ← try_into 32 (len final_data) "Zip entry compressed size didn't fit in u32";
  file_name_size ← try_into 16 (len name) "File name length didn't fit in u16";
  let entry := mkZipEntry (current_offset zw) name file_name_size
    compressed_size uncompressed_size method crc in
  let buf := local_header entry in
  Ok (mkZipWriter (current_offset zw + len buf + len final_data) (entries zw ++ [entry]),
      buf ++ final_data).

Definition advance_offset (zw : ZipWriter) (offset : Z) : ZipWriter :=
  mkZipWriter (current_offset zw + offset) (entries zw).

(** The body of the [for entry in &self.entries] loop. *)
Definition encode_central_entry (e : ZipEntryMetadata) : result bytes :=
  offset ← try_into 32 (start_offset e) "Entry offset didn't fit in u32";
  Ok (put_u32_le 0x02014b50 ++ put_u16_le 45 ++ put_u16_le 45 ++ put_u16_le 0 ++
      put_u16_le (compression_method e) ++ put_u16_le 0 ++ put_u16_le 0 ++
      put_u32_le (data_crc e) ++ put_u32_le (compressed_size e) ++ put_u32_le (uncompressed_size e) ++
      put_u16_le (file_name_size e) ++ put_u16_le 0 ++ put_u16_le 0 ++ put_u16_le 0 ++ put_u16_le 0 ++
      put_u32_le 0 ++ put_u32_le offset ++ file_name e).

Definition encode_central_directory (zw : ZipWriter) : result bytes :=
  central_directory_offset ←
    try_into 32 (current_offset zw) "Central directory offset didn't fit in u32";
  entry_count ← try_into 16 (len (entries zw)) "Entry count did not fit in u16";
  records ← collect encode_central_entry (entries zw);
  let buf := concat records in
  central_directory_size ← try_into 32 (len buf) "Central directory size didn't fit in u32";
  Ok (buf ++ put_u32_le 0x06054b50 ++ put_u16_le 0 ++ put_u16_le 0 ++
      put_u16_le entry_count ++ put_u16_le entry_count ++
      put_u32_le central_directory_size ++ put_u32_le central_directory_offset ++ put_u16_le 0).

Definition central_directory_size (zw : ZipWriter) : Z :=
  foldl (fun size e => size + (CENTRAL_DIRECTORY_ENTRY_SIZE + len (file_name e))) 0 (entries zw) +
  END_OF_CENTRAL_DIRECTORY_SIZE.

Definition current_size (zw : ZipWriter) : Z := current_offset zw.

Arguments local_header : simpl never.

(** ** A reference reader *)

Section reader.
Context `{CrcImpl} (inflate : bytes -> option bytes).

Definition expect_u32 (v : Z) (buf : bytes) : result (unit * bytes) :=
  '(x, buf) ← try_get_u32_le buf;
  if x =? v then Ok (tt, buf) else Err (Anyhow "bad signature").

(** One record of the central directory. *)
Definition read_central_entry (buf : bytes) : result (ZipEntryMetadata * bytes) :=
  '(_, buf) ← expect_u32 0x02014b50 buf;
  '(_, buf) ← try_get_u16_le buf;                     (* version made by *)
  '(_, buf) ← try_get_u16_le buf;                     (* version needed *)
  '(_, buf) ← try_get_u16_le buf;                     (* flags *)
  '(method, buf) ← try_get_u16_le buf;
  '(_, buf) ← try_get_u16_le buf;                     (* time *)
  '(_, buf) ← try_get_u16_le buf;                     (* date *)
  '(crc, buf) ← try_get_u32_le buf;
  '(csize, buf) ← try_get_u32_le buf;
  '(usize, buf) ← try_get_u32_le buf;
  '(name_size, buf) ← try_get_u16_le buf;
  '(extra_size, buf) ← try_get_u16_le buf;
  '(comment_size, buf) ← try_get_u16_le buf;
  '(_, buf) ← try_get_u16_le buf;                     (* disk *)
  '(_, buf) ← try_get_u16_le buf;                     (* internal attributes *)
  '(_, buf) ← try_get_u32_le buf;                     (* external attributes *)
  '(offset, buf) ← try_get_u32_le buf;
  '(name, buf) ← try_get_slice name_size buf;
  '(_, buf) ← try_get_slice (extra_size + comment_size) buf;
  Ok (mkZipEntry offset name name_size csize usize method crc, buf).

Fixpoint read_central_entries (count : nat) (buf : bytes) : result (list ZipEntryMetadata) :=
  match count with
  | O => Ok []
  | S count =>
      '(e, buf) ← read_central_entry buf;
      es ← read_central_entries count buf;
      Ok (e :: es)
  end.

(** The data of an entry, through its local header, with size and CRC checked. *)
Definition read_entry (archive : bytes) (e : ZipEntryMetadata) : result (bytes * bytes) :=
  let buf := zdrop (start_offset e) archive in
  '(_, buf) ← expect_u32 0x04034b50 buf;
  '(_, buf) ← try_get_u16_le buf;                     (* version needed *)
  '(_, buf) ← try_get_u16_le buf;                     (* flags *)
  '(_, buf) ← try_get_u16_le buf;                     (* method *)
  '(_, buf) ← try_get_u16_le buf;                     (* time *)
  '(_, buf) ← try_get_u16_le buf;                     (* date *)
  '(_, buf) ← try_get_u32_le buf;                     (* CRC *)
  '(_, buf) ← try_get_u32_le buf;                     (* compressed size *)
  '(_, buf) ← try_get_u32_le buf;                     (* uncompressed size *)
  '(name_size, buf) ← try_get_u16_le buf;
  '(extra_size, buf) ← try_get_u16_le buf;
  '(name, buf) ← try_get_slice name_size buf;
  '(_, buf) ← try_get_slice extra_size buf;
  '(payload, _) ← try_get_slice (compressed_size e) buf;
  data ← (if compression_method e =? 8 then ok_or (inflate payload) (LibError "inflate")
          else if compression_method e =? 0 then Ok payload
          else Err (Anyhow "unknown method"));
  if bool_decide (name = file_name e) && (len data =? uncompressed_size e) &&
     (crc_checksum data =? data_crc e)
  then Ok (name, data) else Err (Anyhow "corrupt entry").

Definition read_zip (archive : bytes) : result (list (bytes * bytes)) :=
  let buf := zdrop (len archive - END_OF_CENTRAL_DIRECTORY_SIZE) archive in
  '(_, buf) ← expect_u32 0x06054b50 buf;
  '(_, buf) ← try_get_u16_le buf;                     (* this disk *)
  '(_, buf) ← try_get_u16_le buf;                     (* disk of the directory *)
  '(count, buf) ← try_get_u16_le buf;
  '(_, buf) ← try_get_u16_le buf;
  '(size, buf) ← try_get_u32_le buf;
  '(offset, buf) ← try_get_u32_le buf;
  es ← read_central_entries (Z.to_nat count) (ztake size (zdrop offset archive));
  collect (read_entry archive) es.
End reader.

(** The law of the deflate encoder: a decoder undoes it, at every level. *)
Class DeflateSpec (D : Deflate) (inflate : bytes -> option bytes) : Prop :=
  inflate_compress : forall data level, inflate (compress_to_vec data level) = Some data.

(** ** Sizes *)

Lemma length_local_header e : len (local_header e) = 30 + len (file_name e).
Proof. rw /local_header. len_norm. lia. Qed.

Definition central_entry (e : ZipEntryMetadata) : bytes :=
  put_u32_le 0x02014b50 ++ put_u16_le 45 ++ put_u16_le 45 ++ put_u16_le 0 ++
  put_u16_le (compression_method e) ++ put_u16_le 0 ++ put_u16_le 0 ++
  put_u32_le (data_crc e) ++ put_u32_le (compressed_size e) ++ put_u32_le (uncompressed_size e) ++
  put_u16_le (file_name_size e) ++ put_u16_le 0 ++ put_u16_le 0 ++ put_u16_le 0 ++ put_u16_le 0 ++
  put_u32_le 0 ++ put_u32_le (start_offset e) ++ file_name e.
#[global] Arguments central_entry : simpl never.

Lemma encode_central_entry_inv e b :
  encode_central_entry e = Ok b -> b = central_entry e /\ start_offset e < 2 ^ 32.
Proof. rw /encode_central_entry. by intros (x & [-> H]%try_into_inv & [= <-])%bind_ok_inv. Qed.

Lemma length_central_entry e :
  len (central_entry e) = CENTRAL_DIRECTORY_ENTRY_SIZE + len (file_name e).
Proof. rw /central_entry /CENTRAL_DIRECTORY_ENTRY_SIZE. len_norm. lia. Qed.

Definition end_record (count size offset : Z) : bytes :=
  put_u32_le 0x06054b50 ++ put_u16_le 0 ++ put_u16_le 0 ++
  put_u16_le count ++ put_u16_le count ++ put_u32_le size ++ put_u32_le offset ++ put_u16_le 0.
#[global] Arguments end_record : simpl never.

Lemma length_end_record count size offset :
  len (end_record count size offset) = END_OF_CENTRAL_DIRECTORY_SIZE.
Proof. rw /end_record /END_OF_CENTRAL_DIRECTORY_SIZE. len_norm. lia. Qed.

Lemma collect_central es rs :
  collect encode_central_entry es = Ok rs ->
  rs = central_entry <$> es /\ Forall (fun e => start_offset e < 2 ^ 32) es.
Proof.
  move=> /collect_ok_inv. elim; [done|].
  move=> e b es' rs' /encode_central_entry_inv [-> He] _ [-> Hes]. split; [done|by constructor].
Qed.

Lemma encode_central_directory_inv zw b :
  encode_central_directory zw = Ok b ->
  let records := concat (central_entry <$> entries zw) in
  b = records ++ end_record (len (entries zw)) (len records) (current_offset zw) /\
  current_offset zw < 2 ^ 32 /\ len (entries zw) < 2 ^ 16 /\ len records < 2 ^ 32 /\
  Forall (fun e => start_offset e < 2 ^ 32) (entries zw).
Proof.
  rw /encode_central_directory.
  intros (off & [-> Hoff]%try_into_inv & (cnt & [-> Hcnt]%try_into_inv &
    (rs & [-> Hes]%collect_central & (sz & [-> Hsz]%try_into_inv & [= <-])%bind_ok_inv)%bind_ok_inv)%bind_ok_inv)%bind_ok_inv.
  by split_and!.
Qed.

Lemma length_records es :
  len (concat (central_entry <$> es)) =
  foldl (fun size e => size + (CENTRAL_DIRECTORY_ENTRY_SIZE + len (file_name e))) 0 es.
Proof.
  have H : forall acc, foldl (fun size e => size + (CENTRAL_DIRECTORY_ENTRY_SIZE + len (file_name e))) acc es =
    acc + len (concat (central_entry <$> es)).
  { elim: es => [|e es IH] acc; first by rw /= Z.add_0_r.
    cbn [foldl fmap list_fmap concat]. rw IH length_app Nat2Z.inj_add length_central_entry. lia. }
  by rw H.
Qed.

Lemma central_directory_size_ok zw b :
  encode_central_directory zw = Ok b -> len b = central_directory_size zw.
Proof.
  move=> /encode_central_directory_inv [-> _].
  by rw length_app Nat2Z.inj_add length_end_record /central_directory_size length_records.
Qed.

(** ** Reading back *)

Definition entry_ok (e : ZipEntryMetadata) : Prop :=
  in_u 16 (compression_method e) /\ in_u 32 (data_crc e) /\ in_u 32 (compressed_size e) /\
  in_u 32 (uncompressed_size e) /\ in_u 16 (file_name_size e) /\ file_name_size e = len (file_name e) /\
  0 <= start_offset e.

Lemma expect_u32_ok v rest : in_u 32 v -> expect_u32 v (put_u32_le v ++ rest) = Ok (tt, rest).
Proof. move=> H. by rw /expect_u32 get_put_u32_le // bind_ok Z.eqb_refl. Qed.

Section read_bind.
Context {A : Type} (rest : bytes) (z : Z).

Lemma expect_u32_bind (f : unit * bytes -> result A) :
  in_u 32 z -> (expect_u32 z (put_u32_le z ++ rest) ≫= f) = f (tt, rest).
Proof. move=> H. by rw expect_u32_ok. Qed.
Lemma get_u16_bind (f : Z * bytes -> result A) :
  in_u 16 z -> (try_get_u16_le (put_u16_le z ++ rest) ≫= f) = f (z, rest).
Proof. move=> H. by rw get_put_u16_le. Qed.
Lemma get_u32_bind (f : Z * bytes -> result A) :
  in_u 32 z -> (try_get_u32_le (put_u32_le z ++ rest) ≫= f) = f (z, rest).
Proof. move=> H. by rw get_put_u32_le. Qed.
End read_bind.

(** Read the fields at the front of a record that was written field by field. *)
Ltac in_range := first [assumption | by vm_compute].
Ltac read_fields :=
  repeat (first [ rewrite -> get_u16_bind by in_range | rewrite -> get_u32_bind by in_range
                | rewrite -> expect_u32_bind by in_range ]; cbv beta iota).

Lemma read_central_entry_ok e rest :
  entry_ok e -> start_offset e < 2 ^ 32 ->
  read_central_entry (central_entry e ++ rest) = Ok (e, rest).
Proof.
  intros (Hm & Hc & Hcs & Hus & Hns & Hname & Hoff) Hoff'.
  have Ho : in_u 32 (start_offset e) by split.
  rw /read_central_entry /central_entry -!app_assoc. read_fields.
  rewrite -> try_get_slice_app by done. rw bind_ok /=. rw -[rest]app_nil_l try_get_slice_app // bind_ok.
  by destruct e.
Qed.

Lemma read_central_entries_ok es rest :
  Forall entry_ok es -> Forall (fun e => start_offset e < 2 ^ 32) es ->
  read_central_entries (length es) (concat (central_entry <$> es) ++ rest) = Ok es.
Proof.
  elim: es => [|e es IH] // /Forall_cons [He Hes] /Forall_cons [Ho Hos].
  cbn [fmap list_fmap concat length read_central_entries]. rw -app_assoc read_central_entry_ok // bind_ok.
  by rw IH // bind_ok.
Qed.

Section roundtrip.
Context `{C : CrcImpl} {CS : CrcSpec C}.
Context `{D : Deflate} {inflate : bytes -> option bytes} {DS : DeflateSpec D inflate}.

(** The archive holds the file's local entry where the directory says. *)
Definition entry_at (archive : bytes) (e : ZipEntryMetadata) (file : bytes * bytes) : Prop :=
  entry_ok e /\ start_offset e <= len archive /\ file_name e = fst file /\
  len (snd file) = uncompressed_size e /\ crc_checksum (snd file) = data_crc e /\
  exists payload post, zdrop (start_offset e) archive = local_header e ++ payload ++ post /\
    len payload = compressed_size e /\
    (compression_method e = 8 /\ inflate payload = Some (snd file) \/
     compression_method e = 0 /\ payload = snd file).

Lemma entry_at_app archive more e file : entry_at archive e file -> entry_at (archive ++ more) e file.
Proof.
  intros (He & Ho & Hn & Hu & Hc & payload & post & Hd & Hp & Hm).
  split_and!; try done; [len_lia|]. exists payload, (post ++ more). split_and!; try done.
  rw zdrop_app_le // Hd. by rw -!app_assoc.
Qed.

Lemma read_entry_ok archive e file :
  entry_at archive e file -> read_entry inflate archive e = Ok file.
Proof.
  intros (He & Ho & Hn & Hu & Hc & payload & post & Hd & Hp & Hm).
  destruct He as (Hcm & Hcr & Hcs & Hus & Hns & Hname & Hoff).
  rw /read_entry Hd /local_header -!app_assoc. read_fields.
  rewrite -> try_get_slice_app by done. rw bind_ok.
  rw -[payload ++ post]app_nil_l try_get_slice_app // bind_ok try_get_slice_app // bind_ok.
  have -> : (if compression_method e =? 8 then ok_or (inflate payload) (LibError "inflate")
     else if compression_method e =? 0 then Ok payload else Err (Anyhow "unknown method")) = Ok (snd file).
  { destruct Hm as [[-> Hi]|[-> ->]]; [|done]. cbn. by rw Hi. }
  rw bind_ok bool_decide_true // Hu Hc !Z.eqb_refl /= Hn. by destruct file.
Qed.

(** What was written so far, with its directory. *)
Definition zip_ok (zw : ZipWriter) (body : bytes) (files : list (bytes * bytes)) : Prop :=
  current_offset zw = len body /\ Forall2 (entry_at body) (entries zw) files.

Lemma zip_ok_new : zip_ok ZipWriter_new [] [].
Proof. split; [done|constructor]. Qed.

Lemma crc_checksum_range data : in_u 32 (crc_checksum data).
Proof.
  apply in_u_lxor; [lia| |apply crc_xorout_range]. apply crc_update_range, crc_init_range.
Qed.

Lemma zip_ok_append zw body files more :
  zip_ok zw body files -> zip_ok (advance_offset zw (len more)) (body ++ more) files.
Proof.
  intros [Ho He]. split; cbn; [len_lia|]. eapply Forall2_impl; [exact He|].
  intros. by apply entry_at_app.
Qed.

Lemma encode_file_ok zw body files name data level zw' b :
  zip_ok zw body files -> encode_file zw name data level = Ok (zw', b) ->
  zip_ok zw' (body ++ b) (files ++ [(name, data)]).
Proof.
  intros Hzip. rw /encode_file.
  set fd := match level with Some l => (compress_to_vec data l, 8) | None => (data, 0) end.
  destruct fd as [final method] eqn:Hfd.
  intros (us & [-> Hus]%try_into_inv & (cs & [-> Hcs]%try_into_inv &
    (ns & [-> Hns]%try_into_inv & [<- <-]%ok_pair_inj)%bind_ok_inv)%bind_ok_inv)%bind_ok_inv.
  set e := mkZipEntry _ _ _ _ _ _ _.
  have Hm : method = 8 /\ inflate final = Some data \/ method = 0 /\ final = data.
  { rw /fd in Hfd. destruct level; injection Hfd as <- <-; [left|by right]. split; [done|apply inflate_compress]. }
  have [Ho He] := zip_ok_append _ _ _ (local_header e ++ final) Hzip.
  split; cbn [current_offset entries].
  { have [Hb _] := Hzip. rw !length_app. lia. }
  apply Forall2_app; [exact He|]. constructor; [|constructor].
  have Hoff : start_offset e = len body by destruct Hzip.
  have Hmr : in_u 16 method by destruct Hm as [[-> _]|[-> _]].
  split_and!; try done.
  - pose proof (crc_checksum_range data). rw /entry_ok Hoff. rw /in_u in H Hmr *. cbn. lia.
  - rw Hoff. len_lia.
  - exists final, []. rw Hoff zdrop_app // app_nil_r. by split_and!.
Qed.

Lemma read_zip_ok zw body files cd :
  zip_ok zw body files -> encode_central_directory zw = Ok cd ->
  read_zip inflate (body ++ cd) = Ok files.
Proof.
  intros [Ho He] Hcd. destruct (encode_central_directory_inv zw cd Hcd) as (-> & Hoff & Hcnt & Hsz & Hos).
  set records := concat _ in Hsz *. rw /read_zip.
  set er := end_record _ _ _. have Hel := length_end_record (len (entries zw)) (len records) (current_offset zw).
  rw -/er in Hel. rw (app_assoc body) zdrop_app; [rw length_app; lia|].
  rw /er /end_record. have H1 : in_u 16 (len (entries zw)) by split; [lia|].
  have H2 : in_u 32 (len records) by split; [lia|].
  have H3 : in_u 32 (current_offset zw) by rw Ho; split; [lia|rw -Ho].
  read_fields. rw Nat2Z.id -/(end_record (len (entries zw)) (len records) (current_offset zw)) -/er.
  rw -app_assoc zdrop_app // ztake_app // -(app_nil_r records) read_central_entries_ok //.
  { clear -He. elim: He => [|e f es fs [Hef _] _ IH]; by constructor. }
  rw bind_ok app_nil_r. clear -He. move: He.
  set arch := body ++ records ++ er. move=> He.
  have {}He : Forall2 (entry_at arch) (entries zw) files.
  { eapply Forall2_impl; [exact He|]. intros. by apply entry_at_app. }
  elim: He => [|e f es fs Hef _ IH] //. cbn [collect]. rw (read_entry_ok arch e f Hef) bind_ok IH. by rw bind_ok.
Qed.
End roundtrip.

(** ** Archives *)

(** The files of an archive, one after the other. *)
Fixpoint encode_files `{CrcImpl, Deflate} (zw : ZipWriter) (files : list (bytes * bytes * option Z))
  : result (ZipWriter * bytes) :=
  match files with
  | [] => Ok (zw, [])
  | (name, data, level) :: files =>
      '(zw, b) ← encode_file zw name data level;
      '(zw, bs) ← encode_files zw files;
      Ok (zw, b ++ bs)
  end.

Lemma central_directory_total zw :
  current_offset zw < 2 ^ 32 -> len (entries zw) < 2 ^ 16 -> central_directory_size zw < 2 ^ 32 ->
  Forall (fun e => start_offset e <= current_offset zw) (entries zw) ->
  exists cd, encode_central_directory zw = Ok cd.
Proof.
  move=> Ho Hc Hs He. rw /encode_central_directory.
  rewrite -> try_into_bind by lia. rewrite -> try_into_bind by lia. rw (collect_ok _ central_entry).
  { move=> e Hin. have := proj1 (Forall_forall _ _) He e Hin. cbn beta => ?.
    rw /encode_central_entry. by rewrite -> try_into_ok by lia. }
  rw bind_ok. cbv zeta. rewrite -> try_into_bind; [by eexists|].
  rw length_records. rw /central_directory_size /END_OF_CENTRAL_DIRECTORY_SIZE in Hs. lia.
Qed.

Section archives.
Context `{C : CrcImpl} {CS : CrcSpec C}.
Context `{D : Deflate} {inflate : bytes -> option bytes} {DS : DeflateSpec D inflate}.

Lemma encode_files_ok files zw body prev zw' bs :
  zip_ok (inflate := inflate) zw body prev -> encode_files zw files = Ok (zw', bs) ->
  zip_ok (inflate := inflate) zw' (body ++ bs) (prev ++ (fst <$> files)).
Proof.
  elim: files zw body prev bs => [|[[name data] level] files IH] zw body prev bs Hok; cbn [encode_files].
  { intros [<- <-]%ok_pair_inj. by rw !app_nil_r. }
  intros ([zw1 b1] & H1 & ([zw2 b2] & H2 & [<- <-]%ok_pair_inj)%bind_ok_inv)%bind_ok_inv.
  rw app_assoc. cbn [fmap list_fmap fst]. rw (cons_middle (name, data)) app_assoc.
  by eapply IH; [eapply encode_file_ok|].
Qed.

(** C19: the archive is readable and complete.  For any files, encoded one after
    the other, any foreign bytes that follow (the padding and the forged CRC) and
    the central directory written after [advance_offset] over them, a reader that
    follows the ZIP format finds exactly these files, in order, with their names
    and contents, sizes and CRCs checked; and the directory has the size that
    [central_directory_size] announced beforehand. *)
Theorem zip_roundtrip files pad zw body cd
  (Hfiles : encode_files ZipWriter_new files = Ok (zw, body))
  (Hcd : encode_central_directory (advance_offset zw (len pad)) = Ok cd) :
  read_zip inflate (body ++ pad ++ cd) = Ok (fst <$> files) /\
  len cd = central_directory_size zw /\ current_size zw = len body.
Proof.
  have Hok := encode_files_ok files ZipWriter_new [] [] zw body zip_ok_new Hfiles. cbn [app] in Hok.
  split_and!.
  - rw app_assoc. eapply read_zip_ok; [by apply zip_ok_append|done].
  - by rw (central_directory_size_ok _ _ Hcd).
  - by destruct Hok.
Qed.
End archives.

(** [stored] blocks: a deflate encoder that does not compress. *)
Definition stored_deflate : Deflate := fun data _ => Byte.x01 :: data.
Definition stored_inflate (b : bytes) : option bytes :=
  match b with Byte.x01 :: data => Some data | _ => None end.
Lemma stored_deflate_spec : DeflateSpec stored_deflate stored_inflate.
Proof. done. Qed.

Definition sample_files : list (bytes * bytes * option Z) :=
  [([Byte.x61], [Byte.x01; Byte.x02; Byte.x03], Some 1); ([Byte.x62; Byte.x63], [Byte.x09], None)].

Lemma zip_roundtrip_witness :
  exists zw body cd,
    @encode_files iso_hdlc stored_deflate ZipWriter_new sample_files = Ok (zw, body) /\
    encode_central_directory (advance_offset zw (len [Byte.x00; Byte.x00])) = Ok cd /\
    @read_zip iso_hdlc stored_inflate (body ++ [Byte.x00; Byte.x00] ++ cd) = Ok (fst <$> sample_files) /\
    len cd = central_directory_size zw /\ current_size zw = len body.
Proof.
  destruct (@encode_files iso_hdlc stored_deflate ZipWriter_new sample_files) as [[zw body]| |] eqn:Hf;
    [|by vm_compute in Hf..].
  destruct (encode_central_directory (advance_offset zw (len [Byte.x00; Byte.x00]))) as [cd| |] eqn:Hcd.
  - exists zw, body, cd. split; [done|]. split; [done|].
    exact (@zip_roundtrip iso_hdlc iso_hdlc_spec stored_deflate stored_inflate stored_deflate_spec
             sample_files _ zw body cd Hf Hcd).
  - exfalso. vm_compute in Hf. injection Hf as <- <-. by vm_compute in Hcd.
  - exfalso. vm_compute in Hf. injection Hf as <- <-. by vm_compute in Hcd.
Defined.
