(* ===== verification/FactorioWorld.v ===== *)
(** * Worlds: deconstruction and reconstruction

    Models factorio-cacher/src/factorio_world.rs and the part of
    [transfer_world_data] in proxy/client_proxy.rs that drives it: the world
    archive is taken apart into deduplicated files, and rebuilt as an archive of
    the announced size and CRC, followed by the auxiliary data, both padded to
    whole 503-byte blocks.

    Third-party code is a parameter: the archive reader [zip::ZipArchive]
    ([ZipReader]), [miniz_oxide] ([Deflate], [Zlib]), [crc] ([CrcImpl]) and
    [blake3] ([Blake3]).  The [u32] and [usize] computations wrap, as in a release
    build; [BytesMut::resize] to an impossible capacity panics. *)

From Stdlib Require Import ssreflect.
From stdpp Require Import base numbers list gmap strings.
From S2P Require Import Prelude Buf Chunker Dedup RevCrc FactorioProtocol FactorioServerProxy ZipWriter.

#[local] Open Scope general_if_scope.

(** [zip::ZipArchive]: for each index, the entry's name and contents, or the
    error of [by_index] or of reading it. *)
Class ZipReader := ZipArchive_new : bytes -> result (list (result (bytes * bytes))).

(** [miniz_oxide]'s zlib functions *)
Class Zlib := {
  compress_to_vec_zlib : bytes -> Z -> bytes;
  decompress_to_vec_zlib_with_limit : bytes -> Z -> result bytes;
}.

Definition RECONSTRUCT_DEFLATE_LEVEL : Z := 1.
Definition ZLIB_LIMIT : Z := 20000000.

Inductive FactorioFileType := Normal | ZlibFile.

Record FactorioFile := mkFactorioFile {
  ff_type : FactorioFileType;
  ff_data : bytes;
}.

Record FactorioFileDescription := mkFileDescription {
  fd_file_type : FactorioFileType;
  fd_file_name : bytes;
  fd_content_size : Z;
  fd_chunk_list : ChunkList;
}.

Record FactorioWorldDescription := mkWorldDescription {
  wd_files : list FactorioFileDescription;
  wd_aux_data : bytes;
  wd_total_chunks : Z;
}.

(** ** Files *)

(** [file_name.rsplit_once('/').map(|(_, last)| last).unwrap_or(file_name)] *)
Fixpoint after_last_slash (name : bytes) : bytes :=
  match name with
  | [] => []
  | c :: rest =>
      if decide (Byte.x2f ∈ rest) then after_last_slash rest
      else if decide (c = Byte.x2f) then rest else name
  end.

Definition level_dat : bytes := z2b <$> [108; 101; 118; 101; 108; 46; 100; 97; 116].
Definition is_ascii_digit (b : Byte.byte) : bool := (48 <=? b2z b) && (b2z b <=? 57).

(** [name.strip_prefix("level.dat").is_some_and(|suffix| suffix.chars().all(..))];
    a character outside ASCII has no digit among its bytes. *)
Definition is_level_dat (file_name : bytes) : bool :=
  let name := after_last_slash file_name in
  bool_decide (take (length level_dat) name = level_dat) &&
  forallb is_ascii_digit (drop (length level_dat) name).

Section files.
Context `{Zlib}.

Definition decode_factorio_file (file_name file_data : bytes) : result FactorioFile :=
  if is_level_dat file_name then
    uncompressed_data ← decompress_to_vec_zlib_with_limit file_data ZLIB_LIMIT;
    Ok (mkFactorioFile ZlibFile uncompressed_data)
  else Ok (mkFactorioFile Normal file_data).

Definition encode_factorio_file (file : FactorioFile) : bytes :=
  match ff_type file with
  | Normal => ff_data file
  | ZlibFile => compress_to_vec_zlib (ff_data file) RECONSTRUCT_DEFLATE_LEVEL
  end.
End files.

(** ** Deconstruction *)

Section deconstruct.
Context `{Blake3, Zlib, ZipReader}.

Definition chunk_file (file_name : bytes) (file : FactorioFile) (chunks : gmap ChunkKey bytes)
  : result (FactorioFileDescription * gmap ChunkKey bytes) :=
  '(chunk_list, chunks) ← chunk_data (ff_data file) chunks;
  '(chunk_list, chunks) ← minimize_chunk_list chunk_list chunks;
  Ok (mkFileDescription (ff_type file) file_name (len (ff_data file)) chunk_list, chunks).

(** The loop over the entries of the archive. *)
Fixpoint deconstruct_files (zip_files : list (result (bytes * bytes))) (chunks : gmap ChunkKey bytes)
  : result (list FactorioFileDescription * gmap ChunkKey bytes) :=
  match zip_files with
  | [] => Ok ([], chunks)
  | zip_file :: zip_files =>
      '(name, buf) ← zip_file;
      decoded_file ← decode_factorio_file name buf;
      '(file, chunks) ← chunk_file name decoded_file chunks;
      '(files, chunks) ← deconstruct_files zip_files chunks;
      Ok (file :: files, chunks)
  end.

Definition deconstruct_world (world_data aux_data : bytes)
  : result (FactorioWorldDescription * gmap ChunkKey bytes) :=
  zip_reader ← ZipArchive_new world_data;
  '(files, chunks) ← deconstruct_files zip_reader ∅;
  Ok (mkWorldDescription files aux_data (Z.of_nat (size chunks)), chunks).
End deconstruct.

(** ** Reconstruction *)

Record WorldReconstructor := mkReconstructor {
  wr_zip_writer : ZipWriter;
  wr_crc_hasher : Z;                       (* the register of the digest *)
}.

(** [BytesMut::resize] *)
Definition resize (n : Z) (b : bytes) : result bytes :=
  if 2 ^ 63 <=? n then Panic "capacity overflow" else Ok (resize0 n b).

Section reconstruct.
Context `{CrcImpl, Deflate, Zlib}.

Definition WorldReconstructor_new : WorldReconstructor :=
  mkReconstructor ZipWriter_new crc_init.

(** The end of [reconstruct_world_file], once the content is in [buf]. *)
Definition append_file (wr : WorldReconstructor) (file_desc : FactorioFileDescription) (buf : bytes)
  : result (WorldReconstructor * bytes) :=
  let file_data := encode_factorio_file (mkFactorioFile (fd_file_type file_desc) buf) in
  let deflate_level :=
    match fd_file_type file_desc with
    | Normal => Some RECONSTRUCT_DEFLATE_LEVEL
    | ZlibFile => None
    end in
  '(zw, zip_entry_data) ← encode_file (wr_zip_writer wr) (fd_file_name file_desc) file_data deflate_level;
  Ok (mkReconstructor zw (crc_update (wr_crc_hasher wr) zip_entry_data), zip_entry_data).

Definition reconstruct_world_file {S : Type} `{ChunkProvider S} (fuel : nat)
    (wr : WorldReconstructor) (file_desc : FactorioFileDescription) (s : S)
  : result (WorldReconstructor * bytes) * S :=
  match reconstruct_data fuel (fd_chunk_list file_desc) s with
  | (out, Ok _, s) => (append_file wr file_desc (concat out), s)
  | (_, Err e, s) => (Err e, s)
  | (_, Panic p, s) => (Panic p, s)
  end.

Definition WorldReconstructor_finalize_world (wr : WorldReconstructor)
    (world_desc : FactorioWorldDescription) (target_world_size target_crc : Z) : result bytes :=
  let current_size := current_size (wr_zip_writer wr) in
  let zip_footer_size := central_directory_size (wr_zip_writer wr) in
  let total_size := current_size + zip_footer_size + 4 in
  if target_world_size <? total_size then
    Err (Anyhow "Reconstructed world size won't fit inside of estimated size")
  else
    let padding := zeroed (target_world_size - total_size) in
    let crc_hasher := crc_update (wr_crc_hasher wr) padding in
    let zw := advance_offset (wr_zip_writer wr) (len padding + 4) in
    zip_footer ← encode_central_directory zw;
    let forward_crc := crc_finalize crc_hasher in
    let rev_crc_hasher := RevCRC_digest RevCRC_new target_crc in
    let rev_crc_hasher := RevDigest_update rev_crc_hasher (wd_aux_data world_desc) in
    let rev_crc_hasher := RevDigest_update rev_crc_hasher zip_footer in
    let forge_bytes := forge_crc forward_crc rev_crc_hasher in
    let output := padding ++ forge_bytes ++ zip_footer in
    if negb (current_size + len output =? target_world_size) then
      Panic "final world size is not equal to target world size"
    else
      let crc_hasher := crc_update crc_hasher forge_bytes in
      let crc_hasher := crc_update crc_hasher zip_footer in
      let crc_hasher := crc_update crc_hasher (wd_aux_data world_desc) in
      if negb (crc_finalize crc_hasher =? target_crc) then Panic "Forging CRC failed"
      else
        let world_block_count := block_count (wrap 32 target_world_size) in
        let aux_block_count := block_count (wrap 32 (len (wd_aux_data world_desc))) in
        let world_aligned_length := wrap 32 (world_block_count * TRANSFER_BLOCK_SIZE) in
        let aux_aligned_length := wrap 32 (aux_block_count * TRANSFER_BLOCK_SIZE) in
        output ← resize (wrap 64 (world_aligned_length - target_world_size + len output)) output;
        let output := output ++ wd_aux_data world_desc in
        output ← resize (wrap 64 (aux_aligned_length - len (wd_aux_data world_desc) + len output)) output;
        if negb ((current_size + len output) mod TRANSFER_BLOCK_SIZE =? 0) then
          Panic "assertion `left == right` failed"
        else Ok output.

(** ** The client's side of a transfer

    [transfer_world_data] of proxy/client_proxy.rs after the world description was
    received: each rebuilt piece is sent to the proxy of the game client.
    [mark_dirty] is [chunk_cache.mark_dirty()]. *)

Fixpoint reconstruct_files {S : Type} `{ChunkProvider S} (fuel : nat)
    (files : list FactorioFileDescription) (wr : WorldReconstructor) : emitM S WorldReconstructor :=
  match files with
  | [] => mret wr
  | file_desc :: files =>
      '(wr, data) ← lift_state (reconstruct_world_file fuel wr file_desc);
      emit data ;;
      reconstruct_files fuel files wr
  end.

Definition receive_world {S : Type} `{ChunkProvider S} (mark_dirty : S -> S) (fuel : nat)
    (world_desc : FactorioWorldDescription) (new_info : FactorioWorldMetadata) : emitM S unit :=
  lift_state (prefetch_metadata_chunks fuel (fd_chunk_list <$> wd_files world_desc)) ;;
  wr ← reconstruct_files fuel (wd_files world_desc) WorldReconstructor_new;
  modify mark_dirty ;;
  last_data ← lift_result (WorldReconstructor_finalize_world wr world_desc
                             (world_size new_info) (world_crc new_info));
  emit last_data.
End reconstruct.

(** ** The last piece *)

Section finalize.
Context `{C : CrcImpl} {CS : CrcSpec C} `{HD : Deflate, HZ : Zlib}.

(** The forged bytes lead from the register before them to the target. *)
Lemma forged_crc reg aux footer target :
  in_u 32 reg -> in_u 32 target ->
  let rev := RevDigest_update (RevDigest_update (RevCRC_digest RevCRC_new target) aux) footer in
  let forged := forge_crc (crc_finalize reg) rev in
  length forged = 4%nat /\
  crc_finalize (crc_update (crc_update (crc_update reg forged) footer) aux) = target.
Proof.
  move=> Hr Ht. cbv zeta. split; [apply length_le_bytes|].
  have Hx : in_u 32 (Z.lxor target crc_xorout) by apply in_u_lxor; [lia|done|apply crc_xorout_range].
  have Hrev := RevDigest_updates (Z.lxor target crc_xorout) [aux; footer].
  have Hc : concat (reverse [aux; footer]) = footer ++ aux by rw /= app_nil_r.
  rw Hc in Hrev. cbn [foldl] in Hrev. rw /RevCRC_digest. change (rev_xorout RevCRC_new) with crc_xorout.
  rw Hrev forge_register //; [by apply RevCRC_update_range|].
  rw -crc_update_app crc_update_rev // /crc_finalize Z.lxor_assoc Z.lxor_nilpotent. apply Z.lxor_0_r.
Qed.

Lemma resize_ok n b : 0 <= n < 2 ^ 63 -> resize n b = Ok (resize0 n b).
Proof. rw /resize. case: Z.leb_spec => //. lia. Qed.

(** [output.resize(aligned - size + output.len(), 0)] pads to the block. *)
Lemma resize_align size out :
  0 <= size -> size + TRANSFER_BLOCK_SIZE <= U32_MAX -> len out <= U32_MAX ->
  let aligned := block_count (wrap 32 size) * TRANSFER_BLOCK_SIZE in
  resize (wrap 64 (wrap 32 aligned - size + len out)) out = Ok (out ++ zeroed (aligned - size)).
Proof.
  move=> Hs0 Hs1 Hs2. cbv zeta. rw (wrap_small 32 size); [rw /in_u /TRANSFER_BLOCK_SIZE in Hs1 *; lia|].
  destruct (block_count_small size Hs0 Hs1) as [_ Hb]. set al := block_count size * _ in Hb *.
  rw (wrap_small 32 al); [rw /in_u /TRANSFER_BLOCK_SIZE in Hs1 Hb *; lia|].
  rw wrap_small; [rw /in_u /TRANSFER_BLOCK_SIZE in Hs1 Hb *; lia|].
  rw resize_ok; [rw /TRANSFER_BLOCK_SIZE in Hs1 Hb; lia|].
  rw resize0_grow; [lia|]. do 3 f_equal. lia.
Qed.

(** The padding before the forged bytes leaves room for the central directory. *)
Lemma padded_directory zw (body : bytes) target pad :
  current_offset zw = len body -> Forall (fun e => start_offset e <= current_offset zw) (entries zw) ->
  len (entries zw) < 2 ^ 16 -> target <= U32_MAX -> 0 <= pad ->
  len body + central_directory_size zw + 4 + pad = target ->
  exists cd, encode_central_directory (advance_offset zw (pad + 4)) = Ok cd /\ len cd = central_directory_size zw.
Proof.
  move=> Hoff Hstart Hcount Ht Hpad Htot. set zw' := advance_offset zw (pad + 4).
  have Hcds : 22 <= central_directory_size zw.
  { rw /central_directory_size -length_records /END_OF_CENTRAL_DIRECTORY_SIZE. lia. }
  have Hcdok : exists cd, encode_central_directory zw' = Ok cd.
  { apply central_directory_total; cbn [current_offset entries zw' advance_offset]; [|done| |].
    - rw Hoff. lia.
    - change (central_directory_size zw') with (central_directory_size zw). lia.
    - eapply Forall_impl; [exact Hstart|]. cbn beta. move=> e He. lia. }
  destruct Hcdok as [cd Hcd]. exists cd. split; [done|]. exact (central_directory_size_ok zw' cd Hcd).
Qed.

Lemma finalize_ok wr desc body target crc :
  let zw := wr_zip_writer wr in let aux := wd_aux_data desc in
  current_offset zw = len body -> wr_crc_hasher wr = crc_update crc_init body ->
  Forall (fun e => start_offset e <= current_offset zw) (entries zw) -> len (entries zw) < 2 ^ 16 ->
  in_u 32 crc -> target + len aux + 2 * TRANSFER_BLOCK_SIZE <= U32_MAX ->
  len body + central_directory_size zw + 4 <= target ->
  exists foreign cd out,
    WorldReconstructor_finalize_world wr desc target crc = Ok out /\
    encode_central_directory (advance_offset zw (len foreign)) = Ok cd /\
    let world := body ++ foreign ++ cd in
    len world = target /\ crc_checksum (world ++ aux) = crc /\
    body ++ out = resize0 (block_count target * TRANSFER_BLOCK_SIZE) world ++
                  resize0 (block_count (len aux) * TRANSFER_BLOCK_SIZE) aux.
Proof.
  cbv zeta. set zw := wr_zip_writer wr. set aux := wd_aux_data desc.
  move=> Hoff Hcrc Hstart Hcount Hc Hfit Htot. rw /WorldReconstructor_finalize_world /current_size.
  rw -/zw -/aux Hoff. case: Z.ltb_spec => ?; first lia.
  set pad := zeroed _. have Hpad : len pad = target - (len body + central_directory_size zw + 4)
    by apply len_zeroed; lia.
  set zw' := advance_offset zw (len pad + 4).
  destruct (padded_directory zw body target (len pad)) as (cd & Hcd & Hcdl); try done.
  { rw /TRANSFER_BLOCK_SIZE in Hfit. lia. }
  { lia. }
  { lia. }
  rw Hcd bind_ok Hcrc -crc_update_app. set reg := crc_update crc_init (body ++ pad).
  have Hreg : in_u 32 reg by apply crc_update_range, crc_init_range.
  destruct (forged_crc reg aux cd crc Hreg Hc) as [Hfl Hforge]. cbv zeta in Hfl, Hforge.
  set forged := forge_crc _ _ in Hfl Hforge *.
  have Hol : len (pad ++ forged ++ cd) = target - len body by rw !length_app Hfl; lia.
  rw Hol Hforge. replace (len body + (target - len body)) with target by lia. rw !Z.eqb_refl. cbn [negb].
  rw -Hol resize_align; [rw /TRANSFER_BLOCK_SIZE in Hfit *; lia..|]. rw bind_ok.
  destruct (block_count_small target) as [_ Hbt]; [rw /TRANSFER_BLOCK_SIZE in Hfit *; lia..|].
  destruct (block_count_small (len aux)) as [_ Hba]; [rw /TRANSFER_BLOCK_SIZE in Hfit *; lia..|].
  have Hw32 : wrap 32 target = target
    by apply wrap_small; rw /in_u; rw /TRANSFER_BLOCK_SIZE in Hfit; lia.
  have Ha32 : wrap 32 (len aux) = len aux
    by apply wrap_small; rw /in_u; rw /TRANSFER_BLOCK_SIZE in Hfit; lia.
  rw resize_align; [rw /TRANSFER_BLOCK_SIZE in Hfit *; lia..| |].
  { rw Hw32 !length_app. rw length_app in Hol. rw /TRANSFER_BLOCK_SIZE in Hbt Hba Hfit *. len_norm. lia. }
  rw bind_ok Hw32 Ha32. set out := (_ ++ aux) ++ _.
  have Hstream : body ++ out = resize0 (block_count target * TRANSFER_BLOCK_SIZE) (body ++ (pad ++ forged) ++ cd) ++
                  resize0 (block_count (len aux) * TRANSFER_BLOCK_SIZE) aux.
  { have Hwl : len (body ++ (pad ++ forged) ++ cd) = target by rw -!app_assoc length_app; lia.
    rw resize0_grow; [lia|]. rw resize0_grow; [lia|]. rw /out Hwl. by rw -!app_assoc. }
  have Hlen : len body + len out = (block_count target + block_count (len aux)) * TRANSFER_BLOCK_SIZE.
  { have Hl : len (body ++ out) = len (resize0 (block_count target * TRANSFER_BLOCK_SIZE) (body ++ (pad ++ forged) ++ cd) ++
        resize0 (block_count (len aux) * TRANSFER_BLOCK_SIZE) aux) by rw Hstream.
    rw length_app (length_app (resize0 _ _)) !Nat2Z.inj_add !len_resize0 in Hl; lia. }
  rw Hlen Z.mod_mul // Z.eqb_refl. cbn [negb]. exists (pad ++ forged), cd, out. split; [done|].
  split; [rw -Hcd /zw' length_app Hfl; do 2 f_equal; lia|]. split; [rw -!app_assoc length_app; lia|].
  split; [|done]. rw -Hforge /reg /crc_checksum -!crc_update_app. f_equal. f_equal. by rw -!app_assoc.
Qed.
End finalize.

(** ** What a description describes *)

(** A file of the original archive: its name, its raw contents, and what
    [decode_factorio_file] makes of it. *)
Abbreviation world_file := ((bytes * bytes * FactorioFile)%type).

Section describe.
Context `{Hb : Blake3} {Hspec : Blake3Spec Hb} `{Zlib}.

Definition decoded (f : world_file) : Prop :=
  decode_factorio_file (fst (fst f)) (snd (fst f)) = Ok (snd f).

(** The blobs of all the files, in the order in which they are hashed. *)
Definition world_blobs (fs : list world_file) : list bytes :=
  concat ((fun f => dedup_blobs (ff_data (snd f))) <$> fs).

Definition describes (D : ChunkKey -> option bytes) (h : nat)
    (desc : FactorioFileDescription) (f : world_file) : Prop :=
  fd_file_name desc = fst (fst f) /\ fd_file_type desc = ff_type (snd f) /\
  exists h' cs, (h' <= h)%nat /\ denotes D h' (fd_chunk_list desc) cs /\ concat cs = ff_data (snd f).

Lemma describes_mono D h h' desc f : (h <= h')%nat -> describes D h desc f -> describes D h' desc f.
Proof. intros Hh (? & ? & k & cs & ? & ? & ?). split_and!; try done. exists k, cs. split_and!; try done. lia. Qed.

Lemma describes_trees D h ds fs :
  Forall2 (describes D h) ds fs -> trees_ok (D := D) h (fd_chunk_list <$> ds).
Proof.
  move=> Hds. apply Forall_fmap. elim: Hds => [|d f ds' fs' Hdf _ IH]; constructor; [|done].
  destruct Hdf as (_ & _ & h' & cs & ? & ? & _). by exists h', cs.
Qed.

Lemma deconstruct_files_ok fs m :
  Forall decoded fs ->
  exists descs h,
    deconstruct_files ((fun f => Ok (fst f)) <$> fs) m = Ok (descs, store_all (world_blobs fs) m) /\
    forall D, knows D (world_blobs fs) -> Forall2 (describes D h) descs fs.
Proof.
  elim: fs m => [|[[name buf] f] fs IH] m Hdec.
  { exists [], 0%nat. by split. }
  apply Forall_cons in Hdec as [Hf Hdec]. rw /decoded in Hf. cbn [fst snd] in Hf.
  destruct (dedup_blobs_spec (ff_data f) m) as (root & root' & m1 & h1 & H1 & H2 & _ & _ & _ & HD).
  destruct (IH (store_all (dedup_blobs (ff_data f)) m) Hdec) as (descs & h & Hrec & Hdesc).
  exists (mkFileDescription (ff_type f) name (len (ff_data f)) root' :: descs), (h `max` h1)%nat.
  have Hbl : world_blobs ((name, buf, f) :: fs) = dedup_blobs (ff_data f) ++ world_blobs fs by done.
  split.
  - cbn [fmap list_fmap deconstruct_files fst]. rw bind_ok Hf bind_ok /chunk_file H1 bind_ok H2 !bind_ok.
    by rw Hrec bind_ok Hbl store_all_app.
  - move=> D. rw Hbl => /Forall_app [K1 K2]. constructor.
    + split_and!; [done|done|]. exists h1, (chunks_of (ff_data f)).
      split_and!; [lia|by apply HD|apply chunks_of_concat].
    + eapply Forall2_impl; [by apply Hdesc|]. intros. eapply describes_mono; [|done]. lia.
Qed.
End describe.

(** ** Rebuilding the files *)

Section rebuild.
Context `{C : CrcImpl} {CS : CrcSpec C} `{HZ : Zlib}.
Context `{HD : Deflate} {inflate : bytes -> option bytes} {DS : DeflateSpec HD inflate}.

(** The rebuilt archive entry of a file. *)
Definition rebuilt (f : world_file) : bytes * bytes := (fst (fst f), encode_factorio_file (snd f)).

Definition stored (f : world_file) : bytes :=
  match ff_type (snd f) with
  | Normal => compress_to_vec (encode_factorio_file (snd f)) RECONSTRUCT_DEFLATE_LEVEL
  | ZlibFile => encode_factorio_file (snd f)
  end.

(** No [try_into().expect(..)] of [encode_file] fails on the file. *)
Definition file_fits (f : world_file) : Prop :=
  len (fst (fst f)) < 2 ^ 16 /\ len (encode_factorio_file (snd f)) < 2 ^ 32 /\ len (stored f) < 2 ^ 32.

(** The bytes of the rebuilt archive, the four forged bytes included. *)
Definition rebuilt_size (fs : list world_file) : Z :=
  foldr Z.add 0 ((fun f => 30 + len (fst (fst f)) + len (stored f)) <$> fs) +
  foldr Z.add 0 ((fun f => 46 + len (fst (fst f))) <$> fs) + 22 + 4.

(** What was rebuilt so far: the archive's bytes, its directory and its CRC. *)
Definition wr_ok (wr : WorldReconstructor) (body : bytes) (fs : list world_file) : Prop :=
  zip_ok (inflate := inflate) (wr_zip_writer wr) body (rebuilt <$> fs) /\
  wr_crc_hasher wr = crc_update crc_init body /\
  len body = foldr Z.add 0 ((fun f => 30 + len (fst (fst f)) + len (stored f)) <$> fs).

Lemma foldr_add_snoc l x : foldr Z.add 0 (l ++ [x]) = foldr Z.add 0 l + x.
Proof. elim: l => [|y l IH] /=; lia. Qed.

Lemma encode_file_total zw name data level :
  len name < 2 ^ 16 -> len data < 2 ^ 32 ->
  len (match level with Some l => compress_to_vec data l | None => data end) < 2 ^ 32 ->
  exists zw' b, encode_file zw name data level = Ok (zw', b) /\
    len b = 30 + len name + len (match level with Some l => compress_to_vec data l | None => data end).
Proof.
  move=> Hn Hd Hf. rw /encode_file. destruct level as [l|].
  all: rewrite -> try_into_bind by done; rewrite -> try_into_bind by done; rewrite -> try_into_bind by done.
  all: do 2 eexists; split; [done|]; rw length_app Nat2Z.inj_add length_local_header; cbn; lia.
Qed.

Lemma append_file_ok wr body fs desc f :
  wr_ok wr body fs -> fd_file_name desc = fst (fst f) -> fd_file_type desc = ff_type (snd f) ->
  file_fits f ->
  exists wr' b, append_file wr desc (ff_data (snd f)) = Ok (wr', b) /\ wr_ok wr' (body ++ b) (fs ++ [f]).
Proof.
  intros (Hzip & Hcrc & Hlen) Hn Ht (Hf1 & Hf2 & Hf3). rw /append_file Hn Ht.
  have -> : mkFactorioFile (ff_type (snd f)) (ff_data (snd f)) = snd f by destruct (snd f).
  set level := match ff_type (snd f) with Normal => _ | _ => _ end.
  have Hst : stored f = match level with Some l => compress_to_vec (encode_factorio_file (snd f)) l
                        | None => encode_factorio_file (snd f) end
    by rw /stored /level; destruct (ff_type (snd f)).
  rw Hst in Hf3.
  destruct (encode_file_total (wr_zip_writer wr) (fst (fst f)) (encode_factorio_file (snd f)) level
    Hf1 Hf2 Hf3) as (zw' & b & Heq & Hb).
  rw Heq bind_ok. do 2 eexists. split; [done|]. split_and!; cbn [wr_zip_writer wr_crc_hasher].
  - rw fmap_app. cbn [fmap list_fmap]. by eapply encode_file_ok.
  - by rw Hcrc crc_update_app.
  - rw fmap_app. cbn [fmap list_fmap]. rw foldr_add_snoc -Hlen length_app Hst. lia.
Qed.

Context {S : Type} `{HP : ChunkProvider S} {D : ChunkKey -> option bytes} {HS : ProviderSpec S D}.

Lemma reconstruct_files_ok h fuel descs fs wr body prev s :
  Forall2 (describes D h) descs fs -> Forall file_fits fs -> (h < fuel)%nat ->
  wr_ok wr body prev -> prov_inv s ->
  exists pieces wr' s', reconstruct_files fuel descs wr s = (pieces, Ok wr', s') /\
    wr_ok wr' (body ++ concat pieces) (prev ++ fs) /\ prov_inv s'.
Proof.
  move=> Hds. elim: Hds wr body prev s => [|desc f descs' fs' Hd _ IH] wr body prev s Hfit Hfuel Hwr Hinv.
  { exists [], wr, s. split_and!; try done. by rw !app_nil_r. }
  apply Forall_cons in Hfit as [Hf Hfit]. destruct Hd as (Hn & Ht & h' & cs & Hh & Hden & Hcs).
  destruct (reconstruct_runs h' fuel (fd_chunk_list desc) cs s Hden ltac:(lia) Hinv) as (s1 & Hrun & Hinv1 & _).
  destruct (append_file_ok wr body prev desc f Hwr Hn Ht Hf) as (wr1 & b & Happ & Hwr1).
  destruct (IH wr1 (body ++ b) (prev ++ [f]) s1 Hfit Hfuel Hwr1 Hinv1) as (pieces & wr2 & s2 & Hrec & Hwr2 & Hinv2).
  exists (b :: pieces), wr2, s2. split_and!; [| |done].
  2: { cbn [concat]. rw app_assoc (cons_middle f) app_assoc. exact Hwr2. }
  cbn [reconstruct_files]. rw /mbind /emit_bind /lift_state /reconstruct_world_file Hrun Hcs Happ.
  by rw /emit Hrec.
Qed.
End rebuild.

(** ** A whole transfer *)

(** The laws of the zlib functions: a result respects the limit, and what was
    compressed is recovered, at every level, if it respects the limit. *)
Class ZlibSpec (Z : Zlib) : Prop := {
  zlib_limit b limit d : decompress_to_vec_zlib_with_limit b limit = Ok d -> len d <= limit;
  zlib_recovers d level limit :
    len d <= limit -> decompress_to_vec_zlib_with_limit (compress_to_vec_zlib d level) limit = Ok d;
}.

Lemma rebuilt_decodes `{HZ : Zlib} {ZS : ZlibSpec HZ} f :
  decoded f -> decode_factorio_file (fst (rebuilt f)) (snd (rebuilt f)) = Ok (snd f).
Proof.
  destruct f as [[name buf] file]. rw /decoded /decode_factorio_file /rebuilt /encode_factorio_file. cbn [fst snd].
  destruct (is_level_dat name).
  - intros (d & Hd & <-%ok_inj)%bind_ok_inv. cbn [ff_type ff_data].
    rw zlib_recovers; [by eapply zlib_limit|]. by rw bind_ok.
  - by intros <-%ok_inj.
Qed.

Section transfer.
Context `{Hb : Blake3} {Hspec : Blake3Spec Hb} `{C : CrcImpl} {CS : CrcSpec C}.
Context `{HZ : Zlib} {ZS : ZlibSpec HZ} `{HR : ZipReader}.
Context `{HDf : Deflate} {inflate : bytes -> option bytes} {DS : DeflateSpec HDf inflate}.

Lemma wr_ok_directory wr body fs :
  wr_ok (inflate := inflate) wr body fs ->
  let zw := wr_zip_writer wr in
  Forall (fun e => start_offset e <= current_offset zw) (entries zw) /\
  length (entries zw) = length fs /\
  len body + central_directory_size zw + 4 = rebuilt_size fs.
Proof.
  intros ([Ho He] & _ & Hl). cbv zeta. rewrite -> Forall2_fmap_r in He.
  split_and!.
  - rw Ho. move: He. generalize (entries (wr_zip_writer wr)) => es He.
    elim: He => [|e f es' fs' Hef _ IH]; constructor; [|done]. by destruct Hef as (_ & ? & _).
  - by apply Forall2_length in He.
  - rw /rebuilt_size -Hl /central_directory_size -length_records /END_OF_CENTRAL_DIRECTORY_SIZE.
    have -> : len (concat (central_entry <$> entries (wr_zip_writer wr))) =
      foldr Z.add 0 ((fun f : world_file => 46 + len (fst (fst f))) <$> fs); last lia.
    move: He. generalize (entries (wr_zip_writer wr)) => es He. clear Hl.
    elim: He => [|e f es' fs' Hef _ IH] //. cbn [fmap list_fmap concat foldr].
    rw length_app Nat2Z.inj_add length_central_entry IH /CENTRAL_DIRECTORY_ENTRY_SIZE.
    destruct Hef as (_ & _ & -> & _). done.
Qed.

(** The files are rebuilt one after the other; what is left is the last piece. *)
Lemma files_received {S : Type} `{HP : ChunkProvider S} (D : ChunkKey -> option bytes)
  {HS : ProviderSpec S D} (mark_dirty : S -> S) (world aux : bytes) fs
  (Hfs : ZipArchive_new world = Ok ((fun f => Ok (fst f)) <$> fs)) (Hdecoded : Forall decoded fs)
  (Hknows : knows D (world_blobs fs)) (Hfits : Forall file_fits fs) :
  exists desc depth,
    deconstruct_world world aux = Ok (desc, store_all (world_blobs fs) ∅) /\ wd_aux_data desc = aux /\
    forall fuel s new_info, (depth < fuel)%nat -> prov_inv s ->
    exists pieces wr s2, wr_ok (inflate := inflate) wr (concat pieces) fs /\ prov_inv s2 /\
      receive_world mark_dirty fuel desc new_info s =
        match WorldReconstructor_finalize_world wr desc (world_size new_info) (world_crc new_info) with
        | Ok out => (pieces ++ [out], Ok tt, mark_dirty s2)
        | Err e => (pieces, Err e, mark_dirty s2)
        | Panic p => (pieces, Panic p, mark_dirty s2)
        end.
Proof.
  destruct (deconstruct_files_ok fs ∅ Hdecoded) as (descs & h & Hd & Hdesc).
  eexists _, h. rw /deconstruct_world Hfs bind_ok Hd bind_ok. split; [done|]. split; [done|].
  have {}Hdesc := Hdesc _ Hknows.
  move=> fuel s new_info Hfuel Hinv. rw /receive_world.
  destruct (prefetch_metadata_runs h fuel (fd_chunk_list <$> descs) s) as (s1 & Hpre & Hinv1 & _);
    [by eapply describes_trees|done|done|].
  destruct (reconstruct_files_ok (inflate := inflate) h fuel descs fs WorldReconstructor_new [] [] s1)
    as (pieces & wr & s2 & Hrec & Hwr & Hinv2); [done|done|done| |done|].
  { split; [apply zip_ok_new|]. split; [by rw crc_update_bytes|done]. }
  exists pieces, wr, s2. split; [exact Hwr|]. split; [done|].
  rw /mbind /emit_bind /lift_state. cbn [wd_files]. rw Hpre Hrec /modify /lift_result.
  destruct (WorldReconstructor_finalize_world _ _ _ _); rw /emit /= ?app_nil_r; done.
Qed.

Lemma world_transfer_ok {S : Type} `{HP : ChunkProvider S} (D : ChunkKey -> option bytes)
  {HS : ProviderSpec S D} (mark_dirty : S -> S) (world aux : bytes) fs new_info
  (Hfs : ZipArchive_new world = Ok ((fun f => Ok (fst f)) <$> fs)) (Hdecoded : Forall decoded fs)
  (Hknows : knows D (world_blobs fs)) (Hfits : Forall file_fits fs) (Hcount : len fs < 2 ^ 16)
  (Hcrc : in_u 32 (world_crc new_info)) (Hsize : rebuilt_size fs <= world_size new_info)
  (Hmax : world_size new_info + len aux + 2 * TRANSFER_BLOCK_SIZE <= U32_MAX) :
  exists desc depth,
    deconstruct_world world aux = Ok (desc, store_all (world_blobs fs) ∅) /\
    forall fuel s, (depth < fuel)%nat -> prov_inv s ->
    exists pieces s' world', receive_world mark_dirty fuel desc new_info s = (pieces, Ok tt, s') /\
      len world' = world_size new_info /\ crc_checksum (world' ++ aux) = world_crc new_info /\
      concat pieces = resize0 (block_count (world_size new_info) * TRANSFER_BLOCK_SIZE) world' ++
                      resize0 (block_count (len aux) * TRANSFER_BLOCK_SIZE) aux /\
      (exists files', read_zip inflate world' = Ok files' /\
        Forall2 (fun f f' => fst (fst f) = fst f' /\
                   decode_factorio_file (fst f') (snd f') = Ok (snd f)) fs files') /\
      exists s2, s' = mark_dirty s2 /\ prov_inv s2.
Proof.
  destruct (files_received D mark_dirty world aux fs Hfs Hdecoded Hknows Hfits) as (desc & h & Hd & Haux & Hrecv).
  exists desc, h. split; [done|]. move=> fuel s Hfuel Hinv.
  destruct (Hrecv fuel s new_info Hfuel Hinv) as (pieces & wr & s2 & Hwr & Hinv2 & ->).
  destruct (wr_ok_directory _ _ _ Hwr) as (Hstart & Hlen & Hsz). destruct Hwr as ([Hoff Hent] & Hreg & _).
  destruct (finalize_ok wr desc (concat pieces) (world_size new_info) (world_crc new_info))
    as (foreign & cd & out & -> & Hcd & Hwl & Hwc & Hst); [done|done|done|by rw Hlen|done|by rw Haux|lia|].
  rw Haux in Hwc Hst.
  exists (pieces ++ [out]), (mark_dirty s2), (concat pieces ++ foreign ++ cd). split_and!; [done|done|done| | |by exists s2].
  - by rw concat_app /= app_nil_r.
  - exists (rebuilt <$> fs). split.
    + rw app_assoc. eapply read_zip_ok; [|exact Hcd]. by apply zip_ok_append.
    + apply Forall2_fmap_r, Forall_Forall2_diag. eapply Forall_impl; [exact Hdecoded|].
      move=> f Hf. split; [done|by apply rebuilt_decodes].
Qed.

(** An archive that does not fit is an error, after its files were passed on. *)
Lemma world_too_large {S : Type} `{HP : ChunkProvider S} (D : ChunkKey -> option bytes)
  {HS : ProviderSpec S D} (mark_dirty : S -> S) (world aux : bytes) fs new_info
  (Hfs : ZipArchive_new world = Ok ((fun f => Ok (fst f)) <$> fs)) (Hdecoded : Forall decoded fs)
  (Hknows : knows D (world_blobs fs)) (Hfits : Forall file_fits fs) (Hsize : world_size new_info < rebuilt_size fs) :
  exists desc depth,
    deconstruct_world world aux = Ok (desc, store_all (world_blobs fs) ∅) /\
    forall fuel s, (depth < fuel)%nat -> prov_inv s ->
    exists pieces s', receive_world mark_dirty fuel desc new_info s =
      (pieces, Err (Anyhow "Reconstructed world size won't fit inside of estimated size"), s').
Proof.
  destruct (files_received D mark_dirty world aux fs Hfs Hdecoded Hknows Hfits) as (desc & h & Hd & Haux & Hrecv).
  exists desc, h. split; [done|]. move=> fuel s Hfuel Hinv.
  destruct (Hrecv fuel s new_info Hfuel Hinv) as (pieces & wr & s2 & Hwr & _ & ->).
  destruct (wr_ok_directory _ _ _ Hwr) as (_ & _ & Hsz). destruct Hwr as ([Hoff _] & _).
  rw /WorldReconstructor_finalize_world /current_size Hoff. case: Z.ltb_spec => ?; [|lia]. by do 2 eexists.
Qed.

(** C2: the world survives the transfer.  Let the server read the archive of a world whose
    files it can decode, whose names fit 16 bits, whose files fit 32 bits and which are
    fewer than 2^16.  Then it takes the archive apart without an error, and for any provider
    that knows the chunks of that run, the client that receives the description does one
    of two things.  If the rebuilt archive fits into the announced size (itself small enough
    for 32-bit block counts), the client rebuilds, with no assertion failing, a world of
    exactly that size such that world and auxiliary data have exactly the announced CRC;
    the pieces it passes on are the world and the auxiliary data, each padded to whole
    blocks; and the rebuilt archive, read by the ZIP format, has the original's files, in
    order, with the original names and decoded contents.  If the rebuilt archive does not
    fit, the transfer ends with the error that says so. *)
Theorem world_transfer_correct {S : Type} `{HP : ChunkProvider S} (D : ChunkKey -> option bytes)
  {HS : ProviderSpec S D} (mark_dirty : S -> S) (world aux : bytes) fs new_info
  (Hfs : ZipArchive_new world = Ok ((fun f => Ok (fst f)) <$> fs)) (Hdecoded : Forall decoded fs)
  (Hknows : knows D (world_blobs fs)) (Hfits : Forall file_fits fs) (Hcount : len fs < 2 ^ 16)
  (Hcrc : in_u 32 (world_crc new_info))
  (Hmax : world_size new_info + len aux + 2 * TRANSFER_BLOCK_SIZE <= U32_MAX) :
  exists desc depth,
    deconstruct_world world aux = Ok (desc, store_all (world_blobs fs) ∅) /\
    forall fuel s, (depth < fuel)%nat -> prov_inv s ->
    if rebuilt_size fs <=? world_size new_info then
      exists pieces s' world', receive_world mark_dirty fuel desc new_info s = (pieces, Ok tt, s') /\
        len world' = world_size new_info /\ crc_checksum (world' ++ aux) = world_crc new_info /\
        concat pieces = resize0 (block_count (world_size new_info) * TRANSFER_BLOCK_SIZE) world' ++
                        resize0 (block_count (len aux) * TRANSFER_BLOCK_SIZE) aux /\
        exists files', read_zip inflate world' = Ok files' /\
          Forall2 (fun f f' => fst (fst f) = fst f' /\
                     decode_factorio_file (fst f') (snd f') = Ok (snd f)) fs files'
    else
      exists pieces s', receive_world mark_dirty fuel desc new_info s =
        (pieces, Err (Anyhow "Reconstructed world size won't fit inside of estimated size"), s').
Proof.
  case: Z.leb_spec => Hsize.
  - destruct (world_transfer_ok D mark_dirty world aux fs new_info) as (desc & depth & Hdec & Hrun); [done..|].
    exists desc, depth. split; [done|]. move=> fuel s Hfuel Hs.
    destruct (Hrun fuel s Hfuel Hs) as (pieces & s' & world' & H1 & H2 & H3 & H4 & H5 & _). by exists pieces, s', world'.
  - by apply (world_too_large D mark_dirty world aux fs new_info).
Qed.
End transfer.

(** ** Witness *)

Definition toy_zlib : Zlib := {|
  compress_to_vec_zlib d _ := Byte.x78 :: d;
  decompress_to_vec_zlib_with_limit b limit :=
    match b with
    | Byte.x78 :: d => if limit <? len d then Err (LibError "inflate") else Ok d
    | _ => Err (LibError "inflate")
    end;
|}.

Lemma toy_zlib_spec : ZlibSpec toy_zlib.
Proof.
  split.
  - move=> [|b d] limit d' //=. destruct b; try done. destruct (Z.ltb_spec limit (len d)); [done|].
    by move=> [<-].
  - move=> d level limit Hl /=. by destruct (Z.ltb_spec limit (len d)); [lia|].
Qed.

Definition sample_world_files : list world_file :=
  [(level_dat ++ [Byte.x30], [Byte.x78; Byte.x01; Byte.x02], mkFactorioFile ZlibFile [Byte.x01; Byte.x02]);
   ([Byte.x61; Byte.x2f; Byte.x62], [Byte.x07], mkFactorioFile Normal [Byte.x07])].

(** A reader that finds the sample files in any archive. *)
Definition sample_zip_reader : ZipReader := fun _ => Ok ((fun f => Ok (fst f)) <$> sample_world_files).
Definition sample_new_info : FactorioWorldMetadata := mkWorldMetadata 1000 1 3 2 0xDEADBEEF.
Definition sample_aux_data : bytes := [Byte.x0a; Byte.x0b; Byte.x0c].

Lemma world_transfer_correct_witness :
  let chunks := @store_all toy_blake3 (@world_blobs toy_blake3 sample_world_files) ∅ in
  exists desc depth,
    @deconstruct_world toy_blake3 toy_zlib sample_zip_reader [] sample_aux_data = Ok (desc, chunks) /\
    forall fuel s, (depth < fuel)%nat -> s = chunks -> exists pieces s' world',
      @receive_world iso_hdlc stored_deflate toy_zlib _ map_provider id fuel desc sample_new_info s = (pieces, Ok tt, s') /\
      len world' = 1000 /\ @crc_checksum iso_hdlc (world' ++ sample_aux_data) = 0xDEADBEEF /\
      len (concat pieces) = 3 * TRANSFER_BLOCK_SIZE.
Proof.
  cbv zeta. set chunks := @store_all toy_blake3 _ ∅.
  destruct (@world_transfer_correct toy_blake3 toy_blake3_spec iso_hdlc iso_hdlc_spec toy_zlib toy_zlib_spec
    sample_zip_reader stored_deflate stored_inflate stored_deflate_spec _ map_provider (fun k => chunks !! k)
    (map_provider_spec chunks) id [] sample_aux_data sample_world_files sample_new_info) as (desc & depth & Hdec & Hrun).
  - done.
  - by repeat (constructor; [done|]).
  - apply (@store_all_knows toy_blake3), collision_freeb_true. by vm_compute.
  - by repeat (constructor; [done|]).
  - done.
  - done.
  - by vm_compute.
  - exists desc, depth. split; [done|]. move=> fuel s Hfuel Hs.
    have Hfit : (@rebuilt_size toy_zlib stored_deflate sample_world_files <=? world_size sample_new_info) = true by vm_compute.
    pose proof (Hrun fuel s Hfuel Hs) as Hr. rewrite Hfit in Hr. destruct Hr as (pieces & s' & world' & H1 & H2 & H3 & H4 & _).
    exists pieces, s', world'. split_and!; [done..|]. rw H4 length_app Nat2Z.inj_add !len_resize0; by vm_compute.
Defined.
