(* ===== verification/EndToEnd.v ===== *)
(** * From the server's packets to the client's blocks

    The parts composed the way the program composes them: the server proxy
    downloads the world, [transfer_world_data] reassembles it and takes it apart;
    the client proxy's [transfer_world_data] rebuilds it through the chunk fetcher,
    which talks to the server's [provide_chunks_as_requested]; and the client
    proxy serves the rebuilt stream to the game client block by block. *)

From Stdlib Require Import ssreflect.
From stdpp Require Import base numbers list gmap strings.
From S2P Require Import Prelude Buf Chunker Dedup ChunkCache ProtocolUtils RevCrc FactorioProtocol FactorioServerProxy FactorioClientProxy ZipWriter FactorioWorld.

#[local] Open Scope general_if_scope.

(** ** The transfer tasks *)

Record WorldReadyMessage := mkWorldReady {
  wrm_world : FactorioWorldDescription;
  wrm_old_info : FactorioWorldMetadata;
  wrm_new_info : FactorioWorldMetadata;
}.

Section transfer_tasks.
Context `{Blake3, CrcImpl, Zlib, ZipReader, Deflate, Zstd, LinkedHashMap M}.
Context `{RmpSerde WorldReadyMessage, RmpSerde RequestChunksMessage, RmpSerde SendChunksMessage}.

(** [transfer_world_data] of proxy/server_proxy.rs: what the task writes into its
    stream when the client sends [io], and the bytes transferred. *)
Definition server_transfer_world_data (t : MessageTransport) (downloading_state : DownloadingWorldState)
    (io : bytes) : bytes * result Z :=
  match ('(world_data, aux_data) ← assemble_world downloading_state;
         '(world_description, chunks) ← spawn_blocking (deconstruct_world world_data aux_data);
         world_ready_message ← encode_message_async t (mkWorldReady world_description
           (dw_world_info downloading_state) (dw_new_world_info downloading_state));
         written ← write_message world_ready_message;
         Ok (written, len world_ready_message, chunks)) with
  | Ok (written, total_transferred, chunks) =>
      let '(out, r) := provide_chunks_as_requested t chunks io in
      (written ++ out, Z.add total_transferred <$> r)
  | Err e => ([], Err e)
  | Panic p => ([], Panic p)
  end.

(** The server's end of the stream: [run_server_proxy] reads the id of the peer, and
    the task of that peer gets the rest. *)
Definition server_stream (t : MessageTransport) (downloading_state : DownloadingWorldState) (sent : bytes) : bytes :=
  match read_exact 4 sent with
  | Ok (_, io) => fst (server_transfer_world_data t downloading_state io)
  | _ => []
  end.

(** [transfer_world_data] of proxy/client_proxy.rs, on a stream whose other end is
    [peer].  A stream that ends without a message is a peer that never got a world. *)
Definition client_transfer_world_data (t : MessageTransport) (peer : bytes -> bytes)
    (others : ChunkCache M -> list (ChunkKey * nat) -> ChunkCache M) (fuel : nat) (cache : ChunkCache M)
    (stream : Stream) : list bytes * result unit * ChunkFetcherProvider M :=
  match stream_read_message peer stream with
  | Ok (world_ready_message_data, stream) =>
      (world_ready ← lift_result (decode_message_async (T := WorldReadyMessage) world_ready_message_data);
       receive_world (H2 := fetcher_provider t peer others) fetcher_mark_dirty fuel
         (wrm_world world_ready) (wrm_new_info world_ready)) (ChunkFetcherProvider_new cache stream)
  | Err UnexpectedEof => ([], Ok tt, ChunkFetcherProvider_new cache stream)
  | Err e => ([], Err e, ChunkFetcherProvider_new cache stream)
  | Panic p => ([], Panic p, ChunkFetcherProvider_new cache stream)
  end.
End transfer_tasks.

Section end_to_end.
Context `{HRw : RmpSerde WorldReadyMessage}.
Context `{Hb : Blake3} {Hspec : Blake3Spec Hb} `{C : CrcImpl} {CS : CrcSpec C}.
Context `{HZl : Zlib} {ZS : ZlibSpec HZl} `{HR : ZipReader} `{F : Memmem} {FS : MemmemSpec F}.
Context `{HDf : Deflate} {inflate : bytes -> option bytes} {DS : DeflateSpec HDf inflate}.
Context `{HZ : Zstd} {HZS : ZstdSpec HZ} {HZB : ZstdBound HZ}.
Context `{HRq : RmpSerde RequestChunksMessage} {HRqS : RmpSpec RequestChunksMessage request_size}.
Context `{HRs : RmpSerde SendChunksMessage} {HRsS : RmpSpec SendChunksMessage send_size}.
Context `{HM : LinkedHashMap M} {HMS : LinkedHashMapSpec M}.

(** The chunks the server offers for a world. *)
Definition world_chunks (fs : list world_file) : gmap ChunkKey bytes := store_all (world_blobs fs) ∅.

Lemma world_blobs_ok fs : Forall (fun b => exists data, blob_ok data b) (world_blobs fs).
Proof.
  rw /world_blobs. elim: fs => [|f fs IH] //. cbn [fmap list_fmap concat]. apply Forall_app. split; [|done].
  destruct (dedup_blobs_spec (ff_data (snd f)) ∅) as (_ & _ & _ & _ & _ & _ & _ & _ & Hbl & _).
  eapply Forall_impl; [exact Hbl|]. by eexists.
Qed.

Lemma world_chunks_ok fs k c :
  world_chunks fs !! k = Some c ->
  (length k = 32%nat /\ len c <= MAX_BLOB_SIZE) /\ blake3_hash c = k.
Proof.
  rw /world_chunks. intros [[Hc ->]|Hk]%store_all_lookup; [|by rw lookup_empty in Hk].
  split; [|done]. split; [apply blake3_len|].
  destruct (proj1 (Forall_forall _ _) (world_blobs_ok fs) c Hc) as [data Hd].
  by destruct (blob_size data c Hd).
Qed.

Lemma padded_complete target aux (stream world' : bytes) id :
  stream = resize0 (block_count target * TRANSFER_BLOCK_SIZE) world' ++
           resize0 (block_count (len aux) * TRANSFER_BLOCK_SIZE) aux ->
  0 <= id < block_count target + block_count (len aux) -> block_complete stream id.
Proof.
  move=> -> [H0 H1]. have [Hw _] := block_count_range target. have [Ha _] := block_count_range (len aux).
  split; [done|]. rw length_app Nat2Z.inj_add !len_resize0; rw /TRANSFER_BLOCK_SIZE; lia.
Qed.

(** What the server writes once its world is downloaded: the greeting, then the answers. *)
Lemma server_transfer_ok t s world aux fs desc w new b :
  assemble_world s = Ok (world, aux) -> deconstruct_world world aux = Ok (desc, world_chunks fs) ->
  dw_world_info s = w -> dw_new_world_info s = new ->
  encode_message t (mkWorldReady desc w new) = Ok b -> len b <= MESSAGE_SIZE_LIMIT ->
  forall io, fst (server_transfer_world_data t s io) = framed b ++ server_peer t (world_chunks fs) io /\
    snd (server_transfer_world_data t s io) = Z.add (len b) <$> snd (provide_chunks_as_requested t (world_chunks fs) io).
Proof.
  move=> Hasm Hdec Hold Hnew Henc Hlen io.
  rw /server_transfer_world_data Hasm bind_ok Hdec bind_ok Hold Hnew (encode_async_ok _ _ _ Henc) bind_ok write_message_ok //.
  rw bind_ok /server_peer. by destruct (provide_chunks_as_requested t (world_chunks fs) io).
Qed.

(** The client's task once it has read the greeting. *)
Lemma client_transfer_ok t peer others fuel (cache : ChunkCache M) opening b out m res
  (Hrmp : forall (m : WorldReadyMessage) b, rmp_write m = Ok b -> rmp_from_read (b, UnexpectedEof) = Ok m) :
  peer opening = framed b ++ out -> encode_message t m = Ok b -> len b <= MESSAGE_SIZE_LIMIT ->
  receive_world (H2 := fetcher_provider t peer others) fetcher_mark_dirty fuel (wrm_world m) (wrm_new_info m)
    (ChunkFetcherProvider_new cache (mkStream opening (len (framed b)))) = res ->
  client_transfer_world_data t peer others fuel cache (mkStream opening 0) = res.
Proof.
  move=> Hpeer Henc Hlen <-. rw /client_transfer_world_data /stream_read_message. cbn [st_sent st_read].
  rw Hpeer zdrop_0 read_written // bind_ok.
  apply bind_ok_inv in Henc as (d & Hd & Hz). rw /decode_message_async /decode_message (zstd_recovers _ _ _ Hz) (Hrmp _ _ Hd).
  have -> : 0 + 4 + len b = len (framed b) by rw length_framed; lia.
  destruct (receive_world _ _ _ _ _) as [[pieces r0] s'] eqn:Hr.
  by apply (emit_bind_ok _ _ _ [] _ _ pieces _ _ eq_refl).
Qed.

Lemma deconstruct_desc world aux fs :
  ZipArchive_new world = Ok ((fun f => Ok (fst f)) <$> fs) -> Forall decoded fs ->
  exists desc, deconstruct_world world aux = Ok (desc, world_chunks fs).
Proof.
  move=> Hfs Hdecoded. destruct (deconstruct_files_ok fs ∅ Hdecoded) as (descs & h & Hd & _).
  eexists. by rw /deconstruct_world Hfs bind_ok Hd bind_ok.
Qed.

(** C1: the whole path.  Let a Factorio server announce a non-empty world, in a heartbeat
    whose sizes do not overflow 32 bits, and deliver all its blocks, in any order and with
    repetitions.  Then the server proxy recovers the world and takes it apart; and a client
    on an unbroken stream to that server's task rebuilds a world of the announced size and
    CRC whose archive has the same decoded files; the server's task, on everything the
    client wrote, ends without an error; and whenever the game client asks for a block of
    the announced world before the rebuilt stream is closed, it gets that block of the
    rebuilt world and auxiliary data.

    The conditions: the files of the world can be decoded, fit the ZIP format (names of 16
    bits, sizes of 32 bits, fewer than 2^16 files) and their chunks have no colliding
    digests; the rebuilt archive fits into the size that the proxy estimated and announced
    (otherwise the transfer is an error, see [world_transfer_correct]), which fits the
    32-bit block counts; the message that describes the world is below the limit of 20 MB;
    the cache holds no other content for a chunk of the world; and other tasks that are
    fetching chunks of the world deliver them, as [others_deliver] says. *)
Theorem world_reaches_client opts now seq count w rest world aux evs fs (t : MessageTransport)
  (cache : ChunkCache M) others peer_id
  (Hrmp : forall (m : WorldReadyMessage) b, rmp_write m = Ok b -> rmp_from_read (b, UnexpectedEof) = Ok m)
  (Hseq : in_u 32 seq) (Hcount : 0 < count < 255) (Hmeta : metadata_ok w)
  (Hsizes : sizes_ok w) (Hpos : 0 < world_size w)
  (Hworld : len world = world_size w) (Haux : len aux = aux_size w)
  (Hhonest : Forall (fun ev => honest_packet world aux (snd ev)) evs)
  (Hall : forall id, 0 <= id < total_blocks w -> Exists (fun ev => delivers id (snd ev)) evs)
  (Hfs : ZipArchive_new world = Ok ((fun f => Ok (fst f)) <$> fs)) (Hdecoded : Forall decoded fs)
  (Hfree : collision_free (world_blobs fs)) (Hfits : Forall file_fits fs) (Hfiles : len fs < 2 ^ 16)
  (Hsize : rebuilt_size fs <= estimated_reconstructed_world_size opts w)
  (Hmax : estimated_reconstructed_world_size opts w + len aux + 2 * TRANSFER_BLOCK_SIZE <= U32_MAX)
  (Hready : forall desc, deconstruct_world world aux = Ok (desc, world_chunks fs) ->
     exists b, encode_message t (mkWorldReady desc w (announced_info opts w)) = Ok b /\
       len b <= MESSAGE_SIZE_LIMIT)
  (Hcache : cache_agrees (world_chunks fs) cache) (Hothers : others_deliver others (world_chunks fs)) :
  exists st out s depth,
    run_server (ServerProxyState_new opts) ((now, map_ready_heartbeat seq count w rest) :: evs) =
      Ok (st, out, [s]) /\
    forall fuel, (depth < fuel)%nat ->
    exists pieces s' world' files',
      client_transfer_world_data t (server_stream t s) others fuel cache (mkStream (put_u32_le peer_id) 0) =
        (pieces, Ok tt, s') /\
      (exists io n, st_sent (cf_stream s') = put_u32_le peer_id ++ io /\ snd (server_transfer_world_data t s io) = Ok n) /\
      len world' = estimated_reconstructed_world_size opts w /\
      crc_checksum (world' ++ aux) = world_crc w /\
      read_zip inflate world' = Ok files' /\
      Forall2 (fun f f' => fst (fst f) = fst f' /\
                 decode_factorio_file (fst f') (snd f') = Ok (snd f)) fs files' /\
      concat pieces = resize0 (block_count (len world') * TRANSFER_BLOCK_SIZE) world' ++
                      resize0 (block_count (len aux) * TRANSFER_BLOCK_SIZE) aux /\
      forall start te data id pre post,
        channel_ok false (pre ++ (te, FromClient data) :: post) = true -> existsb closes pre = false ->
        world_stream (pre ++ (te, FromClient data) :: post) = concat pieces ->
        requested_block data = Some id -> id < block_count (len world') + block_count (len aux) ->
        exists st' out', run_client (ClientProxyState_new start) (pre ++ (te, FromClient data) :: post) =
            Ok (st', out') /\
          block_response (concat pieces) id ∈ out'.
Proof.
  destruct (download_ok opts now seq count w rest world aux evs)
    as (st & out & s & Hrun & _ & Hasm & Hold & Hnew); [done..|].
  destruct (deconstruct_desc world aux fs Hfs Hdecoded) as (desc0 & Hdec0).
  destruct (Hready desc0 Hdec0) as (b & Henc & Hlen).
  pose proof (server_transfer_ok t s world aux fs desc0 w _ b Hasm Hdec0 Hold Hnew Henc Hlen) as Hserver.
  set opening := put_u32_le peer_id.
  have Hpeer io : server_stream t s (opening ++ io) = framed b ++ server_peer t (world_chunks fs) io.
  { rw /server_stream read_exact_app //. apply Hserver. }
  set P := fetcher_provider t (server_stream t s) others.
  set PS := fetcher_provider_spec t (world_chunks fs) others
    (fun k c H => proj1 (world_chunks_ok fs k c H)) (fun k c H => proj2 (world_chunks_ok fs k c H))
    (world_chunks fs) (reflexivity (R := (⊆)) (world_chunks fs)) (server_stream t s) opening (framed b) Hpeer Hothers.
  destruct (@world_transfer_ok Hb Hspec C CS HZl ZS HR HDf inflate DS _ P _ PS fetcher_mark_dirty
    world aux fs (announced_info opts w)) as (desc & depth & Hdec & Hrec); try done.
  { by apply store_all_knows. }
  { by destruct Hmeta as (_ & _ & _ & _ & ?). }
  have Hd : desc = desc0 by rw Hdec0 in Hdec; injection Hdec. subst desc0.
  exists st, out, s, depth. split; [done|]. move=> fuel Hfuel.
  set s0 := ChunkFetcherProvider_new cache (mkStream opening (len (framed b))).
  destruct (Hrec fuel s0 Hfuel)
    as (pieces & s' & world' & Hr & Hl & Hcrc & Hst & (files' & Hzip & Hsame) & s2 & -> & (_ & _ & _ & Hstr)).
  { by apply fetcher_inv_new. }
  cbn [world_size world_crc announced_info] in Hl, Hcrc, Hst.
  exists pieces, (fetcher_mark_dirty s2), world', files'.
  split; [|split; [|split; [exact Hl|]; split; [exact Hcrc|]; split; [exact Hzip|]; split; [exact Hsame|]; split; [by rw Hl|]]].
  - have Hgreet := Hpeer []. rw app_nil_r in Hgreet. by eapply client_transfer_ok.
  - destruct (stream_served t (world_chunks fs) (fun k c H => proj1 (world_chunks_ok fs k c H)) opening (framed b) s2 Hstr)
      as (io & Hio & Hn). exists io, (len b + cf_total_transferred s2). split; [done|]. by rw (proj2 (Hserver io)) Hn.
  - move=> start te data id pre post Hch Hopen Hws Hreq Hid. rw -Hws. rw Hl in Hid.
    apply client_answers_ok; [done|done|done|]. rw Hws.
    apply (padded_complete _ aux _ world' id Hst). split; [|done].
    by destruct (requested_block_pos data id Hreq).
Qed.
End end_to_end.

(** ** Witness *)

#[global] Instance FactorioFileType_eq_dec : EqDecision FactorioFileType.
Proof. solve_decision. Defined.
#[global] Instance FactorioFileDescription_eq_dec : EqDecision FactorioFileDescription.
Proof. solve_decision. Defined.
#[global] Instance FactorioWorldDescription_eq_dec : EqDecision FactorioWorldDescription.
Proof. solve_decision. Defined.
#[global] Instance WorldReadyMessage_eq_dec : EqDecision WorldReadyMessage.
Proof. solve_decision. Defined.

Definition sample_description : FactorioWorldDescription :=
  match @deconstruct_world toy_blake3 toy_zlib sample_zip_reader sample_world sample_aux with
  | Ok (desc, _) => desc
  | _ => mkWorldDescription [] [] 0
  end.
Definition sample_ready : WorldReadyMessage :=
  mkWorldReady sample_description sample_metadata (announced_info sample_opts sample_metadata).

(** A serialisation that knows the sample message only. *)
Definition toy_ready_rmp : RmpSerde WorldReadyMessage := {|
  rmp_write m := if decide (m = sample_ready) then Ok [Byte.x01] else Err (LibError "rmp");
  rmp_from_read _ := Ok sample_ready;
|}.

(** The chunks of the sample world, which other tasks may deliver. *)
Definition sample_known : gmap ChunkKey bytes := @world_chunks toy_blake3 sample_world_files.

Lemma world_reaches_client_witness :
  exists st out s depth,
    run_server (F := naive_memmem) (ServerProxyState_new sample_opts) (sample_start :: sample_events) =
      Ok (st, out, [s]) /\
    forall fuel, (depth < fuel)%nat ->
    exists pieces s' world',
      @client_transfer_world_data toy_blake3 iso_hdlc toy_zlib stored_deflate toy_zstd AList _ toy_ready_rmp
        toy_request_rmp toy_send_rmp sample_transport
        (@server_stream toy_blake3 toy_zlib sample_zip_reader toy_zstd toy_ready_rmp toy_request_rmp toy_send_rmp
          sample_transport s) (all_delivered sample_known) fuel (ChunkCache_new 1000) (mkStream (put_u32_le 7) 0) =
        (pieces, Ok tt, s') /\
      len world' = 2000 /\ @crc_checksum iso_hdlc (world' ++ sample_aux) = 0xDEADBEEF.
Proof.
  destruct (@world_reaches_client toy_ready_rmp toy_blake3 toy_blake3_spec iso_hdlc iso_hdlc_spec toy_zlib toy_zlib_spec
    sample_zip_reader naive_memmem naive_memmem_spec stored_deflate stored_inflate stored_deflate_spec
    toy_zstd toy_zstd_spec toy_zstd_bound toy_request_rmp toy_request_spec toy_send_rmp toy_send_spec AList _ _
    sample_opts 0 9 1 sample_metadata [] sample_world sample_aux sample_events sample_world_files sample_transport
    (ChunkCache_new 1000) (all_delivered sample_known) 7) as (st & out & s & depth & H1 & H4).
  - move=> m b. cbn. by destruct (decide (m = sample_ready)) as [->|].
  - by vm_compute.
  - lia.
  - by vm_compute.
  - by vm_compute.
  - done.
  - by vm_compute.
  - by vm_compute.
  - exact sample_events_honest.
  - exact sample_events_deliver.
  - done.
  - by repeat (constructor; [done|]).
  - apply collision_freeb_true. by vm_compute.
  - by repeat (constructor; [done|]).
  - done.
  - by vm_compute.
  - by vm_compute.
  - move=> desc Hdesc. have -> : desc = sample_description by rw /sample_description Hdesc.
    exists [Byte.x28; Byte.x01]. split; [|done]. rw /encode_message. cbn [rmp_write toy_ready_rmp].
    by destruct (decide (mkWorldReady sample_description sample_metadata _ = sample_ready)).
  - split_and!; [by apply raw_inv_new|done|]. move=> k v v' Hin. by inversion Hin.
  - apply all_delivered_ok. by vm_compute.
  - exists st, out, s, depth. split; [done|]. move=> fuel Hfuel.
    destruct (H4 fuel Hfuel) as (pieces & s' & world' & files' & Hr & _ & Hl & Hc & _).
    exists pieces, s', world'. split; [done|]. split; [|done]. rw Hl. by vm_compute.
Defined.
