(* ===== verification/SharedWorlds.v ===== *)
(** * Worlds of several players on one cache

    The client side of factorio-cacher gives each player's download a task of its own
    ([transfer_world_data] of proxy/client_proxy.rs); all of them fetch through one chunk
    cache.  Here the transfers of SharedCache.v are those of [receive_world]: their calls are
    the calls that [receive_world] makes, and the chunks that a task has got, fed to
    [receive_world] one by one, rebuild the player's world. *)

From Stdlib Require Import ssreflect.
From stdpp Require Import base numbers list gmap strings.
From S2P Require Import Prelude Buf Chunker Dedup ChunkCache ProtocolUtils SharedCache RevCrc FactorioProtocol FactorioServerProxy FactorioClientProxy ZipWriter FactorioWorld EndToEnd.

#[local] Open Scope general_if_scope.

(** ** Replaying a client

    A provider that gives a client the chunks of a list, one per call. *)

Definition replay_provider : ChunkProvider (list bytes) := {|
  prefetch _ answers := answers;
  get_chunk _ answers :=
    match answers with
    | chunk :: answers => (Ok chunk, answers)
    | [] => (Panic "No more answers", [])
    end;
|}.

Section replay.
Context (served : gmap ChunkKey bytes).
#[local] Abbreviation RC := (record_provider served).
#[local] Abbreviation RP := replay_provider.

(** If a client succeeds while its calls are recorded, it does the same when their
    answers are replayed. *)
Definition replays {A} (m1 : emitM (list ProviderCall) A) (m2 : emitM (list bytes) A) : Prop :=
  forall log out a log', m1 log = (out, Ok a, log') ->
    exists calls, log' = log ++ calls /\ forall rest, m2 (expected served calls ++ rest) = (out, Ok a, rest).

Definition replays_state {A} (f1 : list ProviderCall -> result A * list ProviderCall)
    (f2 : list bytes -> result A * list bytes) : Prop :=
  forall log a log', f1 log = (Ok a, log') ->
    exists calls, log' = log ++ calls /\ forall rest, f2 (expected served calls ++ rest) = (Ok a, rest).

Lemma expected_app l1 l2 : expected served (l1 ++ l2) = expected served l1 ++ expected served l2.
Proof. apply omap_app. Qed.

Lemma replays_lift {A} (f1 : list ProviderCall -> result A * list ProviderCall) f2 :
  replays_state f1 f2 -> replays (lift_state f1) (lift_state f2).
Proof.
  move=> Hf log out a log'. rw /lift_state. destruct (f1 log) as [r log1] eqn:E. intros [= <- -> ->].
  destruct (Hf _ _ _ E) as (calls & -> & Hr). exists calls. split; [done|]. move=> rest. by rw Hr.
Qed.

Lemma replays_bind {A B} (m1 : emitM (list ProviderCall) A) m2 (k1 : A -> emitM (list ProviderCall) B) k2 :
  replays m1 m2 -> (forall a, replays (k1 a) (k2 a)) -> replays (m1 ≫= k1) (m2 ≫= k2).
Proof.
  move=> Hm Hk log out b log'. rw {1}/mbind /emit_bind. destruct (m1 log) as [[out1 [a|e|p]] log1] eqn:E1; [|done..].
  destruct (k1 a log1) as [[out2 r] log2] eqn:E2. intros [= <- -> ->].
  destruct (Hm _ _ _ _ E1) as (c1 & -> & H1). destruct (Hk _ _ _ _ _ E2) as (c2 & -> & H2).
  exists (c1 ++ c2). split; [by rw app_assoc|]. move=> rest. rw expected_app -app_assoc /mbind /emit_bind H1. by rw H2.
Qed.

Lemma replays_pure {A} (out : list bytes) (r : result A) :
  replays (fun log => (out, r, log)) (fun answers => (out, r, answers)).
Proof. move=> log out' a log' [= <- -> <-]. exists []. by rw app_nil_r. Qed.

Lemma replays_prefetch ks : replays (modify (@prefetch _ RC ks)) (modify (@prefetch _ RP ks)).
Proof. move=> log out a log' [= <- <- <-]. by exists [CallPrefetch ks]. Qed.

Lemma replays_get k : replays_state (@get_chunk _ RC k) (@get_chunk _ RP k).
Proof.
  move=> log a log'. cbn. destruct (served !! k) as [v|] eqn:Hk; [|done]. intros [= <- <-]. exists [CallGetChunk k].
  split; [done|]. move=> rest. cbn. by rw Hk.
Qed.

Lemma replays_for {A} (l : list A) f1 f2 :
  (forall x, replays (f1 x) (f2 x)) -> replays (emit_for l f1) (emit_for l f2).
Proof. move=> Hf. elim: l => [|x l IH]; [apply replays_pure|]. apply replays_bind; [done|]. by move=> []. Qed.

Lemma replays_reconstruct fuel cl :
  replays (@reconstruct_data _ RC fuel cl) (@reconstruct_data _ RP fuel cl).
Proof.
  elim: fuel cl => [|fuel IH] cl; cbn [reconstruct_data]; [apply replays_pure|].
  apply replays_bind; [apply replays_prefetch|]. move=> []. apply replays_for => k.
  apply replays_bind; [apply replays_lift, replays_get|]. move=> chunk. destruct (is_leaf cl); [apply replays_pure|].
  apply replays_bind; [apply replays_pure|done].
Qed.

Lemma replays_children keys : replays_state (@fetch_children _ RC keys) (@fetch_children _ RP keys).
Proof.
  elim: keys => [|k keys IH] log a log'; cbn [fetch_children]; [intros [= <- <-]; exists []; by rw app_nil_r|].
  destruct (@get_chunk _ RC k log) as [[v|e|p] log1] eqn:E1; [|done..].
  destruct (ChunkList_decode v) as [child|e|p] eqn:Ed; [|done..].
  destruct (@fetch_children _ RC keys log1) as [r log2] eqn:E2. destruct r as [cs|e|p]; [|done..]. intros [= <- <-].
  destruct (replays_get k _ _ _ E1) as (c1 & -> & H1). destruct (IH _ _ _ E2) as (c2 & -> & H2).
  exists (c1 ++ c2). split; [by rw app_assoc|]. move=> rest. by rw expected_app -app_assoc H1 Ed H2.
Qed.

Lemma replays_level current : replays_state (@next_level _ RC current) (@next_level _ RP current).
Proof.
  elim: current => [|cl current IH] log a log'; cbn [next_level]; [intros [= <- <-]; exists []; by rw app_nil_r|].
  destruct (is_leaf cl); [apply IH|].
  destruct (@fetch_children _ RC (chunks cl) log) as [[cs|e|p] log1] eqn:E1; [|done..].
  destruct (@next_level _ RC current log1) as [r log2] eqn:E2. destruct r as [cs'|e|p]; [|done..]. intros [= <- <-].
  destruct (replays_children _ _ _ _ E1) as (c1 & -> & H1). destruct (IH _ _ _ E2) as (c2 & -> & H2).
  exists (c1 ++ c2). split; [by rw app_assoc|]. move=> rest. by rw expected_app -app_assoc H1 H2.
Qed.

Lemma replays_metadata fuel current :
  replays_state (@prefetch_metadata_chunks _ RC fuel current) (@prefetch_metadata_chunks _ RP fuel current).
Proof.
  elim: fuel current => [|fuel IH] [|cl current] log a log'; cbn [prefetch_metadata_chunks]; try done.
  1, 2: intros [= <- <-]; exists []; by rw app_nil_r.
  destruct (@next_level _ RC (cl :: current) _) as [[next|e|p] log1] eqn:E1; [|done..]. move=> E2.
  destruct (replays_level _ _ _ _ E1) as (c1 & -> & H1). destruct (IH _ _ _ _ E2) as (c2 & -> & H2).
  exists (CallPrefetch ((cl :: current) ≫= chunks) :: c1 ++ c2). split; [cbn; by rw -!app_assoc|]. move=> rest.
  rw (expected_app [_] (c1 ++ c2)) expected_app -!app_assoc. cbn [expected omap list_omap app]. cbn [prefetch replay_provider].
  by rw H1 H2.
Qed.

Context `{C : CrcImpl} `{HD : Deflate} `{HZl : Zlib}.

Lemma replays_file fuel wr d :
  replays_state (@reconstruct_world_file C HD HZl _ RC fuel wr d) (@reconstruct_world_file C HD HZl _ RP fuel wr d).
Proof.
  move=> log a log'. rw /reconstruct_world_file. destruct (@reconstruct_data _ RC _ _ log) as [[out [[]|e|p]] log1] eqn:E; [|done..].
  intros [= Ha <-]. destruct (replays_reconstruct _ _ _ _ _ _ E) as (c & -> & H). exists c. split; [done|]. move=> rest. by rw H Ha.
Qed.

Lemma replays_world fuel desc new_info :
  replays (@receive_world C HD HZl _ RC id fuel desc new_info) (@receive_world C HD HZl _ RP id fuel desc new_info).
Proof.
  rw /receive_world. apply replays_bind; [apply replays_lift, replays_metadata|]. move=> []. apply replays_bind.
  - move: (WorldReconstructor_new) => wr. elim: (wd_files desc) wr => [|f files IH] wr; cbn [reconstruct_files]; [apply replays_pure|].
    apply replays_bind; [apply replays_lift, replays_file|]. move=> [wr' data]. apply replays_bind; [apply replays_pure|]. by move=> [].
  - move=> wr. apply replays_bind; [apply replays_pure|]. move=> []. apply replays_bind; [apply replays_pure|]. move=> last.
    apply replays_pure.
Qed.
End replay.

(** ** Downloads *)

(** What a player downloads: the state of the server's task, with the world and the
    auxiliary data in it and the files of its archive; and the id of the player. *)
Record WorldDownload := mkDownload {
  wl_state : DownloadingWorldState;
  wl_world : bytes;
  wl_aux : bytes;
  wl_files : list world_file;
  wl_peer : Z;
}.

Section downloads.
Context `{HRw : RmpSerde WorldReadyMessage}.
Context `{Hb : Blake3} {Hspec : Blake3Spec Hb} `{C : CrcImpl} {CS : CrcSpec C}.
Context `{HZl : Zlib} {ZS : ZlibSpec HZl} `{HR : ZipReader}.
Context `{HDf : Deflate} {inflate : bytes -> option bytes} {DS : DeflateSpec HDf inflate}.
Context `{HZ : Zstd} {HZS : ZstdSpec HZ} {HZB : ZstdBound HZ}.
Context `{HRq : RmpSerde RequestChunksMessage} {HRqS : RmpSpec RequestChunksMessage request_size}.
Context `{HRs : RmpSerde SendChunksMessage} {HRsS : RmpSpec SendChunksMessage send_size}.
Context (t : MessageTransport).
Implicit Types d : WorldDownload.

(** A world that the code can carry: the server has it, its archive is readable, its files
    and their number stay below the limits of the formats, the rebuilt archive fits the
    size that was announced to the player, and the message that describes it fits the limit
    of a message. *)
Record download_ok d : Prop := {
  do_assembled : assemble_world (wl_state d) = Ok (wl_world d, wl_aux d);
  do_archive : ZipArchive_new (wl_world d) = Ok ((fun f => Ok (fst f)) <$> wl_files d);
  do_decoded : Forall decoded (wl_files d);
  do_free : collision_free (world_blobs (wl_files d));
  do_fits : Forall file_fits (wl_files d);
  do_count : len (wl_files d) < 2 ^ 16;
  do_crc : in_u 32 (world_crc (dw_new_world_info (wl_state d)));
  do_size : rebuilt_size (wl_files d) <= world_size (dw_new_world_info (wl_state d));
  do_max : world_size (dw_new_world_info (wl_state d)) + len (wl_aux d) + 2 * TRANSFER_BLOCK_SIZE <= U32_MAX;
  do_message desc : deconstruct_world (wl_world d) (wl_aux d) = Ok (desc, world_chunks (wl_files d)) ->
    exists b, encode_message t (mkWorldReady desc (dw_world_info (wl_state d)) (dw_new_world_info (wl_state d))) = Ok b /\
      len b <= MESSAGE_SIZE_LIMIT;
}.

(** The transfer of a world: after the player's id and the server's message, the calls of
    [receive_world] on the server's chunks. *)
Definition world_transfer (fuel : nat) d : Transfer :=
  match deconstruct_world (wl_world d) (wl_aux d) with
  | Ok (desc, offered) =>
      mkTransfer offered (server_stream t (wl_state d)) (put_u32_le (wl_peer d))
        (match encode_message t (mkWorldReady desc (dw_world_info (wl_state d)) (dw_new_world_info (wl_state d))) with
         | Ok b => framed b
         | _ => []
         end)
        (snd (receive_world (H2 := record_provider offered) id fuel desc (dw_new_world_info (wl_state d)) []))
  | _ => mkTransfer ∅ (fun _ => []) [] [] []
  end.

(** [receive_world], given these chunks one by one, uses them up and yields a world of the
    announced size and CRC, in blocks, whose archive has the files of the original. *)
Definition rebuilds (fuel : nat) d (got : list bytes) : Prop :=
  let new_info := dw_new_world_info (wl_state d) in
  exists desc offered pieces world' files',
    deconstruct_world (wl_world d) (wl_aux d) = Ok (desc, offered) /\
    receive_world (H2 := replay_provider) id fuel desc new_info got = (pieces, Ok tt, []) /\
    len world' = world_size new_info /\ crc_checksum (world' ++ wl_aux d) = world_crc new_info /\
    concat pieces = resize0 (block_count (world_size new_info) * TRANSFER_BLOCK_SIZE) world' ++
                    resize0 (block_count (len (wl_aux d)) * TRANSFER_BLOCK_SIZE) (wl_aux d) /\
    read_zip inflate world' = Ok files' /\
    Forall2 (fun f f' => fst (fst f) = fst f' /\ decode_factorio_file (fst f') (snd f') = Ok (snd f)) (wl_files d) files'.

Lemma world_transfer_ready known d :
  download_ok d -> world_chunks (wl_files d) ⊆ known ->
  exists depth, forall fuel, (depth < fuel)%nat ->
    transfer_ok t known (world_transfer fuel d) /\
    rebuilds fuel d (expected (tr_chunks (world_transfer fuel d)) (tr_calls (world_transfer fuel d))).
Proof.
  intros [H1 H2 H3 H4 H5 H6 H7 H8 H9 H10] Hk.
  destruct (@world_transfer_ok Hb Hspec C CS HZl ZS HR HDf inflate DS _ (record_provider (world_chunks (wl_files d))) _
    (record_provider_spec _) id (wl_world d) (wl_aux d) (wl_files d) (dw_new_world_info (wl_state d)))
    as (desc & depth & Hdec & Hrec); try done; [by apply store_all_knows|].
  exists depth. move=> fuel Hfuel. destruct (Hrec fuel [] Hfuel I) as (pieces & log & world' & Hr & Hl & Hc & Hp & (files' & Hz & Hs) & s2 & -> & Hcalls).
  destruct (H10 desc Hdec) as (b & Henc & Hb').
  have Hrep := replays_world (world_chunks (wl_files d)) fuel desc (dw_new_world_info (wl_state d)) [] pieces tt s2 Hr.
  destruct Hrep as (calls & Heq & Hrep). cbn [app] in Heq. subst calls.
  pose proof (server_transfer_ok t (wl_state d) _ _ _ desc _ _ b H1 Hdec eq_refl eq_refl Henc Hb') as Hserver.
  have Htr : world_transfer fuel d = mkTransfer (world_chunks (wl_files d)) (server_stream t (wl_state d))
    (put_u32_le (wl_peer d)) (framed b) s2 by rw /world_transfer Hdec Henc Hr.
  rw Htr. split.
  - split_and!; [|by apply world_chunks_ok|done|done]. cbn [tr_peer tr_opening tr_greeting tr_chunks]. move=> io.
    rw /server_stream read_exact_app //. apply Hserver.
  - cbn [tr_chunks tr_calls]. exists desc, (world_chunks (wl_files d)), pieces, world', files'. split_and!; try done.
    have := Hrep []. by rw app_nil_r.
Qed.

Lemma world_transfers_ready known downloads :
  Forall download_ok downloads -> Forall (fun d => world_chunks (wl_files d) ⊆ known) downloads ->
  exists depth, forall fuel, (depth < fuel)%nat ->
    Forall (fun d => transfer_ok t known (world_transfer fuel d) /\
      rebuilds fuel d (expected (tr_chunks (world_transfer fuel d)) (tr_calls (world_transfer fuel d)))) downloads.
Proof.
  elim: downloads => [|d ds IH]; [by exists 0%nat|]. intros [Hd Hds]%Forall_cons [Hk Hks]%Forall_cons.
  destruct (world_transfer_ready known d Hd Hk) as (n1 & H1). destruct (IH Hds Hks) as (n2 & H2).
  exists (n1 `max` n2)%nat. move=> fuel Hf. constructor; [apply H1|apply H2]; lia.
Qed.

(** ** Property *)

Context `{HM : LinkedHashMap M} {HMS : LinkedHashMapSpec M}.

(** C11: worlds that fit are downloaded together.  Any number of players download worlds
    at the same time, each from a server task of its own, through one cache; their steps
    interleave in any way.  The conditions: every world is one that the code can carry,
    that is, its archive is readable, its files stay below the limits of a zip entry and
    2^16 in number, the blobs of all the worlds have different digests, the message that
    describes it stays below the 20 MB of a message, the world and the auxiliary data below
    2^32, and the rebuilt archive is not longer than the announced size (where it is longer
    [receive_world] gives an error instead, see [world_transfer_correct]); and at the
    beginning no task is fetching, the cache has room for the chunks of all the worlds and
    holds nothing else under their keys.  Then no run is longer than the work at its
    beginning, and as long as a download is not complete, some task can step.  In the end
    every task has got chunks from which [receive_world] rebuilds the player's world, with
    the announced size and CRC and the files of the original. *)
Theorem worlds_transferred_together (known : gmap ChunkKey bytes) (downloads : list WorldDownload) (c : ChunkCache M)
  (Hdownloads : Forall download_ok downloads)
  (Hknown : Forall (fun d => world_chunks (wl_files d) ⊆ known) downloads)
  (Hquiet : system_inv (mkSystem c [] []))
  (Hagree : forall k v v', (k, v) ∈ raw_entries (cc_raw_cache c) -> known !! k = Some v' -> v = v')
  (Hroom : entries_size (raw_entries (cc_raw_cache c) ++ map_to_list known) <= rc_max_size (cc_raw_cache c))
  (H64 : rc_max_size (cc_raw_cache c) + MAX_BLOB_SIZE < 2 ^ 64) :
  exists depth, forall fuel n ks s, (depth < fuel)%nat ->
    let transfers := world_transfer fuel <$> downloads in
    shared_run t (tr_peer <$> transfers) n (shared_new transfers c) ks s ->
    (n + shared_work s <= shared_work (shared_new transfers c))%nat /\
    ((exists i task s', shared_step t (tr_peer <$> transfers) i s task s') \/
     Forall2 (fun d task => rebuilds fuel d (ft_chunks task)) downloads (sh_tasks s)).
Proof.
  destruct (world_transfers_ready known downloads Hdownloads Hknown) as (depth & Hready).
  exists depth. move=> fuel n ks s Hfuel. cbv zeta => Hrun. have {}Hready := Hready fuel Hfuel.
  destruct (shared_transfers_complete t known (world_transfer fuel <$> downloads) c) with (n := n) (ks := ks) (s := s)
    as (Hw & _ & [Hstep|Hdone]); try done.
  - apply Forall_fmap. eapply Forall_impl; [exact Hready|]. by intros d [? _].
  - split; [done|by left].
  - split; [done|right]. rw Forall2_fmap_l in Hdone. apply Forall2_same_length_lookup. split; [by eapply Forall2_length|].
    move=> i d task Hd Ht. destruct (Forall_lookup_1 _ _ _ _ Hready Hd) as [_ Hreb].
    destruct (Forall2_lookup_lr _ _ _ _ _ _ Hdone Hd Ht) as (_ & _ & -> & _). done.
Qed.
End downloads.

(** ** Witness *)

(** Two players download the sample world. *)
Definition sample_download_state : DownloadingWorldState :=
  match run_server (F := naive_memmem) (ServerProxyState_new sample_opts) (sample_start :: sample_events) with
  | Ok (_, _, [s]) => s
  | _ => mkDownloading sample_metadata sample_metadata 0 0 [] [] [] 0
  end.

Definition sample_download (peer : Z) : WorldDownload :=
  mkDownload sample_download_state sample_world sample_aux sample_world_files peer.

Lemma sample_download_ok peer :
  @download_ok toy_ready_rmp toy_blake3 toy_zlib sample_zip_reader stored_deflate toy_zstd sample_transport (sample_download peer).
Proof.
  split.
  - by vm_compute.
  - done.
  - by repeat (constructor; [done|]).
  - apply collision_freeb_true. by vm_compute.
  - by repeat (constructor; [done|]).
  - done.
  - by vm_compute.
  - by vm_compute.
  - by vm_compute.
  - move=> desc Hdesc. have -> : desc = sample_description by rw /sample_description Hdesc.
    exists [Byte.x28; Byte.x01]. split; [|done]. rw /encode_message. cbn [rmp_write toy_ready_rmp].
    by destruct (decide (mkWorldReady sample_description _ _ = sample_ready)).
Qed.

Lemma worlds_transferred_together_witness :
  exists depth, forall fuel, (depth < fuel)%nat ->
    let transfers := @world_transfer toy_ready_rmp toy_blake3 iso_hdlc toy_zlib sample_zip_reader stored_deflate toy_zstd
      toy_request_rmp toy_send_rmp sample_transport fuel <$> [sample_download 7; sample_download 8] in
    let s := shared_new transfers (ChunkCache_new 1000) in
    (exists i task s', @shared_step toy_blake3 toy_zstd toy_request_rmp toy_send_rmp AList _ sample_transport
        (tr_peer <$> transfers) i s task s') \/
    Forall2 (fun d task => @rebuilds toy_blake3 iso_hdlc toy_zlib sample_zip_reader stored_deflate stored_inflate fuel d (ft_chunks task))
      [sample_download 7; sample_download 8] (sh_tasks s).
Proof.
  destruct (@worlds_transferred_together toy_ready_rmp toy_blake3 toy_blake3_spec iso_hdlc iso_hdlc_spec toy_zlib toy_zlib_spec
    sample_zip_reader stored_deflate stored_inflate stored_deflate_spec toy_zstd toy_zstd_spec toy_zstd_bound
    toy_request_rmp toy_request_spec toy_send_rmp toy_send_spec sample_transport AList _ _ sample_known
    [sample_download 7; sample_download 8] (ChunkCache_new 1000)) as (depth & Hd).
  - by repeat (constructor; [apply sample_download_ok|]).
  - by repeat (constructor; [done|]).
  - by apply system_inv_new.
  - move=> k v v'. rw sample_entries_nil. by inversion 1.
  - by vm_compute.
  - done.
  - exists depth. move=> fuel Hf. by destruct (Hd fuel 0%nat [] _ Hf (run_nil _ _ _)) as [_ H].
Defined.
