(* ===== verification/Lz4Frame.v ===== *)
(** * LZ4 frames of stored blocks

    Models dsp-nebula-cacher/src/lz4_frame_encoder.rs: the encoder that wraps a
    rebuilt packet into an LZ4 frame without compressing it, so that the size of
    the frame is known before its contents are.  The encoder emits the frame
    piecewise; here a frame is also given in one piece ([lz4_frame]) and read by a
    reference reader of the frame format.  [twox_hash::XxHash32] is a parameter:
    its streaming interface and its one-shot function. *)

From Stdlib Require Import ssreflect.
From stdpp Require Import base numbers list strings.
From S2P Require Import Prelude Buf.

#[local] Open Scope general_if_scope.

(** [twox_hash::XxHash32] *)
Class XxHash32 (X : Type) := {
  xx_with_seed : Z -> X;
  xx_write : X -> bytes -> X;
  xx_finish_32 : X -> Z;
  xx_oneshot : Z -> bytes -> Z;
}.

(** The digest of a stream does not depend on how it was cut into writes. *)
Class XxHash32Spec (X : Type) {H : XxHash32 X} : Prop := {
  xx_stream seed ws : xx_finish_32 (foldl xx_write (xx_with_seed seed) ws) = xx_oneshot seed (concat ws);
  xx_range seed b : in_u 32 (xx_oneshot seed b);
}.

Definition MAX_BLOCK_SIZE : Z := 64000.

(** ** The encoder *)

Record Lz4DeterministicFrameEncoder (X : Type) := mkEncoder {
  le_pending_data : bytes;
  le_buffer : bytes;
  le_content_hasher : X;
}.
Arguments mkEncoder {X}.
Arguments le_pending_data {X}.
Arguments le_buffer {X}.
Arguments le_content_hasher {X}.

Section encoder.
Context `{XxHash32 X}.

Definition Lz4Encoder_new : Lz4DeterministicFrameEncoder X :=
  let buffer := put_u32_le 0x184D2204 ++ put_u8 100 ++ put_u8 64 in
  let header_checksum := xx_oneshot 0 (zdrop 4 buffer) in
  mkEncoder [] (buffer ++ put_u8 (Z.land (Z.shiftr header_checksum 8) 255)) (xx_with_seed 0).

Definition build_block (e : Lz4DeterministicFrameEncoder X) : Lz4DeterministicFrameEncoder X :=
  let block_size := Z.min MAX_BLOCK_SIZE (len (le_pending_data e)) in
  let block_contents := ztake block_size (le_pending_data e) in
  mkEncoder (zdrop block_size (le_pending_data e))
    (le_buffer e ++ put_u32_le (Z.lor 0x80000000 (wrap 32 block_size)) ++ block_contents)
    (xx_write (le_content_hasher e) block_contents).

(** [while self.pending_data.len() >= MAX_BLOCK_SIZE]; every block takes bytes off
    the pending data, whose length is fuel enough. *)
Fixpoint build_blocks (fuel : nat) (e : Lz4DeterministicFrameEncoder X) : Lz4DeterministicFrameEncoder X :=
  match fuel with
  | O => e
  | S fuel => if MAX_BLOCK_SIZE <=? len (le_pending_data e) then build_blocks fuel (build_block e) else e
  end.

Definition add_data (e : Lz4DeterministicFrameEncoder X) (data : bytes)
  : option bytes * Lz4DeterministicFrameEncoder X :=
  let e := mkEncoder (le_pending_data e ++ data) (le_buffer e) (le_content_hasher e) in
  if MAX_BLOCK_SIZE <=? len (le_pending_data e) then
    let e := build_blocks (length (le_pending_data e)) e in
    (Some (le_buffer e), mkEncoder (le_pending_data e) [] (le_content_hasher e))
  else (None, e).

Definition finish (e : Lz4DeterministicFrameEncoder X) : bytes :=
  let e := match le_pending_data e with [] => e | _ => build_block e end in
  le_buffer e ++ put_u32_le 0 ++ put_u32_le (xx_finish_32 (le_content_hasher e)).

(** Data added piece by piece: the fragments that come out, and the encoder. *)
Fixpoint add_all (e : Lz4DeterministicFrameEncoder X) (ds : list bytes)
  : list bytes * Lz4DeterministicFrameEncoder X :=
  match ds with
  | [] => ([], e)
  | d :: ds =>
      let '(fragment, e) := add_data e d in
      let '(fragments, e) := add_all e ds in
      (match fragment with Some f => f :: fragments | None => fragments end, e)
  end.
End encoder.

Definition framed_size (original_len : Z) : Z :=
  let total_blocks := wrap 64 (wrap 64 (original_len + MAX_BLOCK_SIZE) - 1) / MAX_BLOCK_SIZE in
  wrap 64 (4 + 3 + total_blocks * 4 + original_len + 4 + 4).

(** ** The frame in one piece *)

Fixpoint cut_blocks (fuel : nat) (data : bytes) : list bytes :=
  match fuel, data with
  | S fuel, _ :: _ => ztake MAX_BLOCK_SIZE data :: cut_blocks fuel (zdrop MAX_BLOCK_SIZE data)
  | _, _ => []
  end.

Definition lz4_blocks (data : bytes) : list bytes := cut_blocks (length data) data.

Definition lz4_block (b : bytes) : bytes := put_u32_le (0x80000000 + len b) ++ b.

Section frame.
Context `{XxHash32 X}.

Definition lz4_header : bytes :=
  put_u32_le 0x184D2204 ++ [z2b 100; z2b 64] ++ put_u8 (xx_oneshot 0 [z2b 100; z2b 64] / 256 mod 256).

Definition lz4_frame (data : bytes) : bytes :=
  lz4_header ++ concat (lz4_block <$> lz4_blocks data) ++ put_u32_le 0 ++ put_u32_le (xx_oneshot 0 data).

(** *** A reference reader, for frames of stored blocks of at most 64 KiB with
    independent blocks, no block checksums and a content checksum *)

Fixpoint read_lz4_blocks (fuel : nat) (buf : bytes) : result (bytes * bytes) :=
  '(size, buf) ← try_get_u32_le buf;
  if size =? 0 then Ok ([], buf)
  else if size <? 0x80000000 then Err (LibError "compressed block")
  else if 65536 <? size - 0x80000000 then Err (LibError "block too big")
  else
    match fuel with
    | O => Err (LibError "out of fuel")
    | S fuel =>
        '(block, buf) ← try_get_slice (size - 0x80000000) buf;
        '(data, buf) ← read_lz4_blocks fuel buf;
        Ok (block ++ data, buf)
    end.

Definition read_lz4_frame (frame : bytes) : result bytes :=
  '(magic, buf) ← try_get_u32_le frame;
  '(descriptor, buf) ← try_get_slice 2 buf;
  '(checksum, buf) ← try_get_u8 buf;
  if negb (magic =? 0x184D2204) then Err (LibError "magic number")
  else if negb (bool_decide (descriptor = [z2b 100; z2b 64])) then Err (LibError "frame descriptor")
  else if negb (checksum =? xx_oneshot 0 descriptor / 256 mod 256) then Err (LibError "header checksum")
  else
    '(data, buf) ← read_lz4_blocks (length buf) buf;
    '(content_checksum, buf) ← try_get_u32_le buf;
    if negb (content_checksum =? xx_oneshot 0 data) then Err (LibError "content checksum")
    else match buf with [] => Ok data | _ => Err (LibError "trailing data") end.
End frame.

(** ** Blocks *)

Lemma cut_blocks_enough f1 f2 data :
  (length data <= f1)%nat -> (length data <= f2)%nat -> cut_blocks f1 data = cut_blocks f2 data.
Proof.
  elim: f1 f2 data => [|f1 IH] [|f2] [|b data] //= H1 H2; try lia.
  f_equal. apply IH; rw /zdrop length_drop /MAX_BLOCK_SIZE; cbn [length]; lia.
Qed.

Lemma lz4_blocks_cons b data :
  b <> [] -> len b = MAX_BLOCK_SIZE \/ len b <= MAX_BLOCK_SIZE /\ data = [] ->
  lz4_blocks (b ++ data) = b :: lz4_blocks data.
Proof.
  move=> Hne Hb. rw /lz4_blocks. destruct b as [|x b]; [done|]. cbn [app length cut_blocks].
  rw app_comm_cons. have [-> ->] : ztake MAX_BLOCK_SIZE ((x :: b) ++ data) = x :: b /\
                                    zdrop MAX_BLOCK_SIZE ((x :: b) ++ data) = data.
  { destruct Hb as [Hb|[Hb ->]]; [by rw ztake_app ?zdrop_app|]. rw app_nil_r ztake_all //.
    split; [done|]. apply drop_ge. lia. }
  f_equal. apply cut_blocks_enough; [|done]. rw length_app. lia.
Qed.

Lemma lz4_blocks_app full tail :
  Forall (fun b => len b = MAX_BLOCK_SIZE) full -> len tail <= MAX_BLOCK_SIZE ->
  lz4_blocks (concat full ++ tail) = full ++ match tail with [] => [] | _ => [tail] end.
Proof.
  move=> Hf Ht. elim: Hf => [|b full0 Hb _ IH] /=.
  - destruct tail as [|x tl] eqn:E; [done|]. rw -E in Ht *.
    rw -{1}(app_nil_r tail) lz4_blocks_cons //; [by rw E|by right].
  - rw -app_assoc lz4_blocks_cons ?IH //; [|by left]. by destruct b.
Qed.

(** Every data is some full blocks and a shorter rest. *)
Lemma lz4_blocks_split data :
  exists (full : list bytes) (tail : bytes), data = concat full ++ tail /\ Forall (fun b => len b = MAX_BLOCK_SIZE) full /\
    len tail < MAX_BLOCK_SIZE.
Proof.
  induction data as [data IH] using (induction_ltof1 _ (@length _)). rw /ltof in IH.
  destruct (Z.lt_ge_cases (len data) MAX_BLOCK_SIZE) as [Hlt|Hge]; [by exists [], data|].
  destruct (IH (zdrop MAX_BLOCK_SIZE data)) as (full & tail & Hd & Hf & Ht).
  { rw /zdrop length_drop. rw /MAX_BLOCK_SIZE in Hge *. lia. }
  exists (ztake MAX_BLOCK_SIZE data :: full), tail. split_and!; [|constructor; [|done]|done].
  - cbn [concat]. by rw -app_assoc -Hd ztake_zdrop.
  - apply len_ztake. rw /MAX_BLOCK_SIZE in Hge *. lia.
Qed.

Lemma lz4_blocks_spec data :
  concat (lz4_blocks data) = data /\
  Forall (fun b => 0 < len b <= MAX_BLOCK_SIZE) (lz4_blocks data) /\
  len (lz4_blocks data) = (len data + (MAX_BLOCK_SIZE - 1)) / MAX_BLOCK_SIZE.
Proof.
  destruct (lz4_blocks_split data) as (full & tail & -> & Hf & Ht). rw lz4_blocks_app //; [lia|].
  split_and!.
  - rw concat_app. f_equal. destruct tail; [done|]. cbn. by rw app_nil_r.
  - apply Forall_app. split; [eapply Forall_impl; [exact Hf|]; rw /MAX_BLOCK_SIZE; cbn; lia|].
    destruct tail; [constructor|]. constructor; [|constructor]. cbn [length] in Ht |- *. lia.
  - have -> : len (concat full ++ tail) = len full * MAX_BLOCK_SIZE + len tail.
    { rw length_app. elim: Hf => [|b full' Hb _ IH] //=. rw length_app. lia. }
    rw /MAX_BLOCK_SIZE in Ht *. destruct tail as [|x tail]; rw length_app.
    + cbn [length]. apply (Z.div_unique _ _ _ 63999); lia.
    + apply (Z.div_unique _ _ _ (len (x :: tail) - 1)); cbn [length] in Ht |- *; lia.
Qed.

Lemma stored_flag n : 0 <= n < 2 ^ 31 -> Z.lor 0x80000000 n = 0x80000000 + n.
Proof.
  move=> Hn. rw -Z.add_lor_land. have -> : Z.land 0x80000000 n = 0; [|lia].
  apply Z.bits_inj' => i Hi. rw Z.land_spec Z.bits_0 (Z.pow2_bits_eqb 31 i); [lia|].
  case: Z.eqb_spec => // <-. apply Z.testbit_false; [lia|]. by rw Z.div_small.
Qed.

(** ** The encoder writes the frame *)

Section encoder_proofs.
Context `{HX : XxHash32 X} {HXS : XxHash32Spec X}.

Lemma encoder_header : le_buffer (Lz4Encoder_new (X := X)) = lz4_header.
Proof.
  rw /Lz4Encoder_new /lz4_header. cbn [le_buffer].
  have -> : zdrop 4 (put_u32_le 0x184D2204 ++ put_u8 100 ++ put_u8 64) = [z2b 100; z2b 64] by done.
  rw (Z.land_ones _ 8) // Z.shiftr_div_pow2 // -!app_assoc.
Qed.

(** After [data] went in and [sent] came out: the full blocks of the data are
    written and hashed, the rest is pending. *)
Definition encoder_inv (e : Lz4DeterministicFrameEncoder X) (data sent : bytes) (full : list bytes) : Prop :=
  Forall (fun b => len b = MAX_BLOCK_SIZE) full /\
  data = concat full ++ le_pending_data e /\
  sent ++ le_buffer e = lz4_header ++ concat (lz4_block <$> full) /\
  le_content_hasher e = foldl xx_write (xx_with_seed 0) full.

Lemma build_block_buffer (e : Lz4DeterministicFrameEncoder X) b rest :
  le_pending_data e = b ++ rest -> len b = MAX_BLOCK_SIZE \/ len b <= MAX_BLOCK_SIZE /\ rest = [] ->
  build_block e = mkEncoder rest (le_buffer e ++ lz4_block b) (xx_write (le_content_hasher e) b).
Proof.
  move=> Hp Hb. rw /build_block Hp.
  have -> : Z.min MAX_BLOCK_SIZE (len (b ++ rest)) = len b.
  { rw length_app. destruct Hb as [Hb|[Hb ->]]; [lia|]. cbn [length]. lia. }
  have Hl : len b < 2 ^ 31 by rw /MAX_BLOCK_SIZE in Hb; lia.
  rw ztake_app // zdrop_app // /wrap Z.mod_small; [lia|]. rw stored_flag //. lia.
Qed.

Lemma build_blocks_ok fuel (e : Lz4DeterministicFrameEncoder X) data sent full :
  encoder_inv e data sent full -> (length (le_pending_data e) <= fuel)%nat ->
  exists full', encoder_inv (build_blocks fuel e) data sent full' /\
    len (le_pending_data (build_blocks fuel e)) < MAX_BLOCK_SIZE.
Proof.
  elim: fuel e full => [|fuel IH] e full Hinv Hfuel; cbn [build_blocks].
  { exists full. split; [done|]. rw /MAX_BLOCK_SIZE. lia. }
  case: Z.leb_spec => Hlen; [|by exists full].
  destruct Hinv as (Hf & Hd & Hs & Hh).
  set b := ztake MAX_BLOCK_SIZE (le_pending_data e). set rest := zdrop MAX_BLOCK_SIZE (le_pending_data e).
  have Hb : len b = MAX_BLOCK_SIZE by apply len_ztake; rw /MAX_BLOCK_SIZE in Hlen *; lia.
  have Hp : le_pending_data e = b ++ rest by rw /b /rest ztake_zdrop.
  rw (build_block_buffer e b rest Hp); [by left|]. apply (IH _ (full ++ [b])).
  - split_and!; cbn [le_pending_data le_buffer le_content_hasher].
    + apply Forall_app. by split; [|constructor].
    + rw concat_app /= app_nil_r Hd Hp -app_assoc. done.
    + rw fmap_app concat_app /= app_nil_r !app_assoc Hs -!app_assoc. done.
    + by rw foldl_app Hh.
  - cbn [le_pending_data]. rw Hp length_app in Hfuel. rw /MAX_BLOCK_SIZE in Hb. lia.
Qed.

Lemma add_data_ok (e : Lz4DeterministicFrameEncoder X) data sent full d :
  encoder_inv e data sent full -> len (le_pending_data e) < MAX_BLOCK_SIZE ->
  exists full', encoder_inv (snd (add_data e d)) (data ++ d) (sent ++ default [] (fst (add_data e d))) full' /\
    len (le_pending_data (snd (add_data e d))) < MAX_BLOCK_SIZE.
Proof.
  intros (Hf & Hd & Hs & Hh) Hp. rw /add_data.
  set e1 := mkEncoder (le_pending_data e ++ d) (le_buffer e) (le_content_hasher e).
  have Hinv1 : encoder_inv e1 (data ++ d) sent full.
  { split_and!; [done| |done|done]. cbn [e1 le_pending_data]. by rw Hd -app_assoc. }
  case: Z.leb_spec => Hlen; cbn [fst snd].
  - destruct (build_blocks_ok (length (le_pending_data e1)) e1 _ _ _ Hinv1) as (full' & (Hf' & Hd' & Hs' & Hh') & Hl);
      [done|]. exists full'. split; [|done]. split_and!; [done|done| |done].
    cbn [default le_buffer]. by rw app_nil_r.
  - exists full. split; [|done]. cbn [default]. by rw app_nil_r.
Qed.

Lemma add_all_ok ds (e : Lz4DeterministicFrameEncoder X) data sent full :
  encoder_inv e data sent full -> len (le_pending_data e) < MAX_BLOCK_SIZE ->
  exists full', encoder_inv (snd (add_all e ds)) (data ++ concat ds) (sent ++ concat (fst (add_all e ds))) full' /\
    len (le_pending_data (snd (add_all e ds))) < MAX_BLOCK_SIZE.
Proof.
  elim: ds e data sent full => [|d ds IH] e data sent full Hinv Hp.
  { exists full. cbn [add_all fst snd concat]. by rw !app_nil_r. }
  destruct (add_data_ok e data sent full d Hinv Hp) as (full1 & Hinv1 & Hp1). cbn [add_all concat].
  destruct (add_data e d) as [fragment e1]. cbn [fst snd] in Hinv1, Hp1.
  destruct (IH e1 _ _ full1 Hinv1 Hp1) as (full2 & Hinv2 & Hp2).
  destruct (add_all e1 ds) as [fragments e2]. cbn [fst snd] in Hinv2, Hp2 |- *.
  exists full2. rw -app_assoc in Hinv2. destruct fragment as [f|]; cbn [default concat] in *.
  - by rw -app_assoc in Hinv2 *.
  - by rw app_nil_r in Hinv2.
Qed.

Lemma encoder_inv_new : encoder_inv (Lz4Encoder_new (X := X)) [] [] [].
Proof. split_and!; [constructor|done| |done]. rw encoder_header app_nil_l. cbn [fmap list_fmap concat]. by rw app_nil_r. Qed.

Lemma finish_ok (e : Lz4DeterministicFrameEncoder X) data sent full :
  encoder_inv e data sent full -> len (le_pending_data e) < MAX_BLOCK_SIZE ->
  sent ++ finish e = lz4_frame data.
Proof.
  intros (Hf & Hd & Hs & Hh) Hp. rw /finish /lz4_frame {1}Hd lz4_blocks_app //; [lia|].
  destruct (le_pending_data e) as [|x tl] eqn:E.
  - rw app_nil_r Hh xx_stream. rw Hd !app_nil_r. by rw !app_assoc Hs -!app_assoc.
  - rw -E in Hd Hp *. rw (build_block_buffer e (le_pending_data e) []); [by rw app_nil_r|right; split; [lia|done]|].
    cbn [le_buffer le_content_hasher]. rw Hh.
    have -> : xx_write (foldl xx_write (xx_with_seed 0) full) (le_pending_data e) =
      foldl xx_write (xx_with_seed 0) (full ++ [le_pending_data e]) by rw foldl_app.
    rw xx_stream concat_app fmap_app concat_app /= !app_nil_r -Hd !app_assoc Hs -!app_assoc. done.
Qed.

(** The fragments of a whole run of the encoder. *)
Definition encode_frame (ds : list bytes) : list bytes :=
  let '(fragments, e) := add_all (Lz4Encoder_new (X := X)) ds in fragments ++ [finish e].

Lemma encode_frame_ok ds : concat (encode_frame ds) = lz4_frame (concat ds).
Proof.
  destruct (add_all_ok ds _ _ _ _ encoder_inv_new) as (full & Hinv & Hp); [done|].
  rw /encode_frame. destruct (add_all _ ds) as [fragments e]. cbn [fst snd] in Hinv, Hp.
  rw app_nil_l in Hinv. rw concat_app /= app_nil_r. by apply (finish_ok e _ _ full).
Qed.

Lemma len_lz4_block b : length (lz4_block b) = (4 + length b)%nat.
Proof. by rw /lz4_block length_app length_put_u32_le. Qed.

Lemma len_blocks bs : len (concat (lz4_block <$> bs)) = 4 * len bs + len (concat bs).
Proof.
  elim: bs => [|b bs IH] //. cbn [fmap list_fmap concat]. rw length_app len_lz4_block length_app length_cons. lia.
Qed.

Lemma len_lz4_frame data : len data < 2 ^ 63 -> len (lz4_frame data) = framed_size (len data).
Proof.
  move=> Hl. destruct (lz4_blocks_spec data) as (Hc & _ & Hn).
  rw /lz4_frame /lz4_header /framed_size !length_app !length_put_u32_le length_put_u8.
  have := len_blocks (lz4_blocks data). rw Hc Hn. cbn [length].
  have Hw : wrap 64 (wrap 64 (len data + MAX_BLOCK_SIZE) - 1) = len data + (MAX_BLOCK_SIZE - 1).
  { rw /wrap /MAX_BLOCK_SIZE !Z.mod_small; lia. }
  rw Hw. have Hq : 0 <= (len data + (MAX_BLOCK_SIZE - 1)) / MAX_BLOCK_SIZE by apply Z.div_pos; rw /MAX_BLOCK_SIZE; lia.
  have Hq2 := Z.mul_div_le (len data + (MAX_BLOCK_SIZE - 1)) MAX_BLOCK_SIZE eq_refl.
  rw /MAX_BLOCK_SIZE in Hq Hq2 *. move: Hq Hq2. generalize ((len data + (64000 - 1)) / 64000) => q Hq Hq2 Hb.
  rw /wrap Z.mod_small; lia.
Qed.

(** *** Reading the frame *)

Lemma read_blocks_ok bs fuel rest :
  Forall (fun b => 0 < len b <= MAX_BLOCK_SIZE) bs -> (length bs <= fuel)%nat ->
  read_lz4_blocks fuel (concat (lz4_block <$> bs) ++ put_u32_le 0 ++ rest) = Ok (concat bs, rest).
Proof.
  move=> Hb. elim: Hb fuel => [|b bs' Hlen _ IH] fuel Hfuel.
  - destruct fuel; cbn [read_lz4_blocks fmap list_fmap concat app]; by rw get_put_u32_le.
  - destruct fuel as [|fuel]; [cbn in Hfuel; lia|]. cbn [read_lz4_blocks fmap list_fmap concat].
    rw /MAX_BLOCK_SIZE in Hlen. rw {1}/lz4_block -!app_assoc get_put_u32_le; [rw /in_u; lia|]. rw bind_ok.
    case: Z.eqb_spec => ?; [lia|]. case: Z.ltb_spec => ?; [lia|]. case: Z.ltb_spec => ?; [lia|].
    rw try_get_slice_app; [lia|]. rw bind_ok IH //. cbn [length] in Hfuel. lia.
Qed.

Lemma read_frame_ok data : read_lz4_frame (lz4_frame data) = Ok data.
Proof.
  destruct (lz4_blocks_spec data) as (Hc & Hb & _).
  rw /read_lz4_frame /lz4_frame /lz4_header -!app_assoc get_put_u32_le // bind_ok.
  rw try_get_slice_app // bind_ok get_put_u8; [apply Z.mod_pos_bound; lia|]. rw bind_ok Z.eqb_refl.
  rw bool_decide_true // Z.eqb_refl. cbn [negb].
  rw read_blocks_ok //.
  { have := len_blocks (lz4_blocks data). rw length_app. lia. }
  rw bind_ok Hc -(app_nil_r (put_u32_le (xx_oneshot 0 data))) get_put_u32_le; [apply xx_range|].
  by rw bind_ok Z.eqb_refl.
Qed.
End encoder_proofs.

(** C30: the frame encoder is deterministic and correct.  However the data is cut into
    calls of [add_data], the fragments that come out, followed by the result of
    [finish], are one and the same LZ4 frame of the data; a reader of the frame format
    gets the data back from it, both checksums included; and its size is the
    [framed_size] that was announced from the length of the data alone. *)
Theorem lz4_encoder_correct `{HX : XxHash32 X} {HXS : XxHash32Spec X} ds (Hlen : len (concat ds) < 2 ^ 63) :
  concat (encode_frame ds) = lz4_frame (concat ds) /\
  read_lz4_frame (concat (encode_frame ds)) = Ok (concat ds) /\
  len (concat (encode_frame ds)) = framed_size (len (concat ds)).
Proof.
  rw encode_frame_ok. split_and!; [done|apply read_frame_ok|by apply len_lz4_frame].
Qed.

(** A checksum for the witnesses. *)
Definition toy_checksum (b : bytes) : Z := foldl (fun acc x => (acc * 31 + b2z x) mod 2 ^ 32) 7 b.
Definition toy_xxhash : XxHash32 bytes := {|
  xx_with_seed _ := [];
  xx_write x b := x ++ b;
  xx_finish_32 := toy_checksum;
  xx_oneshot _ b := toy_checksum b;
|}.

Lemma toy_xxhash_spec : @XxHash32Spec bytes toy_xxhash.
Proof.
  split.
  - move=> seed ws. cbn. f_equal. rw -(app_nil_l (concat ws)). move: ([] : bytes).
    elim: ws => [|w ws IH] acc /=; [by rw app_nil_r|]. by rw IH app_assoc.
  - move=> seed b. cbn. rw /toy_checksum. have H0 : in_u 32 7 by done. move: (7) H0.
    elim: b => [|x b IH] acc H //=. apply IH, Z.mod_pos_bound. lia.
Qed.

(** More than a block, completed by the second call. *)
Definition sample_pieces : list bytes :=
  [replicate (Z.to_nat 40000) Byte.x2a; replicate (Z.to_nat 40000) Byte.x2b; [Byte.x01]].

Lemma sample_pieces_len : len (concat sample_pieces) = 80001.
Proof. rw /sample_pieces. cbn [concat]. rw !length_app !length_replicate. cbn [length]. lia. Qed.

Lemma lz4_encoder_correct_witness :
  @read_lz4_frame bytes toy_xxhash (concat (@encode_frame bytes toy_xxhash sample_pieces)) = Ok (concat sample_pieces) /\
  len (concat (@encode_frame bytes toy_xxhash sample_pieces)) = 80024.
Proof.
  destruct (@lz4_encoder_correct bytes toy_xxhash toy_xxhash_spec sample_pieces) as (_ & H1 & H2);
    [rw sample_pieces_len; reflexivity|].
  split; [exact H1|]. rw H2 sample_pieces_len. reflexivity.
Defined.
