(* ===== verification/NebulaProtocol.v ===== *)
(** * The Nebula packets that are deduplicated

    Models dsp-nebula-cacher/src/nebula_protocol/: the three packets of the Nebula
    multiplayer mod that carry an LZ4 frame (mod.rs, global_game_data.rs,
    factory_data.rs, dyson_sphere_data.rs).  [deconstruct] takes a packet apart into
    its fields and the chunk lists of its contents, [reconstruct] emits the fragments
    of an equivalent packet.  [lz4_flex]'s frame decoder is a parameter. *)

From Stdlib Require Import ssreflect.
From stdpp Require Import base numbers list gmap strings.
From S2P Require Import Prelude Buf Chunker Dedup Lz4Frame.

#[local] Open Scope general_if_scope.

(** ** Packet identifiers *)

Definition fnv1_hash (data : bytes) : Z :=
  foldl (fun hash b => wrap 64 (Z.lxor hash (b2z b) * 1099511628211)) 14695981039346656037 data.

Definition GAME_DATA_PACKET_ID : Z :=
  fnv1_hash (String.list_byte_of_string "NebulaModel.Packets.Session.GlobalGameDataResponse").
Definition FACTORY_DATA_PACKET_ID : Z :=
  fnv1_hash (String.list_byte_of_string "NebulaModel.Packets.Planet.FactoryData").
Definition DYSON_SPHERE_DATA_PACKET_ID : Z :=
  fnv1_hash (String.list_byte_of_string "NebulaModel.Packets.Universe.DysonSphereData").

(** ** Headers *)

Record GlobalGameDataHeader := mkGlobalGameDataHeader { ggh_data_type : Z; ggh_data_length : Z }.
Record FactoryDataHeader := mkFactoryDataHeader { fdh_planet_id : Z; fdh_data_length : Z }.
Record DysonSphereDataHeader := mkDysonSphereDataHeader { dsh_star_index : Z; dsh_data_length : Z }.

Definition GlobalGameDataHeader_decode (buf : bytes) : result (GlobalGameDataHeader * bytes) :=
  '(data_type, buf) ← try_get_u8 buf;
  '(data_length, buf) ← try_get_u32_le buf;
  Ok (mkGlobalGameDataHeader data_type data_length, buf).

Definition FactoryDataHeader_decode (buf : bytes) : result (FactoryDataHeader * bytes) :=
  '(planet_id, buf) ← try_get_u32_le buf;
  '(data_length, buf) ← try_get_u32_le buf;
  Ok (mkFactoryDataHeader planet_id data_length, buf).

Definition DysonSphereDataHeader_decode (buf : bytes) : result (DysonSphereDataHeader * bytes) :=
  '(star_index, buf) ← try_get_u32_le buf;
  '(data_length, buf) ← try_get_u32_le buf;
  Ok (mkDysonSphereDataHeader star_index data_length, buf).

Inductive NebulaPacketHeader :=
| GlobalGameDataH (header : GlobalGameDataHeader)
| FactoryDataH (header : FactoryDataHeader)
| DysonSphereDataH (header : DysonSphereDataHeader).

(** The header, if the packet is one of the three, and the rest of the buffer. *)
Definition NebulaPacketHeader_decode (buf : bytes) : result (option NebulaPacketHeader * bytes) :=
  '(packet_type, buf) ← try_get_u64_le buf;
  if packet_type =? GAME_DATA_PACKET_ID then
    '(h, buf) ← GlobalGameDataHeader_decode buf; Ok (Some (GlobalGameDataH h), buf)
  else if packet_type =? FACTORY_DATA_PACKET_ID then
    '(h, buf) ← FactoryDataHeader_decode buf; Ok (Some (FactoryDataH h), buf)
  else if packet_type =? DYSON_SPHERE_DATA_PACKET_ID then
    '(h, buf) ← DysonSphereDataHeader_decode buf; Ok (Some (DysonSphereDataH h), buf)
  else Ok (None, buf).

Definition approx_size (h : NebulaPacketHeader) : Z :=
  match h with
  | GlobalGameDataH h => ggh_data_length h
  | FactoryDataH h => fdh_data_length h
  | DysonSphereDataH h => dsh_data_length h
  end.

(** ** Packets *)

Record GlobalGameDataPacket := mkGlobalGameData {
  gg_data_type : Z;
  gg_data_uncompressed_length : Z;
  gg_data_chunk_list : ChunkList;
}.

Record FactoryDataPacket := mkFactoryData {
  fa_planet_id : Z;
  fa_data_uncompressed_length : Z;
  fa_data_chunk_list : ChunkList;
  fa_terrain_data_length : Z;
  fa_terrain_data_chunk_list : ChunkList;
}.

Record DysonSphereDataPacket := mkDysonSphereData {
  ds_star_index : Z;
  ds_data_uncompressed_length : Z;
  ds_data_chunk_list : ChunkList;
  ds_event_type : Z;
}.

Inductive NebulaPacket :=
| GlobalGameData (packet : GlobalGameDataPacket)
| FactoryData (packet : FactoryDataPacket)
| DysonSphereData (packet : DysonSphereDataPacket).

Definition try_split_to (packet_data : bytes) (data_length : Z) : result (bytes * bytes) :=
  if len packet_data <? data_length then Err (Anyhow "Packet data is too short")
  else Ok (ztake data_length packet_data, zdrop data_length packet_data).

(** [lz4_flex::frame::FrameDecoder] and [read_to_end] *)
Class Lz4Decoder := decompress_lz4 : bytes -> result bytes.

(** *** Taking a packet apart *)

Section deconstruct.
Context `{Blake3, Lz4Decoder}.

Definition deconstruct_lz4_data (packet_data : bytes) (data_length : Z) (all_chunks : gmap ChunkKey bytes)
  : result (ChunkList * Z * bytes * gmap ChunkKey bytes) :=
  '(compressed_data, packet_data) ← try_split_to packet_data data_length;
  decompressed_data ← decompress_lz4 compressed_data;
  '(chunk_list, all_chunks) ← chunk_data decompressed_data all_chunks;
  Ok (chunk_list, len decompressed_data, packet_data, all_chunks).

Definition GlobalGameDataPacket_deconstruct (header : GlobalGameDataHeader) (packet_data : bytes)
    (all_chunks : gmap ChunkKey bytes) : result (GlobalGameDataPacket * gmap ChunkKey bytes) :=
  '(data_chunk_list, data_uncompressed_length, _, all_chunks) ←
    deconstruct_lz4_data packet_data (ggh_data_length header) all_chunks;
  Ok (mkGlobalGameData (ggh_data_type header) data_uncompressed_length data_chunk_list, all_chunks).

Definition FactoryDataPacket_deconstruct (header : FactoryDataHeader) (packet_data : bytes)
    (all_chunks : gmap ChunkKey bytes) : result (FactoryDataPacket * gmap ChunkKey bytes) :=
  '(data_chunk_list, data_uncompressed_length, packet_data, all_chunks) ←
    deconstruct_lz4_data packet_data (fdh_data_length header) all_chunks;
  '(terrain_data_length, packet_data) ← try_get_u32_le packet_data;
  '(terrain_data, _) ← try_split_to packet_data terrain_data_length;
  '(terrain_data_chunk_list, all_chunks) ← chunk_data terrain_data all_chunks;
  Ok (mkFactoryData (fdh_planet_id header) data_uncompressed_length data_chunk_list
        terrain_data_length terrain_data_chunk_list, all_chunks).

Definition DysonSphereDataPacket_deconstruct (header : DysonSphereDataHeader) (packet_data : bytes)
    (all_chunks : gmap ChunkKey bytes) : result (DysonSphereDataPacket * gmap ChunkKey bytes) :=
  '(data_chunk_list, data_uncompressed_length, packet_data, all_chunks) ←
    deconstruct_lz4_data packet_data (dsh_data_length header) all_chunks;
  '(event_type, _) ← try_get_u32_le packet_data;
  Ok (mkDysonSphereData (dsh_star_index header) data_uncompressed_length data_chunk_list event_type,
      all_chunks).

Definition NebulaPacketHeader_deconstruct (h : NebulaPacketHeader) (packet_data : bytes)
    (all_chunks : gmap ChunkKey bytes) : result (NebulaPacket * gmap ChunkKey bytes) :=
  match h with
  | GlobalGameDataH header =>
      '(p, cs) ← GlobalGameDataPacket_deconstruct header packet_data all_chunks; Ok (GlobalGameData p, cs)
  | FactoryDataH header =>
      '(p, cs) ← FactoryDataPacket_deconstruct header packet_data all_chunks; Ok (FactoryData p, cs)
  | DysonSphereDataH header =>
      '(p, cs) ← DysonSphereDataPacket_deconstruct header packet_data all_chunks; Ok (DysonSphereData p, cs)
  end.
End deconstruct.

(** *** Putting it together again *)

(** [u64::try_into::<u32>()?] *)
Definition try_u32 (z : Z) : result Z :=
  if z <=? U32_MAX then Ok z else Err (LibError "out of range integral type conversion attempted").

Section reconstruct.
Context `{XxHash32 X} {S : Type} `{ChunkProvider S}.

(** The emitted byte strings are what is sent into [out_sink].  The chunks of the
    stream go into the frame encoder as they arrive; what it emitted before an error
    was sent. *)
Definition encode_stream (stream : emitM S unit) : emitM S unit := fun s =>
  let '(reconstructed_chunks, r, s) := stream s in
  let '(fragments, frame_encoder) := add_all (Lz4Encoder_new (X := X)) reconstructed_chunks in
  match r with
  | Ok _ => (fragments ++ [finish frame_encoder], Ok tt, s)
  | Err e => (fragments, Err e, s)
  | Panic p => (fragments, Panic p, s)
  end.

Definition reconstruct_lz4_data (fuel : nat) (chunk_list : ChunkList) : emitM S unit :=
  lift_state (prefetch_metadata_chunks fuel [chunk_list]) ;;
  encode_stream (reconstruct_data fuel chunk_list).

Definition GlobalGameDataPacket_reconstruct (fuel : nat) (p : GlobalGameDataPacket) : emitM S unit :=
  data_length ← lift_result (try_u32 (framed_size (gg_data_uncompressed_length p)));
  emit (put_u64_le GAME_DATA_PACKET_ID ++ put_u8 (gg_data_type p) ++ put_u32_le data_length) ;;
  reconstruct_lz4_data fuel (gg_data_chunk_list p).

Definition FactoryDataPacket_reconstruct (fuel : nat) (p : FactoryDataPacket) : emitM S unit :=
  data_length ← lift_result (try_u32 (framed_size (fa_data_uncompressed_length p)));
  emit (put_u64_le FACTORY_DATA_PACKET_ID ++ put_u32_le (fa_planet_id p) ++ put_u32_le data_length) ;;
  reconstruct_lz4_data fuel (fa_data_chunk_list p) ;;
  emit (put_u32_le (fa_terrain_data_length p)) ;;
  reconstruct_data fuel (fa_terrain_data_chunk_list p).

Definition DysonSphereDataPacket_reconstruct (fuel : nat) (p : DysonSphereDataPacket) : emitM S unit :=
  data_length ← lift_result (try_u32 (framed_size (ds_data_uncompressed_length p)));
  emit (put_u64_le DYSON_SPHERE_DATA_PACKET_ID ++ put_u32_le (ds_star_index p) ++ put_u32_le data_length) ;;
  reconstruct_lz4_data fuel (ds_data_chunk_list p) ;;
  emit (put_u32_le (ds_event_type p)).

Definition NebulaPacket_reconstruct (fuel : nat) (p : NebulaPacket) : emitM S unit :=
  match p with
  | GlobalGameData packet => GlobalGameDataPacket_reconstruct fuel packet
  | FactoryData packet => FactoryDataPacket_reconstruct fuel packet
  | DysonSphereData packet => DysonSphereDataPacket_reconstruct fuel packet
  end.
End reconstruct.

(** ** What a packet says

    The contents of a packet as the game reads them: the fields and the decompressed
    data.  Two packets with the same view differ only in how the data is
    compressed. *)

Inductive NebulaView :=
| GlobalView (data_type : Z) (data : bytes)
| FactoryView (planet_id : Z) (data terrain_data : bytes)
| DysonView (star_index : Z) (data : bytes) (event_type : Z).

Definition view_data (v : NebulaView) : bytes :=
  match v with GlobalView _ data => data | FactoryView _ data _ => data | DysonView _ data _ => data end.

Section views.
Context `{Hz : Lz4Decoder}.

(** The compressed data at the head of the packet, decompressed, and the rest. *)
Definition read_lz4_field (packet_data : bytes) (data_length : Z) : result (bytes * bytes) :=
  '(compressed_data, packet_data) ← try_split_to packet_data data_length;
  data ← decompress_lz4 compressed_data;
  Ok (data, packet_data).

Definition view_of (h : NebulaPacketHeader) (rest : bytes) : result NebulaView :=
  match h with
  | GlobalGameDataH h =>
      '(data, _) ← read_lz4_field rest (ggh_data_length h);
      Ok (GlobalView (ggh_data_type h) data)
  | FactoryDataH h =>
      '(data, rest) ← read_lz4_field rest (fdh_data_length h);
      '(terrain_data_length, rest) ← try_get_u32_le rest;
      '(terrain_data, _) ← try_split_to rest terrain_data_length;
      Ok (FactoryView (fdh_planet_id h) data terrain_data)
  | DysonSphereDataH h =>
      '(data, rest) ← read_lz4_field rest (dsh_data_length h);
      '(event_type, _) ← try_get_u32_le rest;
      Ok (DysonView (dsh_star_index h) data event_type)
  end.

Definition nebula_view (packet : bytes) : result (option NebulaView) :=
  '(h, rest) ← NebulaPacketHeader_decode packet;
  match h with
  | Some h => v ← view_of h rest; Ok (Some v)
  | None => Ok None
  end.
End views.

(** The field values fit their widths. *)
Definition view_ok (v : NebulaView) : Prop :=
  match v with
  | GlobalView data_type _ => in_u 8 data_type
  | FactoryView planet_id _ terrain_data => in_u 32 planet_id /\ in_u 32 (len terrain_data)
  | DysonView star_index _ event_type => in_u 32 star_index /\ in_u 32 event_type
  end.

(** The packet [reconstruct] writes for a view. *)
Definition rebuilt_packet `{XxHash32 X} (v : NebulaView) : bytes :=
  match v with
  | GlobalView data_type data =>
      put_u64_le GAME_DATA_PACKET_ID ++ put_u8 data_type ++ put_u32_le (framed_size (len data)) ++ lz4_frame data
  | FactoryView planet_id data terrain_data =>
      put_u64_le FACTORY_DATA_PACKET_ID ++ put_u32_le planet_id ++ put_u32_le (framed_size (len data)) ++
      lz4_frame data ++ put_u32_le (len terrain_data) ++ terrain_data
  | DysonView star_index data event_type =>
      put_u64_le DYSON_SPHERE_DATA_PACKET_ID ++ put_u32_le star_index ++ put_u32_le (framed_size (len data)) ++
      lz4_frame data ++ put_u32_le event_type
  end.

(** The law of the frame decoder: it reads what the frame format says. *)
Class Lz4DecoderSpec `{XxHash32 X} (Z : Lz4Decoder) : Prop :=
  decompress_frame : forall frame data, read_lz4_frame frame = Ok data -> decompress_lz4 frame = Ok data.

Lemma packet_ids :
  in_u 64 GAME_DATA_PACKET_ID /\ in_u 64 FACTORY_DATA_PACKET_ID /\ in_u 64 DYSON_SPHERE_DATA_PACKET_ID /\
  (FACTORY_DATA_PACKET_ID =? GAME_DATA_PACKET_ID) = false /\
  (DYSON_SPHERE_DATA_PACKET_ID =? GAME_DATA_PACKET_ID) = false /\
  (DYSON_SPHERE_DATA_PACKET_ID =? FACTORY_DATA_PACKET_ID) = false.
Proof. split_and!; by vm_compute. Qed.

#[global] Opaque GAME_DATA_PACKET_ID FACTORY_DATA_PACKET_ID DYSON_SPHERE_DATA_PACKET_ID.

Lemma try_split_to_app n s rest : len s = n -> try_split_to (s ++ rest) n = Ok (s, rest).
Proof.
  move=> H. rw /try_split_to. case: Z.ltb_spec => ?; first len_lia. by rw ztake_app ?zdrop_app.
Qed.

Section rebuilt_view.
Context `{HX : XxHash32 X} {HXS : XxHash32Spec X} `{Hz : Lz4Decoder} {HzS : Lz4DecoderSpec Hz}.

Lemma read_rebuilt_field data rest :
  framed_size (len data) <= U32_MAX -> len data < 2 ^ 63 ->
  in_u 32 (framed_size (len data)) /\
  read_lz4_field (lz4_frame data ++ rest) (framed_size (len data)) = Ok (data, rest).
Proof.
  move=> Hs Hl. split; [rw -len_lz4_frame // in Hs *; rw /in_u; lia|].
  rw /read_lz4_field try_split_to_app; [by apply len_lz4_frame|].
  by rw bind_ok (decompress_frame _ data (read_frame_ok data)).
Qed.

Lemma rebuilt_view v :
  view_ok v -> framed_size (len (view_data v)) <= U32_MAX -> len (view_data v) < 2 ^ 63 ->
  nebula_view (rebuilt_packet v) = Ok (Some v).
Proof.
  destruct packet_ids as (Hg & Hf & Hd & Hfg & Hdg & Hdf).
  destruct v as [t data|p data terrain|st data ev]; cbn [view_ok view_data rebuilt_packet]; move=> Hv Hs Hl.
  all: rw /nebula_view /NebulaPacketHeader_decode.
  all: rewrite -> get_put_u64_le by assumption.
  all: rw bind_ok.
  - destruct (read_rebuilt_field data [] Hs Hl) as [Hr Hf']. rw app_nil_r in Hf'.
    rw Z.eqb_refl /GlobalGameDataHeader_decode get_put_u8; [exact Hv|]. rw bind_ok get_put_u32_le; [exact Hr|].
    rw !bind_ok. cbn [view_of ggh_data_length ggh_data_type]. by rw Hf' !bind_ok.
  - destruct (read_rebuilt_field data (put_u32_le (len terrain) ++ terrain) Hs Hl) as [Hr Hf'].
    rw Hfg Z.eqb_refl /FactoryDataHeader_decode get_put_u32_le; [exact (proj1 Hv)|].
    rw bind_ok get_put_u32_le; [exact Hr|]. rw !bind_ok.
    cbn [view_of fdh_data_length fdh_planet_id]. rw Hf' !bind_ok get_put_u32_le; [exact (proj2 Hv)|].
    rw bind_ok -{1}(app_nil_r terrain) try_split_to_app; [reflexivity|]. by rw bind_ok.
  - destruct (read_rebuilt_field data (put_u32_le ev) Hs Hl) as [Hr Hf'].
    rw Hdg Hdf Z.eqb_refl /DysonSphereDataHeader_decode get_put_u32_le; [exact (proj1 Hv)|].
    rw bind_ok get_put_u32_le; [exact Hr|]. rw !bind_ok.
    cbn [view_of dsh_data_length dsh_star_index]. rw Hf' bind_ok.
    rw -(app_nil_r (put_u32_le ev)) get_put_u32_le; [exact (proj2 Hv)|]. by rw bind_ok.
Qed.
End rebuilt_view.

(** *** Prefixes: what was read from a buffer is read from a longer one *)

Lemma try_get_u8_more buf z rest more :
  try_get_u8 buf = Ok (z, rest) -> try_get_u8 (buf ++ more) = Ok (z, rest ++ more).
Proof. destruct buf; [done|]. by move=> [= <- <-]. Qed.

Lemma try_get_slice_more n buf s rest more :
  try_get_slice n buf = Ok (s, rest) -> try_get_slice n (buf ++ more) = Ok (s, rest ++ more).
Proof.
  rw /try_get_slice. case: Z.ltb_spec => // H [<- <-]. case: Z.ltb_spec => ?; [len_lia|].
  by rw ztake_app_le // zdrop_app_le.
Qed.

Lemma try_get_u32_le_more buf z rest more :
  try_get_u32_le buf = Ok (z, rest) -> try_get_u32_le (buf ++ more) = Ok (z, rest ++ more).
Proof. intros ([s r] & H & [= <- <-])%bind_ok_inv. by rw /try_get_u32_le (try_get_slice_more _ _ _ _ _ H). Qed.

Lemma header_decode_more buf h rest more :
  NebulaPacketHeader_decode buf = Ok (Some h, rest) ->
  NebulaPacketHeader_decode (buf ++ more) = Ok (Some h, rest ++ more).
Proof.
  rw /NebulaPacketHeader_decode /try_get_u64_le. intros ([id buf1] & ([s r] & Hs & [= <- <-])%bind_ok_inv & H)%bind_ok_inv.
  rw (try_get_slice_more _ _ _ _ _ Hs) !bind_ok.
  destruct (_ =? _); [|destruct (_ =? _); [|destruct (_ =? _); [|done]]].
  all: apply bind_ok_inv in H as ([h' buf'] & Hh & [= <- <-]).
  all: apply bind_ok_inv in Hh as ([a buf2] & Ha & ([n buf3] & Hn & [= <- <-])%bind_ok_inv).
  - by rw /GlobalGameDataHeader_decode (try_get_u8_more _ _ _ _ Ha) bind_ok (try_get_u32_le_more _ _ _ _ Hn).
  - by rw /FactoryDataHeader_decode (try_get_u32_le_more _ _ _ _ Ha) bind_ok (try_get_u32_le_more _ _ _ _ Hn).
  - by rw /DysonSphereDataHeader_decode (try_get_u32_le_more _ _ _ _ Ha) bind_ok (try_get_u32_le_more _ _ _ _ Hn).
Qed.

(** *** Headers are well typed *)

Definition header_ok (h : NebulaPacketHeader) : Prop :=
  match h with
  | GlobalGameDataH h => in_u 8 (ggh_data_type h) /\ in_u 32 (ggh_data_length h)
  | FactoryDataH h => in_u 32 (fdh_planet_id h) /\ in_u 32 (fdh_data_length h)
  | DysonSphereDataH h => in_u 32 (dsh_star_index h) /\ in_u 32 (dsh_data_length h)
  end.

(** Two fields in sequence. *)
Lemma reads_two {A B C} (P : A -> Prop) (Q : B -> Prop) (R : C -> Prop) (r1 : result (A * bytes))
    (r2 : bytes -> result (B * bytes)) (f : A -> B -> C) buf :
  reads P r1 buf -> (forall buf, reads Q (r2 buf) buf) -> (forall a b, P a -> Q b -> R (f a b)) ->
  reads R ('(a, buf) ← r1; '(b, buf) ← r2 buf; Ok (f a b, buf)) buf.
Proof.
  move=> H1 H2 Hf. eapply reads_bind; [exact H1|]. move=> a rest Ha _.
  eapply reads_bind; [apply H2|]. move=> b rest' Hb _. apply reads_ok. by apply Hf.
Qed.

Lemma header_decode_reads buf :
  reads (fun oh => forall h, oh = Some h -> header_ok h) (NebulaPacketHeader_decode buf) buf.
Proof.
  eapply reads_bind; [apply reads_u64_le|]. move=> id rest _ _.
  destruct (id =? GAME_DATA_PACKET_ID); [|destruct (id =? FACTORY_DATA_PACKET_ID);
    [|destruct (id =? DYSON_SPHERE_DATA_PACKET_ID); [|by apply reads_ok]]].
  - eapply (reads_bind (fun h => header_ok (GlobalGameDataH h))); [by apply (reads_two (in_u 8) (in_u 32))|].
    move=> h r Hh _. by apply reads_ok => ? [= <-].
  - eapply (reads_bind (fun h => header_ok (FactoryDataH h))); [by apply (reads_two (in_u 32) (in_u 32))|].
    move=> h r Hh _. by apply reads_ok => ? [= <-].
  - eapply (reads_bind (fun h => header_ok (DysonSphereDataH h))); [by apply (reads_two (in_u 32) (in_u 32))|].
    move=> h r Hh _. by apply reads_ok => ? [= <-].
Qed.

Lemma header_decode_rest buf h rest : NebulaPacketHeader_decode buf = Ok (h, rest) -> len rest <= len buf.
Proof. move=> H. have := header_decode_reads buf. rw H => [[_ /suffix_length]]. lia. Qed.

(** ** Deconstruction *)

Section deconstruct_proofs.
Context `{Hb : Blake3} {Hspec : Blake3Spec Hb} `{Hz : Lz4Decoder}.

(** The blobs hashed while a packet is taken apart. *)
Definition view_blobs (v : NebulaView) : list bytes :=
  match v with
  | FactoryView _ data terrain_data => chunk_data_blobs data ++ chunk_data_blobs terrain_data
  | _ => chunk_data_blobs (view_data v)
  end.

Definition lists (D : ChunkKey -> option bytes) (h : nat) (cl : ChunkList) (data : bytes) : Prop :=
  level_ok MAX_CHUNKS_IN_LIST cl /\ exists h', (h' <= h)%nat /\ denotes D h' cl (chunks_of data).

Definition packet_describes (D : ChunkKey -> option bytes) (h : nat) (p : NebulaPacket) (v : NebulaView) : Prop :=
  match p, v with
  | GlobalGameData p, GlobalView data_type data =>
      gg_data_type p = data_type /\ gg_data_uncompressed_length p = len data /\
      lists D h (gg_data_chunk_list p) data
  | FactoryData p, FactoryView planet_id data terrain_data =>
      fa_planet_id p = planet_id /\ fa_data_uncompressed_length p = len data /\
      fa_terrain_data_length p = len terrain_data /\
      lists D h (fa_data_chunk_list p) data /\ lists D h (fa_terrain_data_chunk_list p) terrain_data
  | DysonSphereData p, DysonView star_index data event_type =>
      ds_star_index p = star_index /\ ds_data_uncompressed_length p = len data /\
      ds_event_type p = event_type /\ lists D h (ds_data_chunk_list p) data
  | _, _ => False
  end.

Lemma chunk_data_lists data m :
  exists root h, chunk_data data m = Ok (root, store_all (chunk_data_blobs data) m) /\
    forall D, knows D (chunk_data_blobs data) -> lists D h root data.
Proof.
  destruct (chunk_data_blobs_spec data) as (root & h & Heq & Hok & _ & HD). exists root, h.
  split; [by apply chunk_data_map|]. move=> D HDk. split; [done|]. exists h. split; [done|by apply HD].
Qed.

Lemma lists_mono D h h' cl data : (h <= h')%nat -> lists D h cl data -> lists D h' cl data.
Proof. intros Hh (Hok & k & Hk & Hd). split; [done|]. exists k. split; [lia|done]. Qed.

(** [deconstruct_lz4_data] reads the same field, and chunks it. *)
Lemma deconstruct_field rest n m :
  match read_lz4_field rest n with
  | Ok (data, rest') => exists root h,
      deconstruct_lz4_data rest n m = Ok (root, len data, rest', store_all (chunk_data_blobs data) m) /\
      forall D, knows D (chunk_data_blobs data) -> lists D h root data
  | Err e => deconstruct_lz4_data rest n m = Err e
  | Panic p => deconstruct_lz4_data rest n m = Panic p
  end.
Proof.
  rw /read_lz4_field /deconstruct_lz4_data. destruct (try_split_to rest n) as [[c rest']|e|p]; [|done..].
  rw !bind_ok. destruct (decompress_lz4 c) as [data|e|p]; [|done..]. rw !bind_ok.
  destruct (chunk_data_lists data m) as (root & h & Heq & HD). exists root, h. split; [|done]. by rw Heq.
Qed.

Lemma try_split_to_inv buf n s rest : try_split_to buf n = Ok (s, rest) -> 0 <= n -> len s = n.
Proof.
  rw /try_split_to. case: Z.ltb_spec => // H [<- _] Hn. by apply len_ztake.
Qed.

Lemma u32_le_range buf z rest : try_get_u32_le buf = Ok (z, rest) -> in_u 32 z.
Proof. move=> H. have := reads_u32_le buf. rw H. by move=> [? _]. Qed.

(** Taking a packet apart succeeds exactly when the game can read it. *)
Lemma deconstruct_ok h rest m :
  match view_of h rest with
  | Ok v => exists p height, NebulaPacketHeader_deconstruct h rest m = Ok (p, store_all (view_blobs v) m) /\
      forall D, knows D (view_blobs v) -> packet_describes D height p v
  | Err e => NebulaPacketHeader_deconstruct h rest m = Err e
  | Panic p => NebulaPacketHeader_deconstruct h rest m = Panic p
  end.
Proof.
  destruct h as [h|h|h]; cbn [view_of NebulaPacketHeader_deconstruct].
  - pose proof (deconstruct_field rest (ggh_data_length h) m) as Hf. rw /GlobalGameDataPacket_deconstruct.
    destruct (read_lz4_field rest (ggh_data_length h)) as [[data rest']|e|p]; [|by rw Hf..].
    destruct Hf as (root & ht & -> & HD). rw !bind_ok. do 2 eexists. split; [done|].
    move=> D HDk. split_and!; [done|done|by apply HD].
  - pose proof (deconstruct_field rest (fdh_data_length h) m) as Hf. rw /FactoryDataPacket_deconstruct.
    destruct (read_lz4_field rest (fdh_data_length h)) as [[data rest']|e|p]; [|by rw Hf..].
    destruct Hf as (root & ht & -> & HD). rw !bind_ok.
    destruct (try_get_u32_le rest') as [[n rest2]|e|p] eqn:Hn; [|done..]. rw !bind_ok.
    destruct (try_split_to rest2 n) as [[terrain rest3]|e|p] eqn:Ht; [|done..]. rw !bind_ok.
    apply try_split_to_inv in Ht; [|by destruct (u32_le_range _ _ _ Hn)].
    destruct (chunk_data_lists terrain (store_all (chunk_data_blobs data) m)) as (root2 & ht2 & -> & HD2).
    rw !bind_ok. exists (FactoryData (mkFactoryData (fdh_planet_id h) (len data) root n root2)), (ht `max` ht2)%nat.
    split; [by rw /view_blobs store_all_app|]. move=> D /Forall_app [K1 K2].
    split_and!; [done|done|done|apply (lists_mono D ht); [lia|by apply HD]|apply (lists_mono D ht2); [lia|by apply HD2]].
  - pose proof (deconstruct_field rest (dsh_data_length h) m) as Hf. rw /DysonSphereDataPacket_deconstruct.
    destruct (read_lz4_field rest (dsh_data_length h)) as [[data rest']|e|p]; [|by rw Hf..].
    destruct Hf as (root & ht & -> & HD). rw !bind_ok.
    destruct (try_get_u32_le rest') as [[ev rest2]|e|p]; [|done..]. rw !bind_ok. do 2 eexists. split; [done|].
    move=> D HDk. split_and!; [done|done|done|by apply HD].
Qed.

(** What was read from a packet fits its fields. *)
Lemma view_of_ok packet h rest v :
  NebulaPacketHeader_decode packet = Ok (Some h, rest) -> view_of h rest = Ok v -> view_ok v.
Proof.
  rw /NebulaPacketHeader_decode. intros ([id buf] & _ & H)%bind_ok_inv.
  destruct (id =? GAME_DATA_PACKET_ID); [|destruct (id =? FACTORY_DATA_PACKET_ID);
    [|destruct (id =? DYSON_SPHERE_DATA_PACKET_ID); [|done]]].
  - apply bind_ok_inv in H as ([h' buf'] & Hh & [= <- <-]).
    apply bind_ok_inv in Hh as ([t buf2] & Ht & ([n buf3] & Hn & [= <- _])%bind_ok_inv).
    intros ([data rest'] & _ & [= <-])%bind_ok_inv. have := reads_u8 buf. rw Ht. by move=> [? _].
  - apply bind_ok_inv in H as ([h' buf'] & Hh & [= <- <-]).
    apply bind_ok_inv in Hh as ([t buf2] & Ht & ([n buf3] & Hn & [= <- _])%bind_ok_inv).
    intros ([data rest'] & _ & ([k rest2] & Hk & ([terrain rest3] & Hs & [= <-])%bind_ok_inv)%bind_ok_inv)%bind_ok_inv.
    apply u32_le_range in Ht, Hk. split; [done|]. rw (try_split_to_inv _ _ _ _ Hs) //. by destruct Hk.
  - apply bind_ok_inv in H as ([h' buf'] & Hh & [= <- <-]).
    apply bind_ok_inv in Hh as ([t buf2] & Ht & ([n buf3] & Hn & [= <- _])%bind_ok_inv).
    intros ([data rest'] & _ & ([k rest2] & Hk & [= <-])%bind_ok_inv)%bind_ok_inv.
    by apply u32_le_range in Ht, Hk.
Qed.
End deconstruct_proofs.

(** ** Reconstruction *)

Section reconstruct_proofs.
Context `{HX : XxHash32 X} {HXS : XxHash32Spec X}.
Context {S : Type} `{HP : ChunkProvider S} {D : ChunkKey -> option bytes} {HS : ProviderSpec S D}.

(** A computation that ends well and emits [b], in fragments. *)
Definition emits (m : emitM S unit) (s : S) (b : bytes) : Prop :=
  exists out s', m s = (out, Ok tt, s') /\ concat out = b /\ prov_inv s'.

Lemma emits_bind (m1 m2 : emitM S unit) s b1 b2 :
  emits m1 s b1 -> (forall s', prov_inv s' -> emits m2 s' b2) -> emits (m1 ;; m2) s (b1 ++ b2).
Proof.
  intros (o1 & s1 & H1 & <- & Hi1) Hm2. destruct (Hm2 s1 Hi1) as (o2 & s2 & H2 & <- & Hi2).
  exists (o1 ++ o2), s2. split_and!; [|by rw concat_app|done]. by apply (emit_bind_ok _ _ _ _ tt s1).
Qed.

Lemma emits_emit s b : prov_inv s -> emits (emit b) s b.
Proof. move=> Hi. exists [b], s. split_and!; [done| |done]. cbn. by rw app_nil_r. Qed.

Lemma emits_data fuel h cl data s :
  lists D h cl data -> (h < fuel)%nat -> prov_inv s -> emits (reconstruct_data fuel cl) s data.
Proof.
  intros (_ & h' & Hh & Hd) Hfuel Hi.
  destruct (reconstruct_runs h' fuel cl (chunks_of data) s Hd) as (s' & Hr & Hi' & _); [lia|done|].
  exists (chunks_of data), s'. split_and!; [done|apply chunks_of_concat|done].
Qed.

Lemma emits_lz4 fuel h cl data s :
  lists D h cl data -> (h < fuel)%nat -> prov_inv s ->
  emits (reconstruct_lz4_data (X := X) fuel cl) s (lz4_frame data).
Proof.
  intros Hd Hfuel Hi.
  destruct (prefetch_metadata_runs h fuel [cl] s) as (s1 & Hp & Hi1 & _).
  { constructor; [|constructor]. destruct Hd as (_ & h' & Hh & Hd). by exists h', (chunks_of data). }
  { done. }
  { done. }
  destruct (emits_data fuel h cl data s1 Hd Hfuel Hi1) as (out & s2 & Hr & <- & Hi2).
  exists (encode_frame (X := X) out), s2. split_and!; [|apply encode_frame_ok|done].
  apply (emit_bind_ok _ _ _ [] tt s1); [by rw /lift_state Hp|].
  rw /encode_stream Hr /encode_frame. by destruct (add_all _ out).
Qed.

(** The length field, checked before anything is sent. *)
Lemma emits_sized (f : Z -> emitM S unit) n s b :
  n <= U32_MAX -> emits (f n) s b -> emits (data_length ← lift_result (try_u32 n); f data_length) s b.
Proof.
  intros Hn (out & s' & Hm & Hb & Hi). exists out, s'. split_and!; [|done|done].
  apply (emit_bind_ok _ _ _ [] n s); [|done]. rw /lift_result /try_u32. case: Z.leb_spec => // ?. lia.
Qed.

Lemma app_assoc3 (a b c d : bytes) : a ++ b ++ c ++ d = (a ++ b ++ c) ++ d.
Proof. by rw -!app_assoc. Qed.

Lemma reconstruct_packet_ok fuel h p v s :
  packet_describes D h p v -> framed_size (len (view_data v)) <= U32_MAX -> (h < fuel)%nat -> prov_inv s ->
  emits (NebulaPacket_reconstruct (X := X) fuel p) s (rebuilt_packet (X := X) v).
Proof.
  move=> Hd Hs Hfuel Hi. destruct p as [p|p|p], v as [t data|pl data terrain|st data ev]; cbn in Hd; try done;
    cbn [NebulaPacket_reconstruct rebuilt_packet view_data] in Hs |- *.
  - destruct Hd as (<- & Hl & Hd). rw /GlobalGameDataPacket_reconstruct Hl. apply emits_sized; [done|]. rw (app_assoc3 _ _ _ (lz4_frame data)).
    apply emits_bind; [by apply emits_emit|]. move=> s1 Hi1. by apply (emits_lz4 fuel h).
  - destruct Hd as (<- & Hl & Hl2 & Hd & Ht). rw /FactoryDataPacket_reconstruct Hl Hl2. apply emits_sized; [done|]. rw (app_assoc3 _ _ _ (lz4_frame data ++ _)).
    apply emits_bind; [by apply emits_emit|]. move=> s1 Hi1. apply emits_bind; [by apply (emits_lz4 fuel h)|].
    move=> s2 Hi2. apply emits_bind; [by apply emits_emit|]. move=> s3 Hi3. by apply (emits_data fuel h).
  - destruct Hd as (<- & Hl & <- & Hd). rw /DysonSphereDataPacket_reconstruct Hl. apply emits_sized; [done|]. rw (app_assoc3 _ _ _ (lz4_frame data ++ _)).
    apply emits_bind; [by apply emits_emit|]. move=> s1 Hi1. apply emits_bind; [by apply (emits_lz4 fuel h)|].
    move=> s2 Hi2. by apply emits_emit.
Qed.
End reconstruct_proofs.

(** C5: a deduplicated packet says what the original said.  For every packet of the
    three kinds that the game could read, [deconstruct] succeeds and puts the blobs of
    its contents into the map; and [reconstruct], through any provider that knows these
    blobs, emits without an error fragments of a packet which the game reads as the same
    packet: the same kind, the same fields and the same decompressed data.  The length
    field it announces before the data is the length of the frame that follows. *)
Theorem nebula_packet_preserved `{Hb : Blake3} {Hspec : Blake3Spec Hb} `{HX : XxHash32 X} {HXS : XxHash32Spec X}
  `{Hz : Lz4Decoder} {HzS : Lz4DecoderSpec (X := X) Hz} {S : Type} `{HP : ChunkProvider S}
  (D : ChunkKey -> option bytes) {HS : ProviderSpec S D} packet h rest v
  (Hheader : NebulaPacketHeader_decode packet = Ok (Some h, rest)) (Hview : view_of h rest = Ok v)
  (Hsize : framed_size (len (view_data v)) <= U32_MAX) (Hlen : len (view_data v) < 2 ^ 63)
  (Hknows : knows D (view_blobs v)) :
  exists p depth, NebulaPacketHeader_deconstruct h rest ∅ = Ok (p, store_all (view_blobs v) ∅) /\
    forall fuel s, (depth < fuel)%nat -> prov_inv s ->
    exists fragments s', NebulaPacket_reconstruct (X := X) fuel p s = (fragments, Ok tt, s') /\
      nebula_view packet = Ok (Some v) /\ nebula_view (concat fragments) = Ok (Some v).
Proof.
  pose proof (deconstruct_ok h rest ∅) as Hd. rw Hview in Hd. destruct Hd as (p & height & Hd & Hdesc).
  exists p, height. split; [done|]. move=> fuel s Hfuel Hi.
  destruct (reconstruct_packet_ok (X := X) fuel height p v s) as (out & s' & Hr & Hc & _); [by apply Hdesc|done..|].
  exists out, s'. split; [done|]. split; [by rw /nebula_view Hheader bind_ok Hview|].
  rw Hc. apply rebuilt_view; [|done..]. by apply (view_of_ok packet h rest).
Qed.

(** A frame decoder for the witnesses: frames of stored blocks, and one other form. *)
Definition toy_lz4 : Lz4Decoder := fun frame =>
  match @read_lz4_frame bytes toy_xxhash frame with
  | Ok data => Ok data
  | _ => match frame with Byte.x7a :: data => Ok (take 2048 data) | _ => Err (LibError "lz4") end
  end.

Lemma toy_lz4_spec : @Lz4DecoderSpec bytes toy_xxhash toy_lz4.
Proof. move=> frame data H. by rw /decompress_lz4 /toy_lz4 H. Qed.

Definition sample_rest : bytes := Byte.x7a :: sample_data ++ put_u32_le 3.
Definition sample_packet : bytes :=
  put_u64_le DYSON_SPHERE_DATA_PACKET_ID ++ put_u32_le 5 ++ put_u32_le (1 + len sample_data) ++ sample_rest.

Lemma nebula_packet_preserved_witness :
  exists p depth,
    @NebulaPacketHeader_deconstruct toy_blake3 toy_lz4
      (DysonSphereDataH (mkDysonSphereDataHeader 5 (1 + len sample_data))) sample_rest ∅ =
      Ok (p, @store_all toy_blake3 (@chunk_data_blobs toy_blake3 sample_data) ∅) /\
    forall fuel s, (depth < fuel)%nat -> s = @store_all toy_blake3 (@chunk_data_blobs toy_blake3 sample_data) ∅ ->
    exists fragments s',
      @NebulaPacket_reconstruct bytes toy_xxhash _ map_provider fuel p s = (fragments, Ok tt, s') /\
      @nebula_view toy_lz4 sample_packet = Ok (Some (DysonView 5 sample_data 3)) /\
      @nebula_view toy_lz4 (concat fragments) = Ok (Some (DysonView 5 sample_data 3)).
Proof.
  apply (@nebula_packet_preserved toy_blake3 toy_blake3_spec bytes toy_xxhash toy_xxhash_spec toy_lz4 toy_lz4_spec
    _ map_provider (fun k => @store_all toy_blake3 (@chunk_data_blobs toy_blake3 sample_data) ∅ !! k)
    (map_provider_spec _) sample_packet (DysonSphereDataH (mkDysonSphereDataHeader 5 (1 + len sample_data)))
    sample_rest (DysonView 5 sample_data 3)).
  - by vm_compute.
  - by vm_compute.
  - by vm_compute.
  - by vm_compute.
  - apply (@store_all_knows toy_blake3), collision_freeb_true. by vm_compute.
Defined.
