(* ===== verification/Wire.v ===== *)
(** * What arrives from the network

    The packets of both games (factorio_protocol.rs, nebula_protocol/) on arbitrary bytes:
    what the decoders accept, and what the values they return are known to be. *)

From Stdlib Require Import ssreflect.
From stdpp Require Import base numbers list strings.
From S2P Require Import Prelude Buf Chunker Dedup FactorioProtocol NebulaProtocol.

(** ** Factorio *)

Lemma transfer_block_iff buf p :
  TransferBlockPacket_decode buf = Ok p <-> in_u 32 (tb_block_id p) /\ buf = packet_encode p.
Proof.
  rw /TransferBlockPacket_decode. split.
  - intros ([id data] & Hg & <-%ok_inj)%bind_ok_inv. by apply try_get_u32_le_iff in Hg.
  - destruct p as [id data]. cbn. intros Hg%try_get_u32_le_iff. by rw Hg.
Qed.

Lemma block_request_iff buf p :
  TransferBlockRequestPacket_decode buf = Ok p <-> in_u 32 (tbr_block_id p) /\ packet_encode p `prefix_of` buf.
Proof.
  rw /TransferBlockRequestPacket_decode. split.
  - intros ([id data] & Hg & <-%ok_inj)%bind_ok_inv. apply try_get_u32_le_iff in Hg as [? ->]. split; [done|by exists data].
  - destruct p as [id]. cbn. intros [Hid [data ->]]. by rw get_put_u32_le.
Qed.

Lemma metadata_iff buf w rest :
  FactorioWorldMetadata_decode buf = Ok (w, rest) <-> metadata_ok w /\ buf = FactorioWorldMetadata_encode w ++ rest.
Proof.
  split; [|intros [Hw ->]; by apply metadata_decode_encode]. rw /FactorioWorldMetadata_decode.
  intros ([a b1] & [Ha ->]%try_get_u32_le_iff & H)%bind_ok_inv.
  apply bind_ok_inv in H as ([b b2] & [Hb ->]%try_get_u32_le_iff & H).
  apply bind_ok_inv in H as ([c b3] & [Hc ->]%try_get_u32_le_iff & H).
  apply bind_ok_inv in H as ([d b4] & [Hd ->]%try_get_u32_le_iff & H).
  apply bind_ok_inv in H as ([e b5] & [He ->]%try_get_u32_le_iff & H).
  apply ok_pair_inj in H as [<- <-]. split; [by split_and!|]. by rw /FactorioWorldMetadata_encode -!app_assoc.
Qed.

(** A world that a heartbeat announces stands in the heartbeat as it is. *)
Definition announces (hb : bytes) (w : FactorioWorldMetadata) : Prop :=
  metadata_ok w /\ exists before after, hb = before ++ FactorioWorldMetadata_encode w ++ after.

Lemma suffix_announces b1 b2 w : b1 `suffix_of` b2 -> announces b1 w -> announces b2 w.
Proof. intros [pre ->] (Hw & b & a & ->). split; [done|]. exists (pre ++ b), a. by rw -app_assoc. Qed.

(** A decoder that hands on no rest. *)
Definition gives {A} (Q : A -> Prop) (r : result A) : Prop :=
  match r with
  | Ok a => Q a
  | Err _ => True
  | Panic _ => False
  end.

Lemma gives_bind {A B} (P : A -> Prop) (Q : B -> Prop) (r : result (A * bytes)) (f : A * bytes -> result B) buf :
  reads P r buf -> (forall a rest, rest `suffix_of` buf -> gives Q (f (a, rest))) -> gives Q (r ≫= f).
Proof. destruct r as [[a rest]|e|p]; cbn; [|done..]. intros [_ Hs] Hf. by apply Hf. Qed.

Lemma gives_mono {A} (P Q : A -> Prop) r : gives P r -> (forall a, P a -> Q a) -> gives Q r.
Proof. destruct r; cbn; auto. Qed.

Lemma metadata_gives buf :
  gives (fun x => announces buf (fst x)) (FactorioWorldMetadata_decode buf).
Proof.
  destruct (FactorioWorldMetadata_decode buf) as [[w rest]|e|p] eqn:E; cbn; [|done|].
  - apply metadata_iff in E as [Hw ->]. split; [done|]. by exists [], rest.
  - revert E. rw /FactorioWorldMetadata_decode.
    do 5 (pose proof (reads_u32_le buf) as Hr; destruct (try_get_u32_le buf) as [[? buf']|?|?]; [clear Hr; rw bind_ok; clear buf; rename buf' into buf|done|done]).
    done.
Qed.

Lemma map_ready_gives hb :
  gives (fun ow => forall w, ow = Some w -> announces (hb_data hb) w) (try_decode_map_ready hb).
Proof.
  rw /try_decode_map_ready. destruct (_ =? _); [|done].
  eapply gives_bind; [apply reads_varint32|]. move=> count rest Hs. destruct (0 <? count); [|done].
  eapply gives_bind; [apply reads_u8|]. move=> action rest' Hs'. destruct (_ =? _); [|done].
  pose proof (metadata_gives rest') as Hm. destruct (FactorioWorldMetadata_decode rest') as [[w r]|e|p]; cbn in Hm |- *; [|done..].
  move=> w' [= <-]. eapply suffix_announces; [|exact Hm]. by etrans.
Qed.

Lemma heartbeat_gives buf :
  gives (fun ow => forall w, ow = Some w -> announces buf w)
    (hb ← ServerToClientHeartbeatPacket_decode buf; try_decode_map_ready hb).
Proof.
  rw /ServerToClientHeartbeatPacket_decode. pose proof (reads_u8 buf) as H1.
  destruct (try_get_u8 buf) as [[flags b1]|e|p]; [|done..]. rw bind_ok. pose proof (reads_u32_le b1) as H2.
  destruct (try_get_u32_le b1) as [[seq b2]|e|p]; [|done..]. rw !bind_ok.
  eapply gives_mono; [apply map_ready_gives|]. cbn [hb_data]. move=> ow Hw w Hx. eapply suffix_announces; [|by apply Hw].
  destruct H1 as [_ H1], H2 as [_ H2]. by etrans.
Qed.

Lemma block_gives buf : gives (fun p => in_u 32 (tb_block_id p)) (TransferBlockPacket_decode buf).
Proof. rw /TransferBlockPacket_decode. pose proof (reads_u32_le buf) as H. by destruct (try_get_u32_le buf) as [[id b]|e|p]; [destruct H|..]. Qed.

Lemma block_request_gives buf : gives (fun p => in_u 32 (tbr_block_id p)) (TransferBlockRequestPacket_decode buf).
Proof. rw /TransferBlockRequestPacket_decode. pose proof (reads_u32_le buf) as H. by destruct (try_get_u32_le buf) as [[id b]|e|p]; [destruct H|..]. Qed.

(** ** Properties *)

(** C37: packets are read safely and without a loss, on any bytes.  The header of a
    Factorio packet is an error or well typed (a type of 5 bits, a message id of 15, a
    fragment id of 16, which only a last fragment may lack), and its message is a suffix
    of the datagram; a block is accepted exactly if it is the encoding of its 32-bit id and
    its data, a block request if it begins with the encoding of its id, and the metadata
    of a world if it is the encoding of 32-bit fields; the world that a heartbeat
    announces stands in it; and the header of a Nebula packet is an error or well
    typed, announces a size of at most 32 bits, and is read in the same way when more of
    the message has arrived.  None of these functions panics, on any bytes. *)
Theorem packets_read_safely (buf : bytes) :
  reads FactorioProtocol.header_ok (FactorioPacketHeader_decode buf) buf /\
  gives (fun p => in_u 32 (tb_block_id p)) (TransferBlockPacket_decode buf) /\
  (forall p, TransferBlockPacket_decode buf = Ok p <-> in_u 32 (tb_block_id p) /\ buf = packet_encode p) /\
  gives (fun p => in_u 32 (tbr_block_id p)) (TransferBlockRequestPacket_decode buf) /\
  (forall p, TransferBlockRequestPacket_decode buf = Ok p <->
     in_u 32 (tbr_block_id p) /\ packet_encode p `prefix_of` buf) /\
  gives (fun x => announces buf (fst x)) (FactorioWorldMetadata_decode buf) /\
  (forall w rest, FactorioWorldMetadata_decode buf = Ok (w, rest) <->
     metadata_ok w /\ buf = FactorioWorldMetadata_encode w ++ rest) /\
  gives (fun ow => forall w, ow = Some w -> announces buf w)
    (hb ← ServerToClientHeartbeatPacket_decode buf; try_decode_map_ready hb) /\
  reads (fun oh => forall h, oh = Some h -> NebulaProtocol.header_ok h /\ in_u 32 (approx_size h)) (NebulaPacketHeader_decode buf) buf /\
  (forall h rest more, NebulaPacketHeader_decode buf = Ok (Some h, rest) ->
     NebulaPacketHeader_decode (buf ++ more) = Ok (Some h, rest ++ more)).
Proof.
  split_and!.
  - apply header_decode_safe.
  - apply block_gives.
  - apply transfer_block_iff.
  - apply block_request_gives.
  - apply block_request_iff.
  - apply metadata_gives.
  - apply metadata_iff.
  - apply heartbeat_gives.
  - pose proof (header_decode_reads buf) as Hr. destruct (NebulaPacketHeader_decode buf) as [[oh rest]|e|p]; [|done..].
    destruct Hr as [Hok Hs]. split; [|done]. move=> h /Hok Hh. split; [done|]. destruct h; by destruct Hh.
  - intros h rest more. apply header_decode_more.
Qed.

(** A heartbeat that announces a world of 1000 bytes, and the fragments of a large message. *)
Example heartbeat_sample :
  (hb ← ServerToClientHeartbeatPacket_decode (tail (map_ready_heartbeat 9 1 sample_metadata []));
   try_decode_map_ready hb) = Ok (Some sample_metadata).
Proof. by vm_compute. Qed.

Example fragment_sample :
  FactorioPacketHeader_decode [z2b (64 + 5); z2b 1; z2b 0; z2b 3; z2b 99] =
  Ok (mkHeader (Unknown 5) (Some (mkFragmentation false 1 (Some 3))), [z2b 99]).
Proof. by vm_compute. Qed.
