(* ===== verification/NebulaProxy.v ===== *)
(** * The Nebula proxies

    Models dsp-nebula-cacher/src/protocol.rs and the copying loops of proxy/mod.rs,
    proxy/server_proxy.rs and proxy/client_proxy.rs.  The server proxy reads the
    WebSocket frames of the game server; it forwards them, except for a large Nebula
    packet, which it takes apart and announces with an indicator frame.  The client
    proxy replaces the indicator by the frames of the rebuilt packet, whose description
    and chunks it gets on a stream of its own.

    A WebSocket connection is the frames that are read from it and how it ends; writing a
    frame does not fail.  How streams are opened and told apart when there are several
    players is in NebulaConnection.v. *)

From Stdlib Require Import ssreflect.
From stdpp Require Import base numbers list gmap strings.
From S2P Require Import Prelude Buf Chunker Dedup ChunkCache ProtocolUtils Lz4Frame NebulaProtocol.

#[local] Open Scope general_if_scope.

(** ** Frames *)

Inductive OpCode := Continuation | Text | Binary | Close | Ping | Pong.

Record Frame := mkFrame { fin : bool; opcode : OpCode; payload : bytes }.

(** [matches!(frame.opcode, OpCode::Binary | OpCode::Text)] *)
Definition is_data (o : OpCode) : bool := match o with Binary | Text => true | _ => false end.
Definition is_control (f : Frame) : bool := match opcode f with Close | Ping | Pong => true | _ => false end.

(** How reading ends: the peer closed the connection, or another error. *)
Inductive WsEnd := WsClosed | WsFailed (e : error).

(** The error [read_frame] returns at the end. *)
Definition ws_error (e : WsEnd) : error :=
  match e with WsClosed => LibError "WebSocketError::ConnectionClosed" | WsFailed e => e end.

Definition read_ws_frame (e : WsEnd) (frames : list Frame) : result (option (Frame * list Frame)) :=
  match frames, e with
  | frame :: frames, _ => Ok (Some (frame, frames))
  | [], WsClosed => Ok None
  | [], WsFailed err => Err err
  end.

(** [copy_ws_to_ws]: the frames written, and the result. *)
Fixpoint copy_ws_to_ws (e : WsEnd) (frames : list Frame) : list Frame * result unit :=
  match frames with
  | [] => ([], _ ← read_ws_frame e []; Ok tt)
  | frame :: frames => let '(out, r) := copy_ws_to_ws e frames in (frame :: out, r)
  end.

(** ** The dedup indicator *)

Definition MAGIC_NUMBER : bytes :=
  be_bytes 32 0x17f84ac897b3676995b8f5fbc3a10c9beda02aab0e3e752e8b46a1af40cf860f.

Definition StartDedupIndicator_decode (buf : bytes) : option Z :=
  if decide (take (length MAGIC_NUMBER) buf = MAGIC_NUMBER) then
    match try_get_u64 (drop (length MAGIC_NUMBER) buf) with
    | Ok (dedup_id, _) => Some dedup_id
    | _ => None
    end
  else None.

Definition StartDedupIndicator_encode (dedup_id : Z) : bytes := MAGIC_NUMBER ++ put_u64 dedup_id.

Record DedupedPacketDescription := mkDescription {
  dd_packet : NebulaPacket;
  dd_original_packet_size : Z;
}.

(** ** The server proxy *)

(** A packet waiting for the client to open its stream. *)
Record DedupSession := mkSession {
  se_description : DedupedPacketDescription;
  se_chunks : gmap ChunkKey bytes;
}.

(** [AsyncReadExt::read_u64] *)
Definition read_u64 (io : bytes) : result (Z * bytes) :=
  '(b, io) ← read_exact 8 io; Ok (be_val b, io).

(** What [run_server_proxy] does with a stream that the client opened: id 0 is a new
    peer, another id belongs to a pending packet, which is removed from the table.
    Whoever it is for gets the rest of the stream. *)
Definition accept_stream {A} (pending_dedup_streams : gmap Z A) (recv_stream : bytes)
  : result (option A * bytes * gmap Z A) :=
  '(dedup_id, recv_stream) ← read_u64 recv_stream;
  if dedup_id =? 0 then Ok (None, recv_stream, pending_dedup_streams)
  else
    match pending_dedup_streams !! dedup_id with
    | None => Err (Anyhow "Client sent dedup stream with unknown id")
    | Some tx => Ok (Some tx, recv_stream, delete dedup_id pending_dedup_streams)
    end.

Definition MINIMUM_DEDUP_SIZE : Z := 128 * 1024.

(** What the server proxy does for the client: write a frame, or make a packet
    available under an id. *)
Inductive ServerAction :=
| WriteFrame (f : Frame)
| OpenSession (stream_id : Z) (session : DedupSession).

Inductive Received := Complete (packet_data : bytes) | Interrupted.

(** The loop of [dedup_packet] that reads the rest of a message: the frames it
    forwards, the outcome, and the frames that are left. *)
Fixpoint receive_packet (e : WsEnd) (frames : list Frame) (packet_data : bytes)
  : list Frame * result Received * list Frame :=
  match frames with
  | [] => ([], Err (ws_error e), [])
  | frame :: frames =>
      match opcode frame with
      | Continuation =>
          let packet_data := packet_data ++ payload frame in
          if fin frame then ([], Ok (Complete packet_data), frames) else receive_packet e frames packet_data
      | Binary | Text => ([frame], Ok Interrupted, frames)
      | _ =>
          let '(out, r, frames) := receive_packet e frames packet_data in (frame :: out, r, frames)
      end
  end.

Section server.
Context `{Blake3, Lz4Decoder, Zstd}.
Context `{RmpSerde DedupedPacketDescription, RmpSerde RequestChunksMessage, RmpSerde SendChunksMessage}.

(** The end of [dedup_packet], on the stream the client opened: what it writes when
    the client sends [io], and the bytes transferred. *)
Definition serve_session (t : MessageTransport) (session : DedupSession) (io : bytes) : bytes * result Z :=
  match (message_data ← encode_message_async t (se_description session);
         written ← write_message message_data;
         Ok (written, len message_data)) with
  | Ok (written, total_transferred) =>
      let '(out, r) := provide_chunks_as_requested t (se_chunks session) io in
      (written ++ out, Z.add total_transferred <$> r)
  | Err e => ([], Err e)
  | Panic p => ([], Panic p)
  end.

(** [rx.await]: what the client sends on the stream that it opened with an id, after
    the id, or why the stream never comes. *)
Context (t : MessageTransport) (streams : Z -> result bytes).

(** [dedup_packet]: what it does, the next stream id, and the frames that are left. *)
Definition dedup_packet (e : WsEnd) (frames : list Frame) (next_id : Z) (packet_header : NebulaPacketHeader)
    (initial_data : bytes) (was_first_frame_final : bool) : list ServerAction * result Z * list Frame :=
  let '(out, r, frames) :=
    if was_first_frame_final then ([], Ok (Complete initial_data), frames)
    else receive_packet e frames initial_data in
  let written := WriteFrame <$> out in
  match r with
  | Ok Interrupted => (written, Ok next_id, frames)
  | Ok (Complete packet_data) =>
      match spawn_blocking (NebulaPacketHeader_deconstruct packet_header packet_data ∅) with
      | Ok (deconstructed_packet, all_chunks) =>
          let stream_id := next_id in
          let session := mkSession (mkDescription deconstructed_packet (len packet_data)) all_chunks in
          let indicator := mkFrame true Binary (StartDedupIndicator_encode stream_id) in
          (written ++ [OpenSession stream_id session; WriteFrame indicator],
           io ← streams stream_id; _ ← snd (serve_session t session io); Ok (wrap 64 (next_id + 1)), frames)
      | Err err => (written, Err err, frames)
      | Panic p => (written, Panic p, frames)
      end
  | Err err => (written, Err err, frames)
  | Panic p => (written, Panic p, frames)
  end.

(** The packet header that makes [copy_with_dedup] deduplicate a frame, and the data
    after it. *)
Definition dedup_header (frame : Frame) : option (NebulaPacketHeader * bytes) :=
  if is_data (opcode frame) then
    match NebulaPacketHeader_decode (payload frame) with
    | Ok (Some packet_header, frame_data) =>
        if MINIMUM_DEDUP_SIZE <? approx_size packet_header then Some (packet_header, frame_data) else None
    | _ => None
    end
  else None.

(** [copy_with_dedup] of the server.  Every iteration reads a frame: their number is
    fuel enough. *)
Fixpoint server_copy_with_dedup (fuel : nat) (e : WsEnd) (frames : list Frame) (next_id : Z)
  : list ServerAction * result Z :=
  match fuel, frames with
  | _, [] => ([], _ ← read_ws_frame e []; Ok next_id)
  | O, _ => ([], Panic "out of fuel")
  | S fuel, frame :: frames =>
      match dedup_header frame with
      | Some (packet_header, frame_data) =>
          match dedup_packet e frames next_id packet_header frame_data (fin frame) with
          | (acts, Ok next_id, frames) =>
              let '(acts', r) := server_copy_with_dedup fuel e frames next_id in (acts ++ acts', r)
          | (acts, Err err, _) => (acts, Err err)
          | (acts, Panic p, _) => (acts, Panic p)
          end
      | None =>
          let '(acts, r) := server_copy_with_dedup fuel e frames next_id in (WriteFrame frame :: acts, r)
      end
  end.
End server.

(** ** The client proxy *)

(** The loop of [forward_deduped_fragments]: a fragment is written when the next one
    arrives, so that the last one can be marked as final. *)
Fixpoint forward_fragments (first_frame : bool) (last_bytes : option bytes) (fragments : list bytes) : list Frame :=
  let op_code := if first_frame then Binary else Continuation in
  match fragments with
  | [] =>
      match last_bytes with
      | Some last_bytes => [mkFrame true op_code last_bytes]
      | None => []
      end
  | data :: fragments =>
      match last_bytes with
      | Some last_bytes => mkFrame false op_code last_bytes :: forward_fragments false (Some data) fragments
      | None => forward_fragments first_frame (Some data) fragments
      end
  end.

Definition forward_deduped_fragments (fragments : list bytes) : list Frame :=
  forward_fragments true None fragments.

Section client.
Context `{Blake3, XxHash32 X, Zstd, LinkedHashMap M}.
Context `{RmpSerde DedupedPacketDescription, RmpSerde RequestChunksMessage, RmpSerde SendChunksMessage}.
Context (t : MessageTransport) (others : ChunkCache M -> list (ChunkKey * nat) -> ChunkCache M).

(** What the server writes into a stream when it has read some bytes from it. *)
Context (connect : bytes -> bytes).

(** [reconstruct_packet]: the emitted byte strings are the fragments, the state at the
    end holds the cache and the stream. *)
Definition reconstruct_packet (fuel : nat) (cache : ChunkCache M) (dedup_stream_id : Z)
  : list bytes * result unit * ChunkFetcherProvider M :=
  let stream := stream_write (put_u64 dedup_stream_id) (mkStream [] 0) in
  match stream_read_message connect stream with
  | Ok (packet_desc_message_data, stream) =>
      (packet_desc ← lift_result (decode_message_async (T := DedupedPacketDescription) packet_desc_message_data);
       NebulaPacket_reconstruct (X := X) (H0 := fetcher_provider t connect others) fuel (dd_packet packet_desc) ;;
       modify fetcher_mark_dirty) (ChunkFetcherProvider_new cache stream)
  | Err e => ([], Err e, ChunkFetcherProvider_new cache stream)
  | Panic p => ([], Panic p, ChunkFetcherProvider_new cache stream)
  end.

(** The packet that a frame announces. *)
Definition indicated (frame : Frame) : option Z :=
  if is_data (opcode frame) && fin frame then StartDedupIndicator_decode (payload frame) else None.

(** [copy_with_dedup] of the client, with [forward_deduped_fragments]: the frames it
    writes, its result, and what it wrote into the streams it opened.  An error of
    [reconstruct_packet] is only logged. *)
Fixpoint client_copy_with_dedup (fuel : nat) (e : WsEnd) (frames : list Frame) (cache : ChunkCache M)
  : list Frame * result unit * ChunkCache M * list bytes :=
  match frames with
  | [] => ([], _ ← read_ws_frame e []; Ok tt, cache, [])
  | frame :: frames =>
      match indicated frame with
      | Some dedup_id =>
          let '(fragments, _, s) := reconstruct_packet fuel cache dedup_id in
          let '(out, r, cache, opened) := client_copy_with_dedup fuel e frames (cf_chunk_cache s) in
          (forward_deduped_fragments fragments ++ out, r, cache, st_sent (cf_stream s) :: opened)
      | None =>
          let '(out, r, cache, opened) := client_copy_with_dedup fuel e frames cache in
          (frame :: out, r, cache, opened)
      end
  end.
End client.

(** ** Messages

    The data messages that a frame sequence carries; [None] if it breaks the framing
    rules or ends inside a message.  [cur] is the message in progress. *)

(** The message that a frame completes, if any, and the message in progress after it. *)
Definition ws_step (cur : option (OpCode * bytes)) (frame : Frame)
  : option (list (OpCode * bytes) * option (OpCode * bytes)) :=
  match opcode frame, cur with
  | Continuation, Some (op, b) =>
      let m := (op, b ++ payload frame) in Some (if fin frame then ([m], None) else ([], Some m))
  | (Text | Binary), None =>
      let m := (opcode frame, payload frame) in Some (if fin frame then ([m], None) else ([], Some m))
  | (Close | Ping | Pong), _ => Some ([], cur)
  | _, _ => None
  end.

Fixpoint ws_parse (cur : option (OpCode * bytes)) (frames : list Frame) : option (list (OpCode * bytes)) :=
  match frames with
  | [] => match cur with None => Some [] | Some _ => None end
  | frame :: frames =>
      match ws_step cur frame with
      | Some (ms, cur) => app ms <$> ws_parse cur frames
      | None => None
      end
  end.

Abbreviation controls := (filter (fun f => is_control f = true)).

(** The rest of a message that is deduplicated: its control frames are forwarded, its
    continuation frames are collected. *)
Lemma receive_packet_ok e frames op b acc ms :
  ws_parse (Some (op, b)) frames = Some ms ->
  exists ctl tail rest ms',
    receive_packet e frames acc = (ctl, Ok (Complete (acc ++ tail)), rest) /\
    ms = (op, b ++ tail) :: ms' /\ ws_parse None rest = Some ms' /\
    Forall (fun f => is_control f = true) ctl /\ controls frames = ctl ++ controls rest /\
    rest `suffix_of` frames.
Proof.
  elim: frames b acc ms => [|f frames IH] b acc ms //. cbn [ws_parse receive_packet]. rw /ws_step.
  destruct (opcode f) eqn:Hop; try done.
  2-4: have Hic : is_control f = true by rw /is_control Hop.
  2-4: destruct (ws_parse _ frames) as [ms0|] eqn:Hp0; [|done]; move=> [= <-]; revert Hp0.
  2-4: intros (ctl & tail & rest & ms' & -> & -> & Hp & Hctl & Hco & Hsuf)%(IH _ acc _).
  2-4: exists (f :: ctl), tail, rest, ms'; split_and!; try done; [by constructor| |by apply suffix_cons_r].
  2-4: by rw filter_cons_True // Hco.
  have Hc : controls (f :: frames) = controls frames by rw filter_cons_False // /is_control Hop.
  destruct (fin f).
  - destruct (ws_parse None frames) as [ms'|] eqn:Hp; [|done]. move=> [= <-].
    exists [], (payload f), frames, ms'. split_and!; try done. by apply suffix_cons_r.
  - destruct (ws_parse _ frames) as [ms0|] eqn:Hp0; [|done]. move=> [= <-]. revert Hp0.
    intros (ctl & tail & rest & ms' & -> & -> & Hp & Hctl & Hco & Hsuf)%(IH _ (acc ++ payload f) _).
    exists ctl, (payload f ++ tail), rest, ms'. rw !app_assoc. split_and!; try done; [by rw Hc|].
    by apply suffix_cons_r.
Qed.

(** The frames of a rebuilt packet carry one binary message. *)
Lemma forward_fragments_parse first b frs cur out ms :
  cur = (if first : bool then None else Some (Binary, b)) ->
  forall last, ws_parse None out = Some ms ->
  ws_parse cur (forward_fragments first (Some last) frs ++ out) =
    Some ((Binary, (if first then [] else b) ++ last ++ concat frs) :: ms).
Proof.
  move=> Hcur last Hms. elim: frs first b cur last Hcur => [|d frs IH] first b cur last ->;
    cbn [forward_fragments app ws_parse]; rw /ws_step; destruct first; cbn [opcode fin payload concat].
  - by rw Hms /= app_nil_r.
  - by rw Hms /= app_nil_r.
  - by rw (IH false last _ d eq_refl).
  - by rw (IH false (b ++ last) _ d eq_refl) -app_assoc.
Qed.

Lemma forward_deduped_parse frs out ms :
  frs <> [] -> ws_parse None out = Some ms ->
  ws_parse None (forward_deduped_fragments frs ++ out) = Some ((Binary, concat frs) :: ms).
Proof.
  destruct frs as [|d frs]; [done|]. move=> _ Hms. rw /forward_deduped_fragments. cbn [forward_fragments].
  by rw (forward_fragments_parse true [] frs None out ms eq_refl d Hms).
Qed.

Lemma forward_fragments_controls first last frs : controls (forward_fragments first last frs) = [].
Proof.
  elim: frs first last => [|d frs IH] first [last|]; cbn [forward_fragments]; [|done| |by apply IH].
  all: rw filter_cons_False ?IH //; by destruct first.
Qed.

(** ** One deduplicated packet *)

Lemma length_magic : length MAGIC_NUMBER = 32%nat.
Proof. apply length_be_bytes. Qed.

Lemma indicator_roundtrip id : in_u 64 id -> StartDedupIndicator_decode (StartDedupIndicator_encode id) = Some id.
Proof.
  move=> H. rw /StartDedupIndicator_decode /StartDedupIndicator_encode take_app_length drop_app_length.
  destruct (decide _) as [_|]; [|done]. by rw -(app_nil_r (put_u64 id)) get_put_u64.
Qed.

(** The keys in a packet, and a bound of its size in MessagePack: the fields and the
    variant take fewer than 128 bytes, a digest at most 70. *)
Definition packet_keys (p : NebulaPacket) : list ChunkKey :=
  match p with
  | GlobalGameData p => chunks (gg_data_chunk_list p)
  | FactoryData p => chunks (fa_data_chunk_list p) ++ chunks (fa_terrain_data_chunk_list p)
  | DysonSphereData p => chunks (ds_data_chunk_list p)
  end.

(** The integer fields hold values of their Rust types. *)
Definition packet_typed (p : NebulaPacket) : bool :=
  match p with
  | GlobalGameData p => in_ub 8 (gg_data_type p) && in_ub 64 (gg_data_uncompressed_length p)
  | FactoryData p =>
      in_ub 32 (fa_planet_id p) && in_ub 64 (fa_data_uncompressed_length p) && in_ub 32 (fa_terrain_data_length p)
  | DysonSphereData p =>
      in_ub 32 (ds_star_index p) && in_ub 64 (ds_data_uncompressed_length p) && in_ub 32 (ds_event_type p)
  end.

Definition description_typed (d : DedupedPacketDescription) : bool :=
  packet_typed (dd_packet d) && in_ub 64 (dd_original_packet_size d).

(** A description whose fields are out of range is not a Rust value: no bound. *)
Definition description_size (d : DedupedPacketDescription) : Z :=
  if description_typed d then 128 + sum_z ((fun k => 6 + 2 * len k) <$> packet_keys (dd_packet d)) else 2 ^ 32.

Lemma store_all_subset `{Blake3} bs all :
  bs ⊆ all -> collision_free all -> store_all bs ∅ ⊆ store_all all ∅.
Proof.
  move=> Hsub Hfree. apply map_subseteq_spec => k b.
  intros [[Hb ->]|Hn]%store_all_lookup; [|by rw lookup_empty in Hn].
  exact (proj1 (Forall_forall _ _) (store_all_knows all ∅ Hfree) b (Hsub b Hb)).
Qed.

Section session.
Context `{Hb : Blake3} {Hspec : Blake3Spec Hb} `{HX : XxHash32 X} {HXS : XxHash32Spec X}.
Context `{Hz : Lz4Decoder} {HzS : Lz4DecoderSpec (X := X) Hz}.
Context `{HZ : Zstd} {HZS : ZstdSpec HZ} {HZB : ZstdBound HZ}.
Context `{HRd : RmpSerde DedupedPacketDescription} {HRdS : RmpSpec DedupedPacketDescription description_size}.
Context `{HRq : RmpSerde RequestChunksMessage} {HRqS : RmpSpec RequestChunksMessage request_size}.
Context `{HRs : RmpSerde SendChunksMessage} {HRsS : RmpSpec SendChunksMessage send_size}.
Context `{HM : LinkedHashMap M} {HMS : LinkedHashMapSpec M}.
Context (t : MessageTransport) (others : ChunkCache M -> list (ChunkKey * nat) -> ChunkCache M).

Definition view_chunks (v : NebulaView) : gmap ChunkKey bytes := store_all (view_blobs v) ∅.

Lemma view_blobs_ok v : Forall (fun b => exists data, blob_ok data b) (view_blobs v).
Proof.
  have Hd data : Forall (fun b => exists data, blob_ok data b) (chunk_data_blobs data).
  { destruct (chunk_data_blobs_spec data) as (_ & _ & _ & _ & Hbl & _).
    eapply Forall_impl; [exact Hbl|]. by eexists. }
  destruct v; cbn [view_blobs view_data]; [done|by apply Forall_app|done].
Qed.

Lemma view_chunks_ok v k c :
  view_chunks v !! k = Some c -> (length k = 32%nat /\ len c <= MAX_BLOB_SIZE) /\ blake3_hash c = k.
Proof.
  rw /view_chunks. intros [[Hc ->]|Hk]%store_all_lookup; [|by rw lookup_empty in Hk].
  split; [|done]. split; [apply blake3_len|].
  destruct (proj1 (Forall_forall _ _) (view_blobs_ok v) c Hc) as [data Hd].
  by destruct (blob_size data c Hd).
Qed.

Lemma packet_keys_ok D h p v :
  packet_describes D h p v -> keys_ok (packet_keys p) /\ len (packet_keys p) <= 2 * MAX_CHUNKS_IN_LIST.
Proof.
  destruct p as [p|p|p], v as [ty data|pl data terrain|st data ev]; cbn [packet_describes packet_keys]; try done.
  - intros (_ & _ & [Hk Hl] & _). split; [done|]. rw /MAX_CHUNKS_IN_LIST in Hl *. lia.
  - intros (_ & _ & _ & [[Hk Hl] _] & [[Hk2 Hl2] _]). split; [by apply Forall_app|]. rw length_app. lia.
  - intros (_ & _ & _ & [Hk Hl] & _). split; [done|]. rw /MAX_CHUNKS_IN_LIST in Hl *. lia.
Qed.

Lemma packet_typed_ok D h p v :
  packet_describes D h p v -> view_ok v -> len (view_data v) < 2 ^ 63 -> packet_typed p = true.
Proof.
  destruct p as [p|p|p], v as [ty data|pl data terrain|st data ev]; cbn [packet_describes packet_typed view_ok view_data]; try done.
  - intros (-> & -> & _) Hv Hl. rw /in_u in Hv. rw !in_ub_intro //; rw /in_u; lia.
  - intros (-> & -> & -> & _) Hv Hl. rw /in_u in Hv. rw !in_ub_intro //; rw /in_u; lia.
  - intros (-> & -> & -> & _) Hv Hl. rw /in_u in Hv. rw !in_ub_intro //; rw /in_u; lia.
Qed.

(** The description of a packet always fits a message. *)
Lemma description_fits D h p v n :
  packet_describes D h p v -> view_ok v -> len (view_data v) < 2 ^ 63 -> in_u 64 n ->
  exists b, encode_message t (mkDescription p n) = Ok b /\ len b <= MESSAGE_SIZE_LIMIT /\
    decode_message b = Ok (mkDescription p n).
Proof.
  move=> Hd Hv Hlen Hn. have Ht := packet_typed_ok _ _ _ _ Hd Hv Hlen.
  apply packet_keys_ok in Hd as [Hk Hl].
  have Hty : description_typed (mkDescription p n) = true.
  { rw /description_typed. cbn [dd_packet dd_original_packet_size]. rw Ht. by apply in_ub_true. }
  have H : 0 <= sum_z ((fun k : ChunkKey => 6 + 2 * len k) <$> packet_keys p) <= (2 * MAX_CHUNKS_IN_LIST) * 70.
  { split; [apply sum_z_pos, Forall_fmap, Forall_true; cbn; lia|].
    apply sum_z_le; [|by rw length_fmap|done]. apply Forall_fmap. eapply Forall_impl; [exact Hk|]. cbn. lia. }
  apply (message_roundtrip (size := description_size)); rw /description_size Hty; cbn [dd_packet]; [lia|].
  rw /MAX_CHUNKS_IN_LIST /MESSAGE_SIZE_LIMIT in H *. move: (sum_z _) H => n0 H.
  have Hdiv : (128 + n0) / 128 <= (128 + 2 * 512 * 70) / 128 by apply Z.div_le_mono; lia.
  change ((128 + 2 * 512 * 70) / 128) with 561 in Hdiv. lia.
Qed.

Lemma read_u64_put id io : in_u 64 id -> read_u64 (put_u64 id ++ io) = Ok (id, io).
Proof. move=> H. rw /read_u64 read_exact_app // bind_ok be_val_be_bytes //. Qed.

Lemma serve_session_ok ses b io :
  encode_message t (se_description ses) = Ok b -> len b <= MESSAGE_SIZE_LIMIT ->
  fst (serve_session t ses io) = framed b ++ server_peer t (se_chunks ses) io /\
  forall n, snd (provide_chunks_as_requested t (se_chunks ses) io) = Ok n ->
    snd (serve_session t ses io) = Ok (len b + n).
Proof.
  move=> He Hl. rw /serve_session (encode_async_ok _ _ _ He) bind_ok write_message_ok // bind_ok /server_peer.
  destruct (provide_chunks_as_requested t (se_chunks ses) io) as [out r]. cbn [fst snd].
  split; [done|]. by move=> n ->.
Qed.

Lemma cache_agrees_dirty known (c : ChunkCache M) : cache_agrees known c -> cache_agrees known (ChunkCache_mark_dirty c).
Proof. done. Qed.

(** The client rebuilds the packet of a session, whatever else is in its cache. *)
Lemma session_rebuilds known cache p v n height fuel :
  packet_describes (fun k => view_chunks v !! k) height p v -> view_ok v ->
  framed_size (len (view_data v)) <= U32_MAX -> len (view_data v) < 2 ^ 63 ->
  in_u 64 n -> view_chunks v ⊆ known -> cache_agrees known cache -> others_deliver others known -> (height < fuel)%nat ->
  forall id connect,
  (forall io, connect (put_u64 id ++ io) = fst (serve_session t (mkSession (mkDescription p n) (view_chunks v)) io)) ->
  exists fragments s',
    reconstruct_packet (X := X) t others connect fuel cache id = (fragments, Ok tt, s') /\
    fragments <> [] /\ nebula_view (concat fragments) = Ok (Some v) /\ cache_agrees known (cf_chunk_cache s') /\
    exists io total, st_sent (cf_stream s') = put_u64 id ++ io /\
      snd (provide_chunks_as_requested t (view_chunks v) io) = Ok total.
Proof.
  move=> Hd Hv Hs Hl Hn64 Hsub Hc Hothers Hfuel id connect Hcon.
  destruct (description_fits _ _ p v n Hd Hv Hl Hn64) as (b & He & Hbl & Hdec).
  have Hpeer io : connect (put_u64 id ++ io) = framed b ++ server_peer t (view_chunks v) io.
  { rw Hcon. by destruct (serve_session_ok (mkSession (mkDescription p n) (view_chunks v)) b io He Hbl) as [-> _]. }
  set Hblobs := fun k c H => proj1 (view_chunks_ok v k c H).
  set PS := fetcher_provider_spec t (view_chunks v) others Hblobs
    (fun k c H => proj2 (view_chunks_ok v k c H)) known Hsub connect (put_u64 id) (framed b) Hpeer Hothers.
  set s0 := ChunkFetcherProvider_new cache (mkStream (put_u64 id) (len (framed b))).
  destruct (@reconstruct_packet_ok X HX HXS _ _ _ PS fuel height p v s0)
    as (out & s1 & Hr & Hcat & Hi); [done|done|done|by apply fetcher_inv_new|].
  exists out, (fetcher_mark_dirty s1). split_and!.
  - rw /reconstruct_packet /stream_read_message /stream_write. cbn [st_sent st_read app].
    have Hgreet := Hpeer []. rw app_nil_r in Hgreet. rw Hgreet zdrop_0 read_written // bind_ok.
    have -> : 0 + 4 + len b = len (framed b) by rw length_framed; lia.
    apply (emit_bind_ok _ _ _ [] (mkDescription p n) s0); [by rw /lift_result (decode_async_ok _ _ Hdec)|].
    rw -(app_nil_r out). by apply (emit_bind_ok _ _ _ out tt s1).
  - move=> Hn. rw Hn in Hcat. by destruct v.
  - rw Hcat. by apply rebuilt_view.
  - by destruct Hi as (? & _).
  - destruct Hi as (_ & _ & _ & Hst). destruct (stream_served t (view_chunks v) Hblobs (put_u64 id) (framed b) s1 Hst)
      as (io & Hio & Hn). by exists io, (cf_total_transferred s1).
Qed.
End session.

(** ** The connection as a whole *)

Definition frames_of (acts : list ServerAction) : list Frame :=
  omap (fun a => match a with WriteFrame f => Some f | _ => None end) acts.

Definition sessions_of (acts : list ServerAction) : list (Z * DedupSession) :=
  omap (fun a => match a with OpenSession id ses => Some (id, ses) | _ => None end) acts.

Lemma frames_of_written fs : frames_of (WriteFrame <$> fs) = fs.
Proof. elim: fs => [|f fs IH] //=. by rw IH. Qed.

Lemma sessions_of_written fs : sessions_of (WriteFrame <$> fs) = [].
Proof. by elim: fs. Qed.

Lemma parse_controls cur ctl frames :
  Forall (fun f => is_control f = true) ctl -> ws_parse cur (ctl ++ frames) = ws_parse cur frames.
Proof.
  elim => [|f ctl' Hf _ IH] //. cbn [app ws_parse].
  have -> : ws_step cur f = Some ([], cur) by rw /ws_step; rw /is_control in Hf; destruct (opcode f).
  rw IH. by destruct (ws_parse cur frames).
Qed.

Lemma controls_all ctl : Forall (fun f => is_control f = true) ctl -> controls ctl = ctl.
Proof. elim => [|f ctl' Hf _ IH] //. by rw filter_cons_True // IH. Qed.

(** The message that a deduplicated frame begins. *)
Lemma dedup_message e f frames cur ms h data :
  dedup_header f = Some (h, data) -> ws_parse cur (f :: frames) = Some ms ->
  exists ctl tail rest ms', cur = None /\
    (if fin f then ([], Ok (Complete data), frames) else receive_packet e frames data) =
      (ctl, Ok (Complete (data ++ tail)), rest) /\
    ms = (opcode f, payload f ++ tail) :: ms' /\ ws_parse None rest = Some ms' /\
    Forall (fun f => is_control f = true) ctl /\ controls (f :: frames) = ctl ++ controls rest /\
    rest `suffix_of` frames /\
    NebulaPacketHeader_decode (payload f ++ tail) = Ok (Some h, data ++ tail) /\
    MINIMUM_DEDUP_SIZE < approx_size h.
Proof.
  rw /dedup_header. destruct (is_data (opcode f)) eqn:Hop; [|done].
  destruct (NebulaPacketHeader_decode (payload f)) as [[[h'|] rest']| |] eqn:Hh; try done.
  case: Z.ltb_spec => // Hsz [= <- <-]. cbn [ws_parse].
  have Hc : controls (f :: frames) = controls frames.
  { rw filter_cons_False // /is_control. by destruct (opcode f). }
  have Hstep : ws_step cur f = match cur with None => Some (if fin f then ([(opcode f, payload f)], None)
    else ([], Some (opcode f, payload f))) | Some _ => None end by rw /ws_step; destruct (opcode f), cur.
  rw Hstep Hc. destruct cur; [done|]. destruct (fin f).
  - destruct (ws_parse None frames) as [ms'|] eqn:Hp; [|done]. move=> [= <-].
    exists [], [], frames, ms'. rw !app_nil_r. by split_and!.
  - destruct (ws_parse (Some _) frames) as [ms0|] eqn:Hp; [|done]. move=> [= <-].
    destruct (receive_packet_ok e frames (opcode f) (payload f) rest' ms0 Hp)
      as (ctl & tail & rest & ms' & H1 & H2 & H3 & H4 & H5 & H6).
    exists ctl, tail, rest, ms'. split_and!; try done. by apply header_decode_more.
Qed.

(** What the game can read: a message that announces a large packet is one.  No buffer
    is longer than [isize::MAX]. *)
Definition readable `{Lz4Decoder} (m : OpCode * bytes) : Prop :=
  len (snd m) < 2 ^ 63 /\
  forall h rest, NebulaPacketHeader_decode (snd m) = Ok (Some h, rest) -> MINIMUM_DEDUP_SIZE < approx_size h ->
  exists v, view_of h rest = Ok v /\ framed_size (len (view_data v)) <= U32_MAX /\ len (view_data v) < 2 ^ 63.

(** The message itself, or a binary message that the game reads as the same packet. *)
Definition same_message `{Lz4Decoder} (m m' : OpCode * bytes) : Prop :=
  m' = m \/ exists v, nebula_view (snd m) = Ok (Some v) /\ nebula_view (snd m') = Ok (Some v) /\ fst m' = Binary.

Section simulation.
Context `{Hb : Blake3} {Hspec : Blake3Spec Hb} `{HX : XxHash32 X} {HXS : XxHash32Spec X}.
Context `{Hz : Lz4Decoder} {HzS : Lz4DecoderSpec (X := X) Hz}.
Context `{HZ : Zstd} {HZS : ZstdSpec HZ} {HZB : ZstdBound HZ}.
Context `{HRd : RmpSerde DedupedPacketDescription} {HRdS : RmpSpec DedupedPacketDescription description_size}.
Context `{HRq : RmpSerde RequestChunksMessage} {HRqS : RmpSpec RequestChunksMessage request_size}.
Context `{HRs : RmpSerde SendChunksMessage} {HRsS : RmpSpec SendChunksMessage send_size}.
Context `{HM : LinkedHashMap M} {HMS : LinkedHashMapSpec M}.
Context (t : MessageTransport) (others : ChunkCache M -> list (ChunkKey * nat) -> ChunkCache M).
Context (known : gmap ChunkKey bytes) (Hothers : others_deliver others known).

(** The streams that tasks of the server wait for: for every packet it announced, one
    on which the client asks only for chunks of that packet. *)
Definition served (acts : list ServerAction) (streams : Z -> result bytes) : Prop :=
  forall id ses, (id, ses) ∈ sessions_of acts ->
  exists io n, streams id = Ok io /\ snd (provide_chunks_as_requested t (se_chunks ses) io) = Ok n.

(** The server's end of the streams that the client opens with the id of a packet. *)
Definition connects (acts : list ServerAction) (connect : bytes -> bytes) : Prop :=
  forall id ses io, (id, ses) ∈ sessions_of acts -> connect (put_u64 id ++ io) = fst (serve_session t ses io).

(** A stream that the client opened for a packet, as a whole. *)
Definition opened_for (session : Z * DedupSession) (stream : bytes) : Prop :=
  exists io n, stream = put_u64 (fst session) ++ io /\
    snd (provide_chunks_as_requested t (se_chunks (snd session)) io) = Ok n.

(** What the client makes of the actions of the server. *)
Definition carries (acts : list ServerAction) (depth : nat) (cur : option (OpCode * bytes))
    (ms : list (OpCode * bytes)) (ctl : list Frame) : Prop :=
  forall connect fuel cache, connects acts connect -> (depth < fuel)%nat -> cache_agrees known cache ->
  exists out cache' opened ms',
    client_copy_with_dedup (X := X) t others connect fuel WsClosed (frames_of acts) cache =
      (out, Ok tt, cache', opened) /\
    ws_parse cur out = Some ms' /\ Forall2 same_message ms ms' /\ controls out = ctl /\
    cache_agrees known cache' /\ Forall2 opened_for (sessions_of acts) opened.

Lemma carries_mono acts d d' cur ms ctl : (d <= d')%nat -> carries acts d cur ms ctl -> carries acts d' cur ms ctl.
Proof. move=> Hd Hc connect fuel cache H1 H2 H3. apply Hc; [done|lia|done]. Qed.

(** A frame that both sides forward. *)
Lemma carries_frame f acts depth cur cur' complete ms ctl :
  indicated f = None -> ws_step cur f = Some (complete, cur') -> carries acts depth cur' ms ctl ->
  carries (WriteFrame f :: acts) depth cur (complete ++ ms) (controls [f] ++ ctl).
Proof.
  move=> Hi Hstep Hc connect fuel cache Hcon Hfuel Hag.
  destruct (Hc connect fuel cache Hcon Hfuel Hag) as (out & cache' & opened & ms' & Hrun & Hp & Hs & Hctl & Hag' & Hop).
  exists (f :: out), cache', opened, (complete ++ ms').
  change (frames_of (WriteFrame f :: acts)) with (f :: frames_of acts). cbn [client_copy_with_dedup ws_parse].
  rw Hi Hrun Hstep Hp. split_and!; [done|done| | |done|done].
  - apply Forall2_app; [|done]. apply Forall_Forall2_diag, Forall_true. by left.
  - by rw -Hctl -filter_app.
Qed.

Lemma client_controls connect fuel e ctl frames (cache : ChunkCache M) :
  Forall (fun f => is_control f = true) ctl ->
  client_copy_with_dedup (X := X) t others connect fuel e (ctl ++ frames) cache =
    let '(out, r, cache', opened) := client_copy_with_dedup (X := X) t others connect fuel e frames cache in
    (ctl ++ out, r, cache', opened).
Proof.
  elim => [|f ctl' Hf _ IH].
  { cbn [app]. by destruct (client_copy_with_dedup t others connect fuel e frames cache) as [[[? ?] ?] ?]. }
  cbn [app client_copy_with_dedup].
  have -> : indicated f = None by rw /indicated; rw /is_control in Hf; destruct (opcode f).
  rw IH. by destruct (client_copy_with_dedup t others connect fuel e frames cache) as [[[? ?] ?] ?].
Qed.

(** A packet that the server replaces by an indicator and the client rebuilds. *)
Lemma carries_packet ctl id p n v height acts depth m ms cs :
  Forall (fun f => is_control f = true) ctl -> in_u 64 id ->
  packet_describes (fun k => view_chunks v !! k) height p v -> view_ok v ->
  framed_size (len (view_data v)) <= U32_MAX -> len (view_data v) < 2 ^ 63 -> in_u 64 n -> view_chunks v ⊆ known ->
  nebula_view (snd m) = Ok (Some v) -> carries acts depth None ms cs ->
  carries (((WriteFrame <$> ctl) ++ [OpenSession id (mkSession (mkDescription p n) (view_chunks v));
      WriteFrame (mkFrame true Binary (StartDedupIndicator_encode id))]) ++ acts)
    (depth `max` height) None (m :: ms) (ctl ++ cs).
Proof.
  move=> Hctl Hid Hd Hv Hs Hl Hn64 Hsub Hview Hc connect fuel cache Hcon Hfuel Hag.
  set ses := mkSession _ _ in Hcon *. rw -app_assoc in Hcon *.
  rw /frames_of omap_app -/(frames_of (WriteFrame <$> ctl)) frames_of_written. cbn [app omap list_omap].
  rw -/(frames_of acts) client_controls //. cbn [client_copy_with_dedup].
  have -> : indicated (mkFrame true Binary (StartDedupIndicator_encode id)) = Some id.
  { rw /indicated. cbn [opcode fin payload is_data andb]. by apply indicator_roundtrip. }
  have Hses : sessions_of ((WriteFrame <$> ctl) ++ [OpenSession id ses;
      WriteFrame (mkFrame true Binary (StartDedupIndicator_encode id))] ++ acts) = (id, ses) :: sessions_of acts.
  { by rw /sessions_of omap_app -/(sessions_of (WriteFrame <$> ctl)) sessions_of_written. }
  rw /connects Hses in Hcon. rw Hses.
  destruct (session_rebuilds (X := X) t others known cache p v n height fuel)
    with (id := id) (connect := connect) as (frs & s1 & Hrun & Hne & Hnv & Hag1 & Hopen);
    [done|done|done|done|done|done|done|done|lia|by move=> io; apply Hcon; left|]. rw Hrun.
  destruct (Hc connect fuel (cf_chunk_cache s1)) as (out & cache' & opened & ms' & -> & Hp & Hsm & Hcs & Hag' & Hops); [|lia|done|].
  { move=> id' ses' io Hin. apply Hcon. by right. }
  exists (ctl ++ forward_deduped_fragments frs ++ out), cache', (st_sent (cf_stream s1) :: opened), ((Binary, concat frs) :: ms').
  split_and!; [done| | | |done|by constructor].
  - rw parse_controls //. by apply forward_deduped_parse.
  - constructor; [|done]. right. by exists v.
  - by rw !filter_app controls_all // /forward_deduped_fragments forward_fragments_controls Hcs.
Qed.

Definition known_packets (ms : list (OpCode * bytes)) : Prop :=
  Forall (fun m => forall v, nebula_view (snd m) = Ok (Some v) -> collision_free (view_blobs v) /\ view_chunks v ⊆ known) ms.

(** [dedup_packet] on a readable message: it takes the rest of the message, makes the
    packet available and announces it. *)
Lemma dedup_packet_runs f frames cur ms h data next :
  dedup_header f = Some (h, data) -> ws_parse cur (f :: frames) = Some ms ->
  Forall readable ms -> known_packets ms -> 0 < next -> next + 1 < 2 ^ 64 ->
  exists ctl tail rest ms' p v height, cur = None /\ ms = (opcode f, payload f ++ tail) :: ms' /\
    ws_parse None rest = Some ms' /\ Forall (fun f => is_control f = true) ctl /\
    controls (f :: frames) = ctl ++ controls rest /\ rest `suffix_of` frames /\
    (forall streams io n, streams next = Ok io -> snd (provide_chunks_as_requested t (view_chunks v) io) = Ok n ->
     dedup_packet t streams WsClosed frames next h data (fin f) =
       ((WriteFrame <$> ctl) ++ [OpenSession next (mkSession (mkDescription p (len (data ++ tail))) (view_chunks v));
          WriteFrame (mkFrame true Binary (StartDedupIndicator_encode next))], Ok (next + 1), rest)) /\
    packet_describes (fun k => view_chunks v !! k) height p v /\ view_ok v /\
    framed_size (len (view_data v)) <= U32_MAX /\ len (view_data v) < 2 ^ 63 /\ in_u 64 (len (data ++ tail)) /\
    view_chunks v ⊆ known /\ nebula_view (payload f ++ tail) = Ok (Some v).
Proof.
  move=> Hh Hp Hread Hk Hn H64.
  destruct (dedup_message WsClosed f frames cur ms h data Hh Hp)
    as (ctl & tail & rest & ms' & -> & Hrecv & -> & Hp' & Hctl & Hco & Hsuf & Hdec & Hsz).
  apply Forall_cons in Hread as [[Hml Hr] _]. apply Forall_cons in Hk as [Hk1 _].
  destruct (Hr h (data ++ tail) Hdec Hsz) as (v & Hview & Hs & Hl).
  have Hn64 : in_u 64 (len (data ++ tail)).
  { have := header_decode_rest _ _ _ Hdec. cbn [snd] in Hml. rw /in_u. lia. }
  have Hvok : view_ok v by apply (view_of_ok (payload f ++ tail) h (data ++ tail)).
  have Hnv : nebula_view (payload f ++ tail) = Ok (Some v) by rw /nebula_view Hdec bind_ok Hview.
  destruct (Hk1 v Hnv) as [Hfree Hsub].
  pose proof (deconstruct_ok h (data ++ tail) ∅) as Hd. rw Hview in Hd. destruct Hd as (p & height & Hd & Hdesc).
  have {}Hdesc := Hdesc (fun k => view_chunks v !! k) (store_all_knows _ ∅ Hfree).
  exists ctl, tail, rest, ms', p, v, height. do 6 (split; [done|]). split; [|done].
  move=> streams io n Hst Hpr. rw /dedup_packet Hrecv Hd /spawn_blocking -/(view_chunks v). set ses := mkSession _ _.
  destruct (description_fits t _ height p v (len (data ++ tail)) Hdesc Hvok Hl Hn64) as (b & He & Hbl & _).
  destruct (serve_session_ok t ses b io He Hbl) as [_ Hsv]. rw Hst bind_ok (Hsv n Hpr) bind_ok.
  by have -> : wrap 64 (next + 1) = next + 1 by rw /wrap Z.mod_small; lia.
Qed.

(** Both loops together: whatever the frames, as long as they are well formed, the
    large packets readable, and no frame looks like an indicator. *)
Lemma copy_preserves fuel frames cur ms next :
  ws_parse cur frames = Some ms -> (length frames <= fuel)%nat ->
  Forall (fun f => indicated f = None) frames -> Forall readable ms -> known_packets ms ->
  0 < next -> next + len frames < 2 ^ 64 ->
  exists acts next' depth,
    (forall streams, served acts streams -> server_copy_with_dedup t streams fuel WsClosed frames next = (acts, Ok next')) /\
    Forall (fun id => next <= id < 2 ^ 64) (sessions_of acts).*1 /\ NoDup (sessions_of acts).*1 /\
    carries acts depth cur ms (controls frames).
Proof.
  elim: fuel frames cur ms next => [|fuel IH] [|f frames] cur ms next Hp Hlen Hind Hread Hk Hn H64.
  1, 3: destruct cur; [done|]; injection Hp as <-; exists [], next, 0%nat; split_and!; try done; try constructor;
        move=> connect fuel' cache _ _ Hag; by exists [], cache, [], [].
  { cbn in Hlen. lia. }
  apply Forall_cons in Hind as [Hif Hind]. cbn [length] in Hlen, H64. cbn [server_copy_with_dedup].
  destruct (dedup_header f) as [[h data]|] eqn:Hh.
  - destruct (dedup_packet_runs f frames cur ms h data next)
      as (ctl & tail & rest & ms' & p & v & height & -> & -> & Hp' & Hctl & Hco & Hsuf & Hrun & Hpkt); try done; [lia|].
    apply Forall_cons in Hread as [_ Hread]. apply Forall_cons in Hk as [_ Hk]. have Hlr := suffix_length _ _ Hsuf.
    destruct (IH rest None ms' (next + 1) Hp') as (acts & next' & depth & Hacts & Hids & Hnd & Hc); [lia| |done|done|lia|lia|].
    { destruct Hsuf as [pre ->]. by apply Forall_app in Hind as [_ ?]. }
    set ses := mkSession _ _ in Hrun.
    set announced := (WriteFrame <$> ctl) ++ [OpenSession next ses;
      WriteFrame (mkFrame true Binary (StartDedupIndicator_encode next))] in Hrun.
    have Hses : sessions_of (announced ++ acts) = (next, ses) :: sessions_of acts.
    { by rw /sessions_of !omap_app -/(sessions_of (WriteFrame <$> ctl)) sessions_of_written. }
    exists (announced ++ acts), next', (depth `max` height)%nat.
    split; [|rw Hses Hco; cbn [fmap list_fmap fst]; split_and!].
    + move=> streams Hserved. rw /served Hses in Hserved. destruct (Hserved next ses) as (io & n & Hio & Hn'); [by left|].
      rw (Hrun streams io n Hio Hn') Hacts //. move=> id' ses' Hin. apply Hserved. by right.
    + constructor; [lia|]. eapply Forall_impl; [exact Hids|]. cbn. lia.
    + constructor; [|done]. move=> Hin. have := proj1 (Forall_forall _ _) Hids next Hin. lia.
    + apply (carries_packet ctl next p (len (data ++ tail)) v height); try apply Hpkt; [done|rw /in_u; lia|done].
  - cbn [ws_parse] in Hp. destruct (ws_step cur f) as [[complete cur']|] eqn:Hstep; [|done].
    destruct (ws_parse cur' frames) as [ms'|] eqn:Hp'; [|done]. injection Hp as <-.
    apply Forall_app in Hread as [_ Hread]. apply Forall_app in Hk as [_ Hk].
    destruct (IH frames cur' ms' next Hp') as (acts & next' & depth & Hacts & Hids & Hnd & Hc); [lia|done|done|done|done|lia|].
    exists (WriteFrame f :: acts), next', depth. split_and!; [|done|done|].
    { move=> streams Hserved. by rw Hacts. }
    have -> : controls (f :: frames) = controls [f] ++ controls frames by rw -filter_app.
    by apply (carries_frame f acts depth cur cur').
Qed.
End simulation.

(** The blobs of the packets among some messages. *)
Definition message_blobs `{Blake3, Lz4Decoder} (ms : list (OpCode * bytes)) : list bytes :=
  ms ≫= fun m => match nebula_view (snd m) with Ok (Some v) => view_blobs v | _ => [] end.

Lemma message_blobs_view `{Blake3, Lz4Decoder} ms m v :
  m ∈ ms -> nebula_view (snd m) = Ok (Some v) -> view_blobs v ⊆ message_blobs ms.
Proof. move=> Hm Hv b Hb. apply list_elem_of_bind. exists m. split; [by rw Hv|done]. Qed.

Lemma collision_free_sub `{Blake3} bs all : bs ⊆ all -> collision_free all -> collision_free bs.
Proof. move=> Hsub Hfree a b Ha Hb. by apply Hfree; apply Hsub. Qed.

(** The server's end of a stream that the client opens while some packets are pending:
    [run_server_proxy] and the end of [dedup_packet]. *)
Definition connect_to `{Zstd} `{RmpSerde DedupedPacketDescription, RmpSerde RequestChunksMessage, RmpSerde SendChunksMessage}
    (t : MessageTransport) (pending_dedup_streams : gmap Z DedupSession) (sent : bytes) : bytes :=
  match accept_stream pending_dedup_streams sent with
  | Ok (Some session, io, _) => fst (serve_session t session io)
  | _ => []
  end.

(** [rx.await] of the task that waits for an id, when the client opens some streams:
    the rest of the stream that starts with this id. *)
Fixpoint handed_over (opened : list bytes) (stream_id : Z) : result bytes :=
  match opened with
  | [] => Err (LibError "RecvError")
  | recv_stream :: opened =>
      '(dedup_id, recv_stream) ← read_u64 recv_stream;
      if dedup_id =? stream_id then Ok recv_stream else handed_over opened stream_id
  end.

Lemma handed_over_served `{Zstd} `{RmpSerde RequestChunksMessage, RmpSerde SendChunksMessage} t acts opened :
  Forall2 (opened_for t) (sessions_of acts) opened -> NoDup (sessions_of acts).*1 ->
  Forall (in_u 64) (sessions_of acts).*1 -> served t acts (handed_over opened).
Proof.
  rw /served. elim => [|[id ses] stream sessions opened' Hop _ IH] Hnd Hids id' ses'; first by inversion 1.
  cbn [fmap list_fmap fst] in Hnd, Hids. apply NoDup_cons in Hnd as [Hni Hnd]. apply Forall_cons in Hids as [Hid Hids].
  destruct Hop as (io & n & -> & Hn). cbn [fst snd] in Hn |- *. cbn [handed_over]. rw read_u64_put // bind_ok.
  intros [[= -> ->]|Hin]%elem_of_cons; [exists io, n; by rw Z.eqb_refl|].
  case: Z.eqb_spec => [He|_]; [|by apply IH]. destruct Hni. subst id'. by apply (list_elem_of_fmap_2 fst _ (id, ses')).
Qed.

Lemma connect_to_connects `{Zstd} `{RmpSerde DedupedPacketDescription, RmpSerde RequestChunksMessage, RmpSerde SendChunksMessage}
  t acts : NoDup (sessions_of acts).*1 -> Forall (fun id => 0 < id < 2 ^ 64) (sessions_of acts).*1 ->
  connects t acts (connect_to t (list_to_map (sessions_of acts))).
Proof.
  move=> Hnd Hids id ses io Hin.
  have Hid := proj1 (Forall_forall _ _) Hids id (list_elem_of_fmap_2 fst _ (id, ses) Hin).
  rw /connect_to /accept_stream read_u64_put; [rw /in_u; cbn beta in Hid; lia|]. rw bind_ok.
  case: Z.eqb_spec => [?|_]; [cbn beta in Hid; lia|]. by rw (elem_of_list_to_map_1 _ id ses Hnd Hin).
Qed.

(** What the players see.  The frames that the server proxy reads from the game
    server carry some messages.  If every large packet among them is readable, then the
    server's loop, with the streams that the client opens, and the client's loop, on the
    frames that the server wrote and with the server at the other end of its streams,
    both run without an error; the frames that reach the player's game are well framed
    and carry the same messages in the same order, each large packet replaced by a
    binary message that reads as the same packet; and the control frames are the same,
    in the same order. *)
Lemma nebula_messages_preserved `{Hb : Blake3} {Hspec : Blake3Spec Hb} `{HX : XxHash32 X} {HXS : XxHash32Spec X}
  `{Hz : Lz4Decoder} {HzS : Lz4DecoderSpec (X := X) Hz} `{HZ : Zstd} {HZS : ZstdSpec HZ} {HZB : ZstdBound HZ}
  `{HRd : RmpSerde DedupedPacketDescription} {HRdS : RmpSpec DedupedPacketDescription description_size}
  `{HRq : RmpSerde RequestChunksMessage} {HRqS : RmpSpec RequestChunksMessage request_size}
  `{HRs : RmpSerde SendChunksMessage} {HRsS : RmpSpec SendChunksMessage send_size}
  `{HM : LinkedHashMap M} {HMS : LinkedHashMapSpec M}
  (t : MessageTransport) (others : ChunkCache M -> list (ChunkKey * nat) -> ChunkCache M)
  (frames : list Frame) ms next (cache : ChunkCache M) (Hframes : ws_parse None frames = Some ms)
  (Hplain : Forall (fun f => indicated f = None) frames) (Hread : Forall readable ms)
  (Hfree : collision_free (message_blobs ms)) (Hcache : cache_agrees (store_all (message_blobs ms) ∅) cache)
  (Hothers : others_deliver others (store_all (message_blobs ms) ∅)) (Hnext : 0 < next) (Hids : next + len frames < 2 ^ 64) :
  exists acts next' depth, forall fuel, (depth < fuel)%nat ->
    exists out cache' opened ms',
      server_copy_with_dedup t (handed_over opened) (length frames) WsClosed frames next = (acts, Ok next') /\
      client_copy_with_dedup (X := X) t others (connect_to t (list_to_map (sessions_of acts)))
        fuel WsClosed (frames_of acts) cache = (out, Ok tt, cache', opened) /\
      ws_parse None out = Some ms' /\ Forall2 same_message ms ms' /\ controls out = controls frames.
Proof.
  destruct (copy_preserves (X := X) t others (store_all (message_blobs ms) ∅) Hothers (length frames) frames None ms next)
    as (acts & next' & depth & Hrun & Hrange & Hnd & Hc); try done.
  { apply Forall_forall => m Hm v Hv. pose proof (message_blobs_view ms m v Hm Hv) as Hsub.
    split; [by apply (collision_free_sub _ _ Hsub)|by apply store_all_subset]. }
  exists acts, next', depth. move=> fuel Hfuel.
  destruct (Hc (connect_to t (list_to_map (sessions_of acts))) fuel cache)
    as (out & cache' & opened & ms' & Hr & Hp & Hs & Hctl & _ & Hop); [|done|done|].
  - apply connect_to_connects; [done|]. eapply Forall_impl; [exact Hrange|]. cbn. lia.
  - exists out, cache', opened, ms'. split; [|done]. apply Hrun, handed_over_served; [done|done|].
    eapply Forall_impl; [exact Hrange|]. rw /in_u. cbn. lia.
Qed.

(** *** A concrete connection *)

Definition flag (b : bool) : Byte.byte := if b then Byte.x01 else Byte.x00.
Definition unflag (b : Byte.byte) : bool := match b with Byte.x00 => false | _ => true end.

Lemma unflag_flag b : unflag (flag b) = b.
Proof. by destruct b. Qed.

(** A description as byte strings: the variant, four integers, the two kinds of chunk
    list, the length of the first list, and the keys. *)
Definition description_items (d : DedupedPacketDescription) : list bytes :=
  let items (tag : Byte.byte) a b c (l1 l2 : ChunkList) :=
    [tag] :: le_bytes 8 a :: le_bytes 8 b :: le_bytes 8 c :: le_bytes 8 (dd_original_packet_size d) ::
    [flag (is_leaf l1); flag (is_leaf l2)] :: le_bytes 8 (len (chunks l1)) :: packet_keys (dd_packet d) in
  match dd_packet d with
  | GlobalGameData p =>
      items Byte.x00 (gg_data_type p) (gg_data_uncompressed_length p) 0 (gg_data_chunk_list p) (gg_data_chunk_list p)
  | FactoryData p =>
      items Byte.x01 (fa_planet_id p) (fa_data_uncompressed_length p) (fa_terrain_data_length p)
        (fa_data_chunk_list p) (fa_terrain_data_chunk_list p)
  | DysonSphereData p =>
      items Byte.x02 (ds_star_index p) (ds_data_uncompressed_length p) (ds_event_type p)
        (ds_data_chunk_list p) (ds_data_chunk_list p)
  end.

Definition items_description (l : list bytes) : result DedupedPacketDescription :=
  match l with
  | [tag] :: a :: b :: c :: size :: [f1; f2] :: n :: keys =>
      let a := le_val a in let b := le_val b in let c := le_val c in
      let l1 := mkChunkList (unflag f1) (ztake (le_val n) keys) in
      let l2 := mkChunkList (unflag f2) (zdrop (le_val n) keys) in
      let p := match tag with
        | Byte.x00 => GlobalGameData (mkGlobalGameData a b l1)
        | Byte.x01 => FactoryData (mkFactoryData a b l1 c l2)
        | _ => DysonSphereData (mkDysonSphereData a b l1 c)
        end in
      Ok (mkDescription p (le_val size))
  | _ => Err (LibError "description")
  end.

Definition toy_description_rmp : RmpSerde DedupedPacketDescription := {|
  rmp_write d := if description_typed d then toy_write (description_items d) else Err (LibError "type");
  rmp_from_read r := l ← toy_unpack (fst r); items_description l;
|}.

Lemma le_val_u64 z : in_u 64 z -> le_val (le_bytes 8 z) = z.
Proof. exact (le_val_le_bytes 8 z). Qed.
Lemma le_val_u32 z : in_u 32 z -> le_val (le_bytes 8 z) = z.
Proof. move=> H. apply le_val_u64. rw /in_u in H *. lia. Qed.
Lemma le_val_u8 z : in_u 8 z -> le_val (le_bytes 8 z) = z.
Proof. move=> H. apply le_val_u64. rw /in_u in H *. lia. Qed.

Lemma chunk_list_eta (l : ChunkList) : mkChunkList (is_leaf l) (chunks l) = l.
Proof. by destruct l. Qed.

Lemma items_description_items d :
  description_typed d = true -> len (packet_keys (dd_packet d)) < 2 ^ 32 ->
  items_description (description_items d) = Ok d.
Proof.
  destruct d as [[p|p|p] n]; rw /description_typed /description_items; cbn [packet_typed packet_keys dd_packet dd_original_packet_size].
  - intros [[Ha%in_ub_true Hb%in_ub_true]%andb_prop Hn%in_ub_true]%andb_prop Hl. cbn [items_description].
    rw (le_val_u8 _ Ha) (le_val_u64 _ Hb) (le_val_u64 _ Hn) unflag_flag le_val_u32; [rw /in_u; lia|].
    rw ztake_all // chunk_list_eta. by destruct p.
  - intros [[[Ha%in_ub_true Hb%in_ub_true]%andb_prop Hc%in_ub_true]%andb_prop Hn%in_ub_true]%andb_prop Hl. cbn [items_description].
    rw (le_val_u32 _ Ha) (le_val_u64 _ Hb) (le_val_u32 _ Hc) (le_val_u64 _ Hn) !unflag_flag.
    rw length_app in Hl. rw le_val_u32; [rw /in_u; lia|]. rw ztake_app // zdrop_app // !chunk_list_eta. by destruct p.
  - intros [[[Ha%in_ub_true Hb%in_ub_true]%andb_prop Hc%in_ub_true]%andb_prop Hn%in_ub_true]%andb_prop Hl. cbn [items_description].
    rw (le_val_u32 _ Ha) (le_val_u64 _ Hb) (le_val_u32 _ Hc) (le_val_u64 _ Hn) unflag_flag le_val_u32; [rw /in_u; lia|].
    rw ztake_all // chunk_list_eta. by destruct p.
Qed.

Lemma sum_z_sizes (keys : list bytes) :
  sum_z ((fun b : bytes => 5 + len b) <$> keys) <= sum_z ((fun k : bytes => 6 + 2 * len k) <$> keys).
Proof. elim: keys => [|k keys IH] //. cbn [fmap list_fmap sum_z foldr]. rw /sum_z in IH. lia. Qed.

Lemma description_items_size d :
  8 + sum_z ((fun b : bytes => 5 + len b) <$> description_items d) <=
  128 + sum_z ((fun k : bytes => 6 + 2 * len k) <$> packet_keys (dd_packet d)).
Proof.
  have Hk := sum_z_sizes (packet_keys (dd_packet d)). rw /description_items.
  destruct (dd_packet d) as [p|p|p]; cbv zeta; move: Hk; move: (packet_keys _) => keys.
  all: cbn [fmap list_fmap sum_z foldr]; rw !length_le_bytes /sum_z; cbn [length]; lia.
Qed.

Lemma toy_description_spec : @RmpSpec DedupedPacketDescription toy_description_rmp description_size.
Proof.
  split.
  - move=> d. rw /description_size. cbn [rmp_write toy_description_rmp].
    destruct (description_typed d); [|lia]. have Hi := description_items_size d. move=> Hs.
    destruct (toy_write_ok (description_items d)) as (b & Hb & Hl); [lia|]. exists b. split; [done|lia].
  - move=> d b. cbn [rmp_write rmp_from_read toy_description_rmp fst].
    destruct (description_typed d) eqn:Ht; [|done]. move=> Hw. rw (toy_unpack_pack _ _ Hw) bind_ok.
    apply items_description_items; [done|]. move: Hw. rw /toy_write. destruct (_ && _) eqn:E; [|done]. move=> _.
    apply andb_prop in E as [_ Hl%Z.ltb_lt]. rw /description_items in Hl.
    destruct (dd_packet d) as [p|p|p]; cbv zeta in Hl; move: Hl; move: (packet_keys _) => keys; cbn [length]; lia.
Qed.

(** A large packet in two frames with a ping between them, after a small message. *)
Definition sample_frames : list Frame :=
  [ mkFrame true Text [Byte.x68; Byte.x69];
    mkFrame false Binary (put_u64_le DYSON_SPHERE_DATA_PACKET_ID ++ put_u32_le 5 ++ put_u32_le 131073);
    mkFrame true Ping [];
    mkFrame true Continuation (Byte.x7a :: sample_data ++ replicate (N.to_nat 130042) Byte.x00 ++ put_u32_le 3) ].

Definition sample_messages : list (OpCode * bytes) :=
  match ws_parse None sample_frames with Some ms => ms | None => [] end.

Example sample_messages_views :
  (fun m => @nebula_view toy_lz4 (snd m)) <$> sample_messages =
  [Err (TryGetError 8 2); Ok (Some (DysonView 5 (sample_data ++ replicate 1018 Byte.x00) 3))].
Proof. vm_compute. reflexivity. Qed.

Lemma sample_frames_parse : ws_parse None sample_frames = Some sample_messages.
Proof.
  have H : bool_decide (is_Some (ws_parse None sample_frames)) = true by vm_compute.
  apply bool_decide_eq_true_1 in H. rw /sample_messages. by destruct (ws_parse None sample_frames), H.
Qed.

Definition readableb `{Lz4Decoder} (m : OpCode * bytes) : bool :=
  (len (snd m) <? 2 ^ 63) &&
  match NebulaPacketHeader_decode (snd m) with
  | Ok (Some h, rest) =>
      match view_of h rest with
      | Ok v => (framed_size (len (view_data v)) <=? U32_MAX) && (len (view_data v) <? 2 ^ 63)
      | _ => approx_size h <=? MINIMUM_DEDUP_SIZE
      end
  | _ => true
  end.

Lemma readableb_true `{Lz4Decoder} ms : forallb readableb ms = true -> Forall readable ms.
Proof.
  move=> Hf. apply Forall_forall => m /list_elem_of_In Hm. have := proj1 (forallb_forall _ _) Hf m Hm.
  rw /readableb. intros [Hl%Z.ltb_lt Hm2]%andb_prop. split; [done|]. move=> h rest Hh Hsz. rw Hh in Hm2.
  destruct (view_of h rest) as [v| |]; [|apply Z.leb_le in Hm2; lia..].
  apply andb_prop in Hm2 as [H1%Z.leb_le H2%Z.ltb_lt]. by exists v.
Qed.

(** C38: a packet that cannot be rebuilt is cut off.  When [reconstruct_packet] fails
    after it emitted some fragments, the error does not end the connection: the client's
    loop goes on, and the fragments it has reach the game as one complete message, whose
    last frame is marked final. *)
Theorem failed_packet_cut_off `{Hb : Blake3} `{HX : XxHash32 X} `{HZ : Zstd} `{HRd : RmpSerde DedupedPacketDescription}
  `{HRq : RmpSerde RequestChunksMessage} `{HRs : RmpSerde SendChunksMessage} `{HM : LinkedHashMap M}
  (t : MessageTransport) (others : ChunkCache M -> list (ChunkKey * nat) -> ChunkCache M) connect fuel
  frame frames (cache : ChunkCache M) id fragments e s out cache' opened ms
  (Hframe : indicated frame = Some id)
  (Hfails : reconstruct_packet (X := X) t others connect fuel cache id = (fragments, Err e, s))
  (Hsome : fragments <> [])
  (Hrest : client_copy_with_dedup (X := X) t others connect fuel WsClosed frames (cf_chunk_cache s) =
     (out, Ok tt, cache', opened))
  (Hparse : ws_parse None out = Some ms) :
  exists out' opened',
    client_copy_with_dedup (X := X) t others connect fuel WsClosed (frame :: frames) cache =
      (out', Ok tt, cache', opened') /\
    ws_parse None out' = Some ((Binary, concat fragments) :: ms).
Proof.
  exists (forward_deduped_fragments fragments ++ out), (st_sent (cf_stream s) :: opened).
  cbn [client_copy_with_dedup]. rw Hframe Hfails Hrest. split; [done|]. by apply forward_deduped_parse.
Qed.

(** A server that describes a packet and then closes the stream. *)
Definition unserved_description : DedupedPacketDescription :=
  mkDescription (DysonSphereData (mkDysonSphereData 5 2 (mkChunkList true [toy_hash [Byte.x01; Byte.x02]]) 3)) 200000.

Definition unserved_greeting : bytes :=
  match @encode_message toy_zstd _ toy_description_rmp sample_transport unserved_description with
  | Ok b => framed b
  | _ => []
  end.

Definition unserved_run : list bytes * result unit * ChunkFetcherProvider AList :=
  @reconstruct_packet toy_blake3 bytes toy_xxhash toy_zstd AList _ toy_description_rmp toy_request_rmp toy_send_rmp
    sample_transport (fun c _ => c) (fun _ => unserved_greeting) 5 (ChunkCache_new 1000) 7.

Example unserved_run_fails :
  fst unserved_run =
    ([put_u64_le DYSON_SPHERE_DATA_PACKET_ID ++ put_u32_le 5 ++ put_u32_le 21], Err UnexpectedEof).
Proof. vm_compute. reflexivity. Qed.

Lemma failed_packet_cut_off_witness :
  exists out' cache' opened', @client_copy_with_dedup toy_blake3 bytes toy_xxhash toy_zstd AList _ toy_description_rmp
      toy_request_rmp toy_send_rmp sample_transport (fun c _ => c) (fun _ => unserved_greeting) 5 WsClosed
      [mkFrame true Binary (StartDedupIndicator_encode 7)] (ChunkCache_new 1000) = (out', Ok tt, cache', opened') /\
    ws_parse None out' =
      Some [(Binary, concat [put_u64_le DYSON_SPHERE_DATA_PACKET_ID ++ put_u32_le 5 ++ put_u32_le 21])].
Proof.
  have Hrun := unserved_run_fails. destruct unserved_run as [[fragments r] s] eqn:Hr.
  cbn [fst] in Hrun. injection Hrun as -> ->.
  destruct (@failed_packet_cut_off toy_blake3 bytes toy_xxhash toy_zstd toy_description_rmp toy_request_rmp toy_send_rmp
    AList _ sample_transport (fun c _ => c) (fun _ => unserved_greeting) 5
    (mkFrame true Binary (StartDedupIndicator_encode 7)) [] (ChunkCache_new 1000) 7
    [put_u64_le DYSON_SPHERE_DATA_PACKET_ID ++ put_u32_le 5 ++ put_u32_le 21] UnexpectedEof s [] (cf_chunk_cache s) [] [])
    as (out' & opened' & Ho & Hp).
  - by vm_compute.
  - exact Hr.
  - done.
  - done.
  - done.
  - exists out', (cf_chunk_cache s), opened'. split; [exact Ho|exact Hp].
Defined.
