(* ===== verification/NebulaConnection.v ===== *)
(** * The Nebula connection: several players and their streams

    Models how the streams of one QUIC connection are opened and told apart in
    dsp-nebula-cacher: [handle_request] of proxy/client_proxy.rs opens the stream of a
    player, [reconstruct_packet] the stream of a packet; [run_server_proxy] of
    proxy/server_proxy.rs reads the id at the start of each stream, starts [proxy_server]
    for a player, or hands the stream to the task that announced the packet.  The tasks
    of all players interleave; the counter of stream ids is shared by all connections
    of the server.

    Opening a stream and writing its id are different steps: a player that disconnects
    makes hyper drop [handle_request] wherever it waits, and quinn then ends the stream
    after what was written.  The connection can be lost at any time.

    hyper and fastwebsockets are a parameter ([Http]): what a request is, whether it
    asks for an upgrade, the answer to it, and its URI. *)

From Stdlib Require Import ssreflect.
From stdpp Require Import base numbers list gmap strings relations.
From S2P Require Import Prelude Buf Chunker Dedup ChunkCache ProtocolUtils Lz4Frame NebulaProtocol NebulaProxy.

#[local] Open Scope general_if_scope.

(** ** Opening the stream of a player *)

Record InitialConnectionInfo := mkInitialInfo { client_uri : bytes }.

Class Http := {
  Request : Type;
  Response : Type;
  Uri : Type;
  is_upgrade_request : Request -> bool;
  upgrade : Request -> result Response;
  request_uri : Request -> Uri;
  bad_request : Response;
  uri_to_string : Uri -> bytes;
  uri_from_str : bytes -> result Uri;
}.

(** A URI is recovered from its text, which is at most [u16::MAX - 1] bytes long. *)
Class HttpSpec (H : Http) : Prop := {
  uri_roundtrip u : uri_from_str (uri_to_string u) = Ok u;
  uri_len u : len (uri_to_string u) <= 65534;
}.

Section opening.
Context `{Http, Zstd, RmpSerde InitialConnectionInfo}.

(** [handle_request] up to [open_bi]: the response, and whether a stream is opened. *)
Definition handle_request_open (request : Request) : result (Response * bool) :=
  if negb (is_upgrade_request request) then Ok (bad_request, false)
  else
    response ← upgrade request;
    Ok (response, true).

(** The rest of [handle_request]: all that it writes into the stream. *)
Definition handle_request_write (t : MessageTransport) (request : Request) : result bytes :=
  message_data ← encode_message_async t (mkInitialInfo (uri_to_string (request_uri request)));
  written ← write_message message_data;
  Ok (put_u64 0 ++ written).

(** [handle_request] where nothing interrupts it: the response, and what it writes into the
    stream it opens. *)
Definition handle_request (t : MessageTransport) (request : Request) : result (Response * option bytes) :=
  '(response, opened) ← handle_request_open request;
  if opened : bool then sent ← handle_request_write t request; Ok (response, Some sent)
  else Ok (response, None).

(** The start of [proxy_server], on the rest of the stream: the URI it requests from
    the game server, and the rest, which is a WebSocket.  [connected] is the result of
    connecting to the game server. *)
Definition proxy_server_open (recv_stream : bytes) (connected : result unit) : result (Uri * bytes) :=
  '(message_data, recv_stream) ← read_message recv_stream;
  initial_info ← decode_message_async (T := InitialConnectionInfo) message_data;
  _ ← connected;
  uri ← uri_from_str (client_uri initial_info);
  Ok (uri, recv_stream).
End opening.

(** ** The connection *)

(** How far a task [proxy_server] is: it reads the first message of its stream, on which the
    client writes at most [recv_stream]; or it has read it, with the URI of the player, or
    it ended with an error. *)
Inductive PeerState (U : Type) := Reading (recv_stream : bytes) | Started (uri : result U).
Arguments Reading {U}.
Arguments Started {U}.

(** A task [proxy_server] of the server, and the packet whose stream it waits for. *)
Record ServerPeer (U : Type) := mkServerPeer {
  sp_state : PeerState U;
  sp_waiting : option Z;
}.
Arguments mkServerPeer {U}.
Arguments sp_state {U}.
Arguments sp_waiting {U}.

(** Whose stream it is: of a new player, or of a packet announced to one. *)
Inductive Owner (U : Type) := ForPlayer (uri : U) | ForPacket (player : nat) (stream_id : Z).
Arguments ForPlayer {U}.
Arguments ForPacket {U}.

(** A stream that the client opened and the server did not accept yet: all that the client
    writes into it; whether the id can be read from it, or its end, if it is shorter; and
    whether the client dropped it before everything was written. *)
Record OpenedStream (U : Type) := mkOpened {
  ss_owner : Owner U;
  ss_content : bytes;
  ss_ready : bool;
  ss_dropped : bool;
}.
Arguments mkOpened {U}.
Arguments ss_owner {U}.
Arguments ss_content {U}.
Arguments ss_ready {U}.
Arguments ss_dropped {U}.

(** The id is written. *)
Definition write_id {U} (s : OpenedStream U) : OpenedStream U := mkOpened (ss_owner s) (ss_content s) true (ss_dropped s).

(** The client drops the stream after [n] bytes: it ends there. *)
Definition drop_stream {U} (n : nat) (s : OpenedStream U) : OpenedStream U :=
  mkOpened (ss_owner s) (take n (ss_content s)) true true.

Record Connection (U : Type) := mkConnection {
  (** [NEXT_DEDUP_STREAM_ID], and how many ids were taken from it *)
  co_next : Z;
  co_issued : Z;
  (** [pending_dedup_streams]: the task that waits for each id *)
  co_pending : gmap Z nat;
  co_peers : list (ServerPeer U);
  (** the URIs of the players, in the order of their requests *)
  co_players : list U;
  (** the indicators written for each player and not yet read *)
  co_indicators : list (nat * Z);
  (** the streams opened and not yet accepted *)
  co_streams : list (OpenedStream U);
  (** the streams handed over to tasks: who opened it, who got it, and what follows the id *)
  co_handed : list (Owner U * nat * bytes);
  (** how [run_server_proxy] ended, if it did *)
  co_ended : option (result unit);
}.
Arguments mkConnection {U}.
Arguments co_next {U}.
Arguments co_issued {U}.
Arguments co_pending {U}.
Arguments co_peers {U}.
Arguments co_players {U}.
Arguments co_indicators {U}.
Arguments co_streams {U}.
Arguments co_handed {U}.
Arguments co_ended {U}.

Section connection.
Context `{HH : Http, HZ : Zstd, HR : RmpSerde InitialConnectionInfo}.
Context (t : MessageTransport).
Implicit Types c : Connection Uri.

(** A new connection; the counter may have been used by other connections. *)
Definition Connection_new (issued : Z) : Connection Uri :=
  mkConnection (wrap 64 (1 + issued)) issued ∅ [] [] [] [] [] None.

(** A player's request: [open_bi] has returned, nothing is written yet. *)
Definition player_request (request : Request) c : result (Connection Uri) :=
  '(_, opened) ← handle_request_open request;
  if opened : bool then
    let content := match handle_request_write t request with Ok sent => sent | _ => [] end in
    Ok (mkConnection (co_next c) (co_issued c) (co_pending c) (co_peers c)
      (co_players c ++ [request_uri request]) (co_indicators c)
      (co_streams c ++ [mkOpened (ForPlayer (request_uri request)) content false false]) (co_handed c) (co_ended c))
  else Ok c.

(** Something happens to a stream that is under way. *)
Definition alter_stream (f : OpenedStream Uri -> OpenedStream Uri) (k : nat) c : Connection Uri :=
  mkConnection (co_next c) (co_issued c) (co_pending c) (co_peers c) (co_players c) (co_indicators c)
    (alter f k (co_streams c)) (co_handed c) (co_ended c).

Definition set_waiting (w : option Z) (p : ServerPeer Uri) : ServerPeer Uri := mkServerPeer (sp_state p) w.

(** One turn of [run_server_proxy] with the next stream; quinn accepts the streams in the
    order in which they were opened.  It waits as long as there is none, or as long as the
    id of the next one was not written; a stream that ends before its id ends the loop. *)
Definition server_accept_bi c : Connection Uri :=
  match co_streams c with
  | [] => c
  | s :: streams =>
      if negb (ss_ready s) then c
      else
        match accept_stream (co_pending c) (ss_content s) with
        | Ok (None, recv_stream, pending) =>
            mkConnection (co_next c) (co_issued c) pending (co_peers c ++ [mkServerPeer (Reading recv_stream) None])
              (co_players c) (co_indicators c) streams (co_handed c) (co_ended c)
        | Ok (Some i, recv_stream, pending) =>
            mkConnection (co_next c) (co_issued c) pending (alter (set_waiting None) i (co_peers c))
              (co_players c) (co_indicators c) streams (co_handed c ++ [(ss_owner s, i, recv_stream)]) (co_ended c)
        | Err e =>
            mkConnection (co_next c) (co_issued c) (co_pending c) (co_peers c)
              (co_players c) (co_indicators c) (co_streams c) (co_handed c) (Some (Err e))
        | Panic p =>
            mkConnection (co_next c) (co_issued c) (co_pending c) (co_peers c)
              (co_players c) (co_indicators c) (co_streams c) (co_handed c) (Some (Panic p))
        end
  end.

(** The connection is lost: [accept_bi] or [read_u64] fails, and the loop ends. *)
Definition connection_lost c : Connection Uri :=
  mkConnection (co_next c) (co_issued c) (co_pending c) (co_peers c)
    (co_players c) (co_indicators c) (co_streams c) (co_handed c) (Some (Err (LibError "ConnectionLost"))).

(** The task of a player reads its first message: [n] bytes of it were written when its
    stream ended, or all.  [connected] is the result of connecting to the game server. *)
Definition peer_starts (i : nat) (n : nat) (connected : result unit) c : Connection Uri :=
  mkConnection (co_next c) (co_issued c) (co_pending c)
    (alter (fun p => match sp_state p with
      | Reading recv_stream => mkServerPeer (Started (fst <$> proxy_server_open (take n recv_stream) connected)) (sp_waiting p)
      | Started _ => p
      end) i (co_peers c))
    (co_players c) (co_indicators c) (co_streams c) (co_handed c) (co_ended c).

(** [dedup_packet] of the task of a player takes an id, puts it into the table, writes
    the indicator and waits for the stream.  This is one step: the id is in the table
    before the client can read the indicator. *)
Definition announce_packet (i : nat) c : Connection Uri :=
  let stream_id := co_next c in
  mkConnection (wrap 64 (stream_id + 1)) (co_issued c + 1) (<[stream_id := i]> (co_pending c))
    (alter (set_waiting (Some stream_id)) i (co_peers c)) (co_players c)
    (co_indicators c ++ [(i, stream_id)]) (co_streams c) (co_handed c) (co_ended c).

(** The player's client reads an indicator and opens a stream, on which it will write the id
    and then [io]. *)
Definition open_packet_stream (i : nat) (stream_id : Z) (rest : list (nat * Z)) (io : bytes) c : Connection Uri :=
  mkConnection (co_next c) (co_issued c) (co_pending c) (co_peers c) (co_players c) rest
    (co_streams c ++ [mkOpened (ForPacket i stream_id) (put_u64 stream_id ++ io) false false]) (co_handed c) (co_ended c).

(** The task of a player ends, whether it waits or not: its entry stays in the table. *)
Definition end_peer (i : nat) (e : error) c : Connection Uri :=
  mkConnection (co_next c) (co_issued c) (co_pending c) (alter (fun _ => mkServerPeer (Started (Err e)) None) i (co_peers c))
    (co_players c) (co_indicators c) (co_streams c) (co_handed c) (co_ended c).

(** Another connection takes an id. *)
Definition other_connection c : Connection Uri :=
  mkConnection (wrap 64 (co_next c + 1)) (co_issued c + 1) (co_pending c) (co_peers c)
    (co_players c) (co_indicators c) (co_streams c) (co_handed c) (co_ended c).

Inductive cstep : Connection Uri -> Connection Uri -> Prop :=
| step_request request c c' : player_request request c = Ok c' -> cstep c c'
| step_write k s c : co_streams c !! k = Some s -> 8 <= len (ss_content s) -> cstep c (alter_stream write_id k c)
| step_drop k n s c :
    co_streams c !! k = Some s -> (ss_ready s = true -> (8 <= n)%nat) -> cstep c (alter_stream (drop_stream n) k c)
| step_accept c : co_ended c = None -> cstep c (server_accept_bi c)
| step_lost c : co_ended c = None -> cstep c (connection_lost c)
| step_starts i n connected c : cstep c (peer_starts i n connected c)
| step_announce i uri c :
    co_peers c !! i = Some (mkServerPeer (Started (Ok uri)) None) -> cstep c (announce_packet i c)
| step_open i stream_id pre post io c :
    co_indicators c = pre ++ (i, stream_id) :: post -> (forall id, (i, id) ∉ pre) ->
    cstep c (open_packet_stream i stream_id (pre ++ post) io c)
| step_end i e c : cstep c (end_peer i e c)
| step_other c : cstep c (other_connection c).
End connection.

(** ** The invariant *)

(** The packets that were announced and whose streams were not accepted yet: their
    indicator or their stream is under way. *)
Definition packet_of {U} (s : OpenedStream U) : option (nat * Z) :=
  match ss_owner s with ForPacket i stream_id => Some (i, stream_id) | ForPlayer _ => None end.
Definition player_of {U} (s : OpenedStream U) : option U :=
  match ss_owner s with ForPlayer uri => Some uri | ForPacket _ _ => None end.
Definition outstanding {U} (c : Connection U) : list (nat * Z) := co_indicators c ++ omap packet_of (co_streams c).

Record outstanding_inv {U} (pending : gmap Z nat) (peers : list (ServerPeer U)) (o : list (nat * Z)) : Prop := {
  oi_pending : Forall (fun x => pending !! snd x = Some (fst x)) o;
  oi_ids : NoDup o.*2;
  oi_players : NoDup o.*1;
  oi_peers : Forall (fun x => fst x < length peers)%nat o;
  oi_free i uri : peers !! i = Some (mkServerPeer (Started (Ok uri)) None) -> i ∉ o.*1;
  oi_waiting i p stream_id : peers !! i = Some p -> sp_waiting p = Some stream_id -> (i, stream_id) ∈ o;
}.

#[global] Instance outstanding_inv_proper {U} (pending : gmap Z nat) (peers : list (ServerPeer U)) :
  Proper ((≡ₚ) ==> iff) (outstanding_inv pending peers).
Proof.
  have H o o' : o ≡ₚ o' -> outstanding_inv pending peers o -> outstanding_inv pending peers o'.
  { move=> Hp [H1 H2 H3 H4 H5 H6]. split.
    - by rw -Hp.
    - by rw -Hp.
    - by rw -Hp.
    - by rw -Hp.
    - move=> i uri. rw -Hp. apply H5.
    - move=> i p id. rw -Hp. apply H6. }
  move=> o o' Hp. split; by apply H.
Qed.

Section outstanding.
Context {U : Type}.
Implicit Types (peers : list (ServerPeer U)) (o : list (nat * Z)).

Lemma outstanding_announce pending peers o i uri id :
  outstanding_inv pending peers o -> peers !! i = Some (mkServerPeer (Started (Ok uri)) None) -> pending !! id = None ->
  outstanding_inv (<[id := i]> pending) (alter (fun p => mkServerPeer (sp_state p) (Some id)) i peers) ((i, id) :: o).
Proof.
  intros [H1 H2 H3 H4 H5 H6] Hi Hid.
  have Hfresh : id ∉ o.*2.
  { move=> /list_elem_of_fmap [x [He Hx]]. have := proj1 (Forall_forall _ _) H1 x Hx. cbn beta. by rw -He Hid. }
  split.
  - constructor; [cbn; by rw lookup_insert_eq|]. apply Forall_forall => x Hx. cbn beta.
    rw lookup_insert_ne; [|exact (proj1 (Forall_forall _ _) H1 x Hx)]. move=> He. destruct Hfresh. rw He. by apply list_elem_of_fmap_2.
  - by constructor.
  - constructor; [by apply (H5 i uri)|done].
  - rw length_alter. constructor; [by apply lookup_lt_Some in Hi|done].
  - move=> j u Hj. cbn [fmap list_fmap fst]. destruct (decide (j = i)) as [->|Hne].
    { rw list_lookup_alter_eq Hi in Hj. done. }
    rw list_lookup_alter_ne // in Hj. apply not_elem_of_cons. split; [done|by apply (H5 j u)].
  - move=> j p id' Hj Hw. destruct (decide (j = i)) as [->|Hne].
    { rw list_lookup_alter_eq Hi in Hj. injection Hj as <-. injection Hw as <-. by left. }
    rw list_lookup_alter_ne // in Hj. right. by eapply H6.
Qed.

Lemma outstanding_accept pending peers o i id :
  outstanding_inv pending peers ((i, id) :: o) ->
  outstanding_inv (delete id pending) (alter (fun p => mkServerPeer (sp_state p) None) i peers) o.
Proof.
  intros [H1 H2 H3 H4 H5 H6]. cbn [fmap list_fmap fst snd] in *.
  apply Forall_cons in H1 as [_ H1]. apply NoDup_cons in H2 as [Hid H2]. apply NoDup_cons in H3 as [Hi H3]. apply Forall_cons in H4 as [_ H4].
  split; [|done|done|by rw length_alter| |].
  - apply Forall_forall => x Hx. cbn beta. rw lookup_delete_ne; [|exact (proj1 (Forall_forall _ _) H1 x Hx)].
    move=> He. destruct Hid. rw He. by apply list_elem_of_fmap_2.
  - move=> j u Hj. destruct (decide (j = i)) as [->|Hne]; [done|].
    rw list_lookup_alter_ne // in Hj. apply H5, not_elem_of_cons in Hj. apply Hj.
  - move=> j p id' Hj Hw. destruct (decide (j = i)) as [->|Hne].
    { rw list_lookup_alter_eq in Hj. by destruct (peers !! i); [injection Hj as <-|]. }
    rw list_lookup_alter_ne // in Hj. by pose proof (H6 j p id' Hj Hw) as [[= <- <-]|]%elem_of_cons.
Qed.

Lemma outstanding_peer pending peers o p :
  outstanding_inv pending peers o -> sp_waiting p = None -> outstanding_inv pending (peers ++ [p]) o.
Proof.
  intros [H1 H2 H3 H4 H5 H6] Hp. split; [done|done|done| | |].
  - eapply Forall_impl; [exact H4|]. cbn. rw length_app. lia.
  - move=> j u. rw lookup_app_Some. move=> [Hj|[Hj _]]; [by apply (H5 j u)|].
    move=> /list_elem_of_fmap [x [He Hx]]. have := proj1 (Forall_forall _ _) H4 x Hx. cbn beta. lia.
  - move=> j q id. rw lookup_app_Some. move=> [Hj|[_ Hj]]; [by apply H6|].
    move=> Hw. apply list_lookup_singleton_Some in Hj as [_ <-]. congruence.
Qed.

Lemma outstanding_end pending peers o i e :
  outstanding_inv pending peers o -> outstanding_inv pending (alter (fun _ => mkServerPeer (Started (Err e)) None) i peers) o.
Proof.
  intros [H1 H2 H3 H4 H5 H6]. split; [done|done|done|by rw length_alter| |].
  - move=> j u Hj. destruct (decide (j = i)) as [->|Hne].
    { rw list_lookup_alter_eq in Hj. by destruct (peers !! i). }
    rw list_lookup_alter_ne // in Hj. by apply (H5 j u).
  - move=> j p id Hj Hw. destruct (decide (j = i)) as [->|Hne].
    { rw list_lookup_alter_eq in Hj. by destruct (peers !! i); [injection Hj as <-|]. }
    rw list_lookup_alter_ne // in Hj. by eapply H6.
Qed.

(** A task that is not waiting and becomes another such task, running or not, if no packet
    is outstanding for it. *)
Lemma outstanding_alter pending peers o i f :
  outstanding_inv pending peers o -> (forall p, sp_waiting (f p) = sp_waiting p) ->
  (forall p uri, peers !! i = Some p -> f p = mkServerPeer (Started (Ok uri)) None -> i ∉ o.*1) ->
  outstanding_inv pending (alter f i peers) o.
Proof.
  intros [H1 H2 H3 H4 H5 H6] Hw Hf. split; [done|done|done|by rw length_alter| |].
  - move=> j u Hj. destruct (decide (j = i)) as [->|Hne].
    + rw list_lookup_alter_eq in Hj. destruct (peers !! i) as [p|] eqn:Hp; [|done]. injection Hj as Hj. by apply (Hf p u).
    + rw list_lookup_alter_ne // in Hj. by apply (H5 j u).
  - move=> j p id Hj Hid. destruct (decide (j = i)) as [->|Hne].
    + rw list_lookup_alter_eq in Hj. destruct (peers !! i) as [q|] eqn:Hq; [|done]. injection Hj as <-. rw Hw in Hid. by apply (H6 i q).
    + rw list_lookup_alter_ne // in Hj. by apply (H6 j p).
Qed.
End outstanding.

(** A bound of the size of [InitialConnectionInfo] in MessagePack. *)
Definition info_size (m : InitialConnectionInfo) : Z := 16 + len (client_uri m).

Section invariant.
Context `{HH : Http} {HHS : HttpSpec HH} `{HZ : Zstd} {HZS : ZstdSpec HZ} {HZB : ZstdBound HZ}.
Context `{HR : RmpSerde InitialConnectionInfo} {HRS : RmpSpec InitialConnectionInfo info_size}.
Context (t : MessageTransport).
Implicit Types c : Connection Uri.

(** What the client writes into a stream that is not dropped, by its owner. *)
Definition stream_ok (s : Owner Uri * bytes) : Prop :=
  match fst s with
  | ForPlayer uri => exists b, snd s = put_u64 0 ++ framed b /\ len b <= MESSAGE_SIZE_LIMIT /\
      decode_message b = Ok (mkInitialInfo (uri_to_string uri))
  | ForPacket _ stream_id => exists io, snd s = put_u64 stream_id ++ io
  end.

(** A stream carries that, or a part of it if it was dropped. *)
Definition opened_ok (s : OpenedStream Uri) : Prop :=
  exists more, stream_ok (ss_owner s, ss_content s ++ more) /\ (ss_dropped s = false -> more = []).

(** A request to upgrade always gets its stream. *)
Lemma handle_request_ok request response :
  is_upgrade_request request = true -> upgrade request = Ok response ->
  exists sent, handle_request t request = Ok (response, Some sent) /\
    stream_ok (ForPlayer (request_uri request), sent).
Proof.
  move=> Hu Hr. rw /handle_request /handle_request_open Hu Hr. cbn [negb]. rw !bind_ok /handle_request_write.
  pose proof (uri_len (request_uri request)) as Hlen.
  destruct (message_roundtrip (size := info_size) t (mkInitialInfo (uri_to_string (request_uri request))))
    as (b & He & Hb & Hd).
  { rw /info_size. cbn. lia. }
  { rw /info_size /MESSAGE_SIZE_LIMIT. cbn [client_uri].
    pose proof (Z.div_le_mono (16 + len (uri_to_string (request_uri request))) 65550 128 ltac:(lia) ltac:(lia)) as Hdiv.
    change (65550 / 128) with 512 in Hdiv. lia. }
  rw (encode_async_ok _ _ _ He) bind_ok write_message_ok // !bind_ok. eexists. split; [done|]. by exists b.
Qed.

Lemma handle_request_inv request response :
  handle_request_open request = Ok (response, true) ->
  exists sent, handle_request_write t request = Ok sent /\ stream_ok (ForPlayer (request_uri request), sent).
Proof.
  rw /handle_request_open. destruct (is_upgrade_request request) eqn:Hu; [|done].
  cbn [negb]. intros (r & Hr & _)%bind_ok_inv.
  destruct (handle_request_ok request r Hu Hr) as (sent & Hs & Hok). rw /handle_request /handle_request_open Hu Hr in Hs.
  cbn [negb] in Hs. rw !bind_ok in Hs. apply bind_ok_inv in Hs as (sent' & Hw & [= <-]). by exists sent'.
Qed.

(** What was read from a stream is read from a longer one. *)
Lemma read_exact_more n io more b rest :
  read_exact n io = Ok (b, rest) -> read_exact n (io ++ more) = Ok (b, rest ++ more).
Proof.
  rw /read_exact_or length_app. case: Z.ltb_spec => // Hn [= <- <-]. case: Z.ltb_spec => [?|_]; [lia|].
  rw /ztake /zdrop take_app_le; [lia|]. rw drop_app_le //; lia.
Qed.

Lemma proxy_server_open_more recv more connected uri rest :
  proxy_server_open recv connected = Ok (uri, rest) -> proxy_server_open (recv ++ more) connected = Ok (uri, rest ++ more).
Proof.
  rw /proxy_server_open. intros ([m io] & Hm & H)%bind_ok_inv. rw /read_message in Hm.
  apply bind_ok_inv in Hm as ([size io1] & H1 & H2). rw {1}/read_message (read_exact_more _ _ more _ _ H1) bind_ok.
  cbn beta iota in H2 |- *. destruct (_ <? _); [done|]. rw (read_exact_more _ _ more _ _ H2) bind_ok.
  destruct (decode_message_async m) as [info| |]; [|done..]. rw !bind_ok in H |- *. destruct connected; [|done..].
  rw !bind_ok in H |- *. apply bind_ok_inv in H as (u & -> & [= <- <-]). by rw bind_ok.
Qed.

Lemma read_u64_split content more :
  8 <= len content -> exists id recv, read_u64 content = Ok (id, recv) /\ read_u64 (content ++ more) = Ok (id, recv ++ more).
Proof.
  move=> Hl. rw /read_u64. have Hr : read_exact 8 content = Ok (ztake 8 content, zdrop 8 content).
  { rw /read_exact_or. by case: Z.ltb_spec => ?; [lia|]. }
  rw Hr (read_exact_more _ _ more _ _ Hr) !bind_ok. by eexists _, _.
Qed.

Lemma read_u64_short content : len content < 8 -> read_u64 content = Err UnexpectedEof.
Proof. move=> Hl. rw /read_u64 /read_exact_or. by case: Z.ltb_spec => ?; [|lia]. Qed.

Lemma stream_ok_len owner full : stream_ok (owner, full) -> 8 <= len full.
Proof.
  rw /stream_ok. destruct owner; cbn [fst snd]; [intros (b & -> & _)|intros (io & ->)]; rw length_app length_put_u64; lia.
Qed.

(** The task of the server asks the game server for the player's URI. *)
Lemma proxy_server_open_ok uri sent io :
  stream_ok (ForPlayer uri, sent) -> exists recv_stream, read_u64 (sent ++ io) = Ok (0, recv_stream) /\
    proxy_server_open recv_stream (Ok tt) = Ok (uri, io) /\
    forall connected u rest, proxy_server_open recv_stream connected = Ok (u, rest) -> u = uri.
Proof.
  intros (b & Hsent & Hb & Hd). cbn [snd] in Hsent. rw Hsent. exists (framed b ++ io). rw -app_assoc read_u64_put //. split; [done|].
  have Hopen connected : proxy_server_open (framed b ++ io) connected = (_ ← connected; Ok (uri, io)).
  { rw /proxy_server_open /framed read_written // bind_ok (decode_async_ok _ _ Hd) bind_ok. cbn [client_uri]. by rw uri_roundtrip. }
  split; [by rw Hopen bind_ok|]. move=> connected u rest. rw Hopen. intros (x & _ & H)%bind_ok_inv. by simplify_eq.
Qed.

(** The first message of a stream can only be that of this player. *)
Definition greets (recv_stream : bytes) (uri : Uri) : Prop :=
  forall n connected u rest, proxy_server_open (take n recv_stream) connected = Ok (u, rest) -> u = uri.

(** A task and the player it belongs to. *)
Definition peer_of (p : PeerState Uri) (uri : Uri) : Prop :=
  match p with
  | Reading recv_stream => greets recv_stream uri
  | Started (Ok u) => u = uri
  | Started _ => True
  end.

(** How [run_server_proxy] can end: with the connection, or because the next stream was
    dropped before its id was written. *)
Definition ending c : Prop :=
  match co_ended c with
  | None => True
  | Some r => r = Err (LibError "ConnectionLost") \/
      r = Err UnexpectedEof /\ exists s streams, co_streams c = s :: streams /\ ss_dropped s = true /\ len (ss_content s) < 8
  end.

Record conn_inv c : Prop := {
  ci_next : co_next c = wrap 64 (1 + co_issued c);
  ci_issued : 0 <= co_issued c;
  ci_ids stream_id i : co_pending c !! stream_id = Some i -> 0 < stream_id <= co_issued c;
  ci_out : outstanding_inv (co_pending c) (co_peers c) (outstanding c);
  ci_reading i p recv_stream : co_peers c !! i = Some p -> sp_state p = Reading recv_stream -> i ∉ (outstanding c).*1;
  ci_streams : Forall opened_ok (co_streams c);
  ci_count : (length (co_peers c) <= length (co_players c))%nat;
  ci_players : drop (length (co_peers c)) (co_players c) = omap player_of (co_streams c);
  ci_uris i p : co_peers c !! i = Some p -> exists uri, co_players c !! i = Some uri /\ peer_of (sp_state p) uri;
  ci_handed : Forall (fun h => exists stream_id, fst (fst h) = ForPacket (snd (fst h)) stream_id) (co_handed c);
  ci_ended : ending c;
}.

Lemma conn_inv_new issued : 0 <= issued -> conn_inv (Connection_new issued).
Proof.
  move=> Hi. split; try done; try constructor; cbn; try done; try constructor. all: try (by move=> ?).
Qed.

(** Streams may be added behind the ones that are there. *)
Lemma ending_streams c streams :
  ending c -> forall c', co_ended c' = co_ended c -> co_streams c' = co_streams c ++ streams -> ending c'.
Proof.
  rw /ending => He c' -> ->. destruct (co_ended c); [|done]. destruct He as [?|(? & s & l & -> & ?)]; [by left|].
  right. split; [done|]. by exists s, (l ++ streams).
Qed.

Lemma request_inv request c c' : conn_inv c -> player_request t request c = Ok c' -> conn_inv c'.
Proof.
  intros [H1 H2 H3 H4 H11 H5 H10 H6 H7 H8 H9]. rw /player_request. intros ([resp [|]] & Hreq & Hc)%bind_ok_inv.
  2: { injection Hc as <-. by split. }
  injection Hc as <-. apply handle_request_inv in Hreq as (sent & -> & Hok).
  set c' := mkConnection _ _ _ _ _ _ _ _ _. have Ho : outstanding c' = outstanding c.
  { rw /outstanding. cbn. rw omap_app. cbn. by rw app_nil_r. }
  split; rw ?Ho; cbn; try done.
  - apply Forall_app. split; [done|]. constructor; [|done]. exists []. cbn. by rw app_nil_r.
  - rw length_app. lia.
  - rw omap_app -H6. cbn. by rw drop_app_le.
  - move=> i p Hp. destruct (H7 i p Hp) as (u & Hu & ?). exists u. split; [by apply lookup_app_l_Some|done].
  - by eapply (ending_streams c _ H9 c').
Qed.

Lemma accept_player_inv uri s streams c :
  conn_inv c -> co_streams c = s :: streams -> ss_owner s = ForPlayer uri -> 8 <= len (ss_content s) ->
  ss_ready s = true -> co_ended c = None ->
  conn_inv (server_accept_bi c) /\ co_streams (server_accept_bi c) = streams /\
  co_ended (server_accept_bi c) = None /\ co_handed (server_accept_bi c) = co_handed c.
Proof.
  intros [H1 H2 H3 H4 H11 H5 H10 H6 H7 H8 H9] Hs Hown Hlen Hready Hend. rw /server_accept_bi Hs Hready. cbn [negb].
  rw Hs in H5. apply Forall_cons in H5 as [(more & Hst & _) H5]. rw Hown in Hst.
  destruct (proxy_server_open_ok uri _ [] Hst) as (full & Hread & _ & Huri). rw app_nil_r in Hread.
  destruct (read_u64_split (ss_content s) more Hlen) as (id & recv & Hr1 & Hr2). rw Hr2 in Hread. injection Hread as -> Hfull.
  rw /accept_stream Hr1 bind_ok Z.eqb_refl.
  have Hp : co_players c !! length (co_peers c) = Some uri.
  { rw -(Nat.add_0_r (length (co_peers c))) -lookup_drop H6 Hs /=. cbn. by rw {1}/player_of Hown. }
  have Hlt := lookup_lt_Some _ _ _ Hp. have Ho : outstanding c = co_indicators c ++ omap packet_of streams.
  { rw /outstanding Hs. cbn. by rw {1}/packet_of Hown. }
  rw Ho in H4, H11. split; [|done]. split; cbn; try done.
  - rw /outstanding. cbn. by apply outstanding_peer.
  - rw /outstanding. cbn. move=> i p rs. rw lookup_app_Some. move=> [Hi|[Hi _]] Hrs; [by apply (H11 i p rs)|].
    move=> /list_elem_of_fmap [x [He Hx]]. have := proj1 (Forall_forall _ _) (oi_peers _ _ _ H4) x Hx. cbn beta. lia.
  - rw length_app. cbn. lia.
  - rw length_app. rw -drop_drop H6 Hs. cbn. by rw {1}/player_of Hown.
  - move=> i p. rw lookup_app_Some. move=> [Hi|[Hi Hi2]]; [by apply H7|].
    apply list_lookup_singleton_Some in Hi2 as [Hi2 <-]. exists uri. have -> : i = length (co_peers c) by lia.
    split; [done|]. move=> n connected u rest Ho2. cbn [sp_state] in *.
    apply (proxy_server_open_more _ (drop n recv ++ more)) in Ho2. rw app_assoc take_drop Hfull in Ho2. by apply Huri in Ho2.
  - by rw /ending /= Hend.
Qed.

Lemma accept_packet_inv i id s streams c :
  conn_inv c -> co_issued c < 2 ^ 64 -> co_streams c = s :: streams -> ss_owner s = ForPacket i id ->
  8 <= len (ss_content s) -> ss_ready s = true -> co_ended c = None ->
  conn_inv (server_accept_bi c) /\ co_streams (server_accept_bi c) = streams /\ co_ended (server_accept_bi c) = None /\
  exists io, ss_content s = put_u64 id ++ io /\ co_handed (server_accept_bi c) = co_handed c ++ [(ForPacket i id, i, io)].
Proof.
  intros [H1 H2 H3 H4 H11 H5 H10 H6 H7 H8 H9] Hb Hs Hown Hlen Hready Hend. rw /server_accept_bi Hs Hready. cbn [negb].
  rw Hs in H5. apply Forall_cons in H5 as [(more & Hst & _) H5]. rw Hown in Hst. destruct Hst as [full Hfull]. cbn [snd] in Hfull.
  have Hio : exists io, ss_content s = put_u64 id ++ io.
  { exists (drop 8 (ss_content s)). rw -{1}(take_drop 8 (ss_content s)). f_equal.
    apply (f_equal (take 8)) in Hfull. rw take_app_le in Hfull; [lia|]. by rw Hfull take_app_length'. }
  destruct Hio as [io Hio].
  have Ho : outstanding c ≡ₚ (i, id) :: co_indicators c ++ omap packet_of streams.
  { rw /outstanding Hs. cbn [omap list_omap]. rw {1}/packet_of Hown. by rw Permutation_middle. }
  rw Ho in H4. have Hp := Forall_inv (oi_pending _ _ _ H4). cbn in Hp. pose proof (H3 id i Hp) as Hid.
  rw /accept_stream Hio read_u64_put; [rw /in_u; lia|]. rw bind_ok. case: Z.eqb_spec => [?|_]; [lia|]. rw Hp Hown.
  split; [|split; [done|split; [done|by exists io]]]. split; cbn; try done.
  - move=> id' j. intros [_ Hl]%lookup_delete_Some. by apply (H3 id' j).
  - by apply outstanding_accept.
  - rw /outstanding. cbn. move=> j p rs Hj Hrs Hin. destruct (decide (j = i)) as [->|Hne].
    + destruct (proj1 (NoDup_cons _ _) (oi_players _ _ _ H4)) as [Hni _]. by destruct Hni.
    + rw list_lookup_alter_ne // in Hj. destruct (H11 j p rs Hj Hrs). rw Ho. by right.
  - by rw length_alter.
  - rw length_alter H6 Hs. cbn. by rw {1}/player_of Hown.
  - move=> j p Hj. destruct (decide (j = i)) as [->|Hne].
    + rw list_lookup_alter_eq in Hj. destruct (co_peers c !! i) as [q|] eqn:Hq; [|done]. injection Hj as <-. by apply (H7 i q).
    + rw list_lookup_alter_ne // in Hj. by apply (H7 j p).
  - apply Forall_app. split; [done|]. constructor; [by exists id|done].
  - by rw /ending /= Hend.
Qed.

Lemma announce_inv i uri c :
  conn_inv c -> co_issued c + 1 < 2 ^ 64 - 1 -> co_peers c !! i = Some (mkServerPeer (Started (Ok uri)) None) ->
  conn_inv (announce_packet i c).
Proof.
  intros [H1 H2 H3 H4 H11 H5 H10 H6 H7 H8 H9] Hb Hi.
  have Hn : co_next c = 1 + co_issued c by rw H1 /wrap Z.mod_small; lia.
  have Ho : outstanding (announce_packet i c) ≡ₚ (i, co_next c) :: outstanding c.
  { rw /outstanding. cbn. by rw -app_assoc -Permutation_middle. }
  split; cbn; try done.
  - rw Hn. f_equal. lia.
  - lia.
  - move=> id j. destruct (decide (id = co_next c)) as [->|Hne]; [rw Hn; lia|].
    rw lookup_insert_ne // => Hj. have := H3 id j Hj. lia.
  - apply (proj2 (outstanding_inv_proper _ _ _ _ Ho)). apply (outstanding_announce _ _ _ i uri); [done|done|].
    destruct (co_pending c !! co_next c) as [j|] eqn:Hj; [|done]. have := H3 _ _ Hj. lia.
  - move=> j p rs Hj Hrs. change (j ∉ (outstanding (announce_packet i c)).*1). rw Ho. cbn [fmap list_fmap fst]. destruct (decide (j = i)) as [->|Hne].
    + rw list_lookup_alter_eq Hi in Hj. by injection Hj as <-.
    + rw list_lookup_alter_ne // in Hj. apply not_elem_of_cons. split; [done|by apply (H11 j p rs)].
  - by rw length_alter.
  - by rw length_alter.
  - move=> j p Hj. destruct (decide (j = i)) as [->|Hne].
    + rw list_lookup_alter_eq Hi in Hj. injection Hj as <-. by apply (H7 i _ Hi).
    + rw list_lookup_alter_ne // in Hj. by apply (H7 j p).
Qed.

Lemma open_inv i id pre post io c :
  conn_inv c -> co_indicators c = pre ++ (i, id) :: post -> conn_inv (open_packet_stream i id (pre ++ post) io c).
Proof.
  intros [H1 H2 H3 H4 H11 H5 H10 H6 H7 H8 H9] Hind.
  have Ho : outstanding (open_packet_stream i id (pre ++ post) io c) ≡ₚ outstanding c.
  { rw /outstanding Hind. cbn. rw omap_app. cbn. rw -!app_assoc. apply Permutation_app_head. cbn.
    by rw app_assoc -Permutation_cons_append. }
  split; cbn; try done.
  - by apply (proj2 (outstanding_inv_proper _ _ _ _ Ho)).
  - move=> j p rs Hj Hrs. change (j ∉ (outstanding (open_packet_stream i id (pre ++ post) io c)).*1). rw Ho.
    by apply (H11 j p rs).
  - apply Forall_app. split; [done|]. constructor; [|done]. exists []. rw app_nil_r. split; [by exists io|done].
  - rw omap_app H6. cbn. by rw app_nil_r.
  - by eapply (ending_streams c _ H9).
Qed.

(** Writing the id of a stream, or dropping it, changes neither whose it is nor its place. *)
Lemma alter_stream_inv f k s c :
  conn_inv c -> co_streams c !! k = Some s -> ss_owner (f s) = ss_owner s -> opened_ok (f s) ->
  (ss_dropped s = true -> ss_dropped (f s) = true) -> len (ss_content (f s)) <= len (ss_content s) ->
  conn_inv (alter_stream f k c).
Proof.
  intros [H1 H2 H3 H4 H11 H5 H10 H6 H7 H8 H9] Hk Hown Hok Hd Hl.
  have Hmap A (g : OpenedStream Uri -> option A) : (forall x y, ss_owner x = ss_owner y -> g x = g y) ->
    omap g (alter f k (co_streams c)) = omap g (co_streams c).
  { move=> Hg. elim: (co_streams c) k Hk => [//|x l IH] [|k] //= Hk.
    - injection Hk as ->. by rw (Hg (f s) s Hown).
    - destruct (g x); [f_equal|]; by apply IH. }
  have Ho : outstanding (alter_stream f k c) = outstanding c.
  { rw /outstanding. cbn. rw Hmap // /packet_of. by move=> x y ->. }
  split; rw ?Ho; cbn; try done.
  - apply Forall_lookup => j x. destruct (decide (j = k)) as [->|Hne].
    + rw list_lookup_alter_eq Hk. by intros [= <-].
    + rw list_lookup_alter_ne //. by apply Forall_lookup_1.
  - rw Hmap // /player_of. by move=> x y ->.
  - rw /ending in H9 *. cbn. destruct (co_ended c); [|done]. destruct H9 as [?|(? & s0 & l & Hs & ? & ?)]; [by left|].
    right. split; [done|]. rw Hs in Hk *. destruct k as [|k]; cbn; [|by eexists _, _].
    injection Hk as ->. eexists _, _. split; [done|]. split; [by apply Hd|lia].
Qed.

Lemma write_inv k s c : conn_inv c -> co_streams c !! k = Some s -> conn_inv (alter_stream write_id k c).
Proof.
  move=> Hc Hk. apply (alter_stream_inv _ k s); try done. exact (Forall_lookup_1 _ _ _ _ (ci_streams _ Hc) Hk).
Qed.

Lemma drop_inv k n s c : conn_inv c -> co_streams c !! k = Some s -> conn_inv (alter_stream (drop_stream n) k c).
Proof.
  move=> Hc Hk. apply (alter_stream_inv _ k s); try done.
  - destruct (Forall_lookup_1 _ _ _ _ (ci_streams _ Hc) Hk) as (more & Hok & _). exists (drop n (ss_content s) ++ more). cbn.
    by rw app_assoc take_drop.
  - cbn. rw length_take. lia.
Qed.

Lemma starts_inv i n connected c : conn_inv c -> conn_inv (peer_starts i n connected c).
Proof.
  intros [H1 H2 H3 H4 H11 H5 H10 H6 H7 H8 H9].
  have Ho : outstanding (peer_starts i n connected c) = outstanding c by done.
  split; rw ?Ho; cbn; try done.
  - apply outstanding_alter; [done| |].
    + move=> p. by destruct (sp_state p) eqn:E.
    + move=> p uri Hp. destruct (sp_state p) as [rs|u] eqn:E; [by move=> _; apply (H11 i p rs)|].
      move=> Hq. rw Hq in Hp. by apply (oi_free _ _ _ H4 i uri).
  - move=> j p rs. destruct (decide (j = i)) as [->|Hne]; [|rw list_lookup_alter_ne //; by apply H11].
    rw list_lookup_alter_eq. destruct (co_peers c !! i) as [q|] eqn:Hq; [|done]. intros [= <-].
    destruct (sp_state q) as [rs'|u] eqn:E; [done|]. rw E. done.
  - by rw length_alter.
  - by rw length_alter.
  - move=> j p. destruct (decide (j = i)) as [->|Hne]; [|rw list_lookup_alter_ne //; by apply H7].
    rw list_lookup_alter_eq. destruct (co_peers c !! i) as [q|] eqn:Hq; [|done]. intros [= <-].
    destruct (H7 i q Hq) as (uri & Hu & Hp). exists uri. split; [done|].
    destruct (sp_state q) as [rs|u] eqn:E; [|by rw E]. cbn.
    destruct (proxy_server_open (take n rs) connected) as [[u rest]| |] eqn:Hopen; [|done..]. by apply Hp in Hopen.
Qed.

Lemma end_inv i e c : conn_inv c -> conn_inv (end_peer i e c).
Proof.
  intros [H1 H2 H3 H4 H11 H5 H10 H6 H7 H8 H9]. have Ho : outstanding (end_peer i e c) = outstanding c by done.
  split; rw ?Ho; cbn; try done.
  - by apply outstanding_end.
  - move=> j p rs. destruct (decide (j = i)) as [->|Hne]; [|rw list_lookup_alter_ne //; by apply H11].
    rw list_lookup_alter_eq. destruct (co_peers c !! i) as [q|]; [|done]. by intros [= <-].
  - by rw length_alter.
  - by rw length_alter.
  - move=> j p Hj. destruct (decide (j = i)) as [->|Hne].
    + rw list_lookup_alter_eq in Hj. destruct (co_peers c !! i) as [q|] eqn:Hq; [|done]. injection Hj as <-.
      destruct (H7 i q Hq) as (uri & ? & _). by exists uri.
    + rw list_lookup_alter_ne // in Hj. by apply (H7 j p).
Qed.

Lemma other_inv c : conn_inv c -> conn_inv (other_connection c).
Proof.
  intros [H1 H2 H3 H4 H11 H5 H10 H6 H7 H8 H9]. split; cbn; try done; [|lia|].
  - rw H1 /wrap Zplus_mod_idemp_l. f_equal. lia.
  - move=> id i Hi. have := H3 id i Hi. lia.
Qed.

Lemma lost_inv c : conn_inv c -> conn_inv (connection_lost c).
Proof. intros [H1 H2 H3 H4 H11 H5 H10 H6 H7 H8 H9]. split; try done. by left. Qed.

(** A stream that was dropped before its id ends the loop. *)
Lemma accept_short s streams c :
  co_streams c = s :: streams -> ss_ready s = true -> len (ss_content s) < 8 ->
  server_accept_bi c = mkConnection (co_next c) (co_issued c) (co_pending c) (co_peers c) (co_players c) (co_indicators c)
    (s :: streams) (co_handed c) (Some (Err UnexpectedEof)).
Proof. move=> Hs Hr Hl. rw /server_accept_bi Hs Hr /accept_stream read_u64_short //. Qed.

Lemma accept_short_inv s streams c :
  conn_inv c -> co_streams c = s :: streams -> ss_ready s = true -> len (ss_content s) < 8 -> conn_inv (server_accept_bi c).
Proof.
  intros [H1 H2 H3 H4 H11 H5 H10 H6 H7 H8 H9] Hs Hr Hl. rw (accept_short s streams) //.
  set c' := mkConnection _ _ _ _ _ _ _ _ _. have Ho : outstanding c' = outstanding c by rw /outstanding Hs.
  rw Hs in H5, H6. split; rw ?Ho; try done. right. split; [done|]. exists s, streams. split_and!; try done.
  apply Forall_cons in H5 as [(more & Hok & Hd) _]. destruct (ss_dropped s); [done|]. rw Hd // app_nil_r in Hok.
  apply stream_ok_len in Hok. lia.
Qed.

(** One turn of [run_server_proxy], whatever stream is next. *)
Lemma accept_inv c :
  conn_inv c -> co_issued c < 2 ^ 64 -> co_ended c = None -> conn_inv (server_accept_bi c).
Proof.
  move=> Hc Hb He. destruct (co_streams c) as [|s streams] eqn:Hs; [by rw /server_accept_bi Hs|].
  destruct (ss_ready s) eqn:Hr; [|by rw /server_accept_bi Hs Hr].
  destruct (Z_lt_le_dec (len (ss_content s)) 8) as [Hl|Hl]; [by apply (accept_short_inv s streams)|].
  destruct (ss_owner s) as [uri|i id] eqn:Hown; [by eapply accept_player_inv|by eapply accept_packet_inv].
Qed.

Lemma accept_issued c : co_issued (server_accept_bi c) = co_issued c.
Proof.
  rw /server_accept_bi. destruct (co_streams c) as [|s streams]; [done|]. destruct (negb _); [done|].
  by destruct (accept_stream (co_pending c) (ss_content s)) as [[[[i|] recv] p]| |].
Qed.

Lemma request_issued request c c' : player_request t request c = Ok c' -> co_issued c' = co_issued c.
Proof. rw /player_request. intros ([resp [|]] & _ & [= <-])%bind_ok_inv; done. Qed.

Lemma cstep_issued c c' : cstep t c c' -> co_issued c <= co_issued c'.
Proof.
  destruct 1 as [request c c' Hr|k s c _ _|k n s c _ _|c _|c _|i n connected c|i uri c _|i id pre post io c _ _|i e c|c];
    cbn; try lia.
  - by rw (request_issued _ _ _ Hr).
  - by rw accept_issued.
Qed.

Lemma cstep_inv c c' : cstep t c c' -> conn_inv c -> co_issued c' < 2 ^ 64 - 1 -> conn_inv c'.
Proof.
  destruct 1 as [request c c' Hr|k s c Hk _|k n s c Hk _|c He|c _|i n connected c|i uri c Hi|i id pre post io c Hind _|i e c|c];
    move=> Hc Hb.
  - by eapply request_inv.
  - by apply (write_inv k s).
  - by apply (drop_inv k n s).
  - rw accept_issued in Hb. apply accept_inv; [done|lia|done].
  - by apply lost_inv.
  - by apply starts_inv.
  - by eapply announce_inv.
  - by apply open_inv.
  - by apply end_inv.
  - by apply other_inv.
Qed.

Lemma connection_reachable_inv issued c :
  0 <= issued -> rtc (cstep t) (Connection_new issued) c -> co_issued c < 2 ^ 64 - 1 -> conn_inv c.
Proof.
  move=> Hi. revert c. refine (rtc_ind_r (fun c => co_issued c < 2 ^ 64 - 1 -> conn_inv c) _ _ _).
  { move=> _. by apply conn_inv_new. }
  move=> c1 c2 _ Hs IH Hb.
  apply (cstep_inv c1 c2 Hs); [|done]. apply IH. have := cstep_issued _ _ Hs. lia.
Qed.

(** The turns of [run_server_proxy] that take all the streams that are under way. *)
Definition accept_all c : Connection Uri := Nat.iter (length (co_streams c)) server_accept_bi c.

(** The id of a stream was written, whether the stream was dropped later or not. *)
Definition id_written (s : OpenedStream Uri) : Prop := ss_ready s = true /\ 8 <= len (ss_content s).

Lemma accept_streams c s streams :
  conn_inv c -> co_issued c < 2 ^ 64 -> co_ended c = None -> co_streams c = s :: streams -> id_written s ->
  conn_inv (server_accept_bi c) /\ co_streams (server_accept_bi c) = streams /\ co_ended (server_accept_bi c) = None /\
  co_handed c `prefix_of` co_handed (server_accept_bi c) /\
  forall i id, ss_owner s = ForPacket i id ->
    exists io, ss_content s = put_u64 id ++ io /\ (ForPacket i id, i, io) ∈ co_handed (server_accept_bi c).
Proof.
  move=> Hc Hb He Hs [Hr Hl]. destruct (ss_owner s) as [uri|i id] eqn:Hown.
  - destruct (accept_player_inv uri s streams c) as (H1 & H2 & H3 & H4); try done. split_and!; try done. by rw H4.
  - destruct (accept_packet_inv i id s streams c) as (H1 & H2 & H3 & io & H4 & H5); try done. rw H5.
    split_and!; try done; [by eexists|]. intros i' id' [= <- <-]. exists io. split; [done|]. apply elem_of_app. right. by left.
Qed.

Lemma accept_all_ok c :
  conn_inv c -> co_issued c < 2 ^ 64 -> co_ended c = None -> Forall id_written (co_streams c) ->
  let c' := accept_all c in
  co_ended c' = None /\ co_streams c' = [] /\ co_handed c `prefix_of` co_handed c' /\
  forall s i id, s ∈ co_streams c -> ss_owner s = ForPacket i id ->
    exists io, ss_content s = put_u64 id ++ io /\ (ForPacket i id, i, io) ∈ co_handed c'.
Proof.
  rw /accept_all. move Hn : (length (co_streams c)) => n. elim: n c Hn => [|n IH] c Hn Hc Hb He Hw; cbv zeta.
  { destruct (co_streams c) eqn:Hs; [|done]. cbn [Nat.iter nat_rect]. split_and!; try done. move=> s i id Hin. by inversion Hin. }
  destruct (co_streams c) as [|s streams] eqn:Hs; [done|]. injection Hn as Hn. apply Forall_cons in Hw as [Hw1 Hw].
  rw Nat.iter_succ_r. destruct (accept_streams c s streams Hc Hb He Hs Hw1) as (Hc1 & Hs1 & He1 & Hh1 & Hp1).
  destruct (IH (server_accept_bi c)) as (He' & Hs' & Hh' & Hp'); rw ?Hs1 ?accept_issued //.
  split; [done|]. split; [done|]. split; [by etrans|]. move=> s' i id. intros [->|Hin]%elem_of_cons Hown.
  - destruct (Hp1 i id Hown) as (io & ? & ?). exists io. split; [done|]. by eapply elem_of_prefix.
  - apply Hp'; [by rw Hs1|done].
Qed.
End invariant.

(** ** Properties *)

Section properties.
Context `{HH : Http} {HHS : HttpSpec HH} `{HZ : Zstd} {HZS : ZstdSpec HZ} {HZB : ZstdBound HZ}.
Context `{HR : RmpSerde InitialConnectionInfo} {HRS : RmpSpec InitialConnectionInfo info_size}.

(** A player that disconnects between [open_bi] and the writing of the id ends
    [run_server_proxy], and with it the connection of all the players. *)
Lemma disconnect_ends_server (t : MessageTransport) request response (c : Connection Uri) :
  co_ended c = None -> co_streams c = [] -> handle_request_open request = Ok (response, true) ->
  exists c', rtc (cstep t) c c' /\ co_ended c' = Some (Err UnexpectedEof) /\ co_peers c' = co_peers c.
Proof.
  move=> He Hs Hr. destruct (player_request t request c) as [c1| |] eqn:Hc1; rw /player_request Hr bind_ok in Hc1; try done.
  have Hs1 : exists s, co_streams c1 = [s] /\ ss_ready s = false by injection Hc1 as <-; cbn; rw Hs; eexists.
  have Hp1 : co_peers c1 = co_peers c /\ co_ended c1 = None by injection Hc1 as <-. destruct Hs1 as (s & Hs1 & Hready), Hp1.
  set c2 := alter_stream (drop_stream 0) 0 c1.
  have Hs2 : co_streams c2 = [drop_stream 0 s] by rw /c2 /=; rw Hs1.
  exists (server_accept_bi c2). rw (accept_short (drop_stream 0 s) [] c2) //. split_and!; try done.
  eapply rtc_l; [apply (step_request t request c c1); by rw /player_request Hr bind_ok|].
  eapply rtc_l; [apply (step_drop t 0 0 s); [by rw Hs1|by rw Hready]|].
  apply rtc_once. rw -(accept_short (drop_stream 0 s) [] c2) //. by apply step_accept.
Qed.

(** C7: no stream goes astray.  However the players, their packets and their disconnections
    interleave (a player may disconnect at any time, also between the opening of its stream
    and the writing of the id; the connection may be lost at any time), and whatever ids
    other connections take, as long as fewer than [2^64 - 1] ids were taken:
    [run_server_proxy] never meets an unknown id and never panics; it runs, or it ended
    because the connection was lost, or because the next stream was dropped by the client
    before its id was written; a stream that a player's client opened for a packet is
    handed to the task of that player; and a task that runs asked the game server for the
    URI of its own player. *)
Theorem nebula_streams_routed (t : MessageTransport) issued c
  (Hissued : 0 <= issued) (Hreach : rtc (cstep t) (Connection_new issued) c) (Hbound : co_issued c < 2 ^ 64 - 1) :
  (co_ended c = None \/ co_ended c = Some (Err (LibError "ConnectionLost")) \/
   co_ended c = Some (Err UnexpectedEof) /\
   exists s streams, co_streams c = s :: streams /\ ss_dropped s = true /\ len (ss_content s) < 8) /\
  (forall owner i io, (owner, i, io) ∈ co_handed c -> exists stream_id, owner = ForPacket i stream_id) /\
  (forall i p uri, co_peers c !! i = Some p -> sp_state p = Started (Ok uri) -> co_players c !! i = Some uri).
Proof.
  destruct (connection_reachable_inv t issued c Hissued Hreach Hbound) as [_ _ _ _ _ _ _ _ H7 H8 H9]. split_and!.
  - rw /ending in H9. destruct (co_ended c); [right|by left]. by destruct H9 as [->|[-> ?]]; [left|right].
  - move=> owner i io Hin. exact (proj1 (Forall_forall _ _) H8 _ Hin).
  - move=> i p uri Hp Hs. destruct (H7 i p Hp) as (u & Hu & Hpeer). rw Hs in Hpeer. cbn in Hpeer. by subst u.
Qed.

(** C24: no task waits in vain.  In every reachable state in which [run_server_proxy] runs:
    when a task waits for the stream of its packet, the player's client has read all the
    indicators written for it, and the ids of all the streams that are under way were
    written (none was dropped before that), then the turns of [run_server_proxy] on these
    streams hand that task its stream, and none of them ends the loop. *)
Theorem waiting_task_gets_stream (t : MessageTransport) issued c i p stream_id
  (Hissued : 0 <= issued) (Hreach : rtc (cstep t) (Connection_new issued) c) (Hbound : co_issued c < 2 ^ 64 - 1)
  (Hruns : co_ended c = None) (Hids : Forall id_written (co_streams c))
  (Hpeer : co_peers c !! i = Some p) (Hwaits : sp_waiting p = Some stream_id)
  (Hread : forall id, (i, id) ∉ co_indicators c) :
  let c' := accept_all c in
  co_ended c' = None /\ co_streams c' = [] /\
  exists s io, s ∈ co_streams c /\ ss_owner s = ForPacket i stream_id /\ ss_content s = put_u64 stream_id ++ io /\
    (ForPacket i stream_id, i, io) ∈ co_handed c'.
Proof.
  pose proof (connection_reachable_inv t issued c Hissued Hreach Hbound) as Hc.
  destruct (accept_all_ok c Hc) as (He & Hs & _ & Hh); [lia|done|done|]. split; [done|]. split; [done|].
  pose proof (oi_waiting _ _ _ (ci_out _ Hc) i p stream_id Hpeer Hwaits) as [Hin|Hin]%elem_of_app; [by destruct (Hread stream_id)|].
  apply list_elem_of_omap in Hin as (s & Hin & Hp). rw /packet_of in Hp. destruct (ss_owner s) as [uri|j id] eqn:Hown; [done|].
  injection Hp as -> ->. destruct (Hh s i stream_id Hin Hown) as (io & ? & ?). by exists s, io.
Qed.
End properties.

(** ** Witnesses *)

(** Requests for one of two paths; the flag says whether it asks for an upgrade. *)
Definition toy_http : Http := {|
  Request := bool * bool;
  Response := bool;
  Uri := bool;
  is_upgrade_request := fst;
  upgrade _ := Ok true;
  request_uri := snd;
  bad_request := false;
  uri_to_string u := if u then [Byte.x2f; Byte.x61] else [Byte.x2f; Byte.x62];
  uri_from_str b :=
    match b with
    | [Byte.x2f; Byte.x61] => Ok true
    | [Byte.x2f; Byte.x62] => Ok false
    | _ => Err (LibError "http::Error")
    end;
|}.

Lemma toy_http_spec : HttpSpec toy_http.
Proof. by split; case. Qed.

Definition toy_info_rmp : RmpSerde InitialConnectionInfo := {|
  rmp_write m := toy_write [client_uri m];
  rmp_from_read r := l ← toy_unpack (fst r); match l with [uri] => Ok (mkInitialInfo uri) | _ => Err (LibError "info") end;
|}.

Lemma toy_info_spec : @RmpSpec InitialConnectionInfo toy_info_rmp info_size.
Proof.
  split.
  - move=> [uri]. rw /info_size. cbn [client_uri rmp_write toy_info_rmp]. move=> Hs.
    destruct (toy_write_ok [uri]) as (b & Hb & Hl); cbn in *; [lia|]. exists b. split; [done|lia].
  - move=> [uri] b. cbn [client_uri rmp_write rmp_from_read toy_info_rmp fst]. by move=> /toy_unpack_pack ->.
Qed.

(** Two players; the task of each announces a packet, and the clients open their
    streams in the other order. *)
#[local] Abbreviation toy_accept := (@server_accept_bi toy_http).
#[local] Abbreviation toy_start := (fun i => @peer_starts toy_http toy_zstd toy_info_rmp i 100 (Ok tt)).
#[local] Abbreviation toy_written := (fun k => @alter_stream toy_http write_id k).

Definition sample_accepted : Connection bool :=
  match (c ← @player_request toy_http toy_zstd toy_info_rmp sample_transport (true, true) (@Connection_new toy_http 0);
         @player_request toy_http toy_zstd toy_info_rmp sample_transport (true, false) (toy_written 0%nat c)) with
  | Ok c => toy_start 1%nat (toy_start 0%nat (toy_accept (toy_accept (toy_written 1%nat c))))
  | _ => @Connection_new toy_http 0
  end.

Definition sample_opened : Connection bool :=
  toy_written 1%nat (toy_written 0%nat (
    @open_packet_stream toy_http 0 1 [] []
      (@open_packet_stream toy_http 1 2 [(0%nat, 1)] [Byte.x07]
        (@announce_packet toy_http 1 (@announce_packet toy_http 0 sample_accepted))))).

Lemma sample_opened_reachable :
  rtc (@cstep toy_http toy_zstd toy_info_rmp sample_transport) (@Connection_new toy_http 0) sample_opened.
Proof.
  eapply rtc_l; [eapply (@step_request toy_http toy_zstd toy_info_rmp sample_transport (true, true)); vm_compute; reflexivity|].
  eapply rtc_l; [eapply (@step_write toy_http toy_zstd toy_info_rmp sample_transport 0); vm_compute; [reflexivity|done]|].
  eapply rtc_l; [eapply (@step_request toy_http toy_zstd toy_info_rmp sample_transport (true, false)); vm_compute; reflexivity|].
  eapply rtc_l; [eapply (@step_write toy_http toy_zstd toy_info_rmp sample_transport 1); vm_compute; [reflexivity|done]|].
  eapply rtc_l; [apply (@step_accept toy_http toy_zstd toy_info_rmp sample_transport); reflexivity|].
  eapply rtc_l; [apply (@step_accept toy_http toy_zstd toy_info_rmp sample_transport); reflexivity|].
  eapply rtc_l; [apply (@step_starts toy_http toy_zstd toy_info_rmp sample_transport 0 100 (Ok tt))|].
  eapply rtc_l; [apply (@step_starts toy_http toy_zstd toy_info_rmp sample_transport 1 100 (Ok tt))|].
  eapply rtc_l; [apply (@step_announce toy_http toy_zstd toy_info_rmp sample_transport 0 true); vm_compute; reflexivity|].
  eapply rtc_l; [apply (@step_announce toy_http toy_zstd toy_info_rmp sample_transport 1 false); vm_compute; reflexivity|].
  eapply rtc_l; [apply (@step_open toy_http toy_zstd toy_info_rmp sample_transport 1 2 [(0%nat, 1)] [] [Byte.x07]); [vm_compute; reflexivity|]|].
  { move=> id Hin. apply list_elem_of_singleton in Hin. discriminate Hin. }
  eapply rtc_l; [apply (@step_open toy_http toy_zstd toy_info_rmp sample_transport 0 1 [] [] []); [vm_compute; reflexivity|by move=> id; inversion 1]|].
  eapply rtc_l; [eapply (@step_write toy_http toy_zstd toy_info_rmp sample_transport 0); vm_compute; [reflexivity|done]|].
  eapply rtc_l; [eapply (@step_write toy_http toy_zstd toy_info_rmp sample_transport 1); vm_compute; [reflexivity|done]|].
  match goal with |- rtc _ ?c _ => have -> : c = sample_opened by vm_compute end. apply rtc_refl.
Qed.

Lemma nebula_streams_routed_witness :
  co_ended sample_opened = None /\ (sp_state <$> co_peers sample_opened) = [Started (Ok true); Started (Ok false)] /\
  co_players sample_opened !! 0%nat = Some true /\ co_players sample_opened !! 1%nat = Some false.
Proof.
  destruct (@nebula_streams_routed toy_http toy_http_spec toy_zstd toy_zstd_spec toy_zstd_bound toy_info_rmp toy_info_spec
    sample_transport 0 sample_opened) as (_ & _ & H3).
  - done.
  - exact sample_opened_reachable.
  - by vm_compute.
  - split; [by vm_compute|]. split; [by vm_compute|].
    split; [apply (H3 0%nat (mkServerPeer (Started (Ok true)) (Some 1)))|apply (H3 1%nat (mkServerPeer (Started (Ok false)) (Some 2)))]; by vm_compute.
Defined.

Lemma waiting_task_gets_stream_witness :
  exists io, (ForPacket 0 1, 0%nat, io) ∈ co_handed (@accept_all toy_http sample_opened).
Proof.
  destruct (@waiting_task_gets_stream toy_http toy_http_spec toy_zstd toy_zstd_spec toy_zstd_bound toy_info_rmp toy_info_spec
    sample_transport 0 sample_opened 0 (mkServerPeer (Started (Ok true)) (Some 1)) 1) as (_ & _ & s & io & _ & _ & _ & Hio).
  - done.
  - exact sample_opened_reachable.
  - by vm_compute.
  - by vm_compute.
  - vm_compute. by repeat (constructor; [done|]).
  - by vm_compute.
  - done.
  - move=> id. by inversion 1.
  - exists io. exact Hio.
Defined.
