(* ===== verification/NebulaSession.v ===== *)
(** * The session of a Nebula player

    Models the functions that hold a player's connection together: [run_client_proxy],
    [handle_connection] and [handle_ws_connection] of
    dsp-nebula-cacher/src/proxy/client_proxy.rs, and [proxy_server] of
    proxy/server_proxy.rs.  A session is an HTTP upgrade, two WebSockets on each side, and
    two copying loops on each side that [try_join!] runs until both end or one fails.

    The WebSocket encoding of fastwebsockets on a QUIC stream is a parameter ([WsCodec]). *)

From Stdlib Require Import ssreflect.
From stdpp Require Import base numbers list gmap strings.
From S2P Require Import Prelude Buf Chunker Dedup ChunkCache ProtocolUtils Lz4Frame NebulaProtocol NebulaProxy NebulaConnection.

#[local] Open Scope general_if_scope.

(** ** Two loops at a time *)

(** [try_join!] of two futures that write items: if one fails, the other is dropped after
    some of its items.  [first_fails] tells which one fails first if both do.  The futures
    that are joined here read from and write to different connections and share no state, so
    each one is run by itself; how the scheduler interleaves them shows only in what the one
    that is dropped had written by then. *)
Definition try_join {A B} (first_fails : bool) (written : nat) (a : list A * result unit) (b : list B * result unit)
  : list A * list B * result unit :=
  match snd a, snd b with
  | Ok _, Ok _ => (fst a, fst b, Ok tt)
  | Ok _, r => (take written (fst a), fst b, r)
  | r, Ok _ => (fst a, take written (fst b), r)
  | ra, rb =>
      if first_fails then (fst a, take written (fst b), ra) else (take written (fst a), fst b, rb)
  end.

Lemma try_join_ok {A B} first_fails written (a : list A) (b : list B) :
  try_join first_fails written (a, Ok tt) (b, Ok tt) = (a, b, Ok tt).
Proof. done. Qed.

(** Whatever fails, both directions are cut at the end of an item. *)
Lemma try_join_prefix {A B} first_fails written (a : list A * result unit) (b : list B * result unit) :
  let '(outa, outb, _) := try_join first_fails written a b in outa `prefix_of` fst a /\ outb `prefix_of` fst b.
Proof.
  rw /try_join. destruct a as [a [?|?|?]], b as [b [?|?|?]]; cbn; try destruct first_fails; split; (done || apply prefix_take).
Qed.

(** ** WebSockets on a stream *)

Class WsCodec := {
  ws_encode : list Frame -> bytes;
  ws_decode : bytes -> list Frame * WsEnd;
}.

(** What is written is read; where the stream ends, [read_ws_frame] sees a closed connection. *)
Class WsCodecSpec (W : WsCodec) : Prop := ws_roundtrip frames : ws_decode (ws_encode frames) = (frames, WsClosed).

(** ** The client proxy *)

(** What wakes the loop of [run_client_proxy]. *)
Inductive ListenerEvent (S : Type) := TcpAccepted (r : result S) | ConnectionClosed.
Arguments TcpAccepted {S}.
Arguments ConnectionClosed {S}.

(** [run_client_proxy]: the connections it starts tasks for, and how it ends, if it does. *)
Fixpoint run_client_proxy {S} (events : list (ListenerEvent S)) : list S * option (result unit) :=
  match events with
  | [] => ([], None)
  | TcpAccepted (Ok tcp_stream) :: events =>
      let '(started, r) := run_client_proxy events in (tcp_stream :: started, r)
  | TcpAccepted (Err e) :: _ => ([], Some (Err e))
  | TcpAccepted (Panic p) :: _ => ([], Some (Panic p))
  | ConnectionClosed :: _ => ([], Some (Ok tt))
  end.

(** An error of [accept] ends the proxy, also for the players that are connected. *)
Lemma accept_error_ends_client {S} (before : list S) e later :
  run_client_proxy ((TcpAccepted ∘ Ok <$> before) ++ TcpAccepted (Err e) :: later) = (before, Some (Err e)).
Proof. elim: before => [//|s before IH]. cbn [fmap list_fmap app run_client_proxy compose]. by rw IH. Qed.

Section client.
Context `{Http, Zstd, RmpSerde InitialConnectionInfo}.

(** The requests that [serve_connection] of hyper passes to [handle_request], until one is
    upgraded or fails: the responses, and what was written into the stream that was opened. *)
Fixpoint serve_requests (t : MessageTransport) (requests : list Request) : list Response * option bytes * result unit :=
  match requests with
  | [] => ([], None, Ok tt)
  | request :: requests =>
      match handle_request t request with
      | Ok (response, None) =>
          let '(responses, opened, r) := serve_requests t requests in (response :: responses, opened, r)
      | Ok (response, Some sent) => ([response], Some sent, Ok tt)
      | Err e => ([], None, Err e)
      | Panic p => ([], None, Panic p)
      end
  end.

(** [handle_connection]: the error of a connection is only logged; [nodelay] is the result of
    [set_nodelay]. *)
Definition handle_connection (t : MessageTransport) (nodelay : result unit) (requests : list Request)
  : result (list Response * option bytes) :=
  match nodelay with
  | Ok _ =>
      match serve_requests t requests with
      | (_, _, Panic p) => Panic p
      | (responses, opened, _) => Ok (responses, opened)
      end
  | _ => Panic "Error disabling Nagle algorithm"
  end.

(** A stream is opened for an upgrade request, and for no other. *)
Lemma serve_requests_opens t before request after response sent :
  Forall (fun r => is_upgrade_request r = false) before -> handle_request t request = Ok (response, Some sent) ->
  serve_requests t (before ++ request :: after) = (((fun _ => bad_request) <$> before) ++ [response], Some sent, Ok tt).
Proof.
  move=> Hb Hr. elim: Hb => [|r before' Hn _ IH]; cbn [app serve_requests fmap list_fmap]; [by rw Hr|].
  rw {1}/handle_request {1}/handle_request_open Hn. cbn [negb]. by rw IH.
Qed.
End client.

Section client_session.
Context `{Blake3, XxHash32 X, Zstd, LinkedHashMap M, WsCodec}.
Context `{RmpSerde DedupedPacketDescription, RmpSerde RequestChunksMessage, RmpSerde SendChunksMessage}.
Context (t : MessageTransport) (others : ChunkCache M -> list (ChunkKey * nat) -> ChunkCache M).
Context (connect : bytes -> bytes).

(** [handle_ws_connection], once the upgrade of the player's connection is done: the frames
    written to the player, those written to the server, the streams opened, and the result. *)
Definition handle_ws_connection (first_fails : bool) (written fuel : nat) (ws_future : result unit)
    (recv_stream : bytes) (client_frames : list Frame) (client_end : WsEnd) (cache : ChunkCache M)
  : list Frame * list Frame * list bytes * result unit :=
  match ws_future with
  | Ok _ =>
      let '(server_frames, server_end) := ws_decode recv_stream in
      let '(out, r, _, opened) := client_copy_with_dedup (X := X) t others connect fuel server_end server_frames cache in
      let '(to_player, to_server, r) := try_join first_fails written (out, r) (copy_ws_to_ws client_end client_frames) in
      (to_player, to_server, opened, r)
  | Err e => ([], [], [], Err e)
  | Panic p => ([], [], [], Panic p)
  end.
End client_session.

(** ** The server proxy *)

(** The request that [proxy_server] sends to the game server. *)
Record GameRequest (U : Type) := mkGameRequest {
  gr_method : string;
  gr_uri : U;
  gr_headers : list (string * bytes);
}.
Arguments mkGameRequest {U}.
Arguments gr_method {U}.
Arguments gr_uri {U}.
Arguments gr_headers {U}.

Definition ascii_bytes (s : string) : bytes := Strings.String.list_byte_of_string s.

Definition game_request {U} (uri : U) (key : bytes) : GameRequest U :=
  mkGameRequest "GET" uri [
    ("Host"%string, ascii_bytes "localhost");
    ("upgrade"%string, ascii_bytes "websocket");
    ("connection"%string, ascii_bytes "upgrade");
    ("Sec-WebSocket-Key"%string, key);
    ("Sec-WebSocket-Version"%string, ascii_bytes "13")].

Section server_session.
Context `{Blake3, Lz4Decoder, Zstd, Http, WsCodec}.
Context `{RmpSerde InitialConnectionInfo, RmpSerde DedupedPacketDescription, RmpSerde RequestChunksMessage, RmpSerde SendChunksMessage}.
Context (t : MessageTransport) (streams : Z -> result bytes).

(** [proxy_server]: the request to the game server, what is done for the client, the frames
    written to the game server, and the result.  [connected] is the result of connecting to
    the game server, [handshake] of the WebSocket handshake, [key] the generated key. *)
Definition proxy_server (first_fails : bool) (written : nat) (recv_stream : bytes) (connected : result unit) (key : bytes)
    (handshake : GameRequest Uri -> result unit) (server_frames : list Frame) (server_end : WsEnd) (next_id : Z)
  : option (GameRequest Uri) * list ServerAction * list Frame * result unit :=
  match proxy_server_open recv_stream connected with
  | Ok (uri, recv_stream) =>
      let req := game_request uri key in
      match handshake req with
      | Ok _ =>
          let '(client_frames, client_end) := ws_decode recv_stream in
          let '(acts, r) := server_copy_with_dedup t streams (length server_frames) server_end server_frames next_id in
          let '(acts, to_game, r) :=
            try_join first_fails written (acts, _ ← r; Ok tt) (copy_ws_to_ws client_end client_frames) in
          (Some req, acts, to_game, r)
      | Err e => (Some req, [], [], Err e)
      | Panic p => (Some req, [], [], Panic p)
      end
  | Err e => (None, [], [], Err e)
  | Panic p => (None, [], [], Panic p)
  end.
End server_session.

(** ** Both sides *)

Lemma copy_ws_all e frames : fst (copy_ws_to_ws e frames) = frames.
Proof. elim: frames => [//|f frames IH]. cbn [copy_ws_to_ws]. destruct (copy_ws_to_ws e frames) as [out r]. cbn in *. by rw IH. Qed.

Lemma copy_ws_closed frames : copy_ws_to_ws WsClosed frames = (frames, Ok tt).
Proof. elim: frames => [//|f frames IH]. cbn [copy_ws_to_ws]. by rw IH. Qed.

(** What a player sends reaches the game server in order and unchanged, up to where the
    session was cut, whatever fails. *)
Lemma upstream_prefix `{Blake3, XxHash32 X, Lz4Decoder, Zstd, LinkedHashMap M, Http, HW : WsCodec, !WsCodecSpec HW}
    `{RmpSerde InitialConnectionInfo, RmpSerde DedupedPacketDescription, RmpSerde RequestChunksMessage, RmpSerde SendChunksMessage}
    t others connect streams (cf1 cf2 : bool) (n1 n2 fuel : nat) ws_future down frames e (cache : ChunkCache M)
    head connected key handshake game_frames ge next_id uri to_player to_server opened r1 req acts to_game r2 :
  (forall io, proxy_server_open (head ++ io) (Ok tt) = Ok (uri, io)) ->
  handle_ws_connection (X := X) t others connect cf1 n1 fuel ws_future down frames e cache = (to_player, to_server, opened, r1) ->
  proxy_server t streams cf2 n2 (head ++ ws_encode to_server) connected key handshake game_frames ge next_id =
    (req, acts, to_game, r2) ->
  connected = Ok tt -> to_game `prefix_of` frames.
Proof.
  move=> Hopen Hclient Hserver Hc. subst connected.
  have Hup : to_server `prefix_of` frames.
  { rw /handle_ws_connection in Hclient. destruct ws_future; [|by simplify_eq; apply prefix_nil..].
    destruct (ws_decode down) as [sf se]. destruct (client_copy_with_dedup _ _ _ _ _ _ _) as [[[out r] c'] op].
    pose proof (try_join_prefix cf1 n1 (out, r) (copy_ws_to_ws e frames)) as Hj.
    destruct (try_join _ _ _ _) as [[tp ts] rj]. simplify_eq. destruct Hj as [_ Hj]. by rw copy_ws_all in Hj. }
  rw /proxy_server Hopen in Hserver. destruct (handshake _); [|by simplify_eq; apply prefix_nil..]. rw ws_roundtrip in Hserver.
  destruct (server_copy_with_dedup _ _ _ _ _ _) as [acts' r'].
  pose proof (try_join_prefix cf2 n2 (acts', _ ← r'; Ok tt) (copy_ws_to_ws WsClosed to_server)) as Hj.
  destruct (try_join _ _ _ _) as [[ta tg] rj]. simplify_eq. destruct Hj as [_ Hj]. rw copy_ws_all in Hj. by etrans.
Qed.

(** ** Property *)

(** C4: a player talks to the game server.  A player sends an upgrade request and then some
    frames, and closes; the game server accepts the handshake, sends frames and closes.  The
    client proxy opens a stream for the player; the server proxy recognises it as one of a
    new player and sends the game server a request for the same URI; all four copying loops
    end without an error.  The game server gets exactly the player's frames; the player gets
    well framed messages, the same ones in the same order, each large packet as a binary
    message that reads the same, and the same control frames.

    The conditions: the frames of the game server are well framed messages of which the
    large packets can be read (they decompress, to less than 2^32 bytes framed again) and
    none looks like the indicator that the proxies use; the blobs of the packets have
    different digests; meanwhile no other player takes ids from the counter, which does not
    wrap; the client's cache holds nothing else under their keys, and other tasks that are
    fetching the same chunks deliver them.  The two loops of a side share no state, so which
    one [try_join] would cut ([first], [written]) makes no difference here; what it does when
    a loop fails is [upstream_prefix]. *)
Theorem nebula_session_preserved `{Hb : Blake3} {Hspec : Blake3Spec Hb} `{HX : XxHash32 X} {HXS : XxHash32Spec X}
  `{Hz : Lz4Decoder} {HzS : Lz4DecoderSpec (X := X) Hz} `{HZ : Zstd} {HZS : ZstdSpec HZ} {HZB : ZstdBound HZ}
  `{HH : Http} {HHS : HttpSpec HH} `{HW : WsCodec} {HWS : WsCodecSpec HW}
  `{HRi : RmpSerde InitialConnectionInfo} {HRiS : RmpSpec InitialConnectionInfo info_size}
  `{HRd : RmpSerde DedupedPacketDescription} {HRdS : RmpSpec DedupedPacketDescription description_size}
  `{HRq : RmpSerde RequestChunksMessage} {HRqS : RmpSpec RequestChunksMessage request_size}
  `{HRs : RmpSerde SendChunksMessage} {HRsS : RmpSpec SendChunksMessage send_size}
  `{HM : LinkedHashMap M} {HMS : LinkedHashMapSpec M}
  (t : MessageTransport) (others : ChunkCache M -> list (ChunkKey * nat) -> ChunkCache M)
  (request : Request) response (key : bytes) (handshake : GameRequest Uri -> result unit) (player_frames : list Frame)
  (frames : list Frame) ms next (cache : ChunkCache M) (pending : gmap Z DedupSession)
  (Hupgrade : is_upgrade_request request = true) (Hresponse : upgrade request = Ok response)
  (Hhandshake : handshake (game_request (request_uri request) key) = Ok tt)
  (Hframes : ws_parse None frames = Some ms)
  (Hplain : Forall (fun f => indicated f = None) frames) (Hread : Forall readable ms)
  (Hfree : collision_free (message_blobs ms)) (Hcache : cache_agrees (store_all (message_blobs ms) ∅) cache)
  (Hothers : others_deliver others (store_all (message_blobs ms) ∅)) (Hnext : 0 < next) (Hids : next + len frames < 2 ^ 64) :
  exists acts depth sent recv_stream, forall fuel first1 first2 written1 written2, (depth < fuel)%nat ->
    exists out opened ms',
      handle_request t request = Ok (response, Some sent) /\
      handle_ws_connection (X := X) t others (connect_to t (list_to_map (sessions_of acts))) first1 written1 fuel (Ok tt)
        (ws_encode (frames_of acts)) player_frames WsClosed cache = (out, player_frames, opened, Ok tt) /\
      accept_stream pending (sent ++ ws_encode player_frames) = Ok (None, recv_stream, pending) /\
      proxy_server t (handed_over opened) first2 written2 recv_stream (Ok tt) key handshake frames WsClosed next =
        (Some (game_request (request_uri request) key), acts, player_frames, Ok tt) /\
      ws_parse None out = Some ms' /\ Forall2 same_message ms ms' /\ controls out = controls frames.
Proof.
  destruct (nebula_messages_preserved (X := X) t others frames ms next cache) as (acts & next' & depth & Hrun); try done.
  destruct (handle_request_ok t request response Hupgrade Hresponse) as (sent & Hreq & Hst).
  destruct (proxy_server_open_ok _ sent (ws_encode player_frames) Hst) as (recv & Hread64 & Hopen & _).
  exists acts, depth, sent, recv. move=> fuel first1 first2 written1 written2 Hfuel.
  destruct (Hrun fuel Hfuel) as (out & cache' & opened & ms' & Hs & Hc & Hp & Hm & Hctl). exists out, opened, ms'.
  split; [done|]. split; [by rw /handle_ws_connection ws_roundtrip Hc copy_ws_closed|].
  split; [by rw /accept_stream Hread64|]. split; [|done].
  by rw /proxy_server Hopen Hhandshake ws_roundtrip Hs copy_ws_closed.
Qed.

(** ** Witness *)

(** A codec that puts a mark before each byte of a payload. *)
Definition opcode_byte (o : OpCode) : Byte.byte :=
  match o with
  | Continuation => Byte.x00 | Text => Byte.x01 | Binary => Byte.x02 | Close => Byte.x08 | Ping => Byte.x09 | Pong => Byte.x0a
  end.
Definition byte_opcode (b : Byte.byte) : OpCode :=
  match b with
  | Byte.x01 => Text | Byte.x02 => Binary | Byte.x08 => Close | Byte.x09 => Ping | Byte.x0a => Pong | _ => Continuation
  end.

Fixpoint put_marked (payload : bytes) (rest : bytes) : bytes :=
  match payload with [] => Byte.x00 :: rest | b :: payload => Byte.x01 :: b :: put_marked payload rest end.
Fixpoint get_marked (io : bytes) : bytes * bytes :=
  match io with
  | Byte.x01 :: b :: io => let '(payload, rest) := get_marked io in (b :: payload, rest)
  | _ :: io => ([], io)
  | [] => ([], [])
  end.

Lemma get_put_marked payload rest : get_marked (put_marked payload rest) = (payload, rest).
Proof. elim: payload => [//|b payload IH]. cbn. by rw IH. Qed.

Fixpoint toy_ws_encode (frames : list Frame) : bytes :=
  match frames with
  | [] => []
  | f :: frames => flag (fin f) :: opcode_byte (opcode f) :: put_marked (payload f) (toy_ws_encode frames)
  end.
Fixpoint toy_ws_decode (fuel : nat) (io : bytes) : list Frame :=
  match fuel, io with
  | S fuel, f :: o :: io =>
      let '(payload, io) := get_marked io in mkFrame (unflag f) (byte_opcode o) payload :: toy_ws_decode fuel io
  | _, _ => []
  end.

Definition toy_ws : WsCodec := {| ws_encode := toy_ws_encode; ws_decode io := (toy_ws_decode (length io) io, WsClosed) |}.

Lemma put_marked_length payload rest : (length rest < length (put_marked payload rest))%nat.
Proof. elim: payload => [|b payload IH]; cbn; lia. Qed.

Lemma toy_ws_spec : WsCodecSpec toy_ws.
Proof.
  move=> frames. cbn. f_equal. suff H n : (length (toy_ws_encode frames) <= n)%nat -> toy_ws_decode n (toy_ws_encode frames) = frames by apply H.
  elim: frames n => [|f frames IH] [|n] //=; [lia|]. move=> Hn. pose proof (put_marked_length (payload f) (toy_ws_encode frames)).
  rw get_put_marked IH; [lia|]. destruct f as [b o p]. cbn. rw unflag_flag. by destruct o.
Qed.

(** A player sends a message and a ping while the game server sends a large packet. *)
Definition sample_player_frames : list Frame := [mkFrame true Text [Byte.x68; Byte.x69]; mkFrame true Ping []].

(** The chunks of that packet. *)
Definition sample_view_chunks : gmap ChunkKey bytes :=
  @store_all toy_blake3 (@message_blobs toy_blake3 toy_lz4 sample_messages) ∅.

Lemma nebula_session_preserved_witness :
  exists acts depth sent recv_stream, forall fuel first1 first2 written1 written2, (depth < fuel)%nat ->
    exists out opened ms',
      @handle_request toy_http toy_zstd toy_info_rmp sample_transport (true, true) = Ok (true, Some sent) /\
      @handle_ws_connection toy_blake3 bytes toy_xxhash toy_zstd AList _ toy_ws toy_description_rmp toy_request_rmp toy_send_rmp
        sample_transport (all_delivered sample_view_chunks)
        (@connect_to toy_zstd toy_description_rmp toy_request_rmp toy_send_rmp sample_transport (list_to_map (sessions_of acts)))
        first1 written1 fuel (Ok tt) (@ws_encode toy_ws (frames_of acts)) sample_player_frames WsClosed (ChunkCache_new 1000) =
        (out, sample_player_frames, opened, Ok tt) /\
      accept_stream (∅ : gmap Z DedupSession) (sent ++ @ws_encode toy_ws sample_player_frames) = Ok (None, recv_stream, ∅) /\
      @proxy_server toy_blake3 toy_lz4 toy_zstd toy_http toy_ws toy_info_rmp toy_description_rmp toy_request_rmp toy_send_rmp
        sample_transport (handed_over opened) first2 written2 recv_stream (Ok tt) [] (fun _ => Ok tt) sample_frames WsClosed 1 =
        (Some (game_request true []), acts, sample_player_frames, Ok tt) /\
      ws_parse None out = Some ms' /\ Forall2 (@same_message toy_lz4) sample_messages ms' /\
      controls out = controls sample_frames.
Proof.
  apply (@nebula_session_preserved toy_blake3 toy_blake3_spec bytes toy_xxhash toy_xxhash_spec toy_lz4 toy_lz4_spec
    toy_zstd toy_zstd_spec toy_zstd_bound toy_http toy_http_spec toy_ws toy_ws_spec toy_info_rmp toy_info_spec
    toy_description_rmp toy_description_spec toy_request_rmp toy_request_spec
    toy_send_rmp toy_send_spec AList _ _ sample_transport (all_delivered sample_view_chunks) (true, true) true [] (fun _ => Ok tt) sample_player_frames
    sample_frames sample_messages 1 (ChunkCache_new 1000) ∅).
  - reflexivity.
  - reflexivity.
  - reflexivity.
  - exact sample_frames_parse.
  - by repeat (constructor; [by vm_compute|]).
  - apply readableb_true. by vm_compute.
  - apply collision_freeb_true. by vm_compute.
  - split_and!; [by apply raw_inv_new|done|]. move=> k v v' Hin. by inversion Hin.
  - apply all_delivered_ok. by vm_compute.
  - done.
  - done.
Defined.
