(* ===== verification/Effects.v ===== *)
(** * Programs with effects

    The outermost functions of the programs do little but call: the operating system,
    tokio, quinn, the gateway, and the components that the other files model.  Such a
    function is a tree of calls ([Prog]), where each call has the answers that the code
    distinguishes.  Three things of Rust are constructors of their own: a panic, a value
    whose [Drop] makes a call when the scope that owns it is left (by the end of the
    function, a panic, or because its future is dropped), and a [select!] between a future
    and Ctrl-C, which drops the future at one of its awaits.

    [exec] is the meaning of a program, the set of its executions; [wp] computes a
    condition for all executions to satisfy a monitor of their events.  A process that is
    killed, which Ctrl-C also does as long as no [select!] waits for it, leaves the beginning
    of an execution ([killed]). *)

From Stdlib Require Import ssreflect.
From stdpp Require Import base list strings.
From S2P Require Import Prelude.

#[local] Open Scope general_if_scope.

Class Signature := {
  Call : Type;
  Answer : Call -> Type;
  (** the call is an await: the future that makes it can be dropped there *)
  awaits : Call -> bool;
  (** the values with a [Drop], and the call that it makes; its answer is only logged *)
  Guard : Type;
  drop_call : Guard -> Call;
}.

Inductive Prog `{Signature} : Type -> Type :=
| Ret {R} (r : R) : Prog R
| Raise {R} (msg : string) : Prog R
| Vis {R} (e : Call) (k : Answer e -> Prog R) : Prog R
| Scope {X R} (guard : Guard) (body : Prog X) (k : X -> Prog R) : Prog R
| SelectCtrlC {X R} (run : Prog X) (k : option X -> Prog R) : Prog R.

Section programs.
Context `{Signature}.

Fixpoint prog_bind {A} (p : Prog A) : forall {B}, (A -> Prog B) -> Prog B :=
  match p with
  | Ret r => fun B f => f r
  | Raise msg => fun B f => Raise msg
  | Vis e k => fun B f => Vis e (fun x => prog_bind (k x) f)
  | Scope guard body k => fun B f => Scope guard body (fun x => prog_bind (k x) f)
  | SelectCtrlC run k => fun B f => SelectCtrlC run (fun x => prog_bind (k x) f)
  end.

Definition call (e : Call) : Prog (Answer e) := Vis e Ret.

(** [r.unwrap()] and [r.expect(msg)] *)
Definition unwrap {A} (r : result A) : Prog A :=
  match r with
  | Ok a => Ret a
  | Err _ => Raise "called `Result::unwrap()` on an `Err` value"
  | Panic msg => Raise msg
  end.

Definition expect_ok {A} (r : result A) (msg : string) : Prog A :=
  match r with Ok a => Ret a | Err _ => Raise msg | Panic msg => Raise msg end.

(** [let x = r?;]: an error ends the function, a panic of the callee unwinds it. *)
Definition question {A B} (r : result A) (k : A -> Prog (result B)) : Prog (result B) :=
  match r with Ok a => k a | Err e => Ret (Err e) | Panic msg => Raise msg end.

(** ** Executions *)

(** A call and its answer, a call at which the future was dropped, and the end of a
    [select!] by the interrupt, which comes after the calls of the future's drops. *)
Inductive Event :=
| Answered (e : Call) (x : Answer e)
| Abandoned (e : Call)
| CtrlC.

Inductive Outcome (R : Type) :=
| Returned (r : R)
| Panicked (msg : string)
| DroppedFuture.
#[global] Arguments Returned {R}.
#[global] Arguments Panicked {R}.
#[global] Arguments DroppedFuture {R}.

(** What follows an outcome. *)
Definition outcome_then {X R} (o : Outcome X) (returned : X -> Prop) (left_ : Outcome R -> Prop) : Prop :=
  match o with
  | Returned x => returned x
  | Panicked msg => left_ (Panicked msg)
  | DroppedFuture => left_ DroppedFuture
  end.

(** [exec droppable p tr o]: an execution with the events [tr] and the outcome [o]. *)
Fixpoint exec {R} (droppable : bool) (p : Prog R) : list Event -> Outcome R -> Prop :=
  match p with
  | Ret r => fun tr o => tr = [] /\ o = Returned r
  | Raise msg => fun tr o => tr = [] /\ o = Panicked msg
  | Vis e k => fun tr o =>
      (exists x tr', tr = Answered e x :: tr' /\ exec droppable (k x) tr' o) \/
      (droppable = true /\ awaits e = true /\ tr = [Abandoned e] /\ o = DroppedFuture)
  | Scope guard body k => fun tr o =>
      exists t1 o1 x tr', exec droppable body t1 o1 /\ tr = t1 ++ Answered (drop_call guard) x :: tr' /\
        outcome_then o1 (fun y => exec droppable (k y) tr' o) (fun o1 => tr' = [] /\ o = o1)
  | SelectCtrlC run k => fun tr o =>
      exists t1 o1 tr', exec true run t1 o1 /\
        match o1 with
        | Returned y => tr = t1 ++ tr' /\ exec droppable (k (Some y)) tr' o
        | Panicked msg => tr = t1 /\ o = Panicked msg
        | DroppedFuture => tr = t1 ++ CtrlC :: tr' /\ exec droppable (k None) tr' o
        end
  end.

(** The events of a process that is killed at some point. *)
Definition killed {R} (p : Prog R) (tr : list Event) : Prop :=
  exists tr' o, exec false p tr' o /\ tr `prefix_of` tr'.

Lemma exec_bind {A B} (p : Prog A) (f : A -> Prog B) droppable tr o :
  exec droppable (prog_bind p f) tr o <->
  exists t1 o1 tr', exec droppable p t1 o1 /\ tr = t1 ++ tr' /\
    outcome_then o1 (fun a => exec droppable (f a) tr' o) (fun o1 => tr' = [] /\ o = o1).
Proof.
  elim: p f tr o => {A} [A r|A msg|A e k IH|X A g body _ k IH|X A run _ k IH] f tr o; cbn.
  - split; [move=> Hf; by exists [], (Returned r), tr|]. by intros (t1 & o1 & tr' & [-> ->] & -> & Hf).
  - split; [intros [-> ->]; by exists [], (Panicked msg), []|]. by intros (t1 & o1 & tr' & [-> ->] & -> & -> & ->).
  - split.
    + intros [(x & tr' & -> & (t1 & o1 & t2 & Hx & -> & Ho)%IH)|(Hd & He & -> & ->)].
      * exists (Answered e x :: t1), o1, t2. split_and!; [left; by exists x, t1|done|done].
      * exists [Abandoned e], DroppedFuture, []. split_and!; [by right|done|done].
    + intros (t1 & o1 & tr' & [(x & t2 & -> & Hx)|(Hd & He & -> & ->)] & -> & Ho).
      * left. exists x, (t2 ++ tr'). split; [done|]. apply IH. by exists t2, o1, tr'.
      * destruct Ho as [-> ->]. by right.
  - split.
    + intros (t1 & o1 & x & t2 & Hb & -> & Ho). destruct o1 as [y|msg|]; cbn in Ho.
      * apply IH in Ho as (t3 & o3 & t4 & Hk & -> & Ho). exists (t1 ++ Answered (drop_call g) x :: t3), o3, t4.
        split_and!; [|by rw -app_assoc|done]. by exists t1, (Returned y), x, t3.
      * destruct Ho as [-> ->]. exists (t1 ++ [Answered (drop_call g) x]), (Panicked msg), [].
        split_and!; [by exists t1, (Panicked msg), x, []|by rw app_nil_r|done].
      * destruct Ho as [-> ->]. exists (t1 ++ [Answered (drop_call g) x]), DroppedFuture, [].
        split_and!; [by exists t1, DroppedFuture, x, []|by rw app_nil_r|done].
    + intros (t0 & o0 & t5 & (t1 & o1 & x & t2 & Hb & -> & Ho1) & -> & Ho0).
      exists t1, o1, x, (t2 ++ t5). split_and!; [done|by rw -app_assoc|]. destruct o1 as [y|msg|]; cbn in Ho1 |- *.
      * apply IH. by exists t2, o0, t5.
      * destruct Ho1 as [-> ->]. by destruct Ho0 as [-> ->].
      * destruct Ho1 as [-> ->]. by destruct Ho0 as [-> ->].
  - split.
    + intros (t1 & o1 & t2 & Hr & Ho). destruct o1 as [y|msg|].
      * destruct Ho as [-> (t3 & o3 & t4 & Hk & -> & Ho)%IH]. exists (t1 ++ t3), o3, t4.
        split_and!; [by exists t1, (Returned y), t3|by rw -app_assoc|done].
      * destruct Ho as [-> ->]. exists t1, (Panicked msg), []. split_and!; [by exists t1, (Panicked msg), []|by rw app_nil_r|done].
      * destruct Ho as [-> (t3 & o3 & t4 & Hk & -> & Ho)%IH]. exists (t1 ++ CtrlC :: t3), o3, t4.
        split_and!; [by exists t1, DroppedFuture, t3|by rw -app_assoc|done].
    + intros (t0 & o0 & t5 & (t1 & o1 & t2 & Hr & Ho1) & -> & Ho0). destruct o1 as [y|msg|].
      * destruct Ho1 as [-> Hk]. exists t1, (Returned y), (t2 ++ t5). split_and!; [done|by rw -app_assoc|].
        apply IH. by exists t2, o0, t5.
      * destruct Ho1 as [-> ->]. destruct Ho0 as [-> ->]. exists t1, (Panicked msg), []. by split_and!; [|rw app_nil_r|].
      * destruct Ho1 as [-> Hk]. exists t1, DroppedFuture, (t2 ++ t5). split_and!; [done|by rw -app_assoc|].
        apply IH. by exists t2, o0, t5.
Qed.

(** ** Monitors

    A monitor follows the events of an execution; [None]: the execution violates it. *)

Section monitor.
Context {St : Type} (step : St -> Event -> option St).

Fixpoint follow (s : St) (tr : list Event) : option St :=
  match tr with [] => Some s | ev :: tr => s ← step s ev; follow s tr end.

Lemma follow_app s t1 t2 : follow s (t1 ++ t2) = (s ← follow s t1; follow s t2).
Proof. elim: t1 s => [//|ev t1 IH] s /=. by destruct (step s ev) as [s1|]; [apply IH|]. Qed.

Definition steps_to (s : St) (ev : Event) (post : St -> Prop) : Prop :=
  match step s ev with Some s => post s | None => False end.

(** The weakest condition under which every execution is accepted and ends in [post]. *)
Fixpoint wp {R} (droppable : bool) (p : Prog R) : St -> (St -> Outcome R -> Prop) -> Prop :=
  match p with
  | Ret r => fun s post => post s (Returned r)
  | Raise msg => fun s post => post s (Panicked msg)
  | Vis e k => fun s post =>
      (forall x, steps_to s (Answered e x) (fun s => wp droppable (k x) s post)) /\
      (droppable && awaits e = true -> steps_to s (Abandoned e) (fun s => post s DroppedFuture))
  | Scope guard body k => fun s post =>
      wp droppable body s (fun s o => forall x, steps_to s (Answered (drop_call guard) x) (fun s =>
        outcome_then o (fun y => wp droppable (k y) s post) (fun o => post s o)))
  | SelectCtrlC run k => fun s post =>
      wp true run s (fun s o => match o with
        | Returned y => wp droppable (k (Some y)) s post
        | Panicked msg => post s (Panicked msg)
        | DroppedFuture => steps_to s CtrlC (fun s => wp droppable (k None) s post)
        end)
  end.

Definition accepts {R} (droppable : bool) (p : Prog R) (s : St) (post : St -> Outcome R -> Prop) : Prop :=
  forall tr o, exec droppable p tr o -> exists s', follow s tr = Some s' /\ post s' o.

Lemma follow_prefix s t1 tr : t1 `prefix_of` tr -> is_Some (follow s tr) -> is_Some (follow s t1).
Proof. intros [t2 ->]. rw follow_app. destruct (follow s t1); [by eexists|by intros [? [=]]]. Qed.

(** A monitor that accepts the executions of a program accepts the beginnings of them. *)
Lemma accepts_killed {R} (p : Prog R) s post tr : accepts false p s post -> killed p tr -> is_Some (follow s tr).
Proof.
  intros Ha (tr' & o & Hex & Hp). apply (follow_prefix s tr tr' Hp). destruct (Ha tr' o Hex) as (s' & Hs & _). by exists s'.
Qed.

Lemma steps_to_follow s ev tr post :
  steps_to s ev (fun s => exists s', follow s tr = Some s' /\ post s') -> exists s', follow s (ev :: tr) = Some s' /\ post s'.
Proof. rw /steps_to. cbn. by destruct (step s ev). Qed.

Lemma steps_to_mono s ev (P Q : St -> Prop) : (forall s, P s -> Q s) -> steps_to s ev P -> steps_to s ev Q.
Proof. rw /steps_to. destruct (step s ev); [auto|done]. Qed.

Lemma wp_mono {R} droppable (p : Prog R) s (P Q : St -> Outcome R -> Prop) :
  (forall s o, P s o -> Q s o) -> wp droppable p s P -> wp droppable p s Q.
Proof.
  elim: p droppable s P Q => {R} [R r|R msg|R e k IH|X R g body IHb k IH|X R run IHr k IH] d s P Q HPQ; cbn; auto.
  - intros [H1 H2]. split; [move=> x; move: (H1 x)|move=> Hd; move: (H2 Hd)]; apply steps_to_mono; eauto.
  - apply IHb. move=> s1 [y|msg|] Ho x; move: (Ho x); apply steps_to_mono; cbn; eauto.
  - apply IHr. move=> s1 [y|msg|]; [eauto|eauto|]. apply steps_to_mono. eauto.
Qed.

Lemma wp_sound {R} droppable (p : Prog R) s post : wp droppable p s post -> accepts droppable p s post.
Proof.
  elim: p droppable s post => {R} [R r|R msg|R e k IH|X R g body IHb k IH|X R run IHr k IH] d s post Hwp tr o; cbn.
  - intros [-> ->]. by exists s.
  - intros [-> ->]. by exists s.
  - destruct Hwp as [H1 H2]. intros [(x & tr' & -> & Hx)|(Hd & He & -> & ->)]; apply steps_to_follow.
    + move: (H1 x). apply steps_to_mono => s1 Hw. by eapply IH.
    + rw Hd He in H2. move: (H2 eq_refl). apply steps_to_mono => s1 Hw. by exists s1.
  - intros (t1 & o1 & x & tr' & Hb & -> & Ho). destruct (IHb _ _ _ Hwp t1 o1 Hb) as (s1 & Hf & Hs).
    rw follow_app Hf. apply steps_to_follow. move: (Hs x). apply steps_to_mono => s2 Hw.
    destruct o1 as [y|msg|]; cbn in Hw, Ho; [by eapply IH| |]; destruct Ho as [-> ->]; by exists s2.
  - intros (t1 & o1 & tr' & Hr & Ho). destruct (IHr _ _ _ Hwp t1 o1 Hr) as (s1 & Hf & Hs). destruct o1 as [y|msg|].
    + destruct Ho as [-> Hk]. rw follow_app Hf. by eapply IH.
    + destruct Ho as [-> ->]. by exists s1.
    + destruct Ho as [-> Hk]. rw follow_app Hf. apply steps_to_follow. move: Hs. apply steps_to_mono => s2 Hw. by eapply IH.
Qed.

Lemma wp_bind {A B} droppable (p : Prog A) (f : A -> Prog B) s post :
  wp droppable p s (fun s o => outcome_then o (fun a => wp droppable (f a) s post) (fun o => post s o)) ->
  wp droppable (prog_bind p f) s post.
Proof.
  elim: p f s post => {A} [A r|A msg|A e k IH|X A g body _ k IH|X A run _ k IH] f s post; cbn; auto.
  - intros [H1 H2]. split; [move=> x; move: (H1 x); apply steps_to_mono; auto|done].
  - apply wp_mono => s1 [y|msg|] Ho x; move: (Ho x); apply steps_to_mono; cbn; auto.
  - apply wp_mono => s1 [y|msg|]; [auto|auto|]. apply steps_to_mono. auto.
Qed.
End monitor.
End programs.

#[global] Instance prog_mbind `{Signature} : MBind Prog := fun A B f p => prog_bind p f.

Notation "'try!' x ':=' p 'in' k" := (mbind (M := Prog) (fun r => question r (fun x => k)) p)
  (at level 200, x name, p at level 200, k at level 200, right associativity).
