(* ===== verification/Main.v ===== *)
(** * The two programs

    Models factorio-cacher/src/main.rs and dsp-nebula-cacher/src/main.rs with what they call
    of common/src: quic.rs, upnp.rs, lib.rs, cli_args.rs and [get_local_ip] of utils.rs.
    Each function is a program in the sense of Effects.v.  The calls are those on the
    operating system, tokio, quinn, rustls and igd-next, and those on the components that
    the other files model (the proxies, the cache file and its writer, the LAN discovery).

    The programs open an endpoint and, if asked to, a port of the gateway, and must close
    both on every way out: at the end, at an error, at a panic, and at Ctrl-C.  Ctrl-C before
    [cli_wrapper] waits for it kills the process, like any other signal. *)

From Stdlib Require Import ssreflect SpecFloat.
From stdpp Require Import base numbers list gmap strings.
From S2P Require Import Prelude Buf Dedup ChunkCache CacheWriter ProtocolUtils Programs FactorioServerProxy FactorioRouting Effects.

#[local] Open Scope general_if_scope.

(** ** Calls *)

(** Values of the crates that the code only passes on, and the map of the chunk cache. *)
Class Opaque := {
  Certificate : Type;
  PrivateKey : Type;
  Gateway : Type;
  Gateway_eq_dec :: EqDecision Gateway;
  Connection : Type;
  Connection_eq_dec :: EqDecision Connection;
  CacheMap : Type;
  CacheMap_map :: LinkedHashMap CacheMap;
}.

(** The files that [include_bytes!] embeds. *)
Inductive PemFile := ROOT_CERT_DATA | END_CERT_DATA | END_PRIVATE_KEY_DATA.

(** The two fields of [quinn::TransportConfig] that the code sets, in milliseconds. *)
Record TransportConfig := mkTransportConfig { max_idle_timeout : option Z; keep_alive_interval : option Z }.

Inductive PortMappingProtocol := TCP | UDP.

Record UpnpPortMapping `{Opaque} := mkPortMapping { um_gateway : Gateway; um_port : Z }.

(** The [Arc<Mutex<SocketAddr>>] of factorio-cacher: who has the cell sees the address that
    is in it by then, which is [cell_initial] until the LAN discovery task writes to it. *)
Record AddressCell := mkAddressCell { cell_initial : SocketAddr }.

(** What [run_server] starts for a connection: [run_server_proxy] of one of the programs. *)
Inductive Handler :=
| FactorioHandler (message_transport : MessageTransport) (world_options : WorldOptions) (factorio_address_cell : AddressCell)
| NebulaHandler (message_transport : MessageTransport) (dsp_address : SocketAddr).

Inductive MainCall `{Opaque} : Type :=
| SetTimeOffsetToLocal
| TermLoggerInit
| LookupHost (host : string)
| StdUdpBind (addr : SocketAddr)
| StdUdpConnect (addr : SocketAddr)
| StdUdpLocalAddr
| UdpSocketBind (addr : SocketAddr)
| TcpListenerBind (addr : SocketAddr)
| PathAbsolute (path : string)
| PathExists (path : string)
| FileMetadata (path : string)
| LoadFromFile (size_limit : Z) (path : string)
| StartWriter (path : string) (save_interval compression_level : Z)
| CertificateFromPem (data : PemFile)
| PrivateKeyFromPem (data : PemFile)
| RootStoreAdd (cert : Certificate)
| WithRootCertificates (certs : list Certificate)
| WithSingleCert (certs : list Certificate) (key : PrivateKey)
| EndpointClient (local_address : SocketAddr)
| SetDefaultClientConfig (config : TransportConfig)
| EndpointServer (config : TransportConfig) (listen_address : SocketAddr)
| EndpointConnect (server_address : SocketAddr) (server_name : string)
| AwaitConnecting
| EndpointAccept
| AwaitIncoming
| SpawnHandler (connection : Connection) (handler : Handler)
| EndpointClose (code : Z) (reason : string)
| EndpointWaitIdle
| SearchGateway
| GatewayAddPort (gateway : Gateway) (protocol : PortMappingProtocol) (external_port : Z)
    (local_addr : SocketAddr) (lease_duration : Z) (description : string)
| GatewayRemovePort (gateway : Gateway) (protocol : PortMappingProtocol) (external_port : Z)
| SpawnLanDiscovery (factorio_address_cell : AddressCell)
| RunClientProxy (connection : Connection) (message_transport : MessageTransport) (chunk_cache : ChunkCache CacheMap)
| Forever.
Section main.
Context `{HO : Opaque}.
(** [TransportConfig::default()] of quinn. *)
Context (TransportConfig_default : TransportConfig).

Definition main_answer (e : MainCall) : Type :=
  match e with
  | LookupHost _ => result (list SocketAddr)
  | StdUdpLocalAddr => result SocketAddr
  | PathAbsolute _ => result string
  | PathExists _ => bool
  | FileMetadata _ => result Z
  | LoadFromFile _ _ => result (ChunkCache CacheMap)
  | CertificateFromPem _ => result Certificate
  | PrivateKeyFromPem _ => result PrivateKey
  | AwaitConnecting => result Connection
  | EndpointAccept => option unit
  | AwaitIncoming => result Connection
  | SearchGateway => result Gateway
  | StartWriter _ _ _ | SetDefaultClientConfig _ | SpawnHandler _ _ | EndpointClose _ _ | EndpointWaitIdle
  | SpawnLanDiscovery _ => unit
  | Forever => Empty_set
  | _ => result unit
  end.

Definition main_awaits (e : MainCall) : bool :=
  match e with
  | LookupHost _ | UdpSocketBind _ | TcpListenerBind _ | FileMetadata _ | LoadFromFile _ _ | AwaitConnecting
  | EndpointAccept | AwaitIncoming | EndpointWaitIdle | RunClientProxy _ _ _ | Forever => true
  | _ => false
  end.

(** [impl Drop for UpnpPortMapping] *)
Definition UpnpPortMapping_drop (m : UpnpPortMapping) : MainCall := GatewayRemovePort (um_gateway m) UDP (um_port m).

#[global] Instance main_signature : Signature := {|
  Call := MainCall;
  Answer := main_answer;
  awaits := main_awaits;
  Guard := UpnpPortMapping;
  drop_call := UpnpPortMapping_drop;
|}.

(** [anyhow::Context::context] *)
Definition context {A} (r : result A) (msg : string) : result A :=
  match r with Err _ => Err (Anyhow msg) | _ => r end.

(** ** quic.rs *)

Definition QUIC_IDLE_TIMEOUT : Z := 60000.
Definition QUIC_KEEPALIVE_INTERVAL : Z := 20000.

(** [Duration::try_into::<IdleTimeout>]: the milliseconds must fit a VarInt. *)
Definition IdleTimeout_try_from (d : Z) : result Z :=
  if d <? 2 ^ 62 then Ok d else Err (LibError "VarIntBoundsExceeded").

Definition make_client_config : Prog TransportConfig :=
  cert ← call (CertificateFromPem ROOT_CERT_DATA) ≫= unwrap;
  call (RootStoreAdd cert) ≫= unwrap;;
  call (WithRootCertificates [cert]) ≫= unwrap;;
  idle ← unwrap (IdleTimeout_try_from QUIC_IDLE_TIMEOUT);
  Ret (mkTransportConfig (Some idle) (Some QUIC_KEEPALIVE_INTERVAL)).

Definition make_server_config : Prog TransportConfig :=
  cert ← call (CertificateFromPem END_CERT_DATA) ≫= unwrap;
  private_key ← call (PrivateKeyFromPem END_PRIVATE_KEY_DATA) ≫= unwrap;
  call (WithSingleCert [cert] private_key) ≫= unwrap;;
  idle ← unwrap (IdleTimeout_try_from QUIC_IDLE_TIMEOUT);
  Ret (mkTransportConfig (Some idle) (keep_alive_interval TransportConfig_default)).

(** [lookup_host(host).await.expect(..).next().expect(..)] *)
Definition lookup_first (host : string) : Prog SocketAddr :=
  r ← call (LookupHost host);
  addrs ← expect_ok r "Error looking up host";
  match addrs with [] => Raise "No server address found" | a :: _ => Ret a end.

Definition is_ipv6 (a : SocketAddr) : bool := match a with SockV4 _ _ => false | SockV6 _ _ _ _ => true end.

Definition create_client_endpoint (server_address : string) : Prog SocketAddr :=
  server_address ← lookup_first server_address;
  let local_address := SocketAddr_new (if is_ipv6 server_address then V6 0 else V4 0) 0 in
  call (EndpointClient local_address) ≫= unwrap;;
  config ← make_client_config;
  call (SetDefaultClientConfig config);;
  Ret server_address.

Definition create_server_endpoint (listen_address : SocketAddr) : Prog unit :=
  config ← make_server_config;
  call (EndpointServer config listen_address) ≫= unwrap.

Definition client_connect (server_address : SocketAddr) : Prog (result Connection) :=
  try! _ := call (EndpointConnect server_address "localhost") in
  conn ← call AwaitConnecting;
  question (context conn "QUIC connecting") (fun conn => Ret (Ok conn)).

(** ** upnp.rs and [get_local_ip] *)

Definition LEASE_DURATION : Z := 24 * 60 * 60.

Definition get_local_ip : Prog (result IpAddr) :=
  try! _ := call (StdUdpBind (SocketAddr_new (V4 0) 0)) in
  try! _ := call (StdUdpConnect (SockV4 (be_val [Byte.x0a; Byte.xff; Byte.xff; Byte.xff]) 1)) in
  try! sock_addr := call StdUdpLocalAddr in
  Ret (Ok (addr_ip sock_addr)).

Definition open_port (port : Z) : Prog (result UpnpPortMapping) :=
  gateway ← call SearchGateway;
  question (context gateway "Finding gateway") (fun gateway =>
    local_ip ← get_local_ip;
    question (context local_ip "Getting local ip") (fun local_ip =>
      added ← call (GatewayAddPort gateway UDP port (SocketAddr_new local_ip port) LEASE_DURATION "FactorioCacher");
      question (context added "Adding port mapping") (fun _ => Ret (Ok (mkPortMapping _ gateway port))))).

(** The rest of a function that owns the mapping. *)
Definition owning {R} (mapping : option UpnpPortMapping) (body : Prog R) : Prog R :=
  match mapping with Some m => Scope m body Ret | None => body end.

(** ** lib.rs *)

Definition cli_wrapper (run : Prog (result unit)) : Prog (result unit) :=
  SelectCtrlC run (fun result =>
    call (EndpointClose 0 "quit");;
    SelectCtrlC (call EndpointWaitIdle) (fun _ => Ret (default (Ok tt) result))).

(** [n]: the number of connections that it accepts before it waits for good. *)
Fixpoint run_server (n : nat) (handle_conn : Handler) : Prog (result unit) :=
  match n with
  | O => Vis (Forever : Call) (fun x : Empty_set => match x with end)
  | S n =>
      incoming ← call EndpointAccept;
      match incoming with
      | None => Raise "called `Option::unwrap()` on a `None` value"
      | Some _ =>
          try! connection := call AwaitIncoming in
          call (SpawnHandler connection handle_conn);;
          run_server n handle_conn
      end
  end.

Definition create_chunk_cache (cache_options : CacheOptions) : Prog (result (ChunkCache CacheMap)) :=
  cache_path ← match cache_path cache_options with
    | Some p => Ret p
    | None => call (PathAbsolute "persistent-cache") ≫= unwrap
    end;
  let finish (chunk_cache : ChunkCache CacheMap) :=
    call (StartWriter cache_path (save_interval cache_options) (cache_compression_level cache_options));;
    Ret (Ok chunk_cache) in
  file_exists ← call (PathExists cache_path);
  if file_exists : bool then
    try! _ := call (FileMetadata cache_path) in
    try! chunk_cache := call (LoadFromFile (size_limit cache_options) cache_path) in
    finish chunk_cache
  else finish (ChunkCache_new (size_limit cache_options)).

Definition setup_logging : Prog unit :=
  call SetTimeOffsetToLocal ≫= unwrap;;
  r ← call TermLoggerInit;
  expect_ok r "Unable to init logger".

(** ** cli_args.rs

    An option is [None] if it is not on the command line. *)

Definition DEFAULT_ZSTD_COMPRESSION_LEVEL : Z := 11.

(** The fields of [client_args!]. *)
Record CommonClientArgs := mkCommonClientArgs {
  ca_cache_path : option string;
  ca_cache_limit : option Z;
  ca_cache_interval : option Z;
  ca_cache_compression : option Z;
  ca_net_compression : option Z;
}.

Definition client_cache_options (args : CommonClientArgs) : CacheOptions :=
  mkCacheOptions (ca_cache_path args) (default 500000000 (ca_cache_limit args))
    (default 60 (ca_cache_interval args)) (default 3 (ca_cache_compression args)).

Definition client_transport_options (args : CommonClientArgs) : TransportOptions :=
  mkTransportOptions (default DEFAULT_ZSTD_COMPRESSION_LEVEL (ca_net_compression args)).

(** The field of [server_args!]. *)
Record CommonServerArgs := mkCommonServerArgs { sa_net_compression : option Z }.

Definition server_transport_options (args : CommonServerArgs) : TransportOptions :=
  mkTransportOptions (default DEFAULT_ZSTD_COMPRESSION_LEVEL (sa_net_compression args)).
End main.

(** ** factorio-cacher/src/main.rs *)

Module Factorio.
Section program.
Context `{HO : Opaque} (TransportConfig_default : TransportConfig).

Record ClientArgs := mkClientArgs {
  cl_port : option Z;
  cl_host : option IpAddr;
  cl_server_address : string;
  cl_upnp : bool;
  cl_common : CommonClientArgs;
}.

Record ServerArgs := mkServerArgs {
  sv_port : option Z;
  sv_host : option IpAddr;
  sv_factorio_address : string;
  sv_upnp : bool;
  sv_auto_lan : bool;
  sv_world_est_multiplier : option spec_float;
  sv_common : CommonServerArgs;
}.

Inductive Subcommand := Client (args : ClientArgs) | Server (args : ServerArgs).

Definition client_port (args : ClientArgs) : Z := default 60120 (cl_port args).
Definition client_host (args : ClientArgs) : IpAddr := default (V4 0) (cl_host args).
Definition server_port (args : ServerArgs) : Z := default 60130 (sv_port args).
Definition server_host (args : ServerArgs) : IpAddr := default (V4 0) (sv_host args).

(** The double that is nearest to 1.6. *)
Definition DEFAULT_MULTIPLIER : spec_float := S754_finite false 7205759403792794 (-52).

Definition run_client (server_address : SocketAddr) (args : ClientArgs) : Prog (result unit) :=
  try! quic_connection := client_connect server_address in
  let listen_address := SocketAddr_new (client_host args) (client_port args) in
  try! _ := call (UdpSocketBind listen_address) in
  try! chunk_cache := create_chunk_cache (client_cache_options (cl_common args)) in
  let message_transport := create_message_transport (client_transport_options (cl_common args)) in
  try! mapping := (if cl_upnp args then try! m := open_port (client_port args) in Ret (Ok (Some m)) else Ret (Ok None)) in
  owning mapping
    (try! _ := call (RunClientProxy quic_connection message_transport chunk_cache) in Ret (Ok tt)).

Definition subcommand_client (args : ClientArgs) : Prog unit :=
  server_address ← create_client_endpoint (cl_server_address args);
  cli_wrapper (run_client server_address args) ≫= unwrap.

Definition subcommand_server (n : nat) (args : ServerArgs) : Prog unit :=
  factorio_address ← lookup_first (sv_factorio_address args);
  create_server_endpoint TransportConfig_default (SocketAddr_new (server_host args) (server_port args));;
  let message_transport := create_message_transport (server_transport_options (sv_common args)) in
  let world_options := mkWorldOptions (default DEFAULT_MULTIPLIER (sv_world_est_multiplier args)) in
  mapping ← (if sv_upnp args then (m ← open_port (server_port args) ≫= unwrap; Ret (Some m)) else Ret None);
  owning mapping
    (let factorio_address_cell := mkAddressCell factorio_address in
     (if sv_auto_lan args then call (SpawnLanDiscovery factorio_address_cell) else Ret tt);;
     cli_wrapper (run_server n (FactorioHandler message_transport world_options factorio_address_cell)) ≫= unwrap).

Definition main (n : nat) (args : Subcommand) : Prog unit :=
  setup_logging;;
  match args with Client args => subcommand_client args | Server args => subcommand_server n args end.

Definition asks_upnp (args : Subcommand) : bool := match args with Client a => cl_upnp a | Server a => sv_upnp a end.
Definition own_port (args : Subcommand) : Z := match args with Client a => client_port a | Server a => server_port a end.
End program.
End Factorio.

(** ** dsp-nebula-cacher/src/main.rs *)

Module Nebula.
Section program.
Context `{HO : Opaque} (TransportConfig_default : TransportConfig).

Record ClientArgs := mkClientArgs {
  cl_port : option Z;
  cl_host : option IpAddr;
  cl_server_address : string;
  cl_common : CommonClientArgs;
}.

Record ServerArgs := mkServerArgs {
  sv_port : option Z;
  sv_host : option IpAddr;
  sv_dsp_address : string;
  sv_upnp : bool;
  sv_common : CommonServerArgs;
}.

Inductive Subcommand := Client (args : ClientArgs) | Server (args : ServerArgs).

Definition client_port (args : ClientArgs) : Z := default 60120 (cl_port args).
Definition client_host (args : ClientArgs) : IpAddr := default (V4 0) (cl_host args).
Definition server_port (args : ServerArgs) : Z := default 60130 (sv_port args).
Definition server_host (args : ServerArgs) : IpAddr := default (V4 0) (sv_host args).

Definition run_client (server_address : SocketAddr) (args : ClientArgs) : Prog (result unit) :=
  try! quic_connection := client_connect server_address in
  let listen_address := SocketAddr_new (client_host args) (client_port args) in
  try! _ := call (TcpListenerBind listen_address) in
  try! chunk_cache := create_chunk_cache (client_cache_options (cl_common args)) in
  let message_transport := create_message_transport (client_transport_options (cl_common args)) in
  try! _ := call (RunClientProxy quic_connection message_transport chunk_cache) in
  Ret (Ok tt).

Definition subcommand_client (args : ClientArgs) : Prog unit :=
  server_address ← create_client_endpoint (cl_server_address args);
  cli_wrapper (run_client server_address args) ≫= unwrap.

Definition subcommand_server (n : nat) (args : ServerArgs) : Prog unit :=
  dsp_address ← lookup_first (sv_dsp_address args);
  create_server_endpoint TransportConfig_default (SocketAddr_new (server_host args) (server_port args));;
  let message_transport := create_message_transport (server_transport_options (sv_common args)) in
  mapping ← (if sv_upnp args then (m ← open_port (server_port args) ≫= unwrap; Ret (Some m)) else Ret None);
  owning mapping
    (cli_wrapper (run_server n (NebulaHandler message_transport dsp_address)) ≫= unwrap).

Definition main (n : nat) (args : Subcommand) : Prog unit :=
  setup_logging;;
  match args with Client args => subcommand_client args | Server args => subcommand_server n args end.

(** A client has no option for it. *)
Definition asks_upnp (args : Subcommand) : bool := match args with Client _ => false | Server a => sv_upnp a end.
Definition own_port (args : Subcommand) : Z := match args with Client a => client_port a | Server a => server_port a end.
End program.
End Nebula.

(** ** The port of the gateway *)

Section mapping.
Context `{HO : Opaque}.

(** What a program does for others: only while the port is open, if it is to be open. *)
Definition serving (e : MainCall) : bool :=
  match e with
  | RunClientProxy _ _ _ | EndpointAccept | AwaitIncoming | SpawnHandler _ _ | Forever => true
  | _ => false
  end.

(** The mapping: not opened yet; open; removed; or the gateway refused to remove it, and it
    stays until the lease is over ([drop] only logs that). *)
Inductive Mapping :=
| Unmapped
| Mapped (m : UpnpPortMapping)
| Removed
| RemovalFailed (m : UpnpPortMapping).

Definition is_mapped (s : Mapping) : bool := match s with Mapped _ => true | _ => false end.
Definition is_unmapped (s : Mapping) : bool := match s with Unmapped => true | _ => false end.

Definition mapping_guard (upnp : bool) (s : Mapping) (e : MainCall) : option Mapping :=
  if serving e && negb (if upnp then is_mapped s else is_unmapped s) then None else Some s.

(** The monitor of the mapping: it is opened once, for the port of the program, towards the
    same port of this host; the removal is requested once, of an open one; whoever is served
    is served while it is open if [upnp] asks for it, and otherwise it is never opened. *)
Definition mapping_step (upnp : bool) (port : Z) (s : Mapping) (ev : Event) : option Mapping :=
  match ev with
  | Answered e x =>
      match e as e return main_answer e -> option Mapping with
      | GatewayAddPort g protocol p local_addr lease _ => fun r =>
          match s, protocol with
          | Unmapped, UDP =>
              if decide (upnp = true /\ p = port /\ local_addr = SocketAddr_new (addr_ip local_addr) port /\ lease = LEASE_DURATION)
              then Some (match r with Ok _ => Mapped (mkPortMapping _ g p) | _ => s end) else None
          | _, _ => None
          end
      | GatewayRemovePort g protocol p => fun r =>
          match s, protocol with
          | Mapped m, UDP =>
              if decide (g = um_gateway m /\ p = um_port m)
              then Some (match r with Ok _ => Removed | _ => RemovalFailed m end) else None
          | _, _ => None
          end
      | e => fun _ => mapping_guard upnp s e
      end x
  | Abandoned e => mapping_guard upnp s e
  | CtrlC => Some s
  end.

(** No mapping is open for which the removal was not requested. *)
Definition mapping_done (s : Mapping) : Prop := is_mapped s = false.
End mapping.

Lemma addr_ip_new ip port : addr_ip (SocketAddr_new ip port) = ip.
Proof. by destruct ip. Qed.

(** Walk through a program: every answer, every early return, every drop. *)
Ltac walk_step :=
  match goal with
  | |- _ /\ _ => split
  | |- false = true -> _ => intros [=]
  | |- forall _, _ => intros ?
  | x : Empty_set |- _ => destruct x
  | |- context [unwrap (IdleTimeout_try_from ?d)] => change (IdleTimeout_try_from d) with (Ok d : result Z)
  | |- context [unwrap ?x] => is_var x; destruct x
  | |- context [expect_ok ?x _] => is_var x; destruct x
  | |- context [question ?x _] => is_var x; destruct x
  | |- context [context ?x _] => is_var x; destruct x
  | |- context [match ?x with _ => _ end] => is_var x; destruct x
  | |- context [is_ipv6 ?a] => is_var a; destruct a
  | |- steps_to _ _ _ _ => rewrite /steps_to /= ?addr_ip_new
  | |- context [decide ?P] => destruct (decide P) as [?|?]; [|by exfalso; naive_solver]
  end.
Ltac walk := repeat (walk_step; cbn; try done).


(** ** The endpoint of a client *)



Section client_monitor.
Context `{HO : Opaque}.



End client_monitor.

(** ** The endpoint of a server *)

(** Where a server is; [SvClosed true]: after an interrupt. *)
Inductive ServerPhase `{Opaque} :=
| SvStart
| SvResolved (target : SocketAddr)
| SvListening (target : SocketAddr)
| SvAccepted (target : SocketAddr)
| SvHandshaken (target : SocketAddr) (connection : Connection)
| SvRefused
| SvInterrupted
| SvClosed (interrupted : bool).

(** Where a handler sends the packets of the players, until LAN discovery changes it. *)
Definition handler_target (h : Handler) : SocketAddr :=
  match h with FactorioHandler _ _ cell => cell_initial cell | NebulaHandler _ a => a end.

Section server_monitor.
Context `{HO : Opaque} (auto_lan : bool) (listen_address : SocketAddr).

Definition server_guard (s : ServerPhase) (e : MainCall) : option ServerPhase :=
  match e, s with
  | EndpointAccept, SvListening _ | AwaitIncoming, SvAccepted _ | Forever, SvListening _ | EndpointWaitIdle, SvClosed _ => Some s
  | (EndpointAccept | AwaitIncoming | Forever | EndpointWaitIdle | EndpointClient _ | SetDefaultClientConfig _ | EndpointConnect _ _
    | AwaitConnecting | RunClientProxy _ _ _), _ => None
  | _, _ => Some s
  end.

(** The endpoint listens where it should and waits longer than a client's keep-alive
    interval; LAN discovery is started if [auto_lan] allows it, on a cell with the first
    address of the game's server; every connection whose handshake succeeds gets a handler,
    for that address or with that cell, before the next one is accepted; the endpoint is
    closed after an interrupt or a failed handshake only. *)
Definition server_step (s : ServerPhase) (ev : Event) : option ServerPhase :=
  match ev with
  | Answered e x =>
      match e as e return main_answer e -> option ServerPhase with
      | LookupHost _ => fun r =>
          match s, r with SvStart, Ok (a :: _) => Some (SvResolved a) | SvStart, _ => Some s | _, _ => None end
      | EndpointServer config addr => fun r =>
          match s, max_idle_timeout config with
          | SvResolved a, Some idle =>
              if decide (addr = listen_address /\ QUIC_KEEPALIVE_INTERVAL < idle)
              then Some (match r with Ok _ => SvListening a | _ => s end) else None
          | _, _ => None
          end
      | EndpointAccept => fun r =>
          match s with SvListening a => Some (match r with Some _ => SvAccepted a | None => s end) | _ => None end
      | AwaitIncoming => fun r =>
          match s with SvAccepted a => Some (match r with Ok c => SvHandshaken a c | _ => SvRefused end) | _ => None end
      | SpawnHandler c h => fun _ =>
          match s with
          | SvHandshaken a c' => if decide (c = c' /\ handler_target h = a) then Some (SvListening a) else None
          | _ => None
          end
      | SpawnLanDiscovery cell => fun _ =>
          match s with
          | SvListening a => if decide (auto_lan = true /\ cell_initial cell = a) then Some s else None
          | _ => None
          end
      | EndpointClose code reason => fun _ =>
          match s with SvInterrupted => Some (SvClosed true) | SvRefused => Some (SvClosed false) | _ => None end
      | e => fun _ => server_guard s e
      end x
  | Abandoned e => server_guard s e
  | CtrlC =>
      match s with
      | SvListening _ | SvAccepted _ => Some SvInterrupted
      | SvClosed _ => Some s
      | _ => None
      end
  end.

(** How a server ends: it returns exactly when it was interrupted. *)
Definition server_done (s : ServerPhase) (o : Outcome unit) : Prop :=
  match o with
  | Returned _ => s = SvClosed true
  | Panicked _ => s <> SvClosed true /\ s <> SvInterrupted
  | DroppedFuture => False
  end.
End server_monitor.

(** ** All executions *)

Section executions.
Context `{HO : Opaque}.

Lemma run_server_mapping (upnp : bool) port n h (s : Mapping) :
  (if upnp then is_mapped s else is_unmapped s) = true -> wp (mapping_step upnp port) true (run_server n h) s (fun s' _ => s' = s).
Proof. destruct upnp, s as [|m| |m]; move=> // _; elim: n => [|n IH]; cbn; walk. Qed.

(** How the loop of a server is left. *)
Definition server_left (a : SocketAddr) (s : ServerPhase) (o : Outcome (result unit)) : Prop :=
  match o with
  | Returned (Err _) => s = SvRefused
  | Returned _ => False
  | Panicked _ => s = SvListening a \/ s = SvRefused
  | DroppedFuture => s = SvListening a \/ s = SvAccepted a
  end.

Lemma run_server_endpoint auto_lan listen_address n h :
  wp (server_step auto_lan listen_address) true (run_server n h) (SvListening (handler_target h)) (server_left (handler_target h)).
Proof. elim: n => [|n IH]; cbn; walk; auto. Qed.

(** What [cli_wrapper] does after the loop. *)
Ltac walk_server_left :=
  let Ho := fresh "Ho" in
  cbn; intros ? [[]|?|] Ho; cbn in Ho; repeat (destruct Ho as [Ho|Ho]); try done; subst; walk.

Lemma factorio_client_mapping args :
  wp (mapping_step (Factorio.cl_upnp args) (Factorio.client_port args)) false (Factorio.subcommand_client args) Unmapped
    (fun s _ => mapping_done s).
Proof. destruct args as [port host addr upnp [path ? ? ? ?]]. cbn. walk. Qed.


Lemma nebula_client_mapping args :
  wp (mapping_step false (Nebula.client_port args)) false (Nebula.subcommand_client args) Unmapped (fun s _ => mapping_done s).
Proof. destruct args as [port host addr [path ? ? ? ?]]. cbn. walk. Qed.


Context (TransportConfig_default : TransportConfig).

Lemma factorio_server_mapping n args :
  wp (mapping_step (Factorio.sv_upnp args) (Factorio.server_port args)) false
    (Factorio.subcommand_server TransportConfig_default n args) Unmapped (fun s _ => mapping_done s).
Proof.
  destruct args as [port host addr upnp lan ? [level]]. cbn. walk.
  all: eapply wp_mono; [|by apply run_server_mapping]; cbn; intros s2 o ->; walk.
Qed.

Lemma factorio_server_endpoint n args :
  wp (server_step (Factorio.sv_auto_lan args) (SocketAddr_new (Factorio.server_host args) (Factorio.server_port args))) false
    (Factorio.subcommand_server TransportConfig_default n args) SvStart server_done.
Proof.
  destruct args as [port host addr upnp lan ? [level]]. cbn. walk.
  all: eapply wp_mono; [|by apply run_server_endpoint]; walk_server_left.
Qed.

Lemma nebula_server_mapping n args :
  wp (mapping_step (Nebula.sv_upnp args) (Nebula.server_port args)) false
    (Nebula.subcommand_server TransportConfig_default n args) Unmapped (fun s _ => mapping_done s).
Proof.
  destruct args as [port host addr upnp [level]]. cbn. walk.
  all: eapply wp_mono; [|by apply run_server_mapping]; cbn; intros s2 o ->; walk.
Qed.


(** [setup_logging] comes first and is none of the monitors' business. *)
Lemma after_logging {St} (step : St -> Event -> option St) (p : Prog unit) s post :
  (forall x, step s (Answered SetTimeOffsetToLocal x) = Some s) -> (forall x, step s (Answered TermLoggerInit x) = Some s) ->
  (forall msg, post s (Panicked msg)) -> wp step false p s post -> wp step false (setup_logging;; p) s post.
Proof.
  move=> H1 H2 Hp Hwp. cbn. split; [|done]. move=> [a|e|msg]; rw /steps_to H1 //=. split; [|done].
  move=> [a'|e|msg]; rw /steps_to H2; cbn; auto.
Qed.
End executions.

(** ** The cache of a client

    [create_chunk_cache] with the answers of a disk is what Programs.v says of it. *)

Section cache.
Context `{HO : Opaque, Blake3, Zstd}.

(** The file operations, as the disk answers them for the cache path. *)
Definition disk_answers (p : Path) (d : Disk) (metadata : result Z) (ev : Event) : Prop :=
  match ev with
  | Answered e x =>
      match e as e return main_answer e -> Prop with
      | PathExists _ => fun r => r = bool_decide (is_Some (d !! p))
      | FileMetadata _ => fun r => r = metadata
      | LoadFromFile limit _ => fun r => r = load_from_file limit (d !! p)
      | _ => fun _ => True
      end x
  | _ => True
  end.

Lemma create_chunk_cache_refines (cache_options : CacheOptions) (path : string) (p : Path) (d : Disk) metadata tr o :
  cache_path cache_options = Some path -> exec false (create_chunk_cache cache_options) tr o ->
  Forall (disk_answers p d metadata) tr ->
  match Programs.create_chunk_cache (M := CacheMap) p cache_options ((fun _ => tt) <$> metadata) d with
  | Ok start =>
      o = Returned (Ok (ws_cache start)) /\ ws_disk start = d /\
      last tr = Some (Answered (StartWriter path (save_interval cache_options) (cache_compression_level cache_options)) tt)
  | Err e => o = Returned (Err e)
  | Panic msg => o = Panicked msg
  end.
Proof.
  move=> Hpath. rw /create_chunk_cache /Programs.create_chunk_cache Hpath. cbn -[load_from_file].
  intros [([] & t1 & -> & H1)|[[=] _]] [Hx Ht]%Forall_cons; cbn -[load_from_file] in Hx.
  - destruct (d !! p) as [b|] eqn:Hf; [|done]. cbn -[load_from_file] in H1.
    destruct H1 as [(r & t2 & -> & H2)|[[=] _]]. apply Forall_cons in Ht as [-> Ht].
    destruct metadata as [size|e|msg]; cbn -[load_from_file] in H2 |- *; [|by destruct H2 as [_ ->]..].
    destruct H2 as [(r3 & t3 & -> & H3)|[[=] _]]. apply Forall_cons in Ht as [Hr Ht]. cbn -[load_from_file] in Hr. rw Hf in Hr. subst r3. cbn -[load_from_file].
    destruct (load_from_file _ _) as [c|e|msg]; cbn in H3 |- *; [|by destruct H3 as [_ ->]..].
    by destruct H3 as [([] & t4 & -> & -> & ->)|[[=] _]].
  - destruct (d !! p) as [b|]; [done|]. cbn in H1 |- *. by destruct H1 as [([] & t2 & -> & -> & ->)|[[=] _]].
Qed.
End cache.

(** A handshake that fails ends the server: it is on its way to a panic, and nothing but
    closing the endpoint follows. *)
Lemma refused_for_good `{HO : Opaque} auto_lan listen_address tr s :
  follow (server_step auto_lan listen_address) SvRefused tr = Some s \/ follow (server_step auto_lan listen_address) (SvClosed false) tr = Some s ->
  s = SvRefused \/ s = SvClosed false.
Proof.
  elim: tr => [|ev tr IH]; cbn; [intros [[= <-]|[= <-]]; auto|].
  intros [Hf|Hf]; apply IH; (destruct ev as [e x|e|]; [destruct e; cbn in Hf|destruct e; cbn in Hf|cbn in Hf]);
    repeat case_match; simplify_eq/=; auto.
Qed.

(** Whoever connected before, a failed handshake ends a server with a panic. *)
Lemma failed_handshake_stops_server `{HO : Opaque} default_config n args t1 e t2 o :
  exec false (Factorio.main default_config n (Factorio.Server args)) (t1 ++ Answered (AwaitIncoming : Call) (Err e) :: t2) o ->
  exists msg, o = Panicked msg.
Proof.
  move=> Hex. have Hwp := factorio_server_endpoint default_config n args.
  apply (after_logging _ _ SvStart server_done) in Hwp; [|done..].
  destruct (wp_sound _ _ _ _ _ Hwp _ _ Hex) as (s & Hs & Hdone). rw follow_app in Hs.
  destruct (follow _ SvStart t1) as [s1|]; [|done]. cbn in Hs. destruct s1; try done.
  destruct (refused_for_good _ _ _ _ (or_introl Hs)) as [->| ->]; destruct o; try done; by eexists.
Qed.

(** ** Properties *)

Section properties.
Context `{HO : Opaque} (TransportConfig_default : TransportConfig).

(** C25: the removal of the port mapping is requested on every way out.  In every execution of
    either program, whatever the gateway, the network and the other components answer and
    wherever an error, a panic or Ctrl-C (once [cli_wrapper] waits for it) ends it: a mapping
    of the gateway is opened at most once, only if the option asks for it, for the port of
    the program, to the same port of this host and for 24 hours; with the option, players or
    clients are served only between its opening and the request to remove it (it is not
    renewed when the 24 hours are over); and before the program ends the gateway was asked
    once to remove it, so that it is closed unless the gateway refuses (the refusal is
    only logged).  A process that is killed, which includes Ctrl-C before [cli_wrapper],
    leaves the beginning of such an execution: all this holds up to there, but the mapping
    may then stay open until the lease is over. *)
Theorem port_mapping_removed :
  (forall n args tr o, exec false (Factorio.main TransportConfig_default n args) tr o ->
     exists s, follow (mapping_step (Factorio.asks_upnp args) (Factorio.own_port args)) Unmapped tr = Some s /\ mapping_done s) /\
  (forall n args tr o, exec false (Nebula.main TransportConfig_default n args) tr o ->
     exists s, follow (mapping_step (Nebula.asks_upnp args) (Nebula.own_port args)) Unmapped tr = Some s /\ mapping_done s) /\
  (forall n args tr, killed (Factorio.main TransportConfig_default n args) tr ->
     is_Some (follow (mapping_step (Factorio.asks_upnp args) (Factorio.own_port args)) Unmapped tr)) /\
  (forall n args tr, killed (Nebula.main TransportConfig_default n args) tr ->
     is_Some (follow (mapping_step (Nebula.asks_upnp args) (Nebula.own_port args)) Unmapped tr)).
Proof.
  have HF n args : accepts (mapping_step (Factorio.asks_upnp args) (Factorio.own_port args)) false
      (Factorio.main TransportConfig_default n args) Unmapped (fun s _ => mapping_done s).
  { apply wp_sound, after_logging; [done|done|done|]. destruct args; [apply factorio_client_mapping|apply factorio_server_mapping]. }
  have HN n args : accepts (mapping_step (Nebula.asks_upnp args) (Nebula.own_port args)) false
      (Nebula.main TransportConfig_default n args) Unmapped (fun s _ => mapping_done s).
  { apply wp_sound, after_logging; [done|done|done|]. destruct args; [apply nebula_client_mapping|apply nebula_server_mapping]. }
  split_and!.
  - move=> n args tr o. apply HF.
  - move=> n args tr o. apply HN.
  - move=> n args tr. apply (accepts_killed _ _ _ _ _ (HF n args)).
  - move=> n args tr. apply (accepts_killed _ _ _ _ _ (HN n args)).
Qed.

End properties.

(** ** Witnesses *)

Definition sample_opaque : Opaque := {|
  Certificate := unit; PrivateKey := unit; Gateway := nat; Connection := nat; CacheMap := AList;
|}.
#[local] Existing Instance sample_opaque.

Definition sample_default : TransportConfig := mkTransportConfig (Some 30000) None.

Definition sample_client : Factorio.Subcommand := Factorio.Client
  (Factorio.mkClientArgs None None "example.org:60130" true (mkCommonClientArgs (Some "cache"%string) None None None None)).

Definition sample_server_addr : SocketAddr := SockV6 1 60130 0 0.
Definition sample_own_addr : SocketAddr := SockV4 3232235777 50000.

(** A client that is interrupted while it serves its players. *)
Definition sample_setup : list Event := [
  Answered (SetTimeOffsetToLocal : Call) (Ok tt);
  Answered (TermLoggerInit : Call) (Ok tt);
  Answered (LookupHost "example.org:60130" : Call) (Ok [sample_server_addr]);
  Answered (EndpointClient (SockV6 0 0 0 0) : Call) (Ok tt);
  Answered (CertificateFromPem ROOT_CERT_DATA : Call) (Ok tt);
  Answered (RootStoreAdd (tt : @Certificate sample_opaque) : Call) (Ok tt);
  Answered (WithRootCertificates [tt : @Certificate sample_opaque] : Call) (Ok tt);
  Answered (SetDefaultClientConfig (mkTransportConfig (Some 60000) (Some 20000)) : Call) tt].

Definition sample_connect : list Event := [
  Answered (EndpointConnect sample_server_addr "localhost" : Call) (Ok tt);
  Answered (AwaitConnecting : Call) (Ok 7%nat);
  Answered (UdpSocketBind (SockV4 0 60120) : Call) (Ok tt);
  Answered (PathExists "cache" : Call) false;
  Answered (StartWriter "cache" 60 3 : Call) tt;
  Answered (SearchGateway : Call) (Ok 5%nat);
  Answered (StdUdpBind (SockV4 0 0) : Call) (Ok tt);
  Answered (StdUdpConnect (SockV4 184549375 1) : Call) (Ok tt);
  Answered (StdUdpLocalAddr : Call) (Ok sample_own_addr);
  Answered (GatewayAddPort (5%nat : @Gateway sample_opaque) UDP 60120 (SockV4 3232235777 60120) 86400 "FactorioCacher" : Call) (Ok tt);
  Abandoned (RunClientProxy (7%nat : @Connection sample_opaque) (mkTransport 11) (ChunkCache_new 500000000) : Call)].

Definition sample_exit : list Event := [
  Answered (GatewayRemovePort (5%nat : @Gateway sample_opaque) UDP 60120 : Call) (Err (LibError "timeout"));
  CtrlC;
  Answered (EndpointClose 0 "quit" : Call) tt;
  Answered (EndpointWaitIdle : Call) tt].

Ltac answer := left; do 2 eexists; split; [reflexivity|cbn].

Lemma sample_execution :
  exec false (Factorio.main sample_default 0 sample_client) (sample_setup ++ sample_connect ++ sample_exit) (Returned tt).
Proof.
  cbn. do 8 answer.
  eexists (sample_connect ++ take 1 sample_exit), DroppedFuture, (drop 2 sample_exit). split; [|split; [reflexivity|]].
  - do 10 answer. eexists (drop 10 sample_connect), DroppedFuture, _, []. split; [|split; [reflexivity|done]].
    right. by split_and!.
  - answer. eexists (drop 3 sample_exit), (Returned tt), []. split; [by answer|]. by split.
Qed.

Lemma port_mapping_removed_witness :
  exists s, follow (mapping_step true 60120) Unmapped (sample_setup ++ sample_connect ++ sample_exit) = Some s /\
    mapping_done s /\ s = RemovalFailed (mkPortMapping _ (5%nat : @Gateway sample_opaque) 60120).
Proof.
  destruct (proj1 (port_mapping_removed sample_default) 0%nat sample_client _ _ sample_execution) as (s & Hs & Hd).
  exists s. split; [exact Hs|]. split; [exact Hd|]. cbn in Hs. by injection Hs as <-.
Defined.

